(* ===== verification/_CoqProject ===== *)
-Q . S2P
Prelude.v
Syntax.v
Crypto.v
Block.v
Mst.v
Concrete.v
MstLogic.v
MstShape.v
MstRead.v
MstWrite.v
MstStore.v
MstFacts.v
Json.v
Car.v
MstDiff.v
MstWalk.v
Repo.v
RepoFacts.v
Ip.v
Limit.v
LimitFacts.v
Text.v
Numbers.v
Config.v
Handles.v
Storage.v
Blobs.v
Paging.v
Opening.v
DidCache.v
Turns.v
Actor.v
ActorFacts.v
ActorReads.v
Links.v
Plc.v
Accounts.v
AccountsFacts.v
Passwords.v
Xrpc.v
Auth.v
Writes.v
Sessions.v
SessionsFacts.v
Log.v
Signup.v
Serving.v
Answers.v
Requests.v
Client.v
Routes.v
RecordMethods.v
SyncMethods.v
AccountMethods.v
LogFacts.v
WritesFacts.v
WritesRaces.v
SignupFacts.v
ServingFacts.v
RecordFacts.v
ListingFacts.v
CrawlFacts.v
RequestFacts.v
AccountFacts.v
