(* ===== verification/Prelude.v ===== *)
(** * manapds: an AT Protocol personal data server, modelled and proved

    The repository is a server that keeps people's repositories.  A repository is
    a map from record paths to records, held as a Merkle search tree whose root a
    commit signs; the server makes accounts, signs their identifiers into a
    directory, takes batches of writes over HTTP, and hands the records, the
    blobs and the signed tree to whoever asks.  This development models the code
    under [src/src/] function by function and proves what its parts promise, and
    what they promise together.

    ** How the program is laid out, and where each part is modelled

    - [syntax.rs], [syntax/]: the identifiers of the protocol, in [Syntax].
    - [crypto.rs]: keys, signatures, encodings, in [Crypto]; the curves are crates
      and a parameter there ([Curve], with [CurveOk] for what is relied on).
    - [repo/block.rs]: CIDs and block stores, in [Block]; [repo/mst.rs]: the tree,
      in [Mst] (reading, writing, hashing, storing) and [MstDiff] (what a revision
      drops); [repo/car.rs]: [Car]; [repo/json.rs]: [Json]; [repo.rs] and
      [repo/commit.rs]: [Repo].
    - [store.rs], [store/db.rs]: the data directory, its migrations and the wait
      for a database, in [Storage] and [Opening]; [store/blobs.rs]: [Blobs], over
      a file system of names and inodes; [store/actor.rs]: one account's database,
      in [Actor]; [store/accounts.rs]: [Accounts]; [store/sequencer.rs] and
      [event.rs]: the event log, in [Log]; [store/keys.rs]: in [Signup];
      [store/did_cache.rs]: [DidCache].
    - [account.rs], the manager over all of it: [Writes] (a batch, planned and
      committed), [Sessions] (signing in, refresh tokens, app passwords, invites),
      [Signup] (an account made or taken back), [Serving] (everything read,
      downloaded, uploaded and swept, and a write with all that follows it),
      [Turns] (who writes when, and how long a sign-in takes).  Under
      [account/]: [Handles], [Links], [Passwords].
    - [plc.rs]: the identifier directory, in [Plc] (operations and the exchanges
      that register one) and [Client] (those exchanges over HTTP).
    - [config.rs], [main.rs]: the settings, in [Config].
    - [xrpc.rs], [xrpc/]: [Xrpc] (statuses and errors), [Auth] (tokens and the
      Authorization header), [Limit] (budgets), [Requests] and [Routes] (what a
      request reaches).  [server.rs], [server/]: the methods, in [RecordMethods],
      [SyncMethods] and [AccountMethods]; and how an error is answered, in
      [Answers].
    - The parts of Rust and its library the sources lean on are this file, [Text],
      [Numbers] and [Ip]; [Paging] is the argument about lists read a page at a
      time, and [Concrete] the instances the witnesses run at.

    ** How the parts interact

    A request is routed ([Routes]), charged to its budgets ([Limit]), and its
    credentials read ([Auth]); a method ([RecordMethods], [SyncMethods],
    [AccountMethods]) is a step over the server and the budgets that reads what it
    was sent and calls the manager.  The state of the manager is [Signup.Server]:
    the account tables, the reserved keys, a directory for each account, the blob
    files, the TID clock and the log.  A write takes its account's turn
    ([Turns]), is planned against the index ([Writes.plan]), worked out against the
    tree ([Repo.apply], over [Mst]), committed to the account's database on the
    root it was built on ([Actor.commit]) or tried again, then logged
    ([Log.log_commit]).  What another process does between two attempts is a
    function of the attempt ([others]); what a clock reads and what is drawn at
    random are arguments.

    ** What is proved

    - The tree: every operation does to the tree what it does to a finite map,
      errors included; the root is a function of the records and not of their
      history, as long as nothing is written into a tree just emptied; what is
      stored reads back; what a revision drops is found
      ([MstShape], [MstLogic], [MstRead], [MstWrite], [MstStore], [MstFacts],
      [MstWalk]).
    - Formats: CAR files, records as JSON, identifiers, keys, tokens and the
      settings' values round trip, and what reading accepts was checked ([Car],
      [Json], [Syntax], [Crypto], [Auth], [Config]).
    - A repository: an accepted batch is committed, signed and complete, a refused
      one changes nothing ([RepoFacts]); an account's store stays consistent and a
      commit is all or nothing ([ActorFacts]); index, blocks and tree stay in step
      through a write of the whole server ([WritesFacts], [ServingFacts]), whatever
      other writers land between its attempts ([WritesRaces]).
    - Reading: a record put is the record read ([RecordFacts]); pages followed by
      their cursors read a whole collection, the whole host, and the whole log,
      once and in order, and end ([ActorReads], [ListingFacts], [CrawlFacts],
      [LogFacts]); a download is the repository ([ServingFacts]) and a log entry
      carries a revision ([LogFacts]).
    - Accounts: one account for every name, and no invite spent by signups more
      often than it was issued for, whatever operations ran ([AccountsFacts]);
      a signup is whole or taken back, and what hanging up on one leaves, await by
      await ([SignupFacts]); a refresh token has one successor, whatever runs beside its
      exchanges, and a sign-in is by a password ([SessionsFacts]); whoever signed up can sign in, an app
      password lives until it is revoked and a session until it is closed
      ([AccountFacts]); a database is brought to its schema, and
      waiting for one ends ([Opening]); writers take turns, as a step relation over
      the table of locks ([Turns]).
    - The edge: tokens accepted were signed here ([Auth]); nobody writes to
      anybody else's repository and what is written is well typed
      ([RequestFacts]); budgets hold callers to what they say and a caller cannot
      be forged ([LimitFacts]); every failure is answered as what it is
      ([Answers]); every request has one place to go ([Routes]); the directory is
      believed only in its own words ([Client]).

    ** What modelling showed

    [MstFacts.stale_layer]: a batch that empties the tree and then adds a record
    hangs it on a stale layer, so the root is not the one the records give
    elsewhere.  The theorems about what a batch leaves ask that it is not such a
    batch ([MstFacts.never_refilled], [RepoFacts.never_refills]): it may take the
    last record out, as its last write.
    [SignupFacts.hanging_up_on_a_signup]: two awaits at which a caller hanging up
    leaves an account deleted that the directory holds, or one registered after it
    was taken back.  [MstWalk.dropped_may_still_be_reached]: a block another record
    still reaches is listed as dropped (the store checks its index before it
    deletes).  [Syntax.mint_repeats_at_the_top]: at the end of its field the
    clock repeats itself.

    ** Fuel and bounds

    The recursion of the tree is on [Mst.MAX_DEPTH], the code's own limit, and needs
    no other.  The walk for what was dropped takes one turn for each node and leaf
    of the two trees, and any fuel above that count answers
    ([MstWalk.dropped_is_what_is_gone]).  A download wants a page more
    than there are rows, an exchange of a refresh token three turns, a wait for a
    database a thousand and one tries, a client following cursors one more than the
    rows there are; each theorem gives the bound and proves there is an answer
    under it.  Integers are [Z] with their width written out where it can be
    reached: saturating counts in [Limit], the 53-bit field of a TID, the
    [Duration] of [Turns], cursors and page sizes in the methods.

    ** What is not modelled, and why

    What belongs to crates is a parameter with the laws it documents: hashing
    and HMAC, the curves, scrypt, dag-cbor and JSON codecs, base58 and base64,
    varints, the binary and text forms of a CID, [jiff]'s text of a moment, path
    matching, and whatever carries a request to the directory.  [Concrete] and the
    files' own [Sample] modules give each an instance the theorems run at.
    SQLite's tables are finite maps with their constraints; that its disk fails is
    not modelled, beyond a signup being undone, nor is which call finds it locked
    by another connection: what is answered to that error is ([Storage.busy],
    [Answers]).  Binding the socket, the logger,
    signals, CORS and streaming a body are calls into [tokio], [axum] and [tower]
    with nothing of the program's own in them.  The semaphores that bound hashing
    and downloads only wait.  The list of reserved names is data, of which the
    rules are proved and the names copied.

    ** This file

    The parts of Rust and of its standard library the sources lean on, as
    executable functions, with the lemmas and the automation the component files
    use:

    - [result], Rust's [Result], with the monad operations behind [?];
    - byte strings: a Rust [&str] is the list of its UTF-8 bytes, each a [Z],
      with [len], [starts_with], [strip_prefix], [split], [split_once],
      [from_utf8], [is_char_boundary] and the ASCII classes of [u8];
    - the byte order on strings, which is the order of Rust's [Ord for str]
      and the order of a SQLite text column;
    - saturating arithmetic on unsigned machine integers.

    No component of the server is modelled here. *)

From stdpp Require Export base list gmap strings sorting.
From Stdlib Require Export ZArith.
From Stdlib Require Import Lia.

(* ------------------------------------------------------------------ *)
(** ** Results *)

(** Rust's [Result<A, E>]. *)
Inductive result (E A : Type) : Type :=
| Ok (a : A)
| Err (e : E).
Arguments Ok {E A} a.
Arguments Err {E A} e.

Declare Scope pds_scope.
Delimit Scope pds_scope with pds.

#[export] Instance result_ret E : MRet (result E) := fun A a => Ok a.

#[export] Instance result_bind E : MBind (result E) :=
  fun A B f m => match m with Ok a => f a | Err e => Err e end.

#[export] Instance result_fmap E : FMap (result E) :=
  fun A B f m => match m with Ok a => Ok (f a) | Err e => Err e end.

#[export] Instance result_eq_dec {E A} `{EqDecision E} `{EqDecision A} :
  EqDecision (result E A).
Proof. solve_decision. Defined.

(** [Result::is_ok]. *)
Definition is_ok {E A} (r : result E A) : bool :=
  match r with Ok _ => true | Err _ => false end.

(** [Result::map_err]. *)
Definition map_err {E F A} (f : E -> F) (r : result E A) : result F A :=
  match r with Ok a => Ok a | Err e => Err (f e) end.

(** [Option::ok_or]. *)
Definition ok_or {E A} (o : option A) (e : E) : result E A :=
  match o with Some a => Ok a | None => Err e end.

(** [Option<Result<A, E>>::transpose]. *)
Definition transpose {E A} (o : option (result E A)) : result E (option A) :=
  match o with
  | None => Ok None
  | Some (Ok a) => Ok (Some a)
  | Some (Err e) => Err e
  end.

(** [Iterator::collect::<Result<Vec<_>, _>>]: the first error wins. *)
Fixpoint collect {E A} (rs : list (result E A)) : result E (list A) :=
  match rs with
  | [] => Ok []
  | Ok a :: rs => match collect rs with Ok l => Ok (a :: l) | Err e => Err e end
  | Err e :: _ => Err e
  end.

(* ------------------------------------------------------------------ *)
(** ** Byte strings *)

Abbreviation bytes := (list Z).

(** A string literal as the bytes it is written with. *)
Fixpoint lit (s : string) : bytes :=
  match s with
  | EmptyString => []
  | String c s => Z.of_N (Ascii.N_of_ascii c) :: lit s
  end.

(** [str::len], which counts bytes. *)
Definition len {A} (s : list A) : Z := Z.of_nat (length s).

(** [u8::is_ascii_digit], [u8::is_ascii_lowercase], [u8::is_ascii_uppercase],
    [u8::is_ascii_alphabetic], [u8::is_ascii_alphanumeric]. *)
Definition between (lo x hi : Z) : bool := (lo <=? x)%Z && (x <=? hi)%Z.
Definition is_ascii_digit (b : Z) : bool := between 48 b 57.
Definition is_ascii_lowercase (b : Z) : bool := between 97 b 122.
Definition is_ascii_uppercase (b : Z) : bool := between 65 b 90.
Definition is_ascii_alphabetic (b : Z) : bool :=
  is_ascii_lowercase b || is_ascii_uppercase b.
Definition is_ascii_alphanumeric (b : Z) : bool :=
  is_ascii_alphabetic b || is_ascii_digit b.

(** [u8::to_ascii_lowercase]. *)
Definition to_ascii_lowercase (b : Z) : Z :=
  if is_ascii_uppercase b then (b + 32)%Z else b.

(** A byte pattern [matches!(b, b'x' | ..)], the alternatives as a literal. *)
Definition one_of (s : string) (b : Z) : bool := existsb (Z.eqb b) (lit s).

(** [str::strip_prefix] and [str::starts_with]. *)
Fixpoint strip_prefix (p s : bytes) : option bytes :=
  match p, s with
  | [], _ => Some s
  | x :: p, y :: s => if (x =? y)%Z then strip_prefix p s else None
  | _ :: _, [] => None
  end.
Definition starts_with (p s : bytes) : bool :=
  match strip_prefix p s with Some _ => true | None => false end.

(** [str::starts_with] and [str::ends_with] with a predicate on the first and
    the last character. *)
Definition head_is (f : Z -> bool) (s : bytes) : bool :=
  match head s with Some b => f b | None => false end.
Definition last_is (f : Z -> bool) (s : bytes) : bool :=
  match last s with Some b => f b | None => false end.

(** [str::contains] of one ASCII character. *)
Definition contains (c : Z) (s : bytes) : bool := existsb (Z.eqb c) s.

(** [str::split] on one ASCII character: never empty, and the pieces joined
    with that character are the input. *)
Fixpoint split_on (c : Z) (s : bytes) : list bytes :=
  match s with
  | [] => [[]]
  | x :: s =>
      if (x =? c)%Z then [] :: split_on c s
      else match split_on c s with
           | piece :: rest => (x :: piece) :: rest
           | [] => [[x]]
           end
  end.

(** [<[&str]>::join] with one character. *)
Fixpoint join (c : Z) (pieces : list bytes) : bytes :=
  match pieces with
  | [] => []
  | [piece] => piece
  | piece :: rest => piece ++ c :: join c rest
  end.

(** [str::split_once] on one ASCII character. *)
Fixpoint split_once (c : Z) (s : bytes) : option (bytes * bytes) :=
  match s with
  | [] => None
  | x :: s =>
      if (x =? c)%Z then Some ([], s)
      else match split_once c s with
           | Some (a, b) => Some (x :: a, b)
           | None => None
           end
  end.

(** A UTF-8 continuation byte. *)
Definition is_continuation (b : Z) : bool := between 128 b 191.

(** [str::from_utf8] succeeding: the well-formed sequences of Unicode, which
    leave out overlong forms, surrogates and anything past U+10FFFF. *)
Fixpoint from_utf8 (s : bytes) : bool :=
  match s with
  | [] => true
  | b0 :: s1 =>
      if between 0 b0 127 then from_utf8 s1
      else match s1 with
      | [] => false
      | b1 :: s2 =>
          if between 194 b0 223 then is_continuation b1 && from_utf8 s2
          else match s2 with
          | [] => false
          | b2 :: s3 =>
              if between 224 b0 239 then
                between (if (b0 =? 224)%Z then 160 else 128) b1
                        (if (b0 =? 237)%Z then 159 else 191)
                && is_continuation b2 && from_utf8 s3
              else match s3 with
              | [] => false
              | b3 :: s4 =>
                  between 240 b0 244
                  && between (if (b0 =? 240)%Z then 144 else 128) b1
                             (if (b0 =? 244)%Z then 143 else 191)
                  && is_continuation b2 && is_continuation b3 && from_utf8 s4
              end
          end
      end
  end.

(** [str::is_char_boundary]. *)
Definition is_char_boundary (s : bytes) (i : nat) : bool :=
  if decide (i = 0 \/ i = length s) then true
  else match s !! i with
       | Some b => negb (is_continuation b)
       | None => false
       end.

(** [str::get(..i)], absent past the end or inside a character. *)
Definition str_get_to (s : bytes) (i : nat) : option bytes :=
  if decide (i <= length s) then
    if is_char_boundary s i then Some (take i s) else None
  else None.

(** [Ord for str]: the order of the bytes, a prefix first. *)
Fixpoint str_compare (a b : bytes) : comparison :=
  match a, b with
  | [], [] => Eq
  | [], _ :: _ => Lt
  | _ :: _, [] => Gt
  | x :: a, y :: b =>
      match (x ?= y)%Z with Eq => str_compare a b | c => c end
  end.
Definition str_lt (a b : bytes) : Prop := str_compare a b = Lt.
Definition str_ltb (a b : bytes) : bool :=
  match str_compare a b with Lt => true | _ => false end.
Definition str_leb (a b : bytes) : bool :=
  match str_compare a b with Gt => false | _ => true end.

Definition str_le (a b : bytes) : Prop := str_leb a b = true.
#[export] Instance str_le_dec : RelDecision str_le.
Proof. intros a b; unfold str_le; apply _. Defined.

(* ------------------------------------------------------------------ *)
(** ** Machine integers *)

Definition U32_MAX : Z := 2 ^ 32 - 1.
Definition U64_MAX : Z := 2 ^ 64 - 1.

(** [u32::saturating_add], [u64::saturating_add], [saturating_sub]. *)
Definition saturating_add (max a b : Z) : Z := Z.min max (a + b).
Definition saturating_sub (a b : Z) : Z := Z.max 0 (a - b).

(* ------------------------------------------------------------------ *)
(** ** Automation *)

Create HintDb pds discriminated.

(** Splits every boolean conjunction and disjunction test that holds, and
    turns the comparisons under them into propositions [lia] reads. *)
Ltac bool_prop :=
  repeat match goal with
  | H : _ && _ = true |- _ => apply andb_true_iff in H; destruct H
  | H : _ || _ = false |- _ => apply orb_false_iff in H; destruct H
  | H : negb _ = true |- _ => apply negb_true_iff in H
  | H : negb _ = false |- _ => apply negb_false_iff in H
  | H : (_ <=? _)%Z = true |- _ => apply Z.leb_le in H
  | H : (_ <=? _)%Z = false |- _ => apply Z.leb_gt in H
  | H : (_ <? _)%Z = true |- _ => apply Z.ltb_lt in H
  | H : (_ <? _)%Z = false |- _ => apply Z.ltb_ge in H
  | H : (_ =? _)%Z = true |- _ => apply Z.eqb_eq in H
  | H : (_ =? _)%Z = false |- _ => apply Z.eqb_neq in H
  end.

(** Walks a chain of guards [if g then Err e else ..] that came out [Ok]: every
    guard is off, and every intermediate match took its good branch. *)
Ltac ok_branch :=
  repeat (simpl in *; simplify_eq;
    match goal with
    | H : context [match ?x with _ => _ end] |- _ =>
        lazymatch type of H with
        | _ = Ok _ => destruct x eqn:?
        | _ = Some _ => destruct x eqn:?
        end
    end); simplify_eq.

(** Unfolds the ASCII classes to the intervals they are. *)
Ltac ascii_unfold :=
  unfold is_ascii_alphanumeric, is_ascii_alphabetic, is_ascii_digit,
    is_ascii_lowercase, is_ascii_uppercase, is_continuation, between in *.

(** Case split on every comparison a boolean goal mentions. *)
Ltac z_cases :=
  repeat (match goal with
  | |- context [(?a <=? ?b)%Z] => destruct (Z.leb_spec a b)
  | |- context [(?a <? ?b)%Z] => destruct (Z.ltb_spec a b)
  | |- context [(?a =? ?b)%Z] => destruct (Z.eqb_spec a b)
  end; simpl; try lia; try done).

(* ------------------------------------------------------------------ *)
(** ** Lemmas on results *)

Lemma bind_Ok {E A B} (m : result E A) (f : A -> result E B) b :
  m ≫= f = Ok b <-> exists a, m = Ok a /\ f a = Ok b.
Proof. destruct m; simpl; naive_solver. Qed.

Lemma map_err_Ok {E F A} (f : E -> F) (r : result E A) a :
  map_err f r = Ok a <-> r = Ok a.
Proof. destruct r; simpl; naive_solver. Qed.

Lemma is_ok_true {E A} (r : result E A) : is_ok r = true <-> exists a, r = Ok a.
Proof. destruct r; simpl; naive_solver. Qed.

Lemma collect_Ok {E A} (rs : list (result E A)) l :
  collect rs = Ok l <-> rs = Ok <$> l.
Proof.
  revert l; induction rs as [|[a|e] rs IH]; intros l; simpl.
  - destruct l; naive_solver.
  - destruct (collect rs) as [l'|e].
    + destruct l as [|x l]; [naive_solver|]. simpl.
      assert (rs = Ok <$> l') as -> by (by apply IH).
      split; [naive_solver|]. intros [= -> Heq].
      apply IH in Heq. by simplify_eq.
    + split; [done|]. destruct l as [|x l]; [done|]. simpl.
      intros [= -> Hrs]. apply IH in Hrs. done.
  - destruct l; naive_solver.
Qed.

(* ------------------------------------------------------------------ *)
(** ** Lemmas on byte strings *)

Lemma len_nil {A} : len (@nil A) = 0%Z.
Proof. done. Qed.

Lemma len_cons {A} (x : A) s : len (x :: s) = (1 + len s)%Z.
Proof. unfold len; simpl; lia. Qed.

Lemma len_app {A} (s t : list A) : len (s ++ t) = (len s + len t)%Z.
Proof. unfold len; rewrite length_app; lia. Qed.

Lemma len_nonneg {A} (s : list A) : (0 <= len s)%Z.
Proof. unfold len; lia. Qed.

#[export] Hint Rewrite @len_nil @len_cons @len_app : len.

(** Normalises lengths and leaves the arithmetic to [lia]. *)
Ltac len_lia := autorewrite with len in *; lia.

Lemma between_spec lo x hi : between lo x hi = true <-> (lo <= x <= hi)%Z.
Proof. unfold between; rewrite andb_true_iff, !Z.leb_le; lia. Qed.

Lemma forallb_True {A} (f : A -> bool) (s : list A) :
  forallb f s = true <-> Forall (fun x => f x = true) s.
Proof. rewrite forallb_forall, List.Forall_forall; naive_solver. Qed.

Lemma forallb_impl {A} (f g : A -> bool) (s : list A) :
  (forall x, f x = true -> g x = true) -> forallb f s = true -> forallb g s = true.
Proof. intros H; rewrite !forallb_forall; eauto. Qed.

Lemma contains_spec c s : contains c s = true <-> c ∈ s.
Proof.
  unfold contains; rewrite existsb_exists, list_elem_of_In.
  split; [intros (x & Hx & ->%Z.eqb_eq); done|].
  intros H; exists c; split; [done|apply Z.eqb_refl].
Qed.

Lemma contains_false c s : contains c s = false <-> c ∉ s.
Proof. rewrite <- contains_spec; destruct (contains c s); naive_solver. Qed.

Lemma forallb_not_elem c (f : Z -> bool) s :
  f c = false -> forallb f s = true -> c ∉ s.
Proof.
  intros Hc; rewrite forallb_forall; intros Hf Hin%list_elem_of_In.
  specialize (Hf _ Hin); congruence.
Qed.

Lemma strip_prefix_Some p s r : strip_prefix p s = Some r <-> s = p ++ r.
Proof.
  revert s; induction p as [|x p IH]; intros [|y s]; simpl; try naive_solver.
  destruct (Z.eqb_spec x y) as [->|Hne]; [rewrite IH; naive_solver|naive_solver].
Qed.

Lemma strip_prefix_app p s : strip_prefix p (p ++ s) = Some s.
Proof. by apply strip_prefix_Some. Qed.

Lemma starts_with_true p s : starts_with p s = true <-> exists r, s = p ++ r.
Proof.
  unfold starts_with; destruct (strip_prefix p s) as [r|] eqn:E.
  - apply strip_prefix_Some in E; naive_solver.
  - split; [done|]. intros [r ->]. by rewrite strip_prefix_app in E.
Qed.

Lemma split_on_nonempty c s : split_on c s <> [].
Proof.
  destruct s as [|x s]; simpl; [done|].
  destruct (x =? c)%Z; [done|]. by destruct (split_on c s).
Qed.

Lemma join_split_on c s : join c (split_on c s) = s.
Proof.
  induction s as [|x s IH]; [done|]; simpl.
  pose proof (split_on_nonempty c s).
  destruct (Z.eqb_spec x c) as [->|Hne].
  - by destruct (split_on c s) as [|? [|? ?]]; simpl in *; subst.
  - by destruct (split_on c s) as [|? [|? ?]]; simpl in *; subst.
Qed.

Lemma split_on_free c s : Forall (fun piece => c ∉ piece) (split_on c s).
Proof.
  induction s as [|x s IH]; simpl.
  - constructor; [set_solver|constructor].
  - destruct (Z.eqb_spec x c) as [->|Hne]; [constructor; [set_solver|done]|].
    destruct (split_on c s) as [|piece rest]; [constructor; set_solver|].
    inversion IH; constructor; set_solver.
Qed.

Lemma split_on_plain c s : c ∉ s -> split_on c s = [s].
Proof.
  induction s as [|x s IH]; intros H; [done|]; simpl.
  destruct (Z.eqb_spec x c) as [->|Hne]; [set_solver|].
  rewrite IH by set_solver; done.
Qed.

Lemma split_on_app c a b : c ∉ a -> split_on c (a ++ c :: b) = a :: split_on c b.
Proof.
  induction a as [|x a IH]; intros H; simpl.
  - by rewrite Z.eqb_refl.
  - destruct (Z.eqb_spec x c) as [->|Hne]; [set_solver|].
    rewrite IH by set_solver; done.
Qed.

Lemma split_on_join c pieces :
  pieces <> [] -> Forall (fun piece => c ∉ piece) pieces ->
  split_on c (join c pieces) = pieces.
Proof.
  induction pieces as [|p [|q ps] IH]; intros Hne Hf; [done| |].
  - inversion Hf; simpl; by apply split_on_plain.
  - inversion Hf; simpl; rewrite split_on_app by done.
    f_equal; apply IH; done.
Qed.

Lemma split_on_elem c s x : x ∈ s -> x <> c -> exists p, p ∈ split_on c s /\ x ∈ p.
Proof.
  intros Hx Hc; rewrite <- (join_split_on c s) in Hx; revert Hx.
  generalize (split_on c s) as ps; induction ps as [|p [|q ps] IH]; intros Hx.
  - by apply not_elem_of_nil in Hx.
  - exists p; split; [set_solver|done].
  - simpl in Hx; apply elem_of_app in Hx as [Hx|Hx]; [exists p; set_solver|].
    apply elem_of_cons in Hx as [->|Hx]; [done|].
    destruct (IH Hx) as (r & Hr & Hxr); exists r; split; [set_solver|done].
Qed.

Lemma split_once_Some c s a b :
  split_once c s = Some (a, b) <-> s = a ++ c :: b /\ c ∉ a.
Proof.
  revert a; induction s as [|x s IH]; intros a; simpl.
  - destruct a; naive_solver.
  - destruct (Z.eqb_spec x c) as [->|Hne].
    + split; [intros [= <- <-]; split; [done|set_solver]|].
      intros [Heq Hna]. destruct a as [|y a]; simpl in *; simplify_eq; [done|set_solver].
    + destruct (split_once c s) as [[a' b']|] eqn:E.
      * destruct a as [|y a]; simpl; [naive_solver|].
        specialize (IH a). split.
        -- intros [= -> -> ->]. destruct IH as [IH _].
           destruct IH as [-> ?]; [done|]. split; [done|set_solver].
        -- intros [[= -> ->] Hna]. destruct IH as [_ IH].
           assert (Some (a', b') = Some (a, b)) as [= -> ->] by (apply IH; set_solver).
           done.
      * destruct a as [|y a]; simpl; [naive_solver|].
        split; [done|]. intros [[= -> ->] Hna].
        destruct (IH a) as [_ IH']. discriminate IH'. set_solver.
Qed.

Lemma split_once_None c s : split_once c s = None <-> c ∉ s.
Proof.
  induction s as [|x s IH]; simpl; [set_solver|].
  destruct (Z.eqb_spec x c) as [->|Hne]; [set_solver|].
  destruct (split_once c s) as [[a b]|]; set_solver.
Qed.

(* ------------------------------------------------------------------ *)
(** ** The byte order on strings *)

Lemma str_compare_refl a : str_compare a a = Eq.
Proof. induction a as [|x a IH]; simpl; [done|]. by rewrite Z.compare_refl. Qed.

Lemma str_compare_eq a b : str_compare a b = Eq <-> a = b.
Proof.
  split; [|intros ->; apply str_compare_refl].
  revert b; induction a as [|x a IH]; intros [|y b]; simpl; try done.
  destruct (Z.compare_spec x y) as [->|?|?]; try done.
  intros H; f_equal; auto.
Qed.

Lemma str_compare_antisym a b : str_compare b a = CompOpp (str_compare a b).
Proof.
  revert b; induction a as [|x a IH]; intros [|y b]; simpl; try done.
  rewrite (Z.compare_antisym x y).
  destruct (Z.compare x y); simpl; auto.
Qed.

Lemma str_lt_trans a b c : str_lt a b -> str_lt b c -> str_lt a c.
Proof.
  unfold str_lt; revert b c; induction a as [|x a IH]; intros [|y b] [|z c]; simpl; try done.
  destruct (Z.compare_spec x y) as [->|?|?], (Z.compare_spec y z) as [->|?|?]; try done.
  all: rewrite ?Z.compare_refl; eauto.
  all: intros; by rewrite (proj2 (Z.compare_lt_iff x z)) by lia.
Qed.

Lemma str_lt_irrefl a : ~ str_lt a a.
Proof. unfold str_lt; by rewrite str_compare_refl. Qed.

#[export] Instance str_lt_strict : StrictOrder str_lt.
Proof.
  split; [intros a; apply str_lt_irrefl|].
  intros a b c; apply str_lt_trans.
Qed.

Lemma str_ltb_spec a b : str_ltb a b = true <-> str_lt a b.
Proof. unfold str_ltb, str_lt; by destruct (str_compare a b). Qed.

Lemma str_leb_spec a b : str_leb a b = true <-> ~ str_lt b a.
Proof.
  unfold str_leb, str_lt; rewrite (str_compare_antisym a b).
  by destruct (str_compare a b).
Qed.

Lemma str_lt_total a b : str_lt a b \/ a = b \/ str_lt b a.
Proof.
  unfold str_lt; rewrite (str_compare_antisym a b).
  destruct (str_compare a b) eqn:E; simpl; auto.
  right; left; by apply str_compare_eq.
Qed.

Lemma str_leb_cases a b : str_leb a b = true <-> str_lt a b \/ a = b.
Proof.
  rewrite str_leb_spec; split.
  - intros H; destruct (str_lt_total a b) as [?|[?|?]]; tauto.
  - intros [Hab| ->] Hba; [eapply str_lt_irrefl, str_lt_trans; eauto|].
    by eapply str_lt_irrefl.
Qed.

Lemma str_lt_app_prefix p a b : str_lt (p ++ a) (p ++ b) <-> str_lt a b.
Proof. unfold str_lt; induction p; simpl; [done|]; by rewrite Z.compare_refl. Qed.

#[export] Hint Resolve str_lt_trans str_lt_irrefl : pds.

(** Reading a fixed-width list of digits in some base orders like the bytes,
    provided the digits do: the order of a TID, a zero-padded number. *)
Fixpoint digits_value (base : Z) (acc : Z) (ds : list Z) : Z :=
  match ds with
  | [] => acc
  | d :: ds => digits_value base (acc * base + d) ds
  end.

Lemma digits_value_acc base acc ds :
  digits_value base acc ds = (acc * base ^ len ds + digits_value base 0 ds)%Z.
Proof.
  revert acc; induction ds as [|d ds IH]; intros acc; simpl.
  - rewrite len_nil; lia.
  - rewrite (IH (acc * base + d)%Z), (IH (0 * base + d)%Z), len_cons, Z.pow_add_r
      by (pose proof (len_nonneg ds); lia). lia.
Qed.

Lemma digits_value_bound base ds :
  (0 < base)%Z -> Forall (fun d => 0 <= d < base)%Z ds ->
  (0 <= digits_value base 0 ds < base ^ len ds)%Z.
Proof.
  intros Hb; induction 1 as [|d ds Hd Hds IH]; simpl; [by unfold len|].
  rewrite digits_value_acc, len_cons, Z.pow_add_r by (pose proof (len_nonneg ds); lia).
  nia.
Qed.

Lemma digits_value_compare base a b :
  (0 < base)%Z -> length a = length b ->
  Forall (fun d => 0 <= d < base)%Z a -> Forall (fun d => 0 <= d < base)%Z b ->
  (digits_value base 0 a ?= digits_value base 0 b)%Z = str_compare a b.
Proof.
  intros Hb; revert b; induction a as [|x a IH]; intros [|y b] Hlen Ha Hb'; try done.
  inversion Ha as [|? ? Hx Ha']; inversion Hb' as [|? ? Hy Hb'']; subst.
  simpl in Hlen; injection Hlen as Hlen; simpl.
  rewrite (digits_value_acc base (0 * base + x)), (digits_value_acc base (0 * base + y)).
  pose proof (digits_value_bound base a Hb Ha').
  pose proof (digits_value_bound base b Hb Hb'').
  replace (len b) with (len a) in * by (unfold len; congruence).
  specialize (IH b Hlen Ha' Hb'').
  destruct (Z.compare_spec x y) as [->|?|?].
  - rewrite <- IH. destruct (Z.compare_spec (digits_value base 0 a) (digits_value base 0 b));
      [apply Z.compare_eq_iff|apply Z.compare_lt_iff|apply Z.compare_gt_iff]; lia.
  - apply Z.compare_lt_iff; nia.
  - apply Z.compare_gt_iff; nia.
Qed.

(** A fold that appends is a concatenation. *)
Lemma fold_left_concat {A B} (f : A -> list B) l acc :
  fold_left (fun written a => written ++ f a) l acc = acc ++ concat (map f l).
Proof.
  revert acc; induction l as [|a l IH]; intros acc; simpl; [by rewrite app_nil_r|].
  by rewrite IH, app_assoc.
Qed.

Lemma digits_value_snoc base acc ds d :
  digits_value base acc (ds ++ [d]) = (digits_value base acc ds * base + d)%Z.
Proof. revert acc; induction ds as [|x ds IH]; intros acc; simpl; [done|apply IH]. Qed.

(** A byte, as a machine integer. *)
Definition is_byte (b : Z) : Prop := (0 <= b < 256)%Z.
