(* ===== verification/Syntax.v ===== *)
(** * Syntax: the identifiers of the protocol

    [src/src/syntax.rs] and the files under [src/src/syntax/]: DIDs, handles,
    NSIDs, record keys, TIDs with the clock that mints them, and AT-URIs.  A
    module per identifier; each has the [validate] of its source file, written
    guard by guard with the error each guard returns.  The macro
    [string_newtype!], which turns a [validate] into a type built only by
    parsing, is the class [StringNewtype].

    What is shown: a TID is its two numbers and sorts as they do, a minted TID
    sorts above every one before it, an AT-URI prints back as it was written
    and parses back from its parts, and what parses is closed under the
    conversions the server makes without checking again. *)

From S2P Require Import Prelude.
From Stdlib Require Import Lia.

Local Open Scope Z_scope.

(* ------------------------------------------------------------------ *)
(** ** Errors and the newtype macro *)

(** [syntax::Error]: which identifier was rejected, and the rule it broke. *)
Inductive SyntaxError :=
| EAtUri (rule : string)
| EDid (rule : string)
| EHandle (rule : string)
| ENsid (rule : string)
| ERecordKey (rule : string)
| ETid (rule : string).

#[export] Instance SyntaxError_eq_dec : EqDecision SyntaxError.
Proof. solve_decision. Defined.

(** [string_newtype!]: a tuple struct over [String] and its [validate]. *)
Class StringNewtype (T : Type) := {
  wrap : bytes -> T;
  as_str : T -> bytes;
  rules : bytes -> result SyntaxError unit;
  as_str_wrap : forall s, as_str (wrap s) = s;
  wrap_as_str : forall t, wrap (as_str t) = t
}.

(** [FromStr::from_str], which [TryFrom] and [Deserialize] also go through. *)
Definition from_str {T} `{StringNewtype T} (input : bytes) : result SyntaxError T :=
  _ ← rules input; Ok (wrap input).

(** What holding one proves: it validated. *)
Definition well_formed {T} `{StringNewtype T} (t : T) : Prop :=
  rules (as_str t) = Ok tt.

(* ------------------------------------------------------------------ *)
(** ** DIDs *)

Module Did.

Definition MAX_LEN : Z := 2048.

Record t := mk { str : bytes }.

Definition is_allowed (byte : Z) : bool :=
  is_ascii_alphanumeric byte || one_of "._:%-" byte.

Definition validate (input : bytes) : result SyntaxError unit :=
  if len input >? MAX_LEN then Err (EDid "longer than 2048 characters") else
  match strip_prefix (lit "did:") input with
  | None => Err (EDid "does not start with did:")
  | Some rest =>
      match split_once 58 rest with
      | None => Err (EDid "no method-specific identifier")
      | Some (method, id) =>
          if (len method =? 0) || negb (forallb is_ascii_lowercase method) then
            Err (EDid "method is not lowercase letters")
          else if len id =? 0 then
            Err (EDid "empty method-specific identifier")
          else if negb (forallb is_allowed id) then
            Err (EDid "disallowed character")
          else if last_is (Z.eqb 58) id || last_is (Z.eqb 37) id then
            Err (EDid "ends with : or %")
          else Ok tt
      end
  end.

#[global] Instance newtype : StringNewtype t :=
  {| wrap := mk; as_str := str; rules := validate;
     as_str_wrap := fun s => eq_refl;
     wrap_as_str := fun t => match t with mk s => eq_refl end |}.

#[global] Instance t_eq_dec : EqDecision t.
Proof. solve_decision. Defined.

End Did.

(* ------------------------------------------------------------------ *)
(** ** Handles *)

Module Handle.

Definition MAX_LEN : Z := 253.
Definition MAX_LABEL_LEN : Z := 63.

Record t := mk { str : bytes }.

Definition validate_label (label : bytes) : result SyntaxError unit :=
  if len label =? 0 then Err (EHandle "empty part")
  else if len label >? MAX_LABEL_LEN then
    Err (EHandle "part longer than 63 characters")
  else if negb (forallb (fun byte => is_ascii_alphanumeric byte || (byte =? 45)) label) then
    Err (EHandle "disallowed character")
  else if head_is (Z.eqb 45) label || last_is (Z.eqb 45) label then
    Err (EHandle "part starts or ends with a hyphen")
  else Ok tt.

(** The loop over the labels: the last one seen and how many there were. *)
Fixpoint labels (ls : list bytes) (tld : bytes) (parts : Z) : result SyntaxError (bytes * Z) :=
  match ls with
  | [] => Ok (tld, parts)
  | label :: ls => _ ← validate_label label; labels ls label (parts + 1)
  end.

Definition validate (input : bytes) : result SyntaxError unit :=
  if len input >? MAX_LEN then Err (EHandle "longer than 253 characters") else
  '(tld, parts) ← labels (split_on 46 input) [] 0;
  if parts <? 2 then Err (EHandle "not a domain name")
  else if negb (head_is is_ascii_alphabetic tld) then
    Err (EHandle "last part does not start with a letter")
  else Ok tt.

#[global] Instance newtype : StringNewtype t :=
  {| wrap := mk; as_str := str; rules := validate;
     as_str_wrap := fun s => eq_refl;
     wrap_as_str := fun t => match t with mk s => eq_refl end |}.

#[global] Instance t_eq_dec : EqDecision t.
Proof. solve_decision. Defined.

(** [Handle::normalize]: lowercases, then parses. *)
Definition normalize (input : bytes) : result SyntaxError t :=
  from_str (map to_ascii_lowercase input).

End Handle.

(* ------------------------------------------------------------------ *)
(** ** NSIDs *)

Module Nsid.

Definition MAX_LEN : Z := 253 + 1 + 63.
Definition MAX_SEGMENT_LEN : Z := 63.

Record t := mk { str : bytes }.

Definition validate_segment (segment : bytes) : result SyntaxError unit :=
  if len segment =? 0 then Err (ENsid "empty part")
  else if len segment >? MAX_SEGMENT_LEN then
    Err (ENsid "part longer than 63 characters")
  else if negb (forallb (fun byte => is_ascii_alphanumeric byte || (byte =? 45)) segment) then
    Err (ENsid "disallowed character")
  else if head_is (Z.eqb 45) segment || last_is (Z.eqb 45) segment then
    Err (ENsid "part starts or ends with a hyphen")
  else Ok tt.

(** The loop over the segments: how many, the first and the last. *)
Fixpoint walk (ss : list bytes) (segments : Z) (first name : bytes)
  : result SyntaxError (Z * bytes * bytes) :=
  match ss with
  | [] => Ok (segments, first, name)
  | segment :: ss =>
      _ ← validate_segment segment;
      walk ss (segments + 1) (if segments =? 0 then segment else first) segment
  end.

Definition validate (input : bytes) : result SyntaxError unit :=
  if len input >? MAX_LEN then Err (ENsid "longer than 317 characters") else
  '(segments, first, name) ← walk (split_on 46 input) 0 [] [];
  if segments <? 3 then Err (ENsid "fewer than three parts")
  else if head_is is_ascii_digit first then
    Err (ENsid "authority starts with a digit")
  else if head_is is_ascii_digit name || contains 45 name then
    Err (ENsid "name is not a letter followed by letters and digits")
  else Ok tt.

#[global] Instance newtype : StringNewtype t :=
  {| wrap := mk; as_str := str; rules := validate;
     as_str_wrap := fun s => eq_refl;
     wrap_as_str := fun t => match t with mk s => eq_refl end |}.

#[global] Instance t_eq_dec : EqDecision t.
Proof. solve_decision. Defined.

End Nsid.

(* ------------------------------------------------------------------ *)
(** ** Record keys *)

Module RecordKey.

Definition MAX_LEN : Z := 512.

Record t := mk { str : bytes }.

Definition is_allowed (byte : Z) : bool :=
  is_ascii_alphanumeric byte || one_of "._~:-" byte.

Definition validate (input : bytes) : result SyntaxError unit :=
  if len input =? 0 then Err (ERecordKey "empty")
  else if len input >? MAX_LEN then Err (ERecordKey "longer than 512 characters")
  else if bool_decide (input = lit "." \/ input = lit "..") then
    Err (ERecordKey ". and .. are reserved")
  else if negb (forallb is_allowed input) then Err (ERecordKey "disallowed character")
  else Ok tt.

#[global] Instance newtype : StringNewtype t :=
  {| wrap := mk; as_str := str; rules := validate;
     as_str_wrap := fun s => eq_refl;
     wrap_as_str := fun t => match t with mk s => eq_refl end |}.

#[global] Instance t_eq_dec : EqDecision t.
Proof. solve_decision. Defined.

End RecordKey.

(* ------------------------------------------------------------------ *)
(** ** TIDs *)

Module Tid.

Definition LEN : Z := 13.

(** One past the largest timestamp, at 53 bits, and one past the largest clock
    id, at 10. *)
Definition MICROS : Z := Z.shiftl 1 53.
Definition CLOCK_IDS : Z := Z.shiftl 1 10.

Record t := mk { str : bytes }.

Definition is_digit (byte : Z) : bool := between 50 byte 55 || between 97 byte 122.

Definition validate (input : bytes) : result SyntaxError unit :=
  if negb (len input =? LEN) then Err (ETid "not 13 characters")
  else if negb (forallb is_digit input) then
    Err (ETid "character outside base32-sortable")
  else if negb (head_is (fun byte => between 50 byte 55 || between 97 byte 106) input) then
    Err (ETid "high bit set")
  else Ok tt.

#[global] Instance newtype : StringNewtype t :=
  {| wrap := mk; as_str := str; rules := validate;
     as_str_wrap := fun s => eq_refl;
     wrap_as_str := fun t => match t with mk s => eq_refl end |}.

#[global] Instance t_eq_dec : EqDecision t.
Proof. solve_decision. Defined.

Definition DIGITS : bytes := lit "234567abcdefghijklmnopqrstuvwxyz".

(** [digit]: the value of a base32-sortable digit, a [u8] subtraction. *)
Definition digit (byte : Z) : Z :=
  if between 50 byte 55 then (byte - 50) mod 256 else (byte - 97) mod 256 + 6.

(** [encode]: the thirteen five-bit groups of a [u64], highest first. *)
Definition encode (value : Z) : bytes :=
  map (fun d => nth (Z.to_nat (Z.land (Z.shiftr value (Z.of_nat d * 5)) 31)) DIGITS 0)
      (rev (seq 0 (Z.to_nat LEN))).

(** [Tid::from_parts]: both numbers truncated to the width they are given. *)
Definition from_parts (micros clock_id : Z) : t :=
  mk (encode ((micros mod MICROS) * CLOCK_IDS + clock_id mod CLOCK_IDS)).

(** [Tid::to_parts], whose fold is [u64] arithmetic. *)
Definition fold_value (s : bytes) : Z :=
  fold_left (fun value byte => (value * 32 + digit byte) mod 2 ^ 64) s 0.
Definition to_parts (tid : t) : Z * Z :=
  let value := fold_value (str tid) in
  (value / CLOCK_IDS, value mod CLOCK_IDS).

(** [Clock]: the id it was started on and the last timestamp handed out. *)
Record Clock := MkClock { clock_id : Z; last : Z }.

(** [Clock::new], the random id given. *)
Definition new (random : Z) : Clock := MkClock random 0.

(** What [mint] reads off the system clock: microseconds since the epoch,
    [None] for a clock set before it. *)
Definition now_micros (since : option Z) : Z :=
  match since with
  | None => 0
  | Some micros => if micros <=? U64_MAX then micros else U64_MAX
  end.

(** [Clock::mint]. *)
Definition mint (c : Clock) (since : option Z) : Clock * t :=
  let now := now_micros since in
  let next := Z.min (Z.max now (saturating_add U64_MAX (last c) 1)) (MICROS - 1) in
  (MkClock (clock_id c) next, from_parts next (clock_id c)).

(** [Clock::mint_after]. *)
Definition mint_after (c : Clock) (previous : t) (since : option Z) : Clock * option t :=
  let c := MkClock (clock_id c) (Z.max (last c) (fst (to_parts previous))) in
  if last c <? MICROS - 1 then
    let '(c, tid) := mint c since in (c, Some tid)
  else (c, None).

(** [From<Tid> for RecordKey]: [None] stands for the [expect] failing. *)
Definition into_record_key (tid : t) : option RecordKey.t :=
  match from_str (str tid) with Ok key => Some key | Err _ => None end.

End Tid.

(* ------------------------------------------------------------------ *)
(** ** Naming a repository: a DID or a handle *)

Module AtIdentifier.

Inductive t :=
| IsDid (did : Did.t)
| IsHandle (handle : Handle.t).

Definition to_str (a : t) : bytes :=
  match a with IsDid did => Did.str did | IsHandle handle => Handle.str handle end.

Definition parse (input : bytes) : result SyntaxError t :=
  if starts_with (lit "did:") input then IsDid <$> from_str input
  else IsHandle <$> from_str input.

Definition valid (a : t) : Prop :=
  match a with IsDid did => well_formed did | IsHandle handle => well_formed handle end.

End AtIdentifier.

(* ------------------------------------------------------------------ *)
(** ** AT-URIs *)

Module AtUri.

Definition MAX_LEN : Z := 8192.

Record t := mk {
  authority : AtIdentifier.t;
  collection : option Nsid.t;
  rkey : option RecordKey.t;
  fragment : option bytes
}.

Definition is_pointer_byte (byte : Z) : bool :=
  is_ascii_alphanumeric byte || one_of "._~:@!$&'()*+,;=%/[]-" byte.

Definition is_allowed (byte : Z) : bool :=
  is_pointer_byte byte || one_of "#?\" byte.

Definition hex (byte : Z) : option Z :=
  if between 48 byte 57 then Some (byte - 48)
  else if between 97 byte 102 then Some (byte - 97 + 10)
  else if between 65 byte 70 then Some (byte - 65 + 10)
  else None.

(** The loop of [validate_percent_encoding]: the bytes it decodes to. *)
Fixpoint percent_decode (s : bytes) : result SyntaxError bytes :=
  match s with
  | [] => Ok []
  | byte :: s =>
      if negb (byte =? 37) then
        decoded ← percent_decode s; Ok (byte :: decoded)
      else match s with
      | high :: low :: s =>
          match hex high, hex low with
          | Some high, Some low =>
              decoded ← percent_decode s;
              Ok (Z.lor (Z.shiftl high 4 mod 256) low :: decoded)
          | _, _ => Err (EAtUri "escape is not two hex digits")
          end
      | _ => Err (EAtUri "truncated escape in the fragment")
      end
  end.

Definition validate_percent_encoding (fragment : bytes) : result SyntaxError unit :=
  decoded ← percent_decode fragment;
  if negb (from_utf8 decoded) then
    Err (EAtUri "escapes in the fragment do not spell text")
  else Ok tt.

Definition validate_fragment (fragment : bytes) : result SyntaxError bytes :=
  if negb (head_is (Z.eqb 47) fragment) then Err (EAtUri "fragment is not a JSON pointer")
  else if negb (forallb is_pointer_byte fragment) then
    Err (EAtUri "disallowed character in the fragment")
  else _ ← validate_percent_encoding fragment; Ok fragment.

(** [FromStr for AtUri]. *)
Definition parse (input : bytes) : result SyntaxError t :=
  if len input >? MAX_LEN then Err (EAtUri "longer than 8192 characters")
  else if negb (forallb is_allowed input) then Err (EAtUri "disallowed character")
  else match strip_prefix (lit "at://") input with
  | None => Err (EAtUri "does not start with at://")
  | Some rest =>
      let '(rest, fragment) := match split_once 35 rest with
        | Some (rest, fragment) => (rest, Some fragment)
        | None => (rest, None)
        end in
      if contains 63 rest then Err (EAtUri "query strings do not address anything")
      else if last_is (Z.eqb 47) rest then Err (EAtUri "trailing slash")
      else
        let segments := split_on 47 rest in
        if bool_decide (segments !! 3%nat <> None) then
          Err (EAtUri "more than two path segments")
        else
          authority ← map_err (fun _ => EAtUri "authority is not a DID or a handle")
                        (AtIdentifier.parse (default [] (segments !! 0%nat)));
          collection ← map_err (fun _ => EAtUri "collection is not an NSID")
                        (transpose (from_str <$> segments !! 1%nat));
          rkey ← map_err (fun _ => EAtUri "not a record key")
                        (transpose (from_str <$> segments !! 2%nat));
          fragment ← transpose (validate_fragment <$> fragment);
          Ok (mk authority collection rkey fragment)
  end.

(** [Display for AtUri]. *)
Definition display (u : t) : bytes :=
  lit "at://" ++ AtIdentifier.to_str (authority u)
  ++ match collection u with Some c => lit "/" ++ Nsid.str c | None => [] end
  ++ match rkey u with Some r => lit "/" ++ RecordKey.str r | None => [] end
  ++ match fragment u with Some f => lit "#" ++ f | None => [] end.

(** What parsing establishes of the parts. A record key comes only after a
    collection, since segments are numbered from the left. *)
Definition valid (u : t) : Prop :=
  AtIdentifier.valid (authority u)
  /\ match collection u with Some c => well_formed c | None => rkey u = None end
  /\ match rkey u with Some r => well_formed r | None => True end
  /\ match fragment u with Some f => validate_fragment f = Ok f | None => True end.

End AtUri.

(* ================================================================== *)
(** * Facts *)

Lemma from_str_Ok {T} `{StringNewtype T} s (t : T) :
  from_str s = Ok t <-> rules s = Ok tt /\ t = wrap s.
Proof.
  unfold from_str; destruct (rules s) as [[]|e]; simpl; split.
  - by intros [= ->].
  - by intros [_ ->].
  - done.
  - by intros [? _].
Qed.

Lemma from_str_as_str {T} `{StringNewtype T} s (t : T) :
  from_str s = Ok t -> as_str t = s /\ well_formed t.
Proof.
  intros [Hr ->]%from_str_Ok; unfold well_formed; by rewrite as_str_wrap.
Qed.

Lemma from_str_well_formed {T} `{StringNewtype T} (t : T) :
  well_formed t -> from_str (as_str t) = Ok t.
Proof. intros Hwf; apply from_str_Ok; by rewrite wrap_as_str. Qed.

(** Rewrites a [validate] that succeeded into what each of its guards says. *)
Ltac validated H :=
  match type of H with
  | context [if ?b then _ else _] =>
      let E := fresh "G" in destruct b eqn:E; [discriminate H|validated H]
  | _ => idtac
  end.

(* ------------------------------------------------------------------ *)
(** ** TIDs: the encoding *)

Module TidFacts.
Import Tid.

Lemma LEN_nat : Z.to_nat LEN = 13%nat.
Proof. done. Qed.

(** The 32 digits, one by one. *)
Lemma digits_table i :
  0 <= i < 32 ->
  let b := nth (Z.to_nat i) DIGITS 0 in
  is_digit b = true /\ digit b = i /\ (i <= 15 -> between 50 b 55 || between 97 b 106 = true).
Proof.
  intros Hi.
  assert (Forall (fun n => let b := nth n DIGITS 0 in
    is_digit b = true /\ digit b = Z.of_nat n
    /\ (Z.of_nat n <= 15 -> between 50 b 55 || between 97 b 106 = true)) (seq 0 32)) as HF.
  { vm_compute. repeat constructor; intros; done. }
  rewrite List.Forall_forall in HF.
  destruct (HF (Z.to_nat i)) as (H1 & H2 & H3); [apply in_seq; lia|].
  rewrite Z2Nat.id in * by lia. done.
Qed.

Lemma is_digit_cases b : is_digit b = true -> (50 <= b <= 55) \/ (97 <= b <= 122).
Proof. unfold is_digit; rewrite orb_true_iff, !between_spec; lia. Qed.

Lemma digit_value b :
  is_digit b = true -> digit b = if b <=? 55 then b - 50 else b - 91.
Proof.
  intros Hb%is_digit_cases; unfold digit, between.
  destruct Hb as [Hb|Hb]; z_cases; rewrite Z.mod_small by lia; lia.
Qed.

Lemma digit_range b : is_digit b = true -> 0 <= digit b < 32.
Proof.
  intros Hb; rewrite digit_value by done; apply is_digit_cases in Hb.
  destruct (Z.leb_spec b 55); lia.
Qed.

Lemma digit_compare a b :
  is_digit a = true -> is_digit b = true -> (digit a ?= digit b) = (a ?= b).
Proof.
  intros Ha Hb; rewrite !digit_value by done.
  apply is_digit_cases in Ha, Hb.
  destruct (Z.leb_spec a 55), (Z.leb_spec b 55), (Z.compare_spec a b);
    first [apply Z.compare_eq_iff|apply Z.compare_lt_iff|apply Z.compare_gt_iff]; lia.
Qed.

Lemma digit_inj a b :
  is_digit a = true -> is_digit b = true -> digit a = digit b -> a = b.
Proof.
  intros Ha Hb Hd; apply Z.compare_eq_iff; rewrite <- digit_compare by done.
  rewrite Hd; apply Z.compare_refl.
Qed.

Lemma str_compare_digits s1 s2 :
  Forall (fun b => is_digit b = true) s1 -> Forall (fun b => is_digit b = true) s2 ->
  str_compare (map digit s1) (map digit s2) = str_compare s1 s2.
Proof.
  intros H; revert s2; induction H as [|a s1 Ha Hs1 IH]; intros s2; destruct 1 as [|b s2 Hb Hs2];
    simpl; try done.
  rewrite digit_compare by done. destruct (a ?= b); auto.
Qed.

(** The fold is the value of the digits, cut to 64 bits. *)
Lemma fold_value_digits s : fold_value s = digits_value 32 0 (map digit s) mod 2 ^ 64.
Proof.
  assert (forall acc, fold_left (fun value byte => (value * 32 + digit byte) mod 2 ^ 64) s acc
    mod 2 ^ 64 = digits_value 32 acc (map digit s) mod 2 ^ 64) as H.
  { induction s as [|b s IH]; intros acc; cbn [fold_left map digits_value]; [done|].
    rewrite IH, (digits_value_acc 32 ((acc * 32 + digit b) mod 2 ^ 64)),
      (digits_value_acc 32 (acc * 32 + digit b)).
    rewrite <- (Zplus_mod_idemp_l (_ mod _ * _)), Zmult_mod_idemp_l, Zplus_mod_idemp_l. done. }
  unfold fold_value; rewrite <- H.
  induction s as [|b s IH] using rev_ind; [done|].
  rewrite fold_left_app; cbn [fold_left]. by rewrite Z.mod_mod.
Qed.

(** The value of an encoding's digits. *)
Lemma digits_of_encoding v n :
  digits_value 32 0 (map (fun d => Z.land (Z.shiftr v (Z.of_nat d * 5)) 31) (rev (seq 0 n)))
  = v mod 2 ^ (Z.of_nat n * 5).
Proof.
  induction n as [|n IH]; [by rewrite Z.mod_1_r|].
  rewrite seq_S, rev_app_distr, map_app; cbn [rev app map digits_value].
  rewrite digits_value_acc, IH; unfold len.
  rewrite length_map, length_rev, length_seq.
  change 31 with (Z.ones 5). rewrite Z.land_ones, Z.shiftr_div_pow2 by lia.
  replace (Z.of_nat (S n) * 5) with (Z.of_nat n * 5 + 5) by lia.
  replace (32 ^ Z.of_nat n) with (2 ^ (Z.of_nat n * 5))
    by (rewrite Z.mul_comm, Z.pow_mul_r by lia; done).
  rewrite (Z.pow_add_r 2 _ 5), Z.rem_mul_r by lia. simpl. lia.
Qed.

Lemma encode_digit v d :
  let b := nth (Z.to_nat (Z.land (Z.shiftr v (Z.of_nat d * 5)) 31)) DIGITS 0 in
  is_digit b = true /\ digit b = Z.land (Z.shiftr v (Z.of_nat d * 5)) 31.
Proof.
  assert (0 <= Z.land (Z.shiftr v (Z.of_nat d * 5)) 31 < 32) as H.
  { change 31 with (Z.ones 5); rewrite Z.land_ones by lia. apply Z.mod_pos_bound; lia. }
  by destruct (digits_table _ H) as (? & ? & _).
Qed.

Lemma encode_is_digit v : Forall (fun b => is_digit b = true) (encode v).
Proof.
  unfold encode; apply Forall_map, List.Forall_forall; intros d _; apply encode_digit.
Qed.

Lemma encode_digits v :
  map digit (encode v)
  = map (fun d => Z.land (Z.shiftr v (Z.of_nat d * 5)) 31) (rev (seq 0 13)).
Proof. unfold encode; rewrite map_map; apply map_ext; intros d; apply encode_digit. Qed.

Lemma encode_length v : length (encode v) = 13%nat.
Proof. by unfold encode; rewrite length_map, length_rev, length_seq. Qed.

(** An encoding reads back as the number it is of. *)
Lemma fold_value_encode v : 0 <= v < 2 ^ 63 -> fold_value (encode v) = v.
Proof.
  intros Hv; rewrite fold_value_digits, encode_digits, digits_of_encoding.
  change (Z.of_nat 13 * 5) with 65. rewrite (Z.mod_small v) by lia. by apply Z.mod_small; lia.
Qed.

(** ** TIDs: what a valid one is *)

Lemma validate_spec s :
  validate s = Ok tt <->
  length s = 13%nat /\ Forall (fun b => is_digit b = true) s
  /\ exists b s', s = b :: s' /\ digit b <= 15.
Proof.
  unfold validate, LEN, len; split.
  - intros H; validated H; bool_prop.
    apply forallb_True in G0. split; [lia|split; [done|]].
    destruct s as [|b s]; [done|]; exists b, s; split; [done|].
    inversion G0 as [|? ? Hb _]; subst; rewrite digit_value by done.
    cbn in G1. apply orb_true_iff in G1; rewrite !between_spec in G1.
    apply is_digit_cases in Hb. destruct (Z.leb_spec b 55); lia.
  - intros (Hlen & Hd & b & s' & -> & Hb).
    replace (Z.of_nat (length (b :: s')) =? 13) with true
      by (symmetry; apply Z.eqb_eq; lia); cbn [negb].
    rewrite (proj2 (forallb_True _ _) Hd); cbn [negb].
    inversion Hd as [|? ? Hb' _]; subst; rewrite digit_value in Hb by done.
    apply is_digit_cases in Hb'; cbn; unfold between.
    destruct (Z.leb_spec b 55); z_cases.
Qed.

Lemma valid_value_bound s :
  validate s = Ok tt -> 0 <= digits_value 32 0 (map digit s) < 2 ^ 64.
Proof.
  intros (Hlen & Hd & b & s' & -> & Hb)%validate_spec; cbn [map digits_value].
  inversion Hd as [|? ? Hb' Hs']; subst.
  rewrite digits_value_acc.
  assert (Forall (fun d => 0 <= d < 32) (map digit s')) as Hr.
  { apply Forall_map; eapply Forall_impl; [exact Hs'|]; intros; by apply digit_range. }
  pose proof (digits_value_bound 32 (map digit s') ltac:(lia) Hr) as Hv.
  pose proof (digit_range b Hb').
  replace (len (map digit s')) with 12 in *
    by (unfold len; rewrite length_map; simpl in Hlen; lia).
  lia.
Qed.

Lemma valid_fold_value s :
  validate s = Ok tt -> fold_value s = digits_value 32 0 (map digit s).
Proof.
  intros Hv; rewrite fold_value_digits; apply Z.mod_small, valid_value_bound, Hv.
Qed.

Lemma valid_compare s1 s2 :
  validate s1 = Ok tt -> validate s2 = Ok tt ->
  str_compare s1 s2 = (fold_value s1 ?= fold_value s2).
Proof.
  intros H1 H2; rewrite !valid_fold_value by done.
  apply validate_spec in H1 as (L1 & D1 & _), H2 as (L2 & D2 & _).
  rewrite digits_value_compare; [by rewrite str_compare_digits|lia|by rewrite !length_map, L1, L2|..];
    apply Forall_map; (eapply Forall_impl; [eassumption|]); intros; by apply digit_range.
Qed.

Lemma parts_value m c :
  0 <= (m mod MICROS) * CLOCK_IDS + c mod CLOCK_IDS < 2 ^ 63.
Proof.
  pose proof (Z.mod_pos_bound m MICROS ltac:(done)).
  pose proof (Z.mod_pos_bound c CLOCK_IDS ltac:(done)).
  change MICROS with (2 ^ 53) in *; change CLOCK_IDS with (2 ^ 10) in *. lia.
Qed.

Lemma from_parts_valid m c : well_formed (from_parts m c).
Proof.
  pose proof (parts_value m c) as Hv; unfold well_formed, from_parts; cbn [as_str newtype str rules].
  set (v := _ + _) in *.
  apply validate_spec; split; [apply encode_length|split; [apply encode_is_digit|]].
  pose proof (encode_digits v) as Hd.
  destruct (encode v) as [|b s'] eqn:E; [pose proof (encode_length v); by rewrite E in *|].
  exists b, s'; split; [done|]. injection Hd as Hb _; rewrite Hb.
  change 31 with (Z.ones 5); rewrite Z.land_ones, Z.shiftr_div_pow2 by lia.
  rewrite Z.mod_small; [apply Z.lt_succ_r, Z.div_lt_upper_bound; lia|].
  split; [apply Z.div_pos; lia|apply Z.div_lt_upper_bound; lia].
Qed.

Lemma to_parts_from_parts_lemma m c :
  to_parts (from_parts m c) = (m mod MICROS, c mod CLOCK_IDS).
Proof.
  unfold to_parts, from_parts; cbn [str].
  rewrite fold_value_encode by apply parts_value.
  pose proof (Z.mod_pos_bound c CLOCK_IDS ltac:(done)).
  f_equal; [rewrite Z.div_add_l, Z.div_small by done; lia|].
  rewrite Z.add_comm, Z_mod_plus_full; apply Z.mod_small; done.
Qed.

Lemma to_parts_value t :
  fold_value (str t) = fst (to_parts t) * CLOCK_IDS + snd (to_parts t)
  /\ 0 <= snd (to_parts t) < CLOCK_IDS.
Proof.
  unfold to_parts; cbn [fst snd]. split; [|by apply Z.mod_pos_bound].
  rewrite Z.mul_comm; by apply Z.div_mod.
Qed.

Lemma well_formed_nonneg t : well_formed t -> 0 <= fst (to_parts t).
Proof.
  intros Hwf; unfold to_parts; cbn [fst].
  rewrite valid_fold_value by done.
  pose proof (valid_value_bound (str t) Hwf). apply Z.div_pos; [lia|done].
Qed.

(** A greater timestamp sorts above, whatever the clock ids. *)
Lemma micros_order t1 t2 :
  well_formed t1 -> well_formed t2 ->
  fst (to_parts t1) < fst (to_parts t2) -> str_lt (str t1) (str t2).
Proof.
  intros H1 H2 Hlt; unfold str_lt; rewrite valid_compare by done.
  destruct (to_parts_value t1) as [-> ?], (to_parts_value t2) as [-> ?].
  change CLOCK_IDS with 1024 in *. apply Z.compare_lt_iff. lia.
Qed.

Lemma mint_step c since :
  0 <= last c ->
  let '(c', t) := mint c since in
  clock_id c' = clock_id c /\ well_formed t /\ fst (to_parts t) = last c'
  /\ 0 <= last c' < MICROS
  /\ (last c < MICROS - 1 -> last c < last c').
Proof.
  intros Hc; unfold mint; cbn [clock_id last].
  set (next := Z.min _ _).
  assert (0 <= next < MICROS) as Hn.
  { subst next; unfold now_micros, saturating_add, U64_MAX in *.
    change MICROS with (2 ^ 53) in *. destruct since as [m|]; [destruct (m <=? _)|]; lia. }
  split; [done|]; split; [apply from_parts_valid|].
  split; [rewrite to_parts_from_parts_lemma; by apply Z.mod_small|split; [done|]].
  subst next; unfold saturating_add, U64_MAX in *; change MICROS with (2 ^ 53) in *. lia.
Qed.

(** The TIDs a clock mints against a run of readings of the system clock. *)
Fixpoint mints (c : Clock) (readings : list (option Z)) : list t :=
  match readings with
  | [] => []
  | since :: readings => let '(c, t) := mint c since in t :: mints c readings
  end.

Lemma mints_above c readings B :
  0 <= last c <= B -> Forall (fun since => now_micros since <= B) readings ->
  B + len readings <= MICROS - 1 ->
  Forall (fun t => well_formed t /\ last c < fst (to_parts t)) (mints c readings)
  /\ StronglySorted (fun t1 t2 => str_lt (str t1) (str t2)) (mints c readings).
Proof.
  intros Hc Hr; revert c B Hc Hr; induction readings as [|since readings IH];
    intros c B Hc Hr Hb; [split; constructor|].
  inversion Hr as [|? ? Hs Hr']; subst. rewrite len_cons in Hb.
  pose proof (len_nonneg readings).
  pose proof (mint_step c since ltac:(lia)) as Hm; cbn [mints].
  assert (last (fst (mint c since)) <= B + 1) as HB.
  { unfold mint; cbn [fst last]. unfold saturating_add. lia. }
  destruct (mint c since) as [c' t]; cbn [fst] in HB.
  destruct Hm as (_ & Hwf & Ht & Hrange & Hup); specialize (Hup ltac:(lia)).
  destruct (IH c' (B + 1)) as [Habove Hsort];
    [lia|eapply Forall_impl; [exact Hr'|]; simpl; lia|lia|].
  split.
  - constructor; [split; [done|lia]|].
    eapply Forall_impl; [exact Habove|]; intros t' [? ?]; split; [done|lia].
  - constructor; [done|].
    eapply Forall_impl; [exact Habove|]; intros t' [? ?].
    apply micros_order; [done..|lia].
Qed.

End TidFacts.

(* ------------------------------------------------------------------ *)
(** ** TIDs: what the server relies on *)

(** A TID is its two numbers. Taking a TID apart gives the timestamp and
    the clock id it was made from, cut to 53 and 10 bits; every TID made is
    valid; and every valid TID whose timestamp is in that field is made from
    the parts it comes apart into, so no two TIDs name the same moment of the
    same clock. *)
Theorem tid_parts_roundtrip m c :
  Tid.to_parts (Tid.from_parts m c) = (m mod Tid.MICROS, c mod Tid.CLOCK_IDS)
  /\ well_formed (Tid.from_parts m c)
  /\ forall t, well_formed t -> let '(m', c') := Tid.to_parts t in
       m' < Tid.MICROS -> Tid.from_parts m' c' = t.
Proof.
  split; [apply TidFacts.to_parts_from_parts_lemma|].
  split; [apply TidFacts.from_parts_valid|].
  intros t Hwf; destruct (Tid.to_parts t) as [m' c'] eqn:E; intros Hm.
  pose proof (TidFacts.to_parts_from_parts_lemma m' c') as Hp.
  pose proof (TidFacts.from_parts_valid m' c') as Hv.
  set (t' := Tid.from_parts m' c') in *.
  destruct (TidFacts.to_parts_value t) as [Hval Hc], (TidFacts.to_parts_value t') as [Hval' _].
  pose proof (TidFacts.well_formed_nonneg t Hwf) as H0.
  rewrite E in *; rewrite Hp in Hval'; cbn [fst snd] in *.
  rewrite !Z.mod_small in Hval' by done.
  assert (Tid.str t' = Tid.str t) as Hs.
  { apply str_compare_eq; rewrite TidFacts.valid_compare by done.
    apply Z.compare_eq_iff; lia. }
  destruct t, t'; cbn in Hs; congruence.
Qed.

(** TIDs sort as the numbers they encode: the byte order of two valid
    TIDs, which is the order of the record index and of revisions, is the
    order of timestamps first and clock ids second. *)
Theorem tid_sorts_by_time t1 t2 :
  well_formed t1 -> well_formed t2 ->
  str_compare (Tid.str t1) (Tid.str t2)
  = match fst (Tid.to_parts t1) ?= fst (Tid.to_parts t2) with
    | Eq => snd (Tid.to_parts t1) ?= snd (Tid.to_parts t2)
    | c => c
    end.
Proof.
  intros H1 H2; rewrite TidFacts.valid_compare by done.
  destruct (TidFacts.to_parts_value t1) as [-> ?], (TidFacts.to_parts_value t2) as [-> ?].
  change Tid.CLOCK_IDS with 1024 in *.
  destruct (Z.compare_spec (fst (Tid.to_parts t1)) (fst (Tid.to_parts t2))) as [->|?|?];
    [|apply Z.compare_lt_iff; lia|apply Z.compare_gt_iff; lia].
  destruct (Z.compare_spec (snd (Tid.to_parts t1)) (snd (Tid.to_parts t2)));
    [apply Z.compare_eq_iff|apply Z.compare_lt_iff|apply Z.compare_gt_iff]; lia.
Qed.

Lemma tid_sorts_by_time_witness :
  str_compare (Tid.str (Tid.from_parts 5 9)) (Tid.str (Tid.from_parts 6 3))
  = match fst (Tid.to_parts (Tid.from_parts 5 9)) ?= fst (Tid.to_parts (Tid.from_parts 6 3)) with
    | Eq => snd (Tid.to_parts (Tid.from_parts 5 9)) ?= snd (Tid.to_parts (Tid.from_parts 6 3))
    | c => c
    end.
Proof. apply tid_sorts_by_time; vm_compute; reflexivity. Defined.

(** C37: a clock's TIDs only go up: whatever the system clock reads, forwards,
    backwards or before the epoch, the TIDs minted one after another are valid
    and strictly increasing, as long as the field has room for them. *)
Theorem minted_tids_increase c readings B :
  0 <= Tid.last c <= B ->
  Forall (fun since => Tid.now_micros since <= B) readings ->
  B + len readings <= Tid.MICROS - 1 ->
  Forall well_formed (TidFacts.mints c readings)
  /\ StronglySorted (fun t1 t2 => str_lt (Tid.str t1) (Tid.str t2)) (TidFacts.mints c readings).
Proof.
  intros Hc Hr HB; destruct (TidFacts.mints_above c readings B) as [H ?]; [done..|].
  split; [|done]. eapply Forall_impl; [exact H|]. by intros t [? _].
Qed.

Lemma minted_tids_increase_witness :
  let c := Tid.MkClock 17 100 in
  let readings := [Some 90; None; Some 200; Some 150] in
  Forall well_formed (TidFacts.mints c readings)
  /\ StronglySorted (fun t1 t2 => str_lt (Tid.str t1) (Tid.str t2)) (TidFacts.mints c readings).
Proof.
  apply (minted_tids_increase (Tid.MkClock 17 100) [Some 90; None; Some 200; Some 150] 200).
  - vm_compute; split; discriminate.
  - repeat constructor; vm_compute; discriminate.
  - vm_compute; discriminate.
Defined.

(** The revision after a revision sorts above it, or is refused. Minting
    after any valid TID, one read from a stored commit included, hands back a
    valid TID above it exactly when neither it nor the clock is at the top of
    the 53-bit field, and nothing otherwise; the clock never goes back. *)
Theorem mint_after_follows c previous since :
  0 <= Tid.last c -> well_formed previous ->
  match Tid.mint_after c previous since with
  | (c', Some next) =>
      well_formed next /\ str_lt (Tid.str previous) (Tid.str next)
      /\ Tid.last c < Tid.last c' /\ fst (Tid.to_parts next) = Tid.last c'
  | (c', None) =>
      Tid.MICROS - 1 <= Z.max (Tid.last c) (fst (Tid.to_parts previous))
      /\ Tid.last c <= Tid.last c'
  end.
Proof.
  intros Hc Hwf; unfold Tid.mint_after; cbn [Tid.last Tid.clock_id].
  pose proof (TidFacts.well_formed_nonneg _ Hwf).
  destruct (Z.ltb_spec (Z.max (Tid.last c) (fst (Tid.to_parts previous))) (Tid.MICROS - 1));
    [|cbn [Tid.last]; lia].
  pose proof (TidFacts.mint_step (Tid.MkClock (Tid.clock_id c)
    (Z.max (Tid.last c) (fst (Tid.to_parts previous)))) since) as Hm.
  cbn [Tid.last] in Hm. specialize (Hm ltac:(lia)).
  destruct (Tid.mint _ since) as [c' t]; destruct Hm as (_ & Hv & Ht & Hr & Hup).
  specialize (Hup ltac:(lia)).
  split; [done|]; split; [apply TidFacts.micros_order; [done..|lia]|]. lia.
Qed.

Lemma mint_after_follows_witness :
  match Tid.mint_after (Tid.MkClock 3 0) (Tid.from_parts (Z.shiftl 1 52) 1023) (Some 12) with
  | (c', Some next) =>
      well_formed next
      /\ str_lt (Tid.str (Tid.from_parts (Z.shiftl 1 52) 1023)) (Tid.str next)
      /\ 0 < Tid.last c' /\ fst (Tid.to_parts next) = Tid.last c'
  | (c', None) =>
      Tid.MICROS - 1 <= Z.max 0 (fst (Tid.to_parts (Tid.from_parts (Z.shiftl 1 52) 1023)))
      /\ 0 <= Tid.last c'
  end.
Proof. apply (mint_after_follows (Tid.MkClock 3 0)); vm_compute; [discriminate|reflexivity]. Defined.

(** The saturated clock repeats itself. Once the last timestamp handed out
    is the top of the field, minting again hands back the very same TID, so
    the count that "never repeats" does there. *)
Theorem mint_repeats_at_the_top id since1 since2 :
  let c := Tid.MkClock id (Tid.MICROS - 1) in
  let '(c1, t1) := Tid.mint c since1 in
  let '(c2, t2) := Tid.mint c1 since2 in
  t1 = t2 /\ c1 = c /\ c2 = c.
Proof.
  assert (forall since, Z.min (Z.max (Tid.now_micros since)
    (saturating_add U64_MAX (Tid.MICROS - 1) 1)) (Tid.MICROS - 1) = Tid.MICROS - 1) as H.
  { intros since; unfold saturating_add, U64_MAX; change Tid.MICROS with (2 ^ 53). lia. }
  cbv zeta; unfold Tid.mint; cbn [Tid.last Tid.clock_id]. by rewrite !H.
Qed.

(* ------------------------------------------------------------------ *)
(** ** The characters an identifier may hold *)

(** Letters, digits and the punctuation any identifier allows: none of it means
    anything in an AT-URI or separates one path segment from the next. *)
Definition plain (byte : Z) : bool := is_ascii_alphanumeric byte || one_of "._~:%-" byte.

Lemma one_of_incl s1 s2 b :
  forallb (fun x => existsb (Z.eqb x) (lit s2)) (lit s1) = true ->
  one_of s1 b = true -> one_of s2 b = true.
Proof.
  unfold one_of; rewrite forallb_forall; intros Hs (x & Hx & ->%Z.eqb_eq)%existsb_exists.
  by apply Hs.
Qed.

Lemma class_incl s1 s2 b :
  forallb (fun x => existsb (Z.eqb x) (lit s2)) (lit s1) = true ->
  is_ascii_alphanumeric b || one_of s1 b = true ->
  is_ascii_alphanumeric b || one_of s2 b = true.
Proof.
  intros Hs; rewrite !orb_true_iff; intros [?|?]; [by left|right; by eapply one_of_incl].
Qed.

Lemma hyphen_plain b : is_ascii_alphanumeric b || (b =? 45) = true -> plain b = true.
Proof.
  intros H; apply (class_incl "-" "._~:%-"); [done|].
  unfold one_of; cbn [lit existsb Ascii.N_of_ascii Z.of_N]; by rewrite orb_false_r.
Qed.

Lemma plain_pointer b : plain b = true -> AtUri.is_pointer_byte b = true.
Proof. by apply class_incl. Qed.

Lemma plain_not b c : plain c = false -> plain b = true -> b <> c.
Proof. congruence. Qed.

Lemma plain_not_elem c s : plain c = false -> forallb plain s = true -> c ∉ s.
Proof. apply forallb_not_elem. Qed.

Lemma join_class f c pieces :
  f c = true -> Forall (fun p => forallb f p = true) pieces -> forallb f (join c pieces) = true.
Proof.
  intros Hc; induction 1 as [|p ps Hp Hps IH]; [done|].
  destruct ps as [|q ps]; [done|]. cbn [join].
  rewrite forallb_app, Hp; cbn [forallb andb]. by rewrite Hc.
Qed.

Lemma did_plain (d : Did.t) : well_formed d -> forallb plain (Did.str d) = true.
Proof.
  unfold well_formed; cbn [rules as_str Did.newtype]; unfold Did.validate; intros H.
  destruct (len _ >? _); [done|].
  destruct (strip_prefix _ _) as [rest|] eqn:E1; [|done].
  destruct (split_once _ _) as [[method id]|] eqn:E2; [|done].
  validated H; bool_prop.
  apply strip_prefix_Some in E1 as ->; apply split_once_Some in E2 as [-> _].
  rewrite !forallb_app; cbn [forallb].
  repeat (apply andb_true_intro; split; try done).
  - eapply forallb_impl; [|eassumption]; intros b Hb.
    unfold plain, is_ascii_alphanumeric, is_ascii_alphabetic; by rewrite Hb.
  - eapply forallb_impl; [|eassumption]; intros b; by apply class_incl.
Qed.

Lemma did_starts (d : Did.t) : well_formed d -> starts_with (lit "did:") (Did.str d) = true.
Proof.
  unfold well_formed; cbn [rules as_str Did.newtype]; unfold Did.validate, starts_with.
  destruct (len _ >? _); [done|]. by destruct (strip_prefix _ _).
Qed.

Lemma did_nonempty (d : Did.t) : well_formed d -> Did.str d <> [].
Proof. intros H%did_starts Hn; by rewrite Hn in H. Qed.

Lemma handle_labels ls tld parts r :
  Handle.labels ls tld parts = Ok r ->
  Forall (fun l => forallb plain l = true /\ l <> []) ls /\ snd r = parts + len ls.
Proof.
  revert tld parts; induction ls as [|l ls IH]; intros tld parts; cbn [Handle.labels].
  - intros [= <-]; split; [done|cbn; len_lia].
  - destruct (Handle.validate_label l) as [[]|] eqn:E; cbn; [|done].
    intros (Hf & Hr)%IH; split; [|len_lia]. constructor; [|done].
    unfold Handle.validate_label in E; validated E; bool_prop. split.
    + eapply forallb_impl; [apply hyphen_plain|done].
    + by destruct l.
Qed.

(** What an NSID is written in. *)
Definition named (byte : Z) : bool := is_ascii_alphanumeric byte || one_of "-." byte.

Lemma hyphen_named b : is_ascii_alphanumeric b || (b =? 45) = true -> named b = true.
Proof.
  intros H; apply (class_incl "-" "-."); [done|].
  unfold one_of; cbn [lit existsb Ascii.N_of_ascii Z.of_N]; by rewrite orb_false_r.
Qed.

Lemma named_plain b : named b = true -> plain b = true.
Proof. by apply class_incl. Qed.

Lemma nsid_walk ss n first name r :
  Nsid.walk ss n first name = Ok r ->
  Forall (fun l => forallb named l = true /\ l <> []) ss /\ fst (fst r) = n + len ss.
Proof.
  revert n first name; induction ss as [|l ss IH]; intros n first name; cbn [Nsid.walk].
  - intros [= <-]; split; [done|cbn; len_lia].
  - destruct (Nsid.validate_segment l) as [[]|] eqn:E; cbn; [|done].
    intros (Hf & Hr)%IH; split; [|len_lia]. constructor; [|done].
    unfold Nsid.validate_segment in E; validated E; bool_prop. split.
    + eapply forallb_impl; [apply hyphen_named|done].
    + by destruct l.
Qed.

(** A dotted name is plain and, having two parts, not empty. *)
Lemma dotted_plain s :
  Forall (fun l => forallb plain l = true /\ l <> []) (split_on 46 s) ->
  forallb plain s = true /\ s <> [].
Proof.
  intros Hf; split.
  - rewrite <- (join_split_on 46 s); apply join_class; [done|].
    eapply Forall_impl; [exact Hf|]; by intros l [? _].
  - intros ->; inversion Hf as [|? ? [_ Hne] _]; done.
Qed.

Lemma handle_plain (h : Handle.t) :
  well_formed h -> forallb plain (Handle.str h) = true /\ Handle.str h <> [].
Proof.
  unfold well_formed; cbn [rules as_str Handle.newtype]; unfold Handle.validate; intros H.
  destruct (len _ >? _); [done|].
  destruct (Handle.labels _ _ _) as [r|] eqn:E; [|done].
  by apply handle_labels in E as [? _]; apply dotted_plain.
Qed.

Lemma nsid_named (c : Nsid.t) :
  well_formed c -> forallb named (Nsid.str c) = true /\ Nsid.str c <> [] /\ len (Nsid.str c) <= 317.
Proof.
  unfold well_formed; cbn [rules as_str Nsid.newtype]; unfold Nsid.validate; intros H.
  destruct (len _ >? _) eqn:G; [done|].
  destruct (Nsid.walk _ _ _ _) as [r|] eqn:E; [|done].
  apply nsid_walk in E as [Hf _]; rewrite Z.gtb_ltb in G; bool_prop. split_and!; [| |done].
  - rewrite <- (join_split_on 46 (Nsid.str c)); apply join_class; [done|].
    eapply Forall_impl; [exact Hf|]; by intros l [? _].
  - intros Hc; rewrite Hc in Hf; inversion Hf as [|? ? [_ Hne] _]; done.
Qed.

Lemma nsid_plain (c : Nsid.t) :
  well_formed c -> forallb plain (Nsid.str c) = true /\ Nsid.str c <> [] /\ len (Nsid.str c) <= 317.
Proof.
  intros (Hn & ? & ?)%nsid_named; split; [|done]. by eapply forallb_impl; [apply named_plain|].
Qed.

Lemma record_key_plain (k : RecordKey.t) :
  well_formed k ->
  forallb RecordKey.is_allowed (RecordKey.str k) = true
  /\ RecordKey.str k <> [] /\ len (RecordKey.str k) <= 512.
Proof.
  unfold well_formed; cbn [rules as_str RecordKey.newtype]; unfold RecordKey.validate; intros H.
  validated H; bool_prop. rewrite Z.gtb_ltb in G0; bool_prop.
  split; [done|split; [by destruct (RecordKey.str k)|done]].
Qed.

Lemma allowed_plain b : RecordKey.is_allowed b = true -> plain b = true.
Proof. by apply class_incl. Qed.

(** A handle has no colon, so it is never taken for a DID. *)
Lemma handle_not_did (h : Handle.t) :
  well_formed h -> starts_with (lit "did:") (Handle.str h) = false.
Proof.
  intros H; destruct (starts_with _ _) eqn:E; [|done].
  apply starts_with_true in E as [r Hr].
  unfold well_formed in H; cbn [rules as_str Handle.newtype] in H; unfold Handle.validate in H.
  destruct (len _ >? _); [done|].
  destruct (Handle.labels _ _ _) as [p|] eqn:E; [|done].
  assert (58 ∈ Handle.str h) as Hin by (rewrite Hr; cbn; set_solver).
  destruct (split_on_elem 46 _ _ Hin) as (piece & Hp & Hpi); [done|].
  clear H Hr; revert E; generalize (@nil Z), 0.
  induction (split_on 46 (Handle.str h)) as [|l ls IH]; intros tld parts; [set_solver|].
  cbn [Handle.labels]; destruct (Handle.validate_label l) as [[]|] eqn:El; cbn; [|done].
  apply elem_of_cons in Hp as [->|Hp]; [|by apply IH].
  unfold Handle.validate_label in El; validated El; bool_prop.
  exfalso; revert Hpi; eapply forallb_not_elem; [|eassumption]; done.
Qed.

(** ** Reading an authority back *)

Lemma at_identifier_plain a :
  AtIdentifier.valid a ->
  forallb plain (AtIdentifier.to_str a) = true /\ AtIdentifier.to_str a <> [].
Proof.
  destruct a as [d|h]; cbn; intros H; [split; [by apply did_plain|by apply did_nonempty]|].
  by apply handle_plain.
Qed.

Lemma at_identifier_parse a :
  AtIdentifier.valid a -> AtIdentifier.parse (AtIdentifier.to_str a) = Ok a.
Proof.
  destruct a as [d|h]; cbn [AtIdentifier.valid AtIdentifier.to_str]; intros H;
    unfold AtIdentifier.parse.
  - rewrite did_starts by done.
    pose proof (from_str_well_formed d H) as E; cbn [as_str Did.newtype] in E. by rewrite E.
  - rewrite handle_not_did by done.
    pose proof (from_str_well_formed h H) as E; cbn [as_str Handle.newtype] in E. by rewrite E.
Qed.

Lemma at_identifier_parsed s a :
  AtIdentifier.parse s = Ok a -> AtIdentifier.to_str a = s /\ AtIdentifier.valid a.
Proof.
  unfold AtIdentifier.parse; destruct (starts_with _ _);
    destruct (from_str s) as [x|] eqn:E; cbn; [|done| |done];
    intros [= <-]; by apply from_str_as_str in E.
Qed.

(* ------------------------------------------------------------------ *)
(** ** AT-URIs: printing and parsing *)

Module AtUriFacts.
Import AtUri.

(** The path segments a URI is printed from. *)
Definition segments (u : t) : list bytes :=
  AtIdentifier.to_str (authority u)
  :: match collection u with
     | None => []
     | Some c => Nsid.str c :: match rkey u with None => [] | Some r => [RecordKey.str r] end
     end.

Definition hash (u : t) : bytes :=
  match fragment u with Some f => lit "#" ++ f | None => [] end.

Lemma display_segments u :
  valid u -> display u = lit "at://" ++ join 47 (segments u) ++ hash u.
Proof.
  intros (_ & Hc & _); unfold display, segments, hash.
  destruct (collection u); [destruct (rkey u)|rewrite Hc]; change (lit "/") with [47];
    cbn [join app]; rewrite <- ?app_assoc; cbn [app]; rewrite <- ?app_assoc; reflexivity.
Qed.

Lemma segments_plain u :
  valid u -> Forall (fun p => forallb plain p = true /\ p <> []) (segments u).
Proof.
  intros (Ha & Hc & Hr & _); unfold segments; constructor; [by apply at_identifier_plain|].
  destruct (collection u) as [c|]; [|done].
  constructor; [by apply nsid_plain in Hc as (? & ? & _)|].
  destruct (rkey u) as [r|]; [|done]. constructor; [|done].
  apply record_key_plain in Hr as (? & ? & _); split; [|done].
  eapply forallb_impl; [apply allowed_plain|done].
Qed.

(** No byte of the path needs escaping: each is a segment's own or a slash. *)
Lemma path_bytes c ps :
  plain c = false -> c <> 47 -> Forall (fun p => forallb plain p = true /\ p <> []) ps ->
  c ∉ join 47 ps.
Proof.
  intros Hc Hs; induction 1 as [|p ps [Hp _] Hps IH]; [set_solver|].
  pose proof (plain_not_elem c p Hc Hp).
  destruct ps; cbn [join]; [done|]. set_solver.
Qed.

Lemma path_allowed ps :
  Forall (fun p => forallb plain p = true /\ p <> []) ps ->
  forallb is_pointer_byte (join 47 ps) = true.
Proof.
  induction 1 as [|p ps [Hp _] Hps IH]; [done|].
  apply (forallb_impl _ _ _ plain_pointer) in Hp.
  destruct ps; cbn [join]; [done|]. rewrite forallb_app, Hp; cbn. done.
Qed.

Lemma path_last ps :
  ps <> [] -> Forall (fun p => forallb plain p = true /\ p <> []) ps ->
  last_is (Z.eqb 47) (join 47 ps) = false.
Proof.
  intros Hne; induction 1 as [|p ps [Hp Hp0] Hps IH]; [done|].
  destruct ps as [|q ps].
  - cbn [join]; unfold last_is.
    destruct (last p) as [b|] eqn:E; [|done].
    apply Z.eqb_neq; intros <-. apply last_Some_elem_of in E.
    by apply (plain_not_elem 47 p).
  - change (join 47 (p :: q :: ps)) with (p ++ 47 :: join 47 (q :: ps)); unfold last_is in *.
    rewrite last_app, last_cons. specialize (IH ltac:(discriminate)).
    destruct (last (join 47 (q :: ps))) eqn:E; [exact IH|].
    apply last_None in E. inversion Hps as [|? ? [_ Hq] _]; subst.
    destruct q as [|z q]; [done|]. destruct ps; cbn in E; discriminate E.
Qed.

Lemma is_pointer_allowed b : is_pointer_byte b = true -> is_allowed b = true.
Proof. unfold is_allowed; by intros ->. Qed.

Lemma fragment_bytes f : validate_fragment f = Ok f -> forallb is_pointer_byte f = true.
Proof.
  unfold validate_fragment; intros H; destruct (negb (head_is _ _)); [done|].
  destruct (forallb is_pointer_byte f); done.
Qed.

Lemma hash_allowed u : valid u -> forallb is_allowed (hash u) = true.
Proof.
  intros (_ & _ & _ & Hf); unfold hash; destruct (fragment u) as [f|]; [|done].
  cbn. eapply forallb_impl; [apply is_pointer_allowed|by apply fragment_bytes].
Qed.

Lemma split_hash u :
  valid u ->
  split_once 35 (join 47 (segments u) ++ hash u)
  = match fragment u with Some f => Some (join 47 (segments u), f) | None => None end.
Proof.
  intros Hv; pose proof (path_bytes 35 _ ltac:(done) ltac:(done) (segments_plain u Hv)).
  unfold hash; destruct (fragment u) as [f|]; cbn [lit app].
  - apply split_once_Some; done.
  - apply split_once_None; by rewrite app_nil_r.
Qed.

Lemma segments_split u : valid u -> split_on 47 (join 47 (segments u)) = segments u.
Proof.
  intros Hv; apply split_on_join; [done|].
  eapply Forall_impl; [by apply segments_plain|]. intros p [Hp _]; by apply plain_not_elem.
Qed.

(** The parts of a URI read back from the segments they print as. *)
Lemma parse_segments u :
  valid u ->
  (authority ← map_err (fun _ => EAtUri "authority is not a DID or a handle")
                 (AtIdentifier.parse (default [] (segments u !! 0%nat)));
   collection ← map_err (fun _ => EAtUri "collection is not an NSID")
                 (transpose (from_str <$> segments u !! 1%nat));
   rkey ← map_err (fun _ => EAtUri "not a record key")
                 (transpose (from_str <$> segments u !! 2%nat));
   fragment ← transpose (validate_fragment <$> fragment u);
   Ok (mk authority collection rkey fragment)) = Ok u.
Proof.
  destruct u as [a c r f]; intros (Ha & Hc & Hr & Hf); cbn in Ha, Hc, Hr, Hf.
  unfold segments; cbn [authority collection rkey fragment lookup list_lookup from_option id].
  rewrite at_identifier_parse by done; cbn [map_err mbind result_bind].
  destruct c as [c|]; cbn [lookup list_lookup].
  - pose proof (from_str_well_formed c Hc) as Ec; cbn [as_str Nsid.newtype] in Ec.
    cbn [fmap option_fmap option_map]; rewrite Ec; cbn [transpose map_err mbind result_bind].
    destruct r as [r|]; cbn [lookup list_lookup].
    + pose proof (from_str_well_formed r Hr) as Er; cbn [as_str RecordKey.newtype] in Er.
      cbn [fmap option_fmap option_map]; rewrite Er; cbn [transpose map_err mbind result_bind].
      destruct f as [f|]; cbn [fmap option_fmap option_map]; [by rewrite Hf|done].
    + destruct f as [f|]; cbn; [by rewrite Hf|done].
  - subst r. destruct f as [f|]; cbn; [by rewrite Hf|done].
Qed.

Lemma parts_print a c r rest :
  split_on 47 rest !! 3%nat = None ->
  split_on 47 rest !! 0%nat = Some a -> split_on 47 rest !! 1%nat = c ->
  split_on 47 rest !! 2%nat = r ->
  rest = a ++ match c with Some c => lit "/" ++ c | None => [] end
           ++ match r with Some r => lit "/" ++ r | None => [] end
  /\ (c = None -> r = None).
Proof.
  intros H3 H0 H1 H2; rewrite <- (join_split_on 47 rest).
  destruct (split_on 47 rest) as [|x [|y [|z [|? ?]]]]; cbn in *; simplify_eq;
    split; try done; cbn; by rewrite ?app_nil_r.
Qed.

End AtUriFacts.

(** An AT-URI prints back as it was written: whatever string parses, the
    URI it parses to displays as that string, and its authority, collection,
    record key and fragment are each valid in their own right. *)
Theorem at_uri_parse_display s u :
  AtUri.parse s = Ok u -> AtUri.display u = s /\ AtUri.valid u.
Proof.
  unfold AtUri.parse; destruct (len s >? _); [done|].
  destruct (negb (forallb _ s)); [done|].
  destruct (strip_prefix _ s) as [rest|] eqn:E1; [|done].
  apply strip_prefix_Some in E1 as ->.
  destruct (match split_once 35 rest with Some (r, f) => (r, Some f) | None => (rest, None) end)
    as [path frag] eqn:E2.
  destruct (contains 63 path); [done|]; destruct (last_is _ path); [done|]; cbv zeta.
  destruct (bool_decide _) eqn:E3; [done|].
  apply bool_decide_eq_false in E3; apply dec_stable in E3.
  assert (rest = path ++ match frag with Some f => lit "#" ++ f | None => [] end) as ->.
  { destruct (split_once 35 rest) as [[r f]|] eqn:E; simplify_eq; [|by rewrite app_nil_r].
    by apply split_once_Some in E as [-> _]. }
  destruct (split_on 47 path !! 0%nat) as [a|] eqn:E0; cbn [default from_option id];
    [|by apply lookup_ge_None, Nat.le_0_r, nil_length_inv, split_on_nonempty in E0].
  destruct (AtUriFacts.parts_print a _ _ path E3 E0 eq_refl eq_refl) as [Hpath Hord].
  destruct (AtIdentifier.parse a) as [auth|] eqn:Ea; [|done].
  apply at_identifier_parsed in Ea as [Ea Va]; cbn [map_err mbind result_bind].
  intros H; apply bind_Ok in H as (c & Ec%map_err_Ok & H).
  apply bind_Ok in H as (r & Er%map_err_Ok & H).
  apply bind_Ok in H as (f & Ef & [= <-]).
  unfold AtUri.display, AtUri.valid; cbn [AtUri.authority AtUri.collection AtUri.rkey AtUri.fragment].
  assert (match frag with Some f => lit "#" ++ f | None => [] end
    = match f with Some f => lit "#" ++ f | None => [] end
    /\ match f with Some f => AtUri.validate_fragment f = Ok f | None => True end) as [Hf Vf].
  { destruct frag as [g|]; cbn in Ef; [|by injection Ef as <-].
    destruct (AtUri.validate_fragment g) as [h|] eqn:Eg; cbn in Ef; [|done].
    injection Ef as <-. assert (h = g) as ->; [|done].
    revert Eg; unfold AtUri.validate_fragment.
    destruct (negb _); [done|]; destruct (negb _); [done|].
    destruct (AtUri.validate_percent_encoding g); cbn; [by intros [= ->]|done]. }
  rewrite Hf, Ea, Hpath; clear Hf Hpath.
  destruct (split_on 47 path !! 1%nat) as [cs|]; cbn [fmap option_fmap option_map] in Ec.
  - destruct (from_str (T := Nsid.t) cs) as [c'|] eqn:E1; cbn [transpose] in Ec; simplify_eq.
    apply from_str_as_str in E1 as [Hc Vc]; cbn in Hc; subst cs.
    destruct (split_on 47 path !! 2%nat) as [rs|]; cbn [fmap option_fmap option_map] in Er.
    + destruct (from_str (T := RecordKey.t) rs) as [r'|] eqn:E1; cbn [transpose] in Er; simplify_eq.
      apply from_str_as_str in E1 as [Hr Vr]; cbn in Hr; subst rs.
      by rewrite <- !app_assoc.
    + injection Er as <-; by rewrite <- !app_assoc.
  - injection Ec as <-; rewrite Hord in * by done; cbn in Er; injection Er as <-.
    by rewrite <- !app_assoc.
Qed.

Lemma at_uri_parse_display_witness :
  let s := lit "at://alice.test/app.bsky.feed.post/3jui7kd54zh2y#/text" in
  exists u, AtUri.parse s = Ok u /\ AtUri.display u = s /\ AtUri.valid u.
Proof.
  eexists; split; [vm_compute; reflexivity|].
  apply at_uri_parse_display; vm_compute; reflexivity.
Defined.

(** An AT-URI parses back from its parts: a URI put together from a valid
    authority, collection, record key and fragment, no longer than the limit,
    displays as a string that parses to exactly that URI. *)
Theorem at_uri_display_parse u :
  AtUri.valid u -> len (AtUri.display u) <= AtUri.MAX_LEN ->
  AtUri.parse (AtUri.display u) = Ok u.
Proof.
  intros Hv Hlen; unfold AtUri.parse.
  assert (len (AtUri.display u) >? AtUri.MAX_LEN = false) as ->
    by (rewrite Z.gtb_ltb; apply Z.ltb_ge; lia).
  rewrite (AtUriFacts.display_segments u Hv) in *.
  pose proof (AtUriFacts.segments_plain u Hv) as Hp.
  assert (forallb AtUri.is_allowed (lit "at://" ++ join 47 (AtUriFacts.segments u) ++ AtUriFacts.hash u)
    = true) as ->.
  { rewrite !forallb_app, AtUriFacts.hash_allowed by done.
    rewrite (forallb_impl _ _ _ AtUriFacts.is_pointer_allowed (AtUriFacts.path_allowed _ Hp)); done. }
  cbn [negb]; rewrite strip_prefix_app, (AtUriFacts.split_hash u Hv).
  assert (match match AtUri.fragment u with
      | Some f => Some (join 47 (AtUriFacts.segments u), f) | None => None end
    with Some (r, f) => (r, Some f)
    | None => (join 47 (AtUriFacts.segments u) ++ AtUriFacts.hash u, None) end
    = (join 47 (AtUriFacts.segments u), AtUri.fragment u)) as ->.
  { unfold AtUriFacts.hash; destruct (AtUri.fragment u); [done|by rewrite app_nil_r]. }
  rewrite (proj2 (contains_false _ _) (AtUriFacts.path_bytes 63 _ eq_refl ltac:(done) Hp)).
  rewrite (AtUriFacts.path_last (AtUriFacts.segments u)
    ltac:(unfold AtUriFacts.segments; discriminate) Hp); cbv zeta.
  rewrite (AtUriFacts.segments_split u Hv), bool_decide_eq_false_2.
  - by apply AtUriFacts.parse_segments.
  - intros H; apply H; unfold AtUriFacts.segments.
    by destruct (AtUri.collection u); [destruct (AtUri.rkey u)|].
Qed.

Lemma at_uri_display_parse_witness :
  let u := AtUri.mk (AtIdentifier.IsDid (Did.mk (lit "did:plc:4cjoyc3cgpal7gnrpzyjhnv3")))
    (Some (Nsid.mk (lit "app.bsky.feed.post"))) (Some (RecordKey.mk (lit "3jui7kd54zh2y")))
    (Some (lit "/a%C3%A9")) in
  AtUri.parse (AtUri.display u) = Ok u.
Proof. apply at_uri_display_parse; vm_compute; [auto|discriminate]. Defined.

(** A TID is always a record key, so the conversion that mints a key for a
    new record never panics, and keeps the text. *)
Theorem tid_is_record_key t :
  well_formed t ->
  exists k, Tid.into_record_key t = Some k /\ RecordKey.str k = Tid.str t /\ well_formed k.
Proof.
  intros Hwf; apply TidFacts.validate_spec in Hwf as (Hlen & Hd & _); cbn [as_str Tid.newtype] in *.
  assert (RecordKey.validate (Tid.str t) = Ok tt) as Hr.
  { unfold RecordKey.validate, RecordKey.MAX_LEN, len; rewrite Hlen.
    rewrite bool_decide_eq_false_2; [|intros [E|E]; rewrite E in Hlen; done].
    cbn [Z.of_nat Z.eqb Z.gtb]. cbn.
    assert (forallb RecordKey.is_allowed (Tid.str t) = true) as ->; [|done].
    apply forallb_True; eapply Forall_impl; [exact Hd|]; cbv beta; intros b Hb.
    apply TidFacts.is_digit_cases in Hb; unfold RecordKey.is_allowed.
    ascii_unfold. destruct Hb; z_cases. }
  exists (RecordKey.mk (Tid.str t)); unfold Tid.into_record_key.
  unfold from_str; cbn [rules RecordKey.newtype]; by rewrite Hr.
Qed.

Lemma tid_is_record_key_witness :
  exists k, Tid.into_record_key (Tid.from_parts 1700000000000000 17) = Some k
  /\ RecordKey.str k = Tid.str (Tid.from_parts 1700000000000000 17) /\ well_formed k.
Proof. apply tid_is_record_key; vm_compute; reflexivity. Defined.
