(* ===== verification/Crypto.v ===== *)
(** * Crypto: signing keys, signatures and the encodings of [src/src/crypto.rs]

    The two curves are crates ([p256] and [k256]) and stay parameters: a
    [Curve] is the operations the code calls, [CurveOk] what it relies on.
    Base58 ([bs58]) is a parameter the same way.  Everything the file itself
    does is modelled: hex, base32, the constant-time comparison, the choice of
    curve, the refusal of malleable signatures and the multicodec form of a
    key. *)

From S2P Require Import Prelude.
From Stdlib Require Import Lia.

Local Open Scope Z_scope.

(* ------------------------------------------------------------------ *)
(** ** Encodings *)

(** One hex digit of [{:02x}], and [hex]. *)
Definition hex_digit (d : Z) : Z := if d <? 10 then 48 + d else 87 + d.
Definition hex (b : bytes) : bytes :=
  fold_left (fun written byte => written ++ [hex_digit (byte / 16); hex_digit (byte mod 16)]) b [].

(** [same]: the fold keeps every difference there is. *)
Definition same (left right : bytes) : bool :=
  (len left =? len right)
  && (fold_left (fun difference '(l, r) => Z.lor difference (Z.lxor l r)) (combine left right) 0 =? 0).

Definition ALPHABET : bytes := lit "abcdefghijklmnopqrstuvwxyz234567".

(** [base32]: the [u32] buffer takes a byte at a time and gives up five bits
    at a time. The inner loop runs once or twice, so four rounds are enough. *)
Fixpoint drain (fuel : nat) (buffer bits : Z) (encoded : bytes) : Z * bytes :=
  match fuel with
  | O => (bits, encoded)
  | S fuel =>
      if 5 <=? bits then
        drain fuel buffer (bits - 5)
          (encoded ++ [nth (Z.to_nat (Z.land (Z.shiftr buffer (bits - 5)) 31)) ALPHABET 0])
      else (bits, encoded)
  end.
Definition base32_step (state : Z * Z * bytes) (byte : Z) : Z * Z * bytes :=
  let '(buffer, bits, encoded) := state in
  let buffer := Z.lor (Z.shiftl buffer 8 mod 2 ^ 32) byte in
  let '(bits, encoded) := drain 4 buffer (bits + 8) encoded in
  (buffer, bits, encoded).
Definition base32 (b : bytes) : bytes :=
  let '(buffer, bits, encoded) := fold_left base32_step b (0, 0, []) in
  if 0 <? bits
  then encoded ++ [nth (Z.to_nat (Z.land (Z.shiftl buffer (5 - bits) mod 2 ^ 32) 31)) ALPHABET 0]
  else encoded.

(** [u8::is_ascii_hexdigit] and [u8::from_str_radix(_, 16)] of one digit. *)
Definition is_ascii_hexdigit (byte : Z) : bool :=
  between 48 byte 57 || between 97 byte 102 || between 65 byte 70.
Definition hex_value (byte : Z) : Z :=
  if between 48 byte 57 then byte - 48 else if between 97 byte 102 then byte - 87 else byte - 55.

(** [unhex], two digits at a time. *)
Fixpoint hex_pairs (text : bytes) : bytes :=
  match text with
  | high :: low :: text => hex_value high * 16 + hex_value low :: hex_pairs text
  | _ => []
  end.
Definition unhex (text : bytes) : option bytes :=
  if negb (Z.even (len text)) || negb (forallb is_ascii_hexdigit text) then None
  else Some (hex_pairs text).

(* ------------------------------------------------------------------ *)
(** ** Keys *)

(** [crypto::Error]. *)
Inductive CryptoError :=
| NotDidKey
| UnsupportedKey
| MalformedKey
| MalformedSignature
| HighS
| BadSignature.

#[export] Instance CryptoError_eq_dec : EqDecision CryptoError.
Proof. solve_decision. Defined.

(** [Algorithm]. *)
Inductive Algorithm := P256 | Secp256k1.

#[export] Instance Algorithm_eq_dec : EqDecision Algorithm.
Proof. solve_decision. Defined.

(** What the code calls of one curve's crate. *)
Record Curve := MkCurve {
  SigningKey : Type;
  VerifyingKey : Type;
  Signature : Type;
  signing_from_slice : bytes -> option SigningKey;
  signing_to_bytes : SigningKey -> bytes;
  verifying_key : SigningKey -> VerifyingKey;
  curve_sign : SigningKey -> bytes -> Signature;
  curve_verify : VerifyingKey -> bytes -> Signature -> bool;
  normalize_s : Signature -> Signature;
  signature_eqb : Signature -> Signature -> bool;
  signature_from_slice : bytes -> option Signature;
  signature_to_bytes : Signature -> bytes;
  to_sec1_point : VerifyingKey -> bytes;
  from_sec1_bytes : bytes -> option VerifyingKey
}.

(** What the crates document. *)
Class CurveOk (C : Curve) : Prop := {
  signing_roundtrip : forall k, signing_from_slice C (signing_to_bytes C k) = Some k;
  signature_eqb_spec : forall s t, signature_eqb C s t = true <-> s = t;
  normalize_idempotent : forall s, normalize_s C (normalize_s C s) = normalize_s C s;
  signature_roundtrip : forall s, signature_from_slice C (signature_to_bytes C s) = Some s;
  signature_length : forall s, len (signature_to_bytes C s) = 64;
  signature_slice_length : forall b s, signature_from_slice C b = Some s -> len b = 64;
  signature_slice_bytes : forall b s, signature_from_slice C b = Some s -> signature_to_bytes C s = b;
  signed_verifies : forall k m, curve_verify C (verifying_key C k) m (normalize_s C (curve_sign C k m)) = true;
  point_length : forall p, len (to_sec1_point C p) = 33;
  point_roundtrip : forall p, from_sec1_bytes C (to_sec1_point C p) = Some p;
  point_compressed : forall b p, len b = 33 -> from_sec1_bytes C b = Some p -> to_sec1_point C p = b
}.

(** [bs58::encode] and [bs58::decode]. *)
Class Base58 := {
  b58_encode : bytes -> bytes;
  b58_decode : bytes -> option bytes
}.
Class Base58Ok `{Base58} : Prop := {
  b58_roundtrip : forall b, b58_decode (b58_encode b) = Some b
}.

Definition SECP256K1_PREFIX : bytes := [231; 1].
Definition P256_PREFIX : bytes := [128; 36].
Definition POINT_LEN : Z := 33.

Section Keys.
Context (p256 k256 : Curve).

(** [Keypair] and [PublicKey]. *)
Inductive Keypair :=
| KeypairP256 (key : SigningKey p256)
| KeypairSecp256k1 (key : SigningKey k256).
Inductive PublicKey :=
| PublicP256 (key : VerifyingKey p256)
| PublicSecp256k1 (key : VerifyingKey k256).

(** [Keypair::from_bytes], [to_bytes], [algorithm] and [public_key]. *)
Definition from_bytes (algorithm : Algorithm) (b : bytes) : result CryptoError Keypair :=
  ok_or (match algorithm with
         | P256 => KeypairP256 <$> signing_from_slice p256 b
         | Secp256k1 => KeypairSecp256k1 <$> signing_from_slice k256 b
         end) MalformedKey.
Definition to_bytes (k : Keypair) : bytes :=
  match k with
  | KeypairP256 key => signing_to_bytes p256 key
  | KeypairSecp256k1 key => signing_to_bytes k256 key
  end.
Definition keypair_algorithm (k : Keypair) : Algorithm :=
  match k with KeypairP256 _ => P256 | KeypairSecp256k1 _ => Secp256k1 end.
Definition public_key (k : Keypair) : PublicKey :=
  match k with
  | KeypairP256 key => PublicP256 (verifying_key p256 key)
  | KeypairSecp256k1 key => PublicSecp256k1 (verifying_key k256 key)
  end.

(** [Keypair::sign]. *)
Definition sign (k : Keypair) (message : bytes) : bytes :=
  match k with
  | KeypairP256 key => signature_to_bytes p256 (normalize_s p256 (curve_sign p256 key message))
  | KeypairSecp256k1 key => signature_to_bytes k256 (normalize_s k256 (curve_sign k256 key message))
  end.

(** [PublicKey::verify], one curve's half. *)
Definition verify_with (C : Curve) (key : VerifyingKey C) (message signature : bytes)
  : result CryptoError unit :=
  signature ← ok_or (signature_from_slice C signature) MalformedSignature;
  if negb (signature_eqb C (normalize_s C signature) signature) then Err HighS else
  if curve_verify C key message signature then Ok tt else Err BadSignature.
Definition verify (k : PublicKey) (message signature : bytes) : result CryptoError unit :=
  match k with
  | PublicP256 key => verify_with p256 key message signature
  | PublicSecp256k1 key => verify_with k256 key message signature
  end.

Definition public_algorithm (k : PublicKey) : Algorithm :=
  match k with PublicP256 _ => P256 | PublicSecp256k1 _ => Secp256k1 end.

(** [PublicKey::to_multicodec] and [from_multicodec]. *)
Definition to_multicodec (k : PublicKey) : bytes :=
  match k with
  | PublicP256 key => P256_PREFIX ++ to_sec1_point p256 key
  | PublicSecp256k1 key => SECP256K1_PREFIX ++ to_sec1_point k256 key
  end.
Definition from_multicodec (b : bytes) : result CryptoError PublicKey :=
  if len b <? 2 then Err UnsupportedKey else
  let prefix := take 2 b in
  let point := drop 2 b in
  if negb (len point =? POINT_LEN) then Err UnsupportedKey else
  if decide (prefix = P256_PREFIX) then
    ok_or (PublicP256 <$> from_sec1_bytes p256 point) MalformedKey
  else if decide (prefix = SECP256K1_PREFIX) then
    ok_or (PublicSecp256k1 <$> from_sec1_bytes k256 point) MalformedKey
  else Err UnsupportedKey.

Context `{Base58}.

(** [Display] and [FromStr for PublicKey]: the [did:key]. *)
Definition DID_KEY : bytes := lit "did:key:z".
Definition display (k : PublicKey) : bytes := DID_KEY ++ b58_encode (to_multicodec k).
Definition parse (input : bytes) : result CryptoError PublicKey :=
  encoded ← ok_or (strip_prefix DID_KEY input) NotDidKey;
  b ← ok_or (b58_decode encoded) NotDidKey;
  from_multicodec b.

End Keys.

Arguments KeypairP256 {p256 k256} key.
Arguments KeypairSecp256k1 {p256 k256} key.
Arguments PublicP256 {p256 k256} key.
Arguments PublicSecp256k1 {p256 k256} key.

(* ================================================================== *)
(** * Facts *)

Lemma lor_zero a b : Z.lor a b = 0 <-> a = 0 /\ b = 0.
Proof. apply Z.lor_eq_0_iff. Qed.

Lemma fold_or_zero ps d :
  fold_left (fun difference '(l, r) => Z.lor difference (Z.lxor l r)) ps d = 0
  <-> d = 0 /\ Forall (fun '(l, r) => l = r) ps.
Proof.
  revert d; induction ps as [|[l r] ps IH]; intros d; cbn [fold_left].
  - split; [by split|naive_solver].
  - rewrite IH, lor_zero, Forall_cons, Z.lxor_eq_0_iff. tauto.
Qed.

Lemma combine_diagonal (l r : bytes) :
  length l = length r -> Forall (fun '(x, y) => x = y) (combine l r) -> l = r.
Proof.
  revert r; induction l as [|x l IH]; intros [|y r] Hl Hf; cbn in *; try done.
  apply Forall_cons in Hf as [-> Hf]. f_equal; auto.
Qed.

Lemma hex_digit_value d : 0 <= d < 16 -> hex_value (hex_digit d) = d /\ is_ascii_hexdigit (hex_digit d) = true.
Proof.
  intros Hd; unfold hex_digit, hex_value, is_ascii_hexdigit, between; z_cases; lia.
Qed.

Lemma value_hex_digit c :
  is_ascii_hexdigit c = true -> 0 <= hex_value c < 16 /\ hex_digit (hex_value c) = to_ascii_lowercase c.
Proof.
  unfold hex_digit, hex_value, is_ascii_hexdigit, to_ascii_lowercase, is_ascii_uppercase, between.
  intros Hc. z_cases; lia.
Qed.

Lemma hex_concat b : hex b = concat (map (fun x => [hex_digit (x / 16); hex_digit (x mod 16)]) b).
Proof. apply (fold_left_concat (fun x => [hex_digit (x / 16); hex_digit (x mod 16)])). Qed.

Lemma byte_nibbles x : is_byte x -> 0 <= x / 16 < 16 /\ 0 <= x mod 16 < 16.
Proof.
  unfold is_byte; intros Hx; split; [|apply Z.mod_pos_bound; lia].
  split; [apply Z.div_pos; lia|apply Z.div_lt_upper_bound; lia].
Qed.

Lemma hex_pairs_hex b : Forall is_byte b -> hex_pairs (hex b) = b.
Proof.
  rewrite hex_concat; induction 1 as [|x b Hx Hb IH]; [done|]; cbn [map concat app hex_pairs].
  rewrite IH; f_equal. destruct (byte_nibbles x Hx) as [H1 H2].
  rewrite (proj1 (hex_digit_value _ H1)), (proj1 (hex_digit_value _ H2)).
  pose proof (Z.div_mod x 16); lia.
Qed.

Lemma hex_is_hex b : Forall is_byte b -> forallb is_ascii_hexdigit (hex b) = true /\ Z.even (len (hex b)) = true.
Proof.
  rewrite hex_concat; induction 1 as [|x b Hx Hb [IH IHe]]; [done|]; cbn [map concat app forallb].
  destruct (byte_nibbles x Hx) as [H1 H2].
  rewrite (proj2 (hex_digit_value _ H1)), (proj2 (hex_digit_value _ H2)), IH. split; [done|].
  rewrite !len_cons, Z.add_assoc, Z.even_add, IHe. done.
Qed.

Lemma hex_of_pairs t :
  forallb is_ascii_hexdigit t = true -> Z.even (len t) = true -> hex (hex_pairs t) = map to_ascii_lowercase t.
Proof.
  rewrite hex_concat. remember (length t) as n eqn:Hn; revert t Hn.
  induction n as [n IH] using lt_wf_ind; intros [|a [|b t]] Hn Ht He; try done.
  cbn [forallb] in Ht; bool_prop; cbn [hex_pairs map concat app].
  destruct (value_hex_digit a H) as [Ha Ea], (value_hex_digit b H0) as [Hb Eb].
  rewrite Z.div_add_l, Z.div_small, Z.add_0_r by lia.
  rewrite Z.add_comm, Z_mod_plus_full, Z.mod_small, Ea, Eb by lia.
  do 2 f_equal. apply (IH (length t)); [cbn in Hn; lia|done|done|].
  rewrite !len_cons, Z.add_assoc, Z.even_add in He. by destruct (Z.even (len t)).
Qed.

Lemma hex_pairs_bytes t : forallb is_ascii_hexdigit t = true -> Forall is_byte (hex_pairs t).
Proof.
  remember (length t) as n eqn:Hn; revert t Hn.
  induction n as [n IH] using lt_wf_ind; intros [|a [|b t]] Hn Ht; try constructor.
  - cbn [forallb] in Ht; bool_prop.
    destruct (value_hex_digit a H) as [Ha _], (value_hex_digit b H0) as [Hb _]. unfold is_byte; lia.
  - cbn [forallb] in Ht; bool_prop. apply (IH (length t)); [cbn in Hn; lia|done|done].
Qed.

(** *** base32 *)

Definition alphabet_char (d : Z) : Z := nth (Z.to_nat d) ALPHABET 0.

(** What [base32] holds between two bytes: the digits written so far and the
    bits not written yet are the bytes read, as one number. *)
Definition holds (st : Z * Z * bytes) (read : bytes) (digits : list Z) : Prop :=
  let '(buffer, bits, encoded) := st in
  0 <= bits < 5 /\ 0 <= buffer < 2 ^ 32
  /\ encoded = map alphabet_char digits
  /\ Forall (fun d => 0 <= d < 32) digits
  /\ 5 * len digits + bits = 8 * len read
  /\ digits_value 32 0 digits * 2 ^ bits + buffer mod 2 ^ bits = digits_value 256 0 read.

Lemma land_31 x : Z.land x 31 = x mod 32.
Proof. apply (Z.land_ones x 5); lia. Qed.

Lemma drain_spec fuel : forall buffer bits digits total,
  0 <= bits < 5 * Z.of_nat fuel + 5 -> 0 <= buffer ->
  Forall (fun d => 0 <= d < 32) digits ->
  digits_value 32 0 digits * 2 ^ bits + buffer mod 2 ^ bits = total ->
  exists digits' bits', drain fuel buffer bits (map alphabet_char digits)
      = (bits', map alphabet_char digits')
    /\ 0 <= bits' < 5 /\ Forall (fun d => 0 <= d < 32) digits'
    /\ 5 * len digits' + bits' = 5 * len digits + bits
    /\ digits_value 32 0 digits' * 2 ^ bits' + buffer mod 2 ^ bits' = total.
Proof.
  induction fuel as [|fuel IH]; intros buffer bits digits total Hb Hbuf Hd Ht; cbn [drain].
  { exists digits, bits; split_and!; try done; lia. }
  destruct (Z.leb_spec 5 bits) as [H5|H5]; [|exists digits, bits; split_and!; try done; lia].
  rewrite land_31, Z.shiftr_div_pow2 by lia.
  fold (alphabet_char (buffer / 2 ^ (bits - 5) mod 32)).
  change ([alphabet_char ?d]) with (map alphabet_char [d]). rewrite <- map_app.
  destruct (IH buffer (bits - 5) (digits ++ [buffer / 2 ^ (bits - 5) mod 32]) total)
    as (digits' & bits' & E & H1 & H2 & H3 & H4); [lia|done| | |].
  - apply Forall_app; split; [done|]. repeat constructor; apply Z.mod_pos_bound; lia.
  - rewrite digits_value_snoc, <- Ht.
    replace (2 ^ bits) with (2 ^ (bits - 5) * 32)
      by (change 32 with (2 ^ 5); rewrite <- Z.pow_add_r by lia; f_equal; lia).
    rewrite Z.rem_mul_r by (try lia; apply Z.pow_nonzero; lia). lia.
  - exists digits', bits'; split_and!; try done; [lia..|].
    rewrite len_app in H3; unfold len in *; cbn in *; lia.
Qed.

Lemma land_shifted x b : 0 <= b < 256 -> Z.land (Z.shiftl x 8) b = 0.
Proof.
  intros Hb; apply Z.bits_inj'; intros n Hn; rewrite Z.land_spec, Z.bits_0.
  destruct (Z.ltb_spec n 8); [by rewrite Z.shiftl_spec_low|].
  rewrite <- (Z.mod_small b (2 ^ 8)) by (cbn; lia).
  rewrite Z.mod_pow2_bits_high by lia. apply andb_false_r.
Qed.

Lemma lor_byte x b : 0 <= b < 256 -> Z.lor (Z.shiftl x 8 mod 2 ^ 32) b = (x * 256 + b) mod 2 ^ 32.
Proof.
  intros Hb. replace (x * 256 + b) with (Z.lor (Z.shiftl x 8) b).
  - rewrite <- !(Z.land_ones _ 32), Z.land_lor_distr_l by lia. f_equal.
    rewrite Z.land_ones, Z.mod_small by lia. done.
  - rewrite <- Z.add_nocarry_lor by (by apply land_shifted). by rewrite Z.shiftl_mul_pow2.
Qed.

Lemma base32_step_holds st read digits byte :
  is_byte byte -> holds st read digits ->
  exists digits', holds (base32_step st byte) (read ++ [byte]) digits'.
Proof.
  destruct st as [[buffer bits] encoded]; intros Hb (Hbits & Hbuf & -> & Hd & Hlen & Hval).
  cbn [base32_step]; rewrite lor_byte by done.
  destruct (drain_spec 4 ((buffer * 256 + byte) mod 2 ^ 32) (bits + 8) digits
    (digits_value 256 0 (read ++ [byte]))) as (digits' & bits' & -> & H1 & H2 & H3 & H4);
    [lia|apply Z.mod_pos_bound; lia|done| |].
  - rewrite digits_value_snoc, <- Hval, Z.pow_add_r by lia.
    assert (((buffer * 256 + byte) mod 2 ^ 32) mod (2 ^ bits * 2 ^ 8)
            = buffer mod 2 ^ bits * 256 + byte) as ->; [|lia].
    rewrite <- Z.pow_add_r by lia.
    rewrite <- Znumtheory.Zmod_div_mod; try (apply Z.pow_pos_nonneg; lia).
    2: { exists (2 ^ (32 - (bits + 8))). rewrite <- Z.pow_add_r by lia. f_equal; lia. }
    rewrite Z.pow_add_r by lia. change (2 ^ 8) with 256. rewrite (Z.mul_comm (2 ^ bits) 256).
    rewrite Z.rem_mul_r by (try lia; apply Z.pow_nonzero; lia).
    unfold is_byte in Hb.
    rewrite (Z.div_add_l buffer 256 byte), (Z.div_small byte) by lia.
    replace ((buffer * 256 + byte) mod 256) with byte; [rewrite Z.add_0_r; lia|].
    rewrite Z.add_comm, Z_mod_plus_full, Z.mod_small; lia.
  - pose proof (Z.mod_pos_bound (buffer * 256 + byte) (2 ^ 32) ltac:(lia)).
    exists digits'; unfold holds; split_and!; try done; try lia.
    rewrite len_app; unfold len in *; cbn [length] in *; lia.
Qed.

Lemma base32_fold b : forall st read digits,
  Forall is_byte b -> holds st read digits ->
  exists digits', holds (fold_left base32_step b st) (read ++ b) digits'.
Proof.
  induction b as [|x b IH]; intros st read digits Hb Hst; cbn [fold_left]; [rewrite app_nil_r; eauto|].
  apply Forall_cons in Hb as [Hx Hb].
  destruct (base32_step_holds _ _ _ _ Hx Hst) as (digits' & Hst').
  destruct (IH _ _ _ Hb Hst') as (digits2 & H2). exists digits2. by rewrite <- app_assoc in H2.
Qed.

(** The number of unused bits in the last digit. *)
Definition padding (n : Z) : Z := (- (8 * n)) mod 5.

Lemma base32_digits b :
  Forall is_byte b ->
  exists digits, base32 b = map alphabet_char digits
    /\ Forall (fun d => 0 <= d < 32) digits
    /\ 5 * len digits = 8 * len b + padding (len b)
    /\ digits_value 32 0 digits = digits_value 256 0 b * 2 ^ padding (len b).
Proof.
  intros Hb; destruct (base32_fold b (0, 0, []) [] [] Hb) as (digits & H).
  { split_and!; try done. }
  unfold base32; destruct (fold_left base32_step b (0, 0, [])) as [[buffer bits] encoded].
  destruct H as (Hbits & Hbuf & -> & Hd & Hlen & Hval); cbn [app] in *.
  destruct (Z.ltb_spec 0 bits) as [Hpos|Hz].
  - rewrite land_31. fold (alphabet_char ((Z.shiftl buffer (5 - bits) mod 2 ^ 32) mod 32)).
    change ([alphabet_char ?d]) with (map alphabet_char [d]). rewrite <- map_app.
    assert (padding (len b) = 5 - bits) as ->.
    { unfold padding; symmetry; apply (Z.mod_unique_pos _ _ (- (len digits + 1))); lia. }
    eexists; split; [done|]. split; [|split].
    + apply Forall_app; split; [done|]. repeat constructor; apply Z.mod_pos_bound; lia.
    + rewrite len_app, len_cons, len_nil; lia.
    + rewrite digits_value_snoc, <- Hval.
      rewrite <- Znumtheory.Zmod_div_mod by (try lia; exists (2 ^ 27); done).
      rewrite Z.shiftl_mul_pow2 by lia.
      change 32 with (2 ^ 5) at 3. change 32 with (2 ^ 5) at 2.
      replace (2 ^ 5) with (2 ^ bits * 2 ^ (5 - bits)) by (rewrite <- Z.pow_add_r by lia; f_equal; lia).
      rewrite Z.mul_mod_distr_r by (apply Z.pow_nonzero; lia). lia.
  - assert (bits = 0) as -> by lia. exists digits.
    assert (padding (len b) = 0) as ->.
    { unfold padding; symmetry; apply (Z.mod_unique_pos _ _ (- len digits)); lia. }
    split_and!; try done; [lia|]. rewrite <- Hval, Z.mod_1_r. lia.
Qed.

Lemma digits_value_inj base a b :
  0 < base -> length a = length b ->
  Forall (fun d => 0 <= d < base) a -> Forall (fun d => 0 <= d < base) b ->
  digits_value base 0 a = digits_value base 0 b -> a = b.
Proof.
  intros Hb Hl Ha Hb' E; apply str_compare_eq.
  rewrite <- (digits_value_compare base) by done. by apply Z.compare_eq_iff.
Qed.

Lemma alphabet_char_inj d e :
  0 <= d < 32 -> 0 <= e < 32 -> alphabet_char d = alphabet_char e -> d = e.
Proof.
  intros Hd He E. assert (Z.to_nat d = Z.to_nat e); [|lia].
  apply (proj1 (List.NoDup_nth ALPHABET 0)); [|change (length ALPHABET) with 32%nat; lia..|exact E].
  apply NoDup_ListNoDup, (bool_decide_unpack _); vm_compute; exact I.
Qed.

Lemma map_alphabet_inj a b :
  Forall (fun d => 0 <= d < 32) a -> Forall (fun d => 0 <= d < 32) b ->
  map alphabet_char a = map alphabet_char b -> a = b.
Proof.
  intros Ha; revert b; induction Ha as [|x a Hx Ha IH]; intros [|y b] Hb E; try done.
  apply Forall_cons in Hb as [Hy Hb]; injection E as E1 E2.
  f_equal; [by apply alphabet_char_inj|by apply IH].
Qed.

Section KeyFacts.
Context (p256 k256 : Curve) `{!CurveOk p256, !CurveOk k256} `{Base58Ok}.

Lemma verify_with_ok C `{!CurveOk C} key m s :
  verify_with C key m s = Ok tt ->
  exists sig, s = signature_to_bytes C sig /\ normalize_s C sig = sig /\ curve_verify C key m sig = true.
Proof.
  unfold verify_with; destruct (signature_from_slice C s) as [sig|] eqn:E; [|done]; cbn.
  destruct (signature_eqb C (normalize_s C sig) sig) eqn:En; [|done]; cbn.
  destruct (curve_verify C key m sig) eqn:Ev; [|done]. intros _; exists sig; split_and!; [|by apply signature_eqb_spec|done].
  symmetry; by apply signature_slice_bytes.
Qed.

Lemma verify_with_signed C `{!CurveOk C} k m :
  verify_with C (verifying_key C k) m (signature_to_bytes C (normalize_s C (curve_sign C k m))) = Ok tt.
Proof.
  unfold verify_with; rewrite signature_roundtrip; cbn.
  rewrite (proj2 (signature_eqb_spec _ _)) by apply normalize_idempotent; cbn.
  by rewrite signed_verifies.
Qed.

Lemma sign_verifies k m : verify p256 k256 (public_key p256 k256 k) m (sign p256 k256 k m) = Ok tt.
Proof. destruct k; apply (verify_with_signed _). Qed.

Lemma sign_length k m : len (sign p256 k256 k m) = 64.
Proof. destruct k; apply signature_length. Qed.

Lemma multicodec_roundtrip k : from_multicodec p256 k256 (to_multicodec p256 k256 k) = Ok k.
Proof.
  destruct k as [p|p]; unfold to_multicodec, from_multicodec, POINT_LEN;
    cbn [app P256_PREFIX SECP256K1_PREFIX take drop]; rewrite drop_0, take_0, !len_cons, point_length;
    cbn -[decide]; rewrite ?decide_True, ?decide_False by done; cbn; by rewrite point_roundtrip.
Qed.

Lemma from_multicodec_inv b k :
  from_multicodec p256 k256 b = Ok k -> to_multicodec p256 k256 k = b.
Proof.
  unfold from_multicodec; destruct (len b <? 2); [done|].
  destruct (Z.eqb_spec (len (drop 2 b)) POINT_LEN) as [Hl|]; [|done]; cbn -[decide take drop].
  case_decide as Hp.
  - destruct (from_sec1_bytes p256 (drop 2 b)) eqn:E; [|done]. intros [= <-]; unfold to_multicodec.
    rewrite (point_compressed _ _ Hl E). by rewrite <- Hp, take_drop.
  - case_decide as Hk; [|done].
    destruct (from_sec1_bytes k256 (drop 2 b)) eqn:E; [|done]. intros [= <-]; unfold to_multicodec.
    rewrite (point_compressed _ _ Hl E). by rewrite <- Hk, take_drop.
Qed.

End KeyFacts.

(* ================================================================== *)
(** * The properties *)

(** [unhex] reads back exactly what [hex] writes: every byte
    string comes back as it was, and a text [unhex] accepts is, lowercased, the
    hex of what it gave. Anything of odd length, or with a character that is no
    hex digit, is refused. *)
Theorem hex_roundtrip b t :
  Forall is_byte b ->
  unhex (hex b) = Some b
  /\ (forall b', unhex t = Some b' -> hex b' = map to_ascii_lowercase t /\ Forall is_byte b')
  /\ (unhex t = None <-> Z.even (len t) = false \/ forallb is_ascii_hexdigit t = false).
Proof.
  intros Hb; unfold unhex; destruct (hex_is_hex b Hb) as [-> ->]; cbn [negb orb].
  split; [by rewrite hex_pairs_hex|]. split.
  - intros b'; destruct (Z.even (len t)) eqn:He, (forallb is_ascii_hexdigit t) eqn:Hh; try done.
    intros [= <-]; split; [by apply hex_of_pairs|by apply hex_pairs_bytes].
  - destruct (Z.even (len t)), (forallb is_ascii_hexdigit t); cbn; naive_solver.
Qed.

Lemma hex_roundtrip_witness :
  unhex (hex [0; 15; 160; 255]) = Some [0; 15; 160; 255]
  /\ (forall b', unhex (lit "0aBc") = Some b' -> hex b' = map to_ascii_lowercase (lit "0aBc") /\ Forall is_byte b')
  /\ (unhex (lit "0aBc") = None
      <-> Z.even (len (lit "0aBc")) = false \/ forallb is_ascii_hexdigit (lit "0aBc") = false).
Proof. apply hex_roundtrip; repeat constructor; discriminate. Defined.

(** The comparison that gives nothing away by when it stops
    is equality all the same, on any two byte strings, of whatever lengths. *)
Theorem same_is_equality left right : same left right = true <-> left = right.
Proof.
  unfold same; rewrite andb_true_iff, !Z.eqb_eq, fold_or_zero; split.
  - intros (Hl & _ & Hf); apply combine_diagonal; [unfold len in Hl; lia|done].
  - intros <-; split; [done|]. split; [done|]. induction left; constructor; auto.
Qed.

(** [base32] writes the bytes as one big-endian number, padded
    on the right to a whole number of five-bit digits, each digit a character
    of the alphabet: [5 * digits = 8 * bytes + padding] with fewer than five
    bits of padding. So two identifiers drawn from equally many bytes are the
    same text only if they are the same bytes, although the code's [u32] buffer
    overflows on the way. *)
Theorem base32_spec b b' :
  Forall is_byte b -> Forall is_byte b' ->
  (exists digits, base32 b = map alphabet_char digits
    /\ Forall (fun d => 0 <= d < 32) digits
    /\ 5 * len digits = 8 * len b + padding (len b)
    /\ digits_value 32 0 digits = digits_value 256 0 b * 2 ^ padding (len b))
  /\ (length b = length b' -> base32 b = base32 b' -> b = b').
Proof.
  intros Hb Hb'; split; [by apply base32_digits|]. intros Hl E.
  destruct (base32_digits b Hb) as (d & Ed & Hd & Hld & Hv).
  destruct (base32_digits b' Hb') as (d' & Ed' & Hd' & Hld' & Hv').
  rewrite Ed, Ed' in E; apply map_alphabet_inj in E as <-; [|done..].
  assert (len b = len b') as El by (unfold len; lia).
  rewrite <- El, Hv in Hv'. apply Z.mul_cancel_r in Hv'; [|apply Z.pow_nonzero; [lia|]].
  - apply (digits_value_inj 256); done.
  - unfold padding; apply Z.mod_pos_bound; lia.
Qed.

Lemma base32_spec_witness :
  (exists digits, base32 [255; 1; 2] = map alphabet_char digits
    /\ Forall (fun d => 0 <= d < 32) digits
    /\ 5 * len digits = 8 * len [255; 1; 2] + padding (len [255; 1; 2])
    /\ digits_value 32 0 digits = digits_value 256 0 [255; 1; 2] * 2 ^ padding (len [255; 1; 2]))
  /\ (length [255; 1; 2] = length [255; 1; 3] -> base32 [255; 1; 2] = base32 [255; 1; 3]
      -> [255; 1; 2] = [255; 1; 3]).
Proof. apply base32_spec; repeat constructor; discriminate. Defined.

(** A signature in the one form that counts. *)
Definition low_form (C : Curve) (s : bytes) : Prop :=
  exists sig, s = signature_to_bytes C sig /\ normalize_s C sig = sig.

Section Keys2.
Context (p256 k256 : Curve) `{!CurveOk p256, !CurveOk k256} `{Base58Ok}.

(** A public key is the [did:key] it prints: parsing what
    [Display] wrote gives the key back, on either curve; the multicodec bytes a
    key was read from are the ones it writes; and a text without the
    [did:key:z] prefix is [NotDidKey]. *)
Theorem did_key_roundtrip k b input :
  parse p256 k256 (display p256 k256 k) = Ok k
  /\ (from_multicodec p256 k256 b = Ok k -> to_multicodec p256 k256 k = b)
  /\ (starts_with DID_KEY input = false -> parse p256 k256 input = Err NotDidKey).
Proof.
  split; [|split].
  - unfold parse, display; rewrite strip_prefix_app; cbn [ok_or mbind result_bind].
    rewrite b58_roundtrip; cbn [ok_or mbind result_bind]. apply (multicodec_roundtrip _ _).
  - apply (from_multicodec_inv _ _).
  - unfold starts_with, parse. by destruct (strip_prefix DID_KEY input).
Qed.

(** What a key signs its public half verifies, in 64 bytes; and
    of all the byte strings, the only ones a public key ever accepts are 64
    bytes long and in the low half of the curve, so a signature cannot be
    turned into another that also verifies by flipping its half. *)
Theorem signatures_verify_and_do_not_bend k pk m s :
  verify p256 k256 (public_key p256 k256 k) m (sign p256 k256 k m) = Ok tt
  /\ len (sign p256 k256 k m) = 64
  /\ (verify p256 k256 pk m s = Ok tt ->
      len s = 64 /\ match pk with PublicP256 _ => low_form p256 s | PublicSecp256k1 _ => low_form k256 s end).
Proof.
  split; [apply (sign_verifies _ _)|split; [apply (sign_length _ _)|]].
  destruct pk as [p|p]; cbn [verify]; intros Hv;
    (apply (verify_with_ok _) in Hv as (sig & -> & Hn & _); split; [apply signature_length|by exists sig]).
Qed.

End Keys2.

(* ------------------------------------------------------------------ *)
(** ** A curve of two keys, for the properties that need one *)

Module Toy.

Definition mark (b : bool) : Z := if b then 1 else 0.

(** A signature is the key it was made by and the half it is in. *)
Definition curve : Curve := {|
  SigningKey := bool;
  VerifyingKey := bool;
  Signature := bool * bool;
  signing_from_slice b := match b with [0] => Some false | [1] => Some true | _ => None end;
  signing_to_bytes k := [mark k];
  verifying_key k := k;
  curve_sign k _ := (k, true);
  curve_verify k _ s := Bool.eqb k (fst s);
  normalize_s s := (fst s, false);
  signature_eqb s t := bool_decide (s = t);
  signature_from_slice b :=
    if decide (b = repeat 0 64) then Some (false, false) else
    if decide (b = repeat 1 64) then Some (true, false) else
    if decide (b = repeat 2 64) then Some (false, true) else
    if decide (b = repeat 3 64) then Some (true, true) else None;
  signature_to_bytes s := repeat (mark (fst s) + 2 * mark (snd s)) 64;
  to_sec1_point k := repeat (2 + mark k) 33;
  from_sec1_bytes b :=
    if decide (b = repeat 2 33) then Some false else
    if decide (b = repeat 3 33) then Some true else None
|}.

#[export] Instance curve_ok : CurveOk curve.
Proof.
  split; cbn -[decide repeat].
  - by intros [].
  - intros; apply bool_decide_eq_true.
  - done.
  - intros [[] []]; reflexivity.
  - intros [[] []]; reflexivity.
  - intros b s; repeat (case_decide; [subst; reflexivity|]); done.
  - intros b s; repeat (case_decide; [subst; intros [= <-]; reflexivity|]); done.
  - by intros [].
  - by intros [].
  - by intros [].
  - intros b p _; repeat (case_decide; [subst; intros [= <-]; reflexivity|]); done.
Qed.

#[export] Instance base58 : Base58 := {| b58_encode b := b; b58_decode b := Some b |}.
#[export] Instance base58_ok : Base58Ok.
Proof. by split. Qed.

Definition keypair : Keypair curve curve := KeypairP256 (p256 := curve) (k256 := curve) true.
Definition public : PublicKey curve curve := PublicSecp256k1 (p256 := curve) (k256 := curve) true.
Definition other : PublicKey curve curve := PublicP256 (p256 := curve) (k256 := curve) true.

End Toy.

#[local] Existing Instances Toy.curve_ok Toy.base58 Toy.base58_ok.

Lemma did_key_roundtrip_witness :
  parse Toy.curve Toy.curve (display Toy.curve Toy.curve Toy.public)
    = Ok Toy.public
  /\ (from_multicodec Toy.curve Toy.curve (SECP256K1_PREFIX ++ repeat 3 33) = Ok Toy.public ->
      to_multicodec Toy.curve Toy.curve Toy.public = SECP256K1_PREFIX ++ repeat 3 33)
  /\ (starts_with DID_KEY (lit "did:plc:x") = false ->
      parse Toy.curve Toy.curve (lit "did:plc:x") = Err NotDidKey).
Proof. apply (did_key_roundtrip Toy.curve Toy.curve). Defined.

Lemma signatures_verify_and_do_not_bend_witness :
  verify Toy.curve Toy.curve (public_key Toy.curve Toy.curve Toy.keypair) (lit "m")
    (sign Toy.curve Toy.curve Toy.keypair (lit "m")) = Ok tt
  /\ len (sign Toy.curve Toy.curve Toy.keypair (lit "m")) = 64
  /\ (verify Toy.curve Toy.curve Toy.other (lit "m") (repeat 1 64) = Ok tt ->
      len (repeat 1 64) = 64 /\ low_form Toy.curve (repeat 1 64)).
Proof.
  apply (signatures_verify_and_do_not_bend Toy.curve Toy.curve Toy.keypair Toy.other).
Defined.
