(* ===== verification/Block.v ===== *)
(** * Block: content-addressed blocks and where they are read from

    [src/src/repo/block.rs] and the error type of [src/src/repo.rs].  A CID is
    the record the [cid] crate keeps: its version, codec, multihash code and
    digest.  Three things the sources call and do not contain are interfaces:

    - [Sha256], the hash of the [sha2] crate;
    - [Codec T], dag-cbor for a type, from [serde_ipld_dagcbor], with
      [CodecOk T] for what is relied on: a value of a type that always encodes
      reads back as itself;
    - [Store], the trait of that name, which [BlockMap] and an account's
      database both implement; [StoreOk] says its two methods agree. *)

From S2P Require Import Prelude Syntax Crypto.

Local Open Scope Z_scope.

(* ------------------------------------------------------------------ *)
(** ** CIDs *)

(** [cid::Cid]: a version, a codec, and a multihash. *)
Record Cid := MkCid {
  cid_version : Z;
  cid_codec : Z;
  hash_code : Z;
  hash_digest : bytes
}.

#[export] Instance Cid_eq_dec : EqDecision Cid.
Proof. solve_decision. Defined.

#[export] Instance Cid_countable : Countable Cid.
Proof.
  apply (inj_countable'
    (fun c => (cid_version c, cid_codec c, hash_code c, hash_digest c))
    (fun '(v, co, h, d) => MkCid v co h d)).
  by intros [].
Defined.

(** The order [Cid] derives, field by field, which is the order a [BTreeMap]
    over CIDs is walked in. A multihash compares its size before its digest. *)
Definition cid_compare (a b : Cid) : comparison :=
  match cid_version a ?= cid_version b with
  | Eq => match cid_codec a ?= cid_codec b with
    | Eq => match hash_code a ?= hash_code b with
      | Eq => match len (hash_digest a) ?= len (hash_digest b) with
        | Eq => str_compare (hash_digest a) (hash_digest b)
        | c => c end
      | c => c end
    | c => c end
  | c => c end.

Definition cid_le (a b : Cid) : Prop := cid_compare a b <> Gt.

#[export] Instance cid_le_dec : RelDecision cid_le.
Proof. intros a b; unfold cid_le; apply _. Defined.

(* ------------------------------------------------------------------ *)
(** ** Errors *)

(** [repo::Error]. *)
Inductive RepoError :=
| MissingBlock (cid : Cid)
| EncodeError (why : string)
| DecodeError (why : string)
| InvalidKey (key : bytes)
| KeyExists (key : bytes)
| KeyMissing (key : bytes)
| MalformedNode (why : string)
| WrongVersion (version : Z)
| SignatureError (why : CryptoError)
| MalformedCar (why : string)
| WrongCid (cid : Cid)
| StoreError (why : string)
| StoreBusy
| NotRecordData (why : string)
| NoRevisionAfter (rev : Tid.t).

#[export] Instance RepoError_eq_dec : EqDecision RepoError.
Proof. solve_decision. Defined.

(** [Error::sent] and [Error::busy]. *)
Definition sent (e : RepoError) : bool :=
  match e with NotRecordData _ => true | _ => false end.
Definition busy (e : RepoError) : bool :=
  match e with StoreBusy => true | _ => false end.

(* ------------------------------------------------------------------ *)
(** ** Hashing and encoding *)

(** [sha2::Sha256::digest]. *)
Class Sha256 := sha256 : bytes -> bytes.

(** A digest is 32 bytes. *)
Class Sha256Ok `{Sha256} : Prop := {
  sha256_length : forall b, length (sha256 b) = 32%nat;
  sha256_bytes : forall b, Forall (fun x => 0 <= x < 256) (sha256 b)
}.

(** [serde_ipld_dagcbor::to_vec] and [from_slice] at one type. *)
Class Codec (T : Type) := {
  to_vec : T -> result string bytes;
  from_slice : bytes -> result string T
}.

(** The types whose values all have a dag-cbor form read back as written. *)
Class CodecOk (T : Type) `{Codec T} := {
  dag_cbor : T -> bytes;
  to_vec_ok : forall x, to_vec x = Ok (dag_cbor x);
  from_slice_ok : forall x, from_slice (dag_cbor x) = Ok x
}.

Definition DAG_CBOR : Z := 113.
Definition SHA2_256 : Z := 18.

(** [cid_for]: v1, dag-cbor, sha-256. *)
Definition cid_for `{Sha256} (b : bytes) : Cid := MkCid 1 DAG_CBOR SHA2_256 (sha256 b).

(** [encode] and [decode]. *)
Definition encode {T} `{Codec T} (value : T) : result RepoError bytes :=
  map_err EncodeError (to_vec value).
Definition decode {T} `{Codec T} (b : bytes) : result RepoError T :=
  map_err DecodeError (from_slice b).

(* ------------------------------------------------------------------ *)
(** ** Stores *)

(** The trait [Store]. *)
Record Store := MkStore {
  store_get : Cid -> result RepoError bytes;
  store_contains : Cid -> result RepoError bool
}.

(** A store that answers, and whose two methods agree. *)
Class StoreOk (st : Store) : Prop := {
  store_contains_ok : forall c, exists b, store_contains st c = Ok b;
  store_contains_get : forall c,
    store_contains st c = Ok true <-> exists b, store_get st c = Ok b
}.

(** [read]: one block, decoded. *)
Definition read {T} `{Codec T} (st : Store) (cid : Cid) : result RepoError T :=
  b ← store_get st cid; decode b.

(** ** Blocks held in memory *)

Module BlockMap.

(** [BlockMap], a [BTreeMap] from CIDs to bytes. *)
Abbreviation t := (gmap Cid bytes).

Definition new : t := ∅.
Definition insert (m : t) (cid : Cid) (b : bytes) : t := <[cid := b]> m.

(** [BlockMap::add]: encodes, stores, and says where it went. *)
Definition add {T} `{Sha256} `{Codec T} (m : t) (value : T) : result RepoError (t * Cid) :=
  b ← encode value;
  let cid := cid_for b in
  Ok (insert m cid b, cid).

(** [BlockMap::merge]: [BTreeMap::extend], where the newcomer wins. *)
Definition merge (m other : t) : t := other ∪ m.

Definition is_empty (m : t) : bool := bool_decide (m = ∅).

(** [BlockMap::iter]: every block, in CID order. *)
Definition iter (m : t) : list (Cid * bytes) :=
  merge_sort (fun a b => cid_le (fst a) (fst b)) (map_to_list m).

(** [Store for BlockMap]. *)
Definition get (m : t) (cid : Cid) : result RepoError bytes := ok_or (m !! cid) (MissingBlock cid).
Definition contains (m : t) (cid : Cid) : result RepoError bool :=
  Ok (bool_decide (is_Some (m !! cid))).
Definition store (m : t) : Store := MkStore (get m) (contains m).

End BlockMap.

(* ================================================================== *)
(** * Facts *)

#[export] Instance blockmap_store_ok m : StoreOk (BlockMap.store m).
Proof.
  split; cbn; unfold BlockMap.contains, BlockMap.get; [eauto|]. intros c.
  destruct (m !! c); cbn; split; try done; [eauto|].
  by intros [? ?].
Qed.

Lemma encode_ok {T} `{CodecOk T} x : encode x = Ok (dag_cbor x).
Proof. unfold encode; by rewrite to_vec_ok. Qed.

Lemma decode_ok {T} `{CodecOk T} x : decode (dag_cbor x) = Ok x.
Proof. unfold decode; by rewrite from_slice_ok. Qed.

Lemma blockmap_get_insert m c b : BlockMap.get (BlockMap.insert m c b) c = Ok b.
Proof. unfold BlockMap.get, BlockMap.insert; by rewrite lookup_insert_eq. Qed.

Lemma blockmap_get_Ok m c b : BlockMap.get m c = Ok b <-> m !! c = Some b.
Proof. unfold BlockMap.get; destruct (m !! c); cbn; naive_solver. Qed.

Lemma iter_perm (blocks : BlockMap.t) : BlockMap.iter blocks ≡ₚ map_to_list blocks.
Proof. apply merge_sort_Permutation. Qed.

Lemma iter_elem (blocks : BlockMap.t) c b : (c, b) ∈ BlockMap.iter blocks <-> blocks !! c = Some b.
Proof. rewrite iter_perm. apply elem_of_map_to_list. Qed.
