(* ===== verification/Mst.v ===== *)
(** * Mst: the Merkle search tree that holds an account's records

    [src/src/repo/mst.rs], function by function.  A tree is read lazily: a node
    is its entries once read, a CID before that, and its layer once something
    gave it away.  Every function here takes the node it is called on and gives
    back the node as the call leaves it, since reading fills it in.

    One traversal's [Reader] is two things.  Its [depth] is the argument [room]
    of each function: how many more levels [descend] will allow, so [room] is
    [MAX_DEPTH] less the depth and a [descend] past the limit is the case
    [room = 0].  The recursion is on it, which is why every function is total.
    Its [seen] is the state of the monad [M], threaded through the traversal
    and kept when a read fails.

    The theorems are in [MstFacts]. *)

From S2P Require Import Prelude Syntax Block.

(* ------------------------------------------------------------------ *)
(** ** Data *)

Definition MAX_DEPTH : nat := 256.
Definition MAX_KEY_LEN : Z := 1024.

(** [TreeEntry]: a leaf and the subtree to its right, as stored. *)
Record TreeEntry := MkTreeEntry {
  te_p : nat;
  te_k : bytes;
  te_v : Cid;
  te_t : option Cid
}.

(** [NodeData]: a node as it is stored. *)
Record NodeData := MkNodeData {
  nd_l : option Cid;
  nd_e : list TreeEntry
}.

(** [Leaf]: a record, under the key it is found by. *)
Record Leaf := MkLeaf { key : bytes; value : Cid }.

#[export] Instance Leaf_eq_dec : EqDecision Leaf.
Proof. solve_decision. Defined.

(** The fields of [Mst], over what its entries are. *)
Record Node (E : Type) := MkMst {
  entries : option (list E);
  layer : option nat;
  pointer : option Cid
}.
Arguments MkMst {E} _ _ _.
Arguments entries {E} _.
Arguments layer {E} _.
Arguments pointer {E} _.

(** [Entry] and [Mst]. *)
Inductive Entry :=
| ELeaf (leaf : Leaf)
| ETree (subtree : Node Entry).
Definition Mst : Type := Node Entry.

Definition is_tree (e : Entry) : bool := match e with ETree _ => true | ELeaf _ => false end.

(** [Mst::empty], [Mst::load] and [Mst::from_entries]. *)
Definition empty : Mst := MkMst (Some []) None None.
Definition load (root : Cid) : Mst := MkMst None None (Some root).
Definition from_entries (es : list Entry) (lay : option nat) : Mst := MkMst (Some es) lay None.

(* ------------------------------------------------------------------ *)
(** ** Keys *)

(** [u8::leading_zeros]. *)
Definition leading_zeros_u8 (byte : Z) : Z := if (byte =? 0)%Z then 8 else 7 - Z.log2 byte.

(** [leading_zeros]: the leading zero bits of a key's hash, in pairs. *)
Fixpoint zero_pairs (digest : bytes) : nat :=
  match digest with
  | [] => 0
  | byte :: digest =>
      Z.to_nat (leading_zeros_u8 byte) / 2
      + (if (byte =? 0)%Z then zero_pairs digest else 0)
  end.
Definition leading_zeros `{Sha256} (k : bytes) : nat := zero_pairs (sha256 k).

(** [shared_prefix]. *)
Fixpoint shared_prefix (a b : bytes) : nat :=
  match a, b with
  | x :: a, y :: b => if (x =? y)%Z then S (shared_prefix a b) else 0
  | _, _ => 0
  end.

Definition is_key_byte (byte : Z) : bool :=
  is_ascii_alphanumeric byte || one_of "_~-:." byte.

(** [ensure_valid_key]: one collection, one record key, one slash. *)
Definition valid_key (k : bytes) : bool :=
  match split_on 47 k with
  | [collection; rkey] =>
      (len k <=? MAX_KEY_LEN)%Z
      && negb (len collection =? 0)%Z
      && negb (len rkey =? 0)%Z
      && forallb (fun byte => (byte =? 47)%Z || is_key_byte byte) k
  | _ => false
  end.
Definition ensure_valid_key (k : bytes) : result RepoError unit :=
  if valid_key k then Ok tt else Err (InvalidKey k).

(* ------------------------------------------------------------------ *)
(** ** One traversal *)

(** A traversal's computations: the nodes seen so far go in, and come out
    whether or not it succeeds. *)
Definition M (A : Type) : Type := gset Cid -> gset Cid * result RepoError A.

#[export] Instance M_ret : MRet M := fun A a seen => (seen, Ok a).
#[export] Instance M_bind : MBind M :=
  fun A B f m seen =>
    match m seen with
    | (seen, Ok a) => f a seen
    | (seen, Err e) => (seen, Err e)
    end.

Definition throw {A} (e : RepoError) : M A := fun seen => (seen, Err e).
Definition lift {A} (r : result RepoError A) : M A := fun seen => (seen, r).

(** What [Reader::descend] answers past [MAX_DEPTH]. *)
Definition too_deep {A} : M A := throw (MalformedNode "a tree deeper than its keys allow").

Section Tree.
Context `{Sha256} `{Codec NodeData} (st : Store).

(** [Reader::node]: reads a node, refusing one this traversal has seen. *)
Definition node (cid : Cid) : M NodeData := fun seen =>
  if decide (cid ∈ seen) then (seen, Err (MalformedNode "a node under itself"))
  else ({[cid]} ∪ seen, read st cid).

(** [deserialize]: the entries of a stored node. [last] is the key before. *)
Fixpoint deserialize_entries (under : option nat) (last : bytes) (es : list TreeEntry)
  : result RepoError (list Entry) :=
  match es with
  | [] => Ok []
  | e :: es =>
      if negb (from_utf8 (te_k e)) then Err (MalformedNode "a key that is not text") else
      match str_get_to last (te_p e) with
      | None => Err (MalformedNode "a prefix longer than the key before it")
      | Some shared =>
          let k := shared ++ te_k e in
          _ ← ensure_valid_key k;
          rest ← deserialize_entries under k es;
          Ok (ELeaf (MkLeaf k (te_v e))
              :: match te_t e with
                 | Some cid => ETree (MkMst None under (Some cid)) :: rest
                 | None => rest
                 end)
      end
  end.
Definition deserialize (data : NodeData) (lay : option nat) : result RepoError (list Entry) :=
  let under := match lay with Some (S n) => Some n | _ => None end in
  rest ← deserialize_entries under [] (nd_e data);
  Ok (match nd_l data with
      | Some cid => ETree (MkMst None under (Some cid)) :: rest
      | None => rest
      end).

(** [Mst::fill]: reads this node in, if it has not been read yet. *)
Definition fill (m : Mst) : M Mst :=
  match m with
  | MkMst (Some _) _ _ => mret m
  | MkMst None lay ptr =>
      match ptr with
      | None => throw (MalformedNode "a node with neither contents nor CID")
      | Some cid =>
          data ← node cid;
          es ← lift (deserialize data ((fun e => leading_zeros (te_k e)) <$> head (nd_e data)));
          mret (MkMst (Some es) lay ptr)
      end
  end.

(** [Mst::entries] and [Mst::take_entries]: the node filled in, and what it
    holds. What is taken is put back by the caller, under no pointer. *)
Definition get_entries (m : Mst) : M (Mst * list Entry) :=
  m ← fill m; mret (m, default [] (entries m)).

(** [Mst::index_of]: where the first key at or above this one sits. *)
Fixpoint index_of (es : list Entry) (k : bytes) : nat :=
  match es with
  | [] => 0
  | ELeaf leaf :: es' => if str_leb k (key leaf) then 0 else S (index_of es' k)
  | ETree _ :: es' => S (index_of es' k)
  end.

(** The first layer a leaf of this node gives away. *)
Fixpoint leaf_layer (es : list Entry) : option nat :=
  match es with
  | [] => None
  | ELeaf leaf :: _ => Some (leading_zeros (key leaf))
  | ETree _ :: es => leaf_layer es
  end.

(** The loop of [find_layer] over the subtrees, up to the first that knows. *)
Fixpoint layer_under (find : Mst -> M (Mst * option nat)) (es : list Entry)
  : M (list Entry * option nat) :=
  match es with
  | [] => mret ([], None)
  | ELeaf leaf :: es =>
      '(es, found) ← layer_under find es; mret (ELeaf leaf :: es, found)
  | ETree subtree :: es =>
      '(subtree, under) ← find subtree;
      match under with
      | Some under => mret (ETree subtree :: es, Some (S under))
      | None => '(es, found) ← layer_under find es; mret (ETree subtree :: es, found)
      end
  end.

(** [Mst::find_layer]. *)
Fixpoint find_layer (room : nat) (m : Mst) : M (Mst * option nat) :=
  match room with
  | O => too_deep
  | S room =>
      match layer m with
      | Some lay => mret (m, Some lay)
      | None =>
          '(m, es) ← get_entries m;
          match leaf_layer es with
          | Some lay => mret (MkMst (Some es) (Some lay) (pointer m), Some lay)
          | None =>
              '(es, found) ← layer_under (find_layer room) es;
              mret (MkMst (Some es) found (pointer m), found)
          end
      end
  end.

(** [Mst::layer]. *)
Definition get_layer (room : nat) (m : Mst) : M (Mst * nat) :=
  '(m, found) ← find_layer room m;
  let lay := default 0 found in
  mret (MkMst (entries m) (Some lay) (pointer m), lay).

(* ------------------------------------------------------------------ *)
(** ** Reading *)

(** What precedes an index, split off where it is a subtree: the match on
    [index.checked_sub(1)] that most operations make. *)
Definition split_prev (es : list Entry) (index : nat) : option (list Entry * Mst) :=
  match index with
  | O => None
  | S i => match es !! i with
           | Some (ETree subtree) => Some (take i es, subtree)
           | _ => None
           end
  end.

(** [matches!(entries.get(index), Some(Entry::Leaf(leaf)) if leaf.key == key)],
    with the leaf it matched. *)
Definition leaf_at (es : list Entry) (index : nat) (k : bytes) : option Leaf :=
  match es !! index with
  | Some (ELeaf leaf) => if decide (key leaf = k) then Some leaf else None
  | _ => None
  end.

(** [Mst::get_in]. *)
Fixpoint get_in (room : nat) (m : Mst) (k : bytes) : M (Mst * option Cid) :=
  match room with
  | O => too_deep
  | S room =>
      '(m, es) ← get_entries m;
      let index := index_of es k in
      match leaf_at es index k with
      | Some leaf => mret (m, Some (value leaf))
      | None =>
          match split_prev es index with
          | Some (before, subtree) =>
              '(subtree, found) ← get_in room subtree k;
              mret (MkMst (Some (before ++ ETree subtree :: drop index es)) (layer m) (pointer m),
                    found)
          | None => mret (m, None)
          end
      end
  end.

(** [Mst::collect_leaves]. *)
Fixpoint leaves_of (collect : Mst -> M (Mst * list Leaf)) (es : list Entry)
  : M (list Entry * list Leaf) :=
  match es with
  | [] => mret ([], [])
  | ELeaf leaf :: es =>
      '(es, found) ← leaves_of collect es; mret (ELeaf leaf :: es, leaf :: found)
  | ETree subtree :: es =>
      '(subtree, here) ← collect subtree;
      '(es, found) ← leaves_of collect es;
      mret (ETree subtree :: es, here ++ found)
  end.
Fixpoint collect_leaves (room : nat) (m : Mst) : M (Mst * list Leaf) :=
  match room with
  | O => too_deep
  | S room =>
      '(m, es) ← get_entries m;
      '(es, found) ← leaves_of (collect_leaves room) es;
      mret (MkMst (Some es) (layer m) (pointer m), found)
  end.

(** [serialize]: this node as it is stored, every subtree's CID settled first.
    The loop takes a leaf and the subtree to its right, if there is one. *)
Fixpoint serialize_entries (root : Mst -> M (Mst * Cid)) (last : bytes) (es : list Entry)
  : M (list Entry * list TreeEntry) :=
  match es with
  | [] => mret ([], [])
  | ETree _ :: _ => throw (MalformedNode "two subtrees side by side")
  | ELeaf leaf :: rest =>
      let k := key leaf in
      match rest with
      | ETree subtree :: rest =>
          '(subtree, cid) ← root subtree;
          _ ← lift (ensure_valid_key k);
          let p := shared_prefix last k in
          '(rest, data) ← serialize_entries root k rest;
          mret (ELeaf leaf :: ETree subtree :: rest,
                MkTreeEntry p (drop p k) (value leaf) (Some cid) :: data)
      | _ =>
          _ ← lift (ensure_valid_key k);
          let p := shared_prefix last k in
          '(rest, data) ← serialize_entries root k rest;
          mret (ELeaf leaf :: rest, MkTreeEntry p (drop p k) (value leaf) None :: data)
      end
  end.
Definition serialize (root : Mst -> M (Mst * Cid)) (es : list Entry) : M (list Entry * NodeData) :=
  match es with
  | ETree subtree :: es =>
      '(subtree, cid) ← root subtree;
      '(es, data) ← serialize_entries root [] es;
      mret (ETree subtree :: es, MkNodeData (Some cid) data)
  | _ =>
      '(es, data) ← serialize_entries root [] es;
      mret (es, MkNodeData None data)
  end.

(** [Mst::root_in], with [Mst::node_data] inside it. *)
Fixpoint root_in (room : nat) (m : Mst) : M (Mst * Cid) :=
  match room with
  | O => too_deep
  | S room =>
      match pointer m with
      | Some cid => mret (m, cid)
      | None =>
          '(m, es) ← get_entries m;
          '(es, data) ← serialize (root_in room) es;
          b ← lift (encode data);
          let cid := cid_for b in
          mret (MkMst (Some es) (layer m) (Some cid), cid)
      end
  end.

(** [Mst::cids_for_path_in]. *)
Fixpoint cids_for_path_in (room : nat) (m : Mst) (k : bytes) : M (Mst * list Cid) :=
  match room with
  | O => too_deep
  | S room =>
      '(m, root) ← root_in room m;
      '(m, es) ← get_entries m;
      let index := index_of es k in
      match leaf_at es index k with
      | Some leaf => mret (m, [root; value leaf])
      | None =>
          match split_prev es index with
          | Some (before, subtree) =>
              '(subtree, cids) ← cids_for_path_in room subtree k;
              mret (MkMst (Some (before ++ ETree subtree :: drop index es)) (layer m) (pointer m),
                    root :: cids)
          | None => mret (m, [root])
          end
      end
  end.

(** [Mst::unstored_blocks_in]. *)
Fixpoint unstored_of (blocks : Mst -> M (Mst * (Cid * BlockMap.t))) (es : list Entry)
    (found : BlockMap.t) : M (list Entry * BlockMap.t) :=
  match es with
  | [] => mret ([], found)
  | ELeaf leaf :: es =>
      '(es, found) ← unstored_of blocks es found; mret (ELeaf leaf :: es, found)
  | ETree subtree :: es =>
      '(subtree, here) ← blocks subtree;
      '(es, found) ← unstored_of blocks es (BlockMap.merge found (snd here));
      mret (ETree subtree :: es, found)
  end.
Fixpoint unstored_blocks_in (room : nat) (m : Mst) : M (Mst * (Cid * BlockMap.t)) :=
  match room with
  | O => too_deep
  | S room =>
      '(m, root) ← root_in room m;
      stored ← lift (store_contains st root);
      if (stored : bool) then mret (m, (root, BlockMap.new)) else
      '(m, es) ← get_entries m;
      '(es, data) ← serialize (root_in room) es;
      '(blocks, _) ← lift (BlockMap.add BlockMap.new data);
      '(es, blocks) ← unstored_of (unstored_blocks_in room) es blocks;
      mret (MkMst (Some es) (layer m) (pointer m), (root, blocks))
  end.

(* ------------------------------------------------------------------ *)
(** ** Writing *)

(** [Mst::update_in]. *)
Fixpoint update_in (room : nat) (m : Mst) (k : bytes) (v : Cid) : M Mst :=
  match room with
  | O => too_deep
  | S room =>
      _ ← lift (ensure_valid_key k);
      '(m, es) ← get_entries m;
      let index := index_of es k in
      match leaf_at es index k with
      | Some leaf => mret (from_entries (<[index := ELeaf (MkLeaf (key leaf) v)]> es) (layer m))
      | None =>
          match split_prev es index with
          | None => throw (KeyMissing k)
          | Some (before, subtree) =>
              subtree ← update_in room subtree k v;
              mret (from_entries (before ++ ETree subtree :: drop index es) (layer m))
          end
      end
  end.

(** A half as the entry it becomes, if there is anything in it. *)
Definition tree_entry (half : option Mst) : list Entry :=
  match half with Some m => [ETree m] | None => [] end.

(** [Self::from_entries] over a half that is not empty. *)
Definition half (es : list Entry) (lay : option nat) : option Mst :=
  match es with [] => None | _ => Some (from_entries es lay) end.

(** [Mst::split_around]: everything below the key and everything above it. *)
Fixpoint split_around (room : nat) (m : Mst) (k : bytes) : M (option Mst * option Mst) :=
  match room with
  | O => too_deep
  | S room =>
      '(m, es) ← get_entries m;
      let index := index_of es k in
      match split_prev es index with
      | Some (before, subtree) =>
          '(below, above) ← split_around room subtree k;
          mret (half (before ++ tree_entry below) (layer m),
                half (tree_entry above ++ drop index es) (layer m))
      | None => mret (half (take index es) (layer m), half (drop index es) (layer m))
      end
  end.

(** [Mst::into_parent], and the loop that raises a half to just under a key. *)
Definition into_parent (m : Mst) : result RepoError Mst :=
  match layer m with
  | None => Err (MalformedNode "raised a node of unknown layer")
  | Some lay => Ok (from_entries [ETree m] (Some (S lay)))
  end.
Fixpoint raise (times : nat) (low high : option Mst)
  : result RepoError (option Mst * option Mst) :=
  match times with
  | O => Ok (low, high)
  | S times =>
      low ← transpose (into_parent <$> low);
      high ← transpose (into_parent <$> high);
      raise times low high
  end.

(** [Mst::insert]. *)
Fixpoint insert (room : nat) (m : Mst) (k : bytes) (v : Cid) (zeros : nat) : M Mst :=
  match room with
  | O => too_deep
  | S room =>
      '(m, lay) ← get_layer room m;
      if lay <? zeros then
        '(low, high) ← split_around room m k;
        '(low, high) ← lift (raise (zeros - lay - 1) low high);
        mret (from_entries (tree_entry low ++ ELeaf (MkLeaf k v) :: tree_entry high) (Some zeros))
      else
        '(_, es) ← get_entries m;
        let index := index_of es k in
        let prev := split_prev es index in
        if zeros <? lay then
          let '(before, subtree) := match prev with
            | Some (before, subtree) => (before, subtree)
            | None => (take index es, from_entries [] (Some (lay - 1)))
            end in
          grown ← insert room subtree k v zeros;
          mret (from_entries (before ++ ETree grown :: drop index es) (Some lay))
        else
          match leaf_at es index k with
          | Some _ => throw (KeyExists k)
          | None =>
              match prev with
              | Some (before, subtree) =>
                  '(low, high) ← split_around room subtree k;
                  mret (from_entries
                    (before ++ tree_entry low ++ ELeaf (MkLeaf k v) :: tree_entry high
                     ++ drop index es) (Some lay))
              | None =>
                  mret (from_entries (take index es ++ ELeaf (MkLeaf k v) :: drop index es) (Some lay))
              end
          end
  end.

(** [Mst::append_merge]: joins two nodes of the same layer. *)
Fixpoint append_merge (room : nat) (m other : Mst) : M Mst :=
  match room with
  | O => too_deep
  | S room =>
      '(m, lay) ← get_layer room m;
      '(other, lay') ← get_layer room other;
      if decide (lay <> lay') then
        throw (MalformedNode "merged two nodes from different layers")
      else
        '(_, lefts) ← get_entries m;
        '(_, rights) ← get_entries other;
        match last lefts, rights with
        | Some (ETree inner_left), ETree inner_right :: rights =>
            merged ← append_merge room inner_left inner_right;
            mret (from_entries (removelast lefts ++ ETree merged :: rights) (Some lay))
        | _, _ => mret (from_entries (lefts ++ rights) (Some lay))
        end
  end.

(** [Mst::delete_recurse]. *)
Fixpoint delete_recurse (room : nat) (m : Mst) (k : bytes) : M Mst :=
  match room with
  | O => too_deep
  | S room =>
      '(m, es) ← get_entries m;
      let index := index_of es k in
      match leaf_at es index k with
      | Some _ =>
          match split_prev es index, drop (S index) es with
          | Some (before, lower), ETree upper :: after =>
              merged ← append_merge room lower upper;
              mret (from_entries (before ++ ETree merged :: after) (layer m))
          | _, after => mret (from_entries (take index es ++ after) (layer m))
          end
      | None =>
          match split_prev es index with
          | None => throw (KeyMissing k)
          | Some (before, subtree) =>
              shrunk ← delete_recurse room subtree k;
              '(shrunk, held) ← get_entries shrunk;
              mret (from_entries
                (before ++ match held with [] => [] | _ => [ETree shrunk] end ++ drop index es)
                (layer m))
          end
      end
  end.

(** [Mst::trim_top]: drops any node that is a lone pointer at the node below. *)
Fixpoint trim_top (room : nat) (m : Mst) : M Mst :=
  match room with
  | O => too_deep
  | S room => fun seen =>
      match fill m seen with
      | (seen, Err (MissingBlock _)) => (seen, Ok m)
      | (seen, Err e) => (seen, Err e)
      | (seen, Ok m) =>
          match entries m with
          | Some [ETree subtree] => trim_top room subtree seen
          | _ => (seen, Ok m)
          end
      end
  end.

(** ** The operations: each opens a traversal of its own *)

Definition traverse {A} (c : M A) : result RepoError A := snd (c ∅).

Definition root (m : Mst) : result RepoError (Mst * Cid) := traverse (root_in MAX_DEPTH m).
Definition get (m : Mst) (k : bytes) : result RepoError (Mst * option Cid) :=
  traverse (get_in MAX_DEPTH m k).
Definition cids_for_path (m : Mst) (k : bytes) : result RepoError (Mst * list Cid) :=
  traverse (cids_for_path_in MAX_DEPTH m k).
Definition leaves (m : Mst) : result RepoError (Mst * list Leaf) :=
  traverse (collect_leaves MAX_DEPTH m).
Definition unstored_blocks (m : Mst) : result RepoError (Mst * (Cid * BlockMap.t)) :=
  traverse (unstored_blocks_in MAX_DEPTH m).

(** [Mst::add] and [Mst::add_in]. *)
Definition add (m : Mst) (k : bytes) (v : Cid) : result RepoError Mst :=
  traverse (_ ← lift (ensure_valid_key k); insert MAX_DEPTH m k v (leading_zeros k)).
Definition update (m : Mst) (k : bytes) (v : Cid) : result RepoError Mst :=
  traverse (update_in MAX_DEPTH m k v).
(** [Mst::delete] and [Mst::delete_in]. *)
Definition delete (m : Mst) (k : bytes) : result RepoError Mst :=
  traverse (m ← delete_recurse MAX_DEPTH m k; trim_top MAX_DEPTH m).

End Tree.
