(* ===== verification/Concrete.v ===== *)
(** * Concrete: instances the interfaces can be read at

    SHA-256 as FIPS 180-4 writes it, satisfying [Sha256Ok]; an encoding of any
    countable type that satisfies [CodecOk]; and dag-cbor for a tree node, which
    is what the published roots are hashes of.  Nothing here models a file of
    the server: these are what the witnesses and the worked examples evaluate
    the models at. *)

From S2P Require Import Prelude Syntax Block Mst.
From Stdlib Require Import Lia.

Local Open Scope Z_scope.

(* ------------------------------------------------------------------ *)
(** ** SHA-256 *)

Module Sha.

Definition w32 (x : Z) : Z := x mod 2 ^ 32.
Definition rotr (n x : Z) : Z := Z.lor (Z.shiftr x n) (w32 (Z.shiftl x (32 - n))).

Definition K : list Z :=
  [1116352408; 1899447441; 3049323471; 3921009573; 961987163; 1508970993; 2453635748; 2870763221;
   3624381080; 310598401; 607225278; 1426881987; 1925078388; 2162078206; 2614888103; 3248222580;
   3835390401; 4022224774; 264347078; 604807628; 770255983; 1249150122; 1555081692; 1996064986;
   2554220882; 2821834349; 2952996808; 3210313671; 3336571891; 3584528711; 113926993; 338241895;
   666307205; 773529912; 1294757372; 1396182291; 1695183700; 1986661051; 2177026350; 2456956037;
   2730485921; 2820302411; 3259730800; 3345764771; 3516065817; 3600352804; 4094571909; 275423344;
   430227734; 506948616; 659060556; 883997877; 958139571; 1322822218; 1537002063; 1747873779;
   1955562222; 2024104815; 2227730452; 2361852424; 2428436474; 2756734187; 3204031479; 3329325298].

Record state := S8 { sa : Z; sb : Z; sc : Z; sd : Z; se : Z; sf : Z; sg : Z; sh : Z }.

Definition init : state :=
  S8 1779033703 3144134277 1013904242 2773480762 1359893119 2600822924 528734635 1541459225.

Definition bytes_of_word (x : Z) : bytes :=
  [Z.shiftr x 24 mod 256; Z.shiftr x 16 mod 256; Z.shiftr x 8 mod 256; x mod 256].

Definition pad (b : bytes) : bytes :=
  let bits := 8 * len b in
  b ++ [128] ++ repeat 0 (Z.to_nat ((55 - len b) mod 64))
    ++ bytes_of_word (Z.shiftr bits 32) ++ bytes_of_word bits.

Fixpoint words (b : bytes) : list Z :=
  match b with
  | w :: x :: y :: z :: b => (((w * 256 + x) * 256 + y) * 256 + z) :: words b
  | _ => []
  end.

(** The message schedule, newest word first. *)
Fixpoint schedule (n : nat) (ws : list Z) : list Z :=
  match n with
  | O => ws
  | S n =>
      let w i := nth i ws 0 in
      let s0 := let x := w 14%nat in Z.lxor (Z.lxor (rotr 7 x) (rotr 18 x)) (Z.shiftr x 3) in
      let s1 := let x := w 1%nat in Z.lxor (Z.lxor (rotr 17 x) (rotr 19 x)) (Z.shiftr x 10) in
      schedule n (w32 (w 15%nat + s0 + w 6%nat + s1) :: ws)
  end.

Definition round (s : state) (kw : Z * Z) : state :=
  let '(S8 a b c d e f g h) := s in
  let s1 := Z.lxor (Z.lxor (rotr 6 e) (rotr 11 e)) (rotr 25 e) in
  let ch := Z.lxor (Z.land e f) (Z.land (2 ^ 32 - 1 - e) g) in
  let t1 := h + s1 + ch + fst kw + snd kw in
  let s0 := Z.lxor (Z.lxor (rotr 2 a) (rotr 13 a)) (rotr 22 a) in
  let maj := Z.lxor (Z.lxor (Z.land a b) (Z.land a c)) (Z.land b c) in
  S8 (w32 (t1 + s0 + maj)) a b c (w32 (d + t1)) e f g.

Definition compress (s : state) (block : list Z) : state :=
  let '(S8 a b c d e f g h) := s in
  let '(S8 a' b' c' d' e' f' g' h') :=
    fold_left round (combine K (rev (schedule 48 (rev block)))) s in
  S8 (w32 (a + a')) (w32 (b + b')) (w32 (c + c')) (w32 (d + d'))
     (w32 (e + e')) (w32 (f + f')) (w32 (g + g')) (w32 (h + h')).

Fixpoint blocks (fuel : nat) (ws : list Z) (s : state) : state :=
  match fuel, ws with
  | S fuel, _ :: _ => blocks fuel (drop 16 ws) (compress s (take 16 ws))
  | _, _ => s
  end.

Definition digest (b : bytes) : bytes :=
  let ws := words (pad b) in
  let '(S8 a b c d e f g h) := blocks (length ws) ws init in
  bytes_of_word a ++ bytes_of_word b ++ bytes_of_word c ++ bytes_of_word d
  ++ bytes_of_word e ++ bytes_of_word f ++ bytes_of_word g ++ bytes_of_word h.

Example sha256_abc :
  digest (lit "abc") =
  [186; 120; 22; 191; 143; 1; 207; 234; 65; 65; 64; 222; 93; 174; 34; 35;
   176; 3; 97; 163; 150; 23; 122; 156; 180; 16; 255; 97; 242; 0; 21; 173].
Proof. vm_compute. reflexivity. Qed.

#[export] Instance sha : Sha256 := digest.

Lemma bytes_of_word_range x : Forall (fun y => 0 <= y < 256) (bytes_of_word x).
Proof. unfold bytes_of_word; repeat constructor; apply Z.mod_pos_bound; lia. Qed.

#[export] Instance sha_ok : Sha256Ok.
Proof.
  split; intros b; unfold sha256, sha, digest;
    destruct (blocks (length (words (pad b))) (words (pad b)) init); [done|].
  repeat (apply Forall_app; split); apply bytes_of_word_range.
Qed.

End Sha.

(* ------------------------------------------------------------------ *)
(** ** A digest of numbers of any size

    Quick to evaluate on the one-number encoding below, which is not made of
    bytes and so is nothing SHA-256 could tell apart. *)

Module Mix.

Definition P : Z := 2 ^ 255 - 19.
Definition C : Z := 2 ^ 200 / 3 + 2 ^ 99 / 7 + 1.
Definition mix (b : bytes) : Z := fold_left (fun a x => ((a + x + 1) * C) mod P) b 7 * C mod P.
Fixpoint big_endian (n : nat) (z : Z) (acc : bytes) : bytes :=
  match n with O => acc | S n => big_endian n (z / 256) (z mod 256 :: acc) end.
#[export] Instance mixed : Sha256 := fun b => big_endian 32 (mix b * 2) [].

Lemma big_endian_ok n : forall z acc,
  Forall (fun x => 0 <= x < 256) acc ->
  length (big_endian n z acc) = (n + length acc)%nat /\ Forall (fun x => 0 <= x < 256) (big_endian n z acc).
Proof.
  induction n as [|n IH]; intros z acc Ha; cbn [big_endian]; [done|].
  destruct (IH (z / 256) (z mod 256 :: acc)) as [Hl Hf].
  - constructor; [apply Z.mod_pos_bound; lia|done].
  - split; [rewrite Hl; cbn; lia|done].
Qed.

#[export] Instance mixed_ok : Sha256Ok.
Proof.
  split; intros b; unfold sha256, mixed; generalize (mix b * 2) as z; intros z;
    destruct (big_endian_ok 32 z [] (Forall_nil_2 _)) as [Hl Hf]; [by rewrite Hl|done].
Qed.

End Mix.

(* ------------------------------------------------------------------ *)
(** ** An encoding that reads back *)

Module Coded.
Section Coded.
Context {T : Type} `{Countable T}.

(** A countable type as the one number it is coded by. *)
#[export] Instance codec : Codec T := {|
  to_vec x := Ok [Zpos (countable.encode x)];
  from_slice b := match b with
    | [Zpos p] => match countable.decode p with Some x => Ok x | None => Err "no such value"%string end
    | _ => Err "not one number"%string
    end
|}.

#[export] Instance codec_ok : CodecOk T.
Proof.
  refine {| dag_cbor x := [Zpos (countable.encode x)] |}.
  - done.
  - intros x; cbn; by rewrite decode_encode.
Defined.

End Coded.
End Coded.

#[export] Instance TreeEntry_eq_dec : EqDecision TreeEntry.
Proof. solve_decision. Defined.

#[export] Instance TreeEntry_countable : Countable TreeEntry.
Proof.
  apply (inj_countable' (fun e => (te_p e, te_k e, te_v e, te_t e))
    (fun '(p, k, v, t) => MkTreeEntry p k v t)).
  by intros [].
Defined.

#[export] Instance NodeData_eq_dec : EqDecision NodeData.
Proof. solve_decision. Defined.

#[export] Instance NodeData_countable : Countable NodeData.
Proof.
  apply (inj_countable' (fun d => (nd_l d, nd_e d)) (fun '(l, e) => MkNodeData l e)).
  by intros [].
Defined.

(* ------------------------------------------------------------------ *)
(** ** A tree node in dag-cbor *)

Module DagCbor.

(** A major type and its argument, in the shortest form. *)
Definition head_bytes (major n : Z) : bytes :=
  if n <? 24 then [major * 32 + n]
  else if n <? 256 then [major * 32 + 24; n]
  else [major * 32 + 25; n / 256; n mod 256].

Definition byte_string (b : bytes) : bytes := head_bytes 2 (len b) ++ b.
Definition text (s : string) : bytes := head_bytes 3 (len (lit s)) ++ lit s.

(** A link: tag 42 over a zero byte and the binary CID, whose four leading
    varints are each below 128 here. *)
Definition link (c : Cid) : bytes :=
  [216; 42] ++ byte_string (0 :: cid_version c :: cid_codec c :: hash_code c
                            :: len (hash_digest c) :: hash_digest c).
Definition optional_link (c : option Cid) : bytes :=
  match c with Some c => link c | None => [246] end.

Definition entry (e : TreeEntry) : bytes :=
  head_bytes 5 4 ++ text "k" ++ byte_string (te_k e) ++ text "p" ++ head_bytes 0 (Z.of_nat (te_p e))
  ++ text "t" ++ optional_link (te_t e) ++ text "v" ++ link (te_v e).

Definition node_bytes (d : NodeData) : bytes :=
  head_bytes 5 2 ++ text "e" ++ head_bytes 4 (len (nd_e d)) ++ concat (map entry (nd_e d))
  ++ text "l" ++ optional_link (nd_l d).

(** Only the writing half, which is all a root depends on. *)
#[export] Instance writer : Codec NodeData := {|
  to_vec d := Ok (node_bytes d);
  from_slice _ := Err "not read here"%string
|}.

End DagCbor.
