(* ===== verification/MstLogic.v ===== *)
(** * MstLogic: reasoning about one traversal of the tree

    A traversal refuses a node it has already read, so an operation is only as
    good as the account it keeps of what is still unread.  [triple U c Q] says
    that [c], run by any traversal that has read none of the nodes [U],
    succeeds, reads only nodes of [U], and ends in a value and a set of nodes
    left unread that satisfy [Q].  [triple_frame] is what lets an operation on
    one subtree be reasoned about without the others.

    [fails U c e] is the companion for the error paths. *)

From S2P Require Import Prelude Syntax Block Mst.

Definition triple {A} (U : gset Cid) (c : M A) (Q : A -> gset Cid -> Prop) : Prop :=
  forall seen, U ## seen ->
  exists a seen' U', c seen = (seen', Ok a)
    /\ U' ⊆ U /\ seen' ⊆ seen ∪ U /\ U' ## seen' /\ Q a U'.

Definition fails {A} (U : gset Cid) (c : M A) (e : RepoError) : Prop :=
  forall seen, U ## seen -> exists seen', c seen = (seen', Err e).

Section Rules.
Context {A B : Type}.
Implicit Types (U W : gset Cid) (c : M A) (f : A -> M B).

Lemma triple_ret U (a : A) Q : Q a U -> triple U (mret a) Q.
Proof. intros HQ seen Hs; exists a, seen, U; split; [done|]. set_solver. Qed.

Lemma triple_lift U (r : result RepoError A) a Q : r = Ok a -> Q a U -> triple U (lift r) Q.
Proof. intros -> HQ seen Hs; exists a, seen, U; split; [done|]. set_solver. Qed.

Lemma triple_bind U c f R Q :
  triple U c R -> (forall a U', R a U' -> U' ⊆ U -> triple U' (f a) Q) ->
  triple U (c ≫= f) Q.
Proof.
  intros Hc Hf seen Hs.
  destruct (Hc seen Hs) as (a & seen' & U' & Ec & HU & Hseen & Hd & HR).
  destruct (Hf a U' HR HU seen' Hd) as (b & seen'' & U'' & Ef & HU' & Hseen' & Hd' & HQ).
  exists b, seen'', U''; split; [|set_solver].
  unfold mbind, M_bind; by rewrite Ec.
Qed.

Lemma triple_conseq U c R Q :
  triple U c R -> (forall a U', R a U' -> U' ⊆ U -> Q a U') -> triple U c Q.
Proof.
  intros Hc HRQ seen Hs.
  destruct (Hc seen Hs) as (a & seen' & U' & Ec & HU & Hseen & Hd & HR).
  exists a, seen', U'; eauto 10.
Qed.

Lemma triple_frame U W c Q :
  U ## W -> triple U c Q ->
  triple (U ∪ W) c (fun a V => exists U', V = U' ∪ W /\ U' ## W /\ U' ⊆ U /\ Q a U').
Proof.
  intros HUW Hc seen Hs.
  destruct (Hc seen) as (a & seen' & U' & Ec & HU & Hseen & Hd & HR); [set_solver|].
  exists a, seen', (U' ∪ W); split; [done|]. split; [set_solver|]. split; [set_solver|].
  split; [set_solver|]. exists U'; split; [done|]. set_solver.
Qed.

Lemma fails_throw U e : fails U (throw (A := A) e) e.
Proof. intros seen _; by exists seen. Qed.

Lemma fails_lift U (r : result RepoError A) e : r = Err e -> fails U (lift r) e.
Proof. intros -> seen _; by exists seen. Qed.

Lemma fails_here U c f e : fails U c e -> fails U (c ≫= f) e.
Proof.
  intros Hc seen Hs; destruct (Hc seen Hs) as (seen' & Ec).
  exists seen'; unfold mbind, M_bind; by rewrite Ec.
Qed.

Lemma fails_after U c f R e :
  triple U c R -> (forall a U', R a U' -> U' ⊆ U -> fails U' (f a) e) ->
  fails U (c ≫= f) e.
Proof.
  intros Hc Hf seen Hs.
  destruct (Hc seen Hs) as (a & seen' & U' & Ec & HU & Hseen & Hd & HR).
  destruct (Hf a U' HR HU seen' Hd) as (seen'' & Ef).
  exists seen''; unfold mbind, M_bind; by rewrite Ec.
Qed.

Lemma fails_subset U W c e : U ⊆ W -> fails U c e -> fails W c e.
Proof. intros HUW Hc seen Hs; apply Hc; set_solver. Qed.

End Rules.

(** What a whole operation answers, which starts having read nothing. *)
Lemma traverse_triple {A} U (c : M A) Q :
  triple U c Q -> exists a U', traverse c = Ok a /\ Q a U'.
Proof.
  intros Hc; destruct (Hc ∅) as (a & seen' & U' & Ec & _ & _ & _ & HQ); [set_solver|].
  exists a, U'; unfold traverse; by rewrite Ec.
Qed.

Lemma traverse_fails {A} U (c : M A) e : fails U c e -> traverse c = Err e.
Proof.
  intros Hc; destruct (Hc ∅) as (seen' & Ec); [set_solver|]. unfold traverse; by rewrite Ec.
Qed.
