(* ===== verification/MstShape.v ===== *)
(** * MstShape: what a tree stands for

    The specification side of the tree: the records it holds, in key order, and
    the one node each list of records is stored as.

    - [below], [above], [put], [remove] and [find_leaf] are the operations on a
      sorted list of leaves that the tree's operations implement;
    - [segs] cuts a list of leaves at those that sit on a layer, and [node_of]
      and [cid_of] are the stored node and the CID that a layer and a list of
      leaves determine, whatever order the records arrived in;
    - [rep n m l U] says that the tree [m], as far as it has been read, is the
      tree of [l] at layer [n], with the nodes [U] still to be read. *)

From S2P Require Import Prelude Syntax Block Mst.
From Stdlib Require Import Lia.

(* ------------------------------------------------------------------ *)
(** ** Sorted lists of leaves *)

Definition leaf_lt (a b : Leaf) : Prop := str_lt (key a) (key b).
Definition sorted (l : list Leaf) : Prop := StronglySorted leaf_lt l.

(** Every key of the list is below, or above, this one. *)
Definition all_below (k : bytes) (l : list Leaf) : Prop := Forall (fun x => str_lt (key x) k) l.
Definition all_above (k : bytes) (l : list Leaf) : Prop := Forall (fun x => str_lt k (key x)) l.

Definition below (k : bytes) (l : list Leaf) : list Leaf :=
  List.filter (fun x => str_ltb (key x) k) l.
Definition above (k : bytes) (l : list Leaf) : list Leaf :=
  List.filter (fun x => str_ltb k (key x)) l.

(** A record put at a key, whether or not one is there, and taken out. *)
Definition put (k : bytes) (v : Cid) (l : list Leaf) : list Leaf :=
  below k l ++ MkLeaf k v :: above k l.
Definition remove (k : bytes) (l : list Leaf) : list Leaf := below k l ++ above k l.

Fixpoint find_leaf (k : bytes) (l : list Leaf) : option Cid :=
  match l with
  | [] => None
  | x :: l => if decide (key x = k) then Some (value x) else find_leaf k l
  end.

Lemma sorted_app l1 l2 :
  sorted (l1 ++ l2) <->
  sorted l1 /\ sorted l2 /\ forall x y, x ∈ l1 -> y ∈ l2 -> leaf_lt x y.
Proof.
  unfold sorted; induction l1 as [|a l1 IH]; cbn.
  - split; [intros; split; [constructor|split; [done|set_solver]]|tauto].
  - split.
    + intros Hs; apply StronglySorted_inv in Hs as [Hs Ha].
      apply IH in Hs as (H1 & H2 & H3); rewrite Forall_app in Ha; destruct Ha as [Ha1 Ha2].
      rewrite Forall_forall in Ha2.
      split; [by constructor|split; [done|]].
      intros x y [->|Hx]%elem_of_cons Hy; eauto.
    + intros (H1 & H2 & H3); apply StronglySorted_inv in H1 as [H1 Ha].
      constructor; [apply IH; set_solver|].
      apply Forall_app; split; [done|]. apply Forall_forall; set_solver.
Qed.

Lemma all_below_app k l1 l2 : all_below k (l1 ++ l2) <-> all_below k l1 /\ all_below k l2.
Proof. apply Forall_app. Qed.
Lemma all_above_app k l1 l2 : all_above k (l1 ++ l2) <-> all_above k l1 /\ all_above k l2.
Proof. apply Forall_app. Qed.

Lemma below_app k l1 l2 : below k (l1 ++ l2) = below k l1 ++ below k l2.
Proof. apply List.filter_app. Qed.
Lemma above_app k l1 l2 : above k (l1 ++ l2) = above k l1 ++ above k l2.
Proof. apply List.filter_app. Qed.

Lemma below_all k l : all_below k l -> below k l = l.
Proof.
  induction 1 as [|x l Hx Hl IH]; [done|]; cbn.
  rewrite (proj2 (str_ltb_spec _ _) Hx); f_equal; exact IH.
Qed.
Lemma above_all k l : all_above k l -> above k l = l.
Proof.
  induction 1 as [|x l Hx Hl IH]; [done|]; cbn.
  rewrite (proj2 (str_ltb_spec _ _) Hx); f_equal; exact IH.
Qed.

Lemma str_ltb_asym a b : str_lt a b -> str_ltb b a = false.
Proof.
  intros Hab; destruct (str_ltb b a) eqn:E; [|done].
  apply str_ltb_spec in E; exfalso; eapply str_lt_irrefl, str_lt_trans; eauto.
Qed.

Lemma below_none k l : all_above k l -> below k l = [].
Proof. induction 1 as [|x l Hx Hl IH]; [done|]; cbn. by rewrite str_ltb_asym. Qed.
Lemma above_none k l : all_below k l -> above k l = [].
Proof. induction 1 as [|x l Hx Hl IH]; [done|]; cbn. by rewrite str_ltb_asym. Qed.

Lemma below_self k v l : below k (MkLeaf k v :: l) = below k l.
Proof.
  cbn; destruct (str_ltb k k) eqn:E; [|done]. by apply str_ltb_spec, str_lt_irrefl in E.
Qed.
Lemma above_self k v l : above k (MkLeaf k v :: l) = above k l.
Proof.
  cbn; destruct (str_ltb k k) eqn:E; [|done]. by apply str_ltb_spec, str_lt_irrefl in E.
Qed.

Lemma find_leaf_app k l1 l2 :
  find_leaf k (l1 ++ l2) = match find_leaf k l1 with Some v => Some v | None => find_leaf k l2 end.
Proof. induction l1 as [|x l1 IH]; cbn; [done|]. by case_decide. Qed.

Lemma find_leaf_None k l : find_leaf k l = None <-> Forall (fun x => key x <> k) l.
Proof.
  induction l as [|x l IH]; cbn; [split; constructor|].
  rewrite Forall_cons; case_decide; naive_solver.
Qed.

Lemma find_below k l : all_below k l -> find_leaf k l = None.
Proof.
  intros Hl; apply find_leaf_None; eapply Forall_impl; [exact Hl|].
  intros x Hx E; cbv beta in Hx; rewrite E in Hx. by eapply str_lt_irrefl.
Qed.
Lemma find_above k l : all_above k l -> find_leaf k l = None.
Proof.
  intros Hl; apply find_leaf_None; eapply Forall_impl; [exact Hl|].
  intros x Hx E; cbv beta in Hx; rewrite E in Hx. by eapply str_lt_irrefl.
Qed.

(** Simplifies the list operations where the place of the key is known. *)
Ltac leaf_simpl :=
  repeat first
  [ rewrite below_app | rewrite above_app | rewrite below_self | rewrite above_self
  | rewrite find_leaf_app
  | match goal with
    | Hb : all_below ?k ?l |- context [below ?k ?l] => rewrite (below_all k l Hb)
    | Hb : all_below ?k ?l |- context [above ?k ?l] => rewrite (above_none k l Hb)
    | Hb : all_below ?k ?l |- context [find_leaf ?k ?l] => rewrite (find_below k l Hb)
    | Ha : all_above ?k ?l |- context [below ?k ?l] => rewrite (below_none k l Ha)
    | Ha : all_above ?k ?l |- context [above ?k ?l] => rewrite (above_all k l Ha)
    | Ha : all_above ?k ?l |- context [find_leaf ?k ?l] => rewrite (find_above k l Ha)
    end
  | rewrite app_nil_r | rewrite app_nil_l ].

Lemma below_spec k l x : x ∈ below k l <-> x ∈ l /\ str_lt (key x) k.
Proof. unfold below; by rewrite list_elem_of_In, filter_In, <- list_elem_of_In, str_ltb_spec. Qed.
Lemma above_spec k l x : x ∈ above k l <-> x ∈ l /\ str_lt k (key x).
Proof. unfold above; by rewrite list_elem_of_In, filter_In, <- list_elem_of_In, str_ltb_spec. Qed.

Lemma below_all_below k l : all_below k (below k l).
Proof. apply Forall_forall; intros x [_ Hx]%below_spec; exact Hx. Qed.
Lemma above_all_above k l : all_above k (above k l).
Proof. apply Forall_forall; intros x [_ Hx]%above_spec; exact Hx. Qed.

Lemma sorted_filter f l : sorted l -> sorted (List.filter f l).
Proof.
  induction 1 as [|x l Hl IH Hx]; cbn; [constructor|].
  destruct (f x); [|done]. constructor; [done|].
  rewrite Forall_forall in *; intros y Hy; apply Hx.
  apply list_elem_of_In, filter_In in Hy as [? _]; by apply list_elem_of_In.
Qed.

(** Putting and removing keep the order. *)
Lemma sorted_put k v l : sorted l -> sorted (put k v l).
Proof.
  intros Hl; unfold put; apply sorted_app; split; [by apply sorted_filter|split].
  - constructor; [by apply sorted_filter|]. apply above_all_above.
  - intros x y Hx%below_spec Hy%elem_of_cons; unfold leaf_lt.
    destruct Hy as [->|Hy%above_spec]; [by apply Hx|].
    eapply str_lt_trans; [apply Hx|apply Hy].
Qed.

Lemma sorted_remove k l : sorted l -> sorted (remove k l).
Proof.
  intros Hl; unfold remove; apply sorted_app; split; [by apply sorted_filter|].
  split; [by apply sorted_filter|].
  intros x y Hx%below_spec Hy%above_spec; unfold leaf_lt.
  eapply str_lt_trans; [apply Hx|apply Hy].
Qed.

Lemma Forall_put (P : Leaf -> Prop) k v l : Forall P l -> P (MkLeaf k v) -> Forall P (put k v l).
Proof.
  rewrite !Forall_forall; intros Hl Hk x; unfold put.
  rewrite elem_of_app, elem_of_cons, below_spec, above_spec; naive_solver.
Qed.

Lemma Forall_remove (P : Leaf -> Prop) k l : Forall P l -> Forall P (remove k l).
Proof.
  rewrite !Forall_forall; intros Hl x; unfold remove.
  rewrite elem_of_app, below_spec, above_spec; naive_solver.
Qed.

(** The list operations are those of a map from keys to records. *)
Lemma find_put k v l : find_leaf k (put k v l) = Some v.
Proof.
  unfold put; rewrite find_leaf_app, (find_below k) by apply below_all_below.
  cbn; by rewrite decide_True.
Qed.

Lemma find_filter_ne f k l :
  (forall x, key x = k -> f x = true) -> find_leaf k (List.filter f l) = find_leaf k l.
Proof.
  intros Hf; induction l as [|x l IH]; cbn; [done|].
  case_decide as Hx; [rewrite Hf by done; cbn; by rewrite decide_True|].
  destruct (f x); cbn; [by rewrite decide_False|done].
Qed.

Lemma find_split k k' l :
  k <> k' ->
  find_leaf k' l = match find_leaf k' (below k l) with
                   | Some v => Some v | None => find_leaf k' (above k l) end.
Proof.
  intros Hne; destruct (str_lt_total k' k) as [Hlt|[->|Hlt]]; [|done|].
  - assert (find_leaf k' (below k l) = find_leaf k' l) as ->
      by (apply find_filter_ne; intros x ->; by apply str_ltb_spec).
    destruct (find_leaf k' l); [done|]. symmetry; apply find_leaf_None, Forall_forall.
    intros x Hx%above_spec E; rewrite E in Hx. destruct Hx as [_ Hx].
    eapply str_lt_irrefl, str_lt_trans; eauto.
  - assert (find_leaf k' (below k l) = None) as ->.
    { apply find_leaf_None, Forall_forall; intros x Hx%below_spec E; rewrite E in Hx. destruct Hx as [_ Hx].
      eapply str_lt_irrefl, str_lt_trans; eauto. }
    symmetry; apply find_filter_ne; intros x ->; by apply str_ltb_spec.
Qed.

Lemma find_put_ne k k' v l : k <> k' -> find_leaf k' (put k v l) = find_leaf k' l.
Proof.
  intros Hne; unfold put; rewrite find_leaf_app, (find_split k k' l) by done.
  cbn; by rewrite decide_False.
Qed.

Lemma find_remove k l : find_leaf k (remove k l) = None.
Proof.
  unfold remove; rewrite find_leaf_app, (find_below k) by apply below_all_below.
  apply find_above, above_all_above.
Qed.

Lemma find_remove_ne k k' l : k <> k' -> find_leaf k' (remove k l) = find_leaf k' l.
Proof. intros Hne; unfold remove; by rewrite find_leaf_app, (find_split k k' l). Qed.

Lemma find_head x l : find_leaf (key x) (x :: l) = Some (value x).
Proof. cbn; by rewrite decide_True. Qed.

Lemma find_before k y l : str_lt k (key y) -> Forall (leaf_lt y) l -> find_leaf k (y :: l) = None.
Proof.
  intros Hk Hl; apply find_above; constructor; [done|].
  eapply Forall_impl; [exact Hl|]. intros z Hz; eapply str_lt_trans; eauto.
Qed.

(** A sorted list is determined by what it maps each key to. *)
Lemma sorted_find_ext l1 l2 :
  sorted l1 -> sorted l2 -> (forall k, find_leaf k l1 = find_leaf k l2) -> l1 = l2.
Proof.
  intros H1; revert l2; induction H1 as [|x l1 Hl1 IH Hx]; intros l2 H2 Hf.
  - destruct l2 as [|y l2]; [done|]. specialize (Hf (key y)); by rewrite find_head in Hf.
  - destruct H2 as [|y l2 Hl2 Hy]; [specialize (Hf (key x)); by rewrite find_head in Hf|].
    pose proof (Hf (key x)) as Hfx; pose proof (Hf (key y)) as Hfy.
    rewrite find_head in Hfx, Hfy.
    assert (key x = key y) as Hxy.
    { destruct (str_lt_total (key x) (key y)) as [Hlt|[?|Hlt]]; [|done|].
      - by rewrite find_before in Hfx.
      - by rewrite find_before in Hfy. }
    rewrite Hxy, find_head in Hfx; injection Hfx as Hv.
    assert (x = y) as -> by (destruct x, y; cbn in *; congruence).
    f_equal; apply IH; [done|]. intros k; specialize (Hf k); cbn in Hf.
    case_decide as Hk; [|done]. subst k. by rewrite !find_above.
Qed.

(* ------------------------------------------------------------------ *)
(** ** The node a list of leaves is stored as *)

Section Shape.
Context `{Sha256} `{!Codec NodeData} `{!CodecOk NodeData}.

(** The layer a leaf sits on. *)
Definition lz (x : Leaf) : nat := leading_zeros (key x).

(** The layer of the root over these leaves. *)
Fixpoint top (l : list Leaf) : nat :=
  match l with [] => 0 | x :: l => Nat.max (lz x) (top l) end.

(** The leaves cut at those that sit on layer [n]: what comes before the first
    of them, then each with what comes after it. *)
Fixpoint segs (n : nat) (l : list Leaf) : list Leaf * list (Leaf * list Leaf) :=
  match l with
  | [] => ([], [])
  | x :: l =>
      let '(s, rest) := segs n l in
      if lz x =? n then ([], (x, s) :: rest) else (x :: s, rest)
  end.

(** The runs between them, each the content of a subtree unless it is empty. *)
Definition runs (n : nat) (l : list Leaf) : list (list Leaf) :=
  fst (segs n l) :: map snd (snd (segs n l)).

(** The stored entries: each key against the one before it. *)
Fixpoint compress (child : list Leaf -> option Cid) (last : bytes) (rest : list (Leaf * list Leaf))
  : list TreeEntry :=
  match rest with
  | [] => []
  | (x, s) :: rest =>
      let p := shared_prefix last (key x) in
      MkTreeEntry p (drop p (key x)) (value x) (child s) :: compress child (key x) rest
  end.

(** The node of layer [n] over these leaves. *)
Fixpoint node_of (n : nat) (l : list Leaf) : NodeData :=
  let child s := match s, n with
    | _ :: _, S n => Some (cid_for (dag_cbor (node_of n s)))
    | _, _ => None
    end in
  MkNodeData (child (fst (segs n l))) (compress child [] (snd (segs n l))).

(** The CID of that node, and of the subtree over a run of leaves below it. *)
Definition cid_of (n : nat) (l : list Leaf) : Cid := cid_for (dag_cbor (node_of n l)).
Definition child_cid (n : nat) (s : list Leaf) : option Cid :=
  match s, n with
  | _ :: _, S n => Some (cid_of n s)
  | _, _ => None
  end.

Lemma node_of_unfold n l :
  node_of n l = MkNodeData (child_cid n (fst (segs n l)))
                           (compress (child_cid n) [] (snd (segs n l))).
Proof. destruct n; reflexivity. Qed.

(** Every node of the tree, from the root down. *)
Fixpoint tree_cids (n : nat) (l : list Leaf) : list Cid :=
  cid_of n l :: match n with
    | O => []
    | S n => concat (map (fun s => match s with [] => [] | _ => tree_cids n s end) (runs (S n) l))
    end.

(** A store that holds every one of them. *)
Fixpoint stored (st : Store) (n : nat) (l : list Leaf) : Prop :=
  store_get st (cid_of n l) = Ok (dag_cbor (node_of n l))
  /\ match n with
     | O => True
     | S n => Forall (fun s => s = [] \/ stored st n s) (runs (S n) l)
     end.

(* ------------------------------------------------------------------ *)
(** ** What a tree in memory stands for *)

(** No two subtrees side by side. *)
Fixpoint alt (es : list Entry) : Prop :=
  match es with
  | ETree _ :: (ETree _ :: _) => False
  | _ :: es => alt es
  | [] => True
  end.

(** The entries of a node of layer [n]: its own leaves, and between them
    subtrees whose leaves all sit lower. [P] is what a subtree stands for. *)
Inductive es_rep (P : Mst -> list Leaf -> gset Cid -> Prop) (n : nat)
  : list Entry -> list Leaf -> gset Cid -> Prop :=
| er_nil : es_rep P n [] [] ∅
| er_leaf x es l U :
    lz x = n -> es_rep P n es l U -> es_rep P n (ELeaf x :: es) (x :: l) U
| er_tree m es l1 l2 U1 U2 :
    P m l1 U1 -> l1 <> [] -> Forall (fun x => lz x < n) l1 ->
    es_rep P n es l2 U2 -> U1 ## U2 ->
    es_rep P n (ETree m :: es) (l1 ++ l2) (U1 ∪ U2).

Fixpoint rep (st : Store) (n : nat) (m : Mst) (l : list Leaf) (U : gset Cid) : Prop :=
  (layer m = None \/ layer m = Some n)
  /\ (forall c, pointer m = Some c -> c = cid_of n l)
  /\ match entries m with
     | None => pointer m = Some (cid_of n l) /\ stored st n l
               /\ NoDup (tree_cids n l) /\ U = list_to_set (tree_cids n l)
     | Some es => alt es /\ es_rep (match n with O => fun _ _ _ => False | S n => rep st n end) n es l U
     end.

(** What a subtree of a node of layer [n] stands for. *)
Definition sub_rep (st : Store) (n : nat) : Mst -> list Leaf -> gset Cid -> Prop :=
  match n with O => fun _ _ _ => False | S n => rep st n end.

(** The lists of leaves that are trees of layer [n]. *)
Definition good (n : nat) (l : list Leaf) : Prop :=
  sorted l /\ Forall (fun x => valid_key (key x) = true /\ lz x <= n) l.

Lemma rep_unfold st n m l U :
  rep st n m l U <->
  (layer m = None \/ layer m = Some n)
  /\ (forall c, pointer m = Some c -> c = cid_of n l)
  /\ match entries m with
     | None => pointer m = Some (cid_of n l) /\ stored st n l
               /\ NoDup (tree_cids n l) /\ U = list_to_set (tree_cids n l)
     | Some es => alt es /\ es_rep (sub_rep st n) n es l U
     end.
Proof. by destruct n. Qed.

Lemma rep_entries st n es lay ptr l U :
  lay = None \/ lay = Some n -> (forall c, ptr = Some c -> c = cid_of n l) ->
  alt es -> es_rep (sub_rep st n) n es l U ->
  rep st n (MkMst (Some es) lay ptr) l U.
Proof. intros; apply rep_unfold; cbn; auto. Qed.

(* ------------------------------------------------------------------ *)
(** ** Lists of leaves a tree can hold *)

Lemma good_app n l1 l2 :
  good n (l1 ++ l2) <-> good n l1 /\ good n l2 /\ forall x y, x ∈ l1 -> y ∈ l2 -> leaf_lt x y.
Proof. unfold good; rewrite sorted_app, Forall_app; tauto. Qed.

Lemma good_lower n l : good (S n) l -> Forall (fun x => lz x < S n) l -> good n l.
Proof.
  intros [Hs Hf] Hl; split; [done|].
  rewrite Forall_forall in *; intros x Hx; specialize (Hf x Hx); specialize (Hl x Hx).
  destruct Hf; split; [done|lia].
Qed.

Lemma good_pred n l : good n l -> Forall (fun x => lz x < n) l -> good (n - 1) l.
Proof.
  destruct n as [|n]; [by cbn|]. replace (S n - 1) with n by lia. apply good_lower.
Qed.

Lemma good_put n k v l :
  good n l -> valid_key k = true -> good (Nat.max n (leading_zeros k)) (put k v l).
Proof.
  intros [Hs Hf] Hk; split; [by apply sorted_put|].
  apply Forall_put; [|unfold lz; cbn [key]; split; [done|lia]].
  eapply Forall_impl; [exact Hf|]. cbv beta; intros x [? ?]; split; [done|lia].
Qed.

Lemma good_remove n k l : good n l -> good n (remove k l).
Proof. intros [Hs Hf]; split; [by apply sorted_remove|by apply Forall_remove]. Qed.

Lemma top_le n l : Forall (fun x => lz x <= n) l -> top l <= n.
Proof. induction 1; cbn [top]; lia. Qed.

Lemma top_elem x l : x ∈ l -> lz x <= top l.
Proof. induction 1; cbn [top]; lia. Qed.

Lemma good_top n l : good n l -> good (top l) l.
Proof.
  intros [Hs Hf]; split; [done|]. rewrite Forall_forall in *.
  intros x Hx; split; [by apply Hf|by apply top_elem].
Qed.

Lemma top_eq n l x : good n l -> x ∈ l -> lz x = n -> top l = n.
Proof.
  intros [_ Hf] Hx Hn; apply top_elem in Hx.
  assert (top l <= n); [|lia]. apply top_le; eapply Forall_impl; [exact Hf|]. cbv beta; naive_solver.
Qed.

(* ------------------------------------------------------------------ *)
(** ** Entries taken apart and put together *)

Section Entries.
Context (P : Mst -> list Leaf -> gset Cid -> Prop) (n : nat).
Implicit Types (es : list Entry) (l : list Leaf) (U : gset Cid).

Lemma es_rep_tree m l U :
  P m l U -> l <> [] -> Forall (fun x => lz x < n) l -> es_rep P n [ETree m] l U.
Proof.
  intros Hm Hne Hl.
  rewrite <- (app_nil_r l); replace U with (U ∪ ∅) by set_solver.
  by apply er_tree; [..|constructor|set_solver].
Qed.

Lemma es_rep_app es1 es2 l1 l2 U1 U2 :
  es_rep P n es1 l1 U1 -> es_rep P n es2 l2 U2 -> U1 ## U2 ->
  es_rep P n (es1 ++ es2) (l1 ++ l2) (U1 ∪ U2).
Proof.
  induction 1 as [|x es1 l1 U1 Hx H1 IH|m es1 l1 l1' U1 U1' Hm Hne Hlz H1 IH Hd]; intros H2 HU.
  - by rewrite union_empty_l_L.
  - constructor; [done|by apply IH].
  - cbn [app]; rewrite <- app_assoc, <- union_assoc_L.
    apply er_tree; [done..|apply IH; [done|set_solver]|set_solver].
Qed.

Lemma es_rep_app_inv es1 es2 l U :
  es_rep P n (es1 ++ es2) l U ->
  exists l1 l2 U1 U2, l = l1 ++ l2 /\ U = U1 ∪ U2 /\ U1 ## U2
    /\ es_rep P n es1 l1 U1 /\ es_rep P n es2 l2 U2.
Proof.
  revert l U; induction es1 as [|e es1 IH]; intros l U He.
  - exists [], l, ∅, U; repeat split; [set_solver..|constructor|done].
  - inversion He as [|x es' l' U' Hx He'|m es' l1 l2 U1 U2 Hm Hne Hlz He' Hd]; subst.
    + destruct (IH _ _ He') as (l1 & l2 & U1 & U2 & -> & -> & ? & ? & ?).
      exists (x :: l1), l2, U1, U2; repeat split; [done..|by constructor|done].
    + destruct (IH _ _ He') as (l3 & l4 & U3 & U4 & -> & -> & ? & ? & ?).
      exists (l1 ++ l3), l4, (U1 ∪ U3), U4.
      split; [by rewrite app_assoc|]. split; [by rewrite union_assoc_L|].
      split; [set_solver|]. split; [|done]. constructor; [done..|set_solver].
Qed.

Lemma es_rep_nil_iff es l U : es_rep P n es l U -> (es = [] <-> l = []).
Proof.
  destruct 1 as [|x es l U Hx He|m es l1 l2 U1 U2 Hm Hne Hlz He Hd]; [done|done|].
  split; [done|]. by intros [? _]%app_eq_nil.
Qed.

Lemma es_rep_lz es l U : es_rep P n es l U -> Forall (fun x => lz x <= n) l.
Proof.
  induction 1 as [|x es l U Hx He IH|m es l1 l2 U1 U2 Hm Hne Hlz He IH Hd]; [done| |].
  - constructor; [lia|done].
  - apply Forall_app; split; [|done]. eapply Forall_impl; [exact Hlz|]. cbv beta; lia.
Qed.

Lemma es_rep_mono (Q : Mst -> list Leaf -> gset Cid -> Prop) es l U :
  (forall m l U, P m l U -> Q m l U) -> es_rep P n es l U -> es_rep Q n es l U.
Proof. intros HPQ; induction 1; constructor; auto. Qed.

End Entries.

Lemma alt_app es1 es2 :
  alt (es1 ++ es2) <->
  alt es1 /\ alt es2 /\ ~ (exists a b, last es1 = Some (ETree a) /\ head es2 = Some (ETree b)).
Proof.
  induction es1 as [|e es1 IH]; [cbn; naive_solver|].
  destruct es1 as [|e' es1].
  - cbn; destruct e as [x|m], es2 as [|[y|m'] es2]; cbn in *; naive_solver.
  - cbn [app alt last] in *. destruct e as [x|m], e' as [y|m']; try done; tauto.
Qed.

Lemma alt_leaf x es : alt (ELeaf x :: es) <-> alt es.
Proof. done. Qed.

(** Where a key belongs among a node's entries: either between two runs that
    are wholly below and not below it, or inside the subtree just before. *)
Inductive place (P : Mst -> list Leaf -> gset Cid -> Prop) (n : nat) (k : bytes)
    (es : list Entry) (l : list Leaf) (U : gset Cid) : Prop :=
| place_gap l1 l2 U1 U2 :
    split_prev es (index_of es k) = None ->
    es_rep P n (take (index_of es k) es) l1 U1 ->
    es_rep P n (drop (index_of es k) es) l2 U2 ->
    ~ (exists m, last (take (index_of es k) es) = Some (ETree m)) ->
    l = l1 ++ l2 -> U = U1 ∪ U2 -> U1 ## U2 ->
    all_below k l1 -> Forall (fun x => ~ str_lt (key x) k) l2 ->
    place P n k es l U
| place_tree before m l1 lm l2 U1 Um U2 :
    split_prev es (index_of es k) = Some (before, m) ->
    take (index_of es k) es = before ++ [ETree m] ->
    es_rep P n before l1 U1 -> P m lm Um -> lm <> [] -> Forall (fun x => lz x < n) lm ->
    es_rep P n (drop (index_of es k) es) l2 U2 ->
    ~ (exists m, last before = Some (ETree m)) ->
    l = l1 ++ lm ++ l2 -> U = Um ∪ (U1 ∪ U2) -> Um ## U1 ∪ U2 -> U1 ## U2 ->
    all_below k l1 -> Forall (fun x => ~ str_lt (key x) k) l2 ->
    place P n k es l U.

Lemma drop_index_head es k : ~ (exists m, head (drop (index_of es k) es) = Some (ETree m)).
Proof.
  induction es as [|[x|m] es IH]; cbn; [naive_solver| |done].
  destruct (str_leb k (key x)); cbn; [naive_solver|done].
Qed.

Lemma split_prev_cons e es i :
  split_prev (e :: es) (S (S i)) =
  match split_prev es (S i) with Some (before, m) => Some (e :: before, m) | None => None end.
Proof. cbn. by destruct (es !! i) as [[x|m]|]. Qed.

Lemma not_below_of_sorted k x l :
  ~ str_lt (key x) k -> Forall (leaf_lt x) l -> Forall (fun y => ~ str_lt (key y) k) (x :: l).
Proof.
  intros Hx Hl; constructor; [done|]. eapply Forall_impl; [exact Hl|].
  intros y Hy Hk; apply Hx; eapply str_lt_trans; eauto.
Qed.

Lemma str_leb_false k x : str_leb k x = false -> str_lt x k.
Proof.
  intros E; destruct (str_lt_total x k) as [?|Hge]; [done|].
  rewrite (proj2 (str_leb_cases k x)) in E; [done|].
  destruct Hge as [<-|?]; [by right|by left].
Qed.

(** The cases of the search, an entry at a time. *)
Section Place.
Context (P : Mst -> list Leaf -> gset Cid -> Prop) (n : nat) (k : bytes).

Lemma place_start es l U :
  index_of es k = 0 -> es_rep P n es l U ->
  Forall (fun x => ~ str_lt (key x) k) l -> place P n k es l U.
Proof.
  intros E0 He Hl; apply (place_gap P n k es l U [] l ∅ U); rewrite ?E0; cbn.
  all: first [done|by constructor|by intros [? ?]|set_solver].
Qed.

Lemma place_leaf x es l U :
  str_leb k (key x) = false -> lz x = n ->
  place P n k es l U -> place P n k (ELeaf x :: es) (x :: l) U.
Proof.
  intros E Hx; pose proof (str_leb_false _ _ E) as Hxk.
  assert (index_of (ELeaf x :: es) k = S (index_of es k)) as ES by (cbn; by rewrite E).
  destruct 1 as [l1 l2 U1 U2 Hp H1 H2 Hl -> -> HU Hb Hnb
    |before m l1 lm l2 U1 Um U2 Hp Ht H1 Hm Hne Hlz H2 Hl -> -> HU HU' Hb Hnb].
  - apply (place_gap P n k _ _ _ (x :: l1) l2 U1 U2); rewrite ?ES; try done.
    + destruct (index_of es k); [done|]. by rewrite split_prev_cons, Hp.
    + cbn; by constructor.
    + cbn [take]. intros [m Hm]; apply Hl; exists m.
      destruct (take (index_of es k) es); [done|by rewrite last_cons_cons in Hm].
    + by constructor.
  - apply (place_tree P n k _ _ _ (ELeaf x :: before) m (x :: l1) lm l2 U1 Um U2);
      rewrite ?ES; try done.
    + destruct (index_of es k); [done|]. by rewrite split_prev_cons, Hp.
    + cbn; by rewrite Ht.
    + by constructor.
    + intros [m' Hm']; apply Hl; exists m'. destruct before; [done|by rewrite last_cons_cons in Hm'].
    + by constructor.
Qed.

Lemma place_in m es l1 l2 U1 U2 :
  index_of es k = 0 -> P m l1 U1 -> l1 <> [] -> Forall (fun x => lz x < n) l1 ->
  es_rep P n es l2 U2 -> U1 ## U2 -> Forall (fun x => ~ str_lt (key x) k) l2 ->
  place P n k (ETree m :: es) (l1 ++ l2) (U1 ∪ U2).
Proof.
  intros E0 Hm Hne Hlz He Hd Hl.
  assert (index_of (ETree m :: es) k = 1) as ES by (cbn; by rewrite E0).
  apply (place_tree P n k _ _ _ [] m [] l1 l2 ∅ U1 U2); rewrite ?ES; cbn.
  all: first [done|by constructor|by intros [? ?]|set_solver].
Qed.

Lemma place_past m es l1 l2 U1 U2 i :
  index_of es k = S i -> P m l1 U1 -> l1 <> [] -> Forall (fun x => lz x < n) l1 ->
  all_below k l1 -> U1 ## U2 -> alt (ETree m :: es) ->
  place P n k es l2 U2 -> place P n k (ETree m :: es) (l1 ++ l2) (U1 ∪ U2).
Proof.
  intros Ei Hm Hne Hlz Hb1 Hd Ha.
  assert (index_of (ETree m :: es) k = S (S i)) as ES by (cbn; by rewrite Ei).
  destruct 1 as [l3 l4 U3 U4 Hp H1 H2 Hl -> -> HU Hb Hnb
    |before m' l3 lm l4 U3 Um U4 Hp Ht H1 Hm' Hne' Hlz' H2 Hl -> -> HU HU' Hb Hnb]; rewrite Ei in *.
  - apply (place_gap P n k _ _ _ (l1 ++ l3) l4 (U1 ∪ U3) U4); rewrite ?ES; try done.
    + by rewrite split_prev_cons, Hp.
    + cbn [take]; constructor; [done..|set_solver].
    + intros [m' Hm']; apply Hl; exists m'. destruct es; [done|]. cbn [take] in *.
      by rewrite last_cons_cons in Hm'.
    + by rewrite app_assoc.
    + by rewrite union_assoc_L.
    + set_solver.
    + by apply all_below_app.
  - apply (place_tree P n k _ _ _ (ETree m :: before) m' (l1 ++ l3) lm l4 (U1 ∪ U3) Um U4);
      rewrite ?ES; try done.
    + by rewrite split_prev_cons, Hp.
    + cbn [take app]; by rewrite <- Ht.
    + constructor; [done..|set_solver].
    + intros [m'' Hm'']. destruct before as [|e before].
      * destruct es as [|e es]; [done|]; cbn in Ht. by injection Ht as -> _.
      * apply Hl; rewrite last_cons_cons in Hm''; eauto.
    + by rewrite <- app_assoc.
    + set_solver.
    + set_solver.
    + set_solver.
    + by apply all_below_app.
Qed.

Lemma locate es l U : es_rep P n es l U -> sorted l -> alt es -> place P n k es l U.
Proof.
  induction 1 as [|x es l U Hx He IH|m es l1 l2 U1 U2 Hm Hne Hlz He IH Hd]; intros Hs Ha.
  - apply place_start; [done|constructor|constructor].
  - pose proof (StronglySorted_inv Hs) as [Hs' Hx'].
    destruct (str_leb k (key x)) eqn:E; [|by apply place_leaf; auto].
    apply place_start; [cbn; by rewrite E|by constructor|].
    apply not_below_of_sorted; [by apply str_leb_spec|done].
  - apply sorted_app in Hs as (Hs1 & Hs2 & Hs12).
    assert (alt es) as Ha' by (by destruct es as [|[?|?] ?]).
    specialize (IH Hs2 Ha').
    destruct (index_of es k) as [|i] eqn:Ei.
    + apply place_in; try done.
      destruct es as [|[y|?] es]; [inversion He; constructor| |done].
      inversion He as [|? ? l' ? ? ?|]; subst. cbn in Ei.
      destruct (str_leb k (key y)) eqn:E; [|done].
      apply not_below_of_sorted; [by apply str_leb_spec|by apply (StronglySorted_inv Hs2)].
    + apply (place_past m es l1 l2 U1 U2 i); try done.
      destruct es as [|[y|?] es]; [done| |done].
      inversion He as [|? ? l' ? ? ?|]; subst. cbn in Ei.
      destruct (str_leb k (key y)) eqn:E; [done|]. apply str_leb_false in E.
      apply Forall_forall; intros z Hz.
      apply (str_lt_trans _ (key y)); [|done]. apply Hs12; set_solver.
Qed.

End Place.

End Shape.
