(* ===== verification/MstRead.v ===== *)
(** * MstRead: reading the tree

    That reading a stored node gives back the entries it was made from, that a
    node knows its layer, and that [get_in], [collect_leaves] and [root_in]
    answer from the leaves a tree stands for. Each is an induction on the layer,
    the number of levels left. *)

From S2P Require Import Prelude Syntax Block Mst MstLogic MstShape.
From Stdlib Require Import Lia.

(* ------------------------------------------------------------------ *)
(** ** Keys are ASCII *)

Lemma ascii_utf8 s : Forall (fun b => 0 <= b <= 127)%Z s -> from_utf8 s = true.
Proof.
  induction 1 as [|b s Hb Hs IH]; [done|]; cbn [from_utf8].
  by rewrite (proj2 (between_spec 0 b 127) Hb).
Qed.

Lemma one_of_range s lo hi b :
  forallb (fun x => between lo x hi) (lit s) = true -> one_of s b = true -> (lo <= b <= hi)%Z.
Proof.
  unfold one_of; rewrite forallb_forall; intros Hs (x & Hx & ->%Z.eqb_eq)%existsb_exists.
  by apply between_spec, Hs.
Qed.

Lemma alphanumeric_range b : is_ascii_alphanumeric b = true -> (48 <= b <= 122)%Z.
Proof.
  unfold is_ascii_alphanumeric, is_ascii_alphabetic, is_ascii_digit, is_ascii_lowercase,
    is_ascii_uppercase; rewrite !orb_true_iff, !between_spec; lia.
Qed.

Lemma valid_key_ascii k : valid_key k = true -> Forall (fun b => 0 <= b <= 127)%Z k.
Proof.
  unfold valid_key; destruct (split_on 47 k) as [|c [|r [|? ?]]]; try done.
  intros Hk; bool_prop. apply forallb_True in H0.
  eapply Forall_impl; [exact H0|]; cbv beta; intros b Hb.
  apply orb_true_iff in Hb as [Hb|Hb]; [apply Z.eqb_eq in Hb; lia|].
  unfold is_key_byte in Hb; apply orb_true_iff in Hb as [Hb|Hb].
  - apply alphanumeric_range in Hb; lia.
  - apply (one_of_range _ 0 127) in Hb; [lia|done].
Qed.

Lemma ensure_valid k : valid_key k = true -> ensure_valid_key k = Ok tt.
Proof. unfold ensure_valid_key; by intros ->. Qed.

(** ** Prefix compression *)

Lemma shared_prefix_le a b : shared_prefix a b <= length a.
Proof.
  revert b; induction a as [|x a IH]; intros [|y b]; cbn; try lia.
  destruct (x =? y)%Z; [specialize (IH b)|]; lia.
Qed.

Lemma shared_prefix_take a b : take (shared_prefix a b) a ++ drop (shared_prefix a b) b = b.
Proof.
  revert b; induction a as [|x a IH]; intros [|y b]; cbn; try done.
  destruct (Z.eqb_spec x y) as [->|?]; cbn; [by rewrite IH|done].
Qed.

Lemma ascii_get_to s i :
  Forall (fun b => 0 <= b <= 127)%Z s -> i <= length s -> str_get_to s i = Some (take i s).
Proof.
  intros Hs Hi; unfold str_get_to; rewrite decide_True by done.
  unfold is_char_boundary; case_decide as Hb; [done|].
  destruct (s !! i) as [b|] eqn:E.
  - rewrite Forall_forall in Hs; specialize (Hs b (list_elem_of_lookup_2 _ _ _ E)).
    unfold is_continuation, between. by rewrite (proj2 (Z.leb_gt 128 b)) by lia.
  - apply lookup_ge_None in E; lia.
Qed.

Section Read.
Context `{Sha256} `{!Codec NodeData} `{!CodecOk NodeData} (st : Store).

(* ------------------------------------------------------------------ *)
(** ** Reading a stored node *)

(** The entry a run of leaves is read as, before anything under it is. *)
Definition run_entry (n : nat) (under : option nat) (s : list Leaf) : list Entry :=
  match child_cid n s with Some c => [ETree (MkMst None under (Some c))] | None => [] end.

Definition run_entries (n : nat) (under : option nat) (rest : list (Leaf * list Leaf))
  : list Entry :=
  concat (map (fun xs => ELeaf (fst xs) :: run_entry n under (snd xs)) rest).

Lemma deserialize_compress n under last rest :
  Forall (fun b => 0 <= b <= 127)%Z last ->
  Forall (fun xs => valid_key (key (fst xs)) = true) rest ->
  deserialize_entries under last (compress (child_cid n) last rest) = Ok (run_entries n under rest).
Proof.
  revert last; induction rest as [|[x s] rest IH]; intros last Hlast Hrest; [done|].
  inversion Hrest as [|? ? Hx Hrest']; subst; cbn [fst] in Hx.
  cbn [compress deserialize_entries te_k te_p te_v te_t].
  pose proof (valid_key_ascii _ Hx) as Hax.
  rewrite (ascii_utf8 (drop _ (key x))) by (by apply Forall_drop); cbn [negb].
  rewrite ascii_get_to by (done || apply shared_prefix_le).
  rewrite shared_prefix_take, (ensure_valid _ Hx); cbn [mbind result_bind].
  rewrite IH by done; cbn [mbind result_bind].
  unfold run_entries; cbn [map concat fst snd app]; unfold run_entry.
  destruct x, (child_cid n s); reflexivity.
Qed.

(** The nodes under a run, and their being stored. *)
Definition run_cids (n : nat) (s : list Leaf) : list Cid :=
  match n, s with S n, _ :: _ => tree_cids n s | _, _ => [] end.
Definition run_stored (n : nat) (s : list Leaf) : Prop :=
  match n, s with S n, _ :: _ => stored st n s | _, _ => True end.

Lemma tree_cids_unfold n l :
  tree_cids n l = cid_of n l :: concat (map (run_cids n) (runs n l)).
Proof.
  destruct n; cbn [tree_cids].
  - f_equal; induction (runs 0 l); [done|]; by cbn.
  - do 2 f_equal; apply map_ext; by intros [].
Qed.

Lemma stored_unfold n l :
  stored st n l <->
  store_get st (cid_of n l) = Ok (dag_cbor (node_of n l)) /\ Forall (run_stored n) (runs n l).
Proof.
  destruct n; cbn [stored].
  - split; intros [? _]; (split; [done|]); [|done]. by apply Forall_forall.
  - split; intros [? Hf]; (split; [done|]); (eapply Forall_impl; [exact Hf|]); intros [|x s]; cbn;
      try naive_solver.
Qed.

(** What [segs] cuts a list into. *)
Lemma segs_spec n l s rest :
  segs n l = (s, rest) ->
  l = s ++ concat (map (fun xs => fst xs :: snd xs) rest)
  /\ Forall (fun x => lz x <> n) s
  /\ Forall (fun xs => lz (fst xs) = n /\ Forall (fun x => lz x <> n) (snd xs)) rest.
Proof.
  revert s rest; induction l as [|x l IH]; intros s rest; cbn [segs].
  - by intros [= <- <-].
  - destruct (segs n l) as [s' rest'] eqn:E; destruct (IH _ _ eq_refl) as (-> & Hs & Hr).
    destruct (Nat.eqb_spec (lz x) n); intros [= <- <-].
    + split; [done|]. split; [done|]. by constructor.
    + split; [done|]. split; [by constructor|done].
Qed.

Lemma run_rep n under s :
  under = None \/ under = Some (n - 1) ->
  Forall (fun x => lz x < n) s -> run_stored n s -> NoDup (run_cids n s) ->
  es_rep (sub_rep st n) n (run_entry n under s) s (list_to_set (run_cids n s)).
Proof.
  intros Hu Hlz Hst Hnd; destruct s as [|x s]; [destruct n; constructor|].
  destruct n as [|n]; [inversion Hlz; lia|]. cbn [run_entry child_cid run_cids].
  apply es_rep_tree; [|done..]. apply rep_unfold; cbn.
  split; [by replace (S n - 1) with n in Hu by lia|]. split; [by intros c [= <-]|]. done.
Qed.

Lemma runs_rep n under rest :
  under = None \/ under = Some (n - 1) ->
  Forall (fun xs => lz (fst xs) = n /\ Forall (fun x => lz x < n) (snd xs)) rest ->
  Forall (run_stored n) (map snd rest) -> NoDup (concat (map (run_cids n) (map snd rest))) ->
  es_rep (sub_rep st n) n (run_entries n under rest)
    (concat (map (fun xs => fst xs :: snd xs) rest))
    (list_to_set (concat (map (run_cids n) (map snd rest)))).
Proof.
  intros Hu; induction 1 as [|[x s] rest [Hx Hs] Hrest IH]; cbn [map concat fst snd]; intros Hst Hnd.
  - constructor.
  - inversion Hst; subst. apply NoDup_app in Hnd as (Hn1 & Hn12 & Hn2).
    unfold run_entries; cbn [map concat fst snd app]. constructor; [done|].
    rewrite list_to_set_app_L. apply es_rep_app; [by apply run_rep|by apply IH|].
    set_solver.
Qed.

Lemma alt_run_entries n under rest :
  alt (run_entries n under rest) /\ ~ (exists m, head (run_entries n under rest) = Some (ETree m)).
Proof.
  induction rest as [|[x s] rest [IH IHh]]; [split; [done|by intros [? ?]]|].
  change (run_entries n under ((x, s) :: rest))
    with (ELeaf x :: run_entry n under s ++ run_entries n under rest).
  split; [|by intros [? ?]]. cbn [alt]; unfold run_entry.
  destruct (child_cid n s); cbn [app]; [|done].
  destruct (run_entries n under rest) as [|[y|m] es]; [done..|]. destruct IHh; by exists m.
Qed.

(** A node read back is the entries the list of leaves is made of. *)
Lemma read_node n l :
  good n l -> stored st n l -> NoDup (tree_cids n l) ->
  exists es,
    deserialize (node_of n l) ((fun e => leading_zeros (te_k e)) <$> head (nd_e (node_of n l))) = Ok es
    /\ alt es
    /\ es_rep (sub_rep st n) n es l (list_to_set (concat (map (run_cids n) (runs n l)))).
Proof.
  intros [_ Hf] [_ Hst]%stored_unfold Hnd; rewrite tree_cids_unfold in Hnd.
  apply NoDup_cons in Hnd as [_ Hnd].
  rewrite node_of_unfold; cbn [nd_e]; unfold runs in *.
  destruct (segs n l) as [s rest] eqn:E; cbn [fst snd map concat] in *.
  destruct (segs_spec _ _ _ _ E) as (-> & Hs & Hr).
  apply Forall_app in Hf as [Hf1 Hf2]. apply Forall_cons in Hst as [Hst1 Hst2].
  apply NoDup_app in Hnd as (Hn1 & Hn12 & Hn2).
  assert (Forall (fun x => lz x < n) s) as Hs'.
  { rewrite Forall_forall in *; intros x Hx; specialize (Hs x Hx); specialize (Hf1 x Hx). lia. }
  assert (Forall (fun xs => valid_key (key (fst xs)) = true
    /\ lz (fst xs) = n /\ Forall (fun x => lz x < n) (snd xs)) rest) as Hr'.
  { clear -Hf2 Hr; induction Hr as [|[x t] rest [Hx Ht] Hr IH]; [done|]; cbn in *.
    inversion Hf2 as [|? ? [Hv _] Hf2']; subst. apply Forall_app in Hf2' as [Hf3 Hf4].
    constructor; [|by apply IH]. split; [done|split; [done|]].
    cbn; rewrite Forall_forall in *; intros y Hy; specialize (Ht y Hy); specialize (Hf3 y Hy). lia. }
  set (lay := (fun e => leading_zeros (te_k e)) <$> _).
  set (under := match lay with Some (S n') => Some n' | _ => None end).
  assert (under = None \/ under = Some (n - 1)) as Hu.
  { subst under lay. destruct rest as [|[x t] rest]; [by left|].
    inversion Hr' as [|? ? (_ & Hx & _) _]; cbn [fst] in Hx; rewrite <- Hx.
    change ((fun e => leading_zeros (te_k e)) <$> _) with (Some (lz x)).
    destruct (lz x); [by left|right; f_equal; lia]. }
  exists (run_entry n under s ++ run_entries n under rest).
  assert (deserialize (MkNodeData (child_cid n s) (compress (child_cid n) [] rest)) lay
    = Ok (run_entry n under s ++ run_entries n under rest)) as ->.
  { unfold deserialize; cbn [nd_l nd_e]; fold under.
    rewrite deserialize_compress; [|done|eapply Forall_impl; [exact Hr'|]; by intros ? [? _]].
    cbn; unfold run_entry; by destruct (child_cid n s). }
  split; [done|]. split.
  - destruct (alt_run_entries n under rest) as [Ha Hh].
    unfold run_entry; destruct (child_cid n s); [|done].
    cbn; destruct (run_entries n under rest) as [|[?|?] ?]; [done..|]. destruct Hh; eauto.
  - rewrite list_to_set_app_L; apply es_rep_app; [by apply run_rep| |set_solver].
    apply runs_rep; [done| |done|done]. eapply Forall_impl; [exact Hr'|]. by intros ? (_ & ? & ?).
Qed.

(* ------------------------------------------------------------------ *)
(** ** Filling a node in *)

Lemma node_triple n l :
  stored st n l -> NoDup (tree_cids n l) ->
  triple (list_to_set (tree_cids n l)) (node st (cid_of n l))
    (fun data U' => data = node_of n l /\ U' = list_to_set (concat (map (run_cids n) (runs n l)))).
Proof.
  intros [Hget _]%stored_unfold Hnd seen Hd; rewrite tree_cids_unfold in *.
  apply NoDup_cons in Hnd as [Hni Hnd]; rewrite list_to_set_cons in *.
  assert (cid_of n l ∉ seen) as Hns by (clear -Hd; set_solver).
  assert (cid_of n l ∉ (list_to_set (concat (map (run_cids n) (runs n l))) : gset Cid)) as Hnc
    by (by rewrite elem_of_list_to_set).
  exists (node_of n l), ({[cid_of n l]} ∪ seen), (list_to_set (concat (map (run_cids n) (runs n l)))).
  unfold node; rewrite decide_False by done.
  unfold read; rewrite Hget; cbn [mbind result_bind]; rewrite decode_ok.
  split; [done|]. clear -Hd Hns Hnc.
  revert Hd Hnc; generalize (list_to_set (concat (map (run_cids n) (runs n l))) : gset Cid).
  intros C Hd Hnc; split_and!; [set_solver..|done|done].
Qed.

Lemma get_entries_spec n m l U :
  rep st n m l U -> good n l ->
  triple U (get_entries st m) (fun '(m', es) U' =>
    m' = MkMst (Some es) (layer m) (pointer m) /\ alt es /\ es_rep (sub_rep st n) n es l U').
Proof.
  intros Hrep Hg; apply rep_unfold in Hrep as (Hlay & Hptr & Hes).
  destruct m as [[es|] lay ptr]; cbn in Hlay, Hptr, Hes; unfold get_entries, fill.
  - eapply triple_bind; [apply (triple_ret _ _ (fun m' U' => m' = MkMst (Some es) lay ptr /\ U' = U)); done|].
    intros ? ? [-> ->] _; apply triple_ret; cbn. by destruct Hes.
  - destruct Hes as (-> & Hst & Hnd & ->).
    destruct (read_node n l Hg Hst Hnd) as (es & Hd & Ha & He).
    eapply triple_bind; [eapply triple_bind; [by apply node_triple|]|].
    { intros ? ? [-> ->] _; eapply triple_bind; [eapply triple_lift; [exact Hd|]|].
      - instantiate (1 := fun es' U' => es' = es /\ U' = list_to_set (concat (map (run_cids n) (runs n l)))).
        done.
      - intros ? ? [-> ->] _; apply triple_ret.
        instantiate (1 := fun m' U' => m' = MkMst (Some es) lay (Some (cid_of n l))
          /\ U' = list_to_set (concat (map (run_cids n) (runs n l)))). done. }
    intros ? ? [-> ->] _; apply triple_ret; cbn. done.
Qed.

(* ------------------------------------------------------------------ *)
(** ** What is found at an index *)

Lemma lookup_head_drop {A} (es : list A) i : es !! i = head (drop i es).
Proof. revert i; induction es as [|e es IH]; intros [|i]; cbn; try done; apply IH. Qed.

Lemma all_above_sorted k x l : ~ str_lt (key x) k -> key x <> k -> sorted (x :: l) -> all_above k (x :: l).
Proof.
  intros Hx Hne [Hs Hl]%StronglySorted_inv.
  assert (str_lt k (key x)) as Hk by (destruct (str_lt_total (key x) k) as [?|[?|?]]; done).
  constructor; [done|]. eapply Forall_impl; [exact Hl|]. intros y Hy; eapply str_lt_trans; eauto.
Qed.

Lemma leaf_at_None P n es l2 U2 k :
  leaf_at es (index_of es k) k = None ->
  es_rep P n (drop (index_of es k) es) l2 U2 -> sorted l2 ->
  Forall (fun x => ~ str_lt (key x) k) l2 -> all_above k l2.
Proof.
  unfold leaf_at; rewrite lookup_head_drop; pose proof (drop_index_head es k) as Hh.
  intros Hat He Hs Hnb; destruct He as [|x es' l U Hx He|]; [constructor| |].
  - cbn in Hat; case_decide; [done|].
    inversion Hnb; subst; by apply all_above_sorted.
  - destruct Hh; cbn; eauto.
Qed.

Lemma leaf_at_Some P n es l2 U2 k x :
  leaf_at es (index_of es k) k = Some x ->
  es_rep P n (drop (index_of es k) es) l2 U2 -> sorted l2 ->
  key x = k /\ lz x = n /\ exists l2', l2 = x :: l2' /\ all_above k l2'
    /\ drop (index_of es k) es = ELeaf x :: drop (S (index_of es k)) es
    /\ es_rep P n (drop (S (index_of es k)) es) l2' U2.
Proof.
  unfold leaf_at; rewrite lookup_head_drop; pose proof (drop_index_head es k) as Hh.
  intros Hat He Hs.
  assert (drop (S (index_of es k)) es = tail (drop (index_of es k) es)) as Ht.
  { clear; generalize (index_of es k) as i. induction es as [|e es IH]; intros [|i]; cbn; try done.
    all: by rewrite <- IH. }
  rewrite Ht; destruct He as [|y es' l U Hy He|]; [done| |destruct Hh; cbn; eauto].
  cbn in Hat; case_decide as Hk; [|done]; injection Hat as ->.
  split; [done|]. split; [done|]. exists l; split_and!; try done.
  subst k; apply StronglySorted_inv in Hs as [_ Hs]. exact Hs.
Qed.

(** A subtree put back where one was, or a gap filled. *)
Lemma es_rep_plug P n before m after l1 lm l2 U1 Um U2 :
  es_rep P n before l1 U1 -> P m lm Um -> lm <> [] -> Forall (fun x => lz x < n) lm ->
  es_rep P n after l2 U2 -> Um ## U1 ∪ U2 -> U1 ## U2 ->
  es_rep P n (before ++ ETree m :: after) (l1 ++ lm ++ l2) (Um ∪ (U1 ∪ U2)).
Proof.
  intros H1 Hm Hne Hlz H2 Hd Hd'. replace (Um ∪ (U1 ∪ U2)) with (U1 ∪ (Um ∪ U2)) by set_solver.
  apply es_rep_app; [done|constructor; [done..|set_solver]|set_solver].
Qed.

Lemma alt_plug before m m' after :
  alt (before ++ ETree m :: after) -> alt (before ++ ETree m' :: after).
Proof.
  rewrite !alt_app; intros (H1 & H2 & H3); split; [done|]. split.
  - destruct after as [|[?|?] ?]; done.
  - intros (a & b & Ha & Hb); apply H3; eauto.
Qed.

Lemma split_prev_es es k before m :
  take (index_of es k) es = before ++ [ETree m] ->
  es = before ++ ETree m :: drop (index_of es k) es.
Proof.
  intros Ht; rewrite <- (take_drop (index_of es k) es) at 1.
  by rewrite Ht, <- app_assoc.
Qed.

(* ------------------------------------------------------------------ *)
(** ** A node knows its layer *)

Lemma leaf_layer_Some P n es l U j : es_rep P n es l U -> leaf_layer es = Some j -> j = n.
Proof.
  induction 1 as [|x es l U Hx He IH|]; cbn; [done| |done]. by intros [= <-].
Qed.

Lemma leaf_layer_None es : alt es -> leaf_layer es = None -> es = [] \/ exists m, es = [ETree m].
Proof.
  destruct es as [|[x|m] es]; cbn; [by left|done|].
  destruct es as [|[y|m'] es]; cbn; [right; eauto|done|done].
Qed.

Lemma es_rep_single P n m l U :
  es_rep P n [ETree m] l U -> P m l U /\ l <> [] /\ Forall (fun x => lz x < n) l.
Proof.
  intros He; inversion He as [|? ? ? ? ? ?|? ? l1 l2 U1 U2 Hm Hne Hlz He' Hd]; subst.
  inversion He'; subst. by rewrite app_nil_r, union_empty_r_L.
Qed.

Lemma find_layer_spec n : forall room m l U,
  rep st n m l U -> good n l -> n < room -> l <> [] ->
  triple U (find_layer st room m) (fun '(m', found) U' =>
    found = Some n /\ layer m' = Some n /\ rep st n m' l U').
Proof.
  induction n as [|n IH]; intros room m l U Hrep Hg Hroom Hne;
    (destruct room as [|room]; [lia|]; cbn [find_layer]);
    pose proof Hrep as (Hlay & Hptr & _)%rep_unfold;
    (destruct (layer m) as [j|] eqn:El;
     [destruct Hlay as [?|[= ->]]; [done|]; by apply triple_ret|]);
    (eapply triple_bind; [by apply get_entries_spec|]);
    intros [m' es] U' (-> & Ha & He) _; cbn [pointer layer];
    (destruct (leaf_layer es) as [j|] eqn:Ej;
     [rewrite (leaf_layer_Some _ _ _ _ _ _ He Ej); apply triple_ret;
      (split; [done|split; [done|]]); by apply rep_entries; [right|..]|]);
    (destruct (leaf_layer_None es Ha Ej) as [->|[t ->]];
     [by inversion He; subst|]);
    apply es_rep_single in He as (Ht & _ & Hlz); [done|].
  apply (triple_bind _ _ _ (fun '(es, found) W => found = Some (S n)
    /\ exists t', es = [ETree t'] /\ rep st n t' l W)).
  - cbn [layer_under]. eapply triple_bind.
    + apply IH; [exact Ht|by apply good_lower|lia|done].
    + intros [t' found] U'' (-> & _ & Ht') _. apply triple_ret. eauto.
  - intros [es found] W (-> & t' & -> & Ht') _; apply triple_ret.
    split; [done|split; [done|]]. apply rep_entries; [by right|done|done|].
    by apply es_rep_tree.
Qed.

Lemma get_layer_spec n room m l U :
  rep st n m l U -> good n l -> n < room -> (l = [] -> layer m = Some n \/ n = 0) ->
  triple U (get_layer st room m) (fun '(m', lay) U' =>
    lay = n /\ layer m' = Some n /\ rep st n m' l U').
Proof.
  intros Hrep Hg Hroom Hl; unfold get_layer.
  destruct (decide (l = [])) as [->|Hne].
  - pose proof Hrep as (Hlay & Hptr & Hm)%rep_unfold.
    destruct room as [|room]; [lia|]; cbn [find_layer].
    destruct (layer m) as [j|] eqn:El.
    + destruct Hlay as [?|[= ->]]; [done|].
      eapply triple_bind; [apply triple_ret with (Q := fun a W => a = (m, Some n) /\ W = U); done|].
      intros ? ? [-> ->] _; apply triple_ret; cbn [default from_option id].
      split; [done|split; [done|]]. destruct m as [es lay ptr]; cbn in *; by subst.
    + destruct (Hl eq_refl) as [?| ->]; [done|].
      eapply triple_bind; [eapply triple_bind; [by apply get_entries_spec|]|].
      { intros [m' es] U' (-> & Ha & He) _. apply (es_rep_nil_iff _ _ _ _ _) in He as Hn.
        rewrite (proj2 Hn) in * by done; cbn [leaf_layer layer_under].
        eapply triple_bind; [apply triple_ret with (Q := fun a W => a = ([], None) /\ W = U'); done|].
        intros ? ? [-> ->] _; apply triple_ret.
        instantiate (1 := fun a W => a = (MkMst (Some []) None (pointer m), None)
          /\ es_rep (sub_rep st 0) 0 [] [] W). done. }
      intros ? W [-> He] _; apply triple_ret; cbn [default from_option id entries pointer layer]. split; [done|split; [done|]].
      by apply rep_entries; [right|..].
  - eapply triple_bind; [by apply (find_layer_spec n room m l U)|].
    intros [m' found] U' (-> & El & Hr) _; apply triple_ret; cbn [default from_option id].
    split; [done|split; [done|]]. destruct m' as [es lay ptr]; cbn in *; by subst.
Qed.

(* ------------------------------------------------------------------ *)
(** ** Looking a key up *)

(** The part of a sorted run before a leaf is below its key. *)
Lemma all_below_sorted l x l' : sorted (l ++ x :: l') -> all_below (key x) l.
Proof.
  intros (_ & _ & Hs)%sorted_app; apply Forall_forall; intros y Hy. apply Hs; set_solver.
Qed.

Lemma find_leaf_mid l1 x l2 : all_below (key x) l1 -> find_leaf (key x) (l1 ++ x :: l2) = Some (value x).
Proof. intros; leaf_simpl; apply find_head. Qed.

(** Two pieces of an intermediate result that every descent goes through. *)
Ltac place_cases Hg He Ha k :=
  pose proof (proj1 Hg) as Hsorted;
  destruct (locate _ _ k _ _ _ He Hsorted Ha)
    as [l1 l2 U1 U2 Hp H1 H2 Hlast -> -> HU Hb Hnb
       |before t l1 lm l2 U1 Um U2 Hp Ht H1 Hm Hne Hlz H2 Hlast -> -> HU HU' Hb Hnb].

Lemma get_in_spec n : forall room m l U k,
  rep st n m l U -> good n l -> n < room ->
  triple U (get_in st room m k) (fun '(m', found) U' =>
    found = find_leaf k l /\ rep st n m' l U' /\ layer m' = layer m).
Proof.
  induction n as [|n IH]; intros room m l U k Hrep Hg Hroom;
    (destruct room as [|room]; [lia|]; cbn [get_in]);
    pose proof Hrep as (Hlay & Hptr & _)%rep_unfold;
    (eapply triple_bind; [by apply get_entries_spec|]);
    intros [m' es] U' (-> & Ha & He) _; cbn [pointer layer];
    pose proof He as He0; place_cases Hg He Ha k;
    pose proof Hg as (Hg1 & Hg2 & _)%good_app; rewrite ?Hp.
  - pose proof (proj1 Hg2) as Hs2; destruct (leaf_at es _ k) as [x|] eqn:Eat.
    + destruct (leaf_at_Some _ _ _ _ _ _ _ Eat H2 Hs2) as (<- & _ & l2' & -> & _).
      apply triple_ret; rewrite find_leaf_mid by done. split_and!; [done|by apply rep_entries|done].
    + pose proof (leaf_at_None _ _ _ _ _ _ Eat H2 Hs2 Hnb).
      apply triple_ret; leaf_simpl. split_and!; [done|by apply rep_entries|done].
  - done.
  - pose proof (proj1 Hg2) as Hs2; destruct (leaf_at es _ k) as [x|] eqn:Eat.
    + destruct (leaf_at_Some _ _ _ _ _ _ _ Eat H2 Hs2) as (<- & _ & l2' & -> & _).
      apply triple_ret; rewrite find_leaf_mid by done. split_and!; [done|by apply rep_entries|done].
    + pose proof (leaf_at_None _ _ _ _ _ _ Eat H2 Hs2 Hnb).
      apply triple_ret; leaf_simpl. split_and!; [done|by apply rep_entries|done].
  - apply good_app in Hg2 as (Hgm & Hg2 & _); pose proof (proj1 Hg2) as Hs2.
    destruct (leaf_at es _ k) as [x|] eqn:Eat.
    + destruct (leaf_at_Some _ _ _ _ _ _ _ Eat H2 Hs2) as (<- & _ & l2' & -> & _).
      apply triple_ret; split_and!; [|by apply rep_entries|done].
      rewrite app_assoc in Hsorted |- *. symmetry; apply find_leaf_mid; by eapply all_below_sorted.
    + pose proof (leaf_at_None _ _ _ _ _ _ Eat H2 Hs2 Hnb).
      eapply triple_bind; [apply triple_frame; [done|apply IH; [done|by apply good_lower|lia]]|].
      intros [t' found] W (Um' & -> & Hd & Hsub & -> & Ht' & _) _; apply triple_ret.
      split_and!; [leaf_simpl; by destruct (find_leaf k lm)| |done].
      apply rep_entries; [done..| |by apply es_rep_plug].
      apply (alt_plug _ t); by rewrite <- (split_prev_es es k before t Ht).
Qed.

(* ------------------------------------------------------------------ *)
(** ** Walking every leaf *)

Lemma leaves_of_spec n room es l U :
  (forall m l U, sub_rep st n m l U -> good (n - 1) l ->
    triple U (collect_leaves st room m) (fun '(m', found) U' => found = l /\ sub_rep st n m' l U')) ->
  es_rep (sub_rep st n) n es l U -> good n l ->
  triple U (leaves_of (collect_leaves st room) es) (fun '(es', found) U' =>
    found = l /\ es_rep (sub_rep st n) n es' l U' /\ (alt es -> alt es') /\ map is_tree es' = map is_tree es).
Proof.
  intros Hsub; induction 1 as [|x es l U Hx He IH|m es l1 l2 U1 U2 Hm Hne Hlz He IH Hd]; intros Hg;
    cbn [leaves_of].
  - apply triple_ret; split_and!; try done; constructor.
  - apply (good_app n [x]) in Hg as (_ & Hg & _).
    eapply triple_bind; [by apply IH|]. intros [es' found] U' (-> & He' & Ha & Hs) _.
    apply triple_ret; split_and!; [done|by constructor|done|cbn; by rewrite Hs].
  - apply good_app in Hg as (Hg1 & Hg2 & _).
    destruct n as [|n]; [destruct Hm|].
    eapply triple_bind; [apply triple_frame; [done|apply Hsub; [done|]]|].
    { by apply good_pred. }
    intros [m' found] W (U1' & -> & Hd' & HU1 & -> & Hm') _.
    replace (U1' ∪ U2) with (U2 ∪ U1') by set_solver.
    eapply triple_bind; [apply triple_frame; [set_solver|by apply IH]|].
    intros [es' found] W (U2' & -> & Hd'' & HU2 & -> & He' & Ha & Hs) _.
    apply triple_ret; split_and!; [done| | |cbn; by rewrite Hs].
    + replace (U2' ∪ U1') with (U1' ∪ U2') by set_solver. constructor; [done..|set_solver].
    + destruct es as [|[?|?] ?], es' as [|[?|?] ?]; cbn in *; try done; naive_solver.
Qed.

Lemma collect_leaves_spec n : forall room m l U,
  rep st n m l U -> good n l -> n < room ->
  triple U (collect_leaves st room m) (fun '(m', found) U' => found = l /\ rep st n m' l U' /\ layer m' = layer m).
Proof.
  induction n as [|n IH]; intros room m l U Hrep Hg Hroom;
    (destruct room as [|room]; [lia|]; cbn [collect_leaves]);
    pose proof Hrep as (Hlay & Hptr & _)%rep_unfold;
    (eapply triple_bind; [by apply get_entries_spec|]);
    intros [m' es] U' (-> & Ha & He) _; cbn [pointer layer];
    (eapply triple_bind; [eapply leaves_of_spec; [|exact He|done]|];
     [|intros [es' found] W (-> & He' & Ha' & _) _; apply triple_ret; split_and!; [done| |done];
       apply rep_entries; auto]).
  - done.
  - intros m' l' U'' Hm Hg'; cbn [sub_rep] in *.
    eapply triple_conseq; [apply IH; [done|by replace (S n - 1) with n in Hg' by lia|lia]|].
    by intros [? ?] W (-> & ? & _) _.
Qed.

(* ------------------------------------------------------------------ *)
(** ** Hashing *)

Lemma segs_lower n l1 l2 :
  Forall (fun x => lz x < n) l1 -> segs n (l1 ++ l2) = (l1 ++ fst (segs n l2), snd (segs n l2)).
Proof.
  induction 1 as [|x l1 Hx Hl IH]; cbn [app segs]; [by destruct (segs n l2)|].
  rewrite IH. destruct (Nat.eqb_spec (lz x) n); [lia|done].
Qed.

Lemma segs_leaf n x l : lz x = n -> segs n (x :: l) = ([], (x, fst (segs n l)) :: snd (segs n l)).
Proof. intros Hx; cbn [segs]; destruct (segs n l). by rewrite (proj2 (Nat.eqb_eq _ _) Hx). Qed.

(** What a run of leaves no layer below is cut into. *)
Lemma segs_run n l : Forall (fun x => lz x < n) l -> segs n l = (l, []).
Proof. intros Hl; rewrite <- (app_nil_r l), segs_lower by done. done. Qed.

Definition hashes (n : nat) (root : Mst -> M (Mst * Cid)) : Prop :=
  forall m l U, sub_rep st n m l U -> good (n - 1) l -> l <> [] ->
  triple U (root m) (fun '(m', c) U' => child_cid n l = Some c /\ sub_rep st n m' l U').

(** A subtree's CID, settled in place. *)
Lemma hash_subtree n root m l1 U1 U2 :
  hashes n root -> sub_rep st n m l1 U1 -> l1 <> [] -> Forall (fun x => lz x < n) l1 ->
  good n l1 -> U1 ## U2 ->
  triple (U1 ∪ U2) (root m) (fun '(m', c) W => child_cid n l1 = Some c
    /\ exists U1', W = U2 ∪ U1' /\ U1' ## U2 /\ sub_rep st n m' l1 U1').
Proof.
  intros Hroot Hm Hne Hlz Hg Hd; destruct n as [|n]; [destruct Hm|].
  eapply triple_conseq; [apply triple_frame; [done|apply Hroot; [done| |done]]|].
  - by apply good_pred.
  - intros [m' c] W (U1' & -> & Hd' & HU1 & Hc & Hm') _; split; [done|].
    exists U1'; split; [set_solver|done].
Qed.

Lemma serialize_entries_spec n root es l U :
  hashes n root -> es_rep (sub_rep st n) n es l U -> good n l -> alt es ->
  ~ (exists m, head es = Some (ETree m)) ->
  forall last, triple U (serialize_entries root last es) (fun '(es', data) U' =>
    data = compress (child_cid n) last (snd (segs n l)) /\ fst (segs n l) = []
    /\ es_rep (sub_rep st n) n es' l U' /\ alt es' /\ ~ (exists m, head es' = Some (ETree m))).
Proof.
  intros Hroot He; remember (length es) as len eqn:Elen; revert es l U He Elen.
  induction (lt_wf len) as [len _ IH]; intros es l U He -> Hg Ha Hh last.
  destruct He as [|x es l U Hx He|]; [apply triple_ret; split_and!; [done..|constructor|done|done]| |
    destruct Hh; cbn; eauto].
  pose proof Hg as [_ Hgf]; inversion Hgf as [|? ? [Hv _] _]; subst.
  apply (good_app _ [x]) in Hg as (_ & Hg & _).
  rewrite segs_leaf by done; cbn [fst snd compress serialize_entries].
  destruct He as [|y es l U Hy He|m es l1 l2 U1 U2 Hm Hne Hlz He Hd].
  - eapply triple_bind; [eapply (triple_lift _ _ _ (fun _ W => W = ∅)); [by apply ensure_valid|done]|].
    intros _ ? -> _; eapply triple_bind; [apply (triple_ret _ _ (fun a W => a = ([], []) /\ W = ∅)); done|].
    intros ? ? [-> ->] _; apply triple_ret; split_and!; try done.
    by repeat constructor.
  - eapply triple_bind; [eapply (triple_lift _ _ _ (fun _ W => W = U)); [by apply ensure_valid|done]|].
    intros _ ? -> _; eapply triple_bind.
    { apply (IH (length (ELeaf y :: es))); [cbn; lia|by constructor|done|done|done|by intros [? ?]]. }
    intros [es' data] U' (-> & Hs & He' & Ha' & Hh') _; apply triple_ret.
    rewrite Hs; split_and!; try done.
    by constructor.
  - apply good_app in Hg as (Hg1 & Hg2 & _).
    eapply triple_bind; [by apply (hash_subtree (lz x))|].
    intros [m' c] W (Hc & U1' & -> & Hd' & Hm') _.
    eapply triple_bind; [eapply (triple_lift _ _ _ (fun _ W => W = U2 ∪ U1')); [by apply ensure_valid|done]|].
    intros _ ? -> _.
    assert (~ (exists m, head es = Some (ETree m))) as Hh'.
    { intros [m'' Hm'']. destruct es as [|[?|?] ?]; done. }
    eapply triple_bind; [apply triple_frame; [set_solver|apply (IH (length es));
      [cbn; lia|done|done|done|by destruct es as [|[?|?] ?]|done]]|].
    intros [es' data] W (U2' & -> & Hd'' & _ & -> & Hs & He' & Ha' & Hh'') _; apply triple_ret.
    rewrite segs_lower by done; cbn [fst snd]. rewrite Hs, app_nil_r, Hc.
    split_and!; try done.
    + constructor; [done|]. replace (U2' ∪ U1') with (U1' ∪ U2') by set_solver.
      constructor; [done..|set_solver].
    + cbn. destruct es' as [|[?|?] ?]; try done. by destruct Hh''; eexists.
Qed.

Lemma serialize_spec n root es l U :
  hashes n root -> es_rep (sub_rep st n) n es l U -> good n l -> alt es ->
  triple U (serialize root es) (fun '(es', data) U' =>
    data = node_of n l /\ es_rep (sub_rep st n) n es' l U' /\ alt es').
Proof.
  intros Hroot He Hg Ha; rewrite node_of_unfold.
  assert ((exists m, head es = Some (ETree m)) \/ ~ (exists m, head es = Some (ETree m))) as [Hh|Hh].
  { destruct es as [|[x|m] es]; [right; by intros [? ?]|right; by intros [? ?]|left; by eexists]. }
  - destruct Hh as [m Hm]; destruct es as [|e es]; [done|]; injection Hm as ->.
    inversion He as [|? ? ? ? ? ?|? ? l1 l2 U1 U2 Hm Hne Hlz He' Hd]; subst.
    apply good_app in Hg as (Hg1 & Hg2 & _); cbn [serialize].
    eapply triple_bind; [by apply (hash_subtree n)|].
    intros [m' c] W (Hc & U1' & -> & Hd' & Hm') _.
    assert (~ (exists m, head es = Some (ETree m))) as Hh'.
    { intros [m'' Hm'']. destruct es as [|[?|?] ?]; done. }
    eapply triple_bind; [apply triple_frame; [set_solver|apply (serialize_entries_spec n);
      [done|done|done|by destruct es as [|[?|?] ?]|done]]|].
    intros [es' data] W (U2' & -> & Hd'' & _ & -> & Hs & He'' & Ha' & Hh'') _; apply triple_ret.
    rewrite segs_lower by done; cbn [fst snd]. rewrite Hs, app_nil_r, Hc.
    split_and!; [done| |].
    + replace (U2' ∪ U1') with (U1' ∪ U2') by set_solver. constructor; [done..|set_solver].
    + destruct es' as [|[?|?] ?]; try done. by destruct Hh''; eexists.
  - assert (serialize root es = ('(es, data) ← serialize_entries root [] es;
      mret (es, MkNodeData None data))) as ->.
    { destruct es as [|[x|m] es]; [done..|]. destruct Hh; by eexists. }
    eapply triple_bind; [by apply (serialize_entries_spec n)|].
    intros [es' data] W (-> & Hs & He' & Ha' & _) _; apply triple_ret. by rewrite Hs.
Qed.

Lemma root_in_step n room m l U :
  hashes n (root_in st room) -> rep st n m l U -> good n l ->
  triple U (root_in st (S room) m) (fun '(m', c) U' =>
    c = cid_of n l /\ rep st n m' l U' /\ layer m' = layer m /\ pointer m' = Some c).
Proof.
  intros Hroot Hrep Hg; cbn [root_in].
  pose proof Hrep as (Hlay & Hptr & _)%rep_unfold.
  destruct (pointer m) as [c|] eqn:Ep.
  { pose proof (Hptr c eq_refl); subst c; by apply triple_ret. }
  eapply triple_bind; [by apply get_entries_spec|].
  intros [m' es] U' (-> & Ha & He) _; cbn [layer].
  eapply triple_bind; [by eapply serialize_spec|].
  intros [es' data] W (-> & He' & Ha') _.
  eapply triple_bind; [eapply (triple_lift _ _ _ (fun b V => b = dag_cbor (node_of n l) /\ V = W));
    [apply encode_ok|done]|].
  intros ? ? [-> ->] _; apply triple_ret; split_and!; try done.
  apply rep_entries; [done|by intros c [= <-]|done|done].
Qed.

Lemma root_in_spec n : forall room m l U,
  rep st n m l U -> good n l -> n < room ->
  triple U (root_in st room m) (fun '(m', c) U' =>
    c = cid_of n l /\ rep st n m' l U' /\ layer m' = layer m /\ pointer m' = Some c).
Proof.
  induction n as [|n IH]; intros [|room] m l U Hrep Hg Hroom; try lia;
    apply root_in_step; try done; intros m' l' U'' Hm Hg' Hne; [destruct Hm|]; cbn [sub_rep] in *.
  eapply triple_conseq; [apply (IH room m' l' U'' Hm); [by replace (S n - 1) with n in Hg' by lia|lia]|].
  intros [m'' c] W (-> & Hr & _) _; split; [|done]. by destruct l'.
Qed.

Lemma root_in_hashes n room : n <= room -> hashes n (root_in st room).
Proof.
  intros Hroom m l U Hm Hg Hne; destruct n as [|n]; [destruct Hm|]; cbn [sub_rep] in *.
  eapply triple_conseq; [apply (root_in_spec n); [done|by replace (S n - 1) with n in Hg by lia|lia]|].
  intros [m' c] W (-> & Hr & _) _; split; [|done]. by destruct l.
Qed.

End Read.
