(* ===== verification/MstWrite.v ===== *)
(** * MstWrite: writing to the tree

    That [update_in], [split_around], [insert], [append_merge],
    [delete_recurse] and [trim_top] do to a tree what [put] and [remove] do to
    its list of leaves, and what each answers for a key that is, or is not,
    there. *)

From S2P Require Import Prelude Syntax Block Mst MstLogic MstShape MstRead.
From Stdlib Require Import Lia.

(* ------------------------------------------------------------------ *)
(** ** The list operations around a key *)

Lemma put_mid k v l1 lm l2 :
  all_below k l1 -> all_above k l2 -> put k v (l1 ++ lm ++ l2) = l1 ++ put k v lm ++ l2.
Proof. intros; unfold put; leaf_simpl. by rewrite <- !app_assoc. Qed.

Lemma remove_mid k l1 lm l2 :
  all_below k l1 -> all_above k l2 -> remove k (l1 ++ lm ++ l2) = l1 ++ remove k lm ++ l2.
Proof. intros; unfold remove; leaf_simpl. by rewrite <- !app_assoc. Qed.

Lemma put_gap k v l1 l2 :
  all_below k l1 -> all_above k l2 -> put k v (l1 ++ l2) = l1 ++ MkLeaf k v :: l2.
Proof. intros; unfold put; by leaf_simpl. Qed.

Lemma put_found k v v' l1 l2 :
  all_below k l1 -> all_above k l2 -> put k v (l1 ++ MkLeaf k v' :: l2) = l1 ++ MkLeaf k v :: l2.
Proof. intros; unfold put; by leaf_simpl. Qed.

Lemma remove_found k v l1 l2 :
  all_below k l1 -> all_above k l2 -> remove k (l1 ++ MkLeaf k v :: l2) = l1 ++ l2.
Proof. intros; unfold remove; by leaf_simpl. Qed.

Lemma put_nonempty k v l : put k v l <> [].
Proof. unfold put; by intros [_ ?]%app_eq_nil. Qed.

Lemma find_leaf_lower `{Sha256} n k l :
  Forall (fun x => lz x < n) l -> n <= leading_zeros k -> find_leaf k l = None.
Proof.
  intros Hl Hn; apply find_leaf_None; eapply Forall_impl; [exact Hl|].
  cbv beta; intros x Hx <-. unfold lz in Hx; lia.
Qed.

Lemma find_leaf_at k v l1 l2 :
  all_below k l1 -> find_leaf k (l1 ++ MkLeaf k v :: l2) = Some v.
Proof. intros; leaf_simpl; exact (find_head (MkLeaf k v) l2). Qed.

Lemma find_leaf_elem k l v : find_leaf k l = Some v -> MkLeaf k v ∈ l.
Proof.
  induction l as [|[k' v'] l IH]; cbn; [done|]. case_decide as Hk; [|set_solver].
  intros [= ->]; cbn in Hk; subst; set_solver.
Qed.

Lemma find_leaf_lz `{Sha256} (P : nat -> Prop) k l :
  Forall (fun x => P (lz x)) l -> find_leaf k l <> None -> P (leading_zeros k).
Proof.
  intros Hl Hf; destruct (find_leaf k l) as [v|] eqn:E; [|done].
  apply find_leaf_elem in E; rewrite Forall_forall in Hl. exact (Hl _ E).
Qed.

Section Write.
Context `{Sha256} `{!Codec NodeData} `{!CodecOk NodeData} (st : Store).

(** ** Where a key is, or would go *)

Lemma found_at n es l U k x :
  es_rep (sub_rep st n) n es l U -> good n l -> leaf_at es (index_of es k) k = Some x ->
  exists v la lb Ua Ub, x = MkLeaf k v /\ lz x = n /\ l = la ++ MkLeaf k v :: lb
    /\ U = Ua ∪ Ub /\ Ua ## Ub /\ all_below k la /\ all_above k lb
    /\ es = take (index_of es k) es ++ ELeaf (MkLeaf k v) :: drop (S (index_of es k)) es
    /\ es_rep (sub_rep st n) n (take (index_of es k) es) la Ua
    /\ es_rep (sub_rep st n) n (drop (S (index_of es k)) es) lb Ub.
Proof.
  intros He [Hs _] Hat; rewrite <- (take_drop (index_of es k) es) in He.
  apply es_rep_app_inv in He as (la & l2 & Ua & Ub & -> & -> & Hd & Ha & Hb).
  pose proof Hs as (_ & Hs2 & _)%sorted_app.
  destruct (leaf_at_Some _ _ _ _ _ _ _ Hat Hb Hs2) as (<- & Hn & lb & -> & Hab & Hdrop & Hb').
  exists (value x), la, lb, Ua, Ub; destruct x as [k v]; cbn [key value] in *.
  split_and!; try done; [by eapply (all_below_sorted la (MkLeaf k v))|].
  rewrite <- (take_drop (index_of es k) es) at 1. by rewrite Hdrop.
Qed.

Inductive absent (n : nat) (k : bytes) (es : list Entry) (l : list Leaf) (U : gset Cid) : Prop :=
| absent_gap l1 l2 U1 U2 :
    split_prev es (index_of es k) = None ->
    es_rep (sub_rep st n) n (take (index_of es k) es) l1 U1 ->
    es_rep (sub_rep st n) n (drop (index_of es k) es) l2 U2 ->
    ~ (exists m, last (take (index_of es k) es) = Some (ETree m)) ->
    l = l1 ++ l2 -> U = U1 ∪ U2 -> U1 ## U2 -> all_below k l1 -> all_above k l2 ->
    good n l1 -> good n l2 -> find_leaf k l = None ->
    absent n k es l U
| absent_tree n' before m l1 lm l2 U1 Um U2 :
    split_prev es (index_of es k) = Some (before, m) ->
    es = before ++ ETree m :: drop (index_of es k) es -> n = S n' ->
    es_rep (sub_rep st n) n before l1 U1 ->
    rep st n' m lm Um -> lm <> [] -> Forall (fun x => lz x < n) lm ->
    es_rep (sub_rep st n) n (drop (index_of es k) es) l2 U2 ->
    ~ (exists m, last before = Some (ETree m)) ->
    l = l1 ++ lm ++ l2 -> U = Um ∪ (U1 ∪ U2) -> Um ## U1 ∪ U2 -> U1 ## U2 ->
    all_below k l1 -> all_above k l2 -> good n l1 -> good n' lm -> good n l2 ->
    find_leaf k l = find_leaf k lm ->
    absent n k es l U.

Lemma absent_at n es l U k :
  es_rep (sub_rep st n) n es l U -> good n l -> alt es ->
  leaf_at es (index_of es k) k = None -> absent n k es l U.
Proof.
  intros He Hg Ha Hat; pose proof (proj1 Hg) as Hs.
  destruct (locate _ _ k _ _ _ He Hs Ha)
    as [l1 l2 U1 U2 Hp H1 H2 Hlast -> -> HU Hb Hnb
       |before t l1 lm l2 U1 Um U2 Hp Ht H1 Hm Hne Hlz H2 Hlast -> -> HU HU' Hb Hnb].
  - apply good_app in Hg as (Hg1 & Hg2 & _).
    pose proof (leaf_at_None _ _ _ _ _ _ Hat H2 (proj1 Hg2) Hnb).
    eapply absent_gap; eauto. by leaf_simpl.
  - apply good_app in Hg as (Hg1 & (Hgm & Hg2 & _)%good_app & _).
    pose proof (leaf_at_None _ _ _ _ _ _ Hat H2 (proj1 Hg2) Hnb).
    destruct n as [|n]; [destruct Hm|].
    eapply (absent_tree _ _ _ _ _ n before t l1 lm l2 U1 Um U2); eauto.
    + by apply split_prev_es.
    + by apply good_lower.
    + leaf_simpl. by destruct (find_leaf k lm).
Qed.

(** The sides of a gap no subtree stands before or after. *)
Lemma alt_sides es k :
  alt es -> alt (take (index_of es k) es) /\ alt (drop (index_of es k) es)
            /\ ~ (exists m, head (drop (index_of es k) es) = Some (ETree m)).
Proof.
  intros Ha; rewrite <- (take_drop (index_of es k) es) in Ha.
  apply alt_app in Ha as (? & ? & _); split_and!; [done..|apply drop_index_head].
Qed.

Lemma alt_leaf_between es1 x es2 : alt es1 -> alt es2 -> alt (es1 ++ ELeaf x :: es2).
Proof. intros H1 H2; apply alt_app; split_and!; [done..|]. by intros (? & ? & _ & ?). Qed.

(* ------------------------------------------------------------------ *)
(** ** Updating *)

Lemma update_in_spec n : forall room m l U k v,
  rep st n m l U -> good n l -> n < room -> valid_key k = true -> find_leaf k l <> None ->
  triple U (update_in st room m k v) (fun m' U' => rep st n m' (put k v l) U').
Proof.
  induction n as [n IH] using lt_wf_ind; intros [|room] m l U k v Hrep Hg Hroom Hk Hin; [lia|].
  cbn [update_in]; pose proof Hrep as (Hlay & _ & _)%rep_unfold.
  eapply triple_bind; [eapply (triple_lift _ _ _ (fun _ W => W = U)); [by apply ensure_valid|done]|].
  intros _ ? -> _; eapply triple_bind; [by apply get_entries_spec|].
  intros [m' es] U' (-> & Ha & He) _; cbn [layer].
  destruct (leaf_at es (index_of es k) k) as [x|] eqn:Eat.
  - destruct (found_at _ _ _ _ _ _ He Hg Eat)
      as (v0 & la & lb & Ua & Ub & -> & Hn & -> & -> & Hd & Hb & Hab & Hes & Hla & Hlb).
    apply triple_ret; rewrite put_found by done; cbn [key].
    assert (<[index_of es k:=ELeaf (MkLeaf k v)]> es
      = take (index_of es k) es ++ ELeaf (MkLeaf k v) :: drop (S (index_of es k)) es) as ->.
    { rewrite insert_take_drop; [done|]. apply lookup_lt_is_Some.
      unfold leaf_at in Eat. destruct (es !! index_of es k) as [[?|?]|]; done. }
    rewrite Hes in Ha; apply alt_app in Ha as (Ha1 & Ha2 & _).
    apply rep_entries; [done|done|by apply alt_leaf_between|].
    apply es_rep_app; [done|by constructor|done].
  - destruct (absent_at _ _ _ _ _ He Hg Ha Eat)
      as [|n' before t l1 lm l2 U1 Um U2 Hp Hes -> H1 Hm Hne Hlz H2 Hlast -> -> HU HU' Hb Hab Hg1 Hgm Hg2 Hf];
      [done|]. rewrite Hp.
    eapply triple_bind; [apply triple_frame; [done|apply (IH n'); [lia|done|done|lia|done|congruence]]|].
    intros t' W (Um' & -> & Hd & Hsub & Ht') _; apply triple_ret; rewrite put_mid by done.
    apply rep_entries; [done|done| |].
    + apply (alt_plug _ t); by rewrite <- Hes.
    + apply es_rep_plug; try done; [apply put_nonempty|].
      apply Forall_put; [done|]. apply (find_leaf_lz (fun j => j < S n') k lm); [done|congruence].
Qed.

(** A key that is not there is refused. *)
Lemma update_in_missing n : forall room m l U k v,
  rep st n m l U -> good n l -> n < room -> valid_key k = true -> find_leaf k l = None ->
  fails U (update_in st room m k v) (KeyMissing k).
Proof.
  induction n as [n IH] using lt_wf_ind; intros [|room] m l U k v Hrep Hg Hroom Hk Hin; [lia|].
  cbn [update_in].
  eapply fails_after; [eapply (triple_lift _ _ _ (fun _ W => W = U)); [by apply ensure_valid|done]|].
  intros _ ? -> _; eapply fails_after; [by apply get_entries_spec|].
  intros [m' es] U' (-> & Ha & He) _.
  destruct (leaf_at es (index_of es k) k) as [x|] eqn:Eat.
  - destruct (found_at _ _ _ _ _ _ He Hg Eat)
      as (v0 & la & lb & Ua & Ub & -> & _ & -> & _ & _ & Hb & _).
    exfalso; revert Hin; by rewrite find_leaf_at.
  - destruct (absent_at _ _ _ _ _ He Hg Ha Eat)
      as [? ? ? ? Hp|n' before t l1 lm l2 U1 Um U2 Hp Hes -> H1 Hm Hne Hlz H2 Hlast -> -> HU HU' Hb Hab Hg1 Hgm Hg2 Hf];
      rewrite Hp; [apply fails_throw|].
    apply fails_here, (fails_subset Um); [set_solver|].
    eapply (IH n'); [lia|exact Hm|done|lia|done|congruence].
Qed.

(* ------------------------------------------------------------------ *)
(** ** Splitting *)

(** A half of a split: nothing, or a tree of layer [n] over some leaves. *)
Definition half_rep (n : nat) (lay : option nat) (h : option Mst) (l : list Leaf) (U : gset Cid) : Prop :=
  match h with
  | None => l = [] /\ U = ∅
  | Some m => l <> [] /\ rep st n m l U /\ layer m = lay
  end.

Lemma half_rep_entries n lay es l U :
  lay = None \/ lay = Some n -> alt es -> es_rep (sub_rep st n) n es l U ->
  half_rep n lay (half es lay) l U.
Proof.
  intros Hlay Ha He; destruct es as [|e es].
  - by inversion He.
  - cbn [half half_rep]; split_and!; [|by apply rep_entries|done].
    intros ->; apply es_rep_nil_iff in He as [_ Hn]. by specialize (Hn eq_refl).
Qed.

(** A half laid among the entries of the node above. *)
Lemma es_rep_half n lay h l U :
  half_rep n lay h l U -> Forall (fun x => lz x < S n) l ->
  es_rep (sub_rep st (S n)) (S n) (tree_entry h) l U.
Proof.
  destruct h as [m|]; cbn; [intros (? & ? & _) ?; by apply es_rep_tree|].
  intros [-> ->] _; constructor.
Qed.

Lemma alt_half_below before h :
  alt before -> ~ (exists m, last before = Some (ETree m)) -> alt (before ++ tree_entry h).
Proof.
  intros Ha Hl; apply alt_app; split_and!; [done|by destruct h|].
  intros (a & b & Hla & _); eauto.
Qed.

Lemma alt_half_above h after :
  alt after -> ~ (exists m, head after = Some (ETree m)) -> alt (tree_entry h ++ after).
Proof.
  intros Ha Hl; apply alt_app; split_and!; [by destruct h|done|].
  intros (a & b & _ & Hhb); eauto.
Qed.

Lemma Forall_below (P : Leaf -> Prop) k l : Forall P l -> Forall P (below k l).
Proof. rewrite !Forall_forall; intros Hl x [? _]%below_spec; auto. Qed.
Lemma Forall_above (P : Leaf -> Prop) k l : Forall P l -> Forall P (above k l).
Proof. rewrite !Forall_forall; intros Hl x [? _]%above_spec; auto. Qed.

Lemma split_around_spec n : forall room m l U k,
  rep st n m l U -> good n l -> n < room -> find_leaf k l = None ->
  triple U (split_around st room m k) (fun '(a, b) U' => exists Ua Ub,
    U' = Ua ∪ Ub /\ Ua ## Ub
    /\ half_rep n (layer m) a (below k l) Ua /\ half_rep n (layer m) b (above k l) Ub).
Proof.
  induction n as [n IH] using lt_wf_ind; intros [|room] m l U k Hrep Hg Hroom Hin; [lia|].
  cbn [split_around]; pose proof Hrep as (Hlay & _ & _)%rep_unfold.
  eapply triple_bind; [by apply get_entries_spec|].
  intros [m' es] U' (-> & Ha & He) _; cbn [layer].
  destruct (alt_sides es k Ha) as (Ha1 & Ha2 & Hh2).
  destruct (leaf_at es (index_of es k) k) as [x|] eqn:Eat.
  { destruct (found_at _ _ _ _ _ _ He Hg Eat)
      as (v0 & la & lb & Ua & Ub & -> & _ & -> & _ & _ & Hb & _).
    exfalso; revert Hin; by rewrite find_leaf_at. }
  destruct (absent_at _ _ _ _ _ He Hg Ha Eat)
    as [l1 l2 U1 U2 Hp H1 H2 Hlast -> -> HU Hb Hab _ _ _
       |n' before t l1 lm l2 U1 Um U2 Hp Hes -> H1 Hm Hne Hlz H2 Hlast -> -> HU HU' Hb Hab Hg1 Hgm Hg2 Hf];
    rewrite Hp.
  - apply triple_ret; exists U1, U2; leaf_simpl.
    split_and!; [done..| |]; by apply half_rep_entries.
  - eapply triple_bind; [apply triple_frame; [done|apply (IH n'); [lia|done|done|lia|congruence]]|].
    intros [a b] W (Um' & -> & Hd & Hsub & Ua & Ub & -> & Hab' & Hra & Hrb) _.
    apply triple_ret; exists (U1 ∪ Ua), (Ub ∪ U2); leaf_simpl.
    assert (alt before) as Hab0 by (rewrite Hes in Ha; by apply alt_app in Ha as (? & _)).
    split_and!; [set_solver|set_solver| |].
    + apply half_rep_entries; [done|by apply alt_half_below|].
      apply es_rep_app; [done| |set_solver]. eapply es_rep_half; [done|by apply Forall_below].
    + apply half_rep_entries; [done|by apply alt_half_above|].
      apply es_rep_app; [|done|set_solver]. eapply es_rep_half; [done|by apply Forall_above].
Qed.

(* ------------------------------------------------------------------ *)
(** ** Inserting *)

Lemma parent_spec n h l U :
  half_rep n (Some n) h l U -> Forall (fun x => lz x <= n) l ->
  exists h', transpose (into_parent <$> h) = Ok h' /\ half_rep (S n) (Some (S n)) h' l U.
Proof.
  destruct h as [m|]; cbn; [|by exists None].
  intros (Hne & Hm & Hlay) Hl; unfold into_parent; rewrite Hlay; cbn.
  eexists; split; [done|]. split_and!; [done| |done].
  apply (rep_entries st (S n)); [by right|done|done|].
  apply es_rep_tree; [done|done|]. eapply Forall_impl; [exact Hl|]. cbv beta; lia.
Qed.

Lemma raise_spec j : forall n a b la lb Ua Ub,
  half_rep n (Some n) a la Ua -> half_rep n (Some n) b lb Ub ->
  Forall (fun x => lz x <= n) la -> Forall (fun x => lz x <= n) lb ->
  exists a' b', raise j a b = Ok (a', b')
    /\ half_rep (n + j) (Some (n + j)) a' la Ua /\ half_rep (n + j) (Some (n + j)) b' lb Ub.
Proof.
  induction j as [|j IH]; intros n a b la lb Ua Ub Ha Hb Hla Hlb; cbn [raise].
  - rewrite Nat.add_0_r; eauto.
  - destruct (parent_spec _ _ _ _ Ha Hla) as (a' & -> & Ha').
    destruct (parent_spec _ _ _ _ Hb Hlb) as (b' & -> & Hb').
    cbn [mbind result_bind]. replace (n + S j) with (S n + j) by lia.
    apply IH; try done; (eapply Forall_impl; [eassumption|]); cbv beta; lia.
Qed.

(** A leaf laid between the halves of what was cut around it. *)
Lemma es_rep_halves n lay a b la lb Ua Ub x :
  half_rep n lay a la Ua -> half_rep n lay b lb Ub -> Ua ## Ub ->
  Forall (fun x => lz x < S n) la -> Forall (fun x => lz x < S n) lb -> lz x = S n ->
  es_rep (sub_rep st (S n)) (S n) (tree_entry a ++ ELeaf x :: tree_entry b) (la ++ x :: lb) (Ua ∪ Ub).
Proof.
  intros Ha Hb Hd Hla Hlb Hx.
  apply es_rep_app; [by eapply es_rep_half|constructor; [done|by eapply es_rep_half]|done].
Qed.

Lemma alt_halves a x b : alt (tree_entry a ++ ELeaf x :: tree_entry b).
Proof. apply alt_leaf_between; [by destruct a|by destruct b]. Qed.

Lemma good_lz n l : good n l -> Forall (fun x => lz x <= n) l.
Proof. intros [_ Hf]; eapply Forall_impl; [exact Hf|]. by intros x [_ ?]. Qed.

(** A key above every leaf of the tree: the tree becomes its two sides. *)
Lemma insert_above n room m l U k v :
  rep st n m l U -> good n l -> n < room -> layer m = Some n ->
  n < leading_zeros k -> find_leaf k l = None ->
  triple U
    ('(low, high) ← split_around st room m k;
     '(low, high) ← lift (raise (leading_zeros k - n - 1) low high);
     mret (from_entries (tree_entry low ++ ELeaf (MkLeaf k v) :: tree_entry high)
             (Some (leading_zeros k))))
    (fun m' U' => rep st (leading_zeros k) m' (put k v l) U').
Proof.
  intros Hrep Hg Hroom Hlay Hz Hin; pose proof (good_lz _ _ Hg) as Hl.
  eapply triple_bind; [by apply (split_around_spec n)|].
  intros [a b] W (Ua & Ub & -> & Hd & Ha & Hb) _; rewrite Hlay in *.
  destruct (raise_spec (leading_zeros k - n - 1) n a b (below k l) (above k l) Ua Ub)
    as (a' & b' & Hr & Ha' & Hb'); [done|done|by apply Forall_below|by apply Forall_above|].
  eapply triple_bind; [eapply (triple_lift _ _ _ (fun c V => c = (a', b') /\ V = Ua ∪ Ub)); done|].
  intros ? ? [-> ->] _; apply triple_ret.
  destruct (leading_zeros k) as [|z] eqn:Ez; [lia|].
  replace (n + (S z - n - 1)) with z in * by lia.
  apply rep_entries; [by right|done|apply alt_halves|].
  eapply es_rep_halves; [done|done|done| | |exact Ez];
    [apply Forall_below|apply Forall_above]; (eapply Forall_impl; [exact Hl|]); cbv beta; lia.
Qed.

Lemma insert_spec n : forall room m l U k v,
  rep st n m l U -> good n l -> S n < room -> valid_key k = true -> find_leaf k l = None ->
  (l = [] -> layer m = Some n \/ n = 0) ->
  triple U (insert st room m k v (leading_zeros k))
    (fun m' U' => rep st (Nat.max n (leading_zeros k)) m' (put k v l) U').
Proof.
  induction n as [n IH] using lt_wf_ind; intros [|room] m l U k v Hrep Hg Hroom Hk Hin Hl0; [lia|].
  cbn [insert]; eapply triple_bind; [apply (get_layer_spec st n); [done|done|lia|done]|].
  intros [m1 lay] U1 (-> & Hlay & Hrep1) _.
  destruct (Nat.ltb_spec n (leading_zeros k)) as [Hz|Hz].
  { rewrite Nat.max_r by lia; apply (insert_above n); [done|done|lia|done..]. }
  rewrite Nat.max_l by lia.
  eapply triple_bind; [by apply get_entries_spec|].
  intros [m2 es] U2 (-> & Ha & He) _.
  destruct (alt_sides es k Ha) as (Ha1 & Ha2 & Hh2).
  destruct (leaf_at es (index_of es k) k) as [x|] eqn:Eat.
  { destruct (found_at _ _ _ _ _ _ He Hg Eat)
      as (v0 & la & lb & Ua & Ub & -> & _ & -> & _ & _ & Hb & _).
    exfalso; revert Hin; by rewrite find_leaf_at. }
  destruct (absent_at _ _ _ _ _ He Hg Ha Eat)
    as [l1 l2 V1 V2 Hp H1 H2 Hlast -> -> HU Hb Hab Hg1 Hg2 _
       |n' before t l1 lm l2 V1 Um V2 Hp Hes -> H1 Hm Hne Hlz H2 Hlast -> -> HU HU' Hb Hab Hg1 Hgm Hg2 Hf];
    rewrite Hp.
  - rewrite put_gap by done.
    destruct (Nat.ltb_spec (leading_zeros k) n) as [Hz'|Hz'].
    + destruct n as [|n]; [lia|]. replace (S n - 1) with n by lia.
      assert (rep st n (from_entries [] (Some n)) [] ∅) as Hnew.
      { apply rep_entries; [by right|done|done|constructor]. }
      replace (V1 ∪ V2) with (∅ ∪ (V1 ∪ V2)) by set_solver.
      eapply triple_bind; [apply triple_frame; [set_solver|]|].
      { eapply (IH n); [lia|exact Hnew|by split; constructor|lia|done|done|by left]. }
      intros g W (Ug & -> & Hd & _ & Hg') _; apply triple_ret.
      replace (Nat.max n (leading_zeros k)) with n in Hg' by lia.
      apply rep_entries; [by right|done| |].
      * apply alt_app; split_and!; [done| |].
        -- destruct (drop _ es) as [|[?|?] ?]; [done..|]. by destruct Hh2; eexists.
        -- intros (? & ? & ? & _); eauto.
      * change (MkLeaf k v :: l2) with (put k v [] ++ l2).
        apply es_rep_plug; [done|done|apply put_nonempty| |done|set_solver|done].
        apply Forall_put; [constructor|exact Hz'].
    + apply triple_ret; apply rep_entries; [by right|done|by apply alt_leaf_between|].
      apply es_rep_app; [done| |done]. constructor; [unfold lz; cbn; lia|done].
  - rewrite put_mid by done.
    destruct (Nat.ltb_spec (leading_zeros k) (S n')) as [Hz'|Hz'].
    + eapply triple_bind; [apply triple_frame; [done|]|].
      { eapply (IH n'); [lia|exact Hm|done|lia|done|congruence|done]. }
      intros g W (Ug & -> & Hd & _ & Hg') _; apply triple_ret.
      replace (Nat.max n' (leading_zeros k)) with n' in Hg' by lia.
      apply rep_entries; [by right|done| |].
      * apply (alt_plug _ t); by rewrite <- Hes.
      * apply es_rep_plug; [done|done|apply put_nonempty| |done|set_solver|done].
        apply Forall_put; [done|exact Hz'].
    + assert (leading_zeros k = S n') as Ez by lia.
      eapply triple_bind; [apply triple_frame; [done|]|].
      { eapply (split_around_spec n'); [exact Hm|done|lia|congruence]. }
      intros [a b] W (Um' & -> & Hd & Hsub & Ua & Ub & -> & Hab' & Hra & Hrb) _; apply triple_ret.
      assert (alt before) as Hab0 by (rewrite Hes in Ha; by apply alt_app in Ha as (? & _)).
      apply rep_entries; [by right|done| |].
      * change (ELeaf (MkLeaf k v) :: tree_entry b ++ drop (index_of es k) es)
          with ([ELeaf (MkLeaf k v)] ++ tree_entry b ++ drop (index_of es k) es).
        rewrite app_assoc; cbn [app].
        apply alt_leaf_between; [by apply alt_half_below|by apply alt_half_above].
      * replace ((Ua ∪ Ub) ∪ (V1 ∪ V2)) with (V1 ∪ ((Ua ∪ Ub) ∪ V2)) by set_solver.
        apply es_rep_app; [done| |set_solver].
        change (ELeaf (MkLeaf k v) :: tree_entry b ++ drop (index_of es k) es)
          with ((ELeaf (MkLeaf k v) :: tree_entry b) ++ drop (index_of es k) es).
        rewrite app_assoc.
        apply es_rep_app; [|done|set_solver].
        apply (es_rep_halves n' (layer t)); [done|done|done|by apply Forall_below|by apply Forall_above|done].
Qed.

(** A key that is already there is refused, at the layer it sits on. *)
Lemma insert_exists n : forall room m l U k v,
  rep st n m l U -> good n l -> S n < room -> find_leaf k l <> None ->
  fails U (insert st room m k v (leading_zeros k)) (KeyExists k).
Proof.
  induction n as [n IH] using lt_wf_ind; intros [|room] m l U k v Hrep Hg Hroom Hin; [lia|].
  pose proof (find_leaf_lz (fun j => j <= n) k l (good_lz _ _ Hg) Hin) as Hz; cbv beta in Hz.
  cbn [insert]; eapply fails_after.
  { apply (get_layer_spec st n); [done|done|lia|]. intros ->; done. }
  intros [m1 lay] U1 (-> & Hlay & Hrep1) _.
  rewrite (proj2 (Nat.ltb_ge n (leading_zeros k))) by lia.
  eapply fails_after; [by apply get_entries_spec|].
  intros [m2 es] U2 (-> & Ha & He) _.
  destruct (leaf_at es (index_of es k) k) as [x|] eqn:Eat.
  - destruct (found_at _ _ _ _ _ _ He Hg Eat) as (v0 & la & lb & Ua & Ub & -> & Hn & _).
    unfold lz in Hn; cbn [key] in Hn. rewrite Hn, Nat.ltb_irrefl. apply fails_throw.
  - destruct (absent_at _ _ _ _ _ He Hg Ha Eat)
      as [|n' before t l1 lm l2 V1 Um V2 Hp Hes -> H1 Hm Hne Hlz H2 Hlast -> -> HU HU' Hb Hab Hg1 Hgm Hg2 Hf];
      [done|]. rewrite Hp.
    pose proof (find_leaf_lz (fun j => j < S n') k lm Hlz ltac:(congruence)) as Hz'; cbv beta in Hz'.
    rewrite (proj2 (Nat.ltb_lt (leading_zeros k) (S n'))) by lia.
    apply fails_here, (fails_subset Um); [set_solver|].
    eapply (IH n'); [lia|exact Hm|done|lia|congruence].
Qed.

(* ------------------------------------------------------------------ *)
(** ** Deleting *)

Lemma last_split {A} (es : list A) x : last es = Some x -> es = removelast es ++ [x].
Proof.
  intros Hl; destruct es as [|e es]; [done|].
  rewrite (app_removelast_last x) at 1 by done.
  f_equal; f_equal. revert Hl; generalize e. clear e.
  induction es as [|e' es IH]; intros e Hl; [cbn in *; congruence|].
  rewrite last_cons_cons in Hl; cbn [List.last]. by apply IH.
Qed.

(** The case of two subtrees meeting, with the rest of both nodes around. *)
Lemma merge_meet n room lay lefts ta tb rights la lb Ua Ub :
  lay = None \/ lay = Some (S n) ->
  (forall a b la lb Ua Ub, rep st n a la Ua -> rep st n b lb Ub -> la <> [] -> lb <> [] ->
    good n (la ++ lb) -> Ua ## Ub ->
    triple (Ua ∪ Ub) (append_merge st room a b) (fun m' W => rep st n m' (la ++ lb) W)) ->
  es_rep (sub_rep st (S n)) (S n) (lefts ++ [ETree ta]) la Ua ->
  es_rep (sub_rep st (S n)) (S n) (ETree tb :: rights) lb Ub ->
  alt (lefts ++ [ETree ta]) -> alt (ETree tb :: rights) -> good (S n) (la ++ lb) -> Ua ## Ub ->
  triple (Ua ∪ Ub)
    (merged ← append_merge st room ta tb;
     mret (from_entries (lefts ++ ETree merged :: rights) lay))
    (fun m' W => rep st (S n) m' (la ++ lb) W /\ layer m' = lay /\ exists es, entries m' = Some es).
Proof.
  intros Hlay IH Hl Hr Hal Har Hg Hd.
  apply es_rep_app_inv in Hl as (l1 & lt & U1 & Ut & -> & -> & Hd1 & H1 & Ht).
  apply (es_rep_app_inv _ _ [ETree tb]) in Hr as (lt' & l2 & Ut' & U2 & -> & -> & Hd2 & Ht' & H2).
  apply es_rep_single in Ht as (Ht & Hne & Hlz), Ht' as (Ht' & Hne' & Hlz').
  replace ((l1 ++ lt) ++ lt' ++ l2) with (l1 ++ (lt ++ lt') ++ l2) in * by (by rewrite !app_assoc).
  pose proof Hg as (_ & (Hgt & _)%good_app & _)%good_app.
  replace ((U1 ∪ Ut) ∪ (Ut' ∪ U2)) with ((Ut ∪ Ut') ∪ (U1 ∪ U2)) by set_solver.
  assert (Forall (fun x => lz x < S n) (lt ++ lt')) as Hlzt by (by apply Forall_app).
  eapply triple_bind; [apply triple_frame; [set_solver|]|].
  { apply (IH ta tb lt lt' Ut Ut' Ht Ht' Hne Hne'); [by apply good_lower|set_solver]. }
  intros mm W (Um & -> & Hd' & _ & Hm) _; apply triple_ret.
  split_and!; [|done|by eexists]. apply rep_entries; [done|done| |].
  - apply alt_app in Hal as (Hal1 & _ & Hal2). apply alt_app; split_and!; [done| |].
    + by destruct rights as [|[?|?] ?].
    + intros (x & y & Hx & Hy); apply Hal2; by exists x, ta.
  - apply es_rep_plug; try done; [by intros [? _]%app_eq_nil|set_solver].
Qed.

Lemma append_merge_spec n : forall room a b la lb Ua Ub,
  rep st n a la Ua -> rep st n b lb Ub -> la <> [] -> lb <> [] ->
  S n < room -> good n (la ++ lb) -> Ua ## Ub ->
  triple (Ua ∪ Ub) (append_merge st room a b) (fun m' W => rep st n m' (la ++ lb) W).
Proof.
  induction n as [n IH] using lt_wf_ind; intros [|room] a b la lb Ua Ub Ha Hb Hne Hne' Hroom Hg Hd; [lia|].
  cbn [append_merge]; pose proof Hg as (Hga & Hgb & _)%good_app.
  eapply triple_bind; [apply triple_frame; [done|apply (get_layer_spec st n);
    [exact Ha|done|lia|by intros ->]]|].
  intros [a1 lay] W (Ua1 & -> & Hd1 & _ & -> & Hlaya & Ha1) _.
  replace (Ua1 ∪ Ub) with (Ub ∪ Ua1) by set_solver.
  eapply triple_bind; [apply triple_frame; [set_solver|apply (get_layer_spec st n);
    [exact Hb|done|lia|by intros ->]]|].
  intros [b1 lay] W (Ub1 & -> & Hd2 & _ & -> & Hlayb & Hb1) _.
  rewrite decide_False by (intros Hx; by apply Hx).
  replace (Ub1 ∪ Ua1) with (Ua1 ∪ Ub1) by set_solver.
  eapply triple_bind; [apply triple_frame; [set_solver|by apply (get_entries_spec st n)]|].
  intros [a2 lefts] W (Ua2 & -> & Hd3 & _ & -> & Haa & Hea) _.
  replace (Ua2 ∪ Ub1) with (Ub1 ∪ Ua2) by set_solver.
  eapply triple_bind; [apply triple_frame; [set_solver|by apply (get_entries_spec st n)]|].
  intros [b2 rights] W (Ub2 & -> & Hd4 & _ & -> & Hab & Heb) _.
  replace (Ub2 ∪ Ua2) with (Ua2 ∪ Ub2) by set_solver.
  assert (~ (exists x y, last lefts = Some (ETree x) /\ head rights = Some (ETree y)) ->
    triple (Ua2 ∪ Ub2) (mret (from_entries (lefts ++ rights) (Some n)) : M Mst)
      (fun m' W => rep st n m' (la ++ lb) W)) as Hjoin.
  { intros Hno; apply triple_ret; apply rep_entries; [by right|done|by apply alt_app|].
    apply es_rep_app; [done|done|set_solver]. }
  destruct (last lefts) as [[x|ta]|] eqn:El; [apply Hjoin; naive_solver| |apply Hjoin; naive_solver].
  destruct rights as [|[x|tb] rights]; [apply Hjoin; naive_solver|apply Hjoin; naive_solver|].
  clear Hjoin; apply last_split in El.
  destruct n as [|n].
  { rewrite El in Hea; apply es_rep_app_inv in Hea as (? & ? & ? & ? & _ & _ & _ & _ & Ht).
    apply es_rep_single in Ht as (Ht & _); destruct Ht. }
  rewrite El in Hea, Haa.
  eapply triple_conseq; [apply (merge_meet n); [by right| |exact Hea|exact Heb|done|done|done|set_solver]|].
  - intros; apply IH; try done; lia.
  - by intros m' W (Hm & _) _.
Qed.

Lemma remove_nil_find k l : sorted l -> find_leaf k l = None -> remove k l = l.
Proof.
  intros Hs Hf; apply sorted_find_ext; [by apply sorted_remove|done|].
  intros k'; destruct (decide (k = k')) as [<-|Hne]; [by rewrite find_remove|by apply find_remove_ne].
Qed.

(** The last entry before a key is a subtree just where the code sees one. *)
Lemma split_prev_take es i before t :
  split_prev es i = Some (before, t) -> take i es = before ++ [ETree t].
Proof.
  destruct i as [|i]; [done|]; cbn.
  destruct (es !! i) as [[?|?]|] eqn:E; intros Hp; try done. injection Hp as <- <-.
  by apply take_S_r.
Qed.

Lemma index_of_le es k : index_of es k <= length es.
Proof.
  induction es as [|[x|m] es IH]; cbn; [done| |lia]. destruct (str_leb k (key x)); lia.
Qed.

Lemma split_prev_none es i t : i <= length es -> split_prev es i = None -> last (take i es) <> Some (ETree t).
Proof.
  destruct i as [|i]; [done|]; cbn; intros Hi Hp Hl.
  destruct (lookup_lt_is_Some_2 es i) as [e He]; [lia|].
  rewrite He in Hp; rewrite (take_S_r _ _ _ He), last_snoc in Hl. destruct e; congruence.
Qed.

Definition deletes n lay l (m' : Mst) U' : Prop :=
  rep st n m' l U' /\ layer m' = lay /\ exists es, entries m' = Some es.

(** What is left of a node when the leaf at [i] goes. *)
Lemma delete_here n room lay es i la lb Ua Ub :
  lay = None \/ lay = Some n -> S n < S room -> i <= length es ->
  es_rep (sub_rep st n) n (take i es) la Ua ->
  es_rep (sub_rep st n) n (drop (S i) es) lb Ub ->
  alt (take i es) -> alt (drop (S i) es) -> good n (la ++ lb) -> Ua ## Ub ->
  triple (Ua ∪ Ub)
    (match split_prev es i, drop (S i) es with
     | Some (before, ta), ETree tb :: after =>
         merged ← append_merge st room ta tb;
         mret (from_entries (before ++ ETree merged :: after) lay)
     | _, rest => mret (from_entries (take i es ++ rest) lay)
     end)
    (deletes n lay (la ++ lb)).
Proof.
  intros Hlay Hroom Hi Hla Hlb Ha1 Ha2 Hg Hd.
  assert (forall rest, drop (S i) es = rest ->
    (forall t, last (take i es) = Some (ETree t) -> forall y, head rest <> Some (ETree y)) ->
    triple (Ua ∪ Ub) (mret (from_entries (take i es ++ rest) lay) : M Mst) (deletes n lay (la ++ lb)))
    as Hjoin.
  { intros rest <- Hno; apply triple_ret; split_and!; [|done|by eexists].
    apply rep_entries; [done|done|apply alt_app|by apply es_rep_app].
    split_and!; [done..|]. intros (x & y & Hx & Hy); by eapply Hno. }
  destruct (split_prev es i) as [[before ta]|] eqn:Hp.
  - destruct (drop (S i) es) as [|[y|tb] after] eqn:Ed; [by apply Hjoin|by apply Hjoin|].
    clear Hjoin; pose proof (split_prev_take _ _ _ _ Hp) as Ht; rewrite Ht in Hla, Ha1.
    destruct n as [|n].
    { apply (es_rep_app_inv _ _ [ETree tb]) in Hlb as (? & ? & ? & ? & _ & _ & _ & Hx & _).
      apply es_rep_single in Hx as (Hx & _); destruct Hx. }
    apply (merge_meet n); [done| |done..].
    intros; apply (append_merge_spec n); try done; lia.
  - apply Hjoin; [done|]. intros t Hl; by eapply split_prev_none in Hl.
Qed.

Lemma delete_recurse_spec n : forall room m l U k,
  rep st n m l U -> good n l -> S n < room -> find_leaf k l <> None ->
  triple U (delete_recurse st room m k) (deletes n (layer m) (remove k l)).
Proof.
  induction n as [n IH] using lt_wf_ind; intros [|room] m l U k Hrep Hg Hroom Hin; [lia|].
  cbn [delete_recurse]; pose proof Hrep as (Hlay & _ & _)%rep_unfold.
  eapply triple_bind; [by apply get_entries_spec|].
  intros [m' es] U' (-> & Ha & He) _; cbn [layer].
  destruct (leaf_at es (index_of es k) k) as [x|] eqn:Eat.
  - destruct (found_at _ _ _ _ _ _ He Hg Eat)
      as (v0 & la & lb & Ua & Ub & -> & Hn & -> & -> & Hd & Hb & Hab & Hes & Hla & Hlb).
    rewrite remove_found by done.
    apply delete_here; try done; [by apply index_of_le| | |].
    + rewrite Hes in Ha; by apply alt_app in Ha as (? & ? & _).
    + rewrite Hes in Ha; by apply alt_app in Ha as (? & ? & _).
    + apply good_app in Hg as (Hg1 & Hg2 & Hx); apply (good_app n [_]) in Hg2 as (_ & Hg2 & _).
      apply good_app; split_and!; [done..|]. intros; apply Hx; set_solver.
  - destruct (absent_at _ _ _ _ _ He Hg Ha Eat)
      as [|n' before t l1 lm l2 V1 Um V2 Hp Hes -> H1 Hm Hne Hlz H2 Hlast -> -> HU HU' Hb Hab Hg1 Hgm Hg2 Hf];
      [done|]. rewrite Hp, remove_mid by done.
    eapply triple_bind; [apply triple_frame; [done|]|].
    { apply (IH n'); [lia|exact Hm|done|lia|congruence]. }
    intros t' W (Ut & -> & Hd & _ & Ht & Hlt & (es' & Het)) _.
    eapply triple_bind; [apply triple_frame; [done|]|].
    { by apply (get_entries_spec st n' _ _ _ Ht), good_remove. }
    intros [t2 held] W (Uh & -> & Hd' & _ & -> & Hah & Heh) _.
    apply triple_ret; split_and!; [|done|by eexists].
    destruct held as [|e held].
    + inversion Heh as [Hnil| |]; subst; cbn [app].
      replace (∅ ∪ (V1 ∪ V2)) with (V1 ∪ V2) by set_solver.
      apply rep_entries; [done|done| |by apply es_rep_app].
      rewrite Hes in Ha; apply alt_app in Ha as (Ha1 & Ha2 & _).
      apply alt_app; split_and!; [done|by apply (alt_app [ETree t]) in Ha2 as (_ & ? & _)|].
      intros (? & ? & ? & _); eauto.
    + assert (remove k lm <> []) as Hne2 by (intros Hx; by apply (es_rep_nil_iff _ _ _ _ _ Heh) in Hx).
      apply rep_entries; [done|done|apply (alt_plug _ t); by rewrite <- Hes|].
      apply es_rep_plug; [done| |done|by apply Forall_remove|done|done|done].
      apply rep_unfold in Ht as (? & ? & _). by apply rep_entries.
Qed.

(** A key that is not there is refused. *)
Lemma delete_recurse_missing n : forall room m l U k,
  rep st n m l U -> good n l -> n < room -> find_leaf k l = None ->
  fails U (delete_recurse st room m k) (KeyMissing k).
Proof.
  induction n as [n IH] using lt_wf_ind; intros [|room] m l U k Hrep Hg Hroom Hin; [lia|].
  cbn [delete_recurse]; eapply fails_after; [by apply get_entries_spec|].
  intros [m' es] U' (-> & Ha & He) _.
  destruct (leaf_at es (index_of es k) k) as [x|] eqn:Eat.
  - destruct (found_at _ _ _ _ _ _ He Hg Eat) as (v0 & la & lb & Ua & Ub & -> & _ & -> & _ & _ & Hb & _).
    exfalso; revert Hin; by rewrite find_leaf_at.
  - destruct (absent_at _ _ _ _ _ He Hg Ha Eat)
      as [l1 l2 V1 V2 Hp|n' before t l1 lm l2 V1 Um V2 Hp Hes -> H1 Hm Hne Hlz H2 Hlast -> -> HU HU' Hb Hab Hg1 Hgm Hg2 Hf];
      rewrite Hp; [apply fails_throw|].
    apply fails_here, (fails_subset Um); [set_solver|].
    eapply (IH n'); [lia|exact Hm|done|lia|congruence].
Qed.

(* ------------------------------------------------------------------ *)
(** ** Dropping lone pointers at the top *)

Lemma get_entries_fill m seen seen' m' es :
  get_entries st m seen = (seen', Ok (m', es)) ->
  fill st m seen = (seen', Ok m') /\ entries m' = Some es.
Proof.
  assert (forall s f, fill st m seen = (s, Ok f) -> is_Some (entries f)) as Hf.
  { intros s f; destruct m as [[es'|] lay [c|]]; cbn; [intros [= <- <-]; by eexists..| |done].
    unfold mbind, M_bind; destruct (node _ _ _) as [? [data|?]]; [|done].
    unfold lift; destruct (deserialize _ _); [|done]. intros [= <- <-]; by eexists. }
  unfold get_entries, mbind, M_bind; destruct (fill st m seen) as [s [f|e]]; [|done].
  destruct (Hf s f eq_refl) as [es' E]; rewrite E; cbn. intros [= -> -> ->]; done.
Qed.

Lemma es_rep_no_leaf P n es l U :
  es_rep P n es l U -> alt es -> (forall x, x ∈ l -> lz x <> n) -> es = [] \/ exists m, es = [ETree m].
Proof.
  intros He Ha Hl; destruct He as [|x es l U Hx He|m es l1 l2 U1 U2 Hm Hne Hlz He Hd]; [by left| |].
  - exfalso; apply (Hl x); [left|done].
  - right; destruct He as [|x es l U Hx He|]; [by eexists| |done].
    exfalso; apply (Hl x); [set_solver|done].
Qed.

Definition trimmed n l (m' : Mst) U' : Prop :=
  exists n', n' <= n /\ rep st n' m' l U' /\ (l <> [] -> n' = top l) /\ good n' l
    /\ (l = [] -> entries m' = Some []).

Lemma trim_top_spec n : forall room m l U,
  rep st n m l U -> good n l -> n < room -> triple U (trim_top st room m) (trimmed n l).
Proof.
  induction n as [n IH] using lt_wf_ind; intros [|room] m l U Hrep Hg Hroom; [lia|].
  cbn [trim_top]; intros seen Hs.
  pose proof Hrep as (Hlay & Hptr & _)%rep_unfold.
  destruct (get_entries_spec st _ _ _ _ Hrep Hg seen Hs)
    as ([m' es] & seen' & U' & Ec & HU & Hseen & Hd & -> & Ha & He).
  apply get_entries_fill in Ec as [-> Ees]; rewrite Ees; cbn in Ees; clear Ees.
  assert ((exists t, es = [ETree t]) \/ ~ (exists t, es = [ETree t])) as [[t ->]|Hlone].
  { destruct es as [|[?|t] [|? ?]]; [right..|left|right]; [naive_solver..|by eexists|naive_solver]. }
  - apply es_rep_single in He as (Ht & Hne & Hlz).
    destruct n as [|n]; [destruct Ht|]; cbn [sub_rep] in Ht.
    destruct (IH n ltac:(lia) room t l U' Ht ltac:(by apply good_lower) ltac:(lia) seen' Hd)
      as (a & seen2 & U2 & Ec & ? & ? & ? & HQ).
    exists a, seen2, U2; split_and!; [done|set_solver..|done|].
    destruct HQ as (n' & ? & HQ); exists n'; split; [lia|exact HQ].
  - exists (MkMst (Some es) (layer m) (pointer m)), seen', U'; split_and!; try done.
    { destruct es as [|[?|?] [|? ?]]; try done. destruct Hlone; by eexists. }
    exists n; split_and!; [done|by apply rep_entries| |done|].
    + intros Hne; destruct (decide (Exists (fun x => lz x = n) l)) as [(x & Hx & Hn)%Exists_exists|Hno];
        [symmetry; by eapply top_eq|].
      destruct (es_rep_no_leaf _ _ _ _ _ He Ha) as [->|?]; [|by inversion He; subst|done].
      intros x Hx Hn; apply Hno, Exists_exists; eauto.
    + intros ->; apply es_rep_nil_iff in He as [_ He]; cbn. by rewrite He.
Qed.

End Write.
