(* ===== verification/MstStore.v ===== *)
(** * MstStore: writing a tree out, and reading it back

    [unstored_blocks] collects the nodes the store lacks.  A store that has
    what it had before and those blocks holds the whole tree ([stored]), and a
    tree loaded from the root CID alone then stands for the same records.

    The store may already hold part of the tree.  The code skips a subtree
    whose root the store has, so it relies on the store having what is under
    it; [closed_under] says that of the subtrees of one tree. *)

From S2P Require Import Prelude Syntax Block Mst MstLogic MstShape MstRead.

Section Write.
Context `{Sha256} `{!Codec NodeData} `{!CodecOk NodeData}.

(** Every node of the tree with its bytes. *)
Fixpoint tree_blocks (n : nat) (l : list Leaf) : list (Cid * bytes) :=
  (cid_of n l, dag_cbor (node_of n l)) :: match n with
    | O => []
    | S n => concat (map (fun s => match s with [] => [] | _ => tree_blocks n s end) (runs (S n) l))
    end.

(** A store that has what is under each subtree whose root it has. *)
Fixpoint closed_under (st : Store) (n : nat) (l : list Leaf) : Prop :=
  (store_contains st (cid_of n l) = Ok true -> stored st n l)
  /\ match n with
     | O => True
     | S n => Forall (fun s => s = [] \/ closed_under st n s) (runs (S n) l)
     end.

(** The blocks a store answers with. *)
Definition within (blocks : BlockMap.t) (st : Store) : Prop :=
  forall c b, blocks !! c = Some b -> store_get st c = Ok b.
Definition extends (st st' : Store) : Prop :=
  forall c b, store_get st c = Ok b -> store_get st' c = Ok b.

Lemma tree_blocks_cids n l : map fst (tree_blocks n l) = tree_cids n l.
Proof.
  revert l; induction n as [|n IH]; intros l; cbn [tree_blocks tree_cids map fst]; [done|]; f_equal.
  rewrite concat_map, map_map; f_equal; apply map_ext; by intros [].
Qed.

Lemma stored_blocks st n l :
  (forall c b, (c, b) ∈ tree_blocks n l -> store_get st c = Ok b) -> stored st n l.
Proof.
  revert l; induction n as [|n IH]; intros l Hb; cbn [stored].
  - split; [|done]. apply Hb; cbn; left.
  - split; [apply Hb; cbn; left|]. apply Forall_forall; intros s Hs.
    destruct s as [|x s]; [by left|right]; apply IH; intros c b Hin; apply Hb; cbn [tree_blocks].
    right; apply list_elem_of_In, in_concat; eexists; split; [|by apply list_elem_of_In].
    apply in_map_iff; exists (x :: s); split; [done|by apply list_elem_of_In].
Qed.

(** And the other way. *)
Lemma stored_gets st n l c b : stored st n l -> (c, b) ∈ tree_blocks n l -> store_get st c = Ok b.
Proof.
  revert l; induction n as [|n IH]; intros l [Hr Hs]; cbn [tree_blocks]; rewrite elem_of_cons;
    intros [[= -> ->]|Hin]; [done|by apply elem_of_nil in Hin|done|].
  apply list_elem_of_In, in_concat in Hin as (bs & Hbs & Hc); apply in_map_iff in Hbs as (s & <- & Hin).
  rewrite Forall_forall in Hs; destruct (Hs s) as [->|Hst]; [by apply list_elem_of_In|done|].
  destruct s as [|x s]; [done|]. apply (IH (x :: s)); [exact Hst|by apply list_elem_of_In].
Qed.

(** Nodes that do not collide fit in one map. *)
Lemma stored_map n l :
  NoDup (tree_cids n l) -> stored (BlockMap.store (list_to_map (tree_blocks n l))) n l.
Proof.
  intros Hnd; apply stored_blocks; intros c b Hin; cbn; apply blockmap_get_Ok.
  apply elem_of_list_to_map_1; [|done]. by rewrite <- tree_blocks_cids in Hnd.
Qed.

Lemma stored_extends st st' n l : extends st st' -> stored st n l -> stored st' n l.
Proof.
  intros He; revert l; induction n as [|n IH]; intros l; cbn [stored]; intros [Hg Hs];
    (split; [by apply He|]); [done|].
  eapply Forall_impl; [exact Hs|]. intros s [?|?]; [by left|right; by apply IH].
Qed.

Lemma within_new st : within BlockMap.new st.
Proof. intros c b; unfold BlockMap.new; by rewrite lookup_empty. Qed.

Lemma within_add (blocks : BlockMap.t) c b st :
  within blocks st -> store_get st c = Ok b -> within (BlockMap.insert blocks c b) st.
Proof. intros Hw Hc c' b'; unfold BlockMap.insert; rewrite lookup_insert_Some; naive_solver. Qed.

Lemma within_merge (a b : BlockMap.t) st : within a st -> within b st -> within (BlockMap.merge a b) st.
Proof. intros Ha Hb c x; unfold BlockMap.merge; rewrite lookup_union_Some_raw; naive_solver. Qed.

(** Blocks of one store do not overwrite each other. *)
Lemma merge_within (a b : BlockMap.t) st0 st :
  within a st0 -> within b st0 -> within (BlockMap.merge a b) st -> within a st /\ within b st.
Proof.
  intros Ha Hb Hm; unfold BlockMap.merge in Hm; split; intros c x Hx; apply Hm.
  - apply lookup_union_Some_raw; destruct (b !! c) as [y|] eqn:E; [|by right].
    left; rewrite <- E. apply Ha in Hx; pose proof (Hb _ _ E). congruence.
  - apply lookup_union_Some_raw; by left.
Qed.

Context (st : Store) `{!StoreOk st}.

Lemma runs_leaf n x l : lz x = n -> runs n (x :: l) = [] :: runs n l.
Proof. intros Hx; unfold runs; by rewrite segs_leaf. Qed.

Lemma runs_lower n l1 l2 :
  Forall (fun x => lz x < n) l1 -> fst (segs n l2) = [] -> runs n (l1 ++ l2) = l1 :: map snd (snd (segs n l2)).
Proof. intros Hl Hs; unfold runs; rewrite segs_lower by done; cbn. by rewrite Hs, app_nil_r. Qed.

Lemma es_rep_head_leaf P n es l U :
  es_rep P n es l U -> ~ (exists m, head es = Some (ETree m)) -> fst (segs n l) = [].
Proof.
  destruct 1 as [|x es l U Hx He|m es l1 l2 U1 U2]; intros Hh; [done|by rewrite segs_leaf|].
  destruct Hh; by eexists.
Qed.

(** What collecting the blocks of one subtree must do. *)
Definition collects (st0 : Store) (n : nat) (f : Mst -> M (Mst * (Cid * BlockMap.t))) : Prop :=
  forall m l U, sub_rep st n m l U -> good (n - 1) l -> l <> [] ->
  run_stored st0 n l -> (n <> 0 -> closed_under st (n - 1) l) ->
  triple U (f m) (fun '(m', (c, bs)) U' => sub_rep st n m' l U' /\ within bs st0
    /\ forall st', extends st st' -> within bs st' -> run_stored st' n l).

Lemma unstored_of_spec st0 n f es l U :
  collects st0 n f -> es_rep (sub_rep st n) n es l U -> good n l -> alt es ->
  Forall (run_stored st0 n) (runs n l) ->
  Forall (fun s => s = [] \/ (n <> 0 -> closed_under st (n - 1) s)) (runs n l) ->
  forall found, within found st0 ->
  triple U (unstored_of f es found) (fun '(es', found') U' =>
    es_rep (sub_rep st n) n es' l U' /\ alt es' /\ map is_tree es' = map is_tree es
    /\ within found' st0
    /\ forall st', extends st st' -> within found' st' ->
         within found st' /\ Forall (run_stored st' n) (runs n l)).
Proof.
  intros Hf; induction 1 as [|x es l U Hx He IH|m es l1 l2 U1 U2 Hm Hne Hlz He IH Hd];
    intros Hg Ha Hs0 Hcl found Hw; cbn [unstored_of].
  - apply triple_ret; split_and!; try done; [constructor|].
    intros; split; [done|]. unfold runs; cbn. constructor; [by destruct n|constructor].
  - apply (good_app n [x]) in Hg as (_ & Hg & _).
    rewrite runs_leaf in Hs0, Hcl by done; rewrite runs_leaf by done.
    apply Forall_cons in Hs0 as [_ Hs0], Hcl as [_ Hcl].
    eapply triple_bind; [by apply IH|].
    intros [es' found'] U' (He' & Ha' & Hsh & Hw' & Hst) _.
    apply triple_ret; split_and!; [by constructor|done|cbn; by rewrite Hsh|done|].
    intros st' Hext Hwi; destruct (Hst st' Hext Hwi). split; [done|].
    constructor; [by destruct n|done].
  - apply good_app in Hg as (Hg1 & Hg2 & _).
    assert (~ (exists m', head es = Some (ETree m'))) as Hh.
    { intros (m' & Hm'); destruct es as [|[?|?] ?]; cbn in *; done. }
    assert (alt es) as Ha2 by (by destruct es as [|[?|?] ?]).
    pose proof (es_rep_head_leaf _ _ _ _ _ He Hh) as Hf2.
    assert (runs n l2 = [] :: map snd (snd (segs n l2))) as Hr2 by (unfold runs; by rewrite Hf2).
    rewrite runs_lower in Hs0, Hcl by done; rewrite runs_lower by done.
    apply Forall_cons in Hs0 as [Hs1 Hs0], Hcl as [Hc1 Hcl].
    eapply triple_bind; [apply triple_frame; [done|apply Hf; [exact Hm| |done|done|]]|].
    { by apply good_pred. }
    { by destruct Hc1. }
    intros [m' [c bs]] W (U1' & -> & Hd' & HU1 & Hm' & Hbs & Hst1) _; cbn [snd].
    replace (U1' ∪ U2) with (U2 ∪ U1') by set_solver.
    eapply triple_bind; [apply triple_frame; [set_solver|apply IH; [done|done| | |by apply within_merge]]|].
    { rewrite Hr2; constructor; [by destruct n|done]. }
    { rewrite Hr2; constructor; [by left|done]. }
    intros [es' found'] W (U2' & -> & Hd'' & HU2 & He' & Ha' & Hsh & Hw' & Hst2) _.
    apply triple_ret; split_and!; [| |cbn; by rewrite Hsh|done|].
    + replace (U2' ∪ U1') with (U1' ∪ U2') by set_solver. constructor; [done..|set_solver].
    + destruct es as [|[?|?] ?], es' as [|[?|?] ?]; cbn in *; done.
    + intros st' Hext Hwi; destruct (Hst2 st' Hext Hwi) as [Hm2 Hr].
      destruct (merge_within _ _ _ _ Hw Hbs Hm2) as [Hwf Hwb]. split; [done|].
      constructor; [by apply Hst1|]. rewrite Hr2 in Hr; by apply Forall_cons in Hr as [_ ?].
Qed.

Lemma stored_contains n l : stored st n l -> store_contains st (cid_of n l) = Ok true.
Proof. intros [Hg _]%stored_unfold; apply store_contains_get; eauto. Qed.

Lemma closed_under_unfold n l :
  closed_under st n l ->
  (store_contains st (cid_of n l) = Ok true -> stored st n l)
  /\ Forall (fun s => s = [] \/ (n <> 0 -> closed_under st (n - 1) s)) (runs n l).
Proof.
  destruct n as [|n]; cbn [closed_under]; intros [Hc Hs]; (split; [done|]).
  - apply Forall_forall; by right.
  - rewrite Nat.sub_succ, Nat.sub_0_r. eapply Forall_impl; [exact Hs|]. intros s [?|?]; auto.
Qed.

Lemma unstored_blocks_spec st0 n : forall room m l U,
  rep st n m l U -> good n l -> S n < room -> stored st0 n l -> closed_under st n l ->
  triple U (unstored_blocks_in st room m) (fun '(m', (c, bs)) U' =>
    c = cid_of n l /\ rep st n m' l U' /\ layer m' = layer m /\ within bs st0
    /\ forall st', extends st st' -> within bs st' -> stored st' n l).
Proof.
  induction n as [n IH] using lt_wf_ind; intros [|room] m l U Hrep Hg Hroom Hs0 Hcl; [lia|].
  cbn [unstored_blocks_in]; apply closed_under_unfold in Hcl as [Hcl Hsub].
  eapply triple_bind; [by apply (root_in_spec st n); [done|done|lia]|].
  intros [m1 c] U1 (-> & Hrep1 & Hlay & Hptr) _.
  destruct (store_contains_ok (cid_of n l)) as [b Hb].
  eapply triple_bind; [eapply (triple_lift _ _ _ (fun b' V => b' = b /\ V = U1)); done|].
  intros ? ? [-> ->] _; destruct b.
  { apply triple_ret; split_and!; [done|done|done|apply within_new|].
    intros st' Hext _; apply (stored_extends st); auto. }
  eapply triple_bind; [by apply (get_entries_spec st n)|].
  intros [m2 es] U2 (-> & Ha & He) _; cbn [layer pointer].
  eapply triple_bind; [apply (serialize_spec st n); [apply root_in_hashes; lia|done..]|].
  intros [es2 data] U3 (-> & He2 & Ha2) _.
  eapply triple_bind; [eapply (triple_lift _ _ _ (fun x V =>
    fst x = BlockMap.insert BlockMap.new (cid_of n l) (dag_cbor (node_of n l)) /\ V = U3))|].
  { unfold BlockMap.add; rewrite encode_ok; cbn; done. }
  { done. }
  intros [blocks c'] ? [Hbl ->] _; cbn in Hbl; subst blocks.
  pose proof Hs0 as [Hget Hruns]%stored_unfold.
  eapply triple_bind; [apply (unstored_of_spec st0 n); [|exact He2|done|done|done|done|]|].
  - intros m' l' U'' Hm Hg' Hne Hr Hc; destruct n as [|n]; [destruct Hm|]; cbn [sub_rep] in *.
    rewrite Nat.sub_succ, Nat.sub_0_r in *.
    eapply triple_conseq; [apply (IH n); [lia|exact Hm|done|lia|by destruct l'|by apply Hc]|].
    intros [m'' [c'' bs]] W (_ & Hr' & _ & Hw & Hst) _; split_and!; [done..|].
    intros st' ? ?; destruct l'; [done|]. by apply Hst.
  - by apply within_add; [apply within_new|].
  - intros [es3 found] W (He3 & Ha3 & _ & Hw & Hst) _; apply triple_ret.
    apply rep_unfold in Hrep1 as (Hl1 & Hp1 & _).
    split_and!; [done|by apply rep_entries|done|done|].
    intros st' Hext Hwi; destruct (Hst st' Hext Hwi) as [Hroot Hr].
    apply stored_unfold; split; [|done]. apply Hroot.
    unfold BlockMap.insert; apply lookup_insert_eq.
Qed.

(** A tree read from its root CID alone. *)
Lemma load_rep st' n l :
  stored st' n l -> NoDup (tree_cids n l) ->
  rep st' n (load (cid_of n l)) l (list_to_set (tree_cids n l)).
Proof. intros Hs Hnd; apply rep_unfold; cbn; split_and!; [by left|by intros ? [= <-]|done..]. Qed.

End Write.
