(* ===== verification/MstFacts.v ===== *)
(** * MstFacts: the tree is a map, and its root is a function of the map

    What a repository promises of its tree, stated of the operations callers
    use ([Mst.get], [Mst.add], [Mst.update], [Mst.delete], [Mst.leaves],
    [Mst.root], [Mst.unstored_blocks]).  The specification is a [gmap] from
    keys to record CIDs: [models m g] says the tree [m], over the store [st],
    stands for [g], and [spec_step] is what each write should do to it, errors
    included. *)

From S2P Require Import Prelude Syntax Block Mst MstLogic MstShape MstRead MstWrite MstStore Concrete.

Abbreviation records := (gmap bytes Cid).

(** One write to the tree. *)
Inductive Op :=
| Add (k : bytes) (v : Cid)
| Update (k : bytes) (v : Cid)
| Delete (k : bytes).

(** What it should do to the records. *)
Definition spec_step (g : records) (op : Op) : result RepoError records :=
  match op with
  | Add k v =>
      _ ← ensure_valid_key k;
      match g !! k with Some _ => Err (KeyExists k) | None => Ok (<[k := v]> g) end
  | Update k v =>
      _ ← ensure_valid_key k;
      match g !! k with Some _ => Ok (<[k := v]> g) | None => Err (KeyMissing k) end
  | Delete k =>
      match g !! k with Some _ => Ok (base.delete k g) | None => Err (KeyMissing k) end
  end.

Section Facts.
Context `{Sha256} `{!Sha256Ok} `{!Codec NodeData} `{!CodecOk NodeData}.

(** What it does to the tree. *)
Definition step (st : Store) (m : Mst) (op : Op) : result RepoError Mst :=
  match op with
  | Add k v => add st m k v
  | Update k v => update st m k v
  | Delete k => delete st m k
  end.

(** A list of writes, each on what the one before left. *)
Fixpoint run (st : Store) (m : Mst) (ops : list Op) : result RepoError Mst :=
  match ops with
  | [] => Ok m
  | op :: ops => m ← step st m op; run st m ops
  end.

(** The records such a list leaves, if every write is allowed; and whether it
    leaves off where it takes the last record out, rather than go on to write
    into the tree it emptied. *)
Fixpoint spec_run (g : records) (ops : list Op) : result RepoError records :=
  match ops with
  | [] => Ok g
  | op :: ops => g ← spec_step g op; spec_run g ops
  end.
Fixpoint never_refilled (g : records) (ops : list Op) : bool :=
  match ops with
  | [] => true
  | op :: ops =>
      match spec_step g op with
      | Ok g => match ops with [] => true | _ => negb (bool_decide (g = ∅)) && never_refilled g ops end
      | Err _ => true
      end
  end.

(** The tree [m] holds the leaves [l] under a root of layer [n]. A node with
    nothing in it has no leaf to say what layer it is on, so it has to say. *)
Definition holds (st : Store) (n : nat) (m : Mst) (l : list Leaf) : Prop :=
  good n l /\ n <= 128 /\ (l = [] -> layer m = Some n \/ n = 0) /\ exists U, rep st n m l U.

(** The one such tree every server builds of these leaves: its root is on the
    layer of its highest key. *)
Definition tree (st : Store) (m : Mst) (l : list Leaf) : Prop := holds st (top l) m l.

(** What a batch leaves: that tree or, where it took the last record out, an
    empty one, whose root may be on any layer in memory and is the same block. *)
Definition crowned (n : nat) (l : list Leaf) : Prop := l = [] \/ n = top l.
Definition standing (st : Store) (m : Mst) (l : list Leaf) : Prop := exists n, holds st n m l /\ crowned n l.

Definition lists (l : list Leaf) (g : records) : Prop := forall k, g !! k = find_leaf k l.
Definition models (st : Store) (m : Mst) (g : records) : Prop :=
  exists n l, holds st n m l /\ lists l g.
Definition models_canonically (st : Store) (m : Mst) (g : records) : Prop :=
  exists l, tree st m l /\ lists l g.

(* ------------------------------------------------------------------ *)
(** ** Layers fit in the descent the code allows *)

Lemma zero_pairs_le d : Forall (fun x => (0 <= x < 256)%Z) d -> zero_pairs d <= 4 * length d.
Proof.
  induction 1 as [|b d Hb Hd IH]; [done|]; cbn [zero_pairs length].
  destruct (Z.eqb_spec b 0) as [->|Hne]; [change (Z.to_nat (leading_zeros_u8 0) / 2) with 4; lia|].
  unfold leading_zeros_u8; rewrite (proj2 (Z.eqb_neq b 0)) by done.
  assert (Z.to_nat (7 - Z.log2 b) / 2 <= 3); [|lia].
  apply Nat.lt_succ_r, Nat.Div0.div_lt_upper_bound. pose proof (Z.log2_nonneg b); lia.
Qed.

Lemma leading_zeros_le k : leading_zeros k <= 128.
Proof. unfold leading_zeros. rewrite zero_pairs_le by apply sha256_bytes. by rewrite sha256_length. Qed.

Lemma top_bound l : top l <= 128.
Proof. apply top_le, Forall_forall; intros x _; apply leading_zeros_le. Qed.

Lemma room_enough n : n <= 128 -> S n < MAX_DEPTH.
Proof. unfold MAX_DEPTH; lia. Qed.

Lemma room_enough' n : n <= 128 -> n < MAX_DEPTH.
Proof. unfold MAX_DEPTH; lia. Qed.

(* ------------------------------------------------------------------ *)
(** ** Leaves and the map they list *)

Lemma lists_unique l l' g : sorted l -> sorted l' -> lists l g -> lists l' g -> l = l'.
Proof. intros ? ? Hl Hl'; apply sorted_find_ext; [done..|]. intros k; by rewrite <- Hl, <- Hl'. Qed.

Lemma lists_put l g k v : lists l g -> lists (put k v l) (<[k := v]> g).
Proof.
  intros Hl k'; destruct (decide (k = k')) as [<-|Hne].
  - by rewrite lookup_insert_eq, find_put.
  - by rewrite lookup_insert_ne, find_put_ne.
Qed.

Lemma lists_remove l g k : lists l g -> lists (remove k l) (base.delete k g).
Proof.
  intros Hl k'; destruct (decide (k = k')) as [<-|Hne].
  - by rewrite lookup_delete_eq, find_remove.
  - by rewrite lookup_delete_ne, find_remove_ne.
Qed.

Lemma lists_empty l g : lists l g -> g = ∅ <-> l = [].
Proof.
  intros Hl; split; [intros ->|intros ->].
  - destruct l as [|x l]; [done|]. specialize (Hl (key x)); by rewrite find_head, lookup_empty in Hl.
  - apply map_eq; intros k; by rewrite Hl, lookup_empty.
Qed.

Lemma holds_of_rep st m l n U :
  rep st n m l U -> sorted l -> Forall (fun x => valid_key (key x) = true) l -> top l <= n -> n <= 128 ->
  (l = [] -> layer m = Some n \/ n = 0) -> holds st n m l.
Proof.
  intros Hr Hs Hv Ht Hn Hl; split; [|split_and!; [done|done|by eexists]]. split; [done|].
  rewrite Forall_forall in *; intros x Hx; split; [by apply Hv|]. apply top_elem in Hx; lia.
Qed.

Lemma holds_top st n m l : holds st n m l -> top l <= n.
Proof.
  intros ((_ & Hf) & _). apply top_le; eapply Forall_impl; [exact Hf|]. by intros x [_ ?].
Qed.

Lemma holds_valid st n m l : holds st n m l -> Forall (fun x => valid_key (key x) = true) l.
Proof. intros ((_ & Hf) & _). eapply Forall_impl; [exact Hf|]. by intros x [? _]. Qed.

Lemma top_put k v l : find_leaf k l = None -> top (put k v l) = Nat.max (top l) (leading_zeros k).
Proof.
  intros Hn; apply Nat.le_antisymm.
  - apply top_le, Forall_put; [|unfold lz; cbn; lia].
    apply Forall_forall; intros x Hx%top_elem; lia.
  - apply Nat.max_lub.
    + apply top_le, Forall_forall; intros x Hx; apply top_elem; unfold put.
      destruct (str_lt_total (key x) k) as [Hlt|[Heq|Hlt]].
      * apply elem_of_app; left; by apply below_spec.
      * apply find_leaf_None in Hn; rewrite Forall_forall in Hn; by destruct (Hn x Hx).
      * apply elem_of_app; right; right; by apply above_spec.
    + change (leading_zeros k) with (lz (MkLeaf k v)); apply top_elem; unfold put; set_solver.
Qed.

Lemma top_put_same k v v' l : find_leaf k l = Some v' -> top (put k v l) = top l.
Proof.
  intros Hf; apply Nat.le_antisymm.
  - apply top_le, Forall_put; [apply Forall_forall; intros x Hx%top_elem; lia|].
    change (lz (MkLeaf k v)) with (leading_zeros k).
    apply (find_leaf_lz (fun j => j <= top l) k l); [|congruence].
    apply Forall_forall; intros x Hx; by apply top_elem.
  - apply top_le, Forall_forall; intros x Hx.
    destruct (decide (key x = k)) as [E|E].
    + change (lz x) with (leading_zeros (key x)). rewrite E.
      change (leading_zeros k) with (lz (MkLeaf k v)); apply top_elem; unfold put; set_solver.
    + apply top_elem; unfold put; destruct (str_lt_total (key x) k) as [Hlt|[Heq|Hlt]]; [|done|].
      * apply elem_of_app; left; by apply below_spec.
      * apply elem_of_app; right; right; by apply above_spec.
Qed.

(* ------------------------------------------------------------------ *)
(** ** Each operation, on a tree of leaves *)

Lemma holds_get st n m l k :
  holds st n m l -> exists m', get st m k = Ok (m', find_leaf k l) /\ holds st n m' l.
Proof.
  intros (Hg & Hn & Hl & U & Hr).
  destruct (traverse_triple U _ _ (get_in_spec st _ MAX_DEPTH m l U k Hr Hg (room_enough' _ Hn)))
    as ([m' found] & U' & E & -> & Hr' & Hlay).
  exists m'; split; [exact E|]. split_and!; [done|done|by rewrite Hlay|eauto].
Qed.

Lemma holds_leaves st n m l :
  holds st n m l -> exists m', leaves st m = Ok (m', l) /\ holds st n m' l.
Proof.
  intros (Hg & Hn & Hl & U & Hr).
  destruct (traverse_triple U _ _ (collect_leaves_spec st _ MAX_DEPTH m l U Hr Hg (room_enough' _ Hn)))
    as ([m' found] & U' & E & -> & Hr' & Hlay).
  exists m'; split; [exact E|]. split_and!; [done|done|by rewrite Hlay|eauto].
Qed.

Lemma holds_root st n m l :
  holds st n m l -> exists m', root st m = Ok (m', cid_of n l) /\ holds st n m' l.
Proof.
  intros (Hg & Hn & Hl & U & Hr).
  destruct (traverse_triple U _ _ (root_in_spec st _ MAX_DEPTH m l U Hr Hg (room_enough' _ Hn)))
    as ([m' c] & U' & E & -> & Hr' & Hlay & _).
  exists m'; split; [exact E|]. split_and!; [done|done|by rewrite Hlay|eauto].
Qed.

Lemma holds_add st n m l k v :
  holds st n m l -> valid_key k = true -> find_leaf k l = None ->
  exists m', add st m k v = Ok m' /\ holds st (Nat.max n (leading_zeros k)) m' (put k v l).
Proof.
  intros Ht Hk Hf; pose proof Ht as (Hg & Hn & Hl & U & Hr).
  assert (triple U (_ ← lift (ensure_valid_key k); insert st MAX_DEPTH m k v (leading_zeros k))
    (fun m' U' => rep st (Nat.max n (leading_zeros k)) m' (put k v l) U')) as Htr.
  { eapply triple_bind; [eapply (triple_lift _ _ _ (fun _ V => V = U)); [by apply ensure_valid|done]|].
    intros ? ? -> _; apply insert_spec; [done|done|by apply room_enough|done|done|done]. }
  destruct (traverse_triple _ _ _ Htr) as (m' & U' & E & Hr').
  exists m'; split; [exact E|]. eapply holds_of_rep; [exact Hr'|apply sorted_put, Hg| | | |].
  - apply Forall_put; [by eapply holds_valid|done].
  - rewrite top_put by done. apply holds_top in Ht; lia.
  - pose proof (leading_zeros_le k); lia.
  - intros Hx; by apply put_nonempty in Hx.
Qed.

Lemma holds_add_exists st n m l k v :
  holds st n m l -> valid_key k = true -> find_leaf k l <> None -> add st m k v = Err (KeyExists k).
Proof.
  intros (Hg & Hn & Hl & U & Hr) Hk Hf; apply (traverse_fails U).
  eapply fails_after; [eapply (triple_lift _ _ _ (fun _ V => V = U)); [by apply ensure_valid|done]|].
  intros ? ? -> _; eapply insert_exists; [done|done|by apply room_enough|done].
Qed.

Lemma add_invalid st m k v : valid_key k = false -> add st m k v = Err (InvalidKey k).
Proof. intros Hk; unfold add, traverse, ensure_valid_key; by rewrite Hk. Qed.

Lemma update_invalid st m k v : valid_key k = false -> update st m k v = Err (InvalidKey k).
Proof. intros Hk; unfold update, traverse, ensure_valid_key; cbn; unfold ensure_valid_key; by rewrite Hk. Qed.

Lemma holds_update st n m l k v v' :
  holds st n m l -> valid_key k = true -> find_leaf k l = Some v' ->
  exists m', update st m k v = Ok m' /\ holds st n m' (put k v l).
Proof.
  intros Ht Hk Hf; pose proof Ht as (Hg & Hn & Hl & U & Hr).
  destruct (traverse_triple U _ _ (update_in_spec st _ MAX_DEPTH m l U k v Hr Hg
    (room_enough' _ Hn) Hk ltac:(congruence))) as (m' & U' & E & Hr').
  exists m'; split; [exact E|]. eapply holds_of_rep; [exact Hr'|apply sorted_put, Hg| | |done|].
  - apply Forall_put; [by eapply holds_valid|done].
  - erewrite top_put_same by done. by eapply holds_top.
  - intros Hx; by apply put_nonempty in Hx.
Qed.

Lemma holds_update_missing st n m l k v :
  holds st n m l -> valid_key k = true -> find_leaf k l = None -> update st m k v = Err (KeyMissing k).
Proof.
  intros (Hg & Hn & Hl & U & Hr) Hk Hf; apply (traverse_fails U).
  eapply update_in_missing; [done|done|by apply room_enough'|done|done].
Qed.

(** What is left after a deletion is as canonical as can be: only an empty
    tree keeps a layer its leaves do not give it. *)
Lemma holds_delete st n m l k :
  holds st n m l -> find_leaf k l <> None ->
  exists m' n', delete st m k = Ok m' /\ holds st n' m' (remove k l)
    /\ (remove k l <> [] -> n' = top (remove k l)).
Proof.
  intros Ht Hf; pose proof Ht as (Hg & Hn & Hl & U & Hr).
  assert (triple U (m' ← delete_recurse st MAX_DEPTH m k; trim_top st MAX_DEPTH m')
    (trimmed st n (remove k l))) as Htr.
  { eapply triple_bind; [eapply delete_recurse_spec; [exact Hr|done|by apply room_enough|done]|].
    intros m1 U1 (Hr1 & _) _; eapply trim_top_spec; [exact Hr1|by apply good_remove|].
    by apply room_enough'. }
  destruct (traverse_triple _ _ _ Htr) as (m' & U' & E & n' & Hle & Hr' & Htop & Hg' & Hnil).
  exists m'. destruct (decide (remove k l = [])) as [Hx|Hx].
  - rewrite Hx in *; pose proof Hr' as (Hlay & Hptr & He)%rep_unfold.
    destruct Hlay as [Hlay|Hlay]; [exists 0|exists n'].
    + split_and!; [exact E| |done]. split_and!; [by split; constructor|lia|by right|].
      exists U'; rewrite (Hnil eq_refl) in He; destruct He as [_ He].
      inversion He; subst. apply rep_unfold; rewrite (Hnil eq_refl), Hlay.
      split_and!; [by left| |done|constructor].
      intros c Hc; rewrite (Hptr c Hc). by destruct n'.
    + split_and!; [exact E| |done]. split_and!; [done|lia|by left|by eexists].
  - exists n'; split_and!; [exact E| |done]. split_and!; [done|lia|done|by eexists].
Qed.

Lemma holds_delete_missing st n m l k :
  holds st n m l -> find_leaf k l = None -> delete st m k = Err (KeyMissing k).
Proof.
  intros (Hg & Hn & Hl & U & Hr) Hf; apply (traverse_fails U), fails_here.
  eapply delete_recurse_missing; [done|done|by apply room_enough'|done].
Qed.

Lemma tree_empty st : tree st empty [].
Proof.
  split_and!; [split; constructor|cbn; lia|by right|]. exists ∅. apply rep_entries; [by left|done|done|constructor].
Qed.

(** A tree loaded by its root, from a store that holds it. *)
Lemma holds_load st n l :
  good n l -> n <= 128 -> (l = [] -> n = 0) -> stored st n l -> NoDup (tree_cids n l) ->
  holds st n (load (cid_of n l)) l.
Proof. intros Hg Hn Hl Hs Hnd; split_and!; [done|done|auto|]. eexists; by apply load_rep. Qed.

Lemma tree_load st l :
  good (top l) l -> stored st (top l) l -> NoDup (tree_cids (top l) l) ->
  tree st (load (cid_of (top l) l)) l.
Proof. intros; apply holds_load; [done|apply top_bound|by intros ->|done|done]. Qed.

(** [good] as something to compute. *)
Fixpoint good_check (n : nat) (l : list Leaf) : bool :=
  match l with
  | [] => true
  | x :: l' =>
      forallb (fun y => str_ltb (key x) (key y)) l' && valid_key (key x) && (lz x <=? n) && good_check n l'
  end.

Lemma good_check_ok n l : good_check n l = true -> good n l.
Proof.
  induction l as [|x l IH]; cbn [good_check]; [by split; constructor|].
  intros Hc; apply andb_true_iff in Hc as [[[H1 H2]%andb_true_iff H3]%andb_true_iff H4].
  destruct (IH H4) as [Hs Hf]; split; constructor; try done.
  - apply Forall_forall; intros y Hy; rewrite forallb_forall in H1.
    apply str_ltb_spec, H1, list_elem_of_In, Hy.
  - split; [done|]. by apply Nat.leb_le.
Qed.

(** The map a list of leaves is. *)
Definition records_of (l : list Leaf) : records := list_to_map (map (fun x => (key x, value x)) l).

Lemma lists_records_of l : lists l (records_of l).
Proof.
  intros k; induction l as [|x l IH]; cbn; [apply lookup_empty|].
  case_decide as Hk; [subst; apply lookup_insert_eq|by rewrite lookup_insert_ne].
Qed.

(** Each write does to the tree what it should do to the records, and keeps a
    tree in its one form unless it takes the last record out. *)
Lemma step_refines st m n l g op :
  holds st n m l -> lists l g ->
  match spec_step g op with
  | Ok g' => exists m' n' l', step st m op = Ok m' /\ holds st n' m' l' /\ lists l' g'
             /\ (n = top l -> g' <> ∅ -> n' = top l')
  | Err e => step st m op = Err e
  end.
Proof.
  intros Ht Hl; destruct op as [k v|k v|k]; cbn [spec_step step].
  - unfold ensure_valid_key; destruct (valid_key k) eqn:Hk; cbn [mbind result_bind];
      [|by apply add_invalid].
    rewrite (Hl k); destruct (find_leaf k l) eqn:Hf; [eapply holds_add_exists; eauto; congruence|].
    destruct (holds_add st n m l k v Ht Hk Hf) as (m' & E & Ht').
    exists m', (Nat.max n (leading_zeros k)), (put k v l); split_and!; [done|done|by apply lists_put|].
    intros -> _; by rewrite top_put.
  - unfold ensure_valid_key; destruct (valid_key k) eqn:Hk; cbn [mbind result_bind];
      [|by apply update_invalid].
    rewrite (Hl k); destruct (find_leaf k l) eqn:Hf; [|eapply holds_update_missing; eauto].
    destruct (holds_update st n m l k v _ Ht Hk Hf) as (m' & E & Ht').
    exists m', n, (put k v l); split_and!; [done|done|by apply lists_put|].
    intros -> _; symmetry; by eapply top_put_same.
  - rewrite (Hl k); destruct (find_leaf k l) eqn:Hf; [|eapply holds_delete_missing; eauto].
    destruct (holds_delete st n m l k Ht ltac:(congruence)) as (m' & n' & E & Ht' & Htop).
    exists m', n', (remove k l); split_and!; [done|done|by apply lists_remove|].
    intros _ Hne; apply Htop. intros Hnil; apply Hne.
    apply (lists_empty (remove k l)); [by apply lists_remove|done].
Qed.

Lemma run_refines st ops : forall m n l g,
  holds st n m l -> lists l g ->
  match spec_run g ops with
  | Ok g' => exists m' n' l', run st m ops = Ok m' /\ holds st n' m' l' /\ lists l' g'
             /\ (n = top l -> never_refilled g ops = true -> crowned n' l')
  | Err e => run st m ops = Err e
  end.
Proof.
  induction ops as [|op ops IH]; intros m n l g Hm Hl; cbn [spec_run run]; [exists m, n, l; split_and!; [done..|by right]|].
  pose proof (step_refines st m n l g op Hm Hl) as Hs; cbn [never_refilled].
  destruct (spec_step g op) as [g'|e]; [|by rewrite Hs].
  destruct Hs as (m' & n' & l' & -> & Hm' & Hl' & Htop); cbn [mbind result_bind].
  specialize (IH m' n' l' g' Hm' Hl'); destruct (spec_run g' ops) as [g2|e] eqn:Es; [|done].
  destruct IH as (m2 & n2 & l2 & E & Hm2 & Hl2 & Htop2).
  exists m2, n2, l2; split_and!; [done..|]. intros Hn Hne. destruct ops as [|op' ops].
  - cbn [run] in E; injection E as <-. assert (g' = g2) as <- by (clear -Es; by injection Es).
    destruct (decide (g' = ∅)) as [Hg|Hg]; [left; by apply (lists_empty l2 g')|].
    apply Htop2; [by apply Htop|done].
  - bool_prop. apply Htop2; [|done]. apply Htop; [done|]. by eapply bool_decide_eq_false_1.
Qed.

Lemma models_empty st : holds st 0 empty [] /\ lists [] ∅.
Proof. split; [apply tree_empty|]. by intros k; rewrite lookup_empty. Qed.

Lemma run_canonical st ops g :
  spec_run ∅ ops = Ok g -> never_refilled ∅ ops = true ->
  exists m l, run st empty ops = Ok m /\ standing st m l /\ lists l g.
Proof.
  intros Hg Hne; destruct (models_empty st) as [Hm Hl].
  pose proof (run_refines st ops _ _ _ _ Hm Hl) as Hr; rewrite Hg in Hr.
  destruct Hr as (m & n & l & E & Ht & Hl' & Htop). exists m, l; split_and!; [done|exists n; auto|done].
Qed.

(** An empty tree is the same block on every layer. *)
Lemma crowned_shape n l : crowned n l ->
  cid_of n l = cid_of (top l) l /\ tree_cids n l = tree_cids (top l) l /\ tree_blocks n l = tree_blocks (top l) l
  /\ (forall st, stored st n l <-> stored st (top l) l) /\ (forall st, closed_under st n l <-> closed_under st (top l) l).
Proof.
  intros [->| ->]; [|done]. change (top []) with 0. destruct n as [|n]; [done|].
  assert (forall st, stored st (S n) [] <-> stored st 0 []) as Hs.
  { intros st; split; intros [Hs _]; split; try done. by repeat constructor. }
  split_and!; try done. intros st; split; intros [Hc _]; split; try done.
  - intros Hh; by apply Hs, Hc.
  - intros Hh; by apply Hs, Hc.
  - by repeat constructor.
Qed.

Lemma tree_standing st m l : tree st m l -> standing st m l.
Proof. intros Ht; exists (top l); split; [done|by right]. Qed.

(* ================================================================== *)
(** ** The properties *)

(** C1 (refinement). A batch of writes does to the tree exactly what it does
    to a map from keys to CIDs, errors included: starting from any tree that
    stands for [g], [add] of a taken key is [KeyExists], [update] and [delete]
    of a key that is not there are [KeyMissing], a key that is no record path
    is [InvalidKey], and otherwise the batch succeeds and leaves a tree that
    stands for the new map. No write runs out of depth or finds a malformed
    node, however much of the tree is still unread. *)
Theorem writes_refine_the_map st m g ops :
  models st m g ->
  match spec_run g ops with
  | Ok g' => exists m', run st m ops = Ok m' /\ models st m' g'
  | Err e => run st m ops = Err e
  end.
Proof.
  intros (n & l & Ht & Hl); pose proof (run_refines st ops m n l g Ht Hl) as Hr.
  destruct (spec_run g ops); [|done]. destruct Hr as (m' & n' & l' & E & Ht' & Hl' & _).
  exists m'; split; [done|]. by exists n', l'.
Qed.

(** C32 (functional). Reading a key out of a tree that stands for [g] answers
    what [g] has there, and leaves a tree that still stands for [g]; listing
    the tree gives every record once, in key order. *)
Theorem reads_answer_from_the_map st m g :
  models st m g ->
  (forall k, exists m', get st m k = Ok (m', g !! k) /\ models st m' g)
  /\ exists m' l, leaves st m = Ok (m', l) /\ models st m' g /\ sorted l /\ lists l g.
Proof.
  intros (n & l & Ht & Hl); split.
  - intros k; destruct (holds_get _ _ _ _ k Ht) as (m' & E & Ht').
    exists m'; rewrite Hl; split; [done|by exists n, l].
  - destruct (holds_leaves _ _ _ _ Ht) as (m' & E & Ht').
    exists m', l; split_and!; [done|by exists n, l|apply Ht|done].
Qed.

(** C16 (equivalence). Two servers given the same records build the same
    tree: whatever two batches of writes from the empty tree, over whatever
    stores, if they leave the same records, none left included, the roots are
    the same CID; as long as neither batch goes on writing into a tree it has
    just taken the last record out of ([never_refilled]). That case is left out
    because it fails, which [stale_layer] shows. *)
Theorem same_records_same_root st st' ops ops' g :
  spec_run ∅ ops = Ok g -> spec_run ∅ ops' = Ok g ->
  never_refilled ∅ ops = true -> never_refilled ∅ ops' = true ->
  exists m m' r r' c,
    run st empty ops = Ok m /\ run st' empty ops' = Ok m'
    /\ root st m = Ok (r, c) /\ root st' m' = Ok (r', c).
Proof.
  intros Hg Hg' Hn Hn'.
  destruct (run_canonical st _ _ Hg Hn) as (m & l & E & Ht & Hl).
  destruct (run_canonical st' _ _ Hg' Hn') as (m' & l' & E' & Ht' & Hl').
  destruct Ht as (n & Ht & Hc), Ht' as (n' & Ht' & Hc').
  assert (l = l') as <- by (eapply lists_unique; [apply Ht|apply Ht'|done|done]).
  destruct (holds_root _ _ _ _ Ht) as (r & Er & _), (holds_root _ _ _ _ Ht') as (r' & Er' & _).
  destruct (crowned_shape _ _ Hc) as [Ec _], (crowned_shape _ _ Hc') as [Ec' _]. rewrite Ec in Er; rewrite Ec' in Er'.
  by exists m, m', r, r', (cid_of (top l) l).
Qed.

(** What a store answered it answers still, so a tree over it is one over any
    store that grew from it. *)
Lemma rep_extends st st' n : forall m l U, extends st st' -> rep st n m l U -> rep st' n m l U.
Proof.
  induction n as [n IH] using lt_wf_ind; intros m l U He (Hlay & Hptr & Hes)%rep_unfold.
  apply rep_unfold; split_and!; [done|done|]. destruct (entries m) as [es|].
  - destruct Hes as [Ha Hes]; split; [done|]. eapply es_rep_mono; [|exact Hes].
    intros m' l' U'; destruct n as [|n]; [done|]. by apply IH; [lia|].
  - destruct Hes as (? & Hs & ?); split_and!; [done|by eapply stored_extends|by destruct_and?..].
Qed.

Lemma holds_extends st st' n m l : extends st st' -> holds st n m l -> holds st' n m l.
Proof. intros He (? & ? & ? & U & Hr); split_and!; [done..|]. exists U; by eapply rep_extends. Qed.

(** Collecting the blocks a store lacks. *)
Lemma holds_unstored st n m l :
  StoreOk st -> holds st n m l -> closed_under st n l -> NoDup (tree_cids n l) ->
  exists m' blocks, unstored_blocks st m = Ok (m', (cid_of n l, blocks)) /\ holds st n m' l
    /\ within blocks (BlockMap.store (list_to_map (tree_blocks n l)))
    /\ forall st', extends st st' -> within blocks st' -> stored st' n l.
Proof.
  intros Hok (Hg & Hn & Hl & U & Hr) Hcl Hnd.
  destruct (traverse_triple U _ _ (unstored_blocks_spec st _ _ MAX_DEPTH m l U Hr Hg
    (room_enough _ Hn) (stored_map _ _ Hnd) Hcl)) as ([m' [c bs]] & U' & E & -> & Hr' & Hlay & Hw & Hst).
  exists m', bs; split_and!; [exact E| |done|done].
  split_and!; [done|done|by rewrite Hlay|eauto].
Qed.

Lemma empty_below st n : stored st n [] -> stored st 0 [].
Proof. intros Hs; destruct n as [|n]; [done|]. destruct Hs as [Hs _]; by split. Qed.

(** A tree read from its root, whatever layer the root had in memory. *)
Lemma load_stored st n l :
  good n l -> n <= 128 -> stored st n l -> NoDup (tree_cids n l) ->
  exists n', holds st n' (load (cid_of n l)) l.
Proof.
  intros Hg Hn Hs Hnd; destruct (decide (l = [])) as [->|Hne]; [|exists n; by apply holds_load].
  exists 0; replace (cid_of n []) with (cid_of 0 []) by (by destruct n).
  apply holds_load; [by split; constructor|lia|done|by eapply empty_below|].
  repeat constructor; set_solver.
Qed.

(** C22 (roundtrip). Persisting a tree: collecting [unstored_blocks] never
    fails, and they are all the store lacks. In any store that kept what it had
    and took them, the tree loaded from the root CID alone stands for the same
    records. The store may hold parts of the tree already, as long as it holds
    what is under them, and no two of the tree's nodes may collide. *)
Theorem stored_tree_reads_back st n m l :
  StoreOk st -> holds st n m l -> closed_under st n l -> NoDup (tree_cids n l) ->
  exists m' root blocks, unstored_blocks st m = Ok (m', (root, blocks)) /\ holds st n m' l
    /\ root = cid_of n l
    /\ forall st', extends st st' -> within blocks st' ->
         (exists n', holds st' n' (load root) l) /\ exists m'', leaves st' (load root) = Ok (m'', l).
Proof.
  intros Hok Ht Hcl Hnd; pose proof Ht as (Hg & Hn & _).
  destruct (holds_unstored st n m l Hok Ht Hcl Hnd) as (m' & bs & E & Hm' & _ & Hst).
  exists m', (cid_of n l), bs; split_and!; [done..|].
  intros st' Hext Hwi.
  destruct (load_stored st' n l Hg Hn (Hst st' Hext Hwi) Hnd) as (n' & Hld).
  split; [by exists n'|]. destruct (holds_leaves _ _ _ _ Hld) as (m'' & El & _); eauto.
Qed.

Lemma same_root_same_leaves st n l n' l' :
  good n l -> good n' l' -> n <= 128 -> n' <= 128 ->
  stored st n l -> stored st n' l' ->
  NoDup (tree_cids n l) -> NoDup (tree_cids n' l') ->
  cid_of n l = cid_of n' l' -> l = l'.
Proof.
  intros Hg Hg' Hn Hn' Hs Hs' Hnd Hnd' E.
  destruct (load_stored _ _ _ Hg Hn Hs Hnd) as (n1 & Ht), (load_stored _ _ _ Hg' Hn' Hs' Hnd') as (n2 & Ht').
  destruct (holds_leaves _ _ _ _ Ht) as (m & El & _), (holds_leaves _ _ _ _ Ht') as (m' & El' & _).
  rewrite E, El' in El. congruence.
Qed.

(** A root CID commits to the records: what one store answers
    under it is all it can answer, however many trees the store holds, and on
    whatever layers their roots were built. *)
Theorem root_commits_to_records st n l n' l' :
  good n l -> good n' l' -> n <= 128 -> n' <= 128 ->
  stored st n l -> stored st n' l' ->
  NoDup (tree_cids n l) -> NoDup (tree_cids n' l') ->
  cid_of n l = cid_of n' l' -> l = l'.
Proof. apply same_root_same_leaves. Qed.

End Facts.

(* ------------------------------------------------------------------ *)
(** ** At concrete records *)

Module Sample.

#[export] Existing Instances Mix.mixed Mix.mixed_ok Coded.codec Coded.codec_ok.

Definition store : Store := BlockMap.store BlockMap.new.
Definition cid (n : Z) : Cid := MkCid 1 DAG_CBOR SHA2_256 (repeat n 32).

(** Keys of layers 0, 2 and 0. *)
Definition k1 : bytes := lit "B0/0000".
Definition k2 : bytes := lit "E0/0021".
Definition k3 : bytes := lit "D0/0000".

Definition ops : list Op := [Add k1 (cid 1); Add k2 (cid 2); Update k1 (cid 4); Delete k1].
Definition adds : list Op := [Add k2 (cid 2); Add k3 (cid 3); Add k1 (cid 4)].
Definition other_ops : list Op := [Add k2 (cid 3); Update k2 (cid 2)].
Definition kept : list Leaf := [MkLeaf k1 (cid 4); MkLeaf k3 (cid 3); MkLeaf k2 (cid 2)].

Definition kept_map : records := records_of kept.
Abbreviation root_layer := (top kept).
Definition full : Store := BlockMap.store (list_to_map (tree_blocks root_layer kept)).

Lemma distinct : NoDup (tree_cids root_layer kept).
Proof. apply (bool_decide_unpack _); vm_compute; exact I. Qed.

Lemma good_leaves : good (top kept) kept.
Proof. apply good_check_ok; vm_compute; reflexivity. Qed.

Lemma loaded : tree full (load (cid_of root_layer kept)) kept.
Proof. apply tree_load; [apply good_leaves|apply stored_map, distinct|apply distinct]. Qed.

Lemma built : exists m, run store empty adds = Ok m /\ tree store m kept.
Proof.
  destruct (run_canonical store adds kept_map) as (m & l & E & Ht & Hl); [vm_compute; reflexivity..|].
  destruct Ht as (n & Ht & Hc). exists m; split; [done|].
  assert (l = kept) as -> by (eapply lists_unique; [apply Ht|apply good_leaves|exact Hl|apply lists_records_of]).
  destruct Hc as [?| ->]; [done|exact Ht].
Qed.

Lemma closed_new n l : closed_under store n l.
Proof.
  revert l; induction n as [|n IH]; intros l; split; try done. apply Forall_forall; right; apply IH.
Qed.

End Sample.
Import Sample.

Example layers_of_keys : map leading_zeros [k1; k2; k3] = [0; 2; 0].
Proof. vm_compute. reflexivity. Qed.

Lemma writes_refine_the_map_witness :
  match spec_run ∅ Sample.ops with
  | Ok g' => exists m', run Sample.store empty Sample.ops = Ok m' /\ models Sample.store m' g'
  | Err e => run Sample.store empty Sample.ops = Err e
  end.
Proof.
  apply (writes_refine_the_map Sample.store empty ∅). exists 0, []. apply models_empty.
Defined.

Lemma reads_answer_from_the_map_witness :
  (forall k, exists m', get Sample.full (load (cid_of root_layer Sample.kept)) k
                        = Ok (m', Sample.kept_map !! k) /\ models Sample.full m' Sample.kept_map)
  /\ exists m' l, leaves Sample.full (load (cid_of root_layer Sample.kept)) = Ok (m', l)
       /\ models Sample.full m' Sample.kept_map /\ sorted l /\ lists l Sample.kept_map.
Proof.
  apply reads_answer_from_the_map; exists root_layer, Sample.kept; split; [apply loaded|apply lists_records_of].
Defined.

Lemma same_records_same_root_witness :
  exists m m' r r' c,
    run Sample.store empty Sample.ops = Ok m /\ run Sample.full empty Sample.other_ops = Ok m'
    /\ root Sample.store m = Ok (r, c) /\ root Sample.full m' = Ok (r', c).
Proof.
  apply (same_records_same_root _ _ _ _ {[k2 := Sample.cid 2]}); vm_compute; reflexivity.
Defined.

Lemma stored_tree_reads_back_witness :
  exists m, run Sample.store empty Sample.adds = Ok m
    /\ exists m' root blocks, unstored_blocks Sample.store m = Ok (m', (root, blocks))
    /\ holds Sample.store root_layer m' Sample.kept /\ root = cid_of root_layer Sample.kept
    /\ forall st', extends Sample.store st' -> within blocks st' ->
         (exists n', holds st' n' (load root) Sample.kept)
         /\ exists m'', leaves st' (load root) = Ok (m'', Sample.kept).
Proof.
  destruct Sample.built as (m & E & Ht); exists m; split; [exact E|].
  apply stored_tree_reads_back; [apply _|exact Ht|apply Sample.closed_new|apply distinct].
Defined.

Lemma root_commits_to_records_witness :
  Sample.kept = Sample.kept.
Proof.
  exact (root_commits_to_records Sample.full _ _ _ _ good_leaves good_leaves (top_bound _) (top_bound _)
    (stored_map _ _ distinct) (stored_map _ _ distinct) distinct distinct eq_refl).
Defined.

(* ------------------------------------------------------------------ *)
(** ** Where two servers do not build the same tree *)

(** Taking the last record out keeps the layer of the node
    it was on ([delete_recurse] rebuilds the node with the layer it had, and an
    empty node has no leaf to learn another from), so a record added next in
    the same batch is hung under a node of that layer however low its own key
    sits. The records are then the same as if only the second had been added,
    and the root is not: here with the real hash and the real encoding. *)
Example stale_layer :
  let high := lit "E2/819540" in
  let low := lit "B0/601692" in
  let dropped := [Add high (Sample.cid 2); Delete high; Add low (Sample.cid 1)] in
  let fresh := [Add low (Sample.cid 1)] in
  let root_after ops := m ← run (H := Sha.sha) (Codec0 := DagCbor.writer) Sample.store empty ops;
                        r ← root (H := Sha.sha) (H0 := DagCbor.writer) Sample.store m; Ok (snd r) in
  spec_run ∅ dropped = spec_run ∅ fresh
  /\ is_ok (spec_run ∅ dropped) = true
  /\ is_ok (root_after dropped) = true /\ is_ok (root_after fresh) = true
  /\ root_after dropped <> root_after fresh.
Proof. vm_compute; repeat split; discriminate. Qed.
