(* ===== verification/Json.v ===== *)
(** * Json: records, and the JSON a client sees them as

    [src/src/repo/json.rs].  [Ipld] is the data model of a record and [Value]
    that of [serde_json]; both keep an object as a [BTreeMap], which here is
    the list of its entries in key order ([BTree]).  Base64 and the text of a
    CID belong to crates and are parameters. *)

From S2P Require Import Prelude Syntax Block.
From Stdlib Require Import Lia.

Local Open Scope Z_scope.

(* ------------------------------------------------------------------ *)
(** ** Ordered maps with string keys *)

Module BTree.
Section Map.
Context {A : Type}.
Implicit Types m : list (bytes * A).

(** [BTreeMap::insert], [remove], [get] and [from_iter]. *)
Fixpoint insert m (k : bytes) (v : A) : list (bytes * A) :=
  match m with
  | [] => [(k, v)]
  | (k', v') :: m =>
      match str_compare k k' with
      | Lt => (k, v) :: (k', v') :: m
      | Eq => (k, v) :: m
      | Gt => (k', v') :: insert m k v
      end
  end.
Fixpoint remove m (k : bytes) : list (bytes * A) :=
  match m with
  | [] => []
  | (k', v') :: m => if decide (k = k') then m else (k', v') :: remove m k
  end.
Fixpoint get m (k : bytes) : option A :=
  match m with
  | [] => None
  | (k', v) :: m => if decide (k = k') then Some v else get m k
  end.
Definition from_iter (entries : list (bytes * A)) : list (bytes * A) :=
  fold_left (fun m e => insert m (fst e) (snd e)) entries [].

(** In key order, no key twice. *)
Definition sorted m : Prop := StronglySorted (fun a b => str_lt (fst a) (fst b)) m.

Lemma insert_last m k v :
  Forall (fun e => str_lt (fst e) k) m -> insert m k v = m ++ [(k, v)].
Proof.
  induction 1 as [|[k' v'] m Hk Hm IH]; [done|]; cbn [insert fst] in *.
  rewrite (str_compare_antisym k' k), Hk; cbn. by rewrite IH.
Qed.

Lemma from_iter_sorted_acc entries acc :
  sorted (acc ++ entries) ->
  fold_left (fun m e => insert m (fst e) (snd e)) entries acc = acc ++ entries.
Proof.
  revert acc; induction entries as [|[k v] entries IH]; intros acc Hs; [by rewrite app_nil_r|].
  cbn [fold_left fst snd]; rewrite insert_last.
  - rewrite IH; rewrite <- app_assoc; done.
  - apply Forall_forall; intros e He. apply StronglySorted_app in Hs as (Hx & _ & _).
    apply (Hx e (k, v)); [done|left].
Qed.

(** Collecting entries that are already in order changes nothing. *)
Lemma from_iter_sorted entries : sorted entries -> from_iter entries = entries.
Proof. apply (from_iter_sorted_acc entries []). Qed.

Lemma insert_elem m k v e : e ∈ insert m k v -> e = (k, v) \/ e ∈ m.
Proof.
  induction m as [|[k' v'] m IH]; cbn [insert]; [set_solver|].
  destruct (str_compare k k'); rewrite ?elem_of_cons; [set_solver..|].
  intros [->|He]; [set_solver|]. destruct (IH He); set_solver.
Qed.

Lemma insert_sorted m k v : sorted m -> sorted (insert m k v).
Proof.
  induction 1 as [|[k' v'] m Hm IH Hf]; cbn [insert]; [repeat constructor|].
  destruct (str_compare k k') eqn:E.
  - apply str_compare_eq in E as <-. by constructor.
  - constructor; [by constructor|]. constructor; [done|].
    eapply Forall_impl; [exact Hf|]. intros e He; cbn in *. by eapply str_lt_trans.
  - constructor; [done|]. apply Forall_forall; intros e [->|He]%insert_elem.
    + unfold str_lt; rewrite str_compare_antisym; cbn. by rewrite E.
    + rewrite Forall_forall in Hf; by apply Hf.
Qed.

Lemma from_iter_is_sorted entries : sorted (from_iter entries).
Proof.
  unfold from_iter; assert (sorted (@nil (bytes * A))) as H by constructor.
  revert H; generalize (@nil (bytes * A)); induction entries as [|e entries IH]; intros m H; [done|].
  apply IH; by apply insert_sorted.
Qed.

Lemma get_insert_eq m k v : get (insert m k v) k = Some v.
Proof.
  induction m as [|[k' v'] m IH]; cbn [insert get]; [by rewrite decide_True|].
  destruct (str_compare k k') eqn:E; cbn [get]; try by rewrite decide_True.
  rewrite decide_False; [done|]. intros <-; by rewrite str_compare_refl in E.
Qed.

Lemma get_insert_ne m k k' v : k <> k' -> get (insert m k v) k' = get m k'.
Proof.
  intros Hne; induction m as [|[k2 v2] m IH]; cbn [insert get]; [by rewrite decide_False|].
  destruct (str_compare k k2) eqn:E; cbn [get].
  - apply str_compare_eq in E as <-. by rewrite !decide_False.
  - by rewrite (decide_False (P := k' = k)) by done.
  - by rewrite IH.
Qed.

Lemma get_None m k : get m k = None <-> Forall (fun e => k <> fst e) m.
Proof.
  induction m as [|[k' v'] m IH]; cbn [get]; [by split; constructor|].
  rewrite Forall_cons; cbn [fst]. case_decide; [naive_solver|]. rewrite IH; naive_solver.
Qed.

Lemma get_remove_eq m k : sorted m -> get (remove m k) k = None.
Proof.
  induction 1 as [|[k' v'] m Hm IH Hf]; cbn [remove]; [done|]. case_decide as Hk.
  - subst k'; apply get_None; eapply Forall_impl; [exact Hf|]. intros e He E; cbn in He.
    rewrite E in He; by apply str_lt_irrefl in He.
  - cbn [get]; by rewrite decide_False.
Qed.

Lemma get_remove_ne m k k' : k <> k' -> get (remove m k) k' = get m k'.
Proof.
  intros Hne; induction m as [|[k2 v2] m IH]; cbn [remove]; [done|].
  case_decide; cbn [get]; [by rewrite decide_False by congruence|by rewrite IH].
Qed.

Lemma remove_elem m k e : e ∈ remove m k -> e ∈ m.
Proof.
  induction m as [|[k2 v2] m IH]; cbn [remove]; [done|].
  case_decide; rewrite !elem_of_cons; naive_solver.
Qed.

Lemma remove_sorted m k : sorted m -> sorted (remove m k).
Proof.
  induction 1 as [|[k' v'] m Hm IH Hf]; cbn [remove]; [constructor|].
  case_decide; [done|]. constructor; [done|]. apply Forall_forall; intros e He%remove_elem.
  rewrite Forall_forall in Hf; by apply Hf.
Qed.

Lemma get_elem m k v : sorted m -> get m k = Some v <-> (k, v) ∈ m.
Proof.
  induction 1 as [|[k' v'] m Hm IH Hf]; cbn [get]; [set_solver|].
  rewrite elem_of_cons; case_decide as Hk.
  - subst k'; split; [intros [= ->]; by left|]. intros [[= ->]|Hin]; [done|].
    rewrite Forall_forall in Hf; specialize (Hf _ Hin); cbn in Hf. by apply str_lt_irrefl in Hf.
  - rewrite IH; naive_solver.
Qed.

End Map.

Lemma sorted_map {A B} (f : A -> B) m :
  sorted m -> sorted (map (fun e => (fst e, f (snd e))) m).
Proof.
  induction 1 as [|e m Hm IH Hf]; constructor; [done|].
  apply Forall_forall; intros e' (x & -> & Hx)%list_elem_of_fmap; cbn.
  rewrite Forall_forall in Hf; by apply Hf.
Qed.

Lemma sorted_keys {A B} (m : list (bytes * A)) (m' : list (bytes * B)) :
  map fst m = map fst m' -> sorted m -> sorted m'.
Proof.
  intros E Hm; revert m' E; induction Hm as [|e m Hm IH Hf]; intros [|e' m'] E; try done; [constructor|].
  injection E as E1 E2; constructor; [by apply IH|].
  apply Forall_forall; intros x Hx. rewrite <- E1.
  assert (fst x ∈ map fst m) as (y & -> & Hy)%list_elem_of_fmap
    by (rewrite E2; apply list_elem_of_fmap; by exists x).
  rewrite Forall_forall in Hf; by apply Hf.
Qed.

End BTree.

(* ------------------------------------------------------------------ *)
(** ** The two data models *)

(** [ipld_core::ipld::Ipld]; a float is its bits. *)
Inductive Ipld :=
| INull
| IBool (held : bool)
| IInteger (held : Z)
| IFloat (bits : Z)
| IString (held : bytes)
| IBytes (held : bytes)
| IList (held : list Ipld)
| IMap (held : list (bytes * Ipld))
| ILink (held : Cid).

(** [serde_json::Number]: an integer of 64 bits, signed or not, or a float. *)
Inductive Number :=
| NInteger (held : Z)
| NFloat (bits : Z).
Definition I64_MIN : Z := - 2 ^ 63.
Definition I64_MAX : Z := 2 ^ 63 - 1.
Definition as_i64 (n : Number) : option Z :=
  match n with
  | NInteger held => if between I64_MIN held I64_MAX then Some held else None
  | NFloat _ => None
  end.

(** [serde_json::Value]. *)
Inductive Value :=
| VNull
| VBool (held : bool)
| VNumber (held : Number)
| VString (held : bytes)
| VArray (held : list Value)
| VObject (held : list (bytes * Value)).

(** Base64 as the code configures it, and the text of a CID. *)
Class Base64 := {
  base64_encode : bytes -> bytes;
  base64_decode : bytes -> option bytes
}.
Class Base64Ok `{Base64} : Prop := {
  base64_roundtrip : forall b, base64_decode (base64_encode b) = Some b
}.
Class CidText := {
  cid_to_string : Cid -> bytes;
  cid_parse : bytes -> option Cid
}.
Class CidTextOk `{CidText} : Prop := {
  cid_text_roundtrip : forall c, cid_parse (cid_to_string c) = Some c
}.

Definition LINK : bytes := lit "$link".
Definition BYTES : bytes := lit "$bytes".

Section Json.
Context `{Base64} `{CidText}.

(** [tagged]. *)
Definition tagged (k held : bytes) : Value := VObject (BTree.from_iter [(k, VString held)]).

(** [reserved]. *)
Definition reserved (object : list (bytes * Value)) : option (bytes * Value) :=
  if negb (len object =? 1) then None else
  match BTree.get object LINK with
  | Some held => Some (LINK, held)
  | None =>
      match BTree.get object BYTES with
      | Some held => Some (BYTES, held)
      | None => None
      end
  end.

(** An entry whose conversion may fail. *)
Definition entry {E A} (k : bytes) (r : result E A) : result E (bytes * A) := v ← r; Ok (k, v).

(** [to_json]. *)
Fixpoint to_json (value : Ipld) : result RepoError Value :=
  match value with
  | INull => Ok VNull
  | IBool held => Ok (VBool held)
  | IInteger held =>
      if between I64_MIN held I64_MAX then Ok (VNumber (NInteger held))
      else Err (NotRecordData "an integer past 64 bits")
  | IFloat _ => Err (NotRecordData "a float")
  | IString held => Ok (VString held)
  | IBytes held => Ok (tagged BYTES (base64_encode held))
  | IList held => vs ← collect (map to_json held); Ok (VArray vs)
  | IMap held =>
      es ← collect (map (fun '(k, v) => entry k (to_json v)) held);
      Ok (VObject (BTree.from_iter es))
  | ILink held => Ok (tagged LINK (cid_to_string held))
  end.

(** [from_json]. *)
Fixpoint from_json (value : Value) : result RepoError Ipld :=
  match value with
  | VNull => Ok INull
  | VBool held => Ok (IBool held)
  | VNumber held =>
      match as_i64 held with
      | Some held => Ok (IInteger held)
      | None => Err (NotRecordData "a number that is not an integer")
      end
  | VString held => Ok (IString held)
  | VArray held => vs ← collect (map from_json held); Ok (IList vs)
  | VObject held =>
      match reserved held with
      | Some (k, VString text) =>
          if decide (k = LINK) then
            match cid_parse text with
            | Some cid => Ok (ILink cid)
            | None => Err (NotRecordData "a $link that is not a CID")
            end
          else
            match base64_decode text with
            | Some b => Ok (IBytes b)
            | None => Err (NotRecordData "a $bytes that is not base64")
            end
      | Some _ => Err (NotRecordData "a $link or $bytes holding no string")
      | None =>
          es ← collect (map (fun '(k, v) => entry k (from_json v)) held);
          Ok (IMap (BTree.from_iter es))
      end
  end.

End Json.

(* ================================================================== *)
(** * Facts *)

(** Induction that reaches into lists and maps. *)
Fixpoint ipld_ind' (P : Ipld -> Prop)
  (Hnull : P INull) (Hbool : forall b, P (IBool b)) (Hint : forall n, P (IInteger n))
  (Hfloat : forall f, P (IFloat f)) (Hstr : forall s, P (IString s)) (Hbytes : forall b, P (IBytes b))
  (Hlist : forall l, Forall P l -> P (IList l))
  (Hmap : forall m, Forall (fun e => P (snd e)) m -> P (IMap m))
  (Hlink : forall c, P (ILink c)) (v : Ipld) : P v :=
  let rec := ipld_ind' P Hnull Hbool Hint Hfloat Hstr Hbytes Hlist Hmap Hlink in
  match v with
  | INull => Hnull | IBool b => Hbool b | IInteger n => Hint n | IFloat f => Hfloat f
  | IString s => Hstr s | IBytes b => Hbytes b | ILink c => Hlink c
  | IList l => Hlist l ((fix all l : Forall P l :=
      match l with [] => Forall_nil_2 P | x :: l => Forall_cons_2 P x l (rec x) (all l) end) l)
  | IMap m => Hmap m ((fix all m : Forall (fun e => P (snd e)) m :=
      match m with
      | [] => Forall_nil_2 _
      | e :: m => Forall_cons_2 (fun e => P (snd e)) e m (rec (snd e)) (all m)
      end) m)
  end.

Fixpoint value_ind' (P : Value -> Prop)
  (Hnull : P VNull) (Hbool : forall b, P (VBool b)) (Hnum : forall n, P (VNumber n))
  (Hstr : forall s, P (VString s))
  (Hlist : forall l, Forall P l -> P (VArray l))
  (Hmap : forall m, Forall (fun e => P (snd e)) m -> P (VObject m)) (v : Value) : P v :=
  let rec := value_ind' P Hnull Hbool Hnum Hstr Hlist Hmap in
  match v with
  | VNull => Hnull | VBool b => Hbool b | VNumber n => Hnum n | VString s => Hstr s
  | VArray l => Hlist l ((fix all l : Forall P l :=
      match l with [] => Forall_nil_2 P | x :: l => Forall_cons_2 P x l (rec x) (all l) end) l)
  | VObject m => Hmap m ((fix all m : Forall (fun e => P (snd e)) m :=
      match m with
      | [] => Forall_nil_2 _
      | e :: m => Forall_cons_2 (fun e => P (snd e)) e m (rec (snd e)) (all m)
      end) m)
  end.

(** An object JSON would read as a link or as bytes. *)
Definition mistakable {A} (m : list (bytes * A)) : Prop :=
  exists k v, m = [(k, v)] /\ (k = LINK \/ k = BYTES).

(** The records the data model has room for: integers of 64 bits, no floats,
    maps in key order, none of them spelled like a link or like bytes. *)
Fixpoint record_data (v : Ipld) : Prop :=
  match v with
  | IInteger n => I64_MIN <= n <= I64_MAX
  | IFloat _ => False
  | IList l => foldr (fun x P => record_data x /\ P) True l
  | IMap m => BTree.sorted m /\ ~ mistakable m /\ foldr (fun e P => record_data (snd e) /\ P) True m
  | _ => True
  end.

(** What a parser of JSON hands over: every object in key order. *)
Fixpoint in_order (v : Value) : Prop :=
  match v with
  | VArray l => foldr (fun x P => in_order x /\ P) True l
  | VObject m => BTree.sorted m /\ foldr (fun e P => in_order (snd e) /\ P) True m
  | _ => True
  end.

Lemma foldr_Forall {A} (P : A -> Prop) l : foldr (fun x Q => P x /\ Q) True l <-> Forall P l.
Proof. induction l as [|x l IH]; cbn; [by split|]. by rewrite IH, Forall_cons. Qed.

(** Converting every element of a list, and every value of a map, given that
    each converts. *)
Lemma collect_convert {A B E} (f : A -> result E B) (Q : A -> B -> Prop) l :
  Forall (fun x => exists y, f x = Ok y /\ Q x y) l ->
  exists ys, collect (map f l) = Ok ys /\ Forall2 Q l ys.
Proof.
  induction 1 as [|x l (y & E1 & Hq) Hl (ys & E2 & H2)]; cbn; [by exists []|].
  rewrite E1, E2. eexists; split; [done|]. by constructor.
Qed.

Lemma collect_entries {A B E} (f : A -> result E B) (Q : A -> B -> Prop) m :
  Forall (fun e => exists y, f (snd e) = Ok y /\ Q (snd e) y) m ->
  exists es, collect (map (fun '(k, v) => entry k (f v)) m) = Ok es
    /\ map fst es = map fst m /\ Forall2 (fun e e' => fst e = fst e' /\ Q (snd e) (snd e')) m es.
Proof.
  induction 1 as [|[k x] m (y & E1 & Hq) Hm (es & E2 & Hk & H2)]; cbn in *; [by exists []|].
  unfold entry at 1; rewrite E1; cbn; rewrite E2.
  eexists; split; [done|]. split; [cbn; by f_equal|by constructor].
Qed.

Lemma collect_inv {A B E} (f : A -> result E B) l ys :
  collect (map f l) = Ok ys -> Forall2 (fun x y => f x = Ok y) l ys.
Proof.
  rewrite collect_Ok. revert ys; induction l as [|x l IH]; intros [|y ys] E1; try done.
  injection E1 as Ex El. constructor; [done|]. by apply IH.
Qed.

Lemma collect_entries_inv {A B E} (f : A -> result E B) m es :
  collect (map (fun '(k, v) => entry k (f v)) m) = Ok es ->
  map fst es = map fst m /\ Forall2 (fun e e' => fst e = fst e' /\ f (snd e) = Ok (snd e')) m es.
Proof.
  intros Hc%collect_inv; induction Hc as [|[k x] [k' y] m es Hx Hc [IH1 IH2]]; [by split|].
  unfold entry in Hx; destruct (f x) as [y'|] eqn:E1; [|done]; cbn in Hx; injection Hx as <- <-.
  cbn; split; [by f_equal|by constructor].
Qed.

Section JsonFacts.
Context `{Base64Ok} `{CidTextOk}.

Lemma reserved_tagged k held :
  k = LINK \/ k = BYTES -> reserved [(k, VString held)] = Some (k, VString held).
Proof. intros [->| ->]; reflexivity. Qed.

Lemma reserved_None m : reserved m = None <-> ~ mistakable m.
Proof.
  unfold reserved, mistakable. destruct (Z.eqb_spec (len m) 1) as [Hl|Hl]; cbn [negb].
  - destruct m as [|[k v] [|e m]]; try (rewrite !len_cons in Hl; pose proof (len_nonneg m)); try done; [|lia].
    cbn [BTree.get]; repeat case_decide; subst; split; try done; try (intros Hn; destruct Hn; eauto 6; done).
    intros _ (k' & v' & [= -> ->] & [->| ->]); done.
  - split; [|done]. intros _ (k & v & -> & _). done.
Qed.

Lemma reserved_Some m k v : reserved m = Some (k, v) -> m = [(k, v)] /\ (k = LINK \/ k = BYTES).
Proof.
  unfold reserved; destruct (Z.eqb_spec (len m) 1) as [Hl|]; [|done]; cbn [negb].
  destruct m as [|[k' v'] [|e m]]; try (rewrite !len_cons in Hl; pose proof (len_nonneg m)); try done; [|lia].
  cbn [BTree.get]; repeat case_decide; subst; intros [= <- <-]; auto.
Qed.

Lemma mistakable_keys {A B} (m : list (bytes * A)) (m' : list (bytes * B)) :
  map fst m = map fst m' -> mistakable m -> mistakable m'.
Proof.
  intros E (k & v & -> & Hk); destruct m' as [|[k' v'] [|? ?]]; try done.
  injection E as ->; by exists k', v'.
Qed.

(** A record shown and read back. *)
Lemma to_json_from_json v :
  record_data v -> exists j, to_json v = Ok j /\ from_json j = Ok v /\ in_order j.
Proof.
  induction v as [|b|n|f|s|b|l IH|m IH|c] using ipld_ind'; cbn [record_data to_json]; intros Hv;
    try done; try (eexists; split; [done|by split]).
  - apply between_spec in Hv; rewrite Hv. eexists; split; [done|]. cbn; by rewrite Hv.
  - eexists; split; [done|]. split; [|split; [repeat constructor|done]].
    unfold tagged; cbn [BTree.from_iter fold_left BTree.insert fst snd from_json].
    rewrite reserved_tagged by auto; cbn -[decide].
    rewrite decide_False by done. by rewrite base64_roundtrip.
  - apply foldr_Forall in Hv.
    destruct (collect_convert to_json (fun v j => from_json j = Ok v /\ in_order j) l) as (js & -> & Hall).
    { rewrite Forall_forall in *; eauto. }
    eexists; split; [done|]. cbn [from_json in_order].
    assert (map from_json js = Ok <$> l) as Hc.
    { clear -Hall; induction Hall as [|v j l js [E _] Hall IH]; [done|]. cbn; by rewrite E, IH. }
    rewrite (proj2 (collect_Ok _ l) Hc); split; [done|]. apply foldr_Forall.
    clear -Hall; induction Hall as [|v j l js [_ ?]]; by constructor.
  - destruct Hv as (Hs & Hm & Hv). apply (foldr_Forall (fun e => record_data (snd e))) in Hv.
    destruct (collect_entries to_json (fun v j => from_json j = Ok v /\ in_order j) m) as (es & -> & Hk & Hall).
    { rewrite Forall_forall in *; eauto. }
    assert (BTree.sorted es) as Hes by (by eapply BTree.sorted_keys).
    cbn [mbind result_bind]; rewrite BTree.from_iter_sorted by done. eexists; split; [done|].
    cbn [from_json in_order].
    rewrite (proj2 (reserved_None es)) by (intros Hx; apply Hm; by eapply mistakable_keys).
    assert (collect (map (fun '(k, v) => entry k (from_json v)) es) = Ok m) as ->.
    { apply collect_Ok. clear -Hall; induction Hall as [|[k v] [k' j] m es [E1 [E2 _]] Hall IH]; [done|].
      cbn in *; subst. unfold entry at 1; rewrite E2, IH. done. }
    cbn [mbind result_bind]; rewrite BTree.from_iter_sorted by done. split_and!; [done..|].
    apply (foldr_Forall (fun e => in_order (snd e))).
    clear -Hall; induction Hall as [|? ? ? ? [_ [_ ?]]]; by constructor.
  - eexists; split; [done|]. split; [|split; [repeat constructor|done]].
    unfold tagged; cbn [BTree.from_iter fold_left BTree.insert fst snd from_json].
    rewrite reserved_tagged by auto; cbn -[decide].
    rewrite decide_True by done. by rewrite cid_text_roundtrip.
Qed.

(** What is read from JSON is record data. *)
Lemma from_json_record_data j : forall v, in_order j -> from_json j = Ok v -> record_data v.
Proof.
  induction j as [|b|n|s|l IH|m IH] using value_ind'; cbn [from_json in_order]; intros v Ho Hv.
  1, 2, 4: by injection Hv as <-.
  - destruct n as [n|]; cbn in Hv; [|done].
    destruct (between I64_MIN n I64_MAX) eqn:E; [|done]. injection Hv as <-. by apply between_spec.
  - apply foldr_Forall in Ho. apply bind_Ok in Hv as (vs & Hc & [= <-]); cbn.
    apply foldr_Forall. apply collect_inv in Hc.
    induction Hc as [|x y l ys Hx Hc IHc]; constructor;
      apply Forall_cons in Ho as [? ?], IH as [? ?]; auto.
  - destruct Ho as [Hs Ho]; apply (foldr_Forall (fun e => in_order (snd e))) in Ho.
    destruct (reserved m) as [[k w]|] eqn:Er.
    + destruct w; try done. case_decide.
      * destruct (cid_parse held); [|done]. by injection Hv as <-.
      * destruct (base64_decode held); [|done]. by injection Hv as <-.
    + apply bind_Ok in Hv as (es & Hc & [= <-]).
      apply collect_entries_inv in Hc as [Hk Hc].
      assert (BTree.sorted es) as Hes by (by eapply BTree.sorted_keys).
      rewrite BTree.from_iter_sorted by done. cbn; split_and!; [done| |].
      * apply reserved_None in Er; intros Hx; apply Er; by eapply mistakable_keys.
      * apply (foldr_Forall (fun e => record_data (snd e))).
        clear Hes Hk Er Hs. induction Hc as [|x y m es [_ Hx] Hc IHc]; constructor;
          apply Forall_cons in Ho as [? ?], IH as [? ?]; auto.
Qed.

End JsonFacts.

(* ================================================================== *)
(** * The properties *)

Section Properties.
Context `{Base64Ok} `{CidTextOk}.

(** C36 (roundtrip). A record shown to a client and sent back is the same
    record: links, byte strings, lists and maps at any depth come back as they
    were, in the same key order. That covers every record the data model has
    room for: integers of 64 bits, no floats, and no map spelled like one of
    the two tagged objects. *)
Theorem record_json_roundtrip v :
  record_data v -> exists j, to_json v = Ok j /\ in_order j /\ from_json j = Ok v.
Proof. intros Hv; destruct (to_json_from_json v Hv) as (j & E & E' & Ho); eauto. Qed.

(** Whatever JSON a client sends, what [from_json] accepts is a
    record the data model has room for, so it can be shown again, and reading
    what is shown gives the same record: a write is never stored as something
    no read could give back. *)
Theorem accepted_json_can_be_shown j v :
  in_order j -> from_json j = Ok v ->
  record_data v /\ exists j', to_json v = Ok j' /\ from_json j' = Ok v.
Proof.
  intros Ho E; pose proof (from_json_record_data j v Ho E) as Hv; split; [done|].
  destruct (to_json_from_json v Hv) as (j' & ? & ? & _); eauto.
Qed.

End Properties.

(** A base64 and a CID text that read back, for the properties that need
    one: the bytes as they are, and the number a CID is coded by. *)
Module Plain.

#[export] Instance base64 : Base64 := {| base64_encode b := b; base64_decode b := Some b |}.
#[export] Instance base64_ok : Base64Ok.
Proof. by split. Qed.

#[export] Instance cid_text : CidText := {|
  cid_to_string c := [Zpos (countable.encode c)];
  cid_parse b := match b with [Zpos p] => countable.decode p | _ => None end
|}.
#[export] Instance cid_text_ok : CidTextOk.
Proof. split; intros c; apply decode_encode. Qed.

Definition cid : Cid := MkCid 1 113 18 [1; 2; 3].
Definition record : Ipld :=
  IMap [(lit "$type", IString (lit "com.example.record"));
        (lit "blob", ILink cid);
        (lit "list", IList [IInteger (-7); INull; IBytes [0; 255]; IMap []])].
Definition json : Value :=
  VObject [(lit "$type", VString (lit "com.example.record"));
           (lit "blob", VObject [(LINK, VString [Zpos (countable.encode cid)])]);
           (lit "list", VArray [VNumber (NInteger (-7)); VNull; VObject [(BYTES, VString [0; 255])]; VObject []])].

Lemma record_ok : record_data record.
Proof.
  cbn; unfold I64_MIN, I64_MAX; split_and!; try done; try lia;
    try (by intros (? & ? & ? & _)); by repeat constructor.
Qed.

Lemma json_ok : in_order json.
Proof. cbn; split_and!; try done; repeat constructor. Qed.

End Plain.
#[local] Existing Instances Plain.base64 Plain.base64_ok Plain.cid_text Plain.cid_text_ok.

Lemma record_json_roundtrip_witness :
  exists j, to_json Plain.record = Ok j /\ in_order j /\ from_json j = Ok Plain.record.
Proof. apply record_json_roundtrip, Plain.record_ok. Defined.

Lemma accepted_json_can_be_shown_witness :
  record_data Plain.record /\ exists j', to_json Plain.record = Ok j' /\ from_json j' = Ok Plain.record.
Proof. apply (accepted_json_can_be_shown Plain.json); [apply Plain.json_ok|vm_compute; reflexivity]. Defined.
