(* ===== verification/Car.v ===== *)
(** * Car: the file a repository travels in

    [src/src/repo/car.rs].  A file is a length-prefixed header and then
    length-prefixed blocks, each its CID and its bytes.  The varints
    ([unsigned_varint]) and the binary form of a CID ([cid]) belong to crates
    and are parameters. *)

From S2P Require Import Prelude Syntax Block Mst Concrete.
From Stdlib Require Import Lia.

Local Open Scope Z_scope.

(** [unsigned_varint::encode::u64] and [decode::u64]. *)
Class Varint := {
  varint_encode : Z -> bytes;
  varint_decode : bytes -> option (Z * bytes)
}.
Class VarintOk `{Varint} : Prop := {
  varint_roundtrip : forall n rest, 0 <= n <= U64_MAX ->
    varint_decode (varint_encode n ++ rest) = Some (n, rest);
  varint_nonempty : forall n, varint_encode n <> [];
  varint_takes : forall b n rest, varint_decode b = Some (n, rest) -> (length rest < length b)%nat;
  varint_range : forall b n rest, varint_decode b = Some (n, rest) -> 0 <= n <= U64_MAX
}.

(** [Cid::to_bytes] and [Cid::read_bytes]. *)
Class CidBytes := {
  cid_to_bytes : Cid -> bytes;
  cid_read_bytes : bytes -> option (Cid * bytes)
}.
Class CidBytesOk `{CidBytes} : Prop := {
  cid_bytes_roundtrip : forall c rest, cid_read_bytes (cid_to_bytes c ++ rest) = Some (c, rest)
}.

(** [Header]. *)
Record Header := MkHeader { version : Z; roots : list Cid }.

#[export] Instance Header_eq_dec : EqDecision Header.
Proof. solve_decision. Defined.

Section Car.
Context `{Sha256} `{Varint} `{CidBytes} `{Codec Header}.

(** [push_varint]. *)
Definition push_varint (out : bytes) (value : Z) : bytes := out ++ varint_encode value.

(** [header]. *)
Definition header (roots : list Cid) : result RepoError bytes :=
  header ← encode (MkHeader 1 roots);
  Ok (push_varint [] (len header) ++ header).

(** [push]. *)
Definition push (car : bytes) (cid : Cid) (b : bytes) : bytes :=
  let cid := cid_to_bytes cid in
  push_varint car (len cid + len b) ++ cid ++ b.

(** [rooted], [write] and [write_blocks]. *)
Definition rooted (roots : list Cid) (blocks : BlockMap.t) : result RepoError bytes :=
  car ← header roots;
  Ok (fold_left (fun car '(cid, b) => push car cid b) (BlockMap.iter blocks) car).
Definition write (root : Cid) (blocks : BlockMap.t) : result RepoError bytes := rooted [root] blocks.
Definition write_blocks (blocks : BlockMap.t) : result RepoError bytes := rooted [] blocks.

(** [hashes_to]. *)
Definition hashes_to (cid : Cid) (b : bytes) : bool :=
  (hash_code cid =? SHA2_256) && bool_decide (hash_digest cid = sha256 b).

(** [take_chunk], [usize] being 64 bits. *)
Definition take_chunk (b : bytes) : result RepoError (bytes * bytes) :=
  match varint_decode b with
  | None => Err (MalformedCar "a length that is not a varint")
  | Some (n, rest) =>
      if n <=? len rest then Ok (take (Z.to_nat n) rest, drop (Z.to_nat n) rest)
      else Err (MalformedCar "a length past the file")
  end.

(** The loop of [read_roots]. A chunk takes at least one byte, so a file's
    length is fuel enough ([read_loop_total]). *)
Fixpoint read_loop (fuel : nat) (rest : bytes) (blocks : BlockMap.t) : option (result RepoError BlockMap.t) :=
  match rest with
  | [] => Some (Ok blocks)
  | _ =>
      match fuel with
      | O => None
      | S fuel =>
          match take_chunk rest with
          | Err e => Some (Err e)
          | Ok (chunk, next) =>
              match cid_read_bytes chunk with
              | None => Some (Err (MalformedCar "a block under something that is not a CID"))
              | Some (cid, reading) =>
                  if negb (hashes_to cid reading) then Some (Err (WrongCid cid))
                  else read_loop fuel next (BlockMap.insert blocks cid reading)
              end
          end
      end
  end.

(** [read_roots]. *)
Definition read_roots (car : bytes) : option (result RepoError (list Cid * BlockMap.t)) :=
  match take_chunk car with
  | Err e => Some (Err e)
  | Ok (header, rest) =>
      match decode header : result RepoError Header with
      | Err e => Some (Err e)
      | Ok header =>
          if negb (version header =? 1) then Some (Err (MalformedCar "not a version 1 file"))
          else match read_loop (length rest) rest BlockMap.new with
               | None => None
               | Some (Err e) => Some (Err e)
               | Some (Ok blocks) => Some (Ok (roots header, blocks))
               end
      end
  end.

(** [read] and [read_blocks]. *)
Definition read (car : bytes) : option (result RepoError (Cid * BlockMap.t)) :=
  match read_roots car with
  | None => None
  | Some (Err e) => Some (Err e)
  | Some (Ok (roots, blocks)) =>
      Some (match roots with
            | [root] =>
                held ← BlockMap.contains blocks root;
                if (held : bool) then Ok (root, blocks) else Err (MissingBlock root)
            | _ => Err (MalformedCar "not exactly one root")
            end)
  end.
Definition read_blocks (car : bytes) : option (result RepoError BlockMap.t) :=
  match read_roots car with
  | None => None
  | Some r => Some (snd <$> r)
  end.

End Car.

(* ================================================================== *)
(** * Facts *)

(** Every block of a map is what its CID says. *)
Definition sound `{Sha256} (blocks : BlockMap.t) : Prop :=
  forall c b, blocks !! c = Some b -> hashes_to c b = true.

(** Lengths a file can write. *)
Definition writable `{CidBytes} (c : Cid) (b : bytes) : Prop := len (cid_to_bytes c) + len b <= U64_MAX.

Section Facts.
Context `{Sha256} `{VarintOk} `{CidBytesOk} `{CodecOk Header}.

Lemma take_chunk_app chunk rest :
  len chunk <= U64_MAX -> take_chunk (varint_encode (len chunk) ++ chunk ++ rest) = Ok (chunk, rest).
Proof.
  intros Hl; unfold take_chunk; rewrite varint_roundtrip by (pose proof (len_nonneg chunk); lia).
  rewrite len_app. destruct (Z.leb_spec (len chunk) (len chunk + len rest)); [|pose proof (len_nonneg rest); lia].
  unfold len; rewrite Nat2Z.id. by rewrite take_app_length, drop_app_length.
Qed.

Lemma take_chunk_shrinks b chunk rest : take_chunk b = Ok (chunk, rest) -> (length rest < length b)%nat.
Proof.
  unfold take_chunk; destruct (varint_decode b) as [[n r]|] eqn:E; [|done].
  destruct (n <=? len r); [|done]. intros [= <- <-]. apply varint_takes in E. rewrite length_drop; lia.
Qed.

(** The fuel never runs out. *)
Lemma read_loop_total fuel : forall rest blocks,
  (length rest <= fuel)%nat -> exists r, read_loop fuel rest blocks = Some r.
Proof.
  induction fuel as [|fuel IH]; intros [|x rest] blocks Hf; try (cbn in Hf; lia); cbn [read_loop]; eauto.
  destruct (take_chunk (x :: rest)) as [[chunk next]|e] eqn:E; [|eauto].
  apply take_chunk_shrinks in E. destruct (cid_read_bytes chunk) as [[c b]|]; [|eauto].
  destruct (negb _); [eauto|]. apply IH. cbn in *; lia.
Qed.

Lemma read_loop_fuel fuel : forall fuel' rest blocks,
  (length rest <= fuel)%nat -> (length rest <= fuel')%nat ->
  read_loop fuel rest blocks = read_loop fuel' rest blocks.
Proof.
  induction fuel as [|fuel IH]; intros [|fuel'] [|x rest] blocks Hf Hf'; try done; try (cbn in *; lia).
  cbn [read_loop]; destruct (take_chunk (x :: rest)) as [[chunk next]|e] eqn:E; [|done].
  apply take_chunk_shrinks in E. destruct (cid_read_bytes chunk) as [[c b]|]; [|done].
  destruct (negb _); [done|]. apply IH; cbn in *; lia.
Qed.

Definition chunk_of (e : Cid * bytes) : bytes :=
  varint_encode (len (cid_to_bytes (fst e)) + len (snd e)) ++ cid_to_bytes (fst e) ++ snd e.

Lemma push_all es car :
  fold_left (fun car '(c, b) => push car c b) es car = car ++ concat (map chunk_of es).
Proof.
  revert car; induction es as [|[c b] es IH]; intros car; cbn [fold_left map concat]; [by rewrite app_nil_r|].
  rewrite IH; unfold push, push_varint, chunk_of; cbn [fst snd]. by rewrite <- !app_assoc.
Qed.

Lemma chunk_of_nonempty e : chunk_of e <> [].
Proof. unfold chunk_of; intros [? _]%app_eq_nil; by eapply varint_nonempty. Qed.

Lemma read_loop_chunks es : forall fuel blocks,
  (length (concat (map chunk_of es)) <= fuel)%nat ->
  Forall (fun e => hashes_to (fst e) (snd e) = true /\ writable (fst e) (snd e)) es ->
  read_loop fuel (concat (map chunk_of es)) blocks
  = Some (Ok (fold_left (fun m e => <[fst e := snd e]> m) es blocks)).
Proof.
  induction es as [|[c b] es IH]; intros fuel blocks Hf Hall; cbn [map concat fold_left]; [by destruct fuel|].
  apply Forall_cons in Hall as [[Hh Hw] Hall]; cbn [fst snd] in *.
  cbn [map concat] in Hf; rewrite length_app in Hf.
  pose proof (chunk_of_nonempty (c, b)) as Hne.
  assert (0 < length (chunk_of (c, b)))%nat as Hpos by (destruct (chunk_of (c, b)); [done|cbn; lia]).
  destruct fuel as [|fuel]; [lia|].
  destruct (chunk_of (c, b) ++ concat (map chunk_of es)) as [|x r] eqn:E.
  { apply app_eq_nil in E as [? _]; done. }
  cbn [read_loop]; rewrite <- E. unfold chunk_of at 1; cbn [fst snd]; rewrite <- !app_assoc.
  rewrite <- len_app, (app_assoc (cid_to_bytes c)), take_chunk_app by (by rewrite len_app).
  rewrite cid_bytes_roundtrip, Hh; cbn [negb].
  rewrite IH by (lia || done). done.
Qed.

Lemma fold_inserts (es : list (Cid * bytes)) (m : gmap Cid bytes) :
  NoDup (map fst es) -> fold_left (fun m e => <[fst e := snd e]> m) es m = list_to_map es ∪ m.
Proof.
  revert m; induction es as [|[c b] es IH]; intros m Hnd; cbn [fold_left list_to_map map foldr fst snd].
  { by rewrite (left_id_L ∅ (∪)). }
  apply NoDup_cons in Hnd as [Hc Hnd]; rewrite IH by done.
  assert (list_to_map es !! c = (None : option bytes)) as Hn by (by apply not_elem_of_list_to_map_1).
  apply map_eq; intros c'. destruct (decide (c = c')) as [<-|Hne].
  - rewrite lookup_union, Hn, lookup_union, !lookup_insert_eq. by destruct (m !! c).
  - rewrite !lookup_union, !lookup_insert_ne by done. done.
Qed.

Lemma iter_map (blocks : BlockMap.t) : list_to_map (BlockMap.iter blocks) = blocks.
Proof.
  rewrite <- (list_to_map_to_list blocks) at 2. apply list_to_map_proper; [|apply iter_perm].
  rewrite (iter_perm blocks). apply NoDup_fst_map_to_list.
Qed.

Lemma iter_nodup (blocks : BlockMap.t) : NoDup (map fst (BlockMap.iter blocks)).
Proof. rewrite (iter_perm blocks). apply NoDup_fst_map_to_list. Qed.

(** Reading what was written, blocks in any order. *)
Lemma read_pushed rs es :
  Forall (fun e => hashes_to (fst e) (snd e) = true /\ writable (fst e) (snd e)) es -> NoDup (map fst es) ->
  len (dag_cbor (MkHeader 1 rs)) <= U64_MAX ->
  exists top, header rs = Ok top
    /\ read_roots (top ++ concat (map chunk_of es)) = Some (Ok (rs, list_to_map es)).
Proof.
  intros Hall Hnd Hh; unfold header; rewrite encode_ok; cbn [mbind result_bind].
  eexists; split; [done|]. unfold push_varint; cbn [app].
  rewrite <- app_assoc; unfold read_roots; rewrite take_chunk_app by done.
  rewrite decode_ok; cbn -[read_loop]. rewrite read_loop_chunks by (lia || done).
  cbn. unfold BlockMap.new. by rewrite fold_inserts, (right_id_L ∅ (∪)).
Qed.

Lemma read_rooted rs blocks :
  sound blocks -> (forall c b, blocks !! c = Some b -> writable c b) ->
  len (dag_cbor (MkHeader 1 rs)) <= U64_MAX ->
  exists car, rooted rs blocks = Ok car /\ read_roots car = Some (Ok (rs, blocks)).
Proof.
  intros Hs Hw Hh; destruct (read_pushed rs (BlockMap.iter blocks)) as (h & E & Er); [|apply iter_nodup|done|].
  - apply Forall_forall; intros [c b] He%iter_elem; cbn; auto.
  - unfold rooted; rewrite E; cbn [mbind result_bind]. eexists; split; [done|].
    by rewrite push_all, Er, iter_map.
Qed.

(** What reading says of any file at all. *)
Lemma read_loop_sound fuel : forall rest blocks blocks',
  sound blocks -> read_loop fuel rest blocks = Some (Ok blocks') -> sound blocks'.
Proof.
  induction fuel as [|fuel IH]; intros [|x rest] blocks blocks' Hs; cbn [read_loop]; try done;
    try (by intros [= <-]).
  destruct (take_chunk (x :: rest)) as [[chunk next]|e]; [|done].
  destruct (cid_read_bytes chunk) as [[c b]|]; [|done].
  destruct (hashes_to c b) eqn:Eh; [|done]; cbn [negb]. apply IH.
  intros c' b'; unfold BlockMap.insert; rewrite lookup_insert_Some. intros [[-> <-]|[_ ?]]; eauto.
Qed.

Lemma read_roots_sound car rs blocks : read_roots car = Some (Ok (rs, blocks)) -> sound blocks.
Proof.
  unfold read_roots; destruct (take_chunk car) as [[h rest]|]; [|done].
  destruct (decode h) as [h'|]; [|done]. destruct (negb _); [done|].
  destruct (read_loop _ _ _) as [[bs|]|] eqn:E; try done. intros [= _ <-].
  eapply read_loop_sound; [|exact E]. intros c b; unfold BlockMap.new; by rewrite lookup_empty.
Qed.

Lemma read_roots_total car : exists r, read_roots car = Some r.
Proof.
  unfold read_roots; destruct (take_chunk car) as [[h rest]|]; [|eauto].
  destruct (decode h) as [h'|]; [|eauto]. destruct (negb _); [eauto|].
  destruct (read_loop_total (length rest) rest BlockMap.new) as [[r|e] ->]; [done|by eexists..].
Qed.

(* ================================================================== *)
(** * The properties *)

(** A file reads back as what was written into it: whatever
    blocks go in, each under its own hash, the same root and the same blocks
    come out; a file written without the block its root names is refused for
    that block, and a file of blocks under no root gives the blocks alone. The
    bound says the lengths fit the 64 bits they are written in. *)
Theorem car_roundtrip root blocks :
  sound blocks -> (forall c b, blocks !! c = Some b -> writable c b) ->
  len (dag_cbor (MkHeader 1 [root])) <= U64_MAX -> len (dag_cbor (MkHeader 1 [])) <= U64_MAX ->
  (exists car, write root blocks = Ok car
    /\ read car = Some (if bool_decide (is_Some (blocks !! root)) then Ok (root, blocks)
                        else Err (MissingBlock root))
    /\ read_blocks car = Some (Ok blocks))
  /\ exists car, write_blocks blocks = Ok car /\ read_blocks car = Some (Ok blocks)
       /\ read car = Some (Err (MalformedCar "not exactly one root")).
Proof.
  intros Hs Hw Hh Hh0; split.
  - destruct (read_rooted [root] blocks Hs Hw Hh) as (car & E & Er).
    exists car; split; [done|]. unfold read, read_blocks; rewrite Er; cbn. by case_bool_decide.
  - destruct (read_rooted [] blocks Hs Hw Hh0) as (car & E & Er).
    exists car; split; [done|]. unfold read, read_blocks; by rewrite Er.
Qed.

(** C35 (safety). Whatever bytes arrive as a file, reading them ends, and what
    it accepts can be trusted: every block is under the sha-256 of its own
    bytes, and the root is one of the blocks. *)
Theorem car_read_is_checked car :
  exists r, read car = Some r
    /\ forall root blocks, r = Ok (root, blocks) ->
         is_Some (blocks !! root)
         /\ forall c b, blocks !! c = Some b -> hash_code c = SHA2_256 /\ hash_digest c = sha256 b.
Proof.
  destruct (read_roots_total car) as (r & Er).
  unfold read; rewrite Er; destruct r as [[rs bs]|]; [|by eexists].
  eexists; split; [done|]. intros root blocks Hr; cbn in Hr. destruct rs as [|r0 [|? ?]]; try done.
  case_bool_decide as Hb; [|done]. injection Hr as <- <-. split; [done|].
  intros c b Hc; pose proof (read_roots_sound _ _ _ Er c b Hc) as Hh; unfold hashes_to in Hh.
  apply andb_true_iff in Hh as [Hc1 Hc2%bool_decide_eq_true]. by apply Z.eqb_eq in Hc1.
Qed.

End Facts.

(* ------------------------------------------------------------------ *)
(** ** At a concrete file *)

Module Sample.

(** LEB128, seven bits at a time, lowest first. *)
Fixpoint leb_encode (fuel : nat) (n : Z) : bytes :=
  match fuel with
  | O => [n]
  | S fuel => if n <? 128 then [n] else n mod 128 + 128 :: leb_encode fuel (n / 128)
  end.
Fixpoint leb_decode (b : bytes) : option (Z * bytes) :=
  match b with
  | [] => None
  | x :: b =>
      if x <? 128 then Some (x, b) else
      match leb_decode b with
      | Some (n, rest) => Some (x - 128 + 128 * n, rest)
      | None => None
      end
  end.

#[export] Instance varint : Varint := {|
  varint_encode n := leb_encode 9 n;
  varint_decode b := match leb_decode b with
    | Some (n, rest) => if between 0 n U64_MAX then Some (n, rest) else None
    | None => None
    end
|}.

Lemma leb_roundtrip fuel : forall n rest,
  0 <= n < 128 * 128 ^ Z.of_nat fuel -> leb_decode (leb_encode fuel n ++ rest) = Some (n, rest).
Proof.
  induction fuel as [|fuel IH]; intros n rest Hn; cbn [leb_encode].
  - cbn [app leb_decode]. rewrite (proj2 (Z.ltb_lt n 128)) by lia. done.
  - destruct (Z.ltb_spec n 128); cbn [app leb_decode].
    { by rewrite (proj2 (Z.ltb_lt n 128)). }
    pose proof (Z.mod_pos_bound n 128 ltac:(lia)).
    rewrite (proj2 (Z.ltb_ge _ 128)) by lia.
    rewrite Nat2Z.inj_succ, Z.pow_succ_r in Hn by lia.
    rewrite IH; [|split; [apply Z.div_pos; lia|apply Z.div_lt_upper_bound; lia]].
    do 2 f_equal. pose proof (Z.div_mod n 128); lia.
Qed.

Lemma leb_takes b : forall n rest, leb_decode b = Some (n, rest) -> (length rest < length b)%nat.
Proof.
  induction b as [|x b IH]; intros n rest; cbn [leb_decode]; [done|].
  destruct (x <? 128); [intros [= _ <-]; cbn; lia|].
  destruct (leb_decode b) as [[n' r]|]; [|done]. intros [= _ <-].
  specialize (IH _ _ eq_refl); cbn; lia.
Qed.

#[export] Instance varint_ok : VarintOk.
Proof.
  split; cbn [varint_encode varint_decode varint].
  - intros n rest Hn; rewrite leb_roundtrip by (unfold U64_MAX in *; lia).
    by rewrite (proj2 (between_spec 0 n U64_MAX)).
  - intros n; cbn [leb_encode]. by destruct (n <? 128).
  - intros b n rest; destruct (leb_decode b) as [[n' r]|] eqn:E; [|done].
    destruct (between _ _ _); [|done]. intros [= <- <-]. by eapply leb_takes.
  - intros b n rest; destruct (leb_decode b) as [[n' r]|] eqn:E; [|done].
    destruct (between 0 n' U64_MAX) eqn:Eb; [|done]. intros [= <- <-]. by apply between_spec.
Qed.

(** A CID as the one number it is coded by. *)
#[export] Instance cid_bytes : CidBytes := {|
  cid_to_bytes c := [Zpos (countable.encode c)];
  cid_read_bytes b := match b with
    | Zpos p :: rest => match countable.decode p with Some c => Some (c, rest) | None => None end
    | _ => None
    end
|}.
#[export] Instance cid_bytes_ok : CidBytesOk.
Proof. split; intros c rest; cbn; by rewrite decode_encode. Qed.

#[export] Instance Header_countable : Countable Header.
Proof. apply (inj_countable' (fun h => (version h, roots h)) (fun '(v, r) => MkHeader v r)); by intros []. Defined.

#[export] Existing Instances Sha.sha Sha.sha_ok Coded.codec Coded.codec_ok.

Definition block : bytes := lit "a block".
Definition cid : Cid := cid_for block.
Definition blocks : BlockMap.t := {[cid := block]}.

End Sample.

Section AtSample.
#[local] Existing Instances Sample.varint Sample.varint_ok Sample.cid_bytes Sample.cid_bytes_ok
  Sample.Header_countable Sha.sha Sha.sha_ok Coded.codec Coded.codec_ok.

Lemma car_roundtrip_witness :
  (exists car, write Sample.cid Sample.blocks = Ok car
    /\ read car = Some (if bool_decide (is_Some (Sample.blocks !! Sample.cid)) then Ok (Sample.cid, Sample.blocks)
                        else Err (MissingBlock Sample.cid))
    /\ read_blocks car = Some (Ok Sample.blocks))
  /\ exists car, write_blocks Sample.blocks = Ok car /\ read_blocks car = Some (Ok Sample.blocks)
       /\ read car = Some (Err (MalformedCar "not exactly one root")).
Proof.
  apply car_roundtrip.
  - intros c b Hc; unfold Sample.blocks in Hc; apply lookup_singleton_Some in Hc as [<- <-]. vm_compute; reflexivity.
  - intros c b Hc; unfold Sample.blocks in Hc; apply lookup_singleton_Some in Hc as [<- <-]. vm_compute; discriminate.
  - vm_compute; discriminate.
  - vm_compute; discriminate.
Defined.

(** A file of one block is read, and is what the theorem says; with one byte of
    the block changed it is refused. *)
Definition one_block : bytes := match write Sample.cid Sample.blocks with Ok car => car | Err _ => [] end.
Definition altered : bytes := removelast one_block ++ [0].

Lemma car_read_is_checked_witness :
  (exists blocks, read one_block = Some (Ok (Sample.cid, blocks)) /\ is_Some (blocks !! Sample.cid)
     /\ forall c b, blocks !! c = Some b -> hash_code c = SHA2_256 /\ hash_digest c = sha256 b)
  /\ exists e, read altered = Some (Err e).
Proof.
  split.
  - destruct (car_read_is_checked one_block) as (r & E & Hr).
    assert (match read one_block with Some (Ok (root, _)) => bool_decide (root = Sample.cid) | _ => false end = true) as Hk
      by (vm_compute; reflexivity).
    rewrite E in Hk. destruct r as [[root blocks]|e]; [|discriminate Hk]. apply bool_decide_eq_true in Hk as ->.
    exists blocks; split; [exact E|]. exact (Hr _ _ eq_refl).
  - destruct (car_read_is_checked altered) as (r & E & _).
    assert (match read altered with Some (Err _) => true | _ => false end = true) as Hk by (vm_compute; reflexivity).
    rewrite E in Hk. destruct r as [?|e]; [discriminate Hk|]. exists e; exact E.
Defined.

End AtSample.
