(* ===== verification/MstDiff.v ===== *)
(** * MstDiff: what one revision of the tree stops reaching

    [Mst::dropped] of [src/src/repo/mst.rs] with its [Diff] and its [Walker].
    Two walkers go over the two trees side by side, each with the [seen] set of
    a reader of its own.  Where the code pushes onto the end of [stack], the
    list here grows at its head. *)

From S2P Require Import Prelude Syntax Block Mst.

(** [Diff], whose sets are [BTreeSet]s. *)
Record Diff := MkDiff { added : gset Cid; removed : gset Cid }.

Definition diff_add (d : Diff) (cid : Cid) : Diff :=
  if decide (cid ∈ removed d) then MkDiff (added d) (removed d ∖ {[cid]})
  else MkDiff ({[cid]} ∪ added d) (removed d).
Definition diff_remove (d : Diff) (cid : Cid) : Diff :=
  if decide (cid ∈ added d) then MkDiff (added d ∖ {[cid]}) (removed d)
  else MkDiff (added d) ({[cid]} ∪ removed d).

(** [At], [Cursor], [Level] and [Walker]. *)
Inductive At := AtLeaf | AtTree.

#[export] Instance At_eq_dec : EqDecision At.
Proof. solve_decision. Defined.

Inductive Cursor :=
| CRoot (m : Mst)
| CNode
| CDone.

Record Level := MkLevel {
  lv_entries : list Entry;
  lv_index : nat;
  lv_layer : nat
}.

Record Walker := MkWalker {
  w_seen : gset Cid;
  w_stack : list Level;
  w_cursor : Cursor;
  w_above : nat
}.

Section Walk.
Context `{Sha256} `{Codec NodeData} (st : Store).

(** A call that reads through the walker's own reader. *)
Definition reads {A} (w : Walker) (c : M A) : result RepoError (A * Walker) :=
  match c (w_seen w) with
  | (seen, Ok a) => Ok (a, MkWalker seen (w_stack w) (w_cursor w) (w_above w))
  | (_, Err e) => Err e
  end.

(** [Walker::new]. *)
Definition walker_new (root : Mst) : result RepoError Walker :=
  match get_layer st MAX_DEPTH root ∅ with
  | (seen, Ok (root, layer)) => Ok (MkWalker seen [] (CRoot root) (layer + 1))
  | (_, Err e) => Err e
  end.

(** [Walker::entry], [at], [key] and [layer]. *)
Definition w_entry (w : Walker) : option Entry :=
  match w_stack w with
  | [] => None
  | level :: _ => lv_entries level !! lv_index level
  end.
Definition w_at (w : Walker) : option At :=
  match w_cursor w with
  | CRoot _ => Some AtTree
  | CNode =>
      match w_entry w with
      | Some (ELeaf _) => Some AtLeaf
      | Some (ETree _) => Some AtTree
      | None => None
      end
  | CDone => None
  end.
Definition w_key (w : Walker) : option bytes :=
  match w_entry w with Some (ELeaf leaf) => Some (key leaf) | _ => None end.
Definition w_layer (w : Walker) : nat :=
  match w_stack w with [] => w_above w | level :: _ => lv_layer level end.

(** The entry under the cursor, put back as a read left it. *)
Definition set_entry (level : Level) (m : Mst) : Level :=
  MkLevel (<[lv_index level := ETree m]> (lv_entries level)) (lv_index level) (lv_layer level).

(** [Walker::cid]. *)
Definition w_cid (w : Walker) : result RepoError (Cid * Walker) :=
  match w_cursor w with
  | CRoot root =>
      '(root, cid, w) ← reads w (root_in st MAX_DEPTH root);
      Ok (cid, MkWalker (w_seen w) (w_stack w) (CRoot root) (w_above w))
  | CDone => Err (MalformedNode "a walk past its last entry")
  | CNode =>
      match w_stack w with
      | [] => Err (MalformedNode "a walk inside no node")
      | level :: stack =>
          match lv_entries level !! lv_index level with
          | Some (ELeaf leaf) => Ok (value leaf, w)
          | Some (ETree subtree) =>
              '(subtree, cid, w) ← reads w (root_in st MAX_DEPTH subtree);
              Ok (cid, MkWalker (w_seen w) (set_entry level subtree :: stack) CNode (w_above w))
          | None => Err (MalformedNode "a walk past its last entry")
          end
      end
  end.

(** [Walker::step_over]: the loop that moves on or climbs out. *)
Fixpoint climb (stack : list Level) : list Level * Cursor :=
  match stack with
  | [] => ([], CDone)
  | level :: stack =>
      let level := MkLevel (lv_entries level) (S (lv_index level)) (lv_layer level) in
      if lv_index level <? length (lv_entries level) then (level :: stack, CNode) else climb stack
  end.
Definition step_over (w : Walker) : Walker :=
  match w_cursor w with
  | CDone => w
  | CRoot _ => MkWalker (w_seen w) (w_stack w) CDone (w_above w)
  | CNode =>
      let '(stack, cursor) := climb (w_stack w) in
      MkWalker (w_seen w) stack cursor (w_above w)
  end.

(** [Level::of]. *)
Definition level_of (node : Mst) : M (Mst * Level) :=
  '(node, layer) ← get_layer st MAX_DEPTH node;
  '(node, es) ← get_entries st node;
  mret (node, MkLevel es 0 layer).

(** What [step_into] does once it has the level. *)
Definition enter (w : Walker) (stack : list Level) (level : Level) : Walker :=
  let w := MkWalker (w_seen w) (level :: stack) CNode (w_above w) in
  match w_entry w with None => step_over w | Some _ => w end.

(** [Walker::step_into]. *)
Definition step_into (w : Walker) : result RepoError Walker :=
  if MAX_DEPTH <=? length (w_stack w)
  then Err (MalformedNode "a tree deeper than its keys allow")
  else match w_cursor w with
  | CDone => Ok w
  | CRoot root => '(_, level, w) ← reads w (level_of root); Ok (enter w (w_stack w) level)
  | CNode =>
      match w_stack w with
      | [] => Err (MalformedNode "a walk inside no node")
      | parent :: stack =>
          match lv_entries parent !! lv_index parent with
          | Some (ETree subtree) =>
              '(subtree, level, w) ← reads w (level_of subtree);
              Ok (enter w (set_entry parent subtree :: stack) level)
          | _ => Err (MalformedNode "a walk stepping into a leaf")
          end
      end
  end.

(** [Walker::advance]. *)
Definition advance (w : Walker) : result RepoError Walker :=
  if decide (w_at w = Some AtLeaf) then Ok (step_over w) else step_into w.

(** The pieces one turn of [dropped]'s loop is made of. *)
Definition take_out (d : Diff) (w : Walker) (move : Walker -> result RepoError Walker)
  : result RepoError (Diff * Walker) :=
  '(cid, w) ← w_cid w; w ← move w; Ok (diff_remove d cid, w).
Definition put_in (d : Diff) (w : Walker) (move : Walker -> result RepoError Walker)
  : result RepoError (Diff * Walker) :=
  '(cid, w) ← w_cid w; w ← move w; Ok (diff_add d cid, w).

(** One turn of the loop, or nothing once both walks are over. *)
Definition State : Type := Diff * Walker * Walker.
Definition turn (s : State) : result RepoError (option State) :=
  let '(diff, lw, rw) := s in
  let out move := '(diff, lw) ← take_out diff lw move; Ok (Some (diff, lw, rw)) in
  let inn move := '(diff, rw) ← put_in diff rw move; Ok (Some (diff, lw, rw)) in
  match w_at lw, w_at rw with
  | None, None => Ok None
  | Some _, None => out advance
  | None, Some _ => inn advance
  | Some AtLeaf, Some AtLeaf =>
      match str_compare (default [] (w_key lw)) (default [] (w_key rw)) with
      | Eq =>
          '(before, lw) ← w_cid lw;
          '(after, rw) ← w_cid rw;
          let diff := if decide (before = after) then diff
                      else diff_add (diff_remove diff before) after in
          lw ← advance lw;
          rw ← advance rw;
          Ok (Some (diff, lw, rw))
      | Lt => out advance
      | Gt => inn advance
      end
  | Some here, Some there =>
      if w_layer rw <? w_layer lw then
        match here with AtLeaf => inn advance | AtTree => out step_into end
      else if w_layer lw <? w_layer rw then
        match there with AtLeaf => out advance | AtTree => inn step_into end
      else match here, there with
      | AtTree, AtTree =>
          '(before, lw) ← w_cid lw;
          '(after, rw) ← w_cid rw;
          if decide (before = after) then Ok (Some (diff, step_over lw, step_over rw))
          else
            lw ← step_into lw;
            rw ← step_into rw;
            Ok (Some (diff_add (diff_remove diff before) after, lw, rw))
      | AtTree, AtLeaf => out step_into
      | AtLeaf, _ => inn step_into
      end
  end.

(** The loop. [None] is a walk cut short, which enough fuel rules out. *)
Fixpoint turns (fuel : nat) (s : State) : option (result RepoError Diff) :=
  match fuel with
  | O => None
  | S fuel =>
      match turn s with
      | Err e => Some (Err e)
      | Ok None => let '(diff, _, _) := s in Some (Ok diff)
      | Ok (Some s) => turns fuel s
      end
  end.

(** [Mst::dropped], in CID order. *)
Definition dropped (fuel : nat) (m prev : Mst) : option (result RepoError (list Cid)) :=
  match walker_new prev with
  | Err e => Some (Err e)
  | Ok lw =>
      match walker_new m with
      | Err e => Some (Err e)
      | Ok rw =>
          match turns fuel (MkDiff ∅ ∅, lw, rw) with
          | None => None
          | Some (Err e) => Some (Err e)
          | Some (Ok diff) => Some (Ok (merge_sort cid_le (elements (removed diff))))
          end
      end
  end.

End Walk.
