(* ===== verification/MstWalk.v ===== *)
(** * MstWalk: two walks side by side find what was dropped

    [walks w n R]: the walker [w] still has the blocks [R] ahead of it, each as
    often as it will come to it.  Every call on a walker that is on something
    takes the block under the cursor off the front of [R] ([on_leaf],
    [on_tree]), which is all the loop of [dropped] needs to know about the
    trees: what it removes and adds, and that it ends. *)

From S2P Require Import Prelude Syntax Block Mst MstLogic MstShape MstRead MstStore Concrete MstFacts MstDiff.
From Stdlib Require Import Lia.

Section Walk.
Context `{Sha256} `{!Sha256Ok} `{!Codec NodeData} `{!CodecOk NodeData} (st : Store).

(** The blocks below a node of layer [n], and the node with them. *)
Definition under (n : nat) (l : list Leaf) : list Cid :=
  concat (map (run_cids n) (runs n l)) ++ map value l.
Definition reached (n : nat) (l : list Leaf) : list Cid := cid_of n l :: under n l.

Lemma tree_cids_cons n l : tree_cids n l = cid_of n l :: concat (map (run_cids n) (runs n l)).
Proof. apply tree_cids_unfold. Qed.

Lemma reached_cids n l : reached n l = tree_cids n l ++ map value l.
Proof. unfold reached, under. by rewrite tree_cids_cons. Qed.

Lemma under_leaf n x l : lz x = n -> under n (x :: l) ≡ₚ value x :: under n l.
Proof.
  intros Hx; unfold under; rewrite runs_leaf by done; cbn [map concat].
  replace (run_cids n []) with (@nil Cid) by (by destruct n). cbn [app].
  symmetry; apply Permutation_middle.
Qed.

Lemma under_tree n l1 l2 :
  Forall (fun x => lz x < S n) l1 -> l1 <> [] -> fst (segs (S n) l2) = [] ->
  under (S n) (l1 ++ l2) ≡ₚ reached n l1 ++ under (S n) l2.
Proof.
  intros Hl Hne Hf; rewrite reached_cids; unfold under.
  rewrite runs_lower by done; cbn [map concat].
  replace (run_cids (S n) l1) with (tree_cids n l1) by (by destruct l1).
  assert (runs (S n) l2 = [] :: map snd (snd (segs (S n) l2))) as -> by (unfold runs; by rewrite Hf).
  cbn [map concat run_cids app]. rewrite map_app. solve_Permutation.
Qed.

(** Trees whose nodes all fit in one store with each other. *)
Context (st0 : Store).

(** What a level has ahead of it once the cursor has passed [i] entries. *)
Definition ahead (level : Level) (i : nat) (l : list Leaf) (U : gset Cid) : Prop :=
  good (lv_layer level) l /\ alt (drop i (lv_entries level))
  /\ es_rep (sub_rep st (lv_layer level)) (lv_layer level) (drop i (lv_entries level)) l U
  /\ Forall (run_stored st0 (lv_layer level)) (runs (lv_layer level) l)
  /\ NoDup (concat (map (run_cids (lv_layer level)) (runs (lv_layer level) l))).

(** The levels a walk has still to climb back out of. *)
Inductive outer : nat -> list Level -> list Cid -> gset Cid -> Prop :=
| outer_nil n : n <= 128 -> outer n [] [] ∅
| outer_cons n level stack l U R V :
    ahead level (S (lv_index level)) l U -> n < lv_layer level ->
    lv_index level < length (lv_entries level) ->
    outer (lv_layer level) stack R V -> U ## V ->
    outer n (level :: stack) (under (lv_layer level) l ++ R) (U ∪ V).

Inductive walks : Walker -> list Cid -> Prop :=
| walks_root seen root above n l U R :
    rep st n root l U -> good n l -> n <= 128 -> (l = [] -> layer root = Some n \/ n = 0) ->
    stored st0 n l -> NoDup (tree_cids n l) ->
    above = n + 1 -> U ## seen -> R ≡ₚ reached n l ->
    walks (MkWalker seen [] (CRoot root) above) R
| walks_node seen level stack above l U R V R' :
    ahead level (lv_index level) l U -> l <> [] ->
    outer (lv_layer level) stack R V -> U ## V -> U ∪ V ## seen ->
    R' ≡ₚ under (lv_layer level) l ++ R ->
    walks (MkWalker seen (level :: stack) CNode above) R'
| walks_done seen stack above : walks (MkWalker seen stack CDone above) [].

Lemma outer_depth n stack R V : outer n stack R V -> length stack + n <= 128.
Proof. induction 1 as [|n level stack l U R V Ha Hn Hi Ho IH Hd]; cbn; lia. Qed.

(** Where a level's entries run out, its leaves do. *)
Lemma ahead_nil level i l U : ahead level i l U -> (l = [] <-> length (lv_entries level) <= i).
Proof.
  intros (_ & _ & He & _). apply es_rep_nil_iff in He. rewrite <- He. split; intros Hx.
  - destruct (Nat.le_gt_cases (length (lv_entries level)) i) as [|Hlt]; [done|].
    apply lookup_lt_is_Some_2 in Hlt as [e Hlt]. apply drop_S in Hlt. by rewrite Hx in Hlt.
  - by apply drop_ge.
Qed.

Lemma under_nil n : under n [] = [].
Proof. destruct n; reflexivity. Qed.

Lemma ahead_none level i U : ahead level i [] U -> U = ∅.
Proof.
  intros (_ & _ & He & _). pose proof (es_rep_nil_iff _ _ _ _ _ He) as [_ Hd].
  rewrite (Hd eq_refl) in He. by inversion He.
Qed.

(** Climbing out lands on the next thing ahead. *)
Lemma climb_walks seen above stack : forall level l U R V,
  ahead level (S (lv_index level)) l U -> outer (lv_layer level) stack R V -> U ## V -> U ∪ V ## seen ->
  walks (MkWalker seen (fst (climb (level :: stack))) (snd (climb (level :: stack))) above)
    (under (lv_layer level) l ++ R).
Proof.
  induction stack as [|up stack IH]; intros level l U R V Ha Ho HUV Hd; cbn [climb]; cbn [lv_index lv_entries];
    (destruct (Nat.ltb_spec (S (lv_index level)) (length (lv_entries level))) as [Hlt|Hge];
      [cbn [fst snd]; eapply (walks_node _ _ _ _ l U); [exact Ha| |exact Ho|done|done|done];
       intros Hl; apply (ahead_nil _ _ _ _ Ha) in Hl; lia|]);
    assert (l = []) as -> by (by apply (ahead_nil _ _ _ _ Ha)); rewrite under_nil; cbn [app];
    pose proof (ahead_none _ _ _ Ha) as ->.
  - inversion Ho; subst. constructor.
  - inversion Ho as [|? ? ? l' U' R' V' Ha' Hn Hi Ho' HUV']; subst; clear Ho.
    apply (IH up l' U' R' V'); [done|done|done|set_solver].
Qed.

Lemma step_over_node seen level stack above l U R V :
  ahead level (S (lv_index level)) l U -> outer (lv_layer level) stack R V -> U ## V -> U ∪ V ## seen ->
  walks (step_over (MkWalker seen (level :: stack) CNode above)) (under (lv_layer level) l ++ R).
Proof.
  intros Ha Ho HUV Hd; pose proof (climb_walks seen above stack level l U R V Ha Ho HUV Hd) as Hc.
  unfold step_over; cbn [w_cursor w_stack w_seen w_above]. by destruct (climb (level :: stack)).
Qed.

Lemma walks_perm w R R' : walks w R -> R ≡ₚ R' -> walks w R'.
Proof.
  intros Hw E; destruct Hw; [econstructor; eauto; by rewrite <- E|econstructor; eauto; by rewrite <- E|].
  apply Permutation_nil in E as ->. constructor.
Qed.

(** What an entry under the cursor is, and what is ahead after it. *)
Lemma leaf_ahead level i l U x :
  ahead level i l U -> lv_entries level !! i = Some (ELeaf x) ->
  exists l2, l = x :: l2 /\ under (lv_layer level) l ≡ₚ value x :: under (lv_layer level) l2
    /\ ahead level (S i) l2 U.
Proof.
  intros (Hg & Ha & He & Hs & Hnd) Hx. rewrite (drop_S _ _ _ Hx) in He, Ha.
  inversion He as [|? ? l2 ? Hlz He2|]; subst; clear He.
  rewrite runs_leaf in Hs, Hnd by done. apply Forall_cons in Hs as [_ Hs].
  cbn [map concat] in Hnd. apply NoDup_app in Hnd as (_ & _ & Hnd).
  exists l2; split_and!; [done|by apply under_leaf|].
  split_and!; try done. by apply (good_app _ [x]) in Hg as (_ & ? & _).
Qed.

Lemma tree_ahead level i l U t :
  ahead level i l U -> lv_entries level !! i = Some (ETree t) ->
  exists n l1 l2 U1 U2, lv_layer level = S n /\ l = l1 ++ l2 /\ U = U1 ∪ U2 /\ U1 ## U2
    /\ rep st n t l1 U1 /\ l1 <> [] /\ good n l1 /\ stored st0 n l1 /\ NoDup (tree_cids n l1)
    /\ under (S n) l ≡ₚ reached n l1 ++ under (S n) l2 /\ ahead level (S i) l2 U2.
Proof.
  intros (Hg & Ha & He & Hs & Hnd) Hx. rewrite (drop_S _ _ _ Hx) in He, Ha.
  inversion He as [| |? ? l1 l2 U1 U2 Hm Hne Hlz He2 Hd]; subst; clear He.
  destruct (lv_layer level) as [|n] eqn:En; [destruct Hm|]; cbn [sub_rep] in Hm.
  assert (~ (exists m, head (drop (S i) (lv_entries level)) = Some (ETree m))) as Hh.
  { intros (m & Em); destruct (drop (S i) (lv_entries level)) as [|[?|?] ?]; cbn in *; done. }
  pose proof (es_rep_head_leaf _ _ _ _ _ He2 Hh) as Hf.
  assert (runs (S n) l2 = [] :: map snd (snd (segs (S n) l2))) as Hr by (unfold runs; by rewrite Hf).
  rewrite runs_lower in Hs, Hnd by done. apply Forall_cons in Hs as [Hs1 Hs].
  cbn [map concat] in Hnd. apply NoDup_app in Hnd as (Hnd1 & _ & Hnd).
  apply good_app in Hg as (Hg1 & Hg2 & _).
  exists n, l1, l2, U1, U2; split_and!; try done.
  - by apply good_lower.
  - by destruct l1.
  - by destruct l1.
  - by apply under_tree.
  - split_and!; rewrite ?En; try done.
    + by destruct (drop (S i) (lv_entries level)) as [|[?|?] ?].
    + rewrite Hr; by constructor.
    + by rewrite Hr.
Qed.

Lemma ahead_set level m l U :
  ahead level (S (lv_index level)) l U -> ahead (set_entry level m) (S (lv_index level)) l U.
Proof.
  unfold ahead, set_entry; cbn [lv_entries lv_layer].
  by rewrite drop_insert_lt by lia.
Qed.

(* ------------------------------------------------------------------ *)
(** ** The calls on a walker *)

Lemma at_none w R : walks w R -> w_at w = None -> R = [].
Proof.
  destruct 1 as [| seen level stack above l U R V R' Ha Hne Ho HUV Hd E|]; [done| |done].
  cbn; destruct (lv_entries level !! lv_index level) as [[?|?]|] eqn:Ex; try done.
  intros _; exfalso; apply Hne. apply (ahead_nil _ _ _ _ Ha). by apply lookup_ge_None.
Qed.

Lemma on_leaf w R :
  walks w R -> w_at w = Some AtLeaf ->
  exists x R1, w_cid st w = Ok (value x, w) /\ w_key w = Some (key x)
    /\ R ≡ₚ value x :: R1 /\ advance st w = Ok (step_over w) /\ walks (step_over w) R1.
Proof.
  intros Hw Hat; assert (advance st w = Ok (step_over w)) as Hadv
    by (unfold advance; by rewrite decide_True).
  destruct Hw as [| seen level stack above l U R V R' Ha Hne Ho HUV Hd E|]; [done| |done].
  revert Hat; cbn; destruct (lv_entries level !! lv_index level) as [[x|?]|] eqn:Ex; try done; intros _.
  destruct (leaf_ahead _ _ _ _ _ Ha Ex) as (l2 & -> & Hu & Ha2).
  exists x, (under (lv_layer level) l2 ++ R). unfold w_cid, w_key, w_entry; cbn; rewrite Ex.
  split_and!; [done|done| |done|by eapply step_over_node]. by rewrite E, Hu.
Qed.

(** Run by a walker, a call that only reads nodes ahead succeeds. *)
Lemma reads_triple {A} w U (c : M A) Q :
  triple U c Q -> U ## w_seen w ->
  exists a seen U', reads w c = Ok (a, MkWalker seen (w_stack w) (w_cursor w) (w_above w))
    /\ U' ⊆ U /\ seen ⊆ w_seen w ∪ U /\ U' ## seen /\ Q a U'.
Proof.
  intros Hc Hd; destruct (Hc _ Hd) as (a & seen & U' & E & HU & Hs & Hd' & HQ).
  exists a, seen, U'; unfold reads; rewrite E. done.
Qed.

Lemma level_of_spec n m l U :
  rep st n m l U -> good n l -> n <= 128 -> (l = [] -> layer m = Some n \/ n = 0) ->
  triple U (level_of st m) (fun '(m', level) U' =>
    lv_layer level = n /\ lv_index level = 0 /\ alt (lv_entries level)
    /\ es_rep (sub_rep st n) n (lv_entries level) l U').
Proof.
  intros Hr Hg Hn Hl; unfold level_of.
  eapply triple_bind; [apply (get_layer_spec st n); [exact Hr|done|by apply room_enough'|done]|].
  intros [m1 lay] U1 (-> & Hlay & Hr1) _.
  eapply triple_bind; [by apply (get_entries_spec st n)|].
  intros [m2 es] U2 (-> & Ha & He) _. by apply triple_ret.
Qed.

(** A tree under the cursor, in the one form the loop uses it. *)
Definition on_tree (w : Walker) (n : nat) (l : list Leaf) (R : list Cid) : Prop :=
  w_at w = Some AtTree /\ w_layer w = S n
  /\ good n l /\ n <= 128 /\ stored st0 n l /\ NoDup (tree_cids n l)
  /\ walks (step_over w) R
  /\ exists w', step_into st w = Ok w' /\ walks w' (under n l ++ R).

Lemma stored_runs n l : stored st0 n l -> Forall (run_stored st0 n) (runs n l).
Proof. by intros [_ ?]%stored_unfold. Qed.

Lemma cids_runs n l : NoDup (tree_cids n l) -> NoDup (concat (map (run_cids n) (runs n l))).
Proof. rewrite tree_cids_cons. by intros [_ ?]%NoDup_cons. Qed.

Lemma root_on_tree seen root n l U above :
  rep st n root l U -> good n l -> n <= 128 -> (l = [] -> layer root = Some n \/ n = 0) ->
  stored st0 n l -> NoDup (tree_cids n l) -> above = n + 1 -> U ## seen ->
  on_tree (MkWalker seen [] (CRoot root) above) n l [].
Proof.
  intros Hr Hg Hn Hl Hs Hnd -> Hd.
  split_and!; try done; [cbn; lia|constructor|].
  destruct (reads_triple (MkWalker seen [] (CRoot root) (n + 1)) U _ _ (level_of_spec n root l U Hr Hg Hn Hl) Hd)
    as ([m level] & seen' & U' & E & HU & Hseen & Hd' & Hlay & Hi & Ha & He).
  unfold step_into; cbn [w_stack w_cursor length Nat.leb MAX_DEPTH].
  rewrite E; cbn [mbind result_bind]. eexists; split; [done|]. rewrite app_nil_r.
  assert (ahead level (lv_index level) l U') as Hah.
  { rewrite Hi; unfold ahead; rewrite Hlay, drop_0. split_and!; [done..|by apply stored_runs|by apply cids_runs]. }
  unfold enter, w_entry; cbn [w_stack w_seen w_above].
  destruct (decide (l = [])) as [->|Hne].
  - assert (length (lv_entries level) <= 0) as Hlen.
    { apply (ahead_nil level 0 [] U'); [by rewrite <- Hi|done]. }
    destruct (lv_entries level) as [|? ?] eqn:Ee; [|cbn in Hlen; lia].
    rewrite Hi; cbn [lookup list_lookup]. unfold step_over; cbn [w_cursor w_stack climb lv_index lv_entries].
    rewrite Ee, Hi, under_nil; cbn. constructor.
  - destruct (lv_entries level !! lv_index level) eqn:Ee.
    + eapply (walks_node _ _ _ _ l U' [] ∅); [done|done|constructor; by rewrite Hlay|set_solver|set_solver|].
      by rewrite Hlay, app_nil_r.
    + exfalso; apply Hne. apply (ahead_nil _ _ _ _ Hah). by apply lookup_ge_None.
Qed.

Lemma node_on_tree seen level stack above t n l1 l2 U1 U2 R V :
  lv_entries level !! lv_index level = Some (ETree t) -> lv_layer level = S n ->
  rep st n t l1 U1 -> l1 <> [] -> good n l1 -> stored st0 n l1 -> NoDup (tree_cids n l1) ->
  ahead level (S (lv_index level)) l2 U2 -> outer (S n) stack R V ->
  U1 ## U2 -> U1 ∪ U2 ## V -> (U1 ∪ U2) ∪ V ## seen ->
  on_tree (MkWalker seen (level :: stack) CNode above) n l1 (under (S n) l2 ++ R).
Proof.
  intros Ht En Hr Hne Hg Hs Hnd Ha Ho Hd1 Hd2 Hd3.
  pose proof (outer_depth _ _ _ _ Ho) as Hdepth.
  split_and!; try done; [by cbn; rewrite Ht|lia| |].
  { rewrite <- En in Ho |- *. eapply step_over_node; [done|done|set_solver|set_solver]. }
  destruct (reads_triple (MkWalker seen (level :: stack) CNode above) U1 _ _
    (level_of_spec n t l1 U1 Hr Hg ltac:(lia) ltac:(done)))
    as ([t' level2] & seen' & U' & E & HU & Hseen & Hd' & Hlay & Hi & Hal & He); [cbn; set_solver|].
  cbn [w_seen w_stack w_cursor w_above] in *.
  unfold step_into; cbn [w_stack w_cursor].
  rewrite (proj2 (Nat.leb_gt _ _)) by (cbn [length]; unfold MAX_DEPTH; lia).
  rewrite Ht, E; cbn [mbind result_bind]. eexists; split; [done|].
  assert (ahead level2 (lv_index level2) l1 U') as Hah.
  { rewrite Hi; unfold ahead; rewrite Hlay, drop_0. split_and!; [done..|by apply stored_runs|by apply cids_runs]. }
  unfold enter, w_entry; cbn [w_stack w_seen w_above].
  destruct (lv_entries level2 !! lv_index level2) eqn:Ee.
  2: { exfalso; apply Hne. apply (ahead_nil _ _ _ _ Hah). by apply lookup_ge_None. }
  eapply (walks_node _ _ _ _ l1 U' _ (U2 ∪ V)); [done|done| |set_solver|set_solver|].
  - apply (outer_cons _ _ _ l2 U2 R V); [exact (ahead_set _ t' _ _ Ha)|cbn; lia| |cbn; by rewrite En|set_solver].
    cbn; rewrite length_insert. by eapply lookup_lt_Some.
  - cbn; by rewrite Hlay, En.
Qed.

Lemma cid_on_tree w R :
  walks w R -> w_at w = Some AtTree ->
  exists n l R2 w1, w_cid st w = Ok (cid_of n l, w1) /\ w_layer w = S n
    /\ R ≡ₚ reached n l ++ R2 /\ on_tree w1 n l R2.
Proof.
  intros Hw Hat; destruct Hw as [seen root above n l U R Hr Hg Hn Hl Hs Hnd -> Hd E
    |seen level stack above l U R V R' Ha Hne Ho HUV Hd E|]; [| |done].
  - destruct (reads_triple (MkWalker seen [] (CRoot root) (n + 1)) U _ _
      (root_in_spec st n MAX_DEPTH root l U Hr Hg (room_enough' _ Hn)) Hd)
      as ([root' c] & seen' & U' & Er & HU & Hseen & Hd' & -> & Hr' & Hlay & _).
    unfold w_cid; cbn [w_cursor]; rewrite Er; cbn [mbind result_bind w_seen w_stack w_above].
    exists n, l, []; eexists; split; [done|]. split; [cbn; lia|]. split; [by rewrite app_nil_r|].
    eapply root_on_tree; [exact Hr'|done|done|by rewrite Hlay|done..].
  - revert Hat; unfold w_at, w_entry; cbn [w_cursor w_stack]; destruct (lv_entries level !! lv_index level) as [[?|t]|] eqn:Ex; try done; intros _.
    destruct (tree_ahead _ _ _ _ _ Ha Ex)
      as (n & l1 & l2 & U1 & U2 & En & -> & -> & HU12 & Hr & Hne1 & Hg & Hs & Hnd & Hu & Ha2).
    rewrite En in *. pose proof (outer_depth _ _ _ _ Ho) as Hdepth.
    destruct (reads_triple (MkWalker seen (level :: stack) CNode above) U1 _ _
      (root_in_spec st n MAX_DEPTH t l1 U1 Hr Hg (room_enough' n ltac:(lia))))
      as ([t' c] & seen' & U1' & Er & HU & Hseen & Hd' & -> & Hr' & Hlay & _); [cbn; set_solver|].
    cbn [w_seen w_stack w_cursor w_above] in *.
    unfold w_cid; cbn [w_cursor w_stack]; rewrite Ex, Er; cbn [mbind result_bind w_seen w_above].
    exists n, l1, (under (S n) l2 ++ R); eexists; split; [done|]. split; [exact En|].
    split; [by rewrite E, Hu, app_assoc|].
    apply (node_on_tree _ _ _ _ t' n l1 l2 U1' U2 R V);
      [|exact En|exact Hr'|exact Hne1|exact Hg|exact Hs|exact Hnd|exact (ahead_set _ t' _ _ Ha2)|exact Ho
       |clear -HU12 HU; set_solver|clear -HUV HU; set_solver|clear -HU Hseen Hd' Hd HUV HU12].
    { cbn; apply list_lookup_insert_eq. by eapply lookup_lt_Some. }
    set_solver.
Qed.

(** Setting off. *)
Lemma walker_new_walks n m l :
  holds st n m l -> stored st0 n l -> NoDup (tree_cids n l) ->
  exists w, walker_new st m = Ok w /\ walks w (reached n l).
Proof.
  intros (Hg & Hn & Hl & U & Hr) Hs Hnd.
  destruct (get_layer_spec st n MAX_DEPTH m l U Hr Hg (room_enough' _ Hn) Hl ∅)
    as ([m' lay] & seen & U' & E & HU & Hseen & Hd & -> & Hlay & Hr'); [set_solver|].
  unfold walker_new; rewrite E. eexists; split; [done|].
  eapply walks_root; [exact Hr'|done|done|by left|done|done|done|done|done].
Qed.

(** Taking what is under the cursor and moving on, into it or past it. *)
Lemma consume w R a move :
  walks w R -> w_at w = Some a -> (move = advance st \/ a = AtTree /\ move = step_into st) ->
  exists c w1 w2 R1, w_cid st w = Ok (c, w1) /\ move w1 = Ok w2 /\ R ≡ₚ c :: R1 /\ walks w2 R1.
Proof.
  intros Hw Hat Hm; destruct a.
  - destruct Hm as [->|[? _]]; [|done].
    destruct (on_leaf w R Hw Hat) as (x & R1 & Ec & _ & E & Hadv & Hw'). eauto 10.
  - destruct (cid_on_tree w R Hw Hat) as (n & l & R2 & w1 & Ec & _ & E & Hat1 & _ & _ & _ & _ & _ & _ & w2 & Es & Hw2).
    exists (cid_of n l), w1, w2, (under n l ++ R2); split_and!; [done| |done|done].
    destruct Hm as [->|[_ ->]]; [|done]. unfold advance; by rewrite decide_False by congruence.
Qed.

(* ------------------------------------------------------------------ *)
(** ** What the diff knows *)

(** A list has a block at most once. *)
Definition once (c : Cid) (B : list Cid) : Prop := forall R, B ≡ₚ c :: R -> c ∉ R.

Lemma once_nodup c B : NoDup B -> once c B.
Proof. intros Hnd R E; rewrite E in Hnd. by apply NoDup_cons in Hnd as [? _]. Qed.

(** Of the blocks visited on each side: everything taken out and not put back
    is removed, and only that was taken out. *)
Definition accounts (d : Diff) (VL VR : list Cid) : Prop :=
  (forall c, c ∈ removed d -> c ∈ VL) /\ (forall c, c ∈ VL -> c ∉ VR -> c ∈ removed d)
  /\ (forall c, c ∈ added d -> c ∈ VR).
(** And of a block no side has twice, it knows exactly where it was. *)
Definition exactly (c : Cid) (d : Diff) (VL VR : list Cid) : Prop :=
  (c ∈ removed d <-> c ∈ VL /\ c ∉ VR) /\ (c ∈ added d <-> c ∈ VR /\ c ∉ VL).

Lemma accounts_remove d VL VR c : accounts d VL VR -> accounts (diff_remove d c) (c :: VL) VR.
Proof.
  intros (H1 & H2 & H3); unfold diff_remove; case_decide as Hc; unfold accounts; cbn [removed added];
    split_and!; intros c' *; destruct (decide (c' = c)) as [->|]; set_solver.
Qed.

Lemma accounts_add d VL VR c : accounts d VL VR -> accounts (diff_add d c) VL (c :: VR).
Proof.
  intros (H1 & H2 & H3); unfold diff_add; case_decide as Hc; unfold accounts; cbn [removed added];
    split_and!; intros c' *; destruct (decide (c' = c)) as [->|]; set_solver.
Qed.

Lemma exactly_remove d VL VR c c' :
  (c' = c -> c ∉ VL) -> exactly c' d VL VR -> exactly c' (diff_remove d c) (c :: VL) VR.
Proof.
  intros Hc [H1 H2]; unfold exactly, diff_remove; case_decide; cbn [removed added];
    destruct (decide (c' = c)) as [->|]; set_solver.
Qed.

Lemma exactly_add d VL VR c c' :
  (c' = c -> c ∉ VR) -> exactly c' d VL VR -> exactly c' (diff_add d c) VL (c :: VR).
Proof.
  intros Hc [H1 H2]; unfold exactly, diff_add; case_decide; cbn [removed added];
    destruct (decide (c' = c)) as [->|]; set_solver.
Qed.

(* ------------------------------------------------------------------ *)
(** ** The loop *)

Context (BL BR : list Cid).

(** Each side's blocks are what was skipped, what was visited and what is
    ahead, and what was skipped on one side was skipped on the other. *)
Inductive midway : State -> nat -> Prop :=
| midway_intro d lw rw SL SR VL VR RL RR k :
    walks lw RL -> walks rw RR -> BL ≡ₚ SL ++ VL ++ RL -> BR ≡ₚ SR ++ VR ++ RR ->
    (forall c, c ∈ SL <-> c ∈ SR) -> accounts d VL VR ->
    (forall c, once c BL -> once c BR -> exactly c d VL VR) ->
    length RL + length RR <= k ->
    midway (d, lw, rw) k.

Lemma fresh (B S V R : list Cid) c : once c B -> B ≡ₚ S ++ V ++ c :: R -> c ∉ V.
Proof.
  intros Ho E; assert (c ∉ S ++ V ++ R) as Hn; [|set_solver].
  apply Ho; rewrite E. solve_Permutation.
Qed.

Lemma shift (B S V R R1 : list Cid) c : B ≡ₚ S ++ V ++ R -> R ≡ₚ c :: R1 -> B ≡ₚ S ++ (c :: V) ++ R1.
Proof. intros -> ->. cbn [app]. f_equiv. symmetry; apply Permutation_middle. Qed.

Lemma skip (B S V R X R1 : list Cid) : B ≡ₚ S ++ V ++ R -> R ≡ₚ X ++ R1 -> B ≡ₚ (X ++ S) ++ V ++ R1.
Proof. intros -> ->. solve_Permutation. Qed.

Lemma out_midway d lw rw a k move :
  midway (d, lw, rw) (S k) -> w_at lw = Some a -> (move = advance st \/ a = AtTree /\ move = step_into st) ->
  exists d' lw', take_out st d lw move = Ok (d', lw') /\ midway (d', lw', rw) k.
Proof.
  intros Hm Hat Hmove; inversion Hm as [? ? ? SL SR VL VR RL RR k' Hl Hr El Er Hs Ha Hx Hk]; subst.
  destruct (consume lw RL a move Hl Hat Hmove) as (c & w1 & w2 & R1 & Ec & Em & E & Hw2).
  exists (diff_remove d c), w2; split; [unfold take_out; rewrite Ec; cbn; by rewrite Em|].
  apply (midway_intro _ _ _ SL SR (c :: VL) VR R1 RR); try done.
  - by eapply shift.
  - by apply accounts_remove.
  - intros c' HL HR; apply exactly_remove; [|by apply Hx]. intros ->; eapply (fresh BL SL VL R1); [done|by rewrite <- E].
  - rewrite E in Hk; cbn in Hk; lia.
Qed.

Lemma in_midway d lw rw a k move :
  midway (d, lw, rw) (S k) -> w_at rw = Some a -> (move = advance st \/ a = AtTree /\ move = step_into st) ->
  exists d' rw', put_in st d rw move = Ok (d', rw') /\ midway (d', lw, rw') k.
Proof.
  intros Hm Hat Hmove; inversion Hm as [? ? ? SL SR VL VR RL RR k' Hl Hr El Er Hs Ha Hx Hk]; subst.
  destruct (consume rw RR a move Hr Hat Hmove) as (c & w1 & w2 & R1 & Ec & Em & E & Hw2).
  exists (diff_add d c), w2; split; [unfold put_in; rewrite Ec; cbn; by rewrite Em|].
  apply (midway_intro _ _ _ SL SR VL (c :: VR) RL R1); try done.
  - by eapply shift.
  - by apply accounts_add.
  - intros c' HL HR; apply exactly_add; [|by apply Hx]. intros ->; eapply (fresh BR SR VR R1); [done|by rewrite <- E].
  - rewrite E in Hk; cbn in Hk; lia.
Qed.

(** One block taken from each side at once. *)
Lemma both_midway d (lw' rw' : Walker) cl cr (RL' RR' SL SR VL VR RL RR : list Cid) k :
  BL ≡ₚ SL ++ VL ++ RL -> BR ≡ₚ SR ++ VR ++ RR -> (forall c, c ∈ SL <-> c ∈ SR) ->
  accounts d VL VR -> (forall c, once c BL -> once c BR -> exactly c d VL VR) ->
  length RL + length RR <= S k ->
  RL ≡ₚ cl :: RL' -> RR ≡ₚ cr :: RR' -> walks lw' RL' -> walks rw' RR' ->
  midway (diff_add (diff_remove d cl) cr, lw', rw') k.
Proof.
  intros El Er Hs Ha Hx Hk EL ER Hl Hr.
  apply (midway_intro _ _ _ SL SR (cl :: VL) (cr :: VR) RL' RR'); try done.
  - by eapply shift.
  - by eapply shift.
  - by apply accounts_add, accounts_remove.
  - intros c' HL HR; apply exactly_add; [intros ->; eapply (fresh BR SR VR RR'); [done|by rewrite <- ER]|].
    apply exactly_remove; [intros ->; eapply (fresh BL SL VL RL'); [done|by rewrite <- EL]|by apply Hx].
  - rewrite EL, ER in Hk; cbn in Hk; lia.
Qed.

Lemma skip_midway d (lw' rw' : Walker) (XL XR RL' RR' SL SR VL VR RL RR : list Cid) k :
  BL ≡ₚ SL ++ VL ++ RL -> BR ≡ₚ SR ++ VR ++ RR -> (forall c, c ∈ SL <-> c ∈ SR) ->
  accounts d VL VR -> (forall c, once c BL -> once c BR -> exactly c d VL VR) ->
  length RL + length RR <= S k ->
  RL ≡ₚ XL ++ RL' -> RR ≡ₚ XR ++ RR' -> (forall c, c ∈ XL <-> c ∈ XR) -> XL <> [] ->
  walks lw' RL' -> walks rw' RR' ->
  midway (d, lw', rw') k.
Proof.
  intros El Er Hs Ha Hx Hk EL ER HX Hne Hl Hr.
  apply (midway_intro _ _ _ (XL ++ SL) (XR ++ SR) VL VR RL' RR'); try done.
  - by eapply skip.
  - by eapply skip.
  - set_solver.
  - rewrite EL, ER, !length_app in Hk. destruct XL; [done|]. cbn in Hk; lia.
Qed.

Lemma midway_left d lw rw k a : midway (d, lw, rw) k -> w_at lw = Some a -> exists k', k = S k'.
Proof.
  intros Hm Hat; inversion Hm as [? ? ? SL SR VL VR RL RR k' Hl Hr El Er Hs Ha Hx Hk]; subst.
  destruct (consume lw RL a (advance st) Hl Hat (or_introl eq_refl)) as (c & w1 & w2 & R1 & _ & _ & E & _).
  rewrite E in Hk; cbn in Hk. destruct k; [lia|eauto].
Qed.

Lemma midway_right d lw rw k a : midway (d, lw, rw) k -> w_at rw = Some a -> exists k', k = S k'.
Proof.
  intros Hm Hat; inversion Hm as [? ? ? SL SR VL VR RL RR k' Hl Hr El Er Hs Ha Hx Hk]; subst.
  destruct (consume rw RR a (advance st) Hr Hat (or_introl eq_refl)) as (c & w1 & w2 & R1 & _ & _ & E & _).
  rewrite E in Hk; cbn in Hk. destruct k; [lia|eauto].
Qed.

(** Two leaves at one key. *)
Lemma leaves_midway d lw rw k :
  midway (d, lw, rw) (S k) -> w_at lw = Some AtLeaf -> w_at rw = Some AtLeaf ->
  exists before after lw' rw',
    w_cid st lw = Ok (before, lw) /\ w_cid st rw = Ok (after, rw)
    /\ advance st lw = Ok lw' /\ advance st rw = Ok rw'
    /\ midway (if decide (before = after) then d else diff_add (diff_remove d before) after, lw', rw') k.
Proof.
  intros Hm HL HR; inversion Hm as [? ? ? SL SR VL VR RL RR k' Hl Hr El Er Hs Ha Hx Hk]; subst.
  destruct (on_leaf lw RL Hl HL) as (x & RL' & Ec & _ & E & Hadv & Hw').
  destruct (on_leaf rw RR Hr HR) as (y & RR' & Ec2 & _ & E2 & Hadv2 & Hw2).
  exists (value x), (value y), (step_over lw), (step_over rw); split_and!; try done.
  case_decide as Hv.
  - apply (skip_midway d _ _ [value x] [value y] RL' RR' SL SR VL VR RL RR); try done. by rewrite Hv.
  - by apply (both_midway d _ _ (value x) (value y) RL' RR' SL SR VL VR RL RR).
Qed.

(** Two subtrees of one layer. *)
Lemma trees_midway d lw rw k :
  midway (d, lw, rw) (S k) -> w_at lw = Some AtTree -> w_at rw = Some AtTree -> w_layer lw = w_layer rw ->
  exists before after lw1 rw1,
    w_cid st lw = Ok (before, lw1) /\ w_cid st rw = Ok (after, rw1)
    /\ if decide (before = after) then midway (d, step_over lw1, step_over rw1) k
       else exists lw' rw', step_into st lw1 = Ok lw' /\ step_into st rw1 = Ok rw'
            /\ midway (diff_add (diff_remove d before) after, lw', rw') k.
Proof.
  intros Hm HL HR Hlay; inversion Hm as [? ? ? SL SR VL VR RL RR k' Hl Hr El Er Hs Ha Hx Hk]; subst.
  destruct (cid_on_tree lw RL Hl HL) as (n & l & RL' & lw1 & Ec & El1 & E & Hon).
  destruct (cid_on_tree rw RR Hr HR) as (n2 & l2 & RR' & rw1 & Ec2 & El2 & E2 & Hon2).
  assert (n2 = n) as -> by congruence.
  destruct Hon as (_ & _ & Hg & Hn & Hst & Hnd & Hover & lw' & Hin & Hw').
  destruct Hon2 as (_ & _ & Hg2 & Hn2 & Hst2 & Hnd2 & Hover2 & rw' & Hin2 & Hw2').
  exists (cid_of n l), (cid_of n l2), lw1, rw1; split_and!; [done..|]. case_decide as Hc.
  - assert (l = l2) as <- by (by apply (same_root_same_leaves st0 n l n l2)).
    by apply (skip_midway d _ _ (reached n l) (reached n l) RL' RR' SL SR VL VR RL RR).
  - exists lw', rw'; split_and!; [done..|].
    by apply (both_midway d _ _ (cid_of n l) (cid_of n l2) (under n l ++ RL') (under n l2 ++ RR') SL SR VL VR RL RR).
Qed.

Lemma turn_midway d lw rw k :
  midway (d, lw, rw) k ->
  (turn st (d, lw, rw) = Ok None /\ w_at lw = None /\ w_at rw = None)
  \/ exists s' k', turn st (d, lw, rw) = Ok (Some s') /\ k = S k' /\ midway s' k'.
Proof.
  intros Hm; unfold turn.
  assert (forall a move, w_at lw = Some a -> (move = advance st \/ a = AtTree /\ move = step_into st) ->
    exists s' k', ('(d', lw') ← take_out st d lw move; Ok (Some (d', lw', rw))) = Ok (Some s')
      /\ k = S k' /\ midway s' k') as Hout.
  { intros a move Hat Hmove; destruct (midway_left _ _ _ _ _ Hm Hat) as [k' ->].
    destruct (out_midway _ _ _ _ _ _ Hm Hat Hmove) as (d' & lw' & -> & Hm'). eauto. }
  assert (forall a move, w_at rw = Some a -> (move = advance st \/ a = AtTree /\ move = step_into st) ->
    exists s' k', ('(d', rw') ← put_in st d rw move; Ok (Some (d', lw, rw'))) = Ok (Some s')
      /\ k = S k' /\ midway s' k') as Hin.
  { intros a move Hat Hmove; destruct (midway_right _ _ _ _ _ Hm Hat) as [k' ->].
    destruct (in_midway _ _ _ _ _ _ Hm Hat Hmove) as (d' & rw' & -> & Hm'). eauto. }
  destruct (w_at lw) as [[|]|] eqn:HL, (w_at rw) as [[|]|] eqn:HR;
    try (right; by eapply Hout; [done|left]); try (right; by eapply Hin; [done|left]); [| | | |by left].
  - right; destruct (str_compare _ _); [|by eapply Hout; [done|left]|by eapply Hin; [done|left]].
    destruct (midway_left _ _ _ _ _ Hm HL) as [k' ->].
    destruct (leaves_midway _ _ _ _ Hm HL HR) as (b & a & lw' & rw' & -> & -> & Hal & Har & Hm').
    cbn [mbind result_bind]; rewrite Hal, Har; cbn [mbind result_bind]. eauto.
  - right; destruct (w_layer rw <? w_layer lw); [by eapply Hin; [done|left]|].
    destruct (w_layer lw <? w_layer rw); (eapply Hin; [done|by right]).
  - right; destruct (w_layer rw <? w_layer lw); [by eapply Hout; [done|right]|].
    destruct (w_layer lw <? w_layer rw); [by eapply Hout; [done|left]|by eapply Hout; [done|right]].
  - right; destruct (Nat.ltb_spec (w_layer rw) (w_layer lw)) as [?|H1]; [by eapply Hout; [done|right]|].
    destruct (Nat.ltb_spec (w_layer lw) (w_layer rw)) as [?|H2]; [by eapply Hin; [done|right]|].
    destruct (midway_left _ _ _ _ _ Hm HL) as [k' ->].
    destruct (trees_midway _ _ _ _ Hm HL HR ltac:(lia)) as (b & a & lw1 & rw1 & -> & -> & Hc).
    cbn [mbind result_bind]. case_decide; [eauto|].
    destruct Hc as (lw' & rw' & -> & -> & Hm'). cbn [mbind result_bind]. eauto.
Qed.

Lemma turns_midway fuel : forall s k,
  midway s k -> k < fuel ->
  exists d, turns st fuel s = Some (Ok d)
    /\ (forall c, c ∈ removed d -> c ∈ BL) /\ (forall c, c ∈ BL -> c ∉ BR -> c ∈ removed d)
    /\ (forall c, once c BL -> once c BR -> c ∈ removed d -> c ∉ BR).
Proof.
  induction fuel as [|fuel IH]; intros [[d lw] rw] k Hm Hk; [lia|]; cbn [turns].
  destruct (turn_midway _ _ _ _ Hm) as [(-> & HL & HR)|(s' & k' & -> & -> & Hm')]; [|apply (IH s' k'); [done|lia]].
  exists d; split; [done|].
  inversion Hm as [? ? ? SL SR VL VR RL RR k' Hl Hr El Er Hs Ha Hx _]; subst.
  apply at_none in Hl as ->, Hr as ->; [|done..]. rewrite app_nil_r in El, Er.
  destruct Ha as (H1 & H2 & _). split_and!.
  - intros c Hc; rewrite El. set_solver.
  - intros c; rewrite El, Er, !elem_of_app. set_solver.
  - intros c HL' HR' Hc; rewrite Er, elem_of_app, <- Hs.
    destruct (Hx c HL' HR') as [He _]. apply He in Hc as [Hv Hn]. intros [Hs'|?]; [|done].
    apply list_elem_of_split in Hv as (V1 & V2 & ->). assert (c ∉ SL ++ V1 ++ V2); [|set_solver].
    apply HL'; rewrite El. solve_Permutation.
Qed.

End Walk.

(* ================================================================== *)
(** * The properties *)

Section Properties.
Context `{Sha256} `{!Sha256Ok} `{!Codec NodeData} `{!CodecOk NodeData}.

Lemma dropped_turns st st0 n m l n0 prev l0 fuel :
  holds st n0 prev l0 -> holds st n m l -> stored st0 n0 l0 -> stored st0 n l ->
  NoDup (tree_cids n0 l0) -> NoDup (tree_cids n l) ->
  length (reached n0 l0) + length (reached n l) < fuel ->
  exists d, dropped st fuel m prev = Some (Ok (merge_sort cid_le (elements (removed d))))
    /\ (forall c, c ∈ removed d -> c ∈ reached n0 l0)
    /\ (forall c, c ∈ reached n0 l0 -> c ∉ reached n l -> c ∈ removed d)
    /\ (forall c, once c (reached n0 l0) -> once c (reached n l) -> c ∈ removed d -> c ∉ reached n l).
Proof.
  intros Hp Hm Hs0 Hs Hnd0 Hnd Hf; unfold dropped.
  destruct (walker_new_walks st st0 n0 prev l0 Hp Hs0 Hnd0) as (lw & -> & Hl).
  destruct (walker_new_walks st st0 n m l Hm Hs Hnd) as (rw & -> & Hr).
  destruct (turns_midway st st0 (reached n0 l0) (reached n l) fuel (MkDiff ∅ ∅, lw, rw)
    (length (reached n0 l0) + length (reached n l))) as (d & -> & Hd); [|done|by exists d].
  apply (midway_intro _ _ _ _ _ _ _ [] [] [] [] (reached n0 l0) (reached n l)); try done;
    unfold accounts, exactly; cbn [removed added]; set_solver.
Qed.

(** C33 (functional). [dropped] walks the two trees to the end, whatever of
    them is in memory and whatever is still to be read, without failing: as
    many turns as the two trees have blocks are enough. It lists, each once,
    only blocks the tree before reached, and every one that this tree reaches
    no more; and where neither tree holds one block in two places, exactly
    those. The trees are read from one store, and the nodes of neither collide. *)
Theorem dropped_is_what_is_gone st st0 n m l n0 prev l0 fuel :
  holds st n0 prev l0 -> holds st n m l -> stored st0 n0 l0 -> stored st0 n l ->
  NoDup (tree_cids n0 l0) -> NoDup (tree_cids n l) ->
  length (reached n0 l0) + length (reached n l) < fuel ->
  exists gone, dropped st fuel m prev = Some (Ok gone) /\ NoDup gone
    /\ (forall c, c ∈ gone -> c ∈ reached n0 l0)
    /\ (forall c, c ∈ reached n0 l0 -> c ∉ reached n l -> c ∈ gone)
    /\ (NoDup (reached n0 l0) -> NoDup (reached n l) ->
        forall c, c ∈ gone <-> c ∈ reached n0 l0 /\ c ∉ reached n l).
Proof.
  intros Hp Hm Hs0 Hs Hnd0 Hnd Hf.
  destruct (dropped_turns st st0 n m l n0 prev l0 fuel) as (d & E & H1 & H2 & H3); [done..|].
  assert (forall c, c ∈ merge_sort cid_le (elements (removed d)) <-> c ∈ removed d) as He.
  { intros c; rewrite merge_sort_Permutation; apply elem_of_elements. }
  eexists; split; [exact E|]. split_and!.
  - rewrite merge_sort_Permutation; apply NoDup_elements.
  - intros c; rewrite He; apply H1.
  - intros c; rewrite He; apply H2.
  - intros HL HR c; rewrite He; split; [|naive_solver]. intros Hc; split; [by apply H1|]. apply H3; [by apply once_nodup|by apply once_nodup|done].
Qed.

End Properties.

Import MstFacts.Sample.

(** Two revisions: one of two records goes. *)
Definition before : list Leaf := [MkLeaf k1 (cid 4); MkLeaf k3 (cid 3)].
Definition after : list Leaf := [MkLeaf k1 (cid 4)].
Definition both : Store := BlockMap.store (list_to_map (tree_blocks 0 before ++ tree_blocks 0 after)).

Definition holds_all (m : gmap Cid bytes) (bs : list (Cid * bytes)) : bool :=
  forallb (fun e => bool_decide (m !! fst e = Some (snd e))) bs.

Lemma stored_check n l (m : gmap Cid bytes) :
  holds_all m (tree_blocks n l) = true -> stored (BlockMap.store m) n l.
Proof.
  intros Hb; apply stored_blocks; intros c b Hc. unfold holds_all in Hb; rewrite forallb_forall in Hb.
  cbn; apply blockmap_get_Ok. by eapply bool_decide_eq_true_1, (Hb (c, b)), list_elem_of_In.
Qed.

Lemma both_before : stored both 0 before.
Proof. apply stored_check; vm_compute; reflexivity. Qed.

Lemma both_after : stored both 0 after.
Proof. apply stored_check; vm_compute; reflexivity. Qed.

Lemma loads l : good_check 0 l = true -> NoDup (tree_cids 0 l) -> stored both 0 l ->
  holds both 0 (load (cid_of 0 l)) l.
Proof. intros Hg Hnd Hs; apply holds_load; [by apply good_check_ok|lia|done|done|done]. Qed.

Lemma one_node l : NoDup (tree_cids 0 l).
Proof. apply NoDup_singleton. Qed.

Lemma dropped_is_what_is_gone_witness :
  exists gone, dropped both 9 (load (cid_of 0 after)) (load (cid_of 0 before)) = Some (Ok gone) /\ NoDup gone
    /\ (forall c, c ∈ gone -> c ∈ reached 0 before)
    /\ (forall c, c ∈ reached 0 before -> c ∉ reached 0 after -> c ∈ gone)
    /\ (NoDup (reached 0 before) -> NoDup (reached 0 after) ->
        forall c, c ∈ gone <-> c ∈ reached 0 before /\ c ∉ reached 0 after).
Proof.
  apply (dropped_is_what_is_gone both both).
  - apply loads; [vm_compute; reflexivity|apply one_node|apply both_before].
  - apply loads; [vm_compute; reflexivity|apply one_node|apply both_after].
  - apply both_before.
  - apply both_after.
  - apply one_node.
  - apply one_node.
  - apply Nat.ltb_lt; vm_compute; reflexivity.
Defined.

(** Where two records have the same bytes, the list can name
    a block this tree still reaches: here one of two records holding the same
    block goes, and the block is listed although the other record is still
    where it was. What deletes blocks has to ask who else holds them. *)
Theorem dropped_may_still_be_reached :
  let write ops := run Sample.store empty ops in
  match write [Add k1 (cid 1); Add k3 (cid 1)], write [Add k1 (cid 1)] with
  | Ok prev, Ok m =>
      match dropped Sample.store 100 m prev, get Sample.store m k1 with
      | Some (Ok gone), Ok (_, held) => cid 1 ∈ gone /\ held = Some (cid 1)
      | _, _ => False
      end
  | _, _ => False
  end.
Proof. vm_compute. split; [|reflexivity]. repeat constructor. Qed.
