(* ===== verification/Repo.v ===== *)
(** * Repo: an account's repository and the writes that move it on

    [src/src/repo.rs] and [src/src/repo/commit.rs]: a commit signs the root of
    the record tree, and [Repo::apply] turns a batch of writes into the next
    commit, the blocks to store and the blocks to let go of.

    [apply] takes the repository and the clock and gives both back beside what
    it answers, since the code changes both in place.  The fuel is for the walk
    that finds what was dropped ([MstDiff.turns]); [MstWalk] says how much is
    enough. *)

From S2P Require Import Prelude Syntax Crypto Block Mst MstDiff Json.

Section Repo.
Context (p256 k256 : Curve).

(* ------------------------------------------------------------------ *)
(** ** Commits *)

(** [VERSION], [Commit] and [Unsigned]. *)
Definition VERSION : Z := 3.
Record Commit := MkCommit {
  c_did : Did.t;
  c_version : Z;
  c_data : Cid;
  c_rev : Tid.t;
  c_prev : option Cid;
  c_sig : bytes
}.
Record Unsigned := MkUnsigned {
  u_did : Did.t;
  u_version : Z;
  u_data : Cid;
  u_rev : Tid.t;
  u_prev : option Cid
}.

Context `{Sha256} `{!Codec NodeData} `{!Codec Ipld} `{!Codec Commit} `{!Codec Unsigned}.

(** [Commit::sign] and [Commit::verify]. *)
Definition commit_sign (did : Did.t) (rev : Tid.t) (data : Cid) (key : Keypair p256 k256)
  : result RepoError Commit :=
  b ← encode (MkUnsigned did VERSION data rev None);
  Ok (MkCommit did VERSION data rev None (sign p256 k256 key b)).
Definition commit_verify (c : Commit) (key : PublicKey p256 k256) : result RepoError unit :=
  if negb (c_version c =? VERSION)%Z then Err (WrongVersion (c_version c)) else
  b ← encode (MkUnsigned (c_did c) (c_version c) (c_data c) (c_rev c) (c_prev c));
  map_err SignatureError (verify p256 k256 key b (c_sig c)).

(* ------------------------------------------------------------------ *)
(** ** Writes *)

(** [Write]. *)
Inductive Write :=
| WCreate (collection : Nsid.t) (rkey : RecordKey.t) (record : Ipld)
| WUpdate (collection : Nsid.t) (rkey : RecordKey.t) (record : Ipld)
| WPut (collection : Nsid.t) (rkey : RecordKey.t) (record : Ipld)
| WDelete (collection : Nsid.t) (rkey : RecordKey.t).

(** [Write::target], [record] and [key]. *)
Definition target (w : Write) : Nsid.t * RecordKey.t :=
  match w with
  | WCreate collection rkey _ | WUpdate collection rkey _ | WPut collection rkey _
  | WDelete collection rkey => (collection, rkey)
  end.
Definition record (w : Write) : option Ipld :=
  match w with
  | WCreate _ _ record | WUpdate _ _ record | WPut _ _ record => Some record
  | WDelete _ _ => None
  end.
Definition path (collection : Nsid.t) (rkey : RecordKey.t) : bytes :=
  Nsid.str collection ++ lit "/" ++ RecordKey.str rkey.
Definition key (w : Write) : bytes := let '(collection, rkey) := target w in path collection rkey.

(* ------------------------------------------------------------------ *)
(** ** The repository *)

(** [Repo]. *)
Record Repo := MkRepo { r_cid : Cid; r_commit : Commit; r_data : Mst }.

(** [Repo::create]. *)
Definition create (did : Did.t) (keypair : Keypair p256 k256) (clock : Tid.Clock) (since : option Z)
  : result RepoError (Repo * BlockMap.t) * Tid.Clock :=
  match unstored_blocks (BlockMap.store BlockMap.new) Mst.empty with
  | Err e => (Err e, clock)
  | Ok (data, (root, blocks)) =>
      let '(clock, rev) := Tid.mint clock since in
      (commit ← commit_sign did rev root keypair;
       '(blocks, cid) ← BlockMap.add blocks commit;
       Ok (MkRepo cid commit data, blocks), clock)
  end.

(** [Repo::load]. *)
Definition load (store : Store) (cid : Cid) : result RepoError Repo :=
  commit ← read store cid;
  Ok (MkRepo cid commit (Mst.load (c_data commit))).

(** The check every record has to pass: it names the collection it is in. *)
Definition TYPE : bytes := lit "$type".
Definition names_its_collection (w : Write) : bool :=
  match record w with
  | Some (IMap fields) =>
      match BTree.get fields TYPE with
      | Some (IString named) => bool_decide (named = Nsid.str (fst (target w)))
      | _ => false
      end
  | _ => true
  end.
Fixpoint check_names (writes : list Write) : result RepoError unit :=
  match writes with
  | [] => Ok tt
  | w :: writes =>
      if names_its_collection w then check_names writes
      else Err (NotRecordData "a record that names no collection")
  end.

(** What the writes leave: every record encoded, the record each key ends at,
    and the tree. *)
Definition Batch : Type := BlockMap.t * list (bytes * Cid) * Mst.

(** One turn of the loop over the writes. *)
Definition write_one (store : Store) (batch : Batch) (w : Write) : result RepoError Batch :=
  let '(encoded, leaves, data) := batch in
  let k := key w in
  match w with
  | WCreate _ _ record =>
      '(encoded, cid) ← BlockMap.add encoded record;
      data ← Mst.add store data k cid;
      Ok (encoded, BTree.insert leaves k cid, data)
  | WUpdate _ _ record =>
      '(encoded, cid) ← BlockMap.add encoded record;
      data ← Mst.update store data k cid;
      Ok (encoded, BTree.insert leaves k cid, data)
  | WPut _ _ record =>
      '(encoded, cid) ← BlockMap.add encoded record;
      '(data, held) ← Mst.get store data k;
      data ← match held with
             | Some _ => Mst.update store data k cid
             | None => Mst.add store data k cid
             end;
      Ok (encoded, BTree.insert leaves k cid, data)
  | WDelete _ _ =>
      data ← Mst.delete store data k;
      Ok (encoded, BTree.remove leaves k, data)
  end.
Fixpoint write_all (store : Store) (batch : Batch) (writes : list Write) : result RepoError Batch :=
  match writes with
  | [] => Ok batch
  | w :: writes => batch ← write_one store batch w; write_all store batch writes
  end.

(** The blocks of the records the batch ends at. *)
Fixpoint record_blocks (encoded : BlockMap.t) (leaves : list (bytes * Cid)) (blocks : BlockMap.t)
  : result RepoError BlockMap.t :=
  match leaves with
  | [] => Ok blocks
  | (_, cid) :: leaves =>
      b ← BlockMap.get encoded cid;
      record_blocks encoded leaves (BlockMap.insert blocks cid b)
  end.

(** What [apply] does before it asks the clock: the tree the writes leave, its
    root, every block to store but the commit, and every block dropped. *)
Definition prepare (fuel : nat) (store : Store) (self : Repo) (writes : list Write)
  : option (result RepoError (Mst * Cid * BlockMap.t * list Cid)) :=
  let built :=
    _ ← check_names writes;
    '(encoded, leaves, data) ← write_all store (BlockMap.new, [], r_data self) writes;
    blocks ← record_blocks encoded leaves BlockMap.new;
    '(data, (root, tree)) ← unstored_blocks store data;
    Ok (data, root, BlockMap.merge blocks tree) in
  match built with
  | Err e => Some (Err e)
  | Ok (data, root, blocks) =>
      match dropped store fuel data (r_data self) with
      | None => None
      | Some (Err e) => Some (Err e)
      | Some (Ok gone) => Some (Ok (data, root, blocks, gone))
      end
  end.

(** [Repo::apply]. *)
Definition apply (fuel : nat) (self : Repo) (store : Store) (writes : list Write)
    (keypair : Keypair p256 k256) (clock : Tid.Clock) (since : option Z)
  : option (Repo * Tid.Clock * result RepoError (BlockMap.t * list Cid)) :=
  match prepare fuel store self writes with
  | None => None
  | Some (Err e) => Some (self, clock, Err e)
  | Some (Ok (data, root, blocks, gone)) =>
      match Tid.mint_after clock (c_rev (r_commit self)) since with
      | (clock, None) => Some (self, clock, Err (NoRevisionAfter (c_rev (r_commit self))))
      | (clock, Some rev) =>
          match commit_sign (c_did (r_commit self)) rev root keypair with
          | Err e => Some (self, clock, Err e)
          | Ok commit =>
              match BlockMap.add blocks commit with
              | Err e => Some (self, clock, Err e)
              | Ok (blocks, cid) =>
                  let gone := if decide (cid = r_cid self) then gone else gone ++ [r_cid self] in
                  Some (MkRepo cid commit data, clock, Ok (blocks, gone))
              end
          end
      end
  end.

(** [Repo::did], [rev], [get], [proof], [records] and [verify]; a read gives
    back the repository with what it read filled in. *)
Definition repo_did (self : Repo) : Did.t := c_did (r_commit self).
Definition rev (self : Repo) : Tid.t := c_rev (r_commit self).
Definition filled (self : Repo) (data : Mst) : Repo := MkRepo (r_cid self) (r_commit self) data.
Definition get (self : Repo) (store : Store) (collection : Nsid.t) (rkey : RecordKey.t)
  : result RepoError (Repo * option Cid) :=
  '(data, found) ← Mst.get store (r_data self) (path collection rkey); Ok (filled self data, found).
Definition proof (self : Repo) (store : Store) (collection : Nsid.t) (rkey : RecordKey.t)
  : result RepoError (Repo * list Cid) :=
  '(data, cids) ← Mst.cids_for_path store (r_data self) (path collection rkey); Ok (filled self data, cids).
Definition records (self : Repo) (store : Store) : result RepoError (Repo * list Leaf) :=
  '(data, found) ← Mst.leaves store (r_data self); Ok (filled self data, found).
Definition repo_verify (self : Repo) (key : PublicKey p256 k256) : result RepoError unit :=
  commit_verify (r_commit self) key.

End Repo.
