(* ===== verification/RepoFacts.v ===== *)
(** * RepoFacts: what a batch of writes does to a repository

    [Repo.apply] against its specification: a batch is a function on the
    records a repository holds ([spec_writes]), and the repository either moves
    to exactly those records under a commit its key signed, or stays as it was.

    The properties say what is handed to the store as well: the blocks are
    enough to read the new revision back from its commit's CID, and the dropped
    CIDs are all the old revision reached that the new one does not. *)

From S2P Require Import Prelude Syntax Crypto Block Json Mst MstDiff Repo MstLogic MstShape MstRead MstWrite MstStore MstFacts MstWalk Concrete.

(* ------------------------------------------------------------------ *)
(** ** A write's key is a record path *)

Lemma path_valid c k : well_formed c -> well_formed k -> valid_key (path c k) = true.
Proof.
  intros (Hc & Hcn & Hcl)%nsid_named (Hk & Hkn & Hkl)%record_key_plain.
  assert (47%Z ∉ Nsid.str c) as Hnc by (eapply forallb_not_elem; [|eassumption]; done).
  assert (47%Z ∉ RecordKey.str k) as Hnk by (eapply forallb_not_elem; [|eassumption]; done).
  unfold valid_key, path; change (lit "/") with [47%Z]; cbn [app].
  rewrite (split_on_app 47), (split_on_plain 47) by done.
  rewrite !andb_true_iff; split_and!.
  - apply Z.leb_le; unfold MAX_KEY_LEN; rewrite len_app, len_cons; lia.
  - by destruct (Nsid.str c).
  - by destruct (RecordKey.str k).
  - rewrite forallb_app; cbn [forallb]; rewrite !andb_true_iff; split_and!; [|done|].
    + eapply forallb_impl; [|exact Hc]. intros b Hb; apply orb_true_iff; right.
      revert Hb; by apply class_incl.
    + eapply forallb_impl; [|exact Hk]. intros b Hb; apply orb_true_iff; right.
      revert Hb; by apply class_incl.
Qed.

(* ------------------------------------------------------------------ *)
(** ** What a batch should do *)

Section Spec.
Context `{Sha256} `{!Codec Ipld}.

(** The write to the tree that one write to the repository is. *)
Definition op_of (g : records) (w : Write) : result RepoError Op :=
  match w with
  | WCreate c k record => b ← encode record; Ok (Add (path c k) (cid_for b))
  | WUpdate c k record => b ← encode record; Ok (Update (path c k) (cid_for b))
  | WPut c k record =>
      b ← encode record;
      Ok (match g !! path c k with
          | Some _ => Update (path c k) (cid_for b)
          | None => Add (path c k) (cid_for b)
          end)
  | WDelete c k => Ok (Delete (path c k))
  end.

(** What a batch leaves of the records, and whether it leaves off where it takes
    the last of them out. *)
Definition spec_write (g : records) (w : Write) : result RepoError records :=
  op ← op_of g w; spec_step g op.
Fixpoint spec_writes (g : records) (ws : list Write) : result RepoError records :=
  match ws with
  | [] => Ok g
  | w :: ws => g ← spec_write g w; spec_writes g ws
  end.
Fixpoint never_refills (g : records) (ws : list Write) : bool :=
  match ws with
  | [] => true
  | w :: ws =>
      match spec_write g w with
      | Ok g => match ws with [] => true | _ => negb (bool_decide (g = ∅)) && never_refills g ws end
      | Err _ => true
      end
  end.
Definition spec_batch (g : records) (ws : list Write) : result RepoError records :=
  _ ← check_names ws; spec_writes g ws.

End Spec.

(* ------------------------------------------------------------------ *)
(** ** The loop over the writes *)

Section Writes.
Context `{Sha256} `{!Sha256Ok} `{!Codec NodeData} `{!CodecOk NodeData} `{!Codec Ipld}.

(** Everything encoded is under its own CID. *)
Definition addressed (blocks : BlockMap.t) : Prop := forall c b, blocks !! c = Some b -> c = cid_for b.

(** The records the batch has written, among those it leaves: each is where
    the records say, is encoded, and is the only thing that changed there. *)
Definition accounted (g0 g : records) (encoded : BlockMap.t) (leaves : list (bytes * Cid)) : Prop :=
  BTree.sorted leaves /\ addressed encoded
  /\ (forall k c, (k, c) ∈ leaves -> g !! k = Some c /\ is_Some (encoded !! c))
  /\ (forall k c, g !! k = Some c -> (k, c) ∈ leaves \/ g0 !! k = Some c).

Lemma addressed_insert blocks b :
  addressed blocks -> addressed (BlockMap.insert blocks (cid_for b) b).
Proof. intros Ha c b'; unfold BlockMap.insert; rewrite lookup_insert_Some; naive_solver. Qed.

Lemma addressed_merge a b : addressed a -> addressed b -> addressed (BlockMap.merge a b).
Proof. intros Ha Hb c x; unfold BlockMap.merge; rewrite lookup_union_Some_raw; naive_solver. Qed.

Lemma accounted_new g : accounted g g BlockMap.new [].
Proof.
  split_and!; [constructor| |set_solver|by right]. intros c b; unfold BlockMap.new; by rewrite lookup_empty.
Qed.

Lemma insert_elem_iff (leaves : list (bytes * Cid)) k c k' c' :
  BTree.sorted leaves ->
  (k', c') ∈ BTree.insert leaves k c <-> (k' = k /\ c' = c) \/ (k' <> k /\ (k', c') ∈ leaves).
Proof.
  intros Hs; rewrite <- !BTree.get_elem by (try apply BTree.insert_sorted; done).
  destruct (decide (k' = k)) as [->|Hne].
  - rewrite BTree.get_insert_eq; naive_solver.
  - rewrite BTree.get_insert_ne by done; naive_solver.
Qed.

Lemma remove_elem_iff (leaves : list (bytes * Cid)) k k' c' :
  BTree.sorted leaves -> (k', c') ∈ BTree.remove leaves k <-> k' <> k /\ (k', c') ∈ leaves.
Proof.
  intros Hs; rewrite <- !BTree.get_elem by (try apply BTree.remove_sorted; done).
  destruct (decide (k' = k)) as [->|Hne].
  - rewrite BTree.get_remove_eq by done; naive_solver.
  - rewrite BTree.get_remove_ne by done; naive_solver.
Qed.

Lemma accounted_write g0 g encoded leaves k b :
  accounted g0 g encoded leaves ->
  accounted g0 (<[k := cid_for b]> g) (BlockMap.insert encoded (cid_for b) b)
    (BTree.insert leaves k (cid_for b)).
Proof.
  intros (Hs & Ha & Hl & Hg); split_and!.
  - by apply BTree.insert_sorted.
  - by apply addressed_insert.
  - intros k' c'; rewrite insert_elem_iff by done; unfold BlockMap.insert.
    rewrite lookup_insert_Some; intros [[-> ->]|[Hne Hin]].
    + rewrite lookup_insert_eq; eauto.
    + destruct (Hl _ _ Hin) as [? Hi]; split; [by right|].
      destruct (decide (cid_for b = c')) as [<-|?]; [by rewrite lookup_insert_eq|by rewrite lookup_insert_ne].
  - intros k' c'; rewrite insert_elem_iff, lookup_insert_Some by done; naive_solver.
Qed.

Lemma accounted_delete g0 g encoded leaves k :
  accounted g0 g encoded leaves -> accounted g0 (base.delete k g) encoded (BTree.remove leaves k).
Proof.
  intros (Hs & Ha & Hl & Hg); split_and!; [by apply BTree.remove_sorted|done| |].
  - intros k' c'; rewrite remove_elem_iff, lookup_delete_Some by done; naive_solver.
  - intros k' c'; rewrite remove_elem_iff, lookup_delete_Some by done; naive_solver.
Qed.

(** What one turn of the loop must leave. *)
Definition advances (st : Store) (n : nat) (l : list Leaf) (g0 g' : records) (batch : Batch) : Prop :=
  let '(encoded, leaves, data) := batch in
  exists n' l', holds st n' data l' /\ lists l' g' /\ accounted g0 g' encoded leaves
    /\ (n = top l -> g' <> ∅ -> n' = top l').

Lemma step_writes st n l g0 g encoded leaves data k b op :
  (forall g', spec_step g op = Ok g' -> g' = <[k := cid_for b]> g) ->
  holds st n data l -> lists l g -> accounted g0 g encoded leaves ->
  match spec_step g op with
  | Ok g' => exists batch,
      (data ← step st data op;
       Ok (BlockMap.insert encoded (cid_for b) b, BTree.insert leaves k (cid_for b), data)) = Ok batch
      /\ advances st n l g0 g' batch
  | Err e => step st data op = Err e
  end.
Proof.
  intros Hop Ht Hl Ha; pose proof (step_refines st data n l g op Ht Hl) as Hs.
  destruct (spec_step g op) as [g'|e]; [|done]. rewrite (Hop g' eq_refl) in *.
  destruct Hs as (m' & n' & l' & -> & Ht' & Hl' & Htop). eexists; split; [reflexivity|].
  exists n', l'; split_and!; [done|done|by apply accounted_write|done].
Qed.

Lemma spec_step_put g k v g' op :
  op = Add k v \/ op = Update k v -> spec_step g op = Ok g' -> g' = <[k := v]> g.
Proof.
  intros [-> | ->]; cbn [spec_step]; destruct (ensure_valid_key k); cbn; [|done| |done];
    destruct (g !! k); congruence.
Qed.

Lemma write_one_refines st n l g0 g encoded leaves data w :
  holds st n data l -> lists l g -> accounted g0 g encoded leaves ->
  match spec_write g w with
  | Ok g' => exists batch, write_one st (encoded, leaves, data) w = Ok batch /\ advances st n l g0 g' batch
  | Err e => write_one st (encoded, leaves, data) w = Err e
  end.
Proof.
  intros Ht Hl Ha; destruct w as [c k r|c k r|c k r|c k]; unfold spec_write; cbn [op_of write_one];
    unfold key; cbn [target]; unfold BlockMap.add; try (destruct (encode r) as [b|e]; [|done]);
    cbn [mbind result_bind].
  - pose proof (step_writes st n l g0 g encoded leaves data (path c k) b (Add (path c k) (cid_for b))
      (fun g' => spec_step_put g _ _ g' _ (or_introl eq_refl)) Ht Hl Ha) as Hs.
    destruct (spec_step _ _); [done|]. cbn [step] in Hs; by rewrite Hs.
  - pose proof (step_writes st n l g0 g encoded leaves data (path c k) b (Update (path c k) (cid_for b))
      (fun g' => spec_step_put g _ _ g' _ (or_intror eq_refl)) Ht Hl Ha) as Hs.
    destruct (spec_step _ _); [done|]. cbn [step] in Hs; by rewrite Hs.
  - destruct (holds_get st n data l (path c k) Ht) as (data' & -> & Ht'); cbn [mbind result_bind].
    rewrite <- (Hl (path c k)); destruct (g !! path c k).
    + pose proof (step_writes st n l g0 g encoded leaves data' (path c k) b (Update (path c k) (cid_for b))
        (fun g' => spec_step_put g _ _ g' _ (or_intror eq_refl)) Ht' Hl Ha) as Hs.
      destruct (spec_step _ _); [done|]. cbn [step] in Hs; by rewrite Hs.
    + pose proof (step_writes st n l g0 g encoded leaves data' (path c k) b (Add (path c k) (cid_for b))
        (fun g' => spec_step_put g _ _ g' _ (or_introl eq_refl)) Ht' Hl Ha) as Hs.
      destruct (spec_step _ _); [done|]. cbn [step] in Hs; by rewrite Hs.
  - pose proof (step_refines st data n l g (Delete (path c k)) Ht Hl) as Hs; cbn [spec_step step] in *.
    destruct (g !! path c k); [|by rewrite Hs].
    destruct Hs as (m' & n' & l' & -> & Ht' & Hl' & Htop); eexists; split; [reflexivity|].
    exists n', l'; split_and!; [done|done|by apply accounted_delete|done].
Qed.

Lemma write_all_refines st g0 ws : forall n l g encoded leaves data,
  holds st n data l -> lists l g -> accounted g0 g encoded leaves ->
  match spec_writes g ws with
  | Ok g' => exists encoded' leaves' data' n' l',
      write_all st (encoded, leaves, data) ws = Ok (encoded', leaves', data')
      /\ holds st n' data' l' /\ lists l' g' /\ accounted g0 g' encoded' leaves'
      /\ (n = top l -> never_refills g ws = true -> crowned n' l')
  | Err e => write_all st (encoded, leaves, data) ws = Err e
  end.
Proof.
  induction ws as [|w ws IH]; intros n l g encoded leaves data Ht Hl Ha;
    cbn [spec_writes write_all never_refills]; [exists encoded, leaves, data, n, l; split_and!; [done..|by right]|].
  pose proof (write_one_refines st n l g0 g encoded leaves data w Ht Hl Ha) as Hw.
  destruct (spec_write g w) as [g'|e]; [|by rewrite Hw].
  destruct Hw as ([[encoded' leaves'] data'] & -> & n' & l' & Ht' & Hl' & Ha' & Htop).
  cbn [mbind result_bind]; specialize (IH n' l' g' encoded' leaves' data' Ht' Hl' Ha').
  destruct (spec_writes g' ws) as [g2|e] eqn:Es; [|done].
  destruct IH as (encoded2 & leaves2 & data2 & n2 & l2 & E & Ht2 & Hl2 & Ha2 & Htop2).
  exists encoded2, leaves2, data2, n2, l2; split_and!; [done..|]. intros Hn Hs. destruct ws as [|w' ws].
  - assert (g' = g2) as <- by (clear -Es; by injection Es).
    destruct (decide (g' = ∅)) as [Hg|Hg]; [left; by apply (lists_empty l2 g')|].
    apply Htop2; [by apply Htop|done].
  - bool_prop. apply Htop2; [|done]. apply Htop; [done|]. by eapply bool_decide_eq_false_1.
Qed.

(** The records' blocks are there, and nothing else is. *)
Lemma record_blocks_spec encoded leaves :
  addressed encoded -> (forall k c, (k, c) ∈ leaves -> is_Some (encoded !! c)) ->
  forall blocks, addressed blocks ->
  exists blocks', record_blocks encoded leaves blocks = Ok blocks' /\ addressed blocks'
    /\ (forall c, is_Some (blocks' !! c) <-> is_Some (blocks !! c) \/ exists k, (k, c) ∈ leaves).
Proof.
  intros Ha; induction leaves as [|[k c] leaves IH]; intros Hl blocks Hb; cbn [record_blocks].
  - exists blocks; split_and!; [done|done|]. intros c; split; [by left|]. intros [?|[? ?%elem_of_nil]]; done.
  - destruct (Hl k c ltac:(set_solver)) as [b E]; unfold BlockMap.get; rewrite E; cbn [ok_or mbind result_bind].
    destruct (IH ltac:(set_solver) (BlockMap.insert blocks c b)) as (blocks' & -> & Hb' & Hd).
    { rewrite (Ha _ _ E); by apply addressed_insert. }
    exists blocks'; split_and!; [done..|]. intros c'; rewrite Hd; unfold BlockMap.insert.
    rewrite lookup_insert_is_Some'; split.
    + intros [[->|?]|[k' ?]]; [right; exists k; left|by left|right; exists k'; by right].
    + intros [?|[k' Hin]]; [by left; right|]. apply elem_of_cons in Hin as [[= -> ->]|?]; [by left; left|eauto].
Qed.

End Writes.

(* ------------------------------------------------------------------ *)
(** ** What a batch is applied to *)

Section Apply.
Context (p256 k256 : Curve) `{!CurveOk p256, !CurveOk k256}.
Context `{Sha256} `{!Sha256Ok} `{!Codec NodeData} `{!CodecOk NodeData} `{!Codec Ipld}.
Context `{!Codec Commit, !CodecOk Commit, !Codec Unsigned, !CodecOk Unsigned}.

(** Two revisions one store can hold: no two nodes of either collide, the
    nodes of both are in [st0], and what the store has of the next it has
    whole. *)
Record Coexist (st st0 : Store) (l l' : list Leaf) : Prop := {
  old_stored : stored st0 (top l) l;
  new_stored : stored st0 (top l') l';
  old_distinct : NoDup (tree_cids (top l) l);
  new_distinct : NoDup (tree_cids (top l') l');
  new_closed : closed_under st (top l') l'
}.

(** What [prepare] hands over: the tree of the new records, blocks that are
    each under their own CID, that hold every new node and every new record,
    and that hold nothing the new revision does not reach. *)
Record Prepared (st : Store) (g g' : records) (l l' : list Leaf)
    (data : Mst) (blocks : BlockMap.t) (gone : list Cid) : Prop := {
  prep_tree : standing st data l';
  prep_good : good (top l') l';
  prep_addressed : addressed blocks;
  prep_stored : forall st', extends st st' -> within blocks st' -> stored st' (top l') l';
  prep_records : forall k c, g' !! k = Some c -> g !! k = Some c \/ is_Some (blocks !! c);
  prep_reached : forall c, is_Some (blocks !! c) -> c ∈ reached (top l') l';
  prep_gone : forall c, c ∈ gone -> c ∈ reached (top l) l;
  prep_let_go : forall c, c ∈ reached (top l) l -> c ∉ reached (top l') l' -> c ∈ gone;
  prep_spared : forall c, once c (reached (top l) l) -> once c (reached (top l') l') -> c ∈ gone ->
    c ∉ reached (top l') l'
}.

Lemma tree_blocks_addressed n l c b : (c, b) ∈ tree_blocks n l -> c = cid_for b.
Proof.
  revert l; induction n as [|n IH]; intros l; cbn [tree_blocks]; rewrite elem_of_cons; intros [[= -> ->]|Hin];
    [done|by apply elem_of_nil in Hin|done|].
  apply list_elem_of_In, in_concat in Hin as (bs & Hbs & Hc).
  apply in_map_iff in Hbs as ([|x s] & <- & _); [done|]. by eapply IH, list_elem_of_In.
Qed.

Lemma tree_store_get n l c b :
  store_get (BlockMap.store (list_to_map (tree_blocks n l))) c = Ok b -> (c, b) ∈ tree_blocks n l.
Proof. cbn; rewrite blockmap_get_Ok; apply elem_of_list_to_map_2. Qed.

Lemma tree_block_cid n l c b : (c, b) ∈ tree_blocks n l -> c ∈ tree_cids n l.
Proof. intros Hin; rewrite <- tree_blocks_cids. by apply (list_elem_of_fmap_2 fst) in Hin. Qed.

Lemma lists_elem l g k c : lists l g -> g !! k = Some c -> MkLeaf k c ∈ l.
Proof.
  intros Hl Hk; rewrite (Hl k) in Hk; clear Hl; induction l as [|x l IH]; cbn in Hk; [done|].
  case_decide as Hd; [|right; by apply IH]. destruct x; cbn in *; simplify_eq; left.
Qed.

(** The batch's own loop, then everything [prepare] does after it. *)
Lemma prepare_fails fuel st R ws l g e :
  tree st (r_data R) l -> lists l g -> spec_batch g ws = Err e ->
  prepare fuel st R ws = Some (Err e).
Proof.
  intros Ht Hl Hs; unfold prepare; unfold spec_batch in Hs.
  destruct (check_names ws) as [[]|]; cbn [mbind result_bind] in *; [|by simplify_eq].
  pose proof (write_all_refines st g ws _ l g BlockMap.new [] (r_data R) Ht Hl (accounted_new g)) as Hw.
  rewrite Hs in Hw; by rewrite Hw.
Qed.

Lemma prepare_writes fuel st st0 R ws l l' g g' :
  StoreOk st -> tree st (r_data R) l -> lists l g ->
  spec_batch g ws = Ok g' -> never_refills g ws = true -> lists l' g' -> sorted l' ->
  Coexist st st0 l l' -> length (reached (top l) l) + length (reached (top l') l') < fuel ->
  exists data blocks gone,
    prepare fuel st R ws = Some (Ok (data, cid_of (top l') l', blocks, gone))
    /\ Prepared st g g' l l' data blocks gone.
Proof.
  intros Hok Ht Hl Hs Hsome Hl' Hsorted [Hs0 Hs' Hnd Hnd' Hcl] Hfuel; unfold prepare; unfold spec_batch in Hs.
  destruct (check_names ws) as [[]|]; cbn [mbind result_bind] in *; [|done].
  pose proof (write_all_refines st g ws _ l g BlockMap.new [] (r_data R) Ht Hl (accounted_new g)) as Hw.
  rewrite Hs in Hw; destruct Hw as (encoded & leaves & data & n & l2 & -> & Hh & Hl2 & (Hbs & Ha & Hlv & Hg) & Htop).
  cbn [mbind result_bind]; specialize (Htop eq_refl Hsome).
  assert (l2 = l') as -> by (eapply lists_unique; [apply Hh|done|done|done]).
  assert (good (top l') l') as Hgood by (destruct Htop as [->| <-]; [split; constructor|apply Hh]).
  destruct (crowned_shape _ _ Htop) as (Ecid & Ecids & Eblocks & Est & Ecl). rewrite <- ?Ecid, <- ?Ecids, <- ?Est in *.
  apply Ecl in Hcl. assert (reached n l' = reached (top l') l') as Er by (by rewrite !reached_cids, Ecids).
  rewrite <- Er in *.
  destruct (record_blocks_spec encoded leaves Ha (fun k c Hin => proj2 (Hlv k c Hin)) BlockMap.new)
    as (recs & -> & Har & Hrecs); [intros c b; unfold BlockMap.new; by rewrite lookup_empty|].
  cbn [mbind result_bind]; destruct (holds_unstored st _ data l' Hok Hh Hcl Hnd') as (data' & nodes & -> & Hh' & Hw & Hst).
  cbn [mbind result_bind].
  destruct (dropped_turns st st0 _ data' l' _ (r_data R) l fuel Ht Hh' Hs0 Hs' Hnd Hnd' Hfuel)
    as (d & -> & Hd1 & Hd2 & Hd3).
  eexists data', _, _; split; [reflexivity|].
  assert (forall c, c ∈ merge_sort cid_le (elements (removed d)) <-> c ∈ removed d) as He.
  { intros c; rewrite merge_sort_Permutation; apply elem_of_elements. }
  assert (addressed nodes) as Han by (intros c b Hc; apply (tree_blocks_addressed n l'), tree_store_get; auto).
  split; [by exists n|done|by apply addressed_merge| | | |intros c; rewrite He; apply Hd1|intros c; rewrite <- Er, He; apply Hd2
    |intros c; rewrite <- Er, He; apply Hd3].
  - intros st' Hext Hwi; apply Est, Hst; [done|]. intros c b Hc; apply Hwi.
    unfold BlockMap.merge; apply lookup_union_Some_raw; by left.
  - intros k c Hk; destruct (Hg k c Hk) as [Hin|]; [right|by left].
    unfold BlockMap.merge; apply lookup_union_is_Some; right; apply Hrecs; right; eauto.
  - intros c; rewrite <- Er. unfold BlockMap.merge; rewrite lookup_union_is_Some, reached_cids, elem_of_app.
    intros [[b Hc]|Hc]; [left; exact (tree_block_cid _ _ _ _ (tree_store_get _ _ _ _ (Hw _ _ Hc)))|right].
    apply Hrecs in Hc as [[? Hc]|[k Hc]]; [by unfold BlockMap.new in Hc; rewrite lookup_empty in Hc|].
    destruct (Hlv _ _ Hc) as [Hk _]. apply (list_elem_of_fmap_2 value _ (MkLeaf k c)). by eapply lists_elem.
Qed.

Lemma signed_verifies did rev data (kp : Keypair p256 k256) :
  exists c, commit_sign p256 k256 did rev data kp = Ok c
    /\ c = MkCommit did VERSION data rev None (c_sig c)
    /\ commit_verify p256 k256 c (public_key p256 k256 kp) = Ok tt.
Proof.
  unfold commit_sign; rewrite encode_ok; cbn [mbind result_bind]. eexists; split_and!; [done|done|].
  unfold commit_verify; cbn [c_version c_did c_data c_rev c_prev c_sig].
  rewrite Z.eqb_refl; cbn [negb]; rewrite encode_ok; cbn [mbind result_bind].
  by rewrite (sign_verifies p256 k256).
Qed.

(** What [apply] makes of what was prepared. *)
Definition committed (R R' : Repo) (clock clock' : Tid.Clock) (since : option Z)
    (kp : Keypair p256 k256) (l' : list Leaf) (data : Mst) (blocks blocks' : BlockMap.t)
    (gone gone' : list Cid) : Prop :=
  exists rev, Tid.mint_after clock (c_rev (r_commit R)) since = (clock', Some rev)
    /\ r_commit R' = MkCommit (c_did (r_commit R)) VERSION (cid_of (top l') l') rev None (c_sig (r_commit R'))
    /\ commit_verify p256 k256 (r_commit R') (public_key p256 k256 kp) = Ok tt
    /\ r_cid R' = cid_for (dag_cbor (r_commit R')) /\ r_data R' = data
    /\ blocks' = BlockMap.insert blocks (r_cid R') (dag_cbor (r_commit R'))
    /\ gone' = (if decide (r_cid R' = r_cid R) then gone else gone ++ [r_cid R]).

Lemma apply_prepared fuel st R ws kp clock since l' data blocks gone :
  prepare fuel st R ws = Some (Ok (data, cid_of (top l') l', blocks, gone)) ->
  match Tid.mint_after clock (c_rev (r_commit R)) since with
  | (clock', None) =>
      apply p256 k256 fuel R st ws kp clock since
      = Some (R, clock', Err (NoRevisionAfter (c_rev (r_commit R))))
  | (clock', Some _) => exists R' blocks' gone',
      apply p256 k256 fuel R st ws kp clock since = Some (R', clock', Ok (blocks', gone'))
      /\ committed R R' clock clock' since kp l' data blocks blocks' gone gone'
  end.
Proof.
  intros E; unfold apply, committed; rewrite E.
  destruct (Tid.mint_after clock (c_rev (r_commit R)) since) as [clock' [rev|]] eqn:Em; [|done].
  destruct (signed_verifies (c_did (r_commit R)) rev (cid_of (top l') l') kp) as (c & -> & Ec & Hv).
  unfold BlockMap.add; rewrite encode_ok; cbn [mbind result_bind].
  eexists _, _, _; split; [reflexivity|]. exists rev; by split_and!.
Qed.

(** The block of a commit that collides with no node leaves the nodes alone. *)
Lemma within_commit (blocks : BlockMap.t) c b st :
  within (BlockMap.insert blocks c b) st -> (is_Some (blocks !! c) -> blocks !! c = Some b) ->
  within blocks st /\ store_get st c = Ok b.
Proof.
  unfold BlockMap.insert; intros Hw Hc; split; [|apply Hw, lookup_insert_eq].
  intros c' b' Hb; destruct (decide (c = c')) as [<-|Hne].
  - apply Hw; rewrite lookup_insert_eq. rewrite <- Hc by eauto. done.
  - apply Hw; by rewrite lookup_insert_ne.
Qed.

(* ------------------------------------------------------------------ *)
(** ** The properties of a batch *)

(** A batch is all or nothing: whatever would be refused of it, at
    whatever place in it, the repository and the clock are as they were, and
    the error is the one the specification gives: a record that does not name
    its collection or does not encode, a key that is taken, a key that is not
    there. *)
Theorem refused_batch_changes_nothing fuel st R ws kp clock since l g e :
  tree st (r_data R) l -> lists l g -> spec_batch g ws = Err e ->
  apply p256 k256 fuel R st ws kp clock since = Some (R, clock, Err e).
Proof.
  intros Ht Hl Hs; unfold apply. by rewrite (prepare_fails fuel st R ws l g e Ht Hl Hs).
Qed.

Section Accepted.
Context (fuel : nat) (st st0 : Store) (R : Repo) (ws : list Write) (l l' : list Leaf) (g g' : records).
Context (Hok : StoreOk st) (Htree : tree st (r_data R) l) (Hlists : lists l g).
Context (Hspec : spec_batch g ws = Ok g') (Hsome : never_refills g ws = true).
Context (Hlists' : lists l' g') (Hsorted : sorted l') (Hco : Coexist st st0 l l').
Context (Hfuel : length (reached (top l) l) + length (reached (top l') l') < fuel).
Context (kp : Keypair p256 k256) (clock : Tid.Clock) (since : option Z).

Lemma apply_inv R' clock' blocks gone :
  apply p256 k256 fuel R st ws kp clock since = Some (R', clock', Ok (blocks, gone)) ->
  exists data blocks0 gone0, Prepared st g g' l l' data blocks0 gone0
    /\ committed R R' clock clock' since kp l' data blocks0 blocks gone0 gone.
Proof.
  destruct (prepare_writes fuel st st0 R ws l l' g g') as (data & blocks0 & gone0 & E & Hp); [done..|].
  pose proof (apply_prepared fuel st R ws kp clock since l' data blocks0 gone0 E) as Ha; intros E'.
  destruct (Tid.mint_after _ _ _) as [clock1 [rev|]] eqn:Em; [|congruence].
  destruct Ha as (R1 & b1 & g1 & E1 & Hc); simplify_eq. eauto.
Qed.

(** C14 (refinement). A batch the specification accepts, and that does not go on
    writing once it has taken the last record out ([never_refills]; where one
    does, [MstFacts.stale_layer], the root is another), moves the repository to
    exactly the records the specification leaves, none included, under a new commit over
    their root that the account's public key verifies, for the same account,
    with the revision the clock gives after the last; unless the clock has no
    revision left, which is an error that leaves the repository as it was. No
    other error is possible: no block is missing, no node malformed, and the
    walk that finds what to let go of ends. *)
Theorem accepted_batch_is_committed :
  match Tid.mint_after clock (c_rev (r_commit R)) since with
  | (clock', None) =>
      apply p256 k256 fuel R st ws kp clock since
      = Some (R, clock', Err (NoRevisionAfter (c_rev (r_commit R))))
  | (clock', Some rev) => exists R' out,
      apply p256 k256 fuel R st ws kp clock since = Some (R', clock', Ok out)
      /\ standing st (r_data R') l'
      /\ r_commit R' = MkCommit (repo_did R) VERSION (cid_of (top l') l') rev None (c_sig (r_commit R'))
      /\ r_cid R' = cid_for (dag_cbor (r_commit R'))
      /\ repo_verify p256 k256 R' (public_key p256 k256 kp) = Ok tt
  end.
Proof.
  destruct (prepare_writes fuel st st0 R ws l l' g g') as (data & blocks0 & gone0 & E & Hp); [done..|].
  pose proof (apply_prepared fuel st R ws kp clock since l' data blocks0 gone0 E) as Ha.
  destruct (Tid.mint_after _ _ _) as [clock1 [rev|]] eqn:Em; [|done].
  destruct Ha as (R' & b & gn & E' & rev' & Em' & Hc & Hv & Hcid & Hd & _); rewrite Em in Em'; simplify_eq.
  eexists R', _; split_and!; [exact E'|apply Hp|exact Hc|exact Hcid|exact Hv].
Qed.

(** What is handed over is under its own CIDs and loads in any store that
    takes it. *)
Lemma revision_loads R' clock' blocks gone :
  apply p256 k256 fuel R st ws kp clock since = Some (R', clock', Ok (blocks, gone)) ->
  r_cid R' ∉ reached (top l') l' ->
  addressed blocks /\ is_Some (blocks !! r_cid R')
  /\ forall st', extends st st' -> within blocks st' ->
       standing st' (r_data R') l'
       /\ exists R2, load st' (r_cid R') = Ok R2 /\ r_cid R2 = r_cid R' /\ r_commit R2 = r_commit R'
            /\ tree st' (r_data R2) l'.
Proof.
  intros E Hfresh; destruct (apply_inv R' clock' blocks gone E) as (data & b0 & g0 & [] & Hc).
  destruct Hc as (rev & _ & Hcommit & _ & Hcid & Hd & -> & _).
  split_and!.
  - rewrite Hcid; by apply addressed_insert.
  - unfold BlockMap.insert; rewrite lookup_insert_is_Some'; by left.
  - intros st' Hext Hw; apply within_commit in Hw as [Hw Hget]; [|intros []%prep_reached0%Hfresh].
    split; [rewrite Hd; destruct prep_tree0 as (n & Hh & Hc); exists n; split; [by eapply holds_extends|done]|].
    exists (MkRepo (r_cid R') (r_commit R') (Mst.load (c_data (r_commit R')))); split_and!; [|done|done|].
    + unfold load, read; rewrite Hget; cbn [mbind result_bind]. by rewrite decode_ok.
    + cbn [r_data]; rewrite Hcommit; cbn [c_data]. apply tree_load; [done|by apply prep_stored0|].
      by destruct Hco.
Qed.

(** C34 (roundtrip). The blocks an accepted batch hands back, one that does not go
    on writing once it has taken the last record out ([never_refills]), are all
    that has to be stored: in any store that kept what it had and took them, the
    commit's CID alone reads the repository back, with the same commit and the
    same records, and the one in memory still stands for it. Every block is under
    its own CID, every record that is not where it was before has its block there,
    and nothing else is handed over: a batch that writes one key twice stores the
    last. The commit's CID must not collide with a node's. *)
Theorem stored_revision_reads_back R' clock' blocks gone :
  apply p256 k256 fuel R st ws kp clock since = Some (R', clock', Ok (blocks, gone)) ->
  r_cid R' ∉ reached (top l') l' ->
  addressed blocks
  /\ (forall k c, g' !! k = Some c -> g !! k = Some c \/ is_Some (blocks !! c))
  /\ (forall c, is_Some (blocks !! c) -> c = r_cid R' \/ c ∈ reached (top l') l')
  /\ forall st', extends st st' -> within blocks st' ->
       standing st' (r_data R') l'
       /\ exists R2, load st' (r_cid R') = Ok R2 /\ r_cid R2 = r_cid R' /\ r_commit R2 = r_commit R'
            /\ tree st' (r_data R2) l'.
Proof.
  intros E Hfresh; destruct (revision_loads R' clock' blocks gone E Hfresh) as (Ha & _ & Hl).
  split_and!; [done| | |done];
    destruct (apply_inv R' clock' blocks gone E) as (data & b0 & g0 & [] & rev & _ & _ & _ & _ & _ & -> & _).
  - intros k c Hk; unfold BlockMap.insert; rewrite lookup_insert_is_Some'.
    destruct (prep_records0 k c Hk); eauto.
  - intros c; unfold BlockMap.insert; rewrite lookup_insert_is_Some'; intros [->|?]; eauto.
Qed.

(** What a batch lets go of is what the revision before reached:
    its commit, and blocks of its tree and its records. Everything the revision
    before reached and the next does not is let go of, so nothing is kept for
    a revision that is gone. *)
Theorem batch_lets_go_of_the_last_revision R' clock' blocks gone :
  apply p256 k256 fuel R st ws kp clock since = Some (R', clock', Ok (blocks, gone)) ->
  (forall c, c ∈ gone -> c ∈ r_cid R :: reached (top l) l)
  /\ (forall c, c ∈ r_cid R :: reached (top l) l -> c ∉ r_cid R' :: reached (top l') l' -> c ∈ gone).
Proof.
  intros E; destruct (apply_inv R' clock' blocks gone E) as (data & b0 & g0 & [] & Hc).
  destruct Hc as (rev & _ & _ & _ & _ & _ & _ & ->). clear E Hlists' Hsorted.
  split; intros c; rewrite !elem_of_cons; case_decide as Hd;
    rewrite ?elem_of_app, ?list_elem_of_singleton; [eauto|intros [?| ->]; eauto| |].
  - intros [->|Hc] Hn; [exfalso; naive_solver|]. apply prep_let_go0; [done|naive_solver].
  - intros [->|Hc] Hn; [by right|]. left; apply prep_let_go0; [done|naive_solver].
Qed.

End Accepted.

(** A commit signed for an account verifies under the account's
    public key; and only version 3 is ever trusted: a commit of another
    version is refused whatever its signature. What does verify was signed
    over every field but the signature. *)
Theorem commit_signature_is_checked did rev data (kp : Keypair p256 k256) c pk :
  (exists c, commit_sign p256 k256 did rev data kp = Ok c
    /\ c_did c = did /\ c_rev c = rev /\ c_data c = data
    /\ commit_verify p256 k256 c (public_key p256 k256 kp) = Ok tt)
  /\ (c_version c <> VERSION -> commit_verify p256 k256 c pk = Err (WrongVersion (c_version c)))
  /\ (commit_verify p256 k256 c pk = Ok tt ->
      c_version c = VERSION
      /\ verify p256 k256 pk
           (dag_cbor (MkUnsigned (c_did c) VERSION (c_data c) (c_rev c) (c_prev c))) (c_sig c) = Ok tt).
Proof.
  split; [|split].
  - destruct (signed_verifies did rev data kp) as (c' & E & Ec & Hv); exists c'; split; [done|].
    rewrite Ec at 1 2 3; by split_and!.
  - intros Hv%Z.eqb_neq; unfold commit_verify; by rewrite Hv.
  - unfold commit_verify; destruct (Z.eqb_spec (c_version c) VERSION) as [Hv|]; [|done].
    cbn [negb]; rewrite encode_ok, Hv; cbn [mbind result_bind].
    destruct (verify _ _ _ _ _) as [[]|]; [done|done].
Qed.

(** The key of a write is a record path: a collection and a record
    key that parsed make a key the tree takes, so a batch of parsed writes is
    never refused for one. *)
Theorem write_key_is_a_record_path w :
  well_formed (fst (target w)) -> well_formed (snd (target w)) -> ensure_valid_key (key w) = Ok tt.
Proof.
  unfold ensure_valid_key, key; destruct (target w) as [c k]; cbn [fst snd]; intros Hc Hk.
  by rewrite (path_valid c k Hc Hk).
Qed.

(** What [create] makes: an empty tree's one block and a commit over it. *)
Lemma create_makes did (kp : Keypair p256 k256) clock since :
  exists c m bs, let head := cid_for (Block.dag_cbor c) in
    create p256 k256 did kp clock since
      = (Ok (MkRepo head c m, BlockMap.insert bs head (Block.dag_cbor c)), fst (Tid.mint clock since))
    /\ c = MkCommit did VERSION (cid_of 0 []) (snd (Tid.mint clock since)) None (c_sig c)
    /\ commit_verify p256 k256 c (public_key p256 k256 kp) = Ok tt
    /\ tree (BlockMap.store BlockMap.new) m []
    /\ (forall v b, bs !! v = Some b -> (v, b) ∈ tree_blocks 0 [])
    /\ forall st, within bs st -> MstShape.stored st 0 [].
Proof.
  unfold create; set (none := BlockMap.store BlockMap.new).
  destruct (holds_unstored none 0 Mst.empty []) as (m & bs & E & Hm & Hw & Hst);
    [apply _|apply tree_empty|by split|repeat constructor; set_solver|].
  rewrite E; destruct (Tid.mint clock since) as [clock' tid]; cbn [fst snd].
  destruct (signed_verifies did tid (cid_of 0 []) kp) as (c & -> & Ec & Hv); cbn [mbind result_bind].
  unfold BlockMap.add; rewrite encode_ok; cbn [mbind result_bind].
  exists c, m, bs; split_and!; [done|exact Ec|exact Hv|exact Hm| |].
  - intros v b Hb; by eapply tree_store_get, Hw.
  - intros st Hwi; apply Hst; [|done]. by intros v b Hb; cbn in Hb.
Qed.

(** A repository just created holds nothing, is signed by its
    key at the revision the clock gave, and reads back from its commit's CID
    out of the blocks it was created with. *)
Theorem created_repository_reads_back did (kp : Keypair p256 k256) clock since :
  exists R blocks, create p256 k256 did kp clock since = (Ok (R, blocks), fst (Tid.mint clock since))
    /\ repo_did R = did /\ rev R = snd (Tid.mint clock since)
    /\ repo_verify p256 k256 R (public_key p256 k256 kp) = Ok tt
    /\ forall st, within blocks st -> r_cid R <> cid_of 0 [] ->
         tree st (r_data R) []
         /\ exists R2, load st (r_cid R) = Ok R2 /\ r_commit R2 = r_commit R /\ tree st (r_data R2) [].
Proof.
  destruct (create_makes did kp clock since) as (c & m & bs & E & Ec & Hv & Hm & Hb & Hst); cbv zeta in E.
  assert (c_data c = cid_of 0 []) as Ed by (by rewrite Ec).
  eexists _, _; split_and!; [exact E|unfold repo_did; cbn; by rewrite Ec|unfold rev; cbn; by rewrite Ec|exact Hv|].
  cbn [r_cid r_data r_commit]; intros st Hwi Hne; apply within_commit in Hwi as [Hwi Hget].
  - split; [eapply holds_extends; [|exact Hm]; by intros v b Hb'; cbn in Hb'|].
    eexists; split_and!; [unfold load, read; rewrite Hget; cbn [mbind result_bind]; by rewrite decode_ok|done|].
    cbn [r_data]; rewrite Ed.
    apply (tree_load st []); [by split; constructor|by apply Hst|repeat constructor; set_solver].
  - intros [b Hb']; pose proof (Hb _ _ Hb') as Hin.
    cbn in Hin; apply list_elem_of_singleton in Hin; congruence.
Qed.

End Apply.

(* ------------------------------------------------------------------ *)
(** ** At a concrete repository *)

Module Sample.

(** Commits as flat lists of numbers. *)
Definition put (b : bytes) : bytes := len b :: b.
Definition take_put (b : bytes) : option (bytes * bytes) :=
  match b with [] => None | n :: b => Some (take (Z.to_nat n) b, drop (Z.to_nat n) b) end.

Lemma take_put_app b r : take_put (put b ++ r) = Some (b, r).
Proof. cbn; unfold len; by rewrite Nat2Z.id, take_app_length, drop_app_length. Qed.

Definition put_cid (c : Cid) : bytes := cid_version c :: cid_codec c :: hash_code c :: put (hash_digest c).
Definition take_cid (b : bytes) : option (Cid * bytes) :=
  match b with
  | v :: co :: h :: b => match take_put b with Some (d, b) => Some (MkCid v co h d, b) | None => None end
  | _ => None
  end.

Lemma take_cid_app c r : take_cid (put_cid c ++ r) = Some (c, r).
Proof. unfold put_cid, take_cid; cbn [app]. rewrite take_put_app. by destruct c. Qed.

Definition put_unsigned (u : Unsigned) : bytes :=
  put (Did.str (u_did u)) ++ put (Tid.str (u_rev u)) ++ put_cid (u_data u)
  ++ u_version u :: match u_prev u with None => [0%Z] | Some c => 1%Z :: put_cid c end.
Definition take_unsigned (b : bytes) : option Unsigned :=
  '(did, b) ← take_put b; '(rev, b) ← take_put b; '(data, b) ← take_cid b;
  match b with
  | v :: 0%Z :: _ => Some (MkUnsigned (Did.mk did) v data (Tid.mk rev) None)
  | v :: _ :: b => '(prev, _) ← take_cid b; Some (MkUnsigned (Did.mk did) v data (Tid.mk rev) (Some prev))
  | _ => None
  end.

Lemma take_unsigned_put u : take_unsigned (put_unsigned u) = Some u.
Proof.
  destruct u as [[did] v data [rev] prev]; unfold take_unsigned, put_unsigned;
    cbn [u_did u_version u_data u_rev u_prev Did.str Tid.str].
  rewrite take_put_app; cbn [mbind option_bind]; rewrite take_put_app; cbn [mbind option_bind].
  rewrite take_cid_app; cbn [mbind option_bind]. destruct prev as [c|]; [|done].
  rewrite <- (app_nil_r (put_cid c)), take_cid_app. done.
Qed.

#[export] Instance unsigned_codec : Codec Unsigned :=
  {| to_vec u := Ok (put_unsigned u); from_slice b := ok_or (take_unsigned b) "no unsigned commit"%string |}.
#[export] Instance unsigned_codec_ok : CodecOk Unsigned.
Proof.
  refine {| dag_cbor := put_unsigned |}; [done|]. intros u; cbn -[take_unsigned put_unsigned]; by rewrite take_unsigned_put.
Defined.

#[export] Instance commit_codec : Codec Commit :=
  {| to_vec c := Ok (put (c_sig c) ++ put_unsigned (MkUnsigned (c_did c) (c_version c) (c_data c) (c_rev c) (c_prev c)));
     from_slice b := ok_or ('(s, b) ← take_put b; u ← take_unsigned b;
       Some (MkCommit (u_did u) (u_version u) (u_data u) (u_rev u) (u_prev u) s)) "no commit"%string |}.
#[export] Instance commit_codec_ok : CodecOk Commit.
Proof.
  refine {| dag_cbor c := put (c_sig c) ++ put_unsigned (MkUnsigned (c_did c) (c_version c) (c_data c) (c_rev c) (c_prev c)) |};
    [done|].
  intros [did v data r p s]; cbn -[take_put put_unsigned take_unsigned put].
  rewrite take_put_app; cbn -[put_unsigned take_unsigned]. by rewrite take_unsigned_put.
Defined.

(** Records that are one field and its text; others do not encode. *)
#[export] Instance ipld_codec : Codec Ipld :=
  {| to_vec r := match r with
       | IMap [(k, IString v)] => Ok (put k ++ put v)
       | _ => Err "not one field"%string
       end;
     from_slice b := match take_put b with
       | Some (k, b) => match take_put b with Some (v, []) => Ok (IMap [(k, IString v)]) | _ => Err "not one field"%string end
       | None => Err "not one field"%string
       end |}.

#[export] Existing Instances Mix.mixed Mix.mixed_ok Coded.codec Coded.codec_ok Toy.curve_ok.

Definition post : Nsid.t := Nsid.mk (lit "app.bsky.post").
Definition rkey : RecordKey.t := RecordKey.mk (lit "3jui7kd2z").
Definition record : Ipld := IMap [(lit "$type", IString (lit "app.bsky.post"))].
Definition did : Did.t := Did.mk (lit "did:plc:a").

(** An empty repository, and a batch that writes its first record. *)
Definition commit : Commit :=
  MkCommit did VERSION (cid_of 0 []) (Tid.mk (lit "3jzfcijpj2z2a")) None [].
Definition repo : Repo := MkRepo (cid_for (Block.dag_cbor commit)) commit Mst.empty.
Definition ws : list Write := [WCreate post rkey record].
Definition twice : list Write := [WCreate post rkey record; WCreate post rkey record].

Definition leaf : Leaf :=
  MkLeaf (path post rkey) (cid_for (put (lit "$type") ++ put (lit "app.bsky.post"))).
Definition g' : records := {[Mst.key leaf := value leaf]}.
Abbreviation height := (top [leaf]).
Definition store : Store := MstFacts.Sample.store.
Definition both : Store :=
  BlockMap.store (list_to_map (tree_blocks 0 [] ++ tree_blocks height [leaf])).

Definition clock : Tid.Clock := Tid.MkClock 7 0.
Definition since : option Z := Some 1700000000000000%Z.
Definition fuel : nat := 20.

Lemma empty_repo : tree store (r_data repo) [] /\ lists [] ∅.
Proof. split; [apply tree_empty|]. by intros k; rewrite lookup_empty. Qed.

Lemma one_leaf : lists [leaf] g' /\ sorted [leaf].
Proof.
  split; [|repeat constructor]. intros k; cbn -[g' leaf]; unfold g'. rewrite lookup_singleton.
  by repeat case_decide.
Qed.

Lemma coexist : Coexist store both [] [leaf].
Proof.
  split; [apply stored_check; vm_compute; reflexivity..| | |apply MstFacts.Sample.closed_new].
  - repeat constructor; set_solver.
  - apply (bool_decide_unpack _); vm_compute; exact I.
Qed.

Lemma accepted : spec_batch ∅ ws = Ok g' /\ never_refills ∅ ws = true.
Proof. split; vm_compute; reflexivity. Qed.

(** What the batch makes of the repository. *)
Definition succeeded (o : option (Repo * Tid.Clock * result RepoError (BlockMap.t * list Cid))) : bool :=
  match o with
  | Some (R', _, Ok _) => bool_decide (r_cid R' ∉ reached height [leaf])
  | _ => false
  end.

Lemma applied : exists R' clock' blocks gone,
  apply Toy.curve Toy.curve fuel repo store ws Toy.keypair clock since
    = Some (R', clock', Ok (blocks, gone))
  /\ r_cid R' ∉ reached height [leaf].
Proof.
  assert (succeeded (apply Toy.curve Toy.curve fuel repo store ws Toy.keypair clock since) = true) as Hs
    by (vm_compute; reflexivity).
  destruct (apply _ _ _ _ _ _ _ _ _) as [[[R' clock'] [[blocks gone]|e]]|]; [|done|done].
  exists R', clock', blocks, gone; split; [done|]. by apply bool_decide_eq_true in Hs.
Qed.

Lemma enough : length (reached (top []) []) + length (reached height [leaf]) < fuel.
Proof. apply Nat.ltb_lt; vm_compute; reflexivity. Qed.

End Sample.
Import Sample.

Lemma refused_batch_changes_nothing_witness :
  apply Toy.curve Toy.curve Sample.fuel repo Sample.store twice Toy.keypair Sample.clock Sample.since
  = Some (repo, Sample.clock, Err (KeyExists (path post rkey))).
Proof.
  apply (refused_batch_changes_nothing Toy.curve Toy.curve Sample.fuel Sample.store repo twice
    Toy.keypair Sample.clock Sample.since [] ∅); [apply empty_repo..|vm_compute; reflexivity].
Defined.

Lemma accepted_batch_is_committed_witness :
  match Tid.mint_after Sample.clock (c_rev Sample.commit) Sample.since with
  | (clock', None) =>
      apply Toy.curve Toy.curve Sample.fuel repo Sample.store Sample.ws Toy.keypair Sample.clock Sample.since
      = Some (repo, clock', Err (NoRevisionAfter (c_rev Sample.commit)))
  | (clock', Some rev) => exists R' out,
      apply Toy.curve Toy.curve Sample.fuel repo Sample.store Sample.ws Toy.keypair Sample.clock Sample.since
      = Some (R', clock', Ok out)
      /\ standing Sample.store (r_data R') [leaf]
      /\ r_commit R' = MkCommit Sample.did VERSION (cid_of height [leaf]) rev None (c_sig (r_commit R'))
      /\ r_cid R' = cid_for (Block.dag_cbor (r_commit R'))
      /\ repo_verify Toy.curve Toy.curve R' (public_key Toy.curve Toy.curve Toy.keypair) = Ok tt
  end.
Proof.
  apply (accepted_batch_is_committed Toy.curve Toy.curve Sample.fuel Sample.store Sample.both repo Sample.ws
    [] [leaf] ∅ Sample.g' _ (proj1 empty_repo) (proj2 empty_repo) (proj1 accepted) (proj2 accepted)
    (proj1 one_leaf) (proj2 one_leaf) coexist enough Toy.keypair Sample.clock Sample.since).
Defined.

Lemma stored_revision_reads_back_witness : exists R' blocks,
  addressed blocks
  /\ (forall k c, Sample.g' !! k = Some c -> (∅ : MstFacts.records) !! k = Some c \/ is_Some (blocks !! c))
  /\ (forall c, is_Some (blocks !! c) -> c = r_cid R' \/ c ∈ reached height [leaf])
  /\ forall st', extends Sample.store st' -> within blocks st' ->
       standing st' (r_data R') [leaf]
       /\ exists R2, load st' (r_cid R') = Ok R2 /\ r_cid R2 = r_cid R' /\ r_commit R2 = r_commit R'
            /\ tree st' (r_data R2) [leaf].
Proof.
  destruct applied as (R' & clock' & blocks & gone & E & Hn); exists R', blocks.
  exact (stored_revision_reads_back Toy.curve Toy.curve Sample.fuel Sample.store Sample.both repo Sample.ws
    [] [leaf] ∅ Sample.g' _ (proj1 empty_repo) (proj2 empty_repo) (proj1 accepted) (proj2 accepted)
    (proj1 one_leaf) (proj2 one_leaf) coexist enough Toy.keypair Sample.clock Sample.since R' clock' blocks gone E Hn).
Defined.

Lemma batch_lets_go_of_the_last_revision_witness : exists (R' : Repo) (gone : list Cid),
  (forall c, c ∈ gone -> c ∈ r_cid repo :: reached 0 [])
  /\ (forall c, c ∈ r_cid repo :: reached 0 [] -> c ∉ r_cid R' :: reached height [leaf] -> c ∈ gone).
Proof.
  destruct applied as (R' & clock' & blocks & gone & E & Hn); exists R', gone.
  exact (batch_lets_go_of_the_last_revision Toy.curve Toy.curve Sample.fuel Sample.store Sample.both repo Sample.ws
    [] [leaf] ∅ Sample.g' _ (proj1 empty_repo) (proj2 empty_repo) (proj1 accepted) (proj2 accepted)
    (proj1 one_leaf) (proj2 one_leaf) coexist enough Toy.keypair Sample.clock Sample.since R' clock' blocks gone E).
Defined.

Lemma commit_signature_is_checked_witness :
  (exists c, commit_sign Toy.curve Toy.curve Sample.did (c_rev Sample.commit) (cid_of 0 []) Toy.keypair = Ok c
    /\ c_did c = Sample.did /\ c_rev c = c_rev Sample.commit /\ c_data c = cid_of 0 []
    /\ commit_verify Toy.curve Toy.curve c (public_key Toy.curve Toy.curve Toy.keypair) = Ok tt)
  /\ (c_version Sample.commit <> VERSION ->
       commit_verify Toy.curve Toy.curve Sample.commit Toy.public = Err (WrongVersion (c_version Sample.commit)))
  /\ (commit_verify Toy.curve Toy.curve Sample.commit Toy.public = Ok tt ->
      c_version Sample.commit = VERSION
      /\ verify Toy.curve Toy.curve Toy.public
           (Block.dag_cbor (MkUnsigned (c_did Sample.commit) VERSION (c_data Sample.commit)
             (c_rev Sample.commit) (c_prev Sample.commit))) (c_sig Sample.commit) = Ok tt).
Proof. apply (commit_signature_is_checked Toy.curve Toy.curve). Defined.

Lemma write_key_is_a_record_path_witness :
  ensure_valid_key (Repo.key (WDelete post rkey)) = Ok tt.
Proof. apply write_key_is_a_record_path; vm_compute; reflexivity. Defined.

Lemma created_repository_reads_back_witness :
  exists R blocks, create Toy.curve Toy.curve Sample.did Toy.keypair Sample.clock Sample.since
                   = (Ok (R, blocks), fst (Tid.mint Sample.clock Sample.since))
    /\ repo_did R = Sample.did /\ rev R = snd (Tid.mint Sample.clock Sample.since)
    /\ repo_verify Toy.curve Toy.curve R (public_key Toy.curve Toy.curve Toy.keypair) = Ok tt
    /\ forall st, within blocks st -> r_cid R <> cid_of 0 [] ->
         tree st (r_data R) []
         /\ exists R2, load st (r_cid R) = Ok R2 /\ r_commit R2 = r_commit R /\ tree st (r_data R2) [].
Proof. apply (created_repository_reads_back Toy.curve Toy.curve). Defined.
