(* ===== verification/Ip.v ===== *)
(** * Ip: internet addresses as the standard library reads and writes them

    What [src/src/xrpc/limit.rs] uses of [std::net]: [IpAddr], its octets, the
    predicates on IPv4 addresses, [to_ipv4_mapped], [Display] and [FromStr].
    None of this is the server's own code, so no definition here models a line
    under [src/]; it is written out so that addresses in the model are parsed,
    compared and printed and not only named.

    The one fact taken from here is that the text of a network (an IPv6 address
    whose last four segments are zero) tells the network ([network_text_inj]). *)

From stdpp Require Import pretty.
From S2P Require Import Prelude.

Local Open Scope Z_scope.

(** [IpAddr], an IPv4 address as four octets and an IPv6 address as sixteen. *)
Inductive IpAddr :=
| V4 (octets : list Z)
| V6 (octets : list Z).

#[export] Instance IpAddr_eq_dec : EqDecision IpAddr.
Proof. solve_decision. Defined.

Definition octet (a : list Z) (i : nat) : Z := a !!! i.
Definition is_octets (n : nat) (a : list Z) : Prop := length a = n /\ Forall is_byte a.
Definition valid_ip (a : IpAddr) : Prop :=
  match a with V4 o => is_octets 4 o | V6 o => is_octets 16 o end.

(** [Ipv4Addr::is_loopback], [is_private], [is_link_local], [is_unspecified]. *)
Definition v4_loopback (o : list Z) : bool := octet o 0 =? 127.
Definition v4_private (o : list Z) : bool :=
  (octet o 0 =? 10)
  || ((octet o 0 =? 172) && between 16 (octet o 1) 31)
  || ((octet o 0 =? 192) && (octet o 1 =? 168)).
Definition v4_link_local (o : list Z) : bool := (octet o 0 =? 169) && (octet o 1 =? 254).
Definition v4_unspecified (o : list Z) : bool := bool_decide (o = [0; 0; 0; 0]).

(** [Ipv6Addr::is_loopback], [is_unspecified], [to_ipv4_mapped]. *)
Definition v6_unspecified (o : list Z) : bool := bool_decide (o = repeat 0 16).
Definition v6_loopback (o : list Z) : bool := bool_decide (o = repeat 0 15 ++ [1]).
Definition to_ipv4_mapped (o : list Z) : option (list Z) :=
  if decide (take 12 o = repeat 0 10 ++ [255; 255]) then Some (drop 12 o) else None.

(* ------------------------------------------------------------------ *)
(** ** Printing *)

Definition decimal (n : Z) : bytes := lit (pretty n).

Definition v4_text (o : list Z) : bytes := join 46 (map decimal o).

(** [{:x}]: lowercase hex without leading zeros. *)
Definition hex_digit (d : Z) : Z := if d <? 10 then 48 + d else 87 + d.
Definition segment_text (s : Z) : bytes :=
  if s <? 16 then [hex_digit s]
  else if s <? 256 then [hex_digit (s / 16); hex_digit (s mod 16)]
  else if s <? 4096 then [hex_digit (s / 256); hex_digit (s / 16 mod 16); hex_digit (s mod 16)]
  else [hex_digit (s / 4096); hex_digit (s / 256 mod 16); hex_digit (s / 16 mod 16); hex_digit (s mod 16)].

Fixpoint segments (o : list Z) : list Z :=
  match o with a :: b :: o => a * 256 + b :: segments o | _ => [] end.

(** The first longest run of zero segments, as its start and its length. *)
Fixpoint longest_zeros (i : nat) (segs : list Z) (start n : nat) (best : nat * nat) : nat * nat :=
  match segs with
  | [] => best
  | s :: segs =>
      if s =? 0 then
        let '(start, n) := match n with O => (i, 1%nat) | S _ => (start, S n) end in
        longest_zeros (S i) segs start n (if (snd best <? n)%nat then (start, n) else best)
      else longest_zeros (S i) segs 0 0 best
  end.

Definition v6_text (o : list Z) : bytes :=
  match to_ipv4_mapped o with
  | Some v4 => lit "::ffff:" ++ v4_text v4
  | None =>
      let segs := segments o in
      let '(start, n) := longest_zeros 0 segs 0 0 (0, 0)%nat in
      if (1 <? n)%nat then
        join 58 (map segment_text (take start segs)) ++ lit "::"
        ++ join 58 (map segment_text (drop (start + n) segs))
      else join 58 (map segment_text segs)
  end.

(** [IpAddr::to_string]. *)
Definition ip_text (a : IpAddr) : bytes := match a with V4 o => v4_text o | V6 o => v6_text o end.

(* ------------------------------------------------------------------ *)
(** ** Parsing *)

Definition digit_value (radix b : Z) : option Z :=
  let d := if is_ascii_digit b then b - 48
           else if between 97 b 122 then b - 87 else if between 65 b 90 then b - 55 else 99 in
  if d <? radix then Some d else None.

(** [Parser::read_number]: the number, how many digits it had, and the rest;
    none where it has too many digits or does not fit. *)
Fixpoint read_digits (radix limit : Z) (most : nat) (s : bytes) (value : Z) (count : nat)
  : option (Z * nat * bytes) :=
  match s with
  | b :: s' =>
      match digit_value radix b with
      | Some d =>
          if (count <? most)%nat && (value * radix + d <? limit)
          then read_digits radix limit most s' (value * radix + d) (S count) else None
      | None => Some (value, count, s)
      end
  | [] => Some (value, count, [])
  end.
Definition read_number (radix limit : Z) (most : nat) (leading_zeros : bool) (s : bytes)
  : option (Z * bytes) :=
  match read_digits radix limit most s 0 0 with
  | Some (_, O, _) | None => None
  | Some (value, count, rest) =>
      if negb leading_zeros && head_is (Z.eqb 48) s && (1 <? count)%nat then None else Some (value, rest)
  end.

(** [Parser::read_separator]: the separator first, but not before the first. *)
Definition after_separator (sep : Z) (i : nat) (s : bytes) : option bytes :=
  match i with O => Some s | S _ => strip_prefix [sep] s end.

Fixpoint read_octets (i n : nat) (s : bytes) : option (list Z * bytes) :=
  match n with
  | O => Some ([], s)
  | S n =>
      s ← after_separator 46 i s;
      '(o, s) ← read_number 10 256 3 false s;
      '(os, s) ← read_octets (S i) n s;
      Some (o :: os, s)
  end.
Definition read_ipv4 (s : bytes) : option (list Z * bytes) := read_octets 0 4 s.

(** [read_groups]: as many segments as there are, up to [left] of them, and
    whether the last two were an embedded IPv4 address. *)
Fixpoint read_groups (i left : nat) (s : bytes) : list Z * bool * bytes :=
  match left with
  | O => ([], false, s)
  | S left' =>
      match (if (1 <? left)%nat then s' ← after_separator 58 i s; read_ipv4 s' else None) with
      | Some (o, s) => (segments o, true, s)
      | None =>
          match s' ← after_separator 58 i s; read_number 16 65536 4 true s' with
          | Some (g, s) => let '(gs, v4, s) := read_groups (S i) left' s in (g :: gs, v4, s)
          | None => ([], false, s)
          end
      end
  end.
Definition read_ipv6 (s : bytes) : option (list Z * bytes) :=
  let '(head, v4, s) := read_groups 0 8 s in
  if (length head =? 8)%nat then Some (head, s)
  else if v4 then None
  else
    s ← strip_prefix (lit "::") s;
    let '(tail, _, s) := read_groups 0 (7 - length head) s in
    Some (head ++ repeat 0 (8 - length head - length tail) ++ tail, s).

(** [IpAddr::from_str]. *)
Definition ip_parse (s : bytes) : option IpAddr :=
  match read_ipv4 s with
  | Some (o, rest) => match rest with [] => Some (V4 o) | _ => None end
  | None =>
      match read_ipv6 s with
      | Some (segs, []) => Some (V6 (concat (map (fun g => [g / 256; g mod 256]) segs)))
      | _ => None
      end
  end.

Example ip_examples :
  ip_parse (lit "192.168.0.7") = Some (V4 [192; 168; 0; 7])
  /\ ip_parse (lit "1.2.3.04") = None
  /\ ip_parse (lit "::ffff:1.2.3.4") = Some (V6 (repeat 0 10 ++ [255; 255; 1; 2; 3; 4]))
  /\ ip_parse (lit "2001:db8::1") = Some (V6 ([32; 1; 13; 184] ++ repeat 0 11 ++ [1]))
  /\ ip_text (V6 ([32; 1; 13; 184] ++ repeat 0 11 ++ [1])) = lit "2001:db8::1"
  /\ ip_text (V6 (repeat 0 16)) = lit "::"
  /\ ip_text (V6 (repeat 0 10 ++ [255; 255; 1; 2; 3; 4])) = lit "::ffff:1.2.3.4".
Proof. vm_compute. repeat split. Qed.

(* ------------------------------------------------------------------ *)
(** ** The text of a network tells the network *)

Definition segment_value (t : bytes) : Z :=
  fold_left (fun v b => v * 16 + default 0 (digit_value 16 b)) t 0.

Lemma hex_digit_read d : 0 <= d < 16 -> digit_value 16 (hex_digit d) = Some d.
Proof.
  intros Hd; unfold hex_digit, digit_value, is_ascii_digit, between.
  destruct (Z.ltb_spec d 10).
  - rewrite (proj2 (Z.leb_le 48 _)), (proj2 (Z.leb_le _ 57)) by lia; cbn [andb].
    rewrite (proj2 (Z.ltb_lt _ _)) by lia. f_equal; lia.
  - rewrite (proj2 (Z.leb_gt (87 + d) 57)), andb_false_r by lia.
    rewrite (proj2 (Z.leb_le 97 _)), (proj2 (Z.leb_le _ 122)) by lia; cbn [andb].
    rewrite (proj2 (Z.ltb_lt _ _)) by lia. f_equal; lia.
Qed.

Lemma segment_text_value s : 0 <= s < 65536 -> segment_value (segment_text s) = s.
Proof.
  intros Hs; assert (s / 16 / 16 = s / 256) as E2 by (by rewrite Z.div_div).
  assert (s / 256 / 16 = s / 4096) as E3 by (by rewrite Z.div_div).
  pose proof (Z.div_mod s 16 ltac:(lia)); pose proof (Z.div_mod (s / 16) 16 ltac:(lia)).
  pose proof (Z.div_mod (s / 256) 16 ltac:(lia)); rewrite E2, E3 in *.
  assert (forall n, 0 < n -> 0 <= s / n) by (intros; apply Z.div_pos; lia).
  pose proof (Z.div_lt_upper_bound s 4096 16); pose proof (Z.mod_pos_bound s 16 ltac:(lia)).
  pose proof (Z.mod_pos_bound (s / 16) 16 ltac:(lia)); pose proof (Z.mod_pos_bound (s / 256) 16 ltac:(lia)).
  unfold segment_text, segment_value; repeat case_match; bool_prop; cbn [fold_left];
    rewrite ?hex_digit_read by (try done; split; [auto with lia|apply Z.div_lt_upper_bound; lia] || lia);
    cbn [default]; unfold id; lia.
Qed.

Lemma hex_digit_plain d : 0 <= d < 16 -> hex_digit d <> 58.
Proof. unfold hex_digit; case_match; bool_prop; lia. Qed.

Lemma segment_text_plain s : 0 <= s < 65536 -> 58 ∉ segment_text s /\ segment_text s <> [].
Proof.
  intros Hs; unfold segment_text; repeat case_match; bool_prop; (split; [|done]);
    rewrite !not_elem_of_cons; repeat (split; [apply not_eq_sym, hex_digit_plain|]); try apply not_elem_of_nil;
    try (apply Z.mod_pos_bound; lia); try lia;
    (split; [apply Z.div_pos; lia|apply Z.div_lt_upper_bound; lia]).
Qed.

(** Leading segments, without the zeros they end in. *)
Definition trimmed_segments (a b c d : Z) : list Z :=
  if d =? 0 then if c =? 0 then if b =? 0 then if a =? 0 then [] else [a] else [a; b] else [a; b; c]
  else [a; b; c; d].

Lemma network_text (a b c d : Z) o :
  to_ipv4_mapped o = None -> segments o = [a; b; c; d; 0; 0; 0; 0] ->
  v6_text o = join 58 (map segment_text (trimmed_segments a b c d)) ++ lit "::".
Proof.
  intros Hm Hs; unfold v6_text; rewrite Hm, Hs. unfold trimmed_segments; cbn [longest_zeros].
  destruct (a =? 0) eqn:Ea, (b =? 0) eqn:Eb, (c =? 0) eqn:Ec, (d =? 0) eqn:Ed; bool_prop; subst;
    cbn -[segment_text lit]; by rewrite ?app_nil_r.
Qed.

Lemma trimmed_inj a b c d a' b' c' d' :
  trimmed_segments a b c d = trimmed_segments a' b' c' d' -> [a; b; c; d] = [a'; b'; c'; d'].
Proof. unfold trimmed_segments; repeat case_match; intros [=]; bool_prop; congruence. Qed.

Lemma segment_texts_inj l l' :
  Forall (fun s => 0 <= s < 65536) l -> Forall (fun s => 0 <= s < 65536) l' ->
  map segment_text l = map segment_text l' -> l = l'.
Proof.
  intros Hl; revert l'; induction Hl as [|s l Hs Hl IH]; intros [|s' l'] Hl' E; try done.
  apply Forall_cons in Hl' as [Hs' Hl']; cbn in E; injection E as E1 E2.
  f_equal; [|by apply IH]. by rewrite <- (segment_text_value s), E1, segment_text_value.
Qed.

Lemma join_texts_inj l l' :
  Forall (fun s => 0 <= s < 65536) l -> Forall (fun s => 0 <= s < 65536) l' ->
  join 58 (map segment_text l) = join 58 (map segment_text l') -> l = l'.
Proof.
  intros Hl Hl' E; apply segment_texts_inj; [done..|].
  assert (forall m, Forall (fun s => 0 <= s < 65536) m -> Forall (fun p => 58 ∉ p) (map segment_text m)) as Hf.
  { intros m Hm; apply List.Forall_map. eapply Forall_impl; [exact Hm|]. intros s Hs; by apply segment_text_plain. }
  assert (forall s m, Forall (fun s => 0 <= s < 65536) (s :: m) -> join 58 (map segment_text (s :: m)) <> []) as Hne.
  { intros s m Hm; apply Forall_cons in Hm as [Hs _]; apply segment_text_plain in Hs as [_ Hs].
    cbn; destruct (segment_text s); [done|]. by destruct (map segment_text m). }
  destruct l as [|s l], l' as [|s' l']; [done| | |].
  - symmetry in E; by apply Hne in E.
  - by apply Hne in E.
  - rewrite <- (split_on_join 58 (map segment_text (s :: l))), E, split_on_join; [done|done|by apply Hf|done|by apply Hf].
Qed.

(** The [/64] an IPv6 address is in. *)
Definition network (o : list Z) : list Z := take 8 o ++ repeat 0 8.

Lemma octets_8 (o : list Z) : is_octets 16 o ->
  exists a b c d e f g h rest, o = a :: b :: c :: d :: e :: f :: g :: h :: rest
    /\ Forall is_byte [a; b; c; d; e; f; g; h].
Proof.
  intros [Hl Hf]; do 8 (destruct o as [|? o]; [done|]).
  repeat (apply Forall_cons in Hf as [? Hf]). do 9 eexists; split; [reflexivity|]. by repeat (apply Forall_cons; split; [eassumption|]).
Qed.

Lemma segment_range a b : is_byte a -> is_byte b -> 0 <= a * 256 + b < 65536.
Proof. unfold is_byte; lia. Qed.

Lemma network_text_inj o o' :
  is_octets 16 o -> is_octets 16 o' -> v6_text (network o) = v6_text (network o') -> take 8 o = take 8 o'.
Proof.
  intros (a & b & c & d & e & f & g & h & r & -> & Hf)%octets_8
    (a' & b' & c' & d' & e' & f' & g' & h' & r' & -> & Hf')%octets_8.
  repeat (apply Forall_cons in Hf as [? Hf]); repeat (apply Forall_cons in Hf' as [? Hf']).
  cbn [network take app]; change (network (?x :: ?l)) with (take 8 (x :: l) ++ repeat 0 8); cbn [take app].
  rewrite (network_text (a * 256 + b) (c * 256 + d) (e * 256 + f) (g * 256 + h)) by (unfold to_ipv4_mapped; try case_decide; done).
  rewrite (network_text (a' * 256 + b') (c' * 256 + d') (e' * 256 + f') (g' * 256 + h')) by (unfold to_ipv4_mapped; try case_decide; done).
  intros E%app_inv_tail. assert (forall a b c d, Forall (fun s => 0 <= s < 65536) [a; b; c; d] ->
    Forall (fun s => 0 <= s < 65536) (trimmed_segments a b c d)) as Ht.
  { intros ? ? ? ?; rewrite !Forall_cons; unfold trimmed_segments; intros (? & ? & ? & ? & _).
    repeat case_match; repeat constructor; lia. }
  apply join_texts_inj, trimmed_inj in E; [|apply Ht; repeat constructor; by apply segment_range..].
  unfold is_byte in *; injection E as ? ? ? ?. repeat f_equal; lia.
Qed.

(** The text of an octet: digits, and it reads back. *)
Lemma decimal_octet n : is_byte n ->
  forallb is_ascii_digit (decimal n) = true /\ read_number 10 256 3 false (decimal n) = Some (n, []).
Proof.
  intros Hn; assert (forallb (fun n => forallb is_ascii_digit (decimal n)
    && bool_decide (read_number 10 256 3 false (decimal n) = Some (n, []))) (seqZ 0 256) = true) as Hc
    by (vm_compute; reflexivity).
  rewrite forallb_forall in Hc; specialize (Hc n).
  apply andb_true_iff in Hc as [? Hc]; [by apply bool_decide_eq_true in Hc|].
  apply list_elem_of_In, elem_of_seqZ; unfold is_byte in Hn; lia.
Qed.

Lemma v4_text_inj o o' : is_octets 4 o -> is_octets 4 o' -> v4_text o = v4_text o' -> o = o'.
Proof.
  intros [Hl Hf] [Hl' Hf'] E; unfold v4_text in E.
  assert (forall o, Forall is_byte o -> Forall (fun p => 46 ∉ p) (map decimal o)) as Hd.
  { intros m Hm; apply List.Forall_map. eapply Forall_impl; [exact Hm|].
    intros n [Hn _]%decimal_octet. by eapply forallb_not_elem; [|exact Hn]. }
  assert (map decimal o = map decimal o') as Em.
  { rewrite <- (split_on_join 46 (map decimal o)), E, split_on_join; try by apply Hd; try done.
    all: by destruct o, o'. }
  clear E Hl Hl'; revert o' Hf' Em; induction Hf as [|n o Hn Hf IH]; intros [|n' o'] Hf' Em; try done.
  apply Forall_cons in Hf' as [Hn' Hf']; cbn in Em; injection Em as E1 E2; f_equal; [|by apply IH].
  apply decimal_octet in Hn as [_ Hn], Hn' as [_ Hn']. rewrite E1 in Hn; congruence.
Qed.

Lemma v4_text_plain o : Forall is_byte o -> 47 ∉ v4_text o.
Proof.
  intros Hf; unfold v4_text; induction Hf as [|n o Hn Hf IH]; [apply not_elem_of_nil|].
  apply decimal_octet in Hn as [Hn _].
  assert (47 ∉ decimal n) by (eapply forallb_not_elem; [|exact Hn]; done).
  cbn [map join]; destruct o as [|n' o]; cbn [map] in *; [done|].
  rewrite elem_of_app, elem_of_cons; naive_solver.
Qed.
