(* ===== verification/Limit.v ===== *)
(** * Limit: the budgets a caller spends

    [src/src/xrpc/limit.rs].  An instant and a duration are nanoseconds; an
    instant is an argument, one for each time the code asks the clock
    ([Instant::now] and, for the header that names a date, the wall clock).  A
    [Limiter] is a record passed and given back, which is what its mutex makes
    of it: one caller at a time.

    Parameters: the JSON reader ([serde_json::from_slice] at [SigningIn]) and
    [str::to_lowercase] over all of Unicode. *)

From stdpp Require Import pretty.
From S2P Require Import Prelude Syntax Crypto Ip.

Local Open Scope Z_scope.

(** [Duration::from_mins] and its kin, and [Duration::as_secs]. *)
Definition NANOS : Z := 1000000000.
Definition from_mins (n : Z) : Z := n * 60 * NANOS.
Definition from_hours (n : Z) : Z := n * 3600 * NANOS.
Definition as_secs (d : Z) : Z := d / NANOS.

Definition GLOBAL_POINTS : Z := 3000.
Definition GLOBAL_WINDOW : Z := from_mins 5.
Definition KEYS : nat := Z.to_nat 100000.
Definition REPO : Z * Z := (6000, from_mins 5).
Definition SESSION : list (Z * Z) := [(30, from_mins 5); (300, from_hours 24)].
Definition SIGNUP : Z * Z := (100, from_mins 5).
Definition WRITES : list (Z * Z) := [(5000, from_hours 1); (35000, from_hours 24)].
Definition CREATE : Z := 3.
Definition PUT : Z := 2.
Definition DELETE : Z := 1.
Definition CREATE_SESSION : bytes := lit "/xrpc/com.atproto.server.createSession".
Definition CREATE_ACCOUNT : bytes := lit "/xrpc/com.atproto.server.createAccount".
Definition GET_REPO : bytes := lit "/xrpc/com.atproto.sync.getRepo".
Definition SIGN_IN : Z := 8 * 1024.
Definition NAMED : nat := 256.
Definition BYPASS : bytes := lit "x-ratelimit-bypass".
Definition FORWARDED : bytes := lit "x-forwarded-for".

(* ------------------------------------------------------------------ *)
(** ** One budget *)

(** [Window], [Counts], [Limiter] and [Reading]. *)
Record Window := MkWindow { w_points : Z; until : Z }.
Record Counts := MkCounts { windows : gmap bytes Window; swept : Z; full : bool }.
Record Limiter := MkLimiter { points : Z; window : Z; spent : Counts }.
Record Reading := MkReading {
  limit : Z;
  r_window : Z;
  r_spent : Z;
  remaining : Z;
  resets_in : Z;
  exceeded : bool
}.

#[export] Instance Reading_eq_dec : EqDecision Reading.
Proof. solve_decision. Defined.

(** [Limiter::new]. *)
Definition limiter_new (now points window : Z) : Limiter :=
  MkLimiter points window (MkCounts ∅ now false).

(** [Instant::duration_since] and the subtraction of instants, which are zero
    where the second is the later. *)
Definition duration_since (a b : Z) : Z := saturating_sub a b.

(** [Limiter::consume]: the sweep, then the count. *)
Definition sweep (now : Z) (self : Limiter) : Counts :=
  let counts := spent self in
  if window self <=? duration_since now (swept counts)
  then MkCounts (filter (fun '(_, w) => now < until w) (windows counts)) now false
  else counts.
Definition opened (now : Z) (self : Limiter) (held : option Window) : Window :=
  match held with
  | Some w => if until w <=? now then MkWindow 0 (now + window self) else w
  | None => MkWindow 0 (now + window self)
  end.
Definition charge (points : Z) (w : Window) : Window :=
  MkWindow (saturating_add U32_MAX (w_points w) points) (until w).
Definition reading (now : Z) (self : Limiter) (w : Window) : Reading :=
  MkReading (points self) (window self) (w_points w) (saturating_sub (points self) (w_points w))
    (duration_since (until w) now) (points self <? w_points w).
Definition consume (now : Z) (self : Limiter) (key : bytes) (charged : Z) : Limiter * Reading :=
  let counts := sweep now self in
  if (KEYS <=? size (windows counts))%nat && bool_decide (windows counts !! key = None) then
    (MkLimiter (points self) (window self) (MkCounts (windows counts) (swept counts) true),
     MkReading (points self) (window self) 0 (points self) (window self) false)
  else
    let w := charge charged (opened now self (windows counts !! key)) in
    (MkLimiter (points self) (window self) (MkCounts (<[key := w]> (windows counts)) (swept counts) (full counts)),
     reading now self w).

(** One budget after another, each at the instant it asks for. *)
Fixpoint consume_all (now : nat -> Z) (i : nat) (budgets : list Limiter) (key : bytes) (charged : Z)
  : list Limiter * list Reading :=
  match budgets with
  | [] => ([], [])
  | budget :: budgets =>
      let '(budget, r) := consume (now i) budget key charged in
      let '(budgets, rs) := consume_all now (S i) budgets key charged in
      (budget :: budgets, r :: rs)
  end.

(* ------------------------------------------------------------------ *)
(** ** Headers *)

(** [HeaderMap], as its names and values in order, and [HeaderValue::to_str]. *)
Abbreviation Headers := (list (bytes * bytes)).
Definition is_visible_ascii (b : Z) : bool := between 32 b 126 || (b =? 9).
Definition get_all (headers : Headers) (name : bytes) : list bytes :=
  map snd (List.filter (fun h => bool_decide (fst h = name)) headers).
Definition header (headers : Headers) (name : bytes) : option bytes := head (get_all headers name).
Definition header_insert (headers : Headers) (name value : bytes) : Headers :=
  List.filter (fun h => bool_decide (fst h <> name)) headers ++ [(name, value)].
Definition to_str (value : bytes) : option bytes :=
  if forallb is_visible_ascii value then Some value else None.

(** [Reading::write], the wall clock in seconds. *)
Definition set_header (name : string) (value : bytes) (headers : Headers) : Headers :=
  match to_str value with Some value => header_insert headers (lit name) value | None => headers end.
Definition write (now : Z) (self : Reading) (headers : Headers) : Headers :=
  let headers := set_header "ratelimit-limit" (decimal (limit self)) headers in
  let headers := set_header "ratelimit-remaining" (decimal (remaining self)) headers in
  let headers := set_header "ratelimit-reset" (decimal (now + as_secs (resets_in self))) headers in
  let headers := set_header "ratelimit-policy"
    (decimal (limit self) ++ lit ";w=" ++ decimal (as_secs (r_window self))) headers in
  if exceeded self
  then set_header "retry-after" (decimal (saturating_add U64_MAX (as_secs (resets_in self)) 1)) headers
  else headers.

(* ------------------------------------------------------------------ *)
(** ** Who is asking *)

(** [unique_local], [link_local], [canonical] and [internal]. *)
Definition unique_local (o : list Z) : bool := Z.land (octet o 0) 254 =? 252.
Definition link_local (o : list Z) : bool := (octet o 0 =? 254) && (Z.land (octet o 1) 192 =? 128).
Definition canonical (address : IpAddr) : IpAddr :=
  match address with
  | V6 o => match to_ipv4_mapped o with Some v4 => V4 v4 | None => V6 o end
  | V4 o => V4 o
  end.
Definition internal (address : IpAddr) : bool :=
  match address with
  | V4 o =>
      v4_loopback o || v4_private o || v4_link_local o || v4_unspecified o
      || ((octet o 0 =? 100) && (Z.land (octet o 1) 192 =? 64))
  | V6 o => v6_loopback o || v6_unspecified o || unique_local o || link_local o
  end.

(** [str::trim], on visible ASCII. *)
Definition is_blank (b : Z) : bool := (b =? 32) || (b =? 9).
Fixpoint trim_start (s : bytes) : bytes :=
  match s with b :: s' => if is_blank b then trim_start s' else s | [] => [] end.
Definition trim (s : bytes) : bytes := rev (trim_start (rev (trim_start s))).

(** [Iterator::rfind]. *)
Definition rfind {A} (f : A -> bool) (l : list A) : option A := List.find f (rev l).

(** [caller]: every address the header names, in order, and the last of them
    that is not internal. *)
Definition forwarded (headers : Headers) : list IpAddr :=
  map canonical
    (omap (fun part => ip_parse (trim part))
      (concat (map (split_on 44) (omap to_str (get_all headers FORWARDED))))).
Definition caller (peer : IpAddr) (headers : Headers) : IpAddr :=
  let peer := canonical peer in
  if negb (internal peer) then peer else
  default peer (rfind (fun address => negb (internal address)) (forwarded headers)).

(** [budget]. *)
Definition budget (caller : IpAddr) : bytes :=
  match caller with
  | V4 o => v4_text o
  | V6 o => v6_text (network o) ++ lit "/64"
  end.

(** [shortened]: back to a character boundary. *)
Fixpoint boundary (s : bytes) (end_ : nat) : nat :=
  match end_ with
  | O => O
  | S n => if is_char_boundary s end_ then end_ else boundary s n
  end.
Definition shortened (named : bytes) : bytes :=
  if (length named <=? NAMED)%nat then named else take (boundary named NAMED) named.

(* ------------------------------------------------------------------ *)
(** ** The budgets of the server *)

(** What of a request is looked at: its path, its headers, and its body, which
    says how long it is at most and may fail to be read. *)
Record Body := MkBody { upper : option Z; content : option bytes }.
Record Request := MkRequest { req_path : bytes; req_headers : Headers; req_body : Body }.
Definition empty_body : Body := MkBody (Some 0) (Some []).

(** [axum::body::to_bytes]: nothing where the body fails or is past the limit. *)
Definition to_bytes (body : Body) (most : Z) : option bytes :=
  b ← content body; if len b <=? most then Some b else None.

(** [tightest]: [min_by_key] over whether it refuses, then what is left. *)
Definition tighter (a b : Reading) : bool :=
  match exceeded a, exceeded b with
  | true, false => true
  | false, true => false
  | _, _ => remaining a <? remaining b
  end.
Definition tightest (readings : list Reading) : option Reading :=
  match readings with
  | [] => None
  | r :: rs => Some (fold_left (fun best r => if tighter r best then r else best) rs r)
  end.

(** [Limits]. *)
Record Limits := MkLimits {
  l_global : Limiter;
  session : list Limiter;
  signup : Limiter;
  repo : Limiter;
  writes : list Limiter;
  bypass_key : option bytes;
  bypass_ips : list IpAddr
}.

(** [Limits::new], of the three settings it reads. *)
Definition limits_new (now : Z) (rate_limits : bool) (bypass_key : option bytes) (bypass_ips : list IpAddr)
  : option Limits :=
  let budgets := map (fun b => limiter_new now (fst b) (snd b)) in
  if rate_limits then
    Some (MkLimits (limiter_new now GLOBAL_POINTS GLOBAL_WINDOW) (budgets SESSION)
      (limiter_new now (fst SIGNUP) (snd SIGNUP)) (limiter_new now (fst REPO) (snd REPO))
      (budgets WRITES) bypass_key bypass_ips)
  else None.

(** [Limits::writing]. *)
Definition writing (now : nat -> Z) (self : Limits) (did : Did.t) (charged : Z) : Limits * option Reading :=
  let '(budgets, rs) := consume_all now 0 (writes self) (Did.str did) charged in
  (MkLimits (l_global self) (session self) (signup self) (repo self) budgets (bypass_key self) (bypass_ips self),
   List.find exceeded rs).

(** [Limits::bypassed]. *)
Definition bypassed (self : Limits) (caller : IpAddr) (headers : Headers) : bool :=
  if existsb (fun a => bool_decide (a = caller)) (bypass_ips self) then true else
  match bypass_key self, header headers BYPASS with
  | Some key, Some offered => same offered key
  | _, _ => false
  end.

Section Server.
Context (identifier : bytes -> option bytes) (to_lowercase : bytes -> bytes).

(** [signing_in]. *)
Definition signing_in (request : Request) : Request * bytes :=
  let body := req_body request in
  if (match upper body with None => true | Some length => SIGN_IN <? length end) then (request, []) else
  match to_bytes body SIGN_IN with
  | None => (MkRequest (req_path request) (req_headers request) empty_body, [])
  | Some b =>
      (MkRequest (req_path request) (req_headers request) (MkBody (Some (len b)) (Some b)),
       match identifier b with Some named => shortened (to_lowercase named) | None => [] end)
  end.

(** [Limits::method]. *)
Definition method (now : nat -> Z) (self : Limits) (caller : bytes) (request : Request)
  : Limits * Request * list Reading :=
  if decide (req_path request = CREATE_ACCOUNT) then
    let '(b, r) := consume (now 1%nat) (signup self) caller 1 in
    (MkLimits (l_global self) (session self) b (repo self) (writes self) (bypass_key self) (bypass_ips self),
     request, [r])
  else if decide (req_path request = GET_REPO) then
    let '(b, r) := consume (now 1%nat) (repo self) caller 1 in
    (MkLimits (l_global self) (session self) (signup self) b (writes self) (bypass_key self) (bypass_ips self),
     request, [r])
  else if decide (req_path request = CREATE_SESSION) then
    let '(request, named) := signing_in request in
    let '(bs, rs) := consume_all now 1 (session self) (named ++ lit "-" ++ caller) 1 in
    (MkLimits (l_global self) bs (signup self) (repo self) (writes self) (bypass_key self) (bypass_ips self),
     request, rs)
  else (self, request, []).

(** How [global] answers: the request went on, and what the caller is told of
    its budget, if anything; or it was turned away. *)
Inductive Answer :=
| Passed (request : Request) (told : option Reading)
| TurnedAway (told : Reading).

(** [global]. *)
Definition consume_global (now : nat -> Z) (self : Limits) (key : bytes) (request : Request)
  : Limits * option Reading :=
  if decide (req_path request <> GET_REPO) then
    let '(b, r) := consume (now 0%nat) (l_global self) key 1 in
    (MkLimits b (session self) (signup self) (repo self) (writes self) (bypass_key self) (bypass_ips self), Some r)
  else (self, None).
Definition global (now : nat -> Z) (self : Limits) (peer : IpAddr) (request : Request) : Limits * Answer :=
  if negb (starts_with (lit "/xrpc/") (req_path request)) then (self, Passed request None) else
  let caller := caller peer (req_headers request) in
  if bypassed self caller (req_headers request) then (self, Passed request None) else
  let key := budget caller in
  let '(self, shared) := consume_global now self key request in
  match shared with
  | Some (MkReading _ _ _ _ _ true as r) => (self, TurnedAway r)
  | _ =>
      let '(self, request, rs) := method now self key request in
      let readings := match shared with Some r => r :: rs | None => rs end in
      match tightest readings with
      | None => (self, Passed request None)
      | Some r => (self, if exceeded r then TurnedAway r else Passed request (Some r))
      end
  end.

End Server.
