(* ===== verification/LimitFacts.v ===== *)
(** * LimitFacts: what the budgets hold callers to

    The code keeps its counts in a table it sweeps and bounds; the
    specification ([unswept]) keeps every window it ever opened.  While no more
    keys come than the table takes, the two cannot be told apart; when more
    come, the table stays within its bound.  Then what a window lets through,
    and who a request is counted against. *)

From S2P Require Import Prelude Syntax Crypto Ip Limit.

Local Open Scope Z_scope.

(** A request against one budget: when, by whom, and what it costs. *)
Record Event := MkEvent { at_ : Z; by_ : bytes; cost : Z }.

(** What a budget answers to a run of them. *)
Fixpoint serve (self : Limiter) (events : list Event) : Limiter * list Reading :=
  match events with
  | [] => (self, [])
  | e :: events =>
      let '(self, r) := consume (at_ e) self (by_ e) (cost e) in
      let '(self, rs) := serve self events in
      (self, r :: rs)
  end.

(** The same budget with nothing ever forgotten. *)
Definition unswept_consume (self : Limiter) (held : gmap bytes Window) (e : Event)
  : gmap bytes Window * Reading :=
  let w := charge (cost e) (opened (at_ e) self (held !! by_ e)) in
  (<[by_ e := w]> held, reading (at_ e) self w).
Fixpoint unswept (self : Limiter) (held : gmap bytes Window) (events : list Event) : list Reading :=
  match events with
  | [] => []
  | e :: events =>
      let '(held, r) := unswept_consume self held e in r :: unswept self held events
  end.

(** Requests in the order they come, from an instant on. *)
Fixpoint in_order (now : Z) (events : list Event) : Prop :=
  match events with [] => True | e :: events => now <= at_ e /\ in_order (at_ e) events end.

(* ------------------------------------------------------------------ *)
(** ** The table and what it stands for *)

(** A window still open. *)
Definition live (now : Z) (held : option Window) : option Window :=
  w ← held; if until w <=? now then None else Some w.

Lemma opened_live now self held : opened now self (live now held) = opened now self held.
Proof.
  destruct held as [w|]; [|done]; unfold live, opened; cbn [mbind option_bind].
  destruct (until w <=? now) eqn:E; [done|]. by rewrite E.
Qed.

Lemma live_later now now' held : now <= now' -> live now' (live now held) = live now' held.
Proof.
  intros Hn; destruct held as [w|]; [|done]; unfold live; cbn [mbind option_bind].
  destruct (Z.leb_spec (until w) now); [|done]. by rewrite (proj2 (Z.leb_le _ _)) by lia.
Qed.

Lemma sweep_lookup now self k : live now (windows (sweep now self) !! k) = live now (windows (spent self) !! k).
Proof.
  unfold sweep; case_match; [|done]; cbn [windows].
  destruct (windows (spent self) !! k) as [w|] eqn:E.
  - destruct (Z.leb_spec (until w) now) as [Hu|Hu].
    + rewrite map_lookup_filter_None_2; [|right; intros w'; rewrite E; intros [= <-]; lia].
      unfold live; cbn [mbind option_bind]. by rewrite (proj2 (Z.leb_le _ _)).
    + by rewrite (map_lookup_filter_Some_2 _ _ k w).
  - by rewrite map_lookup_filter_None_2 by (by left).
Qed.

Lemma sweep_dom now self k w : windows (sweep now self) !! k = Some w -> windows (spent self) !! k = Some w.
Proof.
  unfold sweep; case_match; [|done]; cbn [windows]. by intros [? _]%map_lookup_filter_Some.
Qed.

(** The window a key has after a request, where the request is counted. *)
Definition charged (now : Z) (self : Limiter) (key : bytes) (c : Z) : Window :=
  charge c (opened now self (windows (spent self) !! key)).

Lemma sweep_opened now self key :
  opened now self (windows (sweep now self) !! key) = opened now self (windows (spent self) !! key).
Proof. by rewrite <- opened_live, sweep_lookup, opened_live. Qed.

Lemma consume_counted now self key c :
  (size (windows (sweep now self)) < KEYS)%nat \/ is_Some (windows (sweep now self) !! key) ->
  consume now self key c
  = (MkLimiter (points self) (window self)
       (MkCounts (<[key := charged now self key c]> (windows (sweep now self)))
          (swept (sweep now self)) (full (sweep now self))),
     reading now self (charged now self key c)).
Proof.
  intros Hc; unfold consume, charged; rewrite sweep_opened.
  destruct ((KEYS <=? size _)%nat && _) eqn:E; [|done]. bool_prop; exfalso.
  apply Nat.leb_le in H. apply bool_decide_eq_true in H0. destruct Hc as [?|[w Hw]]; [lia|congruence].
Qed.

Lemma consume_keeps now self key c :
  points (fst (consume now self key c)) = points self /\ window (fst (consume now self key c)) = window self.
Proof. unfold consume; by case_match. Qed.

(** The table stands for every window still open, and holds only keys of [keys]. *)
Definition stands_for (now : Z) (keys : gset bytes) (self : Limiter) (held : gmap bytes Window) : Prop :=
  (forall k, live now (windows (spent self) !! k) = live now (held !! k))
  /\ dom (windows (spent self)) ⊆ keys.

Lemma stands_later now now' keys self held :
  now <= now' -> stands_for now keys self held -> stands_for now' keys self held.
Proof.
  intros Hn [Hl Hd]; split; [|done]. intros k; by rewrite <- (live_later now), Hl, live_later.
Qed.

Lemma consume_stands now keys self held e :
  stands_for now keys self held -> (size keys <= KEYS)%nat -> by_ e ∈ keys -> now <= at_ e ->
  exists self', consume (at_ e) self (by_ e) (cost e) = (self', snd (unswept_consume self held e))
    /\ stands_for (at_ e) keys self' (fst (unswept_consume self held e))
    /\ points self' = points self /\ window self' = window self.
Proof.
  intros Hs Hk He Hn; apply (stands_later _ (at_ e)) in Hs as [Hl Hd]; [|done].
  assert (charged (at_ e) self (by_ e) (cost e) = charge (cost e) (opened (at_ e) self (held !! by_ e))) as Ec.
  { unfold charged; by rewrite <- opened_live, Hl, opened_live. }
  rewrite consume_counted.
  - rewrite Ec; eexists; split; [reflexivity|]; cbn [fst unswept_consume]. split_and!; [|done..].
    split; cbn [windows spent].
    + intros k; destruct (decide (by_ e = k)) as [<-|Hne]; [by rewrite !lookup_insert_eq|].
      by rewrite !lookup_insert_ne, sweep_lookup, Hl.
    + rewrite dom_insert; intros k [->%elem_of_singleton|Hk']%elem_of_union; [done|].
      apply Hd; apply elem_of_dom in Hk' as [w Hw]. apply elem_of_dom; exists w; by eapply sweep_dom.
  - destruct (windows (sweep (at_ e) self) !! by_ e) as [w|] eqn:E; [by right; eexists|left].
    rewrite <- size_dom. apply Nat.lt_le_trans with (size keys); [|done]. apply subset_size.
    assert (dom (windows (sweep (at_ e) self)) ⊆ keys) as Hsub.
    { etrans; [|exact Hd]. intros k; rewrite !elem_of_dom; intros [w Hw]; exists w; by eapply sweep_dom. }
    split; [done|]. intros Hin; apply Hin, elem_of_dom in He as [? ?]; congruence.
Qed.

Lemma serve_stands keys events : forall now self held,
  stands_for now keys self held -> (size keys <= KEYS)%nat ->
  Forall (fun e => by_ e ∈ keys) events -> in_order now events ->
  snd (serve self events) = unswept self held events.
Proof.
  induction events as [|e events IH]; intros now self held Hs Hk Hf Ho; [done|].
  apply Forall_cons in Hf as [He Hf]; destruct Ho as [Hn Ho]; cbn [serve unswept].
  destruct (consume_stands now keys self held e) as (self' & -> & Hs' & Hp & Hw); [done..|].
  specialize (IH (at_ e) self' (fst (unswept_consume self held e)) Hs' Hk Hf Ho).
  destruct (serve self' events) as [? rs]; cbn [snd] in *; rewrite IH.
  destruct (unswept_consume self held e) as [held' r]; cbn [fst snd]; f_equal.
  clear -Hp Hw; revert held'; induction events as [|e' events IH']; intros held'; [done|].
  cbn [unswept]; unfold unswept_consume, reading, opened; rewrite Hp, Hw. f_equal; apply IH'.
Qed.

(* ------------------------------------------------------------------ *)
(** ** What one window lets through *)

(** The points of a key's requests that were not refused. *)
Fixpoint let_through (key : bytes) (events : list Event) (rs : list Reading) : Z :=
  match events, rs with
  | e :: events, r :: rs =>
      (if bool_decide (by_ e = key) && negb (exceeded r) then cost e else 0) + let_through key events rs
  | _, _ => 0
  end.

Lemma consume_other now self key key' c w :
  key <> key' -> windows (spent self) !! key = Some w -> now < until w ->
  windows (spent (fst (consume now self key' c))) !! key = Some w.
Proof.
  intros Hne Hk Hu; assert (windows (sweep now self) !! key = Some w) as Hs.
  { unfold sweep; case_match; [|done]; cbn [windows]. apply map_lookup_filter_Some_2; [done|exact Hu]. }
  unfold consume; case_match; cbn [fst spent windows]; [done|]. by rewrite lookup_insert_ne.
Qed.

Lemma consume_held now self key c w :
  windows (spent self) !! key = Some w -> now < until w ->
  consume now self key c
  = (MkLimiter (points self) (window self)
       (MkCounts (<[key := charge c w]> (windows (sweep now self)))
          (swept (sweep now self)) (full (sweep now self))), reading now self (charge c w)).
Proof.
  intros Hk Hu; rewrite consume_counted.
  - unfold charged, opened; rewrite Hk, (proj2 (Z.leb_gt _ _)); done.
  - right; exists w. unfold sweep; case_match; [|done]; cbn [windows]. by apply map_lookup_filter_Some_2.
Qed.

Lemma serve_budget key events : forall self w,
  windows (spent self) !! key = Some w -> points self < U32_MAX ->
  Forall (fun e => 0 <= cost e /\ at_ e < until w) events ->
  let_through key events (snd (serve self events)) <= Z.max 0 (points self - w_points w)
  /\ exists w', windows (spent (fst (serve self events))) !! key = Some w' /\ until w' = until w.
Proof.
  induction events as [|e events IH]; intros self w Hw Hp Hf; [cbn; split; [lia|eauto]|].
  apply Forall_cons in Hf as [[Hc Hu] Hf]; cbn [serve].
  destruct (decide (by_ e = key)) as [<-|Hne].
  - rewrite (consume_held _ _ _ _ w) by done.
    set (self' := MkLimiter _ _ _). destruct (IH self' (charge (cost e) w)) as [Hb (w' & Hw' & Eu)];
      [apply lookup_insert_eq|done|done|].
    destruct (serve self' events) as [self2 rs]; cbn [fst snd let_through] in *.
    split; [|by exists w']. rewrite bool_decide_true by done; cbn [andb reading exceeded].
    unfold charge in *; cbn [w_points points self'] in *.
    unfold saturating_add, U32_MAX in *; destruct (Z.ltb_spec (points self) (Z.min (2 ^ 32 - 1) (w_points w + cost e)));
      cbn [negb]; lia.
  - pose proof (consume_other (at_ e) self key (by_ e) (cost e) w (not_eq_sym Hne) Hw Hu) as Ho.
    pose proof (consume_keeps (at_ e) self (by_ e) (cost e)) as [Hkp Hkw].
    destruct (consume (at_ e) self (by_ e) (cost e)) as [self' r]; cbn [fst] in *.
    destruct (IH self' w Ho ltac:(lia) Hf) as [Hb Hex].
    destruct (serve self' events) as [self2 rs]; cbn [fst snd let_through] in *.
    rewrite bool_decide_false by done; cbn [andb]. rewrite Hkp in Hb; split; [lia|done].
Qed.

(* ------------------------------------------------------------------ *)
(** ** The table's size *)

(** No more keys than the table takes, and counts that fit. *)
Definition sound (self : Limiter) : Prop :=
  (size (windows (spent self)) <= KEYS)%nat
  /\ forall k w, windows (spent self) !! k = Some w -> 0 <= w_points w <= U32_MAX.

Lemma sweep_sound now self : sound self ->
  (size (windows (sweep now self)) <= KEYS)%nat
  /\ forall k w, windows (sweep now self) !! k = Some w -> 0 <= w_points w <= U32_MAX.
Proof.
  intros [Hs Hw]; split; [|intros k w Hk; by eapply Hw, sweep_dom].
  etrans; [|exact Hs]. rewrite <- !size_dom; apply subseteq_size; intros k; rewrite !elem_of_dom.
  intros [w Hk]; exists w; by eapply sweep_dom.
Qed.

Lemma opened_sound now self held :
  (forall w, held = Some w -> 0 <= w_points w <= U32_MAX) -> 0 <= w_points (opened now self held) <= U32_MAX.
Proof.
  intros Hh; unfold opened; destruct held as [w|]; [|by cbn].
  case_match; [by cbn|by apply Hh].
Qed.

Lemma charge_sound c w : 0 <= c -> 0 <= w_points w <= U32_MAX -> 0 <= w_points (charge c w) <= U32_MAX.
Proof. unfold charge, saturating_add; cbn; lia. Qed.

Lemma consume_sound now self key c : 0 <= c -> sound self -> sound (fst (consume now self key c)).
Proof.
  intros Hc Hs; destruct (sweep_sound now self Hs) as [Hsw Hw].
  unfold consume; case_match eqn:E; cbn [fst]; [by split|]. split; cbn [spent windows].
  - apply andb_false_iff in E as [E|E].
    + apply Nat.leb_gt in E. rewrite map_size_insert; case_match; cbn; lia.
    + apply bool_decide_eq_false in E. rewrite map_size_insert_Some; [done|].
      by apply not_eq_None_Some in E.
  - intros k w; rewrite lookup_insert_Some; intros [[<- <-]|[_ Hk]]; [|by eapply Hw].
    apply charge_sound; [done|]. apply opened_sound; intros w; apply Hw.
Qed.

Lemma serve_sound events : forall self,
  Forall (fun e => 0 <= cost e) events -> sound self -> sound (fst (serve self events)).
Proof.
  induction events as [|e events IH]; intros self Hf Hs; [done|]; cbn [serve].
  apply Forall_cons in Hf as [He Hf].
  pose proof (consume_sound (at_ e) self (by_ e) (cost e) He Hs) as Hc.
  destruct (consume (at_ e) self (by_ e) (cost e)) as [self' r]; cbn [fst] in Hc.
  specialize (IH self' Hf Hc); by destruct (serve self' events).
Qed.

Lemma serve_keeps events : forall self,
  points (fst (serve self events)) = points self /\ window (fst (serve self events)) = window self.
Proof.
  induction events as [|e events IH]; intros self; [done|]; cbn [serve].
  pose proof (consume_keeps (at_ e) self (by_ e) (cost e)) as [Hp Hw].
  destruct (consume (at_ e) self (by_ e) (cost e)) as [self' r]; cbn [fst] in *.
  specialize (IH self'); destruct (serve self' events); cbn [fst] in *. split; etrans; by try apply IH.
Qed.

(** What a reading says of itself. *)
Definition consistent (self : Limiter) (r : Reading) : Prop :=
  limit r = points self /\ r_window r = window self
  /\ remaining r = saturating_sub (points self) (r_spent r)
  /\ (exceeded r = true <-> points self < r_spent r)
  /\ 0 <= r_spent r <= U32_MAX /\ 0 <= resets_in r.

Lemma consume_consistent now self key c :
  0 <= points self -> 0 <= window self -> 0 <= c -> sound self ->
  consistent self (snd (consume now self key c)).
Proof.
  intros Hp Hw Hc Hs; destruct (sweep_sound now self Hs) as [_ Hf].
  unfold consume, consistent; case_match; cbn [snd reading limit r_window remaining r_spent exceeded resets_in].
  - unfold saturating_sub, U32_MAX; split_and!; try done; try lia.
  - rewrite Z.ltb_lt. assert (0 <= w_points (charge c (opened now self (windows (sweep now self) !! key))) <= U32_MAX).
    { apply charge_sound; [done|]. apply opened_sound; intros w; apply Hf. }
    unfold duration_since, saturating_sub; split_and!; try done; lia.
Qed.

(* ------------------------------------------------------------------ *)
(** ** Which address is asking *)

Lemma rfind_spec {A} (f : A -> bool) l :
  match rfind f l with
  | Some a => exists before after, l = before ++ a :: after /\ f a = true /\ Forall (fun x => f x = false) after
  | None => Forall (fun x => f x = false) l
  end.
Proof.
  unfold rfind; induction l as [|x l IH] using rev_ind; [constructor|].
  rewrite rev_app_distr; cbn [rev app List.find].
  destruct (f x) eqn:Ef; [by exists l, []|].
  destruct (List.find f (rev l)) as [a|].
  - destruct IH as (b & af & -> & Ha & Haf). exists b, (af ++ [x]); split_and!; [by rewrite <- app_assoc|done|].
    apply Forall_app; split; [done|by constructor].
  - apply Forall_app; split; [done|by constructor].
Qed.

Lemma rfind_app {A} (f : A -> bool) l l' a : rfind f l' = Some a -> rfind f (l ++ l') = Some a.
Proof.
  unfold rfind; rewrite rev_app_distr. generalize (rev l) (rev l'); clear; intros l l'.
  induction l' as [|x l' IH]; [done|]. cbn; destruct (f x); [done|apply IH].
Qed.

Lemma forwarded_app h h' : forwarded (h ++ h') = forwarded h ++ forwarded h'.
Proof.
  unfold forwarded, get_all; rewrite List.filter_app, map_app, omap_app, map_app, concat_app, omap_app.
  by rewrite map_app.
Qed.

Lemma canonical_canonical a : canonical (canonical a) = canonical a.
Proof.
  destruct a as [o|o]; cbn; [done|]. destruct (to_ipv4_mapped o) eqn:E; cbn; [done|by rewrite E].
Qed.

Lemma forwarded_canonical h : Forall (fun a => canonical a = a) (forwarded h).
Proof.
  unfold forwarded; apply List.Forall_map, Forall_true. intros a; apply canonical_canonical.
Qed.

(* ------------------------------------------------------------------ *)
(** ** The tightest reading *)

(** The order [tightest] goes by. *)
Definition no_tighter (a b : Reading) : Prop :=
  (exceeded b = true -> exceeded a = true) /\ (exceeded a = exceeded b -> remaining a <= remaining b).

Lemma no_tighter_trans a b c : no_tighter a b -> no_tighter b c -> no_tighter a c.
Proof.
  unfold no_tighter; intros [H1 H2] [H3 H4]; split; [auto|]. intros E.
  destruct (exceeded a) eqn:Ea, (exceeded b) eqn:Eb, (exceeded c) eqn:Ec; try done; try (discriminate H1; done);
    try (etrans; [by apply H2|by apply H4]); naive_solver.
Qed.

Lemma tighter_spec a b : if tighter a b then no_tighter a b else no_tighter b a.
Proof.
  unfold tighter, no_tighter; destruct (exceeded a), (exceeded b); try case_match; bool_prop;
    split; intros; try done; lia.
Qed.

Lemma fold_tightest rs : forall best,
  let r := fold_left (fun best r => if tighter r best then r else best) rs best in
  r ∈ best :: rs /\ Forall (no_tighter r) (best :: rs).
Proof.
  induction rs as [|x rs IH]; intros best; cbn [fold_left].
  - split; [set_solver|]. repeat constructor; [done|lia].
  - destruct (IH (if tighter x best then x else best)) as [Hin Hf].
    set (r := fold_left _ _ _) in *; apply Forall_cons in Hf as [Hb Hf].
    pose proof (tighter_spec x best) as Ht; destruct (tighter x best).
    + split; [set_solver|]. repeat (apply Forall_cons; split; [|]); [by eapply no_tighter_trans|done|done].
    + split; [set_solver|]. repeat (apply Forall_cons; split; [|]); [done|by eapply no_tighter_trans|done].
Qed.

(* ------------------------------------------------------------------ *)
(** ** A name cut short *)

Lemma continuation_after s b : from_utf8 (b :: s) = true -> between 0 b 127 = false ->
  match s with x :: _ => is_continuation x = true | [] => False end.
Proof.
  cbn [from_utf8]; intros Hu Hb; rewrite Hb in Hu. unfold is_continuation.
  destruct s as [|x s]; [done|]; rewrite between_spec.
  repeat (case_match; bool_prop; try done); unfold is_continuation in *; rewrite ?between_spec in *; lia.
Qed.

Definition starts_char (s : bytes) (i : nat) : Prop :=
  match s !! i with Some b => is_continuation b = false | None => True end.

Lemma utf8_cut n : forall s i, (length s <= n)%nat ->
  from_utf8 s = true -> starts_char s i -> from_utf8 (take i s) = true.
Proof.
  induction n as [|n IH]; intros [|b0 s] i Hn Hu Hi; try done; [by destruct i|cbn in Hn; lia|by destruct i|].
  destruct i as [|i]; [done|]; pose proof (continuation_after s b0 Hu) as Hc.
  cbn [take from_utf8 length] in *.
  destruct (between 0 b0 127); [apply IH; [lia|done|exact Hi]|]. specialize (Hc eq_refl).
  destruct s as [|b1 s]; [done|]; cbn [length] in *.
  destruct i as [|i]; cbn [take].
  { exfalso; unfold starts_char in Hi; cbn in Hi; congruence. }
  destruct (between 194 b0 223).
  { bool_prop; rewrite H; cbn [andb]. apply IH; [lia|done|exact Hi]. }
  destruct s as [|b2 s]; [done|]; cbn [length] in *.
  destruct i as [|i]; cbn [take].
  { exfalso; unfold starts_char in Hi; cbn in Hi. repeat (case_match; bool_prop; try done); congruence. }
  destruct (between 224 b0 239).
  { bool_prop. rewrite H, H1; cbn [andb]. apply IH; [lia|done|exact Hi]. }
  destruct s as [|b3 s]; [done|]; cbn [length] in *.
  destruct i as [|i]; cbn [take].
  { exfalso; unfold starts_char in Hi; cbn in Hi. bool_prop; congruence. }
  bool_prop. rewrite H, H3, H2, H1; cbn [andb]. apply IH; [lia|done|exact Hi].
Qed.

Lemma boundary_spec s e : (boundary s e <= e)%nat /\ is_char_boundary s (boundary s e) = true.
Proof.
  induction e as [|e [IH1 IH2]]; cbn [boundary]; [split; [done|by unfold is_char_boundary; rewrite decide_True by auto]|].
  destruct (is_char_boundary s (S e)) eqn:E; [by split|split; [lia|done]].
Qed.

Lemma boundary_starts s i : is_char_boundary s i = true -> i <> 0%nat -> starts_char s i.
Proof.
  unfold is_char_boundary, starts_char; case_decide as Hd.
  - destruct Hd as [->| ->]; [done|]. by rewrite lookup_ge_None_2 by done.
  - destruct (s !! i); [by intros ?%negb_true_iff|done].
Qed.

(* ================================================================== *)
(** * The properties *)

(** C38 (equivalence). Sweeping the table cannot be seen: while no more keys come
    than it takes, whatever order the requests of different callers are in and
    whenever the sweeps fall, every request is answered as it would be by a
    budget that never forgets a window. *)
Theorem sweeping_cannot_be_seen now pts win keys events :
  (size (keys : gset bytes) <= KEYS)%nat -> Forall (fun e => by_ e ∈ keys) events -> in_order now events ->
  snd (serve (limiter_new now pts win) events) = unswept (limiter_new now pts win) ∅ events.
Proof.
  intros Hk Hf Ho; apply (serve_stands keys events now); [|done..].
  split; cbn; [done|]. rewrite dom_empty; set_solver.
Qed.

(** A window lets through what is left of its budget and no more,
    whoever else is asking: the points of the requests a key is not refused
    until its window ends come to at most what it had left. A refused request
    is charged and does not push the end of the window back. *)
Theorem window_lets_through_its_budget self key w events :
  windows (spent self) !! key = Some w -> points self < U32_MAX ->
  Forall (fun e => 0 <= cost e /\ at_ e < until w) events ->
  let_through key events (snd (serve self events)) <= Z.max 0 (points self - w_points w)
  /\ exists w', windows (spent (fst (serve self events))) !! key = Some w' /\ until w' = until w.
Proof. apply serve_budget. Qed.

(** However many callers come, a budget holds no more keys than
    its bound and no count overflows; and every reading it gives adds up: what
    is left is the budget less what is spent, and a request is refused exactly
    when what is spent is past the budget. *)
Theorem budget_stays_bounded now pts win events at_next key c :
  0 <= pts -> 0 <= win -> 0 <= c -> Forall (fun e => 0 <= cost e) events ->
  let self := fst (serve (limiter_new now pts win) events) in
  (size (windows (spent self)) <= KEYS)%nat
  /\ limit (snd (consume at_next self key c)) = pts
  /\ consistent self (snd (consume at_next self key c)).
Proof.
  intros Hp Hw Hc Hf self; assert (sound self) as Hs.
  { apply serve_sound; [done|]. split; cbn; [rewrite map_size_empty; lia|]. intros k w; by rewrite lookup_empty. }
  destruct (serve_keeps events (limiter_new now pts win)) as [Ep Ew]; cbn in Ep, Ew.
  assert (consistent self (snd (consume at_next self key c))) as Hk.
  { apply consume_consistent; [unfold self; by rewrite Ep|unfold self; by rewrite Ew|done|done]. }
  split_and!; [apply Hs| |done]. destruct Hk as [-> _]. exact Ep.
Qed.

(** C39 (safety). No caller can name another: one that reaches this server
    directly is counted as itself, whatever it sends. Past a proxy, it is the
    last address in the header that could have come from outside, and nothing
    put in the header before that one changes it; and an address has one
    spelling, whichever way it arrived. *)
Theorem caller_cannot_be_forged peer headers claims :
  let c := caller peer headers in
  canonical c = c
  /\ (internal (canonical peer) = false -> c = canonical peer)
  /\ (internal (canonical peer) = true ->
      (c = canonical peer /\ Forall (fun a => internal a = true) (forwarded headers))
      \/ (internal c = false
          /\ (exists before after, forwarded headers = before ++ c :: after
               /\ Forall (fun a => internal a = true) after)
          /\ caller peer (claims ++ headers) = c)).
Proof.
  unfold caller; cbn zeta; set (f := fun address => negb (internal address)).
  pose proof (rfind_spec f (forwarded headers)) as Hr; pose proof (forwarded_canonical headers) as Hc.
  destruct (internal (canonical peer)) eqn:Ei; cbn [negb]; [|split_and!; [apply canonical_canonical|done|done]].
  assert (forall l, Forall (fun a => f a = false) l -> Forall (fun a => internal a = true) l) as Hi.
  { intros l Hl; eapply Forall_impl; [exact Hl|]. intros a; apply negb_false_iff. }
  destruct (rfind f (forwarded headers)) as [a|] eqn:E; cbn [default].
  - destruct Hr as (b & af & Ef & Ha & Haf). apply negb_true_iff in Ha.
    split_and!; [rewrite Ef in Hc; apply Forall_app in Hc as [_ Hc]; by apply Forall_cons in Hc as [? _]|done|].
    intros _; right; split_and!; [done|by exists b, af; split; [|apply Hi]|].
    rewrite forwarded_app; by rewrite (rfind_app f _ _ a).
  - split_and!; [apply canonical_canonical|done|]. intros _; left; split; [done|by apply Hi].
Qed.

(** Two callers spend from one budget exactly when they are
    one IPv4 address, or two IPv6 addresses of one [/64]. *)
Theorem one_budget_per_network a b :
  valid_ip a -> valid_ip b ->
  budget a = budget b <->
  match a, b with
  | V4 o, V4 o' => o = o'
  | V6 o, V6 o' => take 8 o = take 8 o'
  | _, _ => False
  end.
Proof.
  destruct a as [o|o], b as [o'|o']; cbn [valid_ip budget]; intros Ha Hb.
  - split; [by apply v4_text_inj|congruence].
  - split; [|done]. intros E; destruct Ha as [_ Ha]. apply v4_text_plain in Ha; rewrite E in Ha.
    apply Ha; apply elem_of_app; right; left.
  - split; [|done]. intros E; destruct Hb as [_ Hb]. apply v4_text_plain in Hb; rewrite <- E in Hb.
    apply Hb; apply elem_of_app; right; left.
  - split; [|by intros E; unfold network; rewrite E]. intros E%app_inv_tail. by apply network_text_inj.
Qed.

(** A caller is held to the tightest budget its request spends
    from: it is turned away exactly when one of those budgets is past its end,
    and what it is told is a budget with as little left as any. A caller out
    of the budget all methods share is turned away before its method's own
    budgets are asked. *)
Theorem held_to_the_tightest_budget identifier to_lowercase now self peer request :
  starts_with (lit "/xrpc/") (req_path request) = true ->
  bypassed self (caller peer (req_headers request)) (req_headers request) = false ->
  let key := budget (caller peer (req_headers request)) in
  let '(self1, shared) := consume_global now self key request in
  let asked := option_list shared ++
    (if existsb exceeded (option_list shared) then []
     else snd (method identifier to_lowercase now self1 key request)) in
  match snd (global identifier to_lowercase now self peer request) with
  | TurnedAway r => r ∈ asked /\ exceeded r = true
  | Passed _ None => asked = []
  | Passed _ (Some r) =>
      r ∈ asked /\ Forall (fun r' => exceeded r' = false /\ remaining r <= remaining r') asked
  end.
Proof.
  intros Hx Hb key; unfold global; rewrite Hx, Hb; cbn [negb]; fold key.
  destruct (consume_global now self key request) as [self1 shared].
  destruct shared as [[li wi sp re rs []]|]; cbn [option_list existsb exceeded orb].
  - cbn; split; [left|done].
  - destruct (method identifier to_lowercase now self1 key request) as [[self2 request'] rss]; cbn [snd app tightest].
    set (r0 := MkReading _ _ _ _ _ _); pose proof (fold_tightest rss r0) as [Hin Hf]; cbn zeta in *.
    set (r := fold_left _ rss r0) in *; destruct (exceeded r) eqn:E; cbn [snd]; [done|].
    split; [done|]. eapply Forall_impl; [exact Hf|]. intros r' [H1 H2].
    destruct (exceeded r') eqn:E'; [by rewrite H1 in E|]. split; [done|apply H2; congruence].
  - destruct (method identifier to_lowercase now self1 key request) as [[self2 request'] [|r0 rss]]; cbn [snd app tightest]; [done|].
    pose proof (fold_tightest rss r0) as [Hin Hf]; cbn zeta in *.
    set (r := fold_left _ rss r0) in *; destruct (exceeded r) eqn:E; cbn [snd]; [done|].
    split; [done|]. eapply Forall_impl; [exact Hf|]. intros r' [H1 H2].
    destruct (exceeded r') eqn:E'; [by rewrite H1 in E|]. split; [done|apply H2; congruence].
Qed.

(** The name a sign-in is counted under is cut to its bound between
    two characters: what is left is text, and the start of the name. *)
Theorem shortened_is_text named :
  from_utf8 named = true ->
  from_utf8 (shortened named) = true /\ (length (shortened named) <= NAMED)%nat
  /\ exists rest, named = shortened named ++ rest.
Proof.
  intros Hu; unfold shortened; case_match eqn:E.
  - apply Nat.leb_le in E. split_and!; [done|done|]. exists []; by rewrite app_nil_r.
  - pose proof (boundary_spec named NAMED) as [Hle Hb]; split_and!.
    + destruct (decide (boundary named NAMED = 0%nat)) as [->|Hne]; [done|].
      apply (utf8_cut (length named)); [done|done|by apply boundary_starts].
    + rewrite length_take; lia.
    + exists (drop (boundary named NAMED) named). by rewrite take_drop.
Qed.

(* ------------------------------------------------------------------ *)
(** ** At a concrete budget *)

Module Sample.

(** Three points every ten nanoseconds, and two callers. *)
Definition a : bytes := lit "1.2.3.4".
Definition b : bytes := lit "2001:db8::/64".
Definition events : list Event :=
  [MkEvent 0 a 2; MkEvent 3 b 1; MkEvent 5 a 2; MkEvent 9 a 1; MkEvent 12 a 3; MkEvent 40 b 1].
Definition keys : gset bytes := {[a; b]}.
Definition budget : Limiter := limiter_new 0 3 10.
Definition opened : Limiter := fst (serve budget [MkEvent 0 a 2]).

Definition limits : Limits := MkLimits (limiter_new 0 3000 (from_mins 5)) [limiter_new 0 0 1] budget budget [] None [].
Definition request : Request :=
  MkRequest CREATE_SESSION [(FORWARDED, lit "8.8.8.8, 10.0.0.9")] (MkBody (Some 2) (Some (lit "me"))).
Definition peer : IpAddr := V4 [10; 0; 0; 1].
Definition public : IpAddr := V6 ([32; 1; 13; 184] ++ repeat 0 11 ++ [1]).

End Sample.

Example second_request_refused :
  map exceeded (snd (serve Sample.budget Sample.events)) = [false; false; true; true; false; false].
Proof. vm_compute. reflexivity. Qed.

Lemma sweeping_cannot_be_seen_witness :
  snd (serve (limiter_new 0 3 10) Sample.events) = unswept (limiter_new 0 3 10) ∅ Sample.events.
Proof.
  apply (sweeping_cannot_be_seen 0 3 10 Sample.keys).
  - apply Nat.leb_le; vm_compute; reflexivity.
  - repeat (apply Forall_cons; split; [unfold Sample.keys; cbn [by_]; set_solver|]). apply Forall_nil_2.
  - cbn; lia.
Defined.

Lemma window_lets_through_its_budget_witness :
  let events := [MkEvent 3 Sample.a 1; MkEvent 4 Sample.b 3; MkEvent 9 Sample.a 5] in
  let_through Sample.a events (snd (serve Sample.opened events)) <= Z.max 0 (3 - 2)
  /\ exists w', windows (spent (fst (serve Sample.opened events))) !! Sample.a = Some w' /\ until w' = 10.
Proof.
  apply (window_lets_through_its_budget Sample.opened Sample.a (MkWindow 2 10)).
  - vm_compute; reflexivity.
  - vm_compute; reflexivity.
  - repeat (apply Forall_cons; split; [cbn; lia|]). apply Forall_nil_2.
Defined.

Lemma budget_stays_bounded_witness :
  let self := fst (serve (limiter_new 0 3 10) Sample.events) in
  (size (windows (spent self)) <= KEYS)%nat
  /\ limit (snd (consume 50 self Sample.a 1)) = 3
  /\ consistent self (snd (consume 50 self Sample.a 1)).
Proof.
  apply budget_stays_bounded; [lia..|].
  repeat (apply Forall_cons; split; [cbn; lia|]). apply Forall_nil_2.
Defined.

Lemma caller_cannot_be_forged_witness :
  let headers := req_headers Sample.request in
  let claims := [(FORWARDED, lit "1.1.1.1")] in
  let c := caller Sample.peer headers in
  canonical c = c
  /\ (internal (canonical Sample.peer) = false -> c = canonical Sample.peer)
  /\ (internal (canonical Sample.peer) = true ->
      (c = canonical Sample.peer /\ Forall (fun a => internal a = true) (forwarded headers))
      \/ (internal c = false
          /\ (exists before after, forwarded headers = before ++ c :: after
               /\ Forall (fun a => internal a = true) after)
          /\ caller Sample.peer (claims ++ headers) = c)).
Proof. apply caller_cannot_be_forged. Defined.

Lemma one_budget_per_network_witness :
  Limit.budget Sample.public = Limit.budget (V6 ([32; 1; 13; 184] ++ repeat 0 11 ++ [9]))
  <-> take 8 ([32; 1; 13; 184] ++ repeat 0 11 ++ [1]) = take 8 ([32; 1; 13; 184] ++ repeat 0 11 ++ [9]).
Proof.
  apply (one_budget_per_network Sample.public (V6 ([32; 1; 13; 184] ++ repeat 0 11 ++ [9])));
    (split; [reflexivity|repeat constructor; discriminate]).
Defined.

Lemma held_to_the_tightest_budget_witness :
  let now := fun _ : nat => 5 in
  let identifier := fun b : bytes => Some b in
  let key := Limit.budget (caller Sample.peer (req_headers Sample.request)) in
  let '(self1, shared) := consume_global now Sample.limits key Sample.request in
  let asked := option_list shared ++
    (if existsb exceeded (option_list shared) then []
     else snd (method identifier id now self1 key Sample.request)) in
  match snd (global identifier id now Sample.limits Sample.peer Sample.request) with
  | TurnedAway r => r ∈ asked /\ exceeded r = true
  | Passed _ None => asked = []
  | Passed _ (Some r) =>
      r ∈ asked /\ Forall (fun r' => exceeded r' = false /\ remaining r <= remaining r') asked
  end.
Proof.
  intros now identifier; apply (held_to_the_tightest_budget identifier id now Sample.limits Sample.peer Sample.request);
    vm_compute; reflexivity.
Defined.

Lemma shortened_is_text_witness :
  from_utf8 (shortened (repeat 97%Z 255 ++ [195%Z; 169%Z; 98%Z])) = true
  /\ (length (shortened (repeat 97%Z 255 ++ [195%Z; 169%Z; 98%Z])) <= NAMED)%nat
  /\ exists rest, repeat 97%Z 255 ++ [195%Z; 169%Z; 98%Z] = shortened (repeat 97 255 ++ [195; 169; 98]) ++ rest.
Proof. apply shortened_is_text; vm_compute; reflexivity. Defined.
