(* ===== verification/Text.v ===== *)
(** * Text: the parts of [str] and [slice] the account's own modules lean on

    [ends_with], [strip_suffix], [rsplit_once], [trim] and [binary_search] of
    Rust's standard library, with the lemmas about them.  No component of the
    server is modelled here. *)

From S2P Require Import Prelude.
From Stdlib Require Import Lia.

(* ------------------------------------------------------------------ *)
(** ** Ends of a string *)

Definition to_ascii_uppercase (b : Z) : Z := if is_ascii_lowercase b then b - 32 else b.

(** [str::strip_suffix], [str::ends_with] and [str::rsplit_once]. *)
Definition strip_suffix (p s : bytes) : option bytes := reverse <$> strip_prefix (reverse p) (reverse s).
Definition ends_with (p s : bytes) : bool := starts_with (reverse p) (reverse s).
Definition rsplit_once (c : Z) (s : bytes) : option (bytes * bytes) :=
  (fun e => (reverse (snd e), reverse (fst e))) <$> split_once c (reverse s).

(** [char::is_whitespace], as UTF-8. *)
Definition WHITE_SPACE : list bytes :=
  ([[9]; [10]; [11]; [12]; [13]; [32]; [194; 133]; [194; 160]; [225; 154; 128]]
   ++ map (fun b => [226; 128; 128 + Z.of_nat b]) (seq 0 11)
   ++ [[226; 128; 168]; [226; 128; 169]; [226; 128; 175]; [226; 129; 159]; [227; 128; 128]])%Z.

(** [str::trim]: one character at a time off each end. *)
Fixpoint trim_from (spaces : list bytes) (fuel : nat) (s : bytes) : bytes :=
  match fuel with
  | O => s
  | S fuel =>
      match omap (fun p => strip_prefix p s) spaces with
      | rest :: _ => trim_from spaces fuel rest
      | [] => s
      end
  end.
Definition trim (s : bytes) : bytes :=
  let s := trim_from WHITE_SPACE (length s) s in
  reverse (trim_from (map (@reverse Z) WHITE_SPACE) (length s) (reverse s)).

(* ------------------------------------------------------------------ *)
(** ** Searching a sorted slice *)

(** [slice::binary_search]: where the half that can hold [x] starts, then
    whether it is there. *)
Fixpoint narrow (fuel : nat) (l : list bytes) (x : bytes) (base size : nat) : nat :=
  match fuel with
  | O => base
  | S fuel =>
      if decide (1 < size) then
        let half := size / 2 in
        let mid := base + half in
        let base := match str_compare (default [] (l !! mid)) x with Gt => base | _ => mid end in
        narrow fuel l x base (size - half)
      else base
  end.
Definition binary_search (l : list bytes) (x : bytes) : option nat :=
  match l with
  | [] => None
  | _ =>
      let base := narrow (length l) l x 0 (length l) in
      if decide (l !! base = Some x) then Some base else None
  end.

(** [Vec::dedup]. *)
Fixpoint dedup (l : list bytes) : list bytes :=
  match l with
  | [] => []
  | x :: l =>
      match l with
      | y :: _ => if decide (x = y) then dedup l else x :: dedup l
      | [] => [x]
      end
  end.

(* ================================================================== *)
(** * Facts *)

Lemma strip_suffix_Some p s r : strip_suffix p s = Some r <-> s = r ++ p.
Proof.
  unfold strip_suffix; rewrite fmap_Some; split.
  - intros (r' & E%strip_prefix_Some & ->). apply (f_equal (@reverse Z)) in E.
    by rewrite reverse_involutive, reverse_app, reverse_involutive in E.
  - intros ->; exists (reverse r); split; [|by rewrite reverse_involutive].
    rewrite reverse_app; apply strip_prefix_app.
Qed.

Lemma ends_with_true p s : ends_with p s = true <-> exists r, s = r ++ p.
Proof.
  unfold ends_with; rewrite starts_with_true; split; intros [r E].
  - exists (reverse r). apply (f_equal (@reverse Z)) in E. by rewrite reverse_involutive, reverse_app, reverse_involutive in E.
  - exists (reverse r). by rewrite E, reverse_app.
Qed.

Lemma rsplit_once_Some c s a b : rsplit_once c s = Some (a, b) <-> s = a ++ c :: b /\ c ∉ b.
Proof.
  assert (forall a b, reverse (a ++ c :: b) = reverse b ++ c :: reverse a) as Hr.
  { intros; by rewrite reverse_app, reverse_cons, <- app_assoc. }
  unfold rsplit_once; rewrite fmap_Some; split.
  - intros ([b' a'] & E & [= -> ->]). apply split_once_Some in E as [E Hn].
    apply (f_equal (@reverse Z)) in E; rewrite reverse_involutive, Hr in E.
    split; [exact E|by rewrite elem_of_reverse].
  - intros [-> Hn]. exists (reverse b, reverse a); split; [|by cbn [fst snd]; rewrite !reverse_involutive].
    apply split_once_Some; split; [apply Hr|by rewrite elem_of_reverse].
Qed.

Lemma sorted_lookup l : StronglySorted str_lt l ->
  forall i j x y, l !! i = Some x -> l !! j = Some y -> i < j -> str_lt x y.
Proof.
  induction 1 as [|z l Hl IH Hf]; intros i j x y Hi Hj Hlt; [by rewrite lookup_nil in Hi|].
  destruct j as [|j]; [lia|]. cbn in Hj. destruct i as [|i]; cbn in Hi.
  - simplify_eq. rewrite Forall_forall in Hf. by eapply Hf, list_elem_of_lookup_2.
  - apply (IH i j); [done|done|lia].
Qed.

(** Wherever [x] is, it stays between the ends of the half looked in. *)
Lemma narrow_finds l x i fuel : forall base size,
  StronglySorted str_lt l -> l !! i = Some x -> base <= i < base + size -> base + size <= length l -> size <= fuel ->
  narrow fuel l x base size = i.
Proof.
  induction fuel as [|fuel IH]; intros base size Hs Hi Hb Hl' Hf; cbn [narrow]; [lia|].
  case_decide as H1; [|lia].
  assert (0 < size / 2 < size /\ 2 * (size / 2) <= size) as Hh.
  { split_and!; [apply Nat.div_str_pos; lia|apply Nat.div_lt; lia|apply Nat.Div0.mul_div_le]. }
  assert (i < length l) as Hl by (by eapply lookup_lt_Some).
  assert (forall j y, l !! j = Some y -> (j < i -> str_lt y x) /\ (i < j -> str_lt x y)) as Ho.
  { intros j y Hj; split; intros Hlt; by eapply (sorted_lookup l Hs). }
  cbv zeta; revert Hh; generalize (size / 2) as half; intros half Hh.
  destruct (l !! (base + half)) as [y|] eqn:Ey; [|apply lookup_ge_None in Ey; lia].
  destruct (Ho _ _ Ey) as [Hlt Hgt]; change (default [] (Some y)) with y.
  assert (i < base + half /\ str_compare y x = Gt
    \/ base + half <= i /\ str_compare y x <> Gt) as [[Hm ->]|[Hm Hc]]; cbn beta iota.
  { destruct (decide (i < base + half)) as [Hm|Hm]; [left|right]; (split; [lia|]).
    - specialize (Hgt Hm). by rewrite str_compare_antisym, Hgt.
    - destruct (decide (base + half = i)) as [<-|Hne]; [simplify_eq; by rewrite str_compare_refl|].
      unfold str_lt in Hlt; by rewrite Hlt by lia. }
  - apply IH; (done || lia).
  - destruct (str_compare y x); [| |done]; (apply IH; (done || lia)).
Qed.

Lemma binary_search_spec l x :
  StronglySorted str_lt l -> is_Some (binary_search l x) <-> x ∈ l.
Proof.
  intros Hs; unfold binary_search; destruct l as [|y l]; [split; [by intros [? ?]|by intros ?%elem_of_nil]|].
  set (l' := y :: l) in *; clearbody l'. split.
  - case_decide as E; [|by intros [? ?]]. intros _; by eapply list_elem_of_lookup_2.
  - intros [i Hi]%list_elem_of_lookup. pose proof (lookup_lt_Some _ _ _ Hi).
    rewrite (narrow_finds l' x i (length l') 0 (length l')) by (done || lia).
    by rewrite decide_True by done.
Qed.

#[export] Instance str_le_trans : Transitive str_le.
Proof.
  intros a b c; unfold str_le; rewrite !str_leb_cases.
  intros [H1| ->] [H2| ->]; eauto using str_lt_trans.
Qed.

#[export] Instance str_le_total : Total str_le.
Proof.
  intros a b; unfold str_le; rewrite !str_leb_cases. destruct (str_lt_total a b) as [?|[?|?]]; auto.
Qed.

(** Sorting and then dropping what repeats leaves the same names in order. *)
Lemma dedup_elem l x : x ∈ dedup l <-> x ∈ l.
Proof.
  induction l as [|y l IH]; [done|]. destruct l as [|z l]; [done|].
  change (dedup (y :: z :: l)) with (if decide (y = z) then dedup (z :: l) else y :: dedup (z :: l)).
  case_decide; subst; rewrite ?elem_of_cons, IH; set_solver.
Qed.

Lemma dedup_sorted l : StronglySorted str_le l -> StronglySorted str_lt (dedup l).
Proof.
  induction 1 as [|y l Hl IH Hf]; [constructor|]. destruct l as [|z l]; [repeat constructor|].
  change (dedup (y :: z :: l)) with (if decide (y = z) then dedup (z :: l) else y :: dedup (z :: l)).
  case_decide as Hd; [done|]. constructor; [done|]. apply Forall_forall; intros w Hw; rewrite dedup_elem in Hw.
  apply Forall_cons in Hf as [Hyz _]. apply str_leb_cases in Hyz as [Hlt|?]; [|done].
  apply StronglySorted_inv in Hl as [_ Hz]. apply elem_of_cons in Hw as [->|Hw]; [done|].
  rewrite Forall_forall in Hz; specialize (Hz w Hw). apply str_leb_cases in Hz as [?|<-]; [|done].
  by eapply str_lt_trans.
Qed.
