(* ===== verification/Numbers.v ===== *)
(** * Numbers: integers as text

    [FromStr] of Rust's integers, and counting and classing the characters of a
    [str], which the settings and the cursors lean on, with the lemmas about
    them.  No component of the server is modelled here. *)

From S2P Require Import Prelude Ip Text.
From stdpp Require Import pretty.
From Stdlib Require Import Lia.

Local Open Scope Z_scope.

(* ------------------------------------------------------------------ *)
(** ** Reading and writing *)

(** [IntErrorKind], as far as reading one goes. *)
Inductive IntError := Nothing | InvalidDigit | PosOverflow | NegOverflow.

(** One digit after another, each looked at before it is counted in. *)
Fixpoint digits (negative : bool) (lo hi acc : Z) (s : bytes) : result IntError Z :=
  match s with
  | [] => Ok acc
  | d :: s =>
      if is_ascii_digit d then
        let acc := if negative then acc * 10 - (d - 48) else acc * 10 + (d - 48) in
        if negative : bool then (if acc <? lo then Err NegOverflow else digits negative lo hi acc s)
        else (if hi <? acc then Err PosOverflow else digits negative lo hi acc s)
      else Err InvalidDigit
  end.

(** [FromStr] of the integers from [lo] to [hi], which are signed where [lo] is
    below zero. *)
Definition int_from_str (lo hi : Z) (s : bytes) : result IntError Z :=
  match s with
  | [] => Err Nothing
  | [b] => if (b =? 43) || (b =? 45) then Err InvalidDigit else digits false lo hi 0 s
  | b :: rest =>
      if b =? 43 then digits false lo hi 0 rest
      else if (b =? 45) && (lo <? 0) then digits true lo hi 0 rest
      else digits false lo hi 0 s
  end.

(** [chars().any(char::is_whitespace)]. *)
Fixpoint any_whitespace (s : bytes) : bool :=
  match s with
  | [] => false
  | _ :: rest => existsb (fun space => starts_with space s) WHITE_SPACE || any_whitespace rest
  end.

(* ================================================================== *)
(** * Facts *)

(** What the digits of a text come to. *)
Definition value (acc : Z) (s : bytes) : Z := fold_left (fun acc d => acc * 10 + (d - 48)) s acc.

Lemma value_app acc s t : value acc (s ++ t) = value (value acc s) t.
Proof. apply fold_left_app. Qed.

Lemma digit_spec d : is_ascii_digit d = true <-> 48 <= d <= 57.
Proof. apply between_spec. Qed.

Lemma value_grows s : forall acc, forallb is_ascii_digit s = true -> 0 <= acc -> acc <= value acc s.
Proof.
  induction s as [|d s IH]; intros acc Hs Ha; cbn [value fold_left]; [done|].
  cbn [forallb] in Hs; apply andb_true_iff in Hs as [Hd%digit_spec Hs].
  etrans; [|apply IH; [done|lia]]. lia.
Qed.

Lemma digits_ok lo hi s : forall acc, forallb is_ascii_digit s = true -> 0 <= acc -> value acc s <= hi ->
  digits false lo hi acc s = Ok (value acc s).
Proof.
  induction s as [|d s IH]; intros acc Hs Ha Hv; cbn [digits value fold_left] in *; [done|].
  cbn [forallb] in Hs; apply andb_true_iff in Hs as [Hd Hs]; rewrite Hd. apply digit_spec in Hd.
  pose proof (value_grows s (acc * 10 + (d - 48)) Hs ltac:(lia)) as Hg; unfold value in Hg.
  destruct (Z.ltb_spec hi (acc * 10 + (d - 48))); [lia|]. apply IH; [done|lia|done].
Qed.

Lemma digits_negative lo hi s : forall acc, forallb is_ascii_digit s = true -> 0 <= acc -> lo <= - value acc s ->
  digits true lo hi (- acc) s = Ok (- value acc s).
Proof.
  induction s as [|d s IH]; intros acc Hs Ha Hv; cbn [digits value fold_left] in *; [done|].
  cbn [forallb] in Hs; apply andb_true_iff in Hs as [Hd Hs]; rewrite Hd. apply digit_spec in Hd.
  pose proof (value_grows s (acc * 10 + (d - 48)) Hs ltac:(lia)) as Hg; unfold value in Hg.
  replace (- acc * 10 - (d - 48)) with (- (acc * 10 + (d - 48))) by lia.
  destruct (Z.ltb_spec (- (acc * 10 + (d - 48))) lo); [lia|]. apply IH; [done|lia|done].
Qed.

(** What is read is between its ends. *)
Lemma digits_range negative lo hi s : forall acc n, lo <= acc <= hi -> lo <= 0 <= hi ->
  (if negative : bool then acc <= 0 else 0 <= acc) -> digits negative lo hi acc s = Ok n -> lo <= n <= hi.
Proof.
  induction s as [|d s IH]; intros acc n Ha H0 Hs; cbn [digits]; [by intros [= <-]|].
  destruct (is_ascii_digit d) eqn:Hd; [|done]. apply digit_spec in Hd. destruct negative.
  - destruct (Z.ltb_spec (acc * 10 - (d - 48)) lo); [done|]. apply IH; lia.
  - destruct (Z.ltb_spec hi (acc * 10 + (d - 48))); [done|]. apply IH; lia.
Qed.

Lemma int_range lo hi s n : lo <= 0 <= hi -> int_from_str lo hi s = Ok n -> lo <= n <= hi.
Proof.
  intros H0; unfold int_from_str; destruct s as [|b [|c s]]; [done| |].
  - destruct (_ || _); [done|]. apply digits_range; lia.
  - destruct (b =? 43); [apply digits_range; lia|]. destruct (_ && _); apply digits_range; lia.
Qed.

(* ------------------------------------------------------------------ *)
(** ** What is written reads back *)

Lemma pretty_digits x : forall s,
  exists t, lit (pretty_N_go x s) = t ++ lit s /\ forallb is_ascii_digit t = true /\ value 0 t = Z.of_N x.
Proof.
  induction (N.lt_wf_0 x) as [x _ IH]; intros s. destruct (decide (x = 0)%N) as [->|Hx].
  { exists []. by rewrite pretty_N_go_0. }
  rewrite pretty_N_go_step by lia.
  destruct (IH (x / 10)%N ltac:(apply N.div_lt; lia) (String (pretty_N_char (x mod 10)) s)) as (t & E & Ht & Hv).
  assert (exists d, lit (String (pretty_N_char (x mod 10)) s) = d :: lit s /\ is_ascii_digit d = true /\ d - 48 = Z.of_N (x mod 10))
    as (d & Ed & Hd & Hd').
  { assert (x mod 10 < 10)%N as Hm by (by apply N.mod_lt). eexists; split; [done|].
    destruct (x mod 10)%N as [|[[[[]|[]|]|[[]|[]|]|]|[[[]|[]|]|[[]|[]|]|]|]]; (done || lia). }
  exists (t ++ [d]); rewrite E, Ed, <- app_assoc; split_and!; [done| |].
  - by rewrite forallb_app, Ht; cbn [forallb]; rewrite Hd.
  - rewrite value_app, Hv; cbn [value fold_left]. rewrite Hd', N2Z.inj_mod, N2Z.inj_div.
    pose proof (Z.div_mod (Z.of_N x) 10); lia.
Qed.

Lemma decimal_digits n : 0 <= n ->
  forallb is_ascii_digit (decimal n) = true /\ value 0 (decimal n) = n /\ decimal n <> [].
Proof.
  intros Hn; destruct n as [|p|p]; [done| |lia].
  destruct (pretty_digits (N.pos p) "") as (t & E & Ht & Hv).
  change (decimal (Z.pos p)) with (lit (pretty_N_go (N.pos p) "")); rewrite E, app_nil_r.
  split_and!; [done|done|]. by intros ->.
Qed.

Lemma int_decimal lo hi n : lo <= 0 <= n -> n <= hi -> int_from_str lo hi (decimal n) = Ok n.
Proof.
  intros Hn Hh; destruct (decimal_digits n ltac:(lia)) as (Hd & Hv & Hne).
  assert (digits false lo hi 0 (decimal n) = Ok n) as E by (rewrite digits_ok; rewrite ?Hv; done || lia).
  unfold int_from_str; destruct (decimal n) as [|b s]; [done|].
  assert (48 <= b <= 57) as Hb by (cbn [forallb] in Hd; by apply andb_true_iff in Hd as [Hd%digit_spec _]).
  assert ((b =? 43) = false /\ (b =? 45) = false) as [H1 H2] by lia.
  rewrite H1, H2; cbn [orb andb]. by destruct s.
Qed.

Lemma negative_decimal n : n < 0 -> decimal n = 45 :: decimal (- n).
Proof. by destruct n. Qed.

(** A signed integer reads back as itself. *)
Lemma int_signed lo hi n : lo <= n <= hi -> lo <= 0 <= hi -> int_from_str lo hi (decimal n) = Ok n.
Proof.
  intros Hn H0; destruct (Z.ltb_spec n 0) as [Hneg|Hpos]; [|apply int_decimal; lia].
  rewrite negative_decimal by done.
  destruct (decimal_digits (- n) ltac:(lia)) as (Hd & Hv & Hne).
  unfold int_from_str; destruct (decimal (- n)) as [|b s] eqn:Eb; [done|]. rewrite <- Eb in *.
  change (45 =? 43) with false; change (45 =? 45) with true; cbn [andb].
  assert (lo <? 0 = true) as -> by lia. change 0 with (- 0) at 1.
  rewrite digits_negative; rewrite ?Hv; [f_equal; lia|done|lia|lia].
Qed.

(** And holds nothing but digits and a sign. *)
Lemma decimal_plain c n : negb (is_ascii_digit c) && negb (c =? 45) = true -> c ∉ decimal n.
Proof.
  intros [Hc H45]%andb_true_iff; apply negb_true_iff in Hc, H45.
  assert (forall m, 0 <= m -> c ∉ decimal m) as Hm.
  { intros m [Hd _]%decimal_digits. by eapply (forallb_not_elem c is_ascii_digit). }
  destruct (Z.ltb_spec n 0); [rewrite negative_decimal by done|by apply Hm].
  rewrite elem_of_cons; intros [->|Hin]; [done|]. by apply (Hm (- n) ltac:(lia)).
Qed.
