(* ===== verification/Config.v ===== *)
(** * Config: the settings a server starts with

    [src/src/config.rs], and of [src/src/main.rs] the two commands that write a
    value for a setting.  The environment is a function from a variable's name
    to its value, absent where it is not set or is not Unicode ([env::var] and
    [ok]); what is drawn at random is an argument. *)

From S2P Require Import Prelude Syntax Crypto Ip Text Numbers.
From Stdlib Require Import Lia.

Local Open Scope Z_scope.

Module Config.

(** [SECRET_LENGTH]. *)
Definition SECRET_LENGTH : Z := 24.

(** [Secret], with its [Debug]; [generate], of the bytes drawn. *)
Record Secret := MkSecret { reveal : bytes }.
Definition debug_secret (s : Secret) : bytes := lit "<secret>".
Definition generate (drawn : bytes) : Secret := MkSecret (hex drawn).

(** [ConfigError]. *)
Inductive ConfigError :=
| NotANumber (key : string) (why : IntError)
| NotABoolean (key : string)
| Missing (key : string)
| TooShort (key : string) (least : Z)
| NotAKey (key : string)
| NotADidKey (key : string)
| NotALabel (key : string) (value : bytes).

Section Config.
Context (p256 k256 : Curve) `{Base58}.
Abbreviation Keypair := (Keypair p256 k256).
Abbreviation PublicKey := (PublicKey p256 k256).

(** What the command [rotation-key] prints, of the key it drew. *)
Definition rotation_key_text (key : Keypair) : bytes := hex (to_bytes p256 k256 key).

(** [Config]. *)
Record Config := MkConfig {
  hostname : bytes; port : Z; service_did : bytes; data_directory : bytes;
  jwt_secret : Secret; admin_password : Secret; plc_rotation_key : Keypair; plc_url : bytes;
  recovery_key : option PublicKey; handle_domains : list bytes; reserved_handles : list bytes;
  invite_required : bool; blob_upload_limit : Z; blob_unclaimed_hours : Z;
  privacy_policy_url : option bytes; terms_of_service_url : option bytes; contact_email : option bytes;
  rate_limits : bool; rate_limit_bypass_key : option Secret; rate_limit_bypass_ips : list IpAddr
}.

Section Environment.
Context (env : bytes -> option bytes).

(** [string], [secret], [rotation_key], [list], [labels], [boolean] and [number]. *)
Definition string_ (key : string) : option bytes :=
  value ← env (lit key); if bool_decide (value = []) then None else Some value.
Definition char_count (s : bytes) : Z := len (List.filter (fun b => negb (is_continuation b)) s).
Definition secret (key : string) : result ConfigError Secret :=
  value ← ok_or (string_ key) (Missing key);
  if char_count value <? SECRET_LENGTH then Err (TooShort key SECRET_LENGTH) else Ok (MkSecret value).
Definition rotation_key (key : string) : result ConfigError Keypair :=
  value ← ok_or (string_ key) (Missing key);
  b ← ok_or (unhex value) (NotAKey key);
  map_err (fun _ => NotAKey key) (from_bytes p256 k256 Secp256k1 b).
Definition list_ (key : string) : option (list bytes) := (fun value => map trim (split_on 44 value)) <$> string_ key.
Fixpoint labelled (key : string) (values : list bytes) : result ConfigError unit :=
  match values with
  | [] => Ok tt
  | value :: values =>
      if contains 46 value || any_whitespace value then Err (NotALabel key value) else labelled key values
  end.
Definition labels (key : string) : result ConfigError (list bytes) :=
  match list_ key with
  | None => Ok []
  | Some values => _ ← labelled key values; Ok values
  end.
Definition boolean (key : string) : result ConfigError (option bool) :=
  match string_ key with
  | None => Ok None
  | Some value =>
      if bool_decide (value = lit "true") || bool_decide (value = lit "1") then Ok (Some true)
      else if bool_decide (value = lit "false") || bool_decide (value = lit "0") then Ok (Some false)
      else Err (NotABoolean key)
  end.
Definition number (most : Z) (key : string) : result ConfigError (option Z) :=
  transpose ((fun value => map_err (NotANumber key) (int_from_str 0 most value)) <$> string_ key).

(** [Config::from_env], each setting where the code reads it. *)
Definition U16_MAX : Z := 2 ^ 16 - 1.
Definition bypass_ip (value : bytes) : option IpAddr := first ← head (split_on 47 value); ip_parse (trim first).
Definition from_env : result ConfigError Config :=
  let hostname := default (lit "localhost") (string_ "PDS_HOSTNAME") in
  reserved ← labels "PDS_RESERVED_HANDLES";
  port ← number U16_MAX "PDS_PORT";
  jwt ← secret "PDS_JWT_SECRET";
  admin ← ok_or (MkSecret <$> string_ "PDS_ADMIN_PASSWORD") (Missing "PDS_ADMIN_PASSWORD");
  rotation ← rotation_key "PDS_PLC_ROTATION_KEY_K256_PRIVATE_KEY_HEX";
  recovery ← map_err (fun _ => NotADidKey "PDS_RECOVERY_DID_KEY")
    (transpose (Crypto.parse p256 k256 <$> string_ "PDS_RECOVERY_DID_KEY"));
  invites ← boolean "PDS_INVITE_REQUIRED";
  upload ← number U64_MAX "PDS_BLOB_UPLOAD_LIMIT";
  hours ← number U64_MAX "PDS_BLOB_UNCLAIMED_HOURS";
  limits ← boolean "PDS_RATE_LIMITS_ENABLED";
  Ok {| hostname := hostname;
        port := default 2583 port;
        service_did := default (lit "did:web:" ++ hostname) (string_ "PDS_SERVICE_DID");
        data_directory := default (lit "data") (string_ "PDS_DATA_DIRECTORY");
        jwt_secret := jwt;
        admin_password := admin;
        plc_rotation_key := rotation;
        plc_url := default (lit "https://plc.directory") (string_ "PDS_DID_PLC_URL");
        recovery_key := recovery;
        handle_domains := default [lit "." ++ hostname] (list_ "PDS_SERVICE_HANDLE_DOMAINS");
        reserved_handles := reserved;
        invite_required := default true invites;
        blob_upload_limit := default (5 * 1024 * 1024) upload;
        blob_unclaimed_hours := default 24 hours;
        privacy_policy_url := string_ "PDS_PRIVACY_POLICY_URL";
        terms_of_service_url := string_ "PDS_TERMS_OF_SERVICE_URL";
        contact_email := string_ "PDS_CONTACT_EMAIL_ADDRESS";
        rate_limits := default false limits;
        rate_limit_bypass_key := MkSecret <$> string_ "PDS_RATE_LIMIT_BYPASS_KEY";
        rate_limit_bypass_ips := omap bypass_ip (default [] (list_ "PDS_RATE_LIMIT_BYPASS_IPS")) |}.
End Environment.

(** [Config::public_url]. *)
Definition public_url (self : Config) : bytes :=
  if bool_decide (hostname self = lit "localhost")
  then lit "http://localhost:" ++ decimal (port self)
  else lit "https://" ++ hostname self.

End Config.

(* ================================================================== *)
(** * Facts *)

Section Facts.
Context (p256 k256 : Curve) `{!CurveOk p256, !CurveOk k256} `{Base58}.

Lemma string_Some env key v : string_ env key = Some v <-> env (lit key) = Some v /\ v <> [].
Proof.
  unfold string_; destruct (env (lit key)) as [w|]; cbn [mbind option_bind]; [|naive_solver].
  case_bool_decide; naive_solver.
Qed.

Lemma secret_Ok env key s : secret env key = Ok s ->
  env (lit key) = Some (reveal s) /\ SECRET_LENGTH <= char_count (reveal s).
Proof.
  unfold secret; destruct (string_ env key) as [v|] eqn:E; [|done]; cbn [ok_or mbind result_bind].
  apply string_Some in E as [E _]. destruct (Z.ltb_spec (char_count v) SECRET_LENGTH); [done|]. by intros [= <-].
Qed.

Lemma labelled_Ok key values : labelled key values = Ok tt ->
  Forall (fun value => 46 ∉ value /\ any_whitespace value = false) values.
Proof.
  induction values as [|value values IH]; cbn [labelled]; [constructor|].
  destruct (contains 46 value) eqn:Ec, (any_whitespace value) eqn:Ew; try done.
  intros Hr; constructor; [|by apply IH]. split; [by apply contains_false|done].
Qed.

Lemma labels_Ok env key values : labels env key = Ok values ->
  Forall (fun value => 46 ∉ value /\ any_whitespace value = false) values.
Proof.
  unfold labels; destruct (list_ env key) as [l|]; [|intros [= <-]; constructor].
  intros ([] & Hl & [= <-])%bind_Ok. by apply (labelled_Ok key).
Qed.

(** A flag that was read off is one that was written. *)
Lemma boolean_Ok env key b : boolean env key = Ok b ->
  match b with
  | None => env (lit key) = None \/ env (lit key) = Some []
  | Some true => env (lit key) = Some (lit "true") \/ env (lit key) = Some (lit "1")
  | Some false => env (lit key) = Some (lit "false") \/ env (lit key) = Some (lit "0")
  end.
Proof.
  unfold boolean; destruct (string_ env key) as [v|] eqn:E.
  - apply string_Some in E as [E _]; rewrite E.
    repeat case_bool_decide; cbn [orb]; intros [= <-]; subst; auto.
  - intros [= <-]. unfold string_ in E. destruct (env (lit key)) as [v|]; [|by left].
    cbn [mbind option_bind] in E. case_bool_decide; [subst; by right|done].
Qed.

(** So a default is left only where that was asked for. *)
Lemma flag_off env key b : boolean env key = Ok b ->
  default true b = false <-> env (lit key) = Some (lit "false") \/ env (lit key) = Some (lit "0").
Proof.
  intros Hb%boolean_Ok; destruct b as [[]|]; cbn [default Datatypes.id]; (split; [done|]); [| |];
    try done; (intros [E|E]; rewrite E in Hb; destruct Hb as [Hb|Hb]; discriminate Hb).
Qed.
Lemma flag_on env key b : boolean env key = Ok b ->
  default false b = true <-> env (lit key) = Some (lit "true") \/ env (lit key) = Some (lit "1").
Proof.
  intros Hb%boolean_Ok; destruct b as [[]|]; cbn [default Datatypes.id]; (split; [done|]); [| |];
    try done; (intros [E|E]; rewrite E in Hb; destruct Hb as [Hb|Hb]; discriminate Hb).
Qed.

(** A number is the one written, and fits. *)
Lemma number_Ok env most key n : 0 <= most -> number env most key = Ok n ->
  match n with
  | None => env (lit key) = None \/ env (lit key) = Some []
  | Some n => 0 <= n <= most /\ exists text, env (lit key) = Some text /\ int_from_str 0 most text = Ok n
  end.
Proof.
  intros Hm; unfold number; destruct (string_ env key) as [v|] eqn:E; cbn [fmap option_fmap option_map transpose].
  - apply string_Some in E as [E _]. destruct (int_from_str 0 most v) as [k|] eqn:Ek; [|done].
    intros [= <-]; split; [by apply (int_range 0 most v)|by exists v].
  - intros [= <-]. unfold string_ in E. destruct (env (lit key)) as [v|]; [|by left].
    cbn [mbind option_bind] in E. case_bool_decide; [subst; by right|done].
Qed.

Lemma rotation_key_Ok env key k : rotation_key p256 k256 env key = Ok k ->
  exists text b, env (lit key) = Some text /\ unhex text = Some b /\ from_bytes p256 k256 Secp256k1 b = Ok k.
Proof.
  unfold rotation_key; destruct (string_ env key) as [v|] eqn:E; [|done]; cbn [ok_or mbind result_bind].
  apply string_Some in E as [E _]. destruct (unhex v) as [b|] eqn:Eb; [|done]; cbn [ok_or mbind result_bind].
  destruct (from_bytes _ _ _ b) eqn:Ef; [|done]. intros [= <-]. by exists v, b.
Qed.

(** What is written as hex counts as many characters as it has digits. *)
Lemma hex_chars b : Forall is_byte b -> char_count (hex b) = 2 * len b.
Proof.
  intros Hb; unfold char_count; rewrite hex_concat. induction Hb as [|x b Hx Hb IH]; [done|].
  assert (forall d, 0 <= d < 16 -> is_continuation (hex_digit d) = false) as Hd.
  { intros d Hd; apply not_true_iff_false. unfold is_continuation, hex_digit.
    destruct (Z.ltb_spec d 10); rewrite between_spec; lia. }
  unfold is_byte in Hx.
  assert (0 <= x / 16 < 16) by (split; [apply Z.div_pos; lia|apply Z.div_lt_upper_bound; lia]).
  pose proof (Z.mod_pos_bound x 16 ltac:(done)).
  cbn [map concat app List.filter]. rewrite !Hd by done. cbn [negb]. rewrite !len_cons, IH. lia.
Qed.

(** What the two commands write starts the server. With a secret
    from [manapds secret], a key from [manapds rotation-key], any admin password
    and nothing else set, the server starts, under that secret and that very key,
    on localhost, with its documented defaults: only the invited, nobody counted,
    5 MiB to a blob, a day to claim it in. *)
Theorem generated_secrets_start_the_server env drawn admin key :
  length drawn = 16%nat -> Forall is_byte drawn -> Forall is_byte (signing_to_bytes k256 key) ->
  admin <> [] -> signing_to_bytes k256 key <> [] ->
  (forall k, env k = if decide (k = lit "PDS_JWT_SECRET") then Some (reveal (generate drawn))
                     else if decide (k = lit "PDS_ADMIN_PASSWORD") then Some admin
                     else if decide (k = lit "PDS_PLC_ROTATION_KEY_K256_PRIVATE_KEY_HEX")
                     then Some (rotation_key_text p256 k256 (KeypairSecp256k1 (p256 := p256) key)) else None) ->
  from_env p256 k256 env = Ok {|
    hostname := lit "localhost"; port := 2583; service_did := lit "did:web:localhost"; data_directory := lit "data";
    jwt_secret := generate drawn; admin_password := MkSecret admin;
    plc_rotation_key := KeypairSecp256k1 (p256 := p256) key; plc_url := lit "https://plc.directory";
    recovery_key := None; handle_domains := [lit ".localhost"]; reserved_handles := [];
    invite_required := true; blob_upload_limit := 5242880; blob_unclaimed_hours := 24;
    privacy_policy_url := None; terms_of_service_url := None; contact_email := None;
    rate_limits := false; rate_limit_bypass_key := None; rate_limit_bypass_ips := [] |}.
Proof.
  intros Hl Hd Hk Ha Hne Henv.
  assert (forall k, lit k <> lit "PDS_JWT_SECRET" -> lit k <> lit "PDS_ADMIN_PASSWORD" ->
    lit k <> lit "PDS_PLC_ROTATION_KEY_K256_PRIVATE_KEY_HEX" -> string_ env k = None) as Hnone.
  { intros k H1 H2 H3; unfold string_. rewrite Henv, !decide_False by done. done. }
  assert (forall b, Forall is_byte b -> b <> [] -> hex b <> []) as Hhex.
  { intros [|x b] Hb Hb0 E; [done|]. apply (f_equal char_count) in E. rewrite hex_chars, len_cons in E by done.
    pose proof (len_nonneg b); change (char_count []) with 0 in E; lia. }
  assert (secret env "PDS_JWT_SECRET" = Ok (generate drawn)) as Es.
  { unfold secret. rewrite (proj2 (string_Some env _ (hex drawn))); cbn [ok_or mbind result_bind].
    - rewrite hex_chars by done. unfold len; rewrite Hl. done.
    - split; [by rewrite Henv, decide_True|]. apply Hhex; [done|by destruct drawn]. }
  assert (string_ env "PDS_ADMIN_PASSWORD" = Some admin) as Ea.
  { apply string_Some; split; [|done]. rewrite Henv, decide_False, decide_True by done. done. }
  assert (rotation_key p256 k256 env "PDS_PLC_ROTATION_KEY_K256_PRIVATE_KEY_HEX" = Ok (KeypairSecp256k1 (p256 := p256) key)) as Er.
  { unfold rotation_key.
    rewrite (proj2 (string_Some env _ (hex (signing_to_bytes k256 key)))); cbn [ok_or mbind result_bind].
    - unfold unhex. destruct (hex_is_hex _ Hk) as [-> ->]; cbn [negb orb ok_or mbind result_bind].
      rewrite hex_pairs_hex by done. unfold from_bytes. by rewrite signing_roundtrip.
    - split; [by rewrite Henv, decide_False, decide_False, decide_True|by apply Hhex]. }
  unfold from_env, labels, number, boolean, list_.
  rewrite Es, Ea, Er, !Hnone by done. reflexivity.
Qed.

(** A server that starts was set up to. Whatever the environment
    holds, a configuration that is read has a signing secret of at least 24
    characters, an admin password and a rotation key, each exactly as written;
    it takes anyone at all only where it was told to in so many words, and counts
    its callers or not as it was told; every number is the one written and fits
    its width; and no name held back has a dot or a space in it. *)
Theorem no_setting_is_guessed env c : from_env p256 k256 env = Ok c ->
  (env (lit "PDS_JWT_SECRET") = Some (reveal (jwt_secret _ _ c)) /\ SECRET_LENGTH <= char_count (reveal (jwt_secret _ _ c)))
  /\ (env (lit "PDS_ADMIN_PASSWORD") = Some (reveal (admin_password _ _ c)) /\ reveal (admin_password _ _ c) <> [])
  /\ (exists text b, env (lit "PDS_PLC_ROTATION_KEY_K256_PRIVATE_KEY_HEX") = Some text /\ unhex text = Some b
        /\ from_bytes p256 k256 Secp256k1 b = Ok (plc_rotation_key _ _ c))
  /\ (invite_required _ _ c = false <->
        env (lit "PDS_INVITE_REQUIRED") = Some (lit "false") \/ env (lit "PDS_INVITE_REQUIRED") = Some (lit "0"))
  /\ (rate_limits _ _ c = true <->
        env (lit "PDS_RATE_LIMITS_ENABLED") = Some (lit "true") \/ env (lit "PDS_RATE_LIMITS_ENABLED") = Some (lit "1"))
  /\ 0 <= port _ _ c <= U16_MAX /\ 0 <= blob_upload_limit _ _ c <= U64_MAX /\ 0 <= blob_unclaimed_hours _ _ c <= U64_MAX
  /\ (forall text, env (lit "PDS_PORT") = Some text -> text <> [] -> int_from_str 0 U16_MAX text = Ok (port _ _ c))
  /\ Forall (fun name => 46 ∉ name /\ any_whitespace name = false) (reserved_handles _ _ c).
Proof.
  unfold from_env. intros H0.
  apply bind_Ok in H0 as (reserved & Hres & H0). apply bind_Ok in H0 as (prt & Hport & H0).
  apply bind_Ok in H0 as (jwt & Hjwt & H0). apply bind_Ok in H0 as (adm & Hadm & H0).
  apply bind_Ok in H0 as (rot & Hrot & H0). apply bind_Ok in H0 as (rec & Hrec & H0).
  apply bind_Ok in H0 as (inv & Hinv & H0). apply bind_Ok in H0 as (upl & Hupl & H0).
  apply bind_Ok in H0 as (hrs & Hhrs & H0). apply bind_Ok in H0 as (lim & Hlim & H0).
  injection H0 as <-; cbn [jwt_secret admin_password plc_rotation_key invite_required rate_limits port blob_upload_limit
    blob_unclaimed_hours reserved_handles].
  pose proof (number_Ok env U16_MAX "PDS_PORT" prt ltac:(done) Hport) as Hp.
  pose proof (number_Ok env U64_MAX _ upl ltac:(done) Hupl) as Hu. pose proof (number_Ok env U64_MAX _ hrs ltac:(done) Hhrs) as Hh.
  assert (forall n d most, match n with Some n => 0 <= n <= most | None => True end -> 0 <= d <= most -> 0 <= default d n <= most)
    as Hfits by (by intros [n|] d most).
  split; [by apply secret_Ok|]. split.
  { destruct (string_ env "PDS_ADMIN_PASSWORD") as [v|] eqn:E; [|done]. injection Hadm as <-. by apply string_Some in E. }
  split; [by apply rotation_key_Ok|]. split; [apply (flag_off env _ _ Hinv)|]. split; [apply (flag_on env _ _ Hlim)|].
  split; [apply Hfits; [by destruct prt; [apply Hp|]|done]|].
  split; [apply Hfits; [by destruct upl; [apply Hu|]|done]|].
  split; [apply Hfits; [by destruct hrs; [apply Hh|]|done]|].
  split; [|by apply (labels_Ok env "PDS_RESERVED_HANDLES")].
  intros text Et Hne. destruct prt as [n|]; cbn.
  - destruct Hp as (_ & t & Et' & En). congruence.
  - destruct Hp as [Hp|Hp]; congruence.
Qed.

End Facts.

(** An environment as [manapds secret] and [manapds rotation-key] leave it. *)
Module Sample.
#[export] Existing Instances Crypto.Toy.curve_ok.
#[export] Instance base58 : Base58 := {| b58_encode := fun b => b; b58_decode := fun b => Some b |}.
Definition drawn : bytes := map Z.of_nat (seq 0 16).
Definition env (k : bytes) : option bytes :=
  if decide (k = lit "PDS_JWT_SECRET") then Some (reveal (generate drawn))
  else if decide (k = lit "PDS_ADMIN_PASSWORD") then Some (lit "hunter2")
  else if decide (k = lit "PDS_PLC_ROTATION_KEY_K256_PRIVATE_KEY_HEX")
  then Some (rotation_key_text Toy.curve Toy.curve (KeypairSecp256k1 (p256 := Toy.curve) (k256 := Toy.curve) true)) else None.
End Sample.
Import Sample.

Lemma generated_secrets_start_the_server_witness :
  exists c, from_env Toy.curve Toy.curve env = Ok c /\ jwt_secret _ _ c = generate drawn.
Proof.
  assert (forall b, forallb (fun x => (0 <=? x) && (x <? 256)) b = true -> Forall is_byte b) as Hb.
  { intros b Hb%forallb_True. eapply Forall_impl; [exact Hb|]. cbn; intros x [H1%Z.leb_le H2%Z.ltb_lt]%andb_true_iff. done. }
  eexists; split; [apply (generated_secrets_start_the_server Toy.curve Toy.curve env drawn (lit "hunter2") true)|reflexivity];
    try done; by apply Hb.
Defined.

Lemma no_setting_is_guessed_witness : exists c, from_env Toy.curve Toy.curve env = Ok c
  /\ env (lit "PDS_JWT_SECRET") = Some (reveal (jwt_secret _ _ c)) /\ SECRET_LENGTH <= char_count (reveal (jwt_secret _ _ c)).
Proof.
  destruct (from_env Toy.curve Toy.curve env) as [c|] eqn:E; [|vm_compute in E; discriminate].
  exists c; split; [done|]. pose proof (no_setting_is_guessed Toy.curve Toy.curve env c E) as Hx. exact (proj1 Hx).
Defined.

End Config.
