(* ===== verification/Handles.v ===== *)
(** * Handles: which names this server hands out

    [src/src/account/handle.rs] and [src/src/account/handle/reserved.rs].
    [Syntax.Handle] says what a handle is; these are the rules on top of it:
    the domains a name may be under, how long the part in front may be, and the
    names nobody is given. *)

From S2P Require Import Prelude Text Syntax.
From Stdlib Require Import Lia.

Local Open Scope Z_scope.

(* ------------------------------------------------------------------ *)
(** ** Names held back *)

Module Reserved.

(** [NAMES], the compile-time check that they are in order, and [held]. *)
Definition NAMES : list bytes := map lit [
  "10downingstreet"; "10ronaldinho"; "3gerardpique"; "about"; "abuse"; "access"; "account"; "accounts"; "aclu";
  "acme"; "activate"; "activities"; "activity"; "ad"; "add"; "address"; "adele"; "adm"; "admanager"; "admin";
  "administration"; "administrator"; "administrators"; "admins"; "ads"; "adsense"; "adult"; "advertising"; "adwords";
  "affiliate"; "affiliatepage"; "affiliates"; "afp"; "ajax"; "akiko_lawson"; "akshaykumar"; "aliaa08"; "aliciakeys";
  "all"; "alpha"; "amitshah"; "analysis"; "analytics"; "andresiniesta8"; "android"; "anon"; "anonymous"; "answer";
  "answers"; "anushkasharma"; "aoc"; "ap"; "api"; "apis"; "app"; "appengine"; "appnews"; "apps"; "archive";
  "archives"; "arianagrande"; "ariyoshihiroiki"; "arrahman"; "article"; "arvindkejriwal"; "asahi"; "asdf"; "asset";
  "assets"; "at"; "atp"; "auth"; "authentication"; "avatar"; "avrillavigne"; "backup"; "bank"; "banner"; "banners";
  "barackobama"; "base"; "bbcbreaking"; "bbcworld"; "beginners"; "beingsalmankhan"; "beta"; "beyonce"; "billgates";
  "billieeilish"; "billing"; "bin"; "binaries"; "binary"; "blackberry"; "blog"; "blogs"; "blogsearch"; "bluesky";
  "board"; "book"; "bookmark"; "bookmarks"; "books"; "bot"; "bots"; "brasildefato"; "britneyspears"; "brunomars";
  "bsky"; "bts_bighit"; "bts_twt"; "bug"; "bugs"; "business"; "buy"; "buzz"; "cache"; "calendar"; "call"; "campaign";
  "cancel"; "captcha"; "career"; "careers"; "cart"; "carterjwm"; "catalog"; "catalogs"; "categories"; "category";
  "cdn"; "cgi"; "cgi-bin"; "championsleague"; "changelog"; "chart"; "charts"; "chat"; "check"; "checked"; "checking";
  "checkout"; "chrisbrown"; "claudialeitte"; "client"; "cliente"; "clients"; "clients1"; "cnarne"; "cnnbrk"; "code";
  "coldplay"; "comercial"; "comment"; "comments"; "communities"; "community"; "company"; "compare"; "compras";
  "conanobrien"; "config"; "configuration"; "confirm"; "confirmation"; "connect"; "contact"; "contact-us";
  "contact_us"; "contacts"; "contactus"; "content"; "contest"; "contribute"; "contributor"; "contributors"; "coppa";
  "copyright"; "copyrights"; "core"; "corp"; "correio"; "countries"; "country"; "cpanel"; "create"; "cristiano";
  "css"; "cssproxy"; "customise"; "customize"; "danieltosh"; "dashboard"; "data"; "davidguetta"; "db"; "ddlovato";
  "deepikapadukone"; "default"; "delete"; "demo"; "design"; "designer"; "desktop"; "destroy"; "dev"; "devel";
  "developer"; "developers"; "devs"; "diagram"; "diary"; "dict"; "dictionary"; "did"; "die"; "dir";
  "direct-messages"; "direct_messages"; "directory"; "dist"; "diversity"; "dl"; "dmca"; "doc"; "docs";
  "documentation"; "documentations"; "documents"; "domain"; "domains"; "donate"; "download"; "downloads";
  "dozle_official"; "drake"; "dril"; "e"; "e-mail"; "earth"; "ecommerce"; "edit"; "editor"; "edits"; "edu";
  "education"; "elisapie"; "ellendegeneres"; "elonmusk"; "em_com"; "email"; "embed"; "embedded"; "eminem";
  "emmawatson"; "employment"; "employments"; "empty"; "enable"; "encrypted"; "end"; "engine"; "enterprise";
  "enterprises"; "entries"; "entry"; "error"; "errorlog"; "errors"; "estadao"; "eval"; "event"; "example";
  "examplecommunity"; "exampleopenid"; "examplesyn"; "examplesyndicated"; "exampleusername"; "exchange"; "exit";
  "explore"; "famima_now"; "faq"; "faqs"; "favorite"; "favorites"; "favourite"; "favourites"; "fcbarcelona";
  "feature"; "features"; "feed"; "feedback"; "feedburner"; "feedproxy"; "feeds"; "ff_xiv_jp"; "file"; "files";
  "finance"; "first"; "folder"; "folders"; "folha"; "following"; "forgot"; "form"; "forms"; "forum"; "forums";
  "founder"; "foxnews"; "free"; "friend"; "friends"; "ftp"; "fuck"; "fujitv"; "fun"; "fusion"; "gadget"; "gadgets";
  "game"; "games"; "gazetadopovo"; "gears"; "general"; "geographic"; "get"; "gettingstarted"; "gift"; "gifts";
  "gigazine"; "gist"; "git"; "github"; "gmail"; "go"; "golang"; "goto"; "gov"; "graph"; "graphs"; "gretathunberg";
  "group"; "groups"; "guest"; "guests"; "guide"; "guides"; "hack"; "hacks"; "hajimesyacho"; "handle"; "harry_styles";
  "head"; "help"; "hikakin"; "hillaryclinton"; "home"; "homepage"; "host"; "hosting"; "hostmaster"; "hostname";
  "how-to"; "how_to"; "howto"; "html"; "htrnl"; "http"; "httpd"; "https"; "i"; "iamges"; "iamsrk"; "icon"; "icons";
  "id"; "idea"; "ideas"; "ihrithik"; "im"; "imac"; "image"; "images"; "imap"; "img"; "imvkohli"; "inbox"; "inboxes";
  "index"; "indexes"; "info"; "information"; "inquiry"; "instagram"; "intranet"; "investor"; "investors";
  "invitation"; "invitations"; "invite"; "invoice"; "invoices"; "ios"; "ipad"; "iphone"; "irc"; "irnages"; "irng";
  "is"; "issue"; "issues"; "it"; "item"; "items"; "ivetesangalo"; "jairbolsonaro"; "java"; "javascript";
  "jimmyfallon"; "jlo"; "job"; "jobs"; "jocx"; "joebiden"; "join"; "jornaldobrasil"; "jornaloglobo"; "jotx"; "js";
  "json"; "jtimberlake"; "jump"; "justinbieber"; "kaka"; "kamalaharris"; "kanyewest"; "katyperry"; "kb";
  "kendalljenner"; "kevinhart4real"; "khloekardashian"; "kimkardashian"; "kingjames"; "kiyo_saiore";
  "knowledge-base"; "knowledgebase"; "kourtneykardash"; "kremlinrussia_e"; "kyliejenner"; "lab"; "labs"; "ladygaga";
  "language"; "languages"; "last"; "ldap-status"; "ldap_status"; "ldapstatus"; "legal"; "leomessi"; "lex"; "lexicon";
  "liampayne"; "license"; "licenses"; "liltunechi"; "link"; "links"; "linux"; "list"; "lists"; "livejournal"; "lj";
  "local"; "locale"; "location"; "log"; "log-in"; "log-out"; "log_in"; "log_out"; "login"; "logout"; "logs";
  "lucianohuck"; "lulaoficial"; "m"; "mac"; "mac-os"; "mac-os-x"; "mac_os_x"; "macos"; "macosx"; "mail"; "mailer";
  "mailing"; "main"; "mainichi"; "maintenance"; "manage"; "manager"; "manual"; "manutd"; "map"; "maps"; "marcosmion";
  "mariahcarey"; "marketing"; "master"; "matsu_bouzu"; "me"; "media"; "member"; "members"; "memories"; "memory";
  "merchandise"; "message"; "messages"; "messenger"; "mg"; "microblog"; "microblogs"; "mileycyrus"; "mine"; "mis";
  "misc"; "mms"; "mob"; "mobile"; "model"; "models"; "mohamadalarefe"; "money"; "movie"; "movies"; "mp3"; "mp4";
  "msg"; "msn"; "music"; "mx"; "my"; "mymme"; "mysql"; "name"; "named"; "nan"; "naomiosaka"; "narendramodi"; "nasa";
  "natgeo"; "navi"; "navigation"; "nba"; "net"; "network"; "networks"; "new"; "news"; "newsletter"; "neymarjr";
  "nfl"; "nhk"; "niallofficial"; "nick"; "nickiminaj"; "nickname"; "nike"; "nikkei"; "nil"; "nintendo"; "none";
  "notes"; "noticias"; "notification"; "notifications"; "notify"; "npr"; "ns"; "ns1"; "ns2"; "ns3"; "ns4"; "ns5";
  "nsid"; "ntv"; "null"; "nytimes"; "oauth"; "oauth-clients"; "oauth_clients"; "ocsp"; "offer"; "offers"; "official";
  "old"; "onedirection"; "online"; "oowareware1945"; "openid"; "operator"; "oprah"; "option"; "options"; "order";
  "orders"; "org"; "organization"; "organizations"; "other"; "overview"; "owner"; "owners"; "p0rn"; "pack"; "page";
  "pager"; "pages"; "paid"; "pamyurin"; "panel"; "partner"; "partnerpage"; "partners"; "password"; "patch";
  "paulocoelho"; "pay"; "payment"; "pds"; "people"; "perl"; "person"; "phone"; "photo"; "photoalbum"; "photos";
  "php"; "phpmyadmin"; "phppgadmin"; "phpredisadmin"; "pic"; "pics"; "picture"; "pictures"; "ping"; "pink";
  "pitbull"; "pixel"; "places"; "plan"; "plans"; "playstation"; "plc"; "plugin"; "plugins"; "pmoindia"; "podcasts";
  "poke_times"; "policies"; "policy"; "pop"; "pop3"; "popular"; "porn"; "portal"; "portalr7"; "portals"; "post";
  "postfix"; "postmaster"; "posts"; "potus"; "pr"; "pr0n"; "premierleague"; "premium"; "press"; "price"; "pricing";
  "principles"; "print"; "privacy"; "privacy-policy"; "privacy_policy"; "privacypolicy"; "private"; "priyankachopra";
  "prod"; "product"; "production"; "products"; "profile"; "profiles"; "project"; "projects"; "promo"; "promotions";
  "proxies"; "proxy"; "pub"; "public"; "purchase"; "purpose"; "put"; "python"; "queries"; "query"; "radio"; "random";
  "ranking"; "read"; "reader"; "readme"; "realdonaldtrump"; "recent"; "recruit"; "recruitment"; "rede_globo";
  "redirect"; "register"; "registration"; "release"; "remove"; "replies"; "repo"; "report"; "reports";
  "repositories"; "repository"; "req"; "request"; "requests"; "research"; "reset"; "resolve"; "resolver"; "review";
  "ricky_martin"; "rihanna"; "rnail"; "rnicrosoft"; "roc"; "rolaworld"; "rondesantisfl"; "root"; "rss"; "ruby";
  "rule"; "sachin_rt"; "sag"; "sale"; "sales"; "sample"; "samples"; "sandbox"; "save"; "scholar"; "school";
  "schools"; "script"; "scripts"; "search"; "secure"; "security"; "seikintv"; "selenagomez"; "self"; "seminars";
  "send"; "server"; "server-info"; "server-status"; "server_info"; "server_status"; "servers"; "service"; "services";
  "session"; "sessions"; "setting"; "settings"; "setup"; "shakira"; "share"; "shawnmendes"; "shop"; "shopping";
  "shortcut"; "shortcuts"; "show"; "sign-in"; "sign-up"; "sign_in"; "sign_up"; "signin"; "signout"; "signup"; "site";
  "sitemap"; "sitemaps"; "sitenews"; "sites"; "sketchup"; "sky"; "slash"; "slashinvoice"; "slut"; "smartphone";
  "sms"; "smtp"; "snoopdogg"; "soap"; "software"; "sorry"; "source"; "spec"; "special"; "sportscenter";
  "spreadsheet"; "spreadsheets"; "sql"; "srbachchan"; "src"; "srntp"; "ssh"; "ssl"; "ssladmin"; "ssladministrator";
  "sslwebmaster"; "ssytem"; "staff"; "stage"; "staging"; "starbucksjapan"; "start"; "stat"; "state"; "static";
  "statistics"; "stats"; "status"; "store"; "stores"; "stories"; "style"; "styleguide"; "styles"; "stylesheet";
  "stylesheets"; "subdomain"; "subhisharma100"; "subscribe"; "subscription"; "subscriptions"; "suggest";
  "suggestqueries"; "support"; "survey"; "surveys"; "surveytool"; "svn"; "swf"; "syn"; "sync"; "syndicated"; "sys";
  "sysadmin"; "sysadministrator"; "sysadmins"; "system"; "tablet"; "tablets"; "tag"; "tags"; "talk"; "talkgadget";
  "task"; "tasks"; "taylorswift"; "taylorswift13"; "tbs"; "tbs_pr"; "team"; "teams"; "tech"; "telnet"; "term";
  "terms"; "terms-of-service"; "terms_of_service"; "termsofservice"; "test"; "testing"; "tests"; "text";
  "theeconomist"; "theme"; "themes"; "therock"; "thread"; "threads"; "ticket"; "tickets"; "tid"; "tmp"; "to-do";
  "to_do"; "todo"; "toml"; "tool"; "toolbar"; "toolbars"; "tools"; "top"; "topic"; "topics"; "tos"; "tour"; "trac";
  "trace"; "translate"; "translation"; "translations"; "translator"; "trends"; "tutorial"; "tux"; "tv"; "tvasahi";
  "tvtokyo"; "twitter"; "txt"; "ukraine"; "ul"; "undef"; "unfollow"; "unsubscribe"; "update"; "updates"; "upgrade";
  "upgrades"; "upi"; "upload"; "uploads"; "url"; "usage"; "user"; "username"; "usernames"; "users"; "uuid";
  "validation"; "validations"; "ver"; "version"; "video"; "video-stats"; "videos"; "virendersehwag"; "visitor";
  "visitors"; "voice"; "volunteer"; "volunteers"; "w"; "washingtonpost"; "watch"; "wave"; "weather"; "web";
  "webdisk"; "webhook"; "webhooks"; "webmail"; "webmaster"; "webmasters"; "webrnail"; "website"; "websites";
  "welcome"; "whitehouse45"; "whm"; "whois"; "widget"; "widgets"; "wifi"; "wiki"; "wikis"; "win"; "windows";
  "wizkhalifa"; "word"; "work"; "works"; "workshop"; "wpad"; "ww"; "wws"; "www"; "wwws"; "wwww"; "xfn"; "xhtml";
  "xhtrnl"; "xml"; "xmpp"; "xpg"; "xrpc"; "xxx"; "yaml"; "year"; "yml"; "yokoono"; "yomiuri_online"; "you";
  "yourdomain"; "yourname"; "yoursite"; "yourusername"; "yousuck2020"; "youtube"; "zaynmalik"; "zelenskyyua";
  "zerohora"
]%string.
Fixpoint before (l r : bytes) : bool :=
  match l, r with
  | a :: l, b :: r => if a =? b then before l r else a <? b
  | _, _ => len l <? len r
  end.
Fixpoint ordered (names : list bytes) : bool :=
  match names with
  | a :: ((b :: _) as names) => before a b && ordered names
  | _ => true
  end.
Definition held (name : bytes) : bool := bool_decide (is_Some (binary_search NAMES name)).

End Reserved.

(* ------------------------------------------------------------------ *)
(** ** The rules *)

(** [INVALID], [SHORTEST], [LONGEST] and [DISALLOWED]. *)
Definition INVALID : bytes := lit "handle.invalid".
Definition SHORTEST : Z := 3.
Definition LONGEST : Z := 18.
Definition DISALLOWED : list bytes :=
  map lit [".local"; ".arpa"; ".invalid"; ".localhost"; ".internal"; ".example"; ".alt"; ".onion"]%string.

(** [Invalid] and the name a client branches on. *)
Inductive Invalid :=
| InvalidHandle (why : string)
| InvalidReserved
| Unsupported.

#[export] Instance Invalid_eq_dec : EqDecision Invalid.
Proof. solve_decision. Defined.

Definition invalid_name (e : Invalid) : string :=
  match e with
  | InvalidHandle _ => "InvalidHandle"
  | InvalidReserved => "HandleNotAvailable"
  | Unsupported => "UnsupportedDomain"
  end.

(** [Rules] and [Rules::new]. *)
Record Rules := MkRules { domains : list bytes; held : list bytes }.
Definition new (domains held : list bytes) : Rules :=
  let held := List.filter (fun name => negb (bool_decide (name = [])))
                (map (fun name => map to_ascii_lowercase (trim name)) held) in
  MkRules domains (dedup (merge_sort str_le held)).

(** [Rules::normalize], [service_domain], [is_local] and [signup]. *)
Definition normalize (self : Rules) (input : bytes) : result Invalid Handle.t :=
  handle ← map_err (fun _ => InvalidHandle "Invalid handle") (Handle.normalize input);
  if existsb (fun tld => ends_with tld (Handle.str handle)) DISALLOWED then
    Err (InvalidHandle "Handle TLD is invalid or disallowed")
  else Ok handle.
Definition service_domain (self : Rules) (handle : Handle.t) : option bytes :=
  List.find (fun domain => ends_with domain (Handle.str handle)) (domains self).
Definition is_local (self : Rules) (handle : Handle.t) : bool :=
  existsb (fun domain => ends_with domain (Handle.str handle)
                         || bool_decide (strip_prefix (lit ".") domain = Some (Handle.str handle))) (domains self).
Definition signup (self : Rules) (input : bytes) : result Invalid Handle.t :=
  handle ← normalize self input;
  domain ← ok_or (service_domain self handle) Unsupported;
  let front := take (length (Handle.str handle) - length domain) (Handle.str handle) in
  if contains 46 front then Err (InvalidHandle "Invalid characters in handle")
  else if len front <? SHORTEST then Err (InvalidHandle "Handle too short")
  else if len front >? LONGEST then Err (InvalidHandle "Handle too long")
  else if Reserved.held front || bool_decide (is_Some (binary_search (held self) front)) then Err InvalidReserved
  else Ok handle.

(* ================================================================== *)
(** * Facts *)

Lemma before_spec a b : Reserved.before a b = true <-> str_lt a b.
Proof.
  revert b; induction a as [|x a IH]; intros [|y b]; unfold str_lt; cbn; [done| |done|].
  - split; [done|]. intros _; apply Z.ltb_lt. unfold len; cbn; lia.
  - destruct (Z.eqb_spec x y) as [->|Hne]; [rewrite Z.compare_refl; apply IH|].
    rewrite Z.ltb_compare. destruct (Z.compare_spec x y); by split.
Qed.

Lemma ordered_sorted names : Reserved.ordered names = true -> StronglySorted str_lt names.
Proof.
  intros Ho; apply Sorted_StronglySorted; [intros a b c; apply str_lt_trans|].
  induction names as [|a names IH]; [constructor|]. destruct names as [|b names]; [repeat constructor|].
  cbn in Ho; apply andb_true_iff in Ho as [Hb%before_spec Ho]. constructor; [by apply IH|by constructor].
Qed.

Lemma reserved_spec name : Reserved.held name = true <-> name ∈ Reserved.NAMES.
Proof.
  unfold Reserved.held; rewrite bool_decide_eq_true. apply binary_search_spec, ordered_sorted.
  vm_compute; reflexivity.
Qed.

#[local] Opaque Reserved.NAMES.

Lemma held_sorted domains names : StronglySorted str_lt (held (new domains names)).
Proof. apply dedup_sorted. apply (StronglySorted_merge_sort str_le). Qed.

Lemma name_held_spec domains names x :
  x ∈ held (new domains names) <-> x <> [] /\ exists name, name ∈ names /\ x = map to_ascii_lowercase (trim name).
Proof.
  unfold new; cbn [held]; rewrite dedup_elem, merge_sort_Permutation, list_elem_of_In, filter_In, in_map_iff.
  rewrite negb_true_iff, bool_decide_eq_false; split.
  - intros [(name & <- & Hn%list_elem_of_In) Hne]; eauto.
  - intros (Hne & name & Hn%list_elem_of_In & ->); eauto.
Qed.

Lemma first_domain P (domains : list bytes) d :
  List.find P domains = Some d <-> exists above below, domains = above ++ d :: below
    /\ P d = true /\ Forall (fun d' => P d' = false) above.
Proof.
  induction domains as [|x domains IH]; cbn; [split; [done|by intros ([|??] & ? & ? & _)]|].
  destruct (P x) eqn:E.
  - split; [intros [= <-]; exists [], domains; by repeat constructor|].
    intros ([|y above] & below & [= -> E'] & Hd & Ha); [done|]. apply Forall_cons in Ha as [? _]; congruence.
  - rewrite IH; split.
    + intros (above & below & -> & Hd & Ha); exists (x :: above), below; by repeat constructor.
    + intros ([|y above] & below & [= -> ->] & Hd & Ha); [congruence|]. apply Forall_cons in Ha as [_ Ha]. eauto.
Qed.

Lemma first_is_first {A} (P : A -> Prop) above above' d d' below below' :
  above ++ d :: below = above' ++ d' :: below' ->
  P d -> P d' -> (forall x, x ∈ above -> ~ P x) -> (forall x, x ∈ above' -> ~ P x) -> d' = d.
Proof.
  revert above'; induction above as [|x above IH]; intros [|x' above'] [= -> E] Hd Hd' Ha Ha'.
  - done.
  - by destruct (Ha' x' ltac:(left)).
  - by destruct (Ha d' ltac:(left)).
  - apply (IH above' E Hd Hd'); intros y Hy; [apply Ha|apply Ha']; by right.
Qed.

(** What is asked of the part in front. *)
Lemma shape_spec domains reserved front h h' :
  (if contains 46 front then Err (InvalidHandle "Invalid characters in handle")
   else if len front <? SHORTEST then Err (InvalidHandle "Handle too short")
   else if len front >? LONGEST then Err (InvalidHandle "Handle too long")
   else if Reserved.held front || bool_decide (is_Some (binary_search (held (new domains reserved)) front))
   then Err InvalidReserved else Ok h : result Invalid Handle.t) = Ok h' <->
  h' = h /\ 46 ∉ front /\ SHORTEST <= len front <= LONGEST /\ front ∉ Reserved.NAMES
  /\ forall name, name ∈ reserved -> map to_ascii_lowercase (trim name) <> front.
Proof.
  pose proof (reserved_spec front) as Hr; revert Hr.
  generalize (Reserved.held front) as taken, Reserved.NAMES as names; intros taken names Hr.
  destruct (contains 46 front) eqn:E1; [apply contains_spec in E1; naive_solver|apply contains_false in E1].
  destruct (Z.ltb_spec (len front) SHORTEST); [split; [done|intros (_ & _ & ? & _); lia]|].
  destruct (Z.gtb_spec (len front) LONGEST); [split; [done|intros (_ & _ & ? & _); lia]|].
  destruct taken; cbn [orb]; [naive_solver|].
  assert (front ∉ names) by (rewrite <- Hr; done).
  assert (front <> []) by (intros ->; unfold SHORTEST, len in *; cbn in *; lia).
  case_bool_decide as E3; rewrite (binary_search_spec _ _ (held_sorted _ _)), name_held_spec in E3.
  - destruct E3 as (_ & name & Hn & E). split; [done|]. intros (_ & _ & _ & _ & Hno); by destruct (Hno name Hn).
  - split; [|by intros [-> _]]. intros [= <-]; split_and!; try done; [lia..|].
    intros name Hn E; apply E3; split; [done|]. by exists name.
Qed.

(** What a signup is named. [Rules::signup] hands out a handle
    exactly where the input, lowercased, is a handle; ends in nothing the
    public internet cannot resolve; is one label of 3 to 18 characters in front
    of a domain this server serves, the first of them it ends in; and that
    label is none of the 1029 names held back for everyone nor one of those
    this server was told to hold back, whatever their case and the space around
    them. Searching both lists by halves misses nothing, because both are in
    order. *)
Theorem signup_hands_out_free_names served reserved input h :
  signup (new served reserved) input = Ok h <->
  Handle.normalize input = Ok h
  /\ (forall tld, tld ∈ DISALLOWED -> forall s, Handle.str h <> s ++ tld)
  /\ exists front domain above below, served = above ++ domain :: below
       /\ Handle.str h = front ++ domain
       /\ (forall d, d ∈ above -> forall s, Handle.str h <> s ++ d)
       /\ 46 ∉ front /\ SHORTEST <= len front <= LONGEST
       /\ front ∉ Reserved.NAMES
       /\ forall name, name ∈ reserved -> map to_ascii_lowercase (trim name) <> front.
Proof.
  unfold signup, normalize; destruct (Handle.normalize input) as [h'|e]; cbn [map_err mbind result_bind];
    [|split; [done|by intros [? _]]].
  destruct (existsb _ DISALLOWED) eqn:Ed; cbn [mbind result_bind].
  { split; [done|]. intros ([= <-] & Hd & _). apply existsb_exists in Ed as (tld & Hin & [r E]%ends_with_true).
    by destruct (Hd tld ltac:(by apply list_elem_of_In) r). }
  assert (forall tld, tld ∈ DISALLOWED -> forall s, Handle.str h' <> s ++ tld) as Hd.
  { intros tld Hin s E. apply not_true_iff_false in Ed; apply Ed, existsb_exists.
    exists tld; split; [by apply list_elem_of_In|]. apply ends_with_true; by exists s. }
  destruct (service_domain _ h') as [domain|] eqn:Es; cbn [ok_or mbind result_bind].
  - apply first_domain in Es as (above & below & Ha & [front Ef]%ends_with_true & Hab).
    rewrite Ef, app_length, Nat.add_sub, take_app_length. cbn [domains new] in Ha.
    assert (forall d, d ∈ above -> forall s, Handle.str h' <> s ++ d) as Hfirst.
    { intros d Hin s E; rewrite Forall_forall in Hab; specialize (Hab d Hin).
      apply not_true_iff_false in Hab; apply Hab, ends_with_true; by exists s. }
    etransitivity; [exact (shape_spec served reserved front h' h)|]. split.
    + intros (-> & Hs); split; [done|split; [exact Hd|]]. exists front, domain, above, below.
      repeat (split; [done|]). exact Hs.
    + intros (E & _ & front' & domain' & above' & below' & Ha' & Ef' & Hfirst' & Hs).
      injection E as <-; split; [done|].
      assert (domain' = domain) as ->; [|rewrite Ef in Ef'; apply app_inv_tail in Ef' as ->; exact Hs].
      eapply (first_is_first (fun d => exists s, Handle.str h' = s ++ d) above above').
      * by rewrite <- Ha, <- Ha'.
      * by exists front.
      * by exists front'.
      * intros d Hin [s E]; by eapply Hfirst.
      * intros d Hin [s E]; by eapply Hfirst'.
  - split; [done|]. intros (E & _ & front & domain & above & below & Ha & Ef & _); injection E as <-.
    pose proof (find_none _ _ Es domain) as Hn. cbn [domains new] in Hn.
    rewrite (proj2 (ends_with_true _ _)) in Hn; [|by exists front].
    discriminate Hn; rewrite Ha; apply in_or_app; right; by left.
Qed.

(* ------------------------------------------------------------------ *)
(** ** At concrete rules *)

Example signups :
  let rules := new [lit ".pds.example.com"; lit ".com"] [lit "  Staff "] in
  map (signup rules) (map lit ["Alice.PDS.example.com"; "about.com"; "staff.com"; "a.b.com"; "alice.onion"; "al.com"]%string)
  = [Ok (Handle.mk (lit "alice.pds.example.com")); Err InvalidReserved; Err InvalidReserved;
     Err (InvalidHandle "Invalid characters in handle"); Err (InvalidHandle "Handle TLD is invalid or disallowed");
     Err (InvalidHandle "Handle too short")].
Proof. vm_compute; reflexivity. Qed.
