(* ===== verification/Storage.v ===== *)
(** * Storage: the data directory, its errors, and its migrations

    [src/src/store.rs] and [src/src/store/db.rs].  A path is the list of its
    components.  A database is, to the migrator, a ledger beside whatever state
    the migrations change, which is a parameter; the marker of a running
    server, the journal mode and the wait for a database are in [Opening]. *)

From S2P Require Import Prelude Syntax Crypto Block.

Local Open Scope Z_scope.

(** What a [rusqlite] error is known by here, its [sqlite_error_code], and what a
    [std::io] one is, its [kind]: the two a caller is told to wait for, the ones
    the operations of this development come to, and a number for every other. *)
Inductive ErrorCode := DatabaseBusy | DatabaseLocked | ConstraintViolation | DiskFull | OtherCode (code : Z).
Inductive ErrorKind := EntryNotFound | EntryExists | OtherKind (kind : Z).

#[export] Instance ErrorCode_eq_dec : EqDecision ErrorCode.
Proof. solve_decision. Defined.
#[export] Instance ErrorKind_eq_dec : EqDecision ErrorKind.
Proof. solve_decision. Defined.

(** [Error]. *)
Inductive Error :=
| Sqlite (code : option ErrorCode)
| Io (kind : ErrorKind)
| Malformed (why : string)
| TooNew (name : bytes)
| InviteUnavailable
| HandleTaken
| EmailTaken
| AppPasswordTaken
| BlobMissing (cid : Cid)
| BlobMismatch (what : string) (expected got : bytes)
| WrongCid (cid : Cid)
| Key (why : CryptoError).

#[export] Instance Error_eq_dec : EqDecision Error.
Proof. solve_decision. Defined.

(** The errors the operations modelled come to by themselves: a broken
    constraint, and a name that is not there or, for a file that has to be new,
    one that is.  The disk and the databases are taken to work beyond that, so
    what another connection's lock makes of a call ([busy]) is an error the
    account layer is handed and answers, not one an operation here returns. *)
Abbreviation Constraint := (Sqlite (Some ConstraintViolation)).
Abbreviation NotFound := (Io EntryNotFound).
Abbreviation AlreadyThere := (Io EntryExists).

(** [Error::busy]: whether waiting and asking again is what would help. *)
Definition busy (self : Error) : bool :=
  match self with Sqlite (Some (DatabaseBusy | DatabaseLocked)) => true | _ => false end.

Abbreviation Path := (list bytes).

(* ------------------------------------------------------------------ *)
(** ** The data directory *)

Module Directory.
Section Directory.
Context `{Sha256}.

(** [Directory] and where each thing under it lives. *)
Record t := new { root : Path }.
Definition accounts (self : t) : Path := root self ++ [lit "account.sqlite"].
Definition sequencer (self : t) : Path := root self ++ [lit "sequencer.sqlite"].
Definition running (self : t) : Path := root self ++ [lit "running"].
Definition did_cache (self : t) : Path := root self ++ [lit "did_cache.sqlite"].
Definition actors (self : t) : Path := root self ++ [lit "actors"].
Definition actor (self : t) (did : Did.t) : Path :=
  actors self ++ [hex (take 1 (sha256 (Did.str did))); Did.str did].
Definition actor_store (self : t) (did : Did.t) : Path := actor self did ++ [lit "store.sqlite"].
Definition actor_key (self : t) (did : Did.t) : Path := actor self did ++ [lit "key"].
Definition actor_op (self : t) (did : Did.t) : Path := actor self did ++ [lit "did-op"].
Definition blobs (self : t) : Path := root self ++ [lit "blocks"].

End Directory.
End Directory.

(* ------------------------------------------------------------------ *)
(** ** Migrations *)

Module Migrate.
Section Migrate.
Context {S : Type}.

(** A migration: the name the ledger records it under, and what it does. *)
Definition Migration : Type := bytes * (S -> result Error S).

(** A database file: its state, and its ledger, if it has been made. *)
Record Db := MkDb { state : S; ledger : option (gset bytes) }.

(** [holds_ledger], [applied] and [outstanding]. *)
Definition holds_ledger (db : Db) : bool := match ledger db with Some _ => true | None => false end.
Definition applied (db : Db) : list bytes :=
  match ledger db with
  | Some names => merge_sort str_le (elements names)
  | None => []
  end.
Definition known (migrations : list Migration) (name : bytes) : bool :=
  existsb (fun m => bool_decide (fst m = name)) migrations.
Definition outstanding (applied : list bytes) (migrations : list Migration) : result Error (list bytes) :=
  match List.find (fun name => negb (known migrations name)) applied with
  | Some unknown => Err (TooNew unknown)
  | None => Ok (List.filter (fun name => negb (bool_decide (name ∈ applied))) (map fst migrations))
  end.

(** [migrate]: every outstanding migration in one transaction, so on an error
    the database is as it was.  A name out of the list of migrations is found in
    it, which is the code's [expect]; and a name the ledger has breaks its key. *)
Fixpoint run (names : list bytes) (migrations : list Migration) (s : S) (ledger : gset bytes)
  : result Error (S * gset bytes) :=
  match names with
  | [] => Ok (s, ledger)
  | name :: names =>
      match List.find (fun m => bool_decide (fst m = name)) migrations with
      | Some (_, apply) =>
          s ← apply s;
          if decide (name ∈ ledger) then Err Constraint
          else run names migrations s ({[name]} ∪ ledger)
      | None => Err Constraint
      end
  end.
Definition up_to_date (db : Db) (migrations : list Migration) : result Error bool :=
  if holds_ledger db then owed ← outstanding (applied db) migrations; Ok (bool_decide (owed = []))
  else Ok false.
Definition migrate (db : Db) (migrations : list Migration) : result Error Db :=
  done ← up_to_date db migrations;
  if done : bool then Ok db else
  let held := MkDb (state db) (Some (default ∅ (ledger db))) in
  owed ← outstanding (applied held) migrations;
  '(s, names) ← run owed migrations (state db) (default ∅ (ledger db));
  Ok (MkDb s (Some names)).

End Migrate.
Arguments Migration : clear implicits.
Arguments Db : clear implicits.
End Migrate.
