(* ===== verification/Blobs.v ===== *)
(** * Blobs: the files records point at

    [src/src/store/blobs.rs].  The file system is names over inodes, because a
    blob's upload and the name it is served under are hard links to one file:
    touching it under one name is touching it under the other.  Directories are
    made where they are wanted and are not modelled, so a directory that is not
    there is one with nothing in it.  The disk does not fail; a name that is
    not there does, as [NotFound].  What the clock reads is an argument. *)

From S2P Require Import Prelude Syntax Crypto Block Json Storage.

Local Open Scope Z_scope.

(** ** Files *)

Module Fs.

Record File := MkFile { content : bytes; modified : Z }.
Record t := MkFs { names : gmap Path positive; files : gmap positive File }.
Definition empty : t := MkFs ∅ ∅.

Definition lookup (fs : t) (path : Path) : option File := i ← names fs !! path; files fs !! i.

(** [std::fs::write] to a new name, [rename], [hard_link], [remove_file], and
    [set_modified] through an open file. Renaming one link of a file onto
    another leaves both. *)
Definition create (fs : t) (path : Path) (b : bytes) (now : Z) : t :=
  let i := fresh (dom (files fs)) in
  MkFs (<[path := i]> (names fs)) (<[i := MkFile b now]> (files fs)).
Definition rename (fs : t) (from to : Path) : result Error t :=
  match names fs !! from with
  | Some i =>
      if decide (names fs !! to = Some i) then Ok fs
      else Ok (MkFs (<[to := i]> (delete from (names fs))) (files fs))
  | None => Err NotFound
  end.
Definition remove (fs : t) (path : Path) : result Error t :=
  match names fs !! path with
  | Some _ => Ok (MkFs (delete path (names fs)) (files fs))
  | None => Err NotFound
  end.
Definition set_modified (fs : t) (path : Path) (now : Z) : result Error t :=
  match names fs !! path with
  | Some i => Ok (MkFs (names fs) (alter (fun f => MkFile (content f) now) i (files fs)))
  | None => Err NotFound
  end.

(** Every name in a directory, with its path. *)
Definition read_dir (fs : t) (directory : Path) : list bytes :=
  omap (fun e => if decide (removelast (fst e) = directory) then list.last (fst e) else None)
    (map_to_list (names fs)).

End Fs.

Section Blobs.
Context `{Sha256} `{CidText}.

Definition RAW : Z := 85.

(** [cid_for]: raw, where a block is dag-cbor. *)
Definition cid_for (b : bytes) : Cid := MkCid 1 RAW SHA2_256 (sha256 b).

(** [Blobs] and where its files are. *)
Record Blobs := MkBlobs { root : Path }.
Definition stored (self : Blobs) (did : Did.t) : Path := root self ++ [Did.str did].
Definition path (self : Blobs) (did : Did.t) (cid : Cid) : Path := stored self did ++ [cid_to_string cid].
Definition uploads (self : Blobs) (did : Did.t) : Path := root self ++ [lit "tempt"; Did.str did].
Definition quarantine_path (self : Blobs) (did : Did.t) (cid : Cid) : Path :=
  root self ++ [lit "quarantine"; Did.str did; cid_to_string cid].
Definition temp_path (self : Blobs) (did : Did.t) (key : bytes) : Path := uploads self did ++ [key].

(** [write], by way of a name of its own; [scratch] is what was drawn for it. *)
Definition write (fs : Fs.t) (at_ : Path) (b scratch : bytes) (now : Z) : result Error Fs.t :=
  let partial := removelast at_ ++ [default [] (list.last at_) ++ lit "." ++ base32 scratch] in
  Fs.rename (Fs.create fs partial b now) partial at_.

(** [Blobs::put]. *)
Definition put (self : Blobs) (fs : Fs.t) (did : Did.t) (key : bytes) (cid : Cid) (b scratch : bytes) (now : Z)
  : result Error Fs.t :=
  if decide (cid_for b <> cid) then Err (WrongCid cid) else write fs (temp_path self did key) b scratch now.

(** [Blobs::claim]: whether this call is what put it there. *)
Definition claim (self : Blobs) (fs : Fs.t) (did : Did.t) (key : bytes) (cid : Cid) (now : Z)
  : result Error (Fs.t * bool) :=
  let to := path self did cid in
  match Fs.names fs !! temp_path self did key with
  | None => Err NotFound
  | Some i =>
      match Fs.names fs !! to with
      | Some _ => fs ← Fs.set_modified fs to now; Ok (fs, false)
      | None => Ok (Fs.MkFs (<[to := i]> (Fs.names fs)) (Fs.files fs), true)
      end
  end.

(** [Blobs::delete_upload], [delete], [get], [has]. *)
Definition forget (fs : Fs.t) (at_ : Path) : Fs.t := match Fs.remove fs at_ with Ok fs => fs | Err _ => fs end.
Definition delete_upload (self : Blobs) (fs : Fs.t) (did : Did.t) (key : bytes) : Fs.t :=
  forget fs (temp_path self did key).
Definition delete (self : Blobs) (fs : Fs.t) (did : Did.t) (cid : Cid) : Fs.t := forget fs (path self did cid).
Definition get (self : Blobs) (fs : Fs.t) (did : Did.t) (cid : Cid) : result Error bytes :=
  match Fs.lookup fs (path self did cid) with Some f => Ok (Fs.content f) | None => Err NotFound end.
Definition has (self : Blobs) (fs : Fs.t) (did : Did.t) (cid : Cid) : bool :=
  bool_decide (is_Some (Fs.names fs !! path self did cid)).

(** [Blobs::quarantine] and [unquarantine]. *)
Definition quarantine (self : Blobs) (fs : Fs.t) (did : Did.t) (cid : Cid) : result Error Fs.t :=
  Fs.rename fs (path self did cid) (quarantine_path self did cid).
Definition unquarantine (self : Blobs) (fs : Fs.t) (did : Did.t) (cid : Cid) : result Error Fs.t :=
  Fs.rename fs (quarantine_path self did cid) (path self did cid).

(** [sweep], [sweep_uploads] and [sweep_stored]: what nothing holds and nothing
    has written since the cutoff. *)
Fixpoint sweep_names (fs : Fs.t) (directory : Path) (held : gset bytes) (cutoff : Z) (entries : list bytes)
  : Fs.t * list bytes :=
  match entries with
  | [] => (fs, [])
  | name :: entries =>
      if decide (name ∈ held) then sweep_names fs directory held cutoff entries else
      match Fs.lookup fs (directory ++ [name]) with
      | None => sweep_names fs directory held cutoff entries
      | Some f =>
          if cutoff <=? Fs.modified f then sweep_names fs directory held cutoff entries else
          let '(fs, swept) := sweep_names (forget fs (directory ++ [name])) directory held cutoff entries in
          (fs, name :: swept)
      end
  end.
Definition sweep (fs : Fs.t) (directory : Path) (held : gset bytes) (cutoff : Z) : Fs.t * list bytes :=
  sweep_names fs directory held cutoff (Fs.read_dir fs directory).
Definition sweep_uploads (self : Blobs) (fs : Fs.t) (did : Did.t) := sweep fs (uploads self did).
Definition sweep_stored (self : Blobs) (fs : Fs.t) (did : Did.t) := sweep fs (stored self did).

End Blobs.
