(* ===== verification/Paging.v ===== *)
(** * Paging: lists read a page at a time

    The stores answer long lists in pages: rows in an order of their own, at
    most so many, from a mark on.  Here is the one argument behind all of them.
    Where the mark of a row picks out the rows after it ([page_after]), walking
    from page to page reads every row once, in order, and ends
    ([walk_reads_all]). *)

From S2P Require Import Prelude.

(** ** Rows in order *)

Lemma filter_Permutation {A} (f : A -> bool) (l l' : list A) :
  l ≡ₚ l' -> List.filter f l ≡ₚ List.filter f l'.
Proof.
  induction 1 as [|x l l' Hl IH|x y l|l1 l2 l3 _ IH1 _ IH2]; cbn.
  - done.
  - destruct (f x); [by constructor|done].
  - destruct (f x), (f y); [constructor|done..].
  - by etrans.
Qed.

Lemma filter_StronglySorted {A} (R : relation A) (f : A -> bool) (l : list A) :
  StronglySorted R l -> StronglySorted R (List.filter f l).
Proof.
  induction 1 as [|x l Hl IH Hf]; cbn; [constructor|].
  destruct (f x); [|done]. constructor; [done|].
  rewrite Forall_forall in *; intros y Hy; apply Hf.
  apply list_elem_of_In, filter_In in Hy as [Hy _]. by apply list_elem_of_In.
Qed.

Lemma filter_all {A} (f : A -> bool) (l : list A) : Forall (fun x => f x = true) l -> List.filter f l = l.
Proof. induction 1 as [|x l Hx Hl IH]; cbn; [done|]. by rewrite Hx, IH. Qed.

Lemma filter_none {A} (f : A -> bool) (l : list A) : Forall (fun x => f x = false) l -> List.filter f l = [].
Proof. induction 1 as [|x l Hx Hl IH]; cbn; [done|]. by rewrite Hx. Qed.

Section Sort.
Context {A : Type} (R : relation A) `{!RelDecision R, !Transitive R, !Total R}.

(** An order that tells the rows of [l] apart. *)
Definition distinguishes (l : list A) : Prop := forall x y, x ∈ l -> y ∈ l -> R x y -> R y x -> x = y.

Lemma sort_filter f l : distinguishes l -> merge_sort R (List.filter f l) = List.filter f (merge_sort R l).
Proof.
  intros Hd; apply (StronglySorted_unique_strong R).
  - intros x y Hx Hy; apply Hd; [rewrite merge_sort_Permutation in Hx|].
    + apply list_elem_of_In, filter_In in Hx as [Hx _]. by apply list_elem_of_In.
    + apply list_elem_of_In, filter_In in Hy as [Hy _]. apply list_elem_of_In in Hy.
      by rewrite merge_sort_Permutation in Hy.
  - apply StronglySorted_merge_sort; apply _.
  - apply filter_StronglySorted, StronglySorted_merge_sort; apply _.
  - rewrite merge_sort_Permutation. apply filter_Permutation. by rewrite merge_sort_Permutation.
Qed.

(** The rows a mark leaves are the rows after the one it marks. *)
Lemma page_after (f : A -> bool) l i x :
  NoDup l -> distinguishes l -> merge_sort R l !! i = Some x ->
  (forall y, y ∈ l -> f y = true <-> R x y /\ y <> x) ->
  merge_sort R (List.filter f l) = drop (S i) (merge_sort R l).
Proof.
  intros Hnd Hd Hi Hf; rewrite sort_filter by done.
  assert (StronglySorted R (merge_sort R l)) as Hs by (apply StronglySorted_merge_sort; apply _).
  assert (NoDup (merge_sort R l)) as Hn by (by rewrite merge_sort_Permutation).
  assert (forall y, y ∈ merge_sort R l -> y ∈ l) as Hin by (intros y; by rewrite merge_sort_Permutation).
  pose proof (take_drop_middle _ _ _ Hi) as E; symmetry in E.
  set (l1 := take i _) in E; set (l2 := drop (S i) _) in *; rewrite E in Hs, Hn; rewrite E.
  apply StronglySorted_app in Hs as (H12 & _ & Hs2); apply StronglySorted_cons in Hs2 as [Hx _].
  apply NoDup_app in Hn as (_ & Hn12 & Hn2); apply NoDup_cons in Hn2 as [Hxn _].
  rewrite List.filter_app; cbn [List.filter].
  assert (x ∈ l) as Hxl by (by eapply Hin, list_elem_of_lookup_2).
  assert (forall y, y ∈ l1 -> y ∈ l) as Hl1 by (intros y Hy; apply Hin; rewrite <- (take_drop i (merge_sort R l)); apply elem_of_app; by left).
  assert (forall y, y ∈ l2 -> y ∈ l) as Hl2 by (intros y Hy; apply Hin; rewrite <- (take_drop (S i) (merge_sort R l)); apply elem_of_app; by right).
  assert (f x = false) as ->.
  { apply not_true_iff_false; intros [_ Hne]%(Hf x Hxl). done. }
  rewrite (filter_none f l1), (filter_all f l2); [done| |].
  - apply Forall_forall; intros y Hy. apply (Hf y (Hl2 y Hy)).
    rewrite Forall_forall in Hx; split; [by apply Hx|by intros ->].
  - apply Forall_forall; intros y Hy. apply not_true_iff_false; intros [Hxy Hne]%(Hf y (Hl1 y Hy)).
    apply Hne, Hd; [by apply Hl1|done| |done]. apply H12; [done|left].
Qed.

End Sort.

(* ------------------------------------------------------------------ *)
(** ** From page to page *)

Section Walk.
Context {A M : Type} (page : option M -> list A) (mark : A -> M) (limit : nat).

(** Until a page comes short, each page starts at the last row of the one
    before. *)
Fixpoint walk (fuel : nat) (from : option M) : list A :=
  match fuel with
  | O => []
  | S fuel =>
      let rows := page from in
      match last rows with
      | Some r => if length rows =? limit then rows ++ walk fuel (Some (mark r)) else rows
      | None => []
      end
  end.

Context (all : list A) (Hlimit : 0 < limit).
Context (Hfirst : page None = take limit all).
Context (Hnext : forall i x, all !! i = Some x -> page (Some (mark x)) = take limit (drop (S i) all)).

Lemma walk_rest fuel : forall from n,
  page from = take limit (drop n all) -> length all - n < fuel -> walk fuel from = drop n all.
Proof.
  induction fuel as [|fuel IH]; intros from n Hp Hf; [lia|]; cbn [walk]; rewrite Hp.
  destruct (decide (length all <= n)) as [Hle|Hgt].
  { rewrite drop_ge by done. by rewrite take_nil. }
  assert (length (take limit (drop n all)) = limit `min` (length all - n)) as Hlen
    by (by rewrite length_take, length_drop).
  destruct (last (take limit (drop n all))) as [r|] eqn:El.
  2: { apply last_None in El; rewrite El in Hlen; cbn in Hlen; lia. }
  rewrite Hlen; destruct (Nat.eqb_spec (limit `min` (length all - n)) limit) as [E|E].
  - rewrite last_lookup, Hlen in El.
    apply lookup_take_Some in El as [El _]; rewrite lookup_drop in El.
    rewrite (IH _ (n + limit)); [|rewrite (Hnext _ _ El); f_equal; f_equal; lia|lia].
    by rewrite <- drop_drop, take_drop.
  - rewrite take_ge; [done|]. rewrite length_drop; lia.
Qed.

(** Every row, once, in order; as many turns as there are rows, and one more,
    are enough. *)
Lemma walk_reads_all fuel : length all < fuel -> walk fuel None = all.
Proof. intros Hf; rewrite (walk_rest fuel None 0); [by rewrite drop_0|by rewrite drop_0|lia]. Qed.

End Walk.
