(* ===== verification/Opening.v ===== *)
(** * Opening: a server taking its data directory, and a database opened

    [Running] of [src/src/store.rs], and [open], [prepare] and [waiting] of
    [src/src/store/db.rs] around the migrator of [Storage].  What a pragma answers
    is an argument; the clock is one too, and moves on while the code sleeps. *)

From S2P Require Import Prelude Syntax Crypto Block Ip Storage Blobs Paging.
From Stdlib Require Import Lia.

Local Open Scope Z_scope.

(* ------------------------------------------------------------------ *)
(** ** The marker of a running server *)

Section Running.
Context `{Sha256}.

(** [Running::take], [std::fs::write] over whatever is there, and [Drop]. *)
Record Running := MkRunning { marker : Path }.
Definition write_file (fs : Fs.t) (path : Path) (b : bytes) (now : Z) : Fs.t :=
  match Fs.names fs !! path with
  | Some i => Fs.MkFs (Fs.names fs) (<[i := Fs.MkFile b now]> (Fs.files fs))
  | None => Fs.create fs path b now
  end.
Definition take_running (fs : Fs.t) (directory : Directory.t) (pid now : Z) : Fs.t * (Running * bool) :=
  let path := Directory.running directory in
  let held := bool_decide (is_Some (Fs.names fs !! path)) in
  (write_file fs path (decimal pid) now, (MkRunning path, held)).
Definition drop_running (self : Running) (fs : Fs.t) : Fs.t :=
  match Fs.remove fs (marker self) with Ok fs => fs | Err _ => fs end.

End Running.

(* ------------------------------------------------------------------ *)
(** ** Waiting for a database *)

(** [BUSY_TIMEOUT] and the sleep between tries, in nanoseconds. *)
Definition BUSY_TIMEOUT : Z := 5 * 1000000000.
Definition PAUSE : Z := 5 * 1000000.

(** What a try came to: done, refused because somebody has the database, or
    failed. *)
Inductive Tried (E : Type) := Done | Busy (why : E) | Failed (why : E).
Arguments Done {E}.
Arguments Busy {E}.
Arguments Failed {E}.

Section Waiting.
Context {E : Type} (work : nat -> Tried E) (now : nat -> Z).

(** [waiting]: the [n]th try, and the clock after it. *)
Fixpoint waiting_from (fuel n : nat) (until : Z) : option (result E unit) :=
  match fuel with
  | O => None
  | S fuel =>
      match work n with
      | Done => Some (Ok tt)
      | Failed why => Some (Err why)
      | Busy why => if until <=? now n then Some (Err why) else waiting_from fuel (S n) until
      end
  end.
Definition waiting (started : Z) (fuel : nat) : option (result E unit) := waiting_from fuel 0 (started + BUSY_TIMEOUT).
End Waiting.

(* ------------------------------------------------------------------ *)
(** ** Opening one *)

Section Open.
Context {S : Type}.
Abbreviation Db := (Migrate.Db S).
Abbreviation Migration := (Migrate.Migration S).

(** A connection: what it waits for, the file's journal, whether its keys are
    looked after, and the database. *)
Record Connection := MkConnection { busy_timeout : Z; journal : bytes; foreign_keys : bool; db : Db }.

(** [prepare]: [set_wal] is what asking for the journal comes to, try by try. *)
Definition WAL : bytes := lit "wal".
Definition prepare (set_wal : nat -> Tried Error) (now : nat -> Z) (started : Z) (fuel : nat)
    (self : Connection) (migrations : list Migration) : option (result Error Connection) :=
  waited ← (if bool_decide (map to_ascii_lowercase (journal self) = WAL) then Some (Ok tt) else waiting set_wal now started fuel);
  Some (_ ← waited;
        d ← Migrate.migrate (db self) migrations;
        Ok (MkConnection BUSY_TIMEOUT (if bool_decide (map to_ascii_lowercase (journal self) = WAL) then journal self else WAL) true d)).
End Open.
Arguments Connection : clear implicits.

(* ================================================================== *)
(** * Facts *)

Section Facts.
Context {E : Type} (work : nat -> Tried E) (now : nat -> Z) (started : Z).
Context (Hstart : started <= now 0%nat) (Hsleep : forall n, now n + PAUSE <= now (S n)).

Definition busy_at (n : nat) : Prop := exists why, work n = Busy why.

(** How the wait ends: at the [n]th try. *)
Definition ends_at (n : nat) (r : result E unit) : Prop :=
  match work n with
  | Done => r = Ok tt
  | Failed why => r = Err why
  | Busy why => r = Err why /\ started + BUSY_TIMEOUT <= now n
  end.

Lemma clock_moves n : started + Z.of_nat n * PAUSE <= now n.
Proof. induction n as [|n IH]; [lia|]. specialize (Hsleep n). lia. Qed.

Lemma waiting_from_ends fuel : forall n, (1000 < n + fuel)%nat -> (n <= 1000)%nat ->
  exists r m, waiting_from work now fuel n (started + BUSY_TIMEOUT) = Some r /\ (n <= m <= 1000)%nat
    /\ (forall k, (n <= k < m)%nat -> busy_at k /\ now k < started + BUSY_TIMEOUT) /\ ends_at m r.
Proof.
  induction fuel as [|fuel IH]; intros n Hf Hn; [lia|]; cbn [waiting_from].
  destruct (work n) as [|why|why] eqn:Ew.
  - exists (Ok tt), n; split_and!; [done|lia|lia|intros; lia|unfold ends_at; by rewrite Ew].
  - destruct (Z.leb_spec (started + BUSY_TIMEOUT) (now n)) as [Hl|Hl].
    + exists (Err why), n; split_and!; [done|lia|lia|intros; lia|unfold ends_at; by rewrite Ew].
    + assert (n <> 1000)%nat by (intros ->; pose proof (clock_moves 1000) as Hc; unfold PAUSE, BUSY_TIMEOUT in *; lia).
      destruct (IH (S n)) as (r & m & Hw & Hm & Hall & He); [lia|lia|]. exists r, m; split_and!; [done|lia|lia| |done].
      intros k Hk; destruct (decide (k = n)) as [->|]; [split; [by exists why|done]|apply Hall; lia].
  - exists (Err why), n; split_and!; [done|lia|lia|intros; lia|unfold ends_at; by rewrite Ew].
Qed.

(** C29 (termination). Waiting for a database ends. Where a pause lasts at least as
    long as it was asked for, a thousand and one tries are enough; every try
    before the last found the database taken, with time left; and the last was
    done, failed for a reason of its own, or ran out of time. *)
Theorem waiting_ends fuel : (1000 < fuel)%nat ->
  exists r m, waiting work now started fuel = Some r /\ (m <= 1000)%nat
    /\ (forall k, (k < m)%nat -> busy_at k /\ now k < started + BUSY_TIMEOUT) /\ ends_at m r.
Proof.
  intros Hf; destruct (waiting_from_ends fuel 0) as (r & m & Hw & Hm & Hall & He); [lia|lia|].
  exists r, m; split_and!; [done|lia| |done]. intros k Hk; apply Hall; lia.
Qed.
End Facts.

(* ------------------------------------------------------------------ *)
(** ** The schema *)

Section Schema.
Context {S : Type}.
Abbreviation Db := (Migrate.Db S).
Abbreviation Migration := (Migrate.Migration S).
Implicit Types (ms : list Migration) (d : Db).

(** Migrations one after another, up to the first that fails. *)
Fixpoint one_by_one ms (s : S) : result Error S :=
  match ms with
  | [] => Ok s
  | (_, apply) :: ms => s ← apply s; one_by_one ms s
  end.
Definition recorded d : gset bytes := default ∅ (Migrate.ledger d).
Definition owed d ms : list Migration := List.filter (fun m => negb (bool_decide (fst m ∈ recorded d))) ms.

Lemma applied_elem d name : name ∈ Migrate.applied d <-> name ∈ recorded d.
Proof.
  unfold Migrate.applied, recorded; destruct (Migrate.ledger d) as [names|]; cbn.
  - by rewrite merge_sort_Permutation, elem_of_elements.
  - split; intros Hn; [by apply not_elem_of_nil in Hn|set_solver].
Qed.

Lemma owed_names d ms (names : list bytes) : (forall name, name ∈ names <-> name ∈ recorded d) ->
  List.filter (fun name => negb (bool_decide (name ∈ names))) (map fst ms) = map fst (owed d ms).
Proof.
  intros Hn; unfold owed; induction ms as [|[name f] ms IH]; cbn [map List.filter fst]; [done|].
  rewrite (bool_decide_ext _ _ (Hn name)). case_bool_decide; cbn [negb map fst]; by rewrite IH.
Qed.

Lemma find_migration ms name f : NoDup (map fst ms) -> (name, f) ∈ ms ->
  List.find (fun m => bool_decide (fst m = name)) ms = Some (name, f).
Proof.
  induction ms as [|[name' f'] ms IH]; cbn [map fst List.find]; [intros _ Hn; by apply not_elem_of_nil in Hn|].
  intros [Hn' Hn]%NoDup_cons [[= -> ->]|Hin]%elem_of_cons; [by rewrite bool_decide_true|].
  rewrite bool_decide_false; [by apply IH|]. intros ->. apply Hn'. change name with (fst (name, f)). by apply list_elem_of_fmap_2.
Qed.

Lemma run_owed ms todo : forall s (names : gset bytes), NoDup (map fst ms) -> NoDup (map fst todo) ->
  (forall m, m ∈ todo -> m ∈ ms /\ fst m ∉ names) ->
  Migrate.run (map fst todo) ms s names = (s ← one_by_one todo s; Ok (s, list_to_set (map fst todo) ∪ names)).
Proof.
  induction todo as [|[name f] todo IH]; intros s names Hms Hnd Hin; cbn [map fst Migrate.run one_by_one].
  - cbn. by rewrite (left_id_L ∅ (∪)).
  - destruct (Hin (name, f)) as [Hm Hn]; [by left|]. rewrite (find_migration ms name f) by done.
    cbn [map fst] in Hnd; apply NoDup_cons in Hnd as [Hname Hnd].
    destruct (f s) as [s'|e]; cbn [mbind result_bind]; [|done]. rewrite decide_False by done.
    rewrite IH; [|done|done|].
    + destruct (one_by_one todo s') as [s2|]; cbn [mbind result_bind]; [|done]. do 2 f_equal. cbn. by rewrite (assoc_L (∪)), (comm_L (∪) _ {[name]}).
    + intros m Hm'; destruct (Hin m) as [H1 H2]; [by right|]. split; [done|]. intros [E%elem_of_singleton|?]%elem_of_union; [|done].
      apply Hname. rewrite <- E. by apply list_elem_of_fmap_2.
Qed.

Lemma owed_all d ms : (forall name, name ∈ recorded d -> name ∈ map fst ms) ->
  list_to_set (map fst (owed d ms)) ∪ recorded d = (list_to_set (map fst ms) : gset bytes).
Proof.
  intros Hk; apply set_eq; intros name. rewrite elem_of_union, !elem_of_list_to_set. split.
  - intros [(m & -> & Hm)%list_elem_of_fmap|?]; [|auto]. apply list_elem_of_In, filter_In in Hm as [Hm _].
    apply list_elem_of_fmap_2. by apply list_elem_of_In.
  - intros (m & -> & Hm)%list_elem_of_fmap. destruct (decide (fst m ∈ recorded d)) as [|Hn]; [auto|left].
    apply list_elem_of_fmap_2, list_elem_of_In, filter_In. split; [by apply list_elem_of_In|]. by rewrite bool_decide_false.
Qed.

Lemma known_elem ms name : Migrate.known ms name = true <-> name ∈ map fst ms.
Proof.
  unfold Migrate.known; rewrite existsb_exists. split.
  - intros (m & Hm & <-%bool_decide_eq_true). apply list_elem_of_fmap_2. by apply list_elem_of_In.
  - intros (m & -> & Hm)%list_elem_of_fmap. exists m; split; [by apply list_elem_of_In|]. by apply bool_decide_eq_true.
Qed.

Lemma owed_nodup d ms : NoDup (map fst ms) -> NoDup (map fst (owed d ms)).
Proof.
  unfold owed; induction ms as [|m ms IH]; cbn [List.filter map]; [done|]. intros [Hn Hms]%NoDup_cons.
  destruct (negb _); [|by apply IH]. cbn [map]; constructor; [|by apply IH].
  intros (m' & E & Hm)%list_elem_of_fmap. apply Hn. rewrite E. apply list_elem_of_In, filter_In in Hm as [Hm _].
  by apply list_elem_of_fmap_2, list_elem_of_In.
Qed.

(** The migrator, in one equation. *)
Lemma migrate_spec d ms : NoDup (map fst ms) ->
  Migrate.migrate d ms = match List.find (fun name => negb (Migrate.known ms name)) (Migrate.applied d) with
    | Some unknown => Err (TooNew unknown)
    | None => s ← one_by_one (owed d ms) (Migrate.state d); Ok (Migrate.MkDb s (Some (list_to_set (map fst ms))))
    end.
Proof.
  intros Hnd. unfold Migrate.migrate, Migrate.up_to_date, Migrate.outstanding.
  assert (forall s l, Migrate.applied (Migrate.MkDb (S := S) s (Some l)) = merge_sort str_le (elements l)) as Ha by done.
  assert (Migrate.applied (Migrate.MkDb (Migrate.state d) (Some (default ∅ (Migrate.ledger d)))) = Migrate.applied d) as E.
  { unfold Migrate.applied; cbn. by destruct (Migrate.ledger d). }
  rewrite E. destruct (List.find _ (Migrate.applied d)) as [unknown|] eqn:Ef.
  { destruct (Migrate.holds_ledger d); done. }
  rewrite (owed_names d ms _ (applied_elem d)).
  assert (forall name, name ∈ recorded d -> name ∈ map fst ms) as Hknown.
  { intros name Hn. apply known_elem. apply applied_elem, list_elem_of_In in Hn.
    by apply (find_none _ _ Ef), negb_false_iff in Hn. }
  cbn [mbind result_bind].
  destruct (Migrate.holds_ledger d && bool_decide (map fst (owed d ms) = [])) eqn:Edone.
  - apply andb_true_iff in Edone as [Hl Ho]. rewrite Hl, Ho. cbn [mbind result_bind].
    apply bool_decide_eq_true in Ho. pose proof (owed_all d ms Hknown) as Hall. rewrite Ho in Hall.
    destruct (owed d ms); [|done]. cbn. cbn in Hall. rewrite (left_id_L ∅ (∪)) in Hall.
    unfold recorded, Migrate.holds_ledger in *. destruct d as [s [l|]]; [|done]. cbn in *. by rewrite Hall.
  - transitivity ('(s, names) ← Migrate.run (map fst (owed d ms)) ms (Migrate.state d) (recorded d); Ok (Migrate.MkDb s (Some names))).
    { unfold recorded. destruct (Migrate.holds_ledger d); cbn [andb] in Edone; [by rewrite Edone|done]. }
    rewrite run_owed; [|done|by apply owed_nodup|].
    + destruct (one_by_one _ _) as [s|]; cbn [mbind result_bind]; [|done]. by rewrite owed_all.
    + intros m Hm. apply list_elem_of_In, filter_In in Hm as [Hm Hn]. split; [by apply list_elem_of_In|].
      apply negb_true_iff in Hn. by apply bool_decide_eq_false in Hn.
Qed.

(** C28 (equivalence). Opening a database is running what it owes. The migrations
    its ledger does not record run once each, in the order they are listed, and
    all of them are then recorded; one that fails leaves the file as it was; a
    file another server has moved past is refused by the first name this one does not know;
    and a file that was opened opens again as it is, without a write. *)
Theorem a_database_is_brought_to_the_schema d ms : NoDup (map fst ms) ->
  match Migrate.migrate d ms with
  | Ok d' =>
      one_by_one (owed d ms) (Migrate.state d) = Ok (Migrate.state d')
      /\ Migrate.ledger d' = Some (list_to_set (map fst ms))
      /\ Migrate.up_to_date d' ms = Ok true /\ Migrate.migrate d' ms = Ok d'
  | Err e =>
      (exists name, e = TooNew name /\ name ∈ recorded d /\ name ∉ map fst ms)
      \/ one_by_one (owed d ms) (Migrate.state d) = Err e
  end.
Proof.
  intros Hnd; rewrite (migrate_spec d ms Hnd).
  destruct (List.find _ (Migrate.applied d)) as [unknown|] eqn:Ef.
  { left. apply find_some in Ef as [Hin Hk]. exists unknown; split; [done|]. split.
    - by apply applied_elem, list_elem_of_In.
    - intros Hm%known_elem. by rewrite Hm in Hk. }
  destruct (one_by_one _ _) as [s|e] eqn:Eo; cbn [mbind result_bind]; [|by right].
  set (d' := Migrate.MkDb s (Some (list_to_set (map fst ms)))).
  assert (forall name, name ∈ recorded d' <-> name ∈ map fst ms) as Hr.
  { intros name; unfold recorded, d'; cbn. by rewrite elem_of_list_to_set. }
  assert (Migrate.up_to_date d' ms = Ok true) as Hu.
  { unfold Migrate.up_to_date, Migrate.outstanding; cbn [Migrate.holds_ledger Migrate.ledger d'].
    destruct (List.find _ (Migrate.applied d')) as [unknown|] eqn:Ef'.
    { apply find_some in Ef' as [Hin Hk]. apply list_elem_of_In, applied_elem, Hr, known_elem in Hin. by rewrite Hin in Hk. }
    cbn [mbind result_bind]. rewrite (owed_names d' ms _ (applied_elem d')). f_equal. apply bool_decide_eq_true.
    unfold owed. rewrite filter_none; [done|]. apply Forall_forall; intros m Hm.
    apply negb_false_iff, bool_decide_eq_true, Hr. by apply list_elem_of_fmap_2. }
  split_and!; [done|done|done|]. unfold Migrate.migrate; by rewrite Hu.
Qed.
End Schema.

(* ------------------------------------------------------------------ *)
(** ** At a concrete database *)

Module Sample.
(** Two migrations, one of them already recorded. *)
Definition migrations : list (Migrate.Migration (list Z)) := [(lit "001", fun s => Ok (1 :: s)); (lit "002", fun s => Ok (2 :: s))].
Definition half_way : Migrate.Db (list Z) := Migrate.MkDb [1] (Some {[lit "001"]}).
Lemma names_apart : NoDup (map fst migrations).
Proof. apply (bool_decide_unpack _). vm_compute. exact I. Qed.
(** A database somebody has for three tries, and a clock that ticks with the
    pauses. *)
Definition taken (n : nat) : Tried Error := if (n <? 3)%nat then Busy (Sqlite (Some DatabaseBusy)) else Done.
Definition clock (n : nat) : Z := Z.of_nat n * PAUSE.
End Sample.

Lemma waiting_ends_witness : exists r m, waiting Sample.taken Sample.clock 0 1001 = Some r /\ (m <= 1000)%nat
  /\ (forall k, (k < m)%nat -> busy_at Sample.taken k /\ Sample.clock k < 0 + BUSY_TIMEOUT) /\ ends_at Sample.taken Sample.clock 0 m r.
Proof.
  assert (0 <= Sample.clock 0) as H0 by (vm_compute; discriminate).
  assert (forall n, Sample.clock n + PAUSE <= Sample.clock (S n)) as Hs by (intros n; unfold Sample.clock; lia).
  assert (1000 < 1001)%nat as Hf by (apply Nat.ltb_lt; reflexivity).
  pose proof (waiting_ends Sample.taken Sample.clock 0 H0 Hs 1001 Hf) as Hx. exact Hx.
Defined.

Lemma a_database_is_brought_to_the_schema_witness :
  exists d, Migrate.migrate Sample.half_way Sample.migrations = Ok d /\ Migrate.state d = [2; 1]
    /\ Migrate.migrate d Sample.migrations = Ok d.
Proof.
  pose proof (a_database_is_brought_to_the_schema Sample.half_way Sample.migrations Sample.names_apart) as Hx.
  eexists; split; [vm_compute; reflexivity|]. split; [reflexivity|]. vm_compute in Hx. apply Hx.
Defined.
