(* ===== verification/DidCache.v ===== *)
(** * DidCache: resolved documents, held so nobody is asked twice

    [src/src/store/did_cache.rs]: one table, a row for an identifier.  The time is
    the clock's, in milliseconds; that SQLite answers at all is not modelled. *)

From S2P Require Import Prelude Syntax.

Local Open Scope Z_scope.

Module DidCache.

(** [Cached], and the table. *)
Record Cached := MkCached { document : bytes; updated_at : Z }.
Definition t : Type := gmap bytes Cached.
Definition memory : t := ∅.

(** [put], [get], [forget] and [clear]. *)
Definition put (self : t) (now : Z) (did : Did.t) (document : bytes) : t :=
  <[Did.str did := MkCached document now]> self.
Definition get (self : t) (did : Did.t) : option Cached := self !! Did.str did.
Definition forget (self : t) (did : Did.t) : t := delete (Did.str did) self.
Definition clear (self : t) : t := ∅.

(** What is done to a cache, and what a list of it leaves. *)
Inductive Change := Put (now : Z) (did : Did.t) (document : bytes) | Forget (did : Did.t) | Clear.
Definition change (self : t) (c : Change) : t :=
  match c with
  | Put now did document => put self now did document
  | Forget did => forget self did
  | Clear => clear self
  end.

(** The last word on an identifier, read back through everything done. *)
Fixpoint last_word (done : list Change) (did : Did.t) : option Cached :=
  match done with
  | [] => None
  | Put now did' document :: rest => if decide (did' = did) then Some (MkCached document now) else last_word rest did
  | Forget did' :: rest => if decide (did' = did) then None else last_word rest did
  | Clear :: rest => None
  end.

Lemma str_inj (a b : Did.t) : Did.str a = Did.str b -> a = b.
Proof. destruct a, b; cbn; congruence. Qed.

(** A cache answers with the last word. Whatever was put, forgotten and cleared
    and in whatever order, what is held for an identifier is what was put last,
    with the time it was put, unless something took it away since. *)
Theorem cache_has_the_last_word cs did : get (fold_left change cs memory) did = last_word (rev cs) did.
Proof.
  induction cs as [|c cs IH] using rev_ind; [by apply lookup_empty|].
  rewrite fold_left_app, rev_app_distr; cbn. unfold get in *.
  destruct c as [now did' document|did'|]; cbn [change last_word]; unfold put, forget, clear; [..|by apply lookup_empty]; case_decide as E.
  - subst. apply lookup_insert_eq.
  - etrans; [apply lookup_insert_ne; intros ?%str_inj; congruence|exact IH].
  - subst. apply lookup_delete_eq.
  - etrans; [apply lookup_delete_ne; intros ?%str_inj; congruence|exact IH].
Qed.

End DidCache.
