(* ===== verification/Turns.v ===== *)
(** * Turns: whose turn it is to write to which account, and how long a check takes

    Of [src/src/account.rs], the parts that are about waiting.  [Writing] hands an
    account's writers the lock they queue on and forgets the locks nobody holds;
    a [World] is that table, the locks it handed out, how many hold each, and
    which request is where.  A lock is [tokio]'s: one request has it at a time,
    and dropping what was handed out lets go of it.  [remaining] is the wait that
    rounds a sign-in up to whole budgets. *)

From S2P Require Import Prelude Syntax.
From Stdlib Require Import Lia.

(* ------------------------------------------------------------------ *)
(** ** Queuing for an account *)

(** Where a request is: queued on a lock, or writing under it. *)
Inductive Stage := Queued | Writing.
#[export] Instance stage_eq_dec : EqDecision Stage.
Proof. solve_decision. Defined.

(** [Writing], the locks alive under it by how many hold each, and the requests. *)
Record World := MkWorld {
  held : gmap bytes nat;
  strong : gmap nat nat;
  made : nat;
  requests : gmap nat (bytes * nat * Stage)
}.
Definition fresh : World := MkWorld ∅ ∅ 0 ∅.

(** [Arc::strong_count], [Weak::upgrade], and an [Arc] dropped. *)
Definition count (w : World) (lock : nat) : nat := default 0 (strong w !! lock).
Definition upgrade (w : World) (lock : nat) : option nat := if count w lock =? 0 then None else Some lock.
Definition holding (lock : nat) (w : World) : World :=
  MkWorld (held w) (<[lock := S (count w lock)]> (strong w)) (made w) (requests w).
Definition dropping (lock : nat) (w : World) : World :=
  MkWorld (held w) (<[lock := pred (count w lock)]> (strong w)) (made w) (requests w).

(** [Writing::turn]. *)
Definition turn (did : bytes) (w : World) : World * nat :=
  match lock ← held w !! did; upgrade w lock with
  | Some lock => (holding lock w, lock)
  | None =>
      let kept := filter (fun e => 0 < count w (snd e)) (held w) in
      let lock := made w in
      (holding lock (MkWorld (<[did := lock]> kept) (strong w) (S lock) (requests w)), lock)
  end.

(** A request asks for its turn, is given it once nobody has the lock, and lets
    go of it, having written or having hung up. *)
Definition placed (r : nat) (at_ : bytes * nat * Stage) (w : World) : World :=
  MkWorld (held w) (strong w) (made w) (<[r := at_]> (requests w)).
Definition gone (r : nat) (w : World) : World := MkWorld (held w) (strong w) (made w) (delete r (requests w)).
Definition locked (w : World) (lock : nat) : Prop := exists r did, requests w !! r = Some (did, lock, Writing).

Inductive step (w : World) : World -> Prop :=
| Ask r did : requests w !! r = None ->
    step w (let '(w', lock) := turn did w in placed r (did, lock, Queued) w')
| Enter r did lock : requests w !! r = Some (did, lock, Queued) -> ~ locked w lock ->
    step w (placed r (did, lock, Writing) w)
| Leave r did lock stage : requests w !! r = Some (did, lock, stage) ->
    step w (dropping lock (gone r w)).
Definition reachable (w : World) : Prop := rtc step fresh w.

(* ------------------------------------------------------------------ *)
(** ** The table tells the truth *)

Definition holders (w : World) (lock : nat) : gmap nat (bytes * nat * Stage) :=
  filter (fun e => snd (fst (snd e)) = lock) (requests w).

(** The table, against the requests: what is handed out is counted, a request's
    lock is the one the table has for its account, and no two accounts share
    one. *)
Record sound (w : World) : Prop := {
  sound_count : forall lock, count w lock = size (holders w lock);
  sound_held : forall r did lock stage, requests w !! r = Some (did, lock, stage) -> held w !! did = Some lock;
  sound_apart : forall did did' lock, held w !! did = Some lock -> held w !! did' = Some lock -> did = did';
  sound_made : forall did lock, held w !! did = Some lock -> lock < made w;
  sound_alone : forall r r' did did' lock, requests w !! r = Some (did, lock, Writing) ->
    requests w !! r' = Some (did', lock, Writing) -> r = r'
}.

Lemma holders_placed w r did lock stage l : requests w !! r = None ->
  size (holders (placed r (did, lock, stage) w) l) = (if decide (l = lock) then S (size (holders w l)) else size (holders w l)).
Proof.
  intros Hr; unfold holders; cbn [requests placed]. case_decide as E.
  - subst. rewrite map_filter_insert_True by done. rewrite map_size_insert_None; [done|].
    apply map_lookup_filter_None. by left.
  - rewrite map_filter_insert_False by (cbn; congruence). by rewrite delete_id.
Qed.

Lemma holders_gone w r did lock stage l : requests w !! r = Some (did, lock, stage) ->
  size (holders (gone r w) l) = (if decide (l = lock) then pred (size (holders w l)) else size (holders w l)).
Proof.
  intros Hr; unfold holders; cbn [requests gone]. rewrite map_filter_delete. case_decide as E.
  - subst. rewrite map_size_delete_Some; [done|]. eexists; by apply map_lookup_filter_Some.
  - rewrite delete_id; [done|]. apply map_lookup_filter_None; right. intros x E'. rewrite Hr in E'; injection E' as <-. cbn; congruence.
Qed.

Lemma holders_same w w' l : requests w = requests w' -> holders w l = holders w' l.
Proof. unfold holders; by intros ->. Qed.

Lemma count_holding w lock l : count (holding lock w) l = if decide (l = lock) then S (count w l) else count w l.
Proof. unfold count; cbn. case_decide as E; [subst; by rewrite lookup_insert_eq|by rewrite lookup_insert_ne]. Qed.

Lemma held_counted w r did lock stage : sound w -> requests w !! r = Some (did, lock, stage) -> count w lock <> 0.
Proof.
  intros Hs Hr. rewrite (sound_count _ Hs). intros E%map_size_empty_inv.
  assert (holders w lock !! r = Some (did, lock, stage)) as Hl by (by apply map_lookup_filter_Some).
  by rewrite E in Hl.
Qed.

(** What asking for a turn leaves: the account's lock is the one handed out,
    counted once more, and nothing anybody holds has moved. *)
Lemma turn_sound did w w' lock : sound w -> turn did w = (w', lock) ->
  requests w' = requests w
  /\ (forall l, count w' l = if decide (l = lock) then S (count w l) else count w l)
  /\ held w' !! did = Some lock
  /\ (forall r did' l stage, requests w !! r = Some (did', l, stage) -> held w' !! did' = Some l)
  /\ (forall did1 did2 l, held w' !! did1 = Some l -> held w' !! did2 = Some l -> did1 = did2)
  /\ (forall did' l, held w' !! did' = Some l -> l < made w').
Proof.
  intros Hs; unfold turn.
  destruct (held w !! did) as [l0|] eqn:Eh; cbn [mbind option_bind].
  1: unfold upgrade; destruct (Nat.eqb_spec (count w l0) 0) as [E0|E0].
  2: { intros [= <- <-]; cbn [requests held made holding]. split_and!; [done|apply count_holding|done| | |]; by destruct Hs. }
  all: intros [= <- <-]; cbn [requests held made holding].
  all: assert (forall did' l, filter (fun e => 0 < count w (snd e)) (held w) !! did' = Some l -> held w !! did' = Some l)
    as Hkept by (intros did' l Hl; apply map_lookup_filter_Some in Hl as [Hl _]; done).
  all: assert (forall did' l, filter (fun e => 0 < count w (snd e)) (held w) !! did' = Some l -> l < made w)
    as Hmade by (intros did' l Hl; eapply (sound_made _ Hs), Hkept, Hl).
  all: split_and!; [done|intros l; rewrite count_holding; done|by rewrite lookup_insert_eq| | |].
  all: try (intros did' l Hl; apply lookup_insert_Some in Hl as [[_ <-]|[_ Hl]]; [lia|]; apply Hmade in Hl; lia).
  all: try (intros did1 did2 l H1 H2; apply lookup_insert_Some in H1 as [[<- <-]|[Hn1 H1]], H2 as [[<- E]|[Hn2 H2]]; try done;
    [apply Hmade in H2; lia|subst l; apply Hmade in H1; lia|eapply (sound_apart _ Hs); by apply Hkept]).
  all: intros r did' l stage Hr; pose proof (sound_held _ Hs _ _ _ _ Hr) as Hl; pose proof (held_counted _ _ _ _ _ Hs Hr) as Hc.
  all: rewrite lookup_insert_ne by (intros <-; congruence); apply map_lookup_filter_Some; split; [done|cbn; lia].
Qed.

Lemma locked_dec w lock : {locked w lock} + {~ locked w lock}.
Proof.
  destruct (decide (map_Exists (fun _ e => snd (fst e) = lock /\ snd e = Writing) (requests w))) as [Hd|Hd].
  - left. destruct Hd as (r & [[did l] stage] & Hr & E1 & E2); cbn in *; subst. by exists r, did.
  - right. intros (r & did & Hr). apply Hd. by exists r, (did, lock, Writing).
Qed.

Lemma step_sound w w' : sound w -> step w w' -> sound w'.
Proof.
  intros Hs Hstep; destruct Hstep as [r did Hr|r did lock Hr Hfree|r did lock stage Hr].
  - destruct (turn did w) as [w' lock] eqn:Et.
    destruct (turn_sound did w w' lock Hs Et) as (Ereq & Hc & Hd & Hh & Ha & Hm).
    split; cbn [requests held made placed]; rewrite ?Ereq; [|..|done|done|].
    + intros l. rewrite holders_placed by (by rewrite Ereq). rewrite (holders_same _ _ _ Ereq).
      change (count (placed _ _ w') l) with (count w' l). rewrite Hc. case_decide; by rewrite (sound_count _ Hs).
    + intros r' did' l stage [[<- [= <- <- <-]]|[_ Hr']]%lookup_insert_Some; [done|]. by eapply Hh.
    + intros r1 r2 d1 d2 l [[_ [=]]|[_ H1]]%lookup_insert_Some [[_ [=]]|[_ H2]]%lookup_insert_Some.
      by eapply (sound_alone _ Hs).
  - split; cbn [requests held made placed]; [|..|apply (sound_apart _ Hs)|apply (sound_made _ Hs)|].
    + intros l. change (count (placed _ _ w) l) with (count w l). rewrite (sound_count _ Hs).
      assert (holders (placed r (did, lock, Writing) w) l = (if decide (l = lock) then <[r := (did, lock, Writing)]> (holders w l) else holders w l)) as ->.
      { unfold holders; cbn [requests placed]. case_decide as E.
        - subst. by rewrite map_filter_insert_True.
        - rewrite map_filter_insert_False by (cbn; congruence). rewrite map_filter_delete, delete_id; [done|].
          apply map_lookup_filter_None; right. intros x E'. rewrite Hr in E'; injection E' as <-. cbn; congruence. }
      case_decide as E; [|done]. subst. rewrite map_size_insert_Some; [done|]. eexists; by apply map_lookup_filter_Some.
    + intros r' did' l stage [[<- [= <- <- <-]]|[_ Hr']]%lookup_insert_Some; by eapply (sound_held _ Hs).
    + intros r1 r2 d1 d2 l [[<- [= <- <-]]|[Hn1 H1]]%lookup_insert_Some [[<- E]|[Hn2 H2]]%lookup_insert_Some; try done.
      * exfalso; apply Hfree. by exists r2, d2.
      * injection E as <- <-. exfalso; apply Hfree. by exists r1, d1.
      * by eapply (sound_alone _ Hs).
  - split; cbn [requests held made dropping gone]; [|..|apply (sound_apart _ Hs)|apply (sound_made _ Hs)|].
    + intros l. change (holders (dropping lock (gone r w)) l) with (holders (gone r w) l).
      rewrite (holders_gone _ _ _ _ _ _ Hr). unfold count at 1; cbn [strong dropping gone].
      change (count (gone r w) lock) with (count w lock).
      case_decide as E; [subst; rewrite lookup_insert_eq; cbn; by rewrite (sound_count _ Hs)|].
      rewrite lookup_insert_ne by done. apply (sound_count _ Hs).
    + intros r' did' l stage' [_ Hr']%lookup_delete_Some. by eapply (sound_held _ Hs).
    + intros r1 r2 d1 d2 l [_ H1]%lookup_delete_Some [_ H2]%lookup_delete_Some. by eapply (sound_alone _ Hs).
Qed.

Lemma fresh_sound : sound fresh.
Proof.
  split; cbn; [|by intros *; rewrite lookup_empty..]. intros lock; unfold count, holders; cbn. by rewrite lookup_empty, map_filter_empty, map_size_empty.
Qed.

Lemma reachable_sound w : reachable w -> sound w.
Proof. unfold reachable; intros H. pose proof fresh_sound as Hs; revert Hs. induction H as [w|w1 w2 w3 H1 _ IH]; [done|]. intros Hs. by eapply IH, step_sound. Qed.

(** An entry somebody holds is some request's. *)
Lemma counted_requested w did lock : sound w -> held w !! did = Some lock -> 0 < count w lock ->
  did ∈ map (fun e => fst (fst (snd e))) (map_to_list (requests w)).
Proof.
  intros Hs Hd Hc. rewrite (sound_count _ Hs) in Hc.
  destruct (map_choose (holders w lock)) as (r & [[did' l] stage] & Hr); [intros E; rewrite E, map_size_empty in Hc; lia|].
  apply map_lookup_filter_Some in Hr as [Hr E]; cbn in E; subst l.
  assert (did' = did) as -> by (eapply (sound_apart _ Hs); [by eapply (sound_held _ Hs)|done]).
  apply (list_elem_of_fmap_2' _ _ (r, (did, lock, stage))); [by apply elem_of_map_to_list|done].
Qed.

Lemma held_bounded (m : gmap bytes nat) (l : list bytes) : (forall did, is_Some (m !! did) -> did ∈ l) -> size m <= length l.
Proof.
  intros Hm. rewrite <- length_map_to_list, <- (length_fmap fst). apply submseteq_length, NoDup_submseteq; [apply NoDup_fst_map_to_list|].
  intros did ([did' lock] & -> & Hin%elem_of_map_to_list)%list_elem_of_fmap. apply Hm. by exists lock.
Qed.

(** C25 (safety). An account's writers take turns. However requests come, queue,
    write and hang up: two that are writing to one account are the same request;
    one that is queued is let in as soon as nobody writes to its own account,
    whoever writes to any other; and once an account nobody was waiting for is
    asked for, the table has no more entries than there are requests. *)
Theorem writers_take_turns w : reachable w ->
  (forall r r' did lock lock', requests w !! r = Some (did, lock, Writing) -> requests w !! r' = Some (did, lock', Writing) ->
     r = r' /\ lock = lock')
  /\ (forall r did lock, requests w !! r = Some (did, lock, Queued) ->
       (forall r' lock', requests w !! r' <> Some (did, lock', Writing)) -> step w (placed r (did, lock, Writing) w))
  /\ (forall r did, requests w !! r = None -> (forall r' lock stage, requests w !! r' <> Some (did, lock, stage)) ->
       let '(w', lock) := turn did w in
       let after := placed r (did, lock, Queued) w' in size (held after) <= size (requests after)).
Proof.
  intros Hs%reachable_sound; split_and!.
  - intros r r' did lock lock' H1 H2. pose proof (sound_held _ Hs _ _ _ _ H1). pose proof (sound_held _ Hs _ _ _ _ H2).
    assert (lock = lock') as <- by congruence. split; [|done]. by eapply (sound_alone _ Hs).
  - intros r did lock Hr Hnone. apply Enter; [done|]. intros (r' & did' & Hr').
    assert (did' = did) as -> by (eapply (sound_apart _ Hs); by eapply (sound_held _ Hs)). by eapply Hnone.
  - intros r did Hr Hnone. unfold turn.
    assert ((held w !! did ≫= upgrade w) = None) as E0.
    { destruct (held w !! did) as [lock|] eqn:Eh; [|done]. cbn; unfold upgrade.
      destruct (Nat.eqb_spec (count w lock) 0) as [|Hc]; [done|]. rewrite (sound_count _ Hs) in Hc.
      destruct (map_choose (holders w lock)) as (r' & [[did' l] stage] & Hr'); [intros E; by rewrite E in Hc|].
      apply map_lookup_filter_Some in Hr' as [Hr' E]; cbn in E; subst l.
      assert (did' = did) as -> by (eapply (sound_apart _ Hs); [by eapply (sound_held _ Hs)|done]). by apply Hnone in Hr'. }
    change (lock ← held w !! did; upgrade w lock) with (held w !! did ≫= upgrade w). rewrite E0.
    cbn [held requests placed holding]. rewrite (map_size_insert_None (M := gmap nat)) by done.
    etrans; [apply (held_bounded _ (did :: map (fun e => fst (fst (snd e))) (map_to_list (requests w))))|].
    + intros d [l [[<- _]|[_ Hl]]%lookup_insert_Some]; [by left|right].
      apply map_lookup_filter_Some in Hl as [Hl Hc]. by eapply counted_requested.
    + cbn [length]. rewrite length_map, length_map_to_list. done.
Qed.

(* ------------------------------------------------------------------ *)
(** ** How long a sign-in takes *)

Local Open Scope Z_scope.

(** [Duration] in nanoseconds, the most one holds, and [remaining]. *)
Definition LONGEST : Z := U64_MAX * 1000000000 + 999999999.
Definition remaining (budget taken : Z) : Z :=
  if budget =? 0 then 0 else
  let times := taken / budget + 1 in
  let whole := if times <=? U32_MAX then times else U32_MAX in
  let padded := if budget * whole <=? LONGEST then budget * whole else taken in
  Z.max 0 (padded - taken).

(** [Manager::login]: what was found, once the wait is over. *)
Definition login {A} (budget taken : Z) (outcome : A) : Z * A := (taken + remaining budget taken, outcome).

(** C30 (bounds). How long a sign-in takes says only how many whole budgets it
    took. It is never shorter than the work, nor longer by more than a budget;
    as long as the count fits, it is a whole number of budgets, the same for any
    two checks that end within the same one, whatever they found. *)
Theorem sign_ins_take_whole_budgets {A} budget taken (outcome : A) : 0 < budget -> 0 <= taken ->
  taken <= fst (login budget taken outcome) <= taken + budget
  /\ snd (login budget taken outcome) = outcome
  /\ (taken / budget < U32_MAX -> budget * (taken / budget + 1) <= LONGEST ->
        fst (login budget taken outcome) = budget * (taken / budget + 1)
        /\ forall taken' (outcome' : A), budget * (taken / budget) <= taken' < budget * (taken / budget + 1) ->
             fst (login budget taken' outcome') = fst (login budget taken outcome)).
Proof.
  intros Hb Ht; unfold login, remaining; cbn [fst snd].
  rewrite (proj2 (Z.eqb_neq budget 0)) by lia.
  pose proof (Z.div_mod taken budget ltac:(lia)) as Hd. pose proof (Z.mod_pos_bound taken budget Hb) as Hm.
  set (q := taken / budget) in *. split_and!; [lia| |done|].
  - destruct (Z.leb_spec (q + 1) U32_MAX) as [Hq|Hq];
      [destruct (Z.leb_spec (budget * (q + 1)) LONGEST)|destruct (Z.leb_spec (budget * U32_MAX) LONGEST)]; nia.
  - intros Hq Hfit. rewrite (proj2 (Z.leb_le (q + 1) U32_MAX)), (proj2 (Z.leb_le (budget * (q + 1)) LONGEST)) by lia.
    split; [nia|]. intros taken' _ Hin. assert (taken' / budget = q) as -> by (symmetry; apply (Z.div_unique taken' budget q (taken' - budget * q)); nia).
    rewrite (proj2 (Z.leb_le (q + 1) U32_MAX)), (proj2 (Z.leb_le (budget * (q + 1)) LONGEST)) by lia. nia.
Qed.

(* ------------------------------------------------------------------ *)
(** ** At concrete requests *)

Module Sample.
Local Open Scope nat_scope.
Definition alice : bytes := lit "did:plc:alice".
Definition bob : bytes := lit "did:plc:bob".
(** Two requests for one account, the first of them writing, and one for
    another. *)
Definition asked (r : nat) (did : bytes) (w : World) : World :=
  let '(w, lock) := turn did w in placed r (did, lock, Queued) w.
Definition busy : World := asked 3 bob (asked 2 alice (placed 1 (alice, 0, Writing) (asked 1 alice fresh))).
Lemma busy_reachable : reachable busy.
Proof.
  unfold reachable. eapply rtc_l; [apply (Ask fresh 1 alice); done|].
  eapply rtc_l; [eapply (Enter _ 1 alice 0); [vm_compute; reflexivity|]|].
  { intros (r & did & Hr). change (requests _) with ({[1 := (alice, 0, Queued)]} : gmap nat (bytes * nat * Stage)) in Hr.
    by apply lookup_singleton_Some in Hr as [_ ?]. }
  eapply rtc_l; [apply (Ask _ 2 alice); vm_compute; reflexivity|].
  eapply rtc_l; [apply (Ask _ 3 bob); vm_compute; reflexivity|].
  apply rtc_refl.
Qed.
Lemma busy_requests : requests busy
  = {[3 := (bob, 1, Queued); 2 := (alice, 0, Queued); 1 := (alice, 0, Writing)]}.
Proof. reflexivity. Qed.
End Sample.

Lemma writers_take_turns_witness :
  Turns.requests Sample.busy !! 3%nat = Some (Sample.bob, 1%nat, Queued)
  /\ step Sample.busy (placed 3 (Sample.bob, 1%nat, Writing) Sample.busy).
Proof.
  pose proof Sample.busy_requests as E.
  pose proof (writers_take_turns Sample.busy Sample.busy_reachable) as (_ & Hx & _).
  split; [rewrite E; reflexivity|]. apply (Hx 3%nat Sample.bob 1%nat); rewrite E; [reflexivity|].
  intros r lock [[_ [=]]|[_ [[_ [=]]|[_ [_ [=]]%lookup_singleton_Some]]%lookup_insert_Some]]%lookup_insert_Some.
Defined.

Lemma sign_ins_take_whole_budgets_witness : fst (login 350000000 3 false) = 350000000 /\ fst (login 350000000 200000000 true) = 350000000.
Proof.
  pose proof (sign_ins_take_whole_budgets 350000000 3 false ltac:(lia) ltac:(lia)) as (_ & _ & Hx).
  destruct (Hx ltac:(vm_compute; reflexivity) ltac:(vm_compute; discriminate)) as [E Hall].
  change (350000000 * (3 / 350000000 + 1)) with 350000000 in E. split; [exact E|].
  rewrite <- E. apply Hall. vm_compute; split; [discriminate|reflexivity].
Defined.
