(* ===== verification/Actor.v ===== *)
(** * Actor: one account's database

    [src/src/store/actor.rs].  A table is a map from its primary key, which is
    text as the column is; a query is a filter of its rows, sorted where the
    query sorts them; an index changes nothing a query answers.  The columns
    nothing here reads or writes ([takedownRef] of a record, a blob's width and
    height) are left out, and so is [account_pref], which no query here names.

    A transaction is a computation over the tables, the files and what the
    revision leaves ([Tx]); the tables it ends with are kept only where it
    commits, and the files as it left them either way, which is what [commit]
    has to make up for.  [stamp] is the text of the time it is, and [now] what
    a file is touched with. *)

From S2P Require Import Prelude Syntax Crypto Ip Block Json Storage Blobs.

Local Open Scope Z_scope.

(** ** The tables *)

Record RootRow := MkRootRow { root_cid : bytes; root_rev : bytes; root_indexed : bytes }.
Record BlockRow := MkBlockRow { block_rev : bytes; block_size : Z; block_content : bytes }.
Record RecordRow := MkRecordRow {
  rec_cid : bytes; rec_collection : bytes; rec_rkey : bytes; rec_rev : bytes; rec_indexed : bytes
}.
Record BlobRow := MkBlobRow {
  blob_mime : bytes; blob_size : Z; temp_key : option bytes; created_at : bytes; takedown : option bytes
}.
Record Db := MkDb {
  repo_root : gmap bytes RootRow;
  repo_block : gmap bytes BlockRow;
  record_table : gmap bytes RecordRow;
  blob_table : gmap bytes BlobRow;
  record_blob : gset (bytes * bytes);
  backlink : gmap (bytes * bytes) bytes
}.
Definition new_db : Db := MkDb ∅ ∅ ∅ ∅ ∅ ∅.

Definition with_root (f : gmap bytes RootRow -> gmap bytes RootRow) (d : Db) : Db :=
  MkDb (f (repo_root d)) (repo_block d) (record_table d) (blob_table d) (record_blob d) (backlink d).
Definition with_blocks (f : gmap bytes BlockRow -> gmap bytes BlockRow) (d : Db) : Db :=
  MkDb (repo_root d) (f (repo_block d)) (record_table d) (blob_table d) (record_blob d) (backlink d).
Definition with_records (f : gmap bytes RecordRow -> gmap bytes RecordRow) (d : Db) : Db :=
  MkDb (repo_root d) (repo_block d) (f (record_table d)) (blob_table d) (record_blob d) (backlink d).
Definition with_blobs (f : gmap bytes BlobRow -> gmap bytes BlobRow) (d : Db) : Db :=
  MkDb (repo_root d) (repo_block d) (record_table d) (f (blob_table d)) (record_blob d) (backlink d).
Definition with_holds (f : gset (bytes * bytes) -> gset (bytes * bytes)) (d : Db) : Db :=
  MkDb (repo_root d) (repo_block d) (record_table d) (blob_table d) (f (record_blob d)) (backlink d).
Definition with_links (f : gmap (bytes * bytes) bytes -> gmap (bytes * bytes) bytes) (d : Db) : Db :=
  MkDb (repo_root d) (repo_block d) (record_table d) (blob_table d) (record_blob d) (f (backlink d)).

Definition BATCH : nat := 500.

(** ** What goes in and comes out *)

(** [Root], [Mark], [Page], [Record], [Committed], [Leaving], [Blob],
    [MissingBlob], [Backlink] and [Indexed]. *)
Record Root := MkRoot { cid : Cid; rev : Tid.t }.
Record Mark := MkMark { m_rev : bytes; m_cid : Cid }.
Record Page := MkPage { page_blocks : list (Cid * bytes); next : option Mark }.
Record Record_ := MkRecord { r_uri : bytes; r_cid : Cid; r_value : bytes }.
Record Committed := MkCommitted { orphaned : list Cid; taken : list bytes }.
Record Leaving := MkLeaving { cleared : Committed; linked : list Cid }.
Record Blob := MkBlob { b_cid : Cid; mime : bytes; size : Z }.
Record MissingBlob := MkMissingBlob { mb_cid : Cid; mb_uri : bytes }.
Record Backlink := MkBacklink { bl_path : bytes; link_to : bytes }.
Inductive Indexed :=
| Put (collection : Nsid.t) (rkey : RecordKey.t) (put_cid : Cid) (links : list Backlink) (blobs : list Blob)
| Delete (collection : Nsid.t) (rkey : RecordKey.t).
Record Blocks := MkBlocks { written : BlockMap.t; dropped : list Cid }.

(** ** Transactions *)

Record Tx := MkTx { db : Db; fs : Fs.t; leaving : Leaving }.
Definition W (A : Type) : Type := Tx -> Tx * result Error A.

#[export] Instance W_ret : MRet W := fun A a t => (t, Ok a).
#[export] Instance W_bind : MBind W := fun A B f m t =>
  match m t with (t, Ok a) => f a t | (t, Err e) => (t, Err e) end.

Definition fail {A} (e : Error) : W A := fun t => (t, Err e).
Definition lift {A} (r : result Error A) : W A := fun t => (t, r).
Definition ask {A} (f : Db -> A) : W A := fun t => (t, Ok (f (db t))).
Definition modify (f : Db -> Db) : W unit := fun t => (MkTx (f (db t)) (fs t) (leaving t), Ok tt).
Definition note_orphaned (cids : list Cid) : W unit := fun t =>
  let l := leaving t in
  (MkTx (db t) (fs t) (MkLeaving (MkCommitted (orphaned (cleared l) ++ cids) (taken (cleared l))) (linked l)), Ok tt).
Definition note_taken (key : bytes) : W unit := fun t =>
  let l := leaving t in
  (MkTx (db t) (fs t) (MkLeaving (MkCommitted (orphaned (cleared l)) (taken (cleared l) ++ [key])) (linked l)), Ok tt).
Definition note_linked (cid : Cid) : W unit := fun t =>
  let l := leaving t in (MkTx (db t) (fs t) (MkLeaving (cleared l) (linked l ++ [cid])), Ok tt).

(** A [for] loop: one step for each, as long as none fails. *)
Fixpoint each {A} (f : A -> W unit) (l : list A) : W unit :=
  match l with [] => mret tt | a :: l => _ ← f a; each f l end.

Section Actor.
Context `{Sha256} `{CidText}.
Context (blobs : Blobs) (did : Did.t) (stamp : bytes) (now : Z).

(** [prefix] and [uri]. *)
Definition prefix (collection : Nsid.t) : bytes :=
  lit "at://" ++ Did.str did ++ lit "/" ++ Nsid.str collection ++ lit "/".
Definition uri (collection : Nsid.t) (rkey : RecordKey.t) : bytes := prefix collection ++ RecordKey.str rkey.

(** [i64::try_from(_).unwrap_or(i64::MAX)], and [u64::try_from(_).unwrap_or_default()]. *)
Definition I64_MAX : Z := 2 ^ 63 - 1.
Definition to_i64 (n : Z) : Z := if n <=? I64_MAX then n else I64_MAX.
Definition to_u64 (n : Z) : Z := if 0 <=? n then n else 0.

Definition parse_or (why : string) (text : bytes) : result Error Cid :=
  ok_or (cid_parse text) (Malformed why).

(* ------------------------------------------------------------------ *)
(** ** Committing a revision *)

(** [held]. *)
Definition held (d : Db) (cid : bytes) : bool :=
  existsb (fun e => bool_decide (fst e = cid)) (elements (record_blob d)).

(** [dereference], and its loop over what the record was holding. *)
Fixpoint let_go (kept : gset bytes) (cids : list bytes) : W (list Cid) :=
  match cids with
  | [] => mret []
  | cid :: cids =>
      still ← ask (fun d => held d cid);
      if bool_decide (cid ∈ kept) || (still : bool) then let_go kept cids else
      _ ← modify (with_blobs (base.delete cid));
      gone ← lift (parse_or "a blob that is not a CID" cid);
      rest ← let_go kept cids;
      mret (gone :: rest)
  end.
Definition holding (d : Db) (at_ : bytes) : list bytes :=
  map fst (List.filter (fun e => bool_decide (snd e = at_)) (elements (record_blob d))).
Definition dereference (at_ : bytes) (kept : gset bytes) : W (list Cid) :=
  cids ← ask (fun d => holding d at_);
  _ ← modify (with_holds (filter (fun e => e.2 <> at_)));
  let_go kept cids.

(** [claim]. *)
Definition upload (d : Db) (cid : bytes) : option BlobRow :=
  row ← blob_table d !! cid; match takedown row with None => Some row | Some _ => None end.
Definition settle (row : BlobRow) : BlobRow :=
  MkBlobRow (blob_mime row) (blob_size row) None (created_at row) (takedown row).
Definition link_upload (key : bytes) (cid : Cid) : W unit := fun t =>
  match Blobs.claim blobs (fs t) did key cid now with
  | Err e => (t, Err e)
  | Ok (fs, true) => note_linked cid (MkTx (db t) fs (leaving t))
  | Ok (fs, false) => (MkTx (db t) fs (leaving t), Ok tt)
  end.
Definition claim (at_ : bytes) (blob : Blob) : W unit :=
  let text := cid_to_string (b_cid blob) in
  found ← ask (fun d => upload d text);
  match found with
  | None => fail (BlobMissing (b_cid blob))
  | Some row =>
      _ ← match temp_key row with
          | None => mret tt
          | Some key =>
              if decide (blob_mime row <> mime blob) then
                fail (BlobMismatch "Mimetype" (blob_mime row) (mime blob))
              else if negb (to_u64 (blob_size row) =? size blob) then
                fail (BlobMismatch "Size" (Ip.decimal (blob_size row)) (Ip.decimal (size blob)))
              else
                _ ← link_upload key (b_cid blob);
                note_taken key
          end;
      _ ← modify (with_holds (union {[(text, at_)]}));
      modify (with_blobs (alter settle text))
  end.

(** [index]: what the commit did to each record, in order. *)
Definition kept (records : list Indexed) : gset bytes :=
  list_to_set (concat (map (fun r => match r with
    | Put _ _ _ _ named => map (fun b => cid_to_string (b_cid b)) named
    | Delete _ _ => []
    end) records)).
Definition unlink (at_ : bytes) : W unit := modify (with_links (filter (fun e => e.1.1 <> at_))).
Definition link (at_ : bytes) (b : Backlink) : W unit :=
  modify (with_links (fun m => match m !! (at_, bl_path b) with
    | Some _ => m
    | None => <[(at_, bl_path b) := link_to b]> m
    end)).
Definition put_record (root : Root) (at_ : bytes) (collection : Nsid.t) (rkey : RecordKey.t) (cid : Cid) : W unit :=
  modify (with_records (fun m => match m !! at_ with
    | Some row => <[at_ := MkRecordRow (cid_to_string cid) (rec_collection row) (rec_rkey row)
                             (Tid.str (rev root)) stamp]> m
    | None => <[at_ := MkRecordRow (cid_to_string cid) (Nsid.str collection) (RecordKey.str rkey)
                         (Tid.str (rev root)) stamp]> m
    end)).
Definition index_one (root : Root) (kept : gset bytes) (r : Indexed) : W unit :=
  match r with
  | Put collection rkey cid links named =>
      let at_ := uri collection rkey in
      _ ← unlink at_;
      _ ← each (link at_) links;
      gone ← dereference at_ kept;
      _ ← note_orphaned gone;
      _ ← each (claim at_) named;
      put_record root at_ collection rkey cid
  | Delete collection rkey =>
      let at_ := uri collection rkey in
      _ ← unlink at_;
      gone ← dereference at_ kept;
      _ ← note_orphaned gone;
      modify (with_records (base.delete at_))
  end.
Definition index (root : Root) (records : list Indexed) : W (gset bytes) :=
  let kept := kept records in
  _ ← each (index_one root kept) records;
  mret kept.

(** The steps of [landing]. *)
Definition store_block (root : Root) (e : Cid * bytes) : W unit :=
  modify (with_blocks (fun m => match m !! cid_to_string (fst e) with
    | Some _ => m
    | None => <[cid_to_string (fst e) := MkBlockRow (Tid.str (rev root)) (to_i64 (len (snd e))) (snd e)]> m
    end)).
Definition indexed_under (d : Db) (cid : bytes) : bool :=
  existsb (fun e => bool_decide (rec_cid (snd e) = cid)) (map_to_list (record_table d)).
Definition forget_block (cid : Cid) : W unit :=
  modify (fun d =>
    if indexed_under d (cid_to_string cid) then d else with_blocks (base.delete (cid_to_string cid)) d).
Definition ask_again (cid : bytes) : W unit :=
  still ← ask (fun d => held d cid);
  if still : bool then mret tt else
  _ ← modify (with_blobs (base.delete cid));
  gone ← lift (parse_or "a blob that is not a CID" cid);
  note_orphaned [gone].
Definition move_root (from : option Root) (root : Root) : W bool := fun t =>
  let row := MkRootRow (cid_to_string (cid root)) (Tid.str (rev root)) stamp in
  let at_ := repo_root (db t) !! Did.str did in
  match from, at_ with
  | Some from, Some held =>
      if decide (root_cid held = cid_to_string (cid from))
      then (fst (modify (with_root (insert (Did.str did) row)) t), Ok true) else (t, Ok false)
  | Some _, None => (t, Ok false)
  | None, Some _ => (t, Err Constraint)
  | None, None => (fst (modify (with_root (insert (Did.str did) row)) t), Ok true)
  end.
Definition landing (from : option Root) (root : Root) (blocks : Blocks) (records : list Indexed) : W bool :=
  _ ← each (store_block root) (BlockMap.iter (written blocks));
  spared ← index root records;
  _ ← each forget_block (dropped blocks);
  _ ← each ask_again (elements spared);
  move_root from root.

(** [Actor::commit]: on anything but a landing the tables are as they were, and
    what was linked for it is taken back. *)
Definition commit (d : Db) (files : Fs.t) (from : option Root) (root : Root) (blocks : Blocks)
    (records : list Indexed) : Db * Fs.t * result Error (option Committed) :=
  match landing from root blocks records (MkTx d files (MkLeaving (MkCommitted [] []) [])) with
  | (t, Ok true) => (db t, fs t, Ok (Some (cleared (leaving t))))
  | (t, landed) =>
      (d, fold_left (fun f c => Blobs.delete blobs f did c) (linked (leaving t)) (fs t),
       match landed with Ok _ => Ok None | Err e => Err e end)
  end.

(* ------------------------------------------------------------------ *)
(** ** Reading *)

(** [Actor::root]. *)
Definition read_root (d : Db) : result Error (option Root) :=
  match repo_root d !! Did.str did with
  | None => Ok None
  | Some row =>
      cid ← parse_or "a repo root that is not a CID" (root_cid row);
      match from_str (root_rev row) with
      | Ok rev => Ok (Some (MkRoot cid rev))
      | Err _ => Err (Malformed "a repo revision that is not a TID")
      end
  end.

(** [Store for Actor]. *)
Definition store (d : Db) : Store := MkStore
  (fun cid => ok_or (block_content <$> repo_block d !! cid_to_string cid) (MissingBlock cid))
  (fun cid => Ok (bool_decide (is_Some (repo_block d !! cid_to_string cid)))).

(** The order of a revision and a CID in it, and that order turned round. *)
Definition newer (a b : bytes * bytes) : bool :=
  match str_compare (fst a) (fst b) with
  | Lt => false
  | Gt => true
  | Eq => match str_compare (snd a) (snd b) with Gt => true | _ => false end
  end.
Definition newest_first (a b : (bytes * bytes) * bytes) : Prop := newer (fst b) (fst a) = false.
#[export] Instance newest_first_dec : RelDecision newest_first.
Proof. intros a b; unfold newest_first; apply _. Defined.

(** [blocks_query] and [Actor::blocks_since]. *)
Definition block_rows (d : Db) : list ((bytes * bytes) * bytes) :=
  map (fun e => ((block_rev (snd e), fst e), block_content (snd e))) (map_to_list (repo_block d)).
Definition blocks_query (d : Db) (since : option Tid.t) (from : option Mark) (limit : Z)
  : list ((bytes * bytes) * bytes) :=
  take (Z.to_nat limit) (merge_sort newest_first
    (List.filter (fun r =>
       match since with Some since => str_ltb (Tid.str since) (fst (fst r)) | None => true end
       && match from with
          | Some mark => newer (m_rev mark, cid_to_string (m_cid mark)) (fst r)
          | None => true
          end) (block_rows d))).
Fixpoint read_rows (rows : list ((bytes * bytes) * bytes)) (last : option Mark)
  : result Error (list (Cid * bytes) * option Mark) :=
  match rows with
  | [] => Ok ([], last)
  | ((rev, text), content) :: rows =>
      cid ← parse_or "a stored block that is not a CID" text;
      '(blocks, last) ← read_rows rows (Some (MkMark rev cid));
      Ok ((cid, content) :: blocks, last)
  end.
Definition blocks_since (d : Db) (since : option Tid.t) (from : option Mark) (limit : Z) : result Error Page :=
  let rows := blocks_query d since from limit in
  '(blocks, last) ← read_rows rows None;
  Ok (MkPage blocks (if len rows =? limit then last else None)).

(** [Actor::blocks], a batch at a time. *)
Definition batch_of (d : Db) (batch : list Cid) (found : BlockMap.t) : BlockMap.t * list Cid :=
  (fold_left (fun found cid => match repo_block d !! cid_to_string cid with
     | Some row => BlockMap.insert found cid (block_content row)
     | None => found
     end) batch found,
   List.filter (fun cid => negb (bool_decide (is_Some (repo_block d !! cid_to_string cid)))) batch).
Fixpoint batches (fuel : nat) (d : Db) (cids : list Cid) (found : BlockMap.t) (missing : list Cid)
  : BlockMap.t * list Cid :=
  match fuel, cids with
  | S fuel, _ :: _ =>
      let '(found, lacking) := batch_of d (take BATCH cids) found in
      batches fuel d (drop BATCH cids) found (missing ++ lacking)
  | _, _ => (found, missing)
  end.
Definition blocks (d : Db) (cids : list Cid) : BlockMap.t * list Cid :=
  batches (length cids) d cids BlockMap.new [].

(** [read], [Actor::record], [records_query] and [Actor::records]. *)
Definition read_record (row : bytes * bytes * bytes) : result Error Record_ :=
  let '(uri, text, value) := row in
  cid ← parse_or "an indexed record that is not a CID" text; Ok (MkRecord uri cid value).
Definition joined (d : Db) : list (bytes * bytes * bytes) :=
  omap (fun e => row ← repo_block d !! rec_cid (snd e); Some (fst e, rec_cid (snd e), block_content row))
    (map_to_list (record_table d)).
Definition record (d : Db) (collection : Nsid.t) (rkey : RecordKey.t) : result Error (option Record_) :=
  let row := r ← record_table d !! uri collection rkey;
             b ← repo_block d !! rec_cid r;
             Some (uri collection rkey, rec_cid r, block_content b) in
  transpose (read_record <$> row).
Definition by_uri (a b : bytes * bytes * bytes) : Prop := str_le (fst (fst a)) (fst (fst b)).
#[export] Instance by_uri_dec : RelDecision by_uri.
Proof. intros a b; unfold by_uri; apply _. Defined.
Definition records_query (d : Db) (prefix : bytes) (limit : Z) (cursor : option bytes) (reverse : bool)
  : list (bytes * bytes * bytes) :=
  let top := prefix ++ [127] in
  let '(low, high) := match cursor, reverse with
    | Some cursor, true => (prefix ++ cursor, top)
    | Some cursor, false => (prefix, prefix ++ cursor)
    | None, _ => (prefix, top)
    end in
  let past := match cursor, reverse with Some _, true => true | _, _ => false end in
  let rows := merge_sort by_uri (List.filter (fun r =>
    (if past : bool then str_ltb low (fst (fst r)) else str_leb low (fst (fst r)))
    && str_ltb (fst (fst r)) high) (joined d)) in
  take (Z.to_nat limit) (if reverse then rows else List.rev rows).
Definition records (d : Db) (collection : Nsid.t) (limit : Z) (cursor : option bytes) (reverse : bool)
  : result Error (list Record_) :=
  collect (map read_record (records_query d (prefix collection) limit cursor reverse)).

(** [Actor::pointing_at] and [Actor::collections]. *)
Definition pointing_at (d : Db) (collection : Nsid.t) (b : Backlink) : result Error (list RecordKey.t) :=
  collect (omap (fun e =>
      if decide (snd (fst e) = bl_path b /\ snd e = link_to b) then
        row ← record_table d !! fst (fst e);
        if decide (rec_collection row = Nsid.str collection) then
          Some (match from_str (rec_rkey row) with
                | Ok key => Ok key
                | Err _ => Err (Malformed "an indexed key that is not a record key")
                end)
        else None
      else None) (map_to_list (backlink d))).
Definition collections (d : Db) : result Error (list Nsid.t) :=
  collect (map (fun text => match from_str text with
      | Ok collection => Ok collection
      | Err _ => Err (Malformed "an indexed collection that is not an NSID")
      end)
    (merge_sort str_le (elements (list_to_set (C := gset bytes)
      (map (fun e => rec_collection (snd e)) (map_to_list (record_table d))))))).

(* ------------------------------------------------------------------ *)
(** ** Blobs *)

(** [Actor::add_blob], [unheld], [upload_keys], [blob_cids] and [blob]. *)
Definition add_blob (d : Db) (b : Blob) (key : bytes) : Db :=
  let text := cid_to_string (b_cid b) in
  match blob_table d !! text with
  | None => with_blobs (insert text (MkBlobRow (mime b) (to_i64 (size b)) (Some key) stamp None)) d
  | Some row =>
      match temp_key row with
      | Some _ => with_blobs (insert text
          (MkBlobRow (blob_mime row) (blob_size row) (Some key) stamp (takedown row))) d
      | None => d
      end
  end.
Definition unheld (d : Db) (cid : Cid) : bool := negb (bool_decide (is_Some (blob_table d !! cid_to_string cid))).
Definition upload_keys (d : Db) : gset bytes :=
  list_to_set (omap (fun e => temp_key (snd e)) (map_to_list (blob_table d))).
Definition blob_cids (d : Db) : gset bytes := dom (blob_table d).
Definition blob (d : Db) (cid : Cid) : result Error (option Blob) :=
  transpose ((fun row =>
    cid ← parse_or "a blob that is not a CID" (cid_to_string cid);
    Ok (MkBlob cid (blob_mime row) (to_u64 (blob_size row)))) <$> blob_table d !! cid_to_string cid).

(** [Actor::sweep_unclaimed]. *)
Definition stale (d : Db) (cutoff : bytes) : list (bytes * bytes) :=
  omap (fun e => key ← temp_key (snd e);
                 if str_ltb (created_at (snd e)) cutoff then Some (fst e, key) else None)
    (map_to_list (blob_table d)).
Fixpoint sweep_rows (d : Db) (rows : list (bytes * bytes)) : Db * list bytes :=
  match rows with
  | [] => (d, [])
  | (text, key) :: rows =>
      if decide ((blob_table d !! text) ≫= temp_key = Some key) then
        let '(d, swept) := sweep_rows (with_blobs (base.delete text) d) rows in (d, key :: swept)
      else sweep_rows d rows
  end.
Definition sweep_unclaimed (d : Db) (cutoff : bytes) : Db * list bytes := sweep_rows d (stale d cutoff).

(** [blobs_query] and [Actor::blobs]; [missing_blobs_query] and
    [Actor::missing_blobs]. *)
Definition after (cursor : option bytes) (text : bytes) : bool :=
  match cursor with Some cursor => str_ltb cursor text | None => true end.
Definition grouped (texts : list bytes) : list bytes :=
  merge_sort str_le (elements (list_to_set (C := gset bytes) texts)).
Definition blobs_query (d : Db) (since : option bytes) (limit : Z) (cursor : option bytes) : list bytes :=
  take (Z.to_nat limit) (grouped (omap (fun e =>
    if after cursor (fst e)
       && match since with
          | None => true
          | Some since => match record_table d !! snd e with
                          | Some row => str_ltb since (rec_rev row)
                          | None => false
                          end
          end
    then Some (fst e) else None) (elements (record_blob d)))).
Definition blobs_page (d : Db) (since : option bytes) (limit : Z) (cursor : option bytes) : result Error (list Cid) :=
  collect (map (parse_or "a blob that is not a CID") (blobs_query d since limit cursor)).
Definition min_uri (d : Db) (text : bytes) : bytes :=
  default [] (head (merge_sort str_le
    (map snd (List.filter (fun e => bool_decide (fst e = text)) (elements (record_blob d)))))).
Definition missing_blobs_query (d : Db) (limit : Z) (cursor : option bytes) : list (bytes * bytes) :=
  map (fun text => (text, min_uri d text))
    (take (Z.to_nat limit) (grouped (omap (fun e =>
      if after cursor (fst e) && negb (bool_decide (is_Some (blob_table d !! fst e)))
      then Some (fst e) else None) (elements (record_blob d))))).
Definition missing_blobs (d : Db) (limit : Z) (cursor : option bytes) : result Error (list MissingBlob) :=
  collect (map (fun e => cid ← parse_or "a blob that is not a CID" (fst e); Ok (MkMissingBlob cid (snd e)))
    (missing_blobs_query d limit cursor)).

End Actor.
