(* ===== verification/ActorFacts.v ===== *)
(** * ActorFacts: what a commit does to an account's store

    [Actor.commit] writes six tables and a directory in one go.  The invariant
    [consistent] is what every other query relies on: a record's block is
    stored, a blob a record names is claimed and a claimed blob is named by a
    record, and every link and every hold belongs to a record that is there.
    A commit keeps it; a commit that does not land keeps everything. *)

From S2P Require Import Prelude Syntax Crypto Block Json Storage Blobs Actor Concrete.

(* ------------------------------------------------------------------ *)
(** ** Reasoning about a transaction *)

(** What holds where a computation succeeds, and what holds however it ends. *)
Definition ensures {A} (P : Tx -> Prop) (c : W A) (Q : A -> Tx -> Prop) : Prop :=
  forall t, P t -> match c t with (t', Ok a) => Q a t' | (_, Err _) => True end.
Definition always {A} (P : Tx -> Prop) (c : W A) : Prop := forall t, P t -> P (fst (c t)).

Lemma ensures_bind {A B} P (c : W A) (f : A -> W B) Q R :
  ensures P c Q -> (forall a, ensures (Q a) (f a) R) -> ensures P (a ← c; f a) R.
Proof.
  intros Hc Hf t Ht; specialize (Hc t Ht); unfold mbind, W_bind.
  destruct (c t) as [t' [a|e]]; [by apply Hf|done].
Qed.

Lemma ensures_ret {A} (P : Tx -> Prop) (a : A) Q : (forall t, P t -> Q a t) -> ensures P (mret a) Q.
Proof. by intros Hp t Ht; apply Hp. Qed.

Lemma ensures_each {A} (f : A -> W unit) (P : list A -> Tx -> Prop) l :
  (forall a l, ensures (P (a :: l)) (f a) (fun _ => P l)) -> ensures (P l) (each f l) (fun _ => P []).
Proof.
  intros Hf; induction l as [|a l IH]; cbn [each]; [by apply ensures_ret|].
  eapply ensures_bind; [apply Hf|done].
Qed.

Lemma ensures_conseq {A} (P P' : Tx -> Prop) (c : W A) (Q Q' : A -> Tx -> Prop) :
  ensures P c Q -> (forall t, P' t -> P t) -> (forall a t, Q a t -> Q' a t) -> ensures P' c Q'.
Proof.
  intros Hc Hp Hq t Ht; specialize (Hc t (Hp t Ht)). destruct (c t) as [t' [a|e]]; [by apply Hq|done].
Qed.

Lemma ensures_pure {A} (phi : Prop) P (c : W A) Q :
  (phi -> ensures P c Q) -> ensures (fun t => phi /\ P t) c Q.
Proof. intros Hc t [Hp Ht]; by apply Hc. Qed.

Lemma always_bind {A B} P (c : W A) (f : A -> W B) :
  always P c -> (forall a, always P (f a)) -> always P (a ← c; f a).
Proof.
  intros Hc Hf t Ht; specialize (Hc t Ht); unfold mbind, W_bind.
  destruct (c t) as [t' [a|e]]; cbn in *; [by apply Hf|done].
Qed.

Lemma always_each {A} P (f : A -> W unit) l : (forall a, always P (f a)) -> always P (each f l).
Proof. intros Hf; induction l as [|a l IH]; cbn [each]; [by intros t|]. by apply always_bind. Qed.

(** What looks only at the files and at what was linked. *)
Definition files_only (P : Tx -> Prop) : Prop :=
  forall t t', fs t' = fs t -> linked (leaving t') = linked (leaving t) -> P t -> P t'.

Lemma always_quiet {A} P (c : W A) :
  files_only P -> (forall t, fs (fst (c t)) = fs t /\ linked (leaving (fst (c t))) = linked (leaving t)) ->
  always P c.
Proof. intros Hp Hc t Ht; destruct (Hc t) as [Hf Hl]. by eapply Hp. Qed.

Section Facts.
Context `{Sha256} `{CidText} `{!CidTextOk}.
Context (blobs : Blobs) (did : Did.t) (stamp : bytes) (now : Z).

Lemma cid_text_inj c c' : cid_to_string c = cid_to_string c' -> c = c'.
Proof. intros E; pose proof (cid_text_roundtrip c) as Hc. rewrite E, cid_text_roundtrip in Hc. congruence. Qed.

(* ------------------------------------------------------------------ *)
(** ** The files a revision that does not land leaves *)

(** The files are those of [f0], under the names they had and the names that
    were linked, which none had. *)
Definition linked_onto (f0 : Fs.t) (t : Tx) : Prop :=
  Fs.content <$> Fs.files (fs t) = Fs.content <$> Fs.files f0
  /\ (forall p i, Fs.names f0 !! p = Some i -> Fs.names (fs t) !! p = Some i)
  /\ (forall p, Fs.names f0 !! p = None -> is_Some (Fs.names (fs t) !! p) ->
        exists c, c ∈ linked (leaving t) /\ p = path blobs did c)
  /\ (forall c, c ∈ linked (leaving t) -> Fs.names f0 !! path blobs did c = None).

Lemma linked_onto_files f0 : files_only (linked_onto f0).
Proof. intros t t' Hf Hl; unfold linked_onto; by rewrite Hf, Hl. Qed.

Lemma touch_content (m : gmap positive Fs.File) i n :
  Fs.content <$> alter (fun f => Fs.MkFile (Fs.content f) n) i m = Fs.content <$> m.
Proof.
  apply map_eq; intros j; rewrite !lookup_fmap. destruct (decide (i = j)) as [<-|Hne].
  - rewrite lookup_alter_eq. by destruct (m !! i).
  - by rewrite lookup_alter_ne.
Qed.

Lemma link_upload_linked f0 key c : always (linked_onto f0) (link_upload blobs did now key c).
Proof.
  intros t (Hc & Hn & Hp & Hl); unfold link_upload, Blobs.claim.
  destruct (Fs.names (fs t) !! temp_path blobs did key) as [i|] eqn:Et; [|by split_and!].
  destruct (Fs.names (fs t) !! path blobs did c) as [j|] eqn:Ej.
  - unfold Fs.set_modified; rewrite Ej; cbn. split_and!; try done. cbn. by rewrite touch_content.
  - cbn; unfold linked_onto; cbn. split_and!; [done| | |].
    + intros p k Hk; rewrite lookup_insert_ne; [by apply Hn|]. intros <-. apply Hn in Hk. congruence.
    + intros p Hp0 Hs; destruct (decide (path blobs did c = p)) as [<-|Hne]; [exists c; split; [set_solver|done]|].
      rewrite lookup_insert_ne in Hs by done. destruct (Hp p Hp0 Hs) as (c' & ? & ?); exists c'; set_solver.
    + intros c' [Hc'|Hc']%elem_of_app; [by apply Hl|]. apply list_elem_of_singleton in Hc' as ->.
      destruct (Fs.names f0 !! path blobs did c) eqn:E; [apply Hn in E; congruence|done].
Qed.

Ltac quiet := apply always_quiet; [apply linked_onto_files|by intros ?].
Ltac walk := repeat first
  [ apply always_bind; [|intros ?]
  | apply always_each; intros ?
  | apply link_upload_linked
  | quiet ].

Lemma let_go_linked f0 kept cids : always (linked_onto f0) (let_go kept cids).
Proof.
  induction cids as [|c cids IH]; cbn [let_go]; [quiet|]. walk.
  case_match; [exact IH|]. walk; exact IH.
Qed.

Lemma claim_linked f0 at_ b : always (linked_onto f0) (claim blobs did now at_ b).
Proof. unfold claim; walk. repeat case_match; walk. Qed.

Lemma landing_linked f0 from root bs rs : always (linked_onto f0) (landing blobs did stamp now from root bs rs).
Proof.
  assert (forall root kept r, always (linked_onto f0) (index_one blobs did stamp now root kept r)) as Hi.
  { intros ? ? [c k put ls named|c k]; cbn [index_one]; unfold dereference;
      repeat first [apply let_go_linked|apply claim_linked|apply always_bind; [|intros ?]
        |apply always_each; intros ?|quiet]. }
  unfold landing, index.
  repeat first [apply Hi|apply always_bind; [|intros ?]|apply always_each; intros ?|quiet].
  - unfold ask_again; walk. case_match; walk.
  - intros t Ht; unfold move_root; repeat case_match; done.
Qed.

(** The same names over the same contents. *)
Definition same_files (f f' : Fs.t) : Prop :=
  Fs.names f' = Fs.names f /\ Fs.content <$> Fs.files f' = Fs.content <$> Fs.files f.

Lemma deleted f c :
  Fs.names (Blobs.delete blobs f did c) = base.delete (path blobs did c) (Fs.names f)
  /\ Fs.files (Blobs.delete blobs f did c) = Fs.files f.
Proof.
  unfold Blobs.delete, forget, Fs.remove.
  destruct (Fs.names f !! path blobs did c) eqn:E; [done|]. by rewrite delete_id.
Qed.

Lemma taken_back f0 cids : forall f,
  Fs.content <$> Fs.files f = Fs.content <$> Fs.files f0 ->
  (forall p i, Fs.names f0 !! p = Some i -> Fs.names f !! p = Some i) ->
  (forall p, Fs.names f0 !! p = None -> is_Some (Fs.names f !! p) -> exists c, c ∈ cids /\ p = path blobs did c) ->
  (forall c, c ∈ cids -> Fs.names f0 !! path blobs did c = None) ->
  same_files f0 (fold_left (fun f c => Blobs.delete blobs f did c) cids f).
Proof.
  induction cids as [|c cids IH]; intros f Hc Hn Hp Hl; cbn [fold_left].
  - split; [|done]. apply map_eq; intros p. destruct (Fs.names f0 !! p) eqn:E; [by apply Hn|].
    destruct (Fs.names f !! p) eqn:Ef; [|done]. destruct (Hp p E) as (? & []%elem_of_nil & _); eauto.
  - destruct (deleted f c) as [En Ef]; apply IH; rewrite ?En, ?Ef; [done| | |].
    + intros p i Hi; rewrite lookup_delete_ne; [by apply Hn|].
      intros <-; rewrite (Hl c) in Hi; [done|left].
    + intros p Hp0 [Hne Hs]%lookup_delete_is_Some. destruct (Hp p Hp0 Hs) as (c' & Hin & ->).
      apply elem_of_cons in Hin as [->|?]; [done|eauto].
    + intros c' Hin; apply Hl; by right.
Qed.

(* ------------------------------------------------------------------ *)
(** ** The tables a revision leaves *)

(** What every query relies on. *)
Record consistent (d : Db) : Prop := {
  holds_recorded : forall b u, (b, u) ∈ record_blob d -> is_Some (record_table d !! u);
  holds_claimed : forall b u, (b, u) ∈ record_blob d ->
    exists row, blob_table d !! b = Some row /\ temp_key row = None;
  claimed_held : forall b row, blob_table d !! b = Some row -> temp_key row = None ->
    exists u, (b, u) ∈ record_blob d;
  holds_named : forall b u, (b, u) ∈ record_blob d -> exists c, b = cid_to_string c;
  links_recorded : forall u p, is_Some (backlink d !! (u, p)) -> is_Some (record_table d !! u);
  records_stored : forall u r, record_table d !! u = Some r -> is_Some (repo_block d !! rec_cid r)
}.

(** The same halfway through: the record at [open] may have holds and links and
    no row yet, a blob of [spare] may be claimed and not held, and the blobs
    [gone] are the ones whose rows went. *)
Record Mid (d0 : Db) (spare : bytes -> Prop) (open : bytes -> Prop) (gone : list Cid) (d : Db) : Prop := {
  mid_recorded : forall b u, (b, u) ∈ record_blob d -> open u \/ is_Some (record_table d !! u);
  mid_claimed : forall b u, (b, u) ∈ record_blob d ->
    exists row, blob_table d !! b = Some row /\ temp_key row = None;
  mid_held : forall b row, blob_table d !! b = Some row -> temp_key row = None ->
    spare b \/ exists u, (b, u) ∈ record_blob d;
  mid_named : forall b u, (b, u) ∈ record_blob d -> exists c, b = cid_to_string c;
  mid_linked : forall u p, is_Some (backlink d !! (u, p)) -> open u \/ is_Some (record_table d !! u);
  mid_gone : forall c, c ∈ gone -> blob_table d !! cid_to_string c = None;
  mid_noted : forall b, is_Some (blob_table d0 !! b) ->
    is_Some (blob_table d !! b) \/ exists c, c ∈ gone /\ b = cid_to_string c;
  mid_from : forall b, is_Some (blob_table d !! b) -> is_Some (blob_table d0 !! b)
}.

Lemma consistent_mid d spare : consistent d -> Mid d spare (fun _ => False) [] d.
Proof. intros []; split; try (by eauto); set_solver. Qed.

Lemma mid_consistent d0 d spare open gone :
  Mid d0 spare open gone d -> (forall b, ~ spare b) -> (forall u, ~ open u) ->
  (forall u r, record_table d !! u = Some r -> is_Some (repo_block d !! rec_cid r)) -> consistent d.
Proof.
  intros [] Hs Ho Hst; split; try done.
  - intros b u Hu; destruct (mid_recorded0 b u Hu) as [[]%Ho|?]; done.
  - intros b row Hb Hk; destruct (mid_held0 b row Hb Hk) as [[]%Hs|?]; done.
  - intros u p Hu; destruct (mid_linked0 u p Hu) as [[]%Ho|?]; done.
Qed.

Lemma mid_mono d0 (spare spare' open open' : bytes -> Prop) gone d :
  Mid d0 spare open gone d -> (forall b, spare b -> spare' b) -> (forall u, open u -> open' u) ->
  Mid d0 spare' open' gone d.
Proof.
  intros [] Hs Ho; split; try done.
  - intros b u Hu; destruct (mid_recorded0 b u Hu) as [?%Ho|?]; [by left|by right].
  - intros b row Hb Hk; destruct (mid_held0 b row Hb Hk) as [?%Hs|?]; [by left|by right].
  - intros u p Hu; destruct (mid_linked0 u p Hu) as [?%Ho|?]; [by left|by right].
Qed.

Lemma held_spec d b : held d b = true <-> exists u, (b, u) ∈ record_blob d.
Proof.
  unfold held; rewrite existsb_exists; split.
  - intros ([b' u] & Hin & Hb%bool_decide_eq_true); cbn in Hb; subst b'.
    exists u; by apply elem_of_elements, list_elem_of_In.
  - intros [u Hu]; exists (b, u); split; [by apply list_elem_of_In, elem_of_elements|by apply bool_decide_eq_true].
Qed.

Lemma mid_unlink d0 spare open gone d at_ :
  Mid d0 spare open gone d -> Mid d0 spare open gone (with_links (filter (fun e => e.1.1 <> at_)) d).
Proof.
  intros []; split; cbn; try done. intros u p [l [Hl _]%map_lookup_filter_Some]; eauto.
Qed.

Lemma mid_link d0 spare (open : bytes -> Prop) gone d at_ p l :
  open at_ -> Mid d0 spare open gone d -> Mid d0 spare open gone (with_links (insert (at_, p) l) d).
Proof.
  intros Ho []; split; cbn; try done. intros u p'; rewrite lookup_insert_is_Some'; naive_solver.
Qed.

(** Dropping the holds of one record leaves its blobs to be looked at. *)
Lemma mid_unhold d0 (spare : bytes -> Prop) open gone d at_ :
  Mid d0 spare open gone d ->
  Mid d0 (fun b => spare b \/ b ∈ holding d at_) open gone (with_holds (filter (fun e => e.2 <> at_)) d).
Proof.
  intros []; split; cbn; try done.
  - intros b u [_ ?]%elem_of_filter; eauto.
  - intros b u [_ ?]%elem_of_filter; eauto.
  - intros b row Hb Hk. destruct (mid_held0 b row Hb Hk) as [?|[u Hu]]; [by left; left|].
    destruct (decide (u = at_)) as [->|Hne].
    + left; right; unfold holding. apply list_elem_of_In, in_map_iff; exists (b, at_); split; [done|].
      apply filter_In; split; [by apply list_elem_of_In, elem_of_elements|by apply bool_decide_eq_true].
    + right; exists u; apply elem_of_filter; by split.
  - intros b u [_ ?]%elem_of_filter; eauto.
Qed.

Lemma mid_drop_blob d0 (spare spare' : bytes -> Prop) open gone d c :
  Mid d0 spare open gone d -> (forall u, (cid_to_string c, u) ∉ record_blob d) ->
  (forall b, spare b -> b = cid_to_string c \/ spare' b) ->
  Mid d0 spare' open (gone ++ [c]) (with_blobs (base.delete (cid_to_string c)) d).
Proof.
  intros [] Hn Hs; split; cbn; try done.
  - intros b u Hb; destruct (mid_claimed0 b u Hb) as (row & Hr & Hk).
    exists row; rewrite lookup_delete_ne; [done|]. intros <-; by apply (Hn u).
  - intros b row [Hne Hb]%lookup_delete_Some Hk. destruct (mid_held0 b row Hb Hk) as [Hsp|?]; [|by right].
    destruct (Hs b Hsp); [congruence|by left].
  - intros c'; rewrite elem_of_app, list_elem_of_singleton; intros [Hc| ->]; [|apply lookup_delete_eq].
    rewrite lookup_delete_None; right; by apply mid_gone0.
  - intros b Hb; destruct (decide (cid_to_string c = b)) as [<-|Hne]; [right; exists c; set_solver|].
    rewrite lookup_delete_ne by done. destruct (mid_noted0 b Hb) as [?|(c' & ? & ->)]; [by left|right].
    exists c'; set_solver.
  - intros b [_ Hb]%lookup_delete_is_Some; eauto.
Qed.

Lemma mid_spared d0 (spare spare' : bytes -> Prop) open gone d :
  Mid d0 spare open gone d ->
  (forall b, spare b -> spare' b \/ (exists u, (b, u) ∈ record_blob d) \/ blob_table d !! b = None) ->
  Mid d0 spare' open gone d.
Proof.
  intros [] Hs; split; try done. intros b row Hb Hk.
  destruct (mid_held0 b row Hb Hk) as [Hsp|?]; [|by right].
  destruct (Hs b Hsp) as [?|[?|?]]; [by left|by right|congruence].
Qed.

(** The record a commit is at is the one open. *)
Lemma mid_claim d0 spare (open : bytes -> Prop) gone d at_ c row :
  Mid d0 spare open gone d -> open at_ -> blob_table d !! cid_to_string c = Some row ->
  Mid d0 spare open gone
    (with_blobs (alter settle (cid_to_string c)) (with_holds (union {[(cid_to_string c, at_)]}) d)).
Proof.
  intros [] Ho Hrow; split; cbn; try done.
  - intros b u; rewrite elem_of_union, elem_of_singleton; naive_solver.
  - intros b u; rewrite elem_of_union, elem_of_singleton; intros [[= -> ->]|Hb].
    + exists (settle row); by rewrite lookup_alter_eq, Hrow.
    + destruct (mid_claimed0 b u Hb) as (row' & Hr & Hk). destruct (decide (cid_to_string c = b)) as [<-|Hne].
      * exists (settle row'); by rewrite lookup_alter_eq, Hr.
      * exists row'; by rewrite lookup_alter_ne.
  - intros b row'; destruct (decide (cid_to_string c = b)) as [<-|Hne].
    + intros _ _; right; exists at_; set_solver.
    + rewrite lookup_alter_ne by done. intros Hb Hk; destruct (mid_held0 b row' Hb Hk) as [?|[u ?]]; [by left|].
      right; exists u; set_solver.
  - intros b u; rewrite elem_of_union, elem_of_singleton; intros [[= -> ->]|?]; eauto.
  - intros c' Hc'; rewrite lookup_alter_None; eauto.
  - intros b Hb; destruct (mid_noted0 b Hb) as [?|?]; [left|by right]. by apply lookup_alter_is_Some.
  - intros b ?%lookup_alter_is_Some; eauto.
Qed.

Lemma mid_put d0 spare (open : bytes -> Prop) gone d at_ row :
  Mid d0 spare open gone d ->
  Mid d0 spare (fun u => open u /\ u <> at_) gone (with_records (insert at_ row) d).
Proof.
  intros []; split; cbn; try done.
  - intros b u Hu; rewrite lookup_insert_is_Some'. destruct (decide (u = at_)) as [->|]; [by right; left|].
    destruct (mid_recorded0 b u Hu) as [?|?]; [by left|by right; right].
  - intros u p Hu; rewrite lookup_insert_is_Some'. destruct (decide (u = at_)) as [->|]; [by right; left|].
    destruct (mid_linked0 u p Hu) as [?|?]; [by left|by right; right].
Qed.

Lemma mid_take d0 spare (open : bytes -> Prop) gone d at_ :
  Mid d0 spare open gone d -> holding d at_ = [] -> (forall p, backlink d !! (at_, p) = None) ->
  Mid d0 spare open gone (with_records (base.delete at_) d).
Proof.
  intros [] Hh Hl; split; cbn; try done.
  - intros b u Hu. assert (at_ <> u) as Hne.
    { intros <-. assert (b ∈ holding d at_) as Hin; [|rewrite Hh in Hin; by apply elem_of_nil in Hin].
      unfold holding; apply list_elem_of_In, in_map_iff; exists (b, at_); split; [done|].
      apply filter_In; split; [by apply list_elem_of_In, elem_of_elements|by apply bool_decide_eq_true]. }
    rewrite lookup_delete_ne by done; eauto.
  - intros u p Hu. assert (at_ <> u) as Hne by (intros <-; rewrite Hl in Hu; by destruct Hu).
    rewrite lookup_delete_ne by done; eauto.
Qed.

(* ------------------------------------------------------------------ *)
(** ** Each step of the index *)

Section Index.
Context (d0 : Db) (blk : gmap bytes BlockRow) (spare : bytes -> Prop).

(** [more] is what has gone and is not noted yet. *)
Definition mid (spare open : bytes -> Prop) (more : list Cid) (t : Tx) : Prop :=
  Mid d0 spare open (orphaned (cleared (leaving t)) ++ more) (db t)
  /\ repo_block (db t) = blk /\ repo_root (db t) = repo_root d0.
Definition unlinked (at_ : bytes) (m : gmap (bytes * bytes) bytes) : Prop := forall p, m !! (at_, p) = None.
Definition unholding (at_ : bytes) (t : Tx) : Prop := holding (db t) at_ = [].
Definition named (b : bytes) : Prop := exists c, b = cid_to_string c.

Lemma let_go_mid kept open at_ R cids : forall more,
  (forall b, b ∈ kept -> spare b) -> Forall named cids ->
  ensures (fun t => mid (fun b => spare b \/ b ∈ cids) open more t /\ R (backlink (db t)) /\ unholding at_ t)
    (let_go kept cids)
    (fun gone t => mid spare open (more ++ gone) t /\ R (backlink (db t)) /\ unholding at_ t).
Proof.
  intros more Hk; revert more; induction cids as [|c cids IH]; intros more Hn; cbn [let_go].
  - apply ensures_ret; intros t ((Hm & Hb & Hr) & Hu & Hh). rewrite app_nil_r; unfold mid; split_and!; try done.
    eapply mid_mono; [exact Hm| |done]. intros b [?|?%elem_of_nil]; done.
  - apply Forall_cons in Hn as [[c' ->] Hn].
    eapply (ensures_bind _ _ _ (fun (still : bool) t => still = held (db t) (cid_to_string c')
      /\ mid (fun b => spare b \/ b ∈ cid_to_string c' :: cids) open more t /\ R (backlink (db t)) /\ unholding at_ t));
      [by intros t Ht|]. intros still.
    destruct (bool_decide (cid_to_string c' ∈ kept) || still) eqn:E.
    + eapply ensures_conseq; [apply (IH more Hn)| |done].
      intros t (-> & (Hm & Hb & Hr) & Hu); split; [|done]. unfold mid; split_and!; [|done|done].
      eapply mid_spared; [exact Hm|]. intros b [?|[->|?]%elem_of_cons]; [by left; left| |by left; right].
      apply orb_true_iff in E as [E|E].
      * apply bool_decide_eq_true in E. left; left; by apply Hk.
      * right; left; by apply held_spec.
    + apply orb_false_iff in E as [_ ->].
      eapply (ensures_bind _ _ _ (fun _ t =>
        mid (fun b => spare b \/ b ∈ cids) open (more ++ [c']) t /\ R (backlink (db t)) /\ unholding at_ t)).
      { intros t (Hs & (Hm & Hb & Hr) & Hu); cbn; split; [|done]. unfold mid; split_and!; [|done|done]. cbn.
        rewrite app_assoc; eapply mid_drop_blob; [exact Hm| |].
        - intros u Hin; assert (held (db t) (cid_to_string c') = true) by (apply held_spec; eauto). congruence.
        - intros b [?|[->|?]%elem_of_cons]; [by right; left|by left|by right; right]. }
      intros _. eapply (ensures_bind _ _ _ (fun a t => a = c'
        /\ mid (fun b => spare b \/ b ∈ cids) open (more ++ [c']) t /\ R (backlink (db t)) /\ unholding at_ t)).
      { intros t Ht; unfold lift, parse_or; by rewrite cid_text_roundtrip. }
      intros a; apply ensures_pure; intros ->; eapply ensures_bind; [apply (IH (more ++ [c']) Hn)|].
      intros rest; apply ensures_ret; intros t Ht. by rewrite <- app_assoc in Ht.
Qed.

Lemma holding_nil d at_ :
  holding d at_ = [] <-> forall b, (b, at_) ∉ record_blob d.
Proof.
  unfold holding; split.
  - intros Hh b Hin. assert (b ∈ map fst (List.filter (fun e => bool_decide (snd e = at_)) (elements (record_blob d)))) as Hb;
      [|rewrite Hh in Hb; by apply elem_of_nil in Hb].
    apply list_elem_of_In, in_map_iff; exists (b, at_); split; [done|].
    apply filter_In; split; [by apply list_elem_of_In, elem_of_elements|by apply bool_decide_eq_true].
  - intros Hn; destruct (List.filter _ _) as [|[b u] l] eqn:E; [done|].
    assert (In (b, u) (List.filter (fun e => bool_decide (snd e = at_)) (elements (record_blob d)))) as Hin
      by (rewrite E; by left).
    apply filter_In in Hin as [Hin Hu%bool_decide_eq_true]; cbn in Hu; subst u.
    apply list_elem_of_In, elem_of_elements in Hin. by apply Hn in Hin.
Qed.

Lemma dereference_mid kept open at_ R :
  (forall b, b ∈ kept -> spare b) ->
  ensures (fun t => mid spare open [] t /\ R (backlink (db t))) (dereference at_ kept)
    (fun gone t => mid spare open gone t /\ R (backlink (db t)) /\ unholding at_ t).
Proof.
  intros Hk; unfold dereference.
  eapply (ensures_bind _ _ _ (fun cids t => Forall named cids /\ cids = holding (db t) at_
    /\ mid spare open [] t /\ R (backlink (db t)))).
  { intros t ((Hm & Hb & Hr) & Hu); cbn; split_and!; try done. apply Forall_forall; intros b Hin.
    unfold holding in Hin; apply list_elem_of_In, in_map_iff in Hin as ([b' u] & <- & Hin).
    apply filter_In in Hin as [Hin _]; apply list_elem_of_In, elem_of_elements in Hin.
    by eapply mid_named. }
  intros cids; apply ensures_pure; intros Hn.
  eapply (ensures_bind _ _ _ (fun _ t =>
    mid (fun b => spare b \/ b ∈ cids) open [] t /\ R (backlink (db t)) /\ unholding at_ t)).
  - intros t (-> & (Hm & Hb & Hr) & Hu); cbn; unfold mid; split_and!; try done; cbn.
    + by apply mid_unhold.
    + apply holding_nil; intros b [Hne _]%elem_of_filter; by apply Hne.
  - intros _; apply (let_go_mid kept open at_ R cids [] Hk Hn).
Qed.

Lemma note_orphaned_mid open gone (R : Tx -> Prop) :
  (forall t l, R t -> R (MkTx (db t) (fs t) l)) ->
  ensures (fun t => mid spare open gone t /\ R t) (note_orphaned gone)
    (fun _ t => mid spare open [] t /\ R t).
Proof.
  intros HR t ((Hm & Hb & Hr) & Ht); cbn; split; [|by apply HR]. unfold mid; cbn; by rewrite app_nil_r.
Qed.

(** What a step does not look at. *)
Definition same_tables (t t' : Tx) : Prop :=
  db t' = db t /\ orphaned (cleared (leaving t')) = orphaned (cleared (leaving t)).

Lemma mid_same open more t t' : same_tables t t' -> mid spare open more t -> mid spare open more t'.
Proof. intros [E1 E2]; unfold mid; by rewrite E1, E2. Qed.

Lemma claim_mid (open : bytes -> Prop) at_ b :
  open at_ ->
  ensures (mid spare open []) (claim blobs did now at_ b) (fun _ => mid spare open []).
Proof.
  intros Ho; unfold claim; set (text := cid_to_string (b_cid b)).
  eapply (ensures_bind _ _ _ (fun found t => found = upload (db t) text /\ mid spare open [] t)); [by intros t|].
  intros [row|]; [|by intros t].
  eapply (ensures_bind _ _ _ (fun _ t => upload (db t) text = Some row /\ mid spare open [] t)).
  { intros t [E Hm]; destruct (temp_key row) as [key|]; [|by split]. destruct (decide (blob_mime row <> mime b)); [done|]. destruct (negb _); [done|].
    unfold mbind, W_bind, link_upload; destruct (Blobs.claim _ _ _ _ _ _) as [[f [|]]|e]; cbn; [| |done].
    - split; [done|]. by eapply mid_same; [|exact Hm].
    - split; [done|]. by eapply mid_same; [|exact Hm]. }
  intros _ t [E (Hm & Hb & Hr)]; cbn; unfold mid; cbn; split_and!; [|done|done].
  unfold upload in E; destruct (blob_table (db t) !! text) as [row'|] eqn:Er; [|done].
  by eapply mid_claim.
Qed.

Lemma index_one_mid root kept r :
  (forall b, b ∈ kept -> spare b) ->
  ensures (mid spare (fun _ => False) []) (index_one blobs did stamp now root kept r)
    (fun _ => mid spare (fun _ => False) []).
Proof.
  intros Hk; assert (forall open at_, ensures (mid spare open []) (unlink at_)
    (fun _ t => mid spare open [] t /\ unlinked at_ (backlink (db t)))) as Hunlink.
  { intros open at_ t (Hm & Hb & Hr); cbn; split; [unfold mid; cbn; split_and!; [by apply mid_unlink|done|done]|].
    intros p; cbn; apply map_lookup_filter_None; right; intros l _ Hne; by apply Hne. }
  destruct r as [c k put ls bs|c k]; cbn [index_one]; generalize (uri did c k) as at_; intros at_.
  - set (open := fun u => u = at_).
    assert (forall t, mid spare (fun _ => False) [] t -> mid spare open [] t) as Hopen.
    { intros t (Hm & ? & ?); unfold mid; split_and!; [|done|done]. by eapply mid_mono. }
    eapply (ensures_bind _ _ _ (fun _ => mid spare open [])).
    { eapply ensures_conseq; [apply (Hunlink open at_)|done|by intros _ t [? _]]. }
    intros _; eapply (ensures_bind _ _ _ (fun _ => mid spare open [])).
    { apply (ensures_each _ (fun _ => mid spare open [])); intros l _ t (Hm & Hb & Hr); cbn.
      unfold mid; cbn; split_and!; [|done|done]. unfold with_links.
      destruct (backlink (db t) !! (at_, bl_path l)); [by destruct (db t)|by apply mid_link]. }
    intros _; eapply (ensures_bind _ _ _ (fun gone t => mid spare open gone t /\ True)).
    { eapply ensures_conseq; [apply (dereference_mid kept open at_ (fun _ => True) Hk)|done|by intros ? t (? & _)]. }
    intros gone; eapply ensures_bind; [by apply (note_orphaned_mid open gone (fun _ => True))|].
    intros ?; eapply (ensures_bind _ _ _ (fun _ => mid spare open [])).
    { eapply ensures_conseq; [apply (ensures_each _ (fun _ => mid spare open []))| |done]; [|by intros t [? _]].
      intros b _; by apply claim_mid. }
    intros _ t (Hm & Hb & Hr); cbn; unfold mid; cbn; split_and!; [|done|done].
    assert (forall row,
      Mid d0 spare (fun _ => False) (orphaned (cleared (leaving t)) ++ []) (with_records (insert at_ row) (db t))) as Hp.
    { intros row; eapply mid_mono; [apply mid_put, Hm|done|].
      intros u [Hu Hne]; by apply Hne. }
    unfold with_records; destruct (record_table (db t) !! at_); by apply Hp.
  - eapply ensures_bind; [apply Hunlink|]. intros ?; cbn beta.
    eapply ensures_bind; [by apply (dereference_mid kept _ at_ (unlinked at_))|]. intros gone; cbn beta.
    eapply ensures_bind; [eapply (note_orphaned_mid _ gone (fun t => unlinked at_ (backlink (db t)) /\ unholding at_ t)); by intros|].
    intros _ t ((Hm & Hb & Hr) & Hu & Hh); cbn; unfold mid; cbn; split_and!; [|done|done].
    by apply mid_take.
Qed.

End Index.

(* ------------------------------------------------------------------ *)
(** ** The block table *)

(** [insert or ignore], block after block, and the deletes that look at the
    index first. *)
Definition store_row (root : Root) (m : gmap bytes BlockRow) (e : Cid * bytes) : gmap bytes BlockRow :=
  match m !! cid_to_string (fst e) with
  | Some _ => m
  | None => <[cid_to_string (fst e) := MkBlockRow (Tid.str (rev root)) (to_i64 (len (snd e))) (snd e)]> m
  end.
Definition stored_rows (root : Root) (l : list (Cid * bytes)) (m : gmap bytes BlockRow) : gmap bytes BlockRow :=
  fold_left (store_row root) l m.
Definition let_go_of (d : Db) (cids : list Cid) (b : bytes) : bool :=
  bool_decide (b ∈ map cid_to_string cids) && negb (indexed_under d b).

Lemma store_blocks root l : forall t,
  each (store_block root) l t = (MkTx (with_blocks (stored_rows root l) (db t)) (fs t) (leaving t), Ok tt).
Proof.
  induction l as [|e l IH]; intros t; cbn [each]; [by destruct t as [[] ? ?]|].
  unfold mbind, W_bind, store_block at 1, modify. by rewrite IH.
Qed.

Lemma stored_rows_spec root l : forall m b,
  stored_rows root l m !! b = match m !! b with
    | Some r => Some r
    | None => (fun e => MkBlockRow (Tid.str (rev root)) (to_i64 (len (snd e))) (snd e)) <$>
                List.find (fun e => bool_decide (cid_to_string (fst e) = b)) l
    end.
Proof.
  induction l as [|e l IH]; intros m b; [by cbn; destruct (m !! b)|].
  change (stored_rows root (e :: l) m) with (stored_rows root l (store_row root m e)); cbn [List.find].
  rewrite IH; unfold store_row; destruct (decide (cid_to_string (fst e) = b)) as [<-|Hne].
  - rewrite bool_decide_true by done. destruct (m !! cid_to_string (fst e)) eqn:E; [by rewrite E|].
    by rewrite lookup_insert_eq.
  - rewrite bool_decide_false by done. destruct (m !! cid_to_string (fst e)) eqn:E; [done|].
    by rewrite lookup_insert_ne.
Qed.

Lemma forget_blocks l : forall t,
  exists m, each forget_block l t = (MkTx (with_blocks (fun _ => m) (db t)) (fs t) (leaving t), Ok tt)
    /\ forall b, m !! b = if let_go_of (db t) l b then None else repo_block (db t) !! b.
Proof.
  induction l as [|c l IH]; intros t; cbn [each].
  - exists (repo_block (db t)); split; [by destruct t as [[] ? ?]|]. intros b; unfold let_go_of.
    rewrite bool_decide_false; [done|apply not_elem_of_nil].
  - unfold mbind, W_bind, forget_block at 1, modify.
    destruct (indexed_under (db t) (cid_to_string c)) eqn:E.
    + destruct (IH t) as (m & Em & Hm). exists m; split; [by rewrite <- Em; destruct t|].
      intros b; rewrite Hm; unfold let_go_of; cbn [map]. destruct (decide (b = cid_to_string c)) as [->|Hne].
      * by rewrite E, !andb_false_r.
      * by rewrite (bool_decide_ext (b ∈ cid_to_string c :: map cid_to_string l) (b ∈ map cid_to_string l)) by set_solver.
    + destruct (IH (MkTx (with_blocks (base.delete (cid_to_string c)) (db t)) (fs t) (leaving t))) as (m & Em & Hm).
      exists m; split; [exact Em|]. cbn in Hm; intros b; rewrite Hm; unfold let_go_of; cbn [map].
      change (indexed_under (with_blocks _ (db t)) b) with (indexed_under (db t) b).
      destruct (decide (b = cid_to_string c)) as [->|Hne].
      * rewrite E, lookup_delete_eq. rewrite (bool_decide_true (_ ∈ cid_to_string c :: _)) by set_solver. by case_match.
      * rewrite lookup_delete_ne by done.
        by rewrite (bool_decide_ext (b ∈ cid_to_string c :: map cid_to_string l) (b ∈ map cid_to_string l)) by set_solver.
Qed.

Lemma indexed_under_spec d b :
  indexed_under d b = true <-> exists u r, record_table d !! u = Some r /\ rec_cid r = b.
Proof.
  unfold indexed_under; rewrite existsb_exists; split.
  - intros ([u r] & Hin & Hb%bool_decide_eq_true). exists u, r; split; [|done].
    by apply elem_of_map_to_list, list_elem_of_In.
  - intros (u & r & Hr & <-); exists (u, r); split; [|by apply bool_decide_eq_true].
    by apply list_elem_of_In, elem_of_map_to_list.
Qed.

Lemma mid_blocks d0 spare open gone d m :
  Mid d0 spare open gone d -> Mid d0 spare open gone (with_blocks (fun _ => m) d).
Proof. intros []; by split. Qed.

(* ------------------------------------------------------------------ *)
(** ** The revision as a whole *)

Lemma kept_named records b : b ∈ kept records -> exists c, b = cid_to_string c.
Proof.
  unfold kept; rewrite elem_of_list_to_set. intros Hb.
  apply list_elem_of_In, in_concat in Hb as (l & Hl & Hb). apply in_map_iff in Hl as ([? ? ? ? named|] & <- & _); [|done].
  apply in_map_iff in Hb as (x & <- & _). by eexists.
Qed.

Lemma ask_again_mid d0 (rest : list bytes) m : Forall (fun b => exists c, b = cid_to_string c) rest ->
  ensures (fun t => mid d0 m (fun b => b ∈ rest) (fun _ => False) [] t) (each ask_again rest)
    (fun _ t => mid d0 m (fun _ => False) (fun _ => False) [] t).
Proof.
  intros Hn; eapply (ensures_conseq (fun t => Forall (fun b => exists c, b = cid_to_string c) rest
      /\ mid d0 m (fun b => b ∈ rest) (fun _ => False) [] t) _ _
      (fun _ t => Forall (fun b => exists c, b = cid_to_string c) []
      /\ mid d0 m (fun b => b ∈ []) (fun _ => False) [] t)); [|done|].
  - apply (ensures_each _ (fun rest t => Forall (fun b => exists c, b = cid_to_string c) rest
      /\ mid d0 m (fun b => b ∈ rest) (fun _ => False) [] t)).
    clear Hn rest; intros b rest t [Hn (Hm & Hb & Hr)]; apply Forall_cons in Hn as [[c ->] Hn].
    unfold ask_again, mbind, W_bind, ask; destruct (held (db t) (cid_to_string c)) eqn:E.
    + cbn; split; [done|]. unfold mid; split_and!; [|done|done]. eapply mid_spared; [exact Hm|].
      intros b [->|?]%elem_of_cons; [right; left; by apply held_spec|by left].
    + unfold modify, lift, parse_or; rewrite cid_text_roundtrip; cbn. split; [done|].
      unfold mid; cbn; split_and!; [|done|done]. rewrite app_nil_r in *. eapply mid_drop_blob; [exact Hm| |].
      * intros u Hin; assert (held (db t) (cid_to_string c) = true) by (apply held_spec; eauto). congruence.
      * by intros b ?%elem_of_cons.
  - intros _ t [_ (Hm & ?)]; split; [|done]. eapply mid_mono; [exact Hm|by intros b ?%elem_of_nil|done].
Qed.

(** The rows of the index, record after record. *)
Definition index_row (root : Root) (m : gmap bytes RecordRow) (r : Indexed) : gmap bytes RecordRow :=
  match r with
  | Put collection rkey c _ _ =>
      let at_ := uri did collection rkey in
      let '(collection, rkey) := match m !! at_ with
        | Some row => (rec_collection row, rec_rkey row)
        | None => (Nsid.str collection, RecordKey.str rkey)
        end in
      <[at_ := MkRecordRow (cid_to_string c) collection rkey (Tid.str (rev root)) stamp]> m
  | Delete collection rkey => base.delete (uri did collection rkey) m
  end.
Definition index_rows (root : Root) (records : list Indexed) (m : gmap bytes RecordRow) : gmap bytes RecordRow :=
  fold_left (index_row root) records m.

(** Every record a commit leaves indexed points at a block it writes or one
    that is already stored. *)
Definition blocks_given (d : Db) (root : Root) (bs : Blocks) (records : list Indexed) : Prop :=
  forall u r, index_rows root records (record_table d) !! u = Some r ->
    (exists c, rec_cid r = cid_to_string c /\ is_Some (written bs !! c)) \/ is_Some (repo_block d !! rec_cid r).

Lemma given_stored d root bs records u r :
  blocks_given d root bs records -> index_rows root records (record_table d) !! u = Some r ->
  is_Some (stored_rows root (BlockMap.iter (written bs)) (repo_block d) !! rec_cid r).
Proof.
  intros Hg Hr; destruct (Hg u r Hr) as [(c & -> & b & Hb)|[row E]]; rewrite stored_rows_spec; [|by rewrite E].
  destruct (repo_block d !! cid_to_string c) eqn:E; [by eexists|]. apply fmap_is_Some.
  destruct (List.find _ _) eqn:Ef; [by eexists|exfalso].
  apply iter_elem, list_elem_of_In in Hb. pose proof (find_none _ _ Ef _ Hb) as Hf. cbn in Hf.
  by apply bool_decide_eq_false in Hf.
Qed.

(** The root a store is at, and the one a commit was built on. *)
Definition root_at (d : Db) : option bytes := root_cid <$> repo_root d !! Did.str did.
Definition root_named (from : option Root) : option bytes := (fun r => cid_to_string (cid r)) <$> from.

(** The state a landing ends in. *)
Record Landed (d : Db) (from : option Root) (root : Root) (bs : Blocks) (records : list Indexed) (t : Tx) : Prop := {
  landed_consistent : consistent (db t);
  landed_gone : forall c, c ∈ orphaned (cleared (leaving t)) -> blob_table (db t) !! cid_to_string c = None;
  landed_noted : forall b, is_Some (blob_table d !! b) -> blob_table (db t) !! b = None ->
    exists c, c ∈ orphaned (cleared (leaving t)) /\ b = cid_to_string c;
  landed_blocks : forall b, repo_block (db t) !! b =
    if let_go_of (db t) (dropped bs) b then None
    else stored_rows root (BlockMap.iter (written bs)) (repo_block d) !! b;
  landed_root : repo_root (db t)
    = <[Did.str did := MkRootRow (cid_to_string (cid root)) (Tid.str (rev root)) stamp]> (repo_root d);
  landed_from : root_at d = root_named from;
  landed_records : record_table (db t) = index_rows root records (record_table d)
}.

Lemma move_root_landed d from root bs records t t' blk :
  blocks_given d root bs records -> record_table (db t) = index_rows root records (record_table d) ->
  Mid d (fun _ => False) (fun _ => False) (orphaned (cleared (leaving t))) (db t) ->
  repo_root (db t) = repo_root d ->
  blk = stored_rows root (BlockMap.iter (written bs)) (repo_block d) ->
  (forall b, repo_block (db t) !! b = if let_go_of (db t) (dropped bs) b then None else blk !! b) ->
  move_root did stamp from root t = (t', Ok true) -> Landed d from root bs records t'.
Proof.
  intros Hg Ht Hm Hr -> Hb Hmove. unfold move_root in Hmove; rewrite Hr in Hmove.
  assert (t' = MkTx (with_root (insert (Did.str did)
      (MkRootRow (cid_to_string (cid root)) (Tid.str (rev root)) stamp)) (db t)) (fs t) (leaving t)
    /\ root_at d = root_named from) as [-> Hf].
  { unfold root_at, root_named; destruct from as [from|], (repo_root d !! Did.str did) as [row|]; try done.
    - case_decide; [|done]. injection Hmove as <-; split; [done|]. cbn; congruence.
    - by injection Hmove as <-. }
  assert (forall u r, record_table (db t) !! u = Some r -> is_Some (repo_block (db t) !! rec_cid r)) as Hst.
  { intros u r E; rewrite Hb; unfold let_go_of. rewrite (proj2 (indexed_under_spec _ _)), andb_false_r by eauto.
    rewrite Ht in E. by eapply given_stored. }
  pose proof (mid_consistent _ _ _ _ _ Hm ltac:(tauto) ltac:(tauto) Hst) as []. destruct Hm. split; cbn.
  - by split.
  - done.
  - intros b Hs Hn; destruct (mid_noted0 b Hs) as [[? ?]|?]; [congruence|done].
  - exact Hb.
  - by rewrite Hr.
  - exact Hf.
  - exact Ht.
Qed.

Lemma index_mid d0 blk root records :
  ensures (mid d0 blk (fun b => b ∈ kept records) (fun _ => False) [])
    (index blobs did stamp now root records)
    (fun k t => k = kept records /\ mid d0 blk (fun b => b ∈ kept records) (fun _ => False) [] t).
Proof.
  unfold index; eapply (ensures_bind _ _ _ (fun _ => mid d0 blk (fun b => b ∈ kept records) (fun _ => False) [])).
  - apply (ensures_each _ (fun _ => mid d0 blk (fun b => b ∈ kept records) (fun _ => False) [])).
    intros r rs; by apply index_one_mid.
  - intros _; by apply ensures_ret.
Qed.

Lemma ask_again_records l : forall t,
  record_table (db (fst (each ask_again l t))) = record_table (db t).
Proof.
  induction l as [|b l IH]; intros t; [done|]; cbn [each].
  unfold mbind, W_bind, ask_again at 1, ask, mbind, W_bind, modify, lift.
  destruct (held (db t) b); [apply IH|]. destruct (parse_or _ _); [|done]. cbn; by rewrite IH.
Qed.

(** What a step does to the index, where it succeeds. *)
Lemma let_go_records kept l : forall t, record_table (db (fst (let_go kept l t))) = record_table (db t).
Proof.
  induction l as [|c l IH]; intros t; [done|]; cbn [let_go].
  unfold mbind, W_bind, ask at 1. destruct (_ || _); [apply IH|]. cbn [modify fst snd db].
  unfold lift; destruct (parse_or _ _) as [k|e]; [|done].
  specialize (IH (MkTx (with_blobs (base.delete c) (db t)) (fs t) (leaving t))).
  by destruct (let_go kept l _) as [t' [a|e]]; cbn in *.
Qed.

Lemma claim_records at_ b t : record_table (db (fst (claim blobs did now at_ b t))) = record_table (db t).
Proof.
  unfold claim, mbind, W_bind, ask, link_upload. destruct (upload _ _) as [row|]; [|done].
  destruct (temp_key row) as [key|]; [|done]. destruct (decide _); [done|]. destruct (negb _); [done|].
  by destruct (Blobs.claim _ _ _ _ _ _) as [[f [|]]|e].
Qed.

Lemma each_records {A} (f : A -> W unit) l :
  (forall a t, record_table (db (fst (f a t))) = record_table (db t)) ->
  forall t, record_table (db (fst (each f l t))) = record_table (db t).
Proof.
  intros Hf; induction l as [|a l IH]; intros t; [done|]; cbn [each]. unfold mbind, W_bind.
  specialize (Hf a t). destruct (f a t) as [t' [[]|e]]; cbn in *; [by rewrite IH|done].
Qed.

Definition indexes (m : gmap bytes RecordRow) (t : Tx) : Prop := record_table (db t) = m.

Lemma quiet_indexes {A} (c : W A) m :
  (forall t, record_table (db (fst (c t))) = record_table (db t)) -> ensures (indexes m) c (fun _ => indexes m).
Proof. intros Hc t Ht; specialize (Hc t). destruct (c t) as [t' [a|e]]; cbn in *; [by rewrite <- Ht|done]. Qed.

Lemma dereference_records at_ kept m :
  ensures (indexes m) (dereference at_ kept) (fun _ => indexes m).
Proof.
  apply quiet_indexes; intros t; unfold dereference, mbind, W_bind, ask, modify. by rewrite let_go_records.
Qed.

Lemma index_one_records root kept r m :
  ensures (indexes m) (index_one blobs did stamp now root kept r) (fun _ => indexes (index_row root m r)).
Proof.
  destruct r as [c k put ls bs|c k]; cbn [index_one index_row];
    (eapply ensures_bind; [by apply quiet_indexes|]; intros ?).
  - eapply ensures_bind.
    { apply quiet_indexes, each_records. by intros l t. }
    intros ?; eapply ensures_bind; [apply dereference_records|]; intros gone.
    eapply ensures_bind; [by apply quiet_indexes|]; intros ?.
    eapply ensures_bind; [apply quiet_indexes, each_records; intros b t; apply claim_records|]; intros ?.
    intros t <-; unfold put_record, modify, indexes; cbn [db with_records record_table].
    by destruct (record_table (db t) !! _).
  - eapply ensures_bind; [apply dereference_records|]; intros gone.
    eapply ensures_bind; [by apply quiet_indexes|]; intros ?. intros t Ht; cbn. by rewrite <- Ht.
Qed.

Lemma index_records root records m :
  ensures (indexes m) (index blobs did stamp now root records) (fun _ => indexes (index_rows root records m)).
Proof.
  unfold index; eapply (ensures_bind _ _ _ (fun _ => indexes (index_rows root records m))); [|intros ?; by apply ensures_ret].
  generalize (kept records); intros ks.
  eapply ensures_conseq; [apply (ensures_each _ (fun rs t =>
    exists m', indexes m' t /\ index_rows root rs m' = index_rows root records m))| |].
  - intros r rs t (m' & Hm & E). pose proof (index_one_records root ks r m' t Hm) as Hi.
    destruct (index_one _ _ _ _ _ _ _ t) as [t' [[]|e]]; [|done]. by exists (index_row root m' r).
  - by intros t Ht; exists m.
  - by intros _ t (m' & Hm & <-).
Qed.

Lemma landing_lands d f from root bs records :
  consistent d ->
  match landing blobs did stamp now from root bs records (MkTx d f (MkLeaving (MkCommitted [] []) [])) with
  | (t, Ok true) => root_at d = root_named from /\ (blocks_given d root bs records -> Landed d from root bs records t)
  | (t, Ok false) => root_at d <> root_named from
  | _ => True
  end.
Proof.
  intros Hd; unfold landing. set (blk := stored_rows root (BlockMap.iter (written bs)) (repo_block d)).
  unfold mbind at 1, W_bind at 1; rewrite store_blocks; cbn [db fs leaving]; fold blk.
  set (t1 := MkTx _ _ _).
  assert (mid d blk (fun b => b ∈ kept records) (fun _ => False) [] t1) as Ht1.
  { unfold mid; cbn; split_and!; [|done|done]. by apply mid_blocks, consistent_mid. }
  pose proof (index_mid d blk root records t1 Ht1) as Hi.
  pose proof (index_records root records (record_table d) t1 eq_refl) as Hx.
  unfold mbind at 1, W_bind at 1.
  destruct (index blobs did stamp now root records t1) as [t2 [ks|e]]; [|done].
  destruct Hi as [-> (Hm2 & Hb2 & Hr2)].
  unfold mbind at 1, W_bind at 1. destruct (forget_blocks (dropped bs) t2) as (m & -> & Hm).
  unfold mbind at 1, W_bind at 1. set (t3 := MkTx _ _ _).
  assert (mid d m (fun b => b ∈ elements (kept records)) (fun _ => False) [] t3) as Ht3.
  { unfold mid; cbn; split_and!; [|done|exact Hr2]. apply mid_blocks.
    eapply mid_mono; [exact Hm2|intros b; apply elem_of_elements|done]. }
  assert (Forall (fun b => exists c, b = cid_to_string c) (elements (kept records))) as Hn.
  { apply Forall_forall; intros b Hb%elem_of_elements; by apply kept_named in Hb. }
  pose proof (ask_again_mid d (elements (kept records)) m Hn) as Ha.
  assert (record_table (db t3) = record_table (db t2)) as Ert by done.
  pose proof (ask_again_records (elements (kept records))) as Hrt.
  specialize (Ha t3 Ht3); specialize (Hrt t3).
  destruct (each ask_again (elements (kept records)) t3) as [t4 [[]|e]]; [|done]. destruct Ha as (Hm4 & Hb4 & Hr4).
  destruct (move_root did stamp from root t4) as [t5 [[|]|e]] eqn:Emove; [| |done].
  2: { unfold move_root in Emove; rewrite Hr4 in Emove; unfold root_at, root_named.
       destruct from as [from|], (repo_root d !! Did.str did) as [row|]; try done.
       case_decide; [done|]. cbn; congruence. }
  split.
  { unfold move_root in Emove; rewrite Hr4 in Emove; unfold root_at, root_named.
    destruct from as [from|], (repo_root d !! Did.str did) as [row|]; try done. case_decide; [cbn; congruence|done]. }
  intros Hg. eapply (move_root_landed d from root bs records t4 t5 blk);
    [done|by cbn in Hrt; rewrite Hrt|by rewrite app_nil_r in Hm4|done|done| |done].
  intros b; rewrite Hb4, Hm, Hb2. unfold let_go_of.
  assert (indexed_under (db t2) b = indexed_under (db t4) b) as ->; [|done].
  unfold indexed_under; cbn in Hrt; by rewrite Hrt.
Qed.

End Facts.

(* ================================================================== *)
(** * The properties *)

Section Properties.
Context `{Sha256} `{CidText} `{!CidTextOk}.
Context (blobs : Blobs) (did : Did.t) (stamp : bytes) (now : Z).

(** A commit as a whole: it lands, on the root it was built on, or it leaves
    everything. *)
Lemma commit_cases d f from root bs records :
  consistent d ->
  let '(d', f', answer) := commit blobs did stamp now d f from root bs records in
  match answer with
  | Ok (Some cleared) => root_at did d = root_named from
      /\ exists t, (blocks_given did stamp d root bs records -> Landed did stamp d from root bs records t) /\ d' = db t
      /\ cleared = Actor.cleared (leaving t)
  | _ => d' = d /\ same_files f f' /\ (answer = Ok None -> root_at did d <> root_named from)
  end.
Proof.
  intros Hd; pose proof (landing_lands blobs did stamp now d f from root bs records Hd) as Hl.
  set (t0 := MkTx d f (MkLeaving (MkCommitted [] []) [])) in *.
  assert (linked_onto blobs did f t0) as H0'.
  { split_and!; [done|done|by intros p Hp0 [x Hx]; cbn in Hx; rewrite Hp0 in Hx|by intros c ?%elem_of_nil]. }
  pose proof (landing_linked blobs did stamp now f from root bs records t0 H0') as (Hc & Hn & Hp & Hk).
  unfold commit; fold t0.
  destruct (landing blobs did stamp now from root bs records t0) as [t [[|]|e]]; cbn [fst] in *.
  - destruct Hl as [Hr Hl]; split; [done|]. by exists t.
  - split; [done|]. split; [by apply taken_back|done].
  - split; [done|]. split; [by apply taken_back|done].
Qed.

Lemma commit_outcome d f from root bs records :
  consistent d -> blocks_given did stamp d root bs records ->
  let '(d', f', answer) := commit blobs did stamp now d f from root bs records in
  match answer with
  | Ok (Some cleared) => exists t, Landed did stamp d from root bs records t /\ d' = db t
      /\ cleared = Actor.cleared (leaving t)
  | _ => d' = d /\ same_files f f' /\ (answer = Ok None -> root_at did d <> root_named from)
  end.
Proof.
  intros Hd Hg; pose proof (commit_cases d f from root bs records Hd) as Hc.
  destruct (commit _ _ _ _ _ _ _ _ _ _) as [[d' f'] [[c|]|e]]; [|done|done].
  destruct Hc as [_ (t & Hl & Hx)]. exists t; split; [by apply Hl|done].
Qed.

(** One built on another root than the store is at leaves everything. *)
Lemma commit_too_late d f from root bs records :
  consistent d -> root_at did d <> root_named from ->
  let '(d', f', answer) := commit blobs did stamp now d f from root bs records in
  d' = d /\ same_files f f' /\ forall c, answer <> Ok (Some c).
Proof.
  intros Hd Hne; pose proof (commit_cases d f from root bs records Hd) as Hc.
  destruct (commit _ _ _ _ _ _ _ _ _ _) as [[d' f'] [[c|]|e]]; [by destruct Hc|by destruct Hc as (-> & ? & _)..].
Qed.

(** C15 (invariant). A commit keeps the store consistent, whether it lands or
    not: every record's block is stored; every blob held for a record is in the
    table and claimed, its name a CID's text, and every claimed blob is held for
    a record; and no hold or link outlives its record; whatever the batch writes,
    deletes, moves from one record to another or lets go of. The commit must hand
    over a block for each record it leaves indexed that is not stored already
    ([blocks_given]), which is what [Repo.apply] does ([WritesFacts]). *)
Theorem commit_keeps_the_store_consistent d f from root bs records :
  consistent d -> blocks_given did stamp d root bs records ->
  consistent (fst (fst (commit blobs did stamp now d f from root bs records))).
Proof.
  intros Hd Hg; pose proof (commit_outcome d f from root bs records Hd Hg) as Hl.
  destruct (commit _ _ _ _ _ _ _ _ _ _) as [[d' f'] [[c|]|e]]; cbn [fst].
  - destruct Hl as (t & Hl & -> & _); apply Hl.
  - by destruct Hl as [-> _].
  - by destruct Hl as [-> _].
Qed.

(** C21 (safety). A commit is all or nothing, and lands only on the root it was
    built on. Where it lands, the root was the one it names (or there was none,
    where it names none) and is now the new one, and no other account's is
    touched. Where it does not, because the root has moved or because anything
    failed, the tables are as they were, and so is every file: under the same
    names, with the same bytes, whatever was linked on the way. *)
Theorem commit_is_all_or_nothing d f from root bs records :
  consistent d -> blocks_given did stamp d root bs records ->
  let '(d', f', answer) := commit blobs did stamp now d f from root bs records in
  match answer with
  | Ok (Some _) => root_at did d = root_named from
      /\ repo_root d' = <[Did.str did := MkRootRow (cid_to_string (cid root)) (Tid.str (rev root)) stamp]> (repo_root d)
  | _ => d' = d /\ same_files f f' /\ (answer = Ok None -> root_at did d <> root_named from)
  end.
Proof.
  intros Hd Hg; pose proof (commit_outcome d f from root bs records Hd Hg) as Hl.
  destruct (commit _ _ _ _ _ _ _ _ _ _) as [[d' f'] [[c|]|e]]; [|exact Hl|exact Hl].
  destruct Hl as (t & [] & -> & _); by split.
Qed.

(** What is stored once a commit has landed, block by block. *)
Definition stored_after (d d' : Db) (bs : Blocks) (k : Cid) : result RepoError bytes :=
  if bool_decide (k ∈ dropped bs) && negb (indexed_under d' (cid_to_string k)) then Err (MissingBlock k)
  else match store_get (store d) k with
       | Ok b => Ok b
       | Err _ => store_get (BlockMap.store (written bs)) k
       end.

Lemma landed_store d from root bs records t k :
  Landed did stamp d from root bs records t -> store_get (store (db t)) k = stored_after d (db t) bs k.
Proof.
  intros Hl; cbn; unfold stored_after. rewrite (landed_blocks _ _ _ _ _ _ _ _ Hl); unfold let_go_of.
  rewrite (bool_decide_ext (cid_to_string k ∈ map cid_to_string (dropped bs)) (k ∈ dropped bs)).
  2: { split; [|by apply list_elem_of_fmap_2]. intros (k' & Ek & Hk)%list_elem_of_fmap.
       by apply cid_text_inj in Ek as ->. }
  case_match; [done|]. rewrite stored_rows_spec; cbn.
  destruct (repo_block d !! cid_to_string k); cbn; [done|]. unfold BlockMap.get.
  destruct (List.find _ _) as [[k' b]|] eqn:Ef.
  - apply find_some in Ef as [Hin Hb%bool_decide_eq_true]. cbn in Hb; apply cid_text_inj in Hb as ->.
    apply list_elem_of_In, iter_elem in Hin. by rewrite Hin.
  - destruct (written bs !! k) as [b|] eqn:Ew; [|done]. apply iter_elem, list_elem_of_In in Ew.
    pose proof (find_none _ _ Ef _ Ew) as Hf; cbn in Hf. by rewrite bool_decide_true in Hf.
Qed.

(** What a landing leaves stored: every block that was stored
    or handed over, under the bytes it was first stored with, less the ones the
    revision drops and no record is indexed under. A record's block is never
    dropped, even where the same bytes were let go of under another key. *)
Theorem commit_forgets_only_nobodys_blocks d f from root bs records d' f' c :
  consistent d -> blocks_given did stamp d root bs records ->
  commit blobs did stamp now d f from root bs records = (d', f', Ok (Some c)) ->
  (forall k, store_get (store d') k = stored_after d d' bs k)
  /\ (forall u r, record_table d' !! u = Some r -> is_Some (repo_block d' !! rec_cid r)).
Proof.
  intros Hd Hg E; pose proof (commit_outcome d f from root bs records Hd Hg) as Hl.
  rewrite E in Hl; destruct Hl as (t & Hl & -> & ->).
  split; [intros k; by eapply landed_store|apply (records_stored _ (landed_consistent _ _ _ _ _ _ _ _ Hl))].
Qed.

(** The files a landing tells its caller to unlink are exactly the
    ones nobody has any more: each blob it lists has no row left, so no record
    names it and no upload waits under it; and each blob that lost its row is
    listed, so no file is left behind. *)
Theorem commit_orphans_what_nobody_holds d f from root bs records d' f' c :
  consistent d -> blocks_given did stamp d root bs records ->
  commit blobs did stamp now d f from root bs records = (d', f', Ok (Some c)) ->
  (forall k, k ∈ orphaned c -> unheld d' k = true /\ forall u, (cid_to_string k, u) ∉ record_blob d')
  /\ (forall b, is_Some (blob_table d !! b) -> blob_table d' !! b = None ->
        exists k, k ∈ orphaned c /\ b = cid_to_string k).
Proof.
  intros Hd Hg E; pose proof (commit_outcome d f from root bs records Hd Hg) as Hl.
  rewrite E in Hl; destruct Hl as (t & Hl & -> & ->).
  destruct Hl as [Hcons Hgone Hnoted _ _ _ _]; split; [|done].
  intros k Hk%Hgone; split; [unfold unheld; by rewrite Hk|].
  intros u (row & Hr & _)%(holds_claimed _ Hcons). congruence.
Qed.

End Properties.

(* ------------------------------------------------------------------ *)
(** ** At a concrete store *)

Module Sample.

#[export] Existing Instances Json.Plain.cid_text Json.Plain.cid_text_ok Concrete.Mix.mixed.

Definition blobs : Blobs := MkBlobs [lit "blocks"].
Definition did : Did.t := Did.mk (lit "did:plc:a").
Definition stamp : bytes := lit "2024-01-01T00:00:00.000Z".
Definition key : bytes := lit "upload".
Definition post : Nsid.t := Nsid.mk (lit "app.bsky.post").
Definition rkey : RecordKey.t := RecordKey.mk (lit "3jui7kd2z").

Definition file : Cid := MkCid 1 85 18 [7]%Z.
Definition block : Cid := MkCid 1 113 18 [8]%Z.
Definition head : Root := MkRoot (MkCid 1 113 18 [9]%Z) (Tid.mk (lit "3jzfcijpj2z2a")).
Definition image : Blob := MkBlob file (lit "image/png") 3.

(** An upload nothing has claimed, and a revision whose one record claims it. *)
Definition uploaded : Db := add_blob stamp new_db image key.
Definition files : Fs.t := Fs.create Fs.empty (temp_path blobs did key) [1; 2; 3]%Z 0.
Definition handed : Blocks := MkBlocks {[block := [4; 5]%Z]} [block].
Definition records : list Indexed := [Put post rkey block [] [image]].

Lemma uploaded_consistent : consistent uploaded.
Proof.
  assert (uploaded = with_blobs (insert (cid_to_string file)
    (MkBlobRow (mime image) 3 (Some key) stamp None)) new_db) as -> by reflexivity.
  split; cbn -[cid_to_string lit]; try (by intros; set_solver).
  - intros b row; rewrite lookup_insert_Some, lookup_empty; intros [[_ <-]|[_ ?]]; done.
  - intros u p [? Hp]; by rewrite lookup_empty in Hp.
Qed.

Lemma handed_given : blocks_given did stamp uploaded head handed records.
Proof.
  intros u r. change (index_rows did stamp head records (record_table uploaded)) with
    ({[uri did post rkey := MkRecordRow (cid_to_string block) (Nsid.str post) (RecordKey.str rkey)
        (Tid.str (rev head)) stamp]} : gmap bytes RecordRow).
  intros [_ <-]%lookup_singleton_Some. left; exists block; split; [done|by eexists].
Qed.

Lemma lands : exists d' f' c,
  commit blobs did stamp 5 uploaded files None head handed records = (d', f', Ok (Some c)).
Proof.
  pose (is_landed := fun x : Db * Fs.t * result Error (option Committed) =>
    match x with (_, _, Ok (Some _)) => true | _ => false end).
  assert (is_landed (commit blobs did stamp 5 uploaded files None head handed records) = true) as Hl
    by (vm_compute; reflexivity).
  destruct (commit _ _ _ _ _ _ _ _ _ _) as [[d' f'] [[c|]|e]]; [|done..]. by exists d', f', c.
Qed.

End Sample.
Import Sample.

Lemma commit_keeps_the_store_consistent_witness :
  consistent (fst (fst (commit Sample.blobs Sample.did Sample.stamp 5 uploaded files None head handed records))).
Proof.
  apply commit_keeps_the_store_consistent; [apply uploaded_consistent|apply handed_given].
Defined.

Lemma commit_is_all_or_nothing_witness :
  let '(d', f', answer) :=
    commit Sample.blobs Sample.did Sample.stamp 5 uploaded files (Some head) head handed records in
  match answer with
  | Ok (Some _) => root_at Sample.did uploaded = root_named (Some head)
      /\ repo_root d' = <[Did.str Sample.did := MkRootRow (cid_to_string (cid head)) (Tid.str (rev head)) Sample.stamp]>
                          (repo_root uploaded)
  | _ => d' = uploaded /\ same_files files f' /\ (answer = Ok None -> root_at Sample.did uploaded <> root_named (Some head))
  end.
Proof.
  apply (commit_is_all_or_nothing Sample.blobs Sample.did Sample.stamp 5 uploaded files (Some head) head handed records);
    [apply uploaded_consistent|apply handed_given].
Defined.

Lemma commit_forgets_only_nobodys_blocks_witness : exists d',
  (forall k, store_get (store d') k = stored_after uploaded d' handed k)
  /\ (forall u r, record_table d' !! u = Some r -> is_Some (repo_block d' !! rec_cid r)).
Proof.
  destruct lands as (d' & f' & c & E); exists d'.
  exact (commit_forgets_only_nobodys_blocks _ _ _ _ _ _ _ _ _ _ _ _ _ uploaded_consistent handed_given E).
Defined.

Lemma commit_orphans_what_nobody_holds_witness : exists d' c,
  (forall k, k ∈ orphaned c -> unheld d' k = true /\ forall u, (cid_to_string k, u) ∉ record_blob d')
  /\ (forall b, is_Some (blob_table uploaded !! b) -> blob_table d' !! b = None ->
        exists k, k ∈ orphaned c /\ b = cid_to_string k).
Proof.
  destruct lands as (d' & f' & c & E); exists d', c.
  exact (commit_orphans_what_nobody_holds _ _ _ _ _ _ _ _ _ _ _ _ _ uploaded_consistent handed_given E).
Defined.
