(* ===== verification/ActorReads.v ===== *)
(** * ActorReads: reading an account's store a page at a time

    [Actor.blocks_since] hands out a repository's blocks newest revision first,
    with a mark for the page after.  Walking from mark to mark reads every
    block, once, and ends. *)

From S2P Require Import Prelude Syntax Block Json Storage Paging Actor ActorFacts.

(* ------------------------------------------------------------------ *)
(** ** The order of the revision index *)

Lemma newer_spec a b :
  newer a b = true <-> str_lt (fst b) (fst a) \/ (fst a = fst b /\ str_lt (snd b) (snd a)).
Proof.
  unfold newer, str_lt; rewrite (str_compare_antisym (fst a) (fst b)), (str_compare_antisym (snd a) (snd b)).
  destruct (str_compare (fst a) (fst b)) eqn:E1; cbn.
  - apply str_compare_eq in E1. destruct (str_compare (snd a) (snd b)); cbn; naive_solver.
  - split; [done|]. intros [?|[Heq _]]; [done|]. rewrite Heq, str_compare_refl in E1; done.
  - naive_solver.
Qed.

Lemma newer_trans a b c : newer a b = true -> newer b c = true -> newer a c = true.
Proof.
  rewrite !newer_spec. intros [H1|[E1 H1]] [H2|[E2 H2]].
  - left; by eapply str_lt_trans.
  - left; congruence.
  - left; congruence.
  - right; split; [congruence|by eapply str_lt_trans].
Qed.

Lemma newer_irrefl a : newer a a = false.
Proof.
  apply not_true_iff_false; rewrite newer_spec. intros [H|[_ H]]; by eapply str_lt_irrefl.
Qed.

Lemma newer_total a b : newer a b = true \/ a = b \/ newer b a = true.
Proof.
  rewrite !newer_spec. destruct (str_lt_total (fst a) (fst b)) as [?|[E|?]]; [by right; right; left| |by left; left].
  destruct (str_lt_total (snd a) (snd b)) as [?|[E'|?]]; [by right; right; right| |by left; right].
  right; left; destruct a, b; cbn in *; congruence.
Qed.

Lemma newest_first_spec a b : newest_first a b <-> fst a = fst b \/ newer (fst a) (fst b) = true.
Proof.
  unfold newest_first; destruct (newer_total (fst a) (fst b)) as [Hab|[E|Hba]].
  - rewrite Hab; split; [by right|intros _]. apply not_true_iff_false; intros Hba.
    pose proof (newer_trans _ _ _ Hab Hba) as Hn. by rewrite newer_irrefl in Hn.
  - rewrite E, newer_irrefl; split; [by left|done].
  - rewrite Hba; split; [done|]. intros [E|Hab]; [rewrite E, newer_irrefl in Hba; done|].
    pose proof (newer_trans _ _ _ Hab Hba) as Hn. by rewrite newer_irrefl in Hn.
Qed.

#[export] Instance newest_first_trans : Transitive newest_first.
Proof.
  intros a b c; rewrite !newest_first_spec. intros [E1|H1] [E2|H2]; [left; congruence|right; congruence..|].
  right; by eapply newer_trans.
Qed.

#[export] Instance newest_first_total : Total newest_first.
Proof.
  intros a b; rewrite !newest_first_spec. destruct (newer_total (fst a) (fst b)) as [?|[?|?]]; auto.
Qed.

Section Reads.
Context `{CidText} `{!CidTextOk}.

(** Every page, from mark to mark. *)
Fixpoint read_pages (fuel : nat) (d : Db) (since : option Tid.t) (from : option Mark) (limit : Z)
  : result Error (list (Cid * bytes)) :=
  match fuel with
  | O => Ok []
  | S fuel =>
      page ← blocks_since d since from limit;
      match next page with
      | None => Ok (page_blocks page)
      | Some mark => rest ← read_pages fuel d since (Some mark) limit; Ok (page_blocks page ++ rest)
      end
  end.

(** The blocks a revision after [since] wrote. *)
Definition written_since (since : option Tid.t) (r : (bytes * bytes) * bytes) : bool :=
  match since with Some since => str_ltb (Tid.str since) (fst (fst r)) | None => true end.
Definition rows_since (d : Db) (since : option Tid.t) : list ((bytes * bytes) * bytes) :=
  List.filter (written_since since) (block_rows d).
Definition named_blocks (d : Db) : Prop := forall k, is_Some (repo_block d !! k) -> exists c, k = cid_to_string c.

Definition page (d : Db) (since : option Tid.t) (limit : nat) (from : option (bytes * bytes))
  : list ((bytes * bytes) * bytes) :=
  take limit (merge_sort newest_first
    (List.filter (fun r => match from with Some m => newer m (fst r) | None => true end) (rows_since d since))).

Lemma filter_filter {A} (f g : A -> bool) l :
  List.filter g (List.filter f l) = List.filter (fun x => f x && g x) l.
Proof.
  induction l as [|x l IH]; cbn; [done|]. destruct (f x); cbn; [destruct (g x); by rewrite IH|done].
Qed.

Lemma blocks_query_page d since from limit :
  blocks_query d since from limit
  = page d since (Z.to_nat limit) ((fun m => (m_rev m, cid_to_string (m_cid m))) <$> from).
Proof. unfold blocks_query, page, rows_since; rewrite filter_filter. by destruct from. Qed.

Lemma block_rows_keys d : map (fun r => snd (fst r)) (block_rows d) = map fst (map_to_list (repo_block d)).
Proof. unfold block_rows; rewrite map_map; by apply map_ext. Qed.

Lemma rows_since_elem d since rev k b :
  ((rev, k), b) ∈ rows_since d since
  <-> written_since since ((rev, k), b) = true
      /\ exists row, repo_block d !! k = Some row /\ block_rev row = rev /\ block_content row = b.
Proof.
  unfold rows_since, block_rows; rewrite list_elem_of_In, filter_In, in_map_iff. split.
  - intros [([k' row] & [= <- <- <-] & Hin) Hw]; split; [done|]. exists row; split; [|done].
    by apply elem_of_map_to_list, list_elem_of_In.
  - intros [Hw (row & Hr & <- & <-)]; split; [|done]. exists (k, row); split; [done|].
    by apply list_elem_of_In, elem_of_map_to_list.
Qed.

Lemma NoDup_filter_list {A} (f : A -> bool) (l : list A) : NoDup l -> NoDup (List.filter f l).
Proof.
  induction 1 as [|x l Hx Hl IH]; cbn; [constructor|]. destruct (f x); [|done].
  constructor; [|done]. intros Hin%list_elem_of_In; apply filter_In in Hin as [Hin _].
  by apply Hx, list_elem_of_In.
Qed.

Lemma rows_since_nodup d since : NoDup (rows_since d since).
Proof.
  apply NoDup_filter_list. apply (NoDup_fmap_1 (fun r => snd (fst r))).
  change (NoDup (map (fun r => snd (fst r)) (block_rows d))). rewrite block_rows_keys.
  apply NoDup_fst_map_to_list.
Qed.

Lemma rows_distinguished d since : distinguishes newest_first (rows_since d since).
Proof.
  intros [[r1 k1] b1] [[r2 k2] b2] H1 H2; rewrite !newest_first_spec; cbn [fst].
  intros [E1|N1] [E2|N2].
  - apply rows_since_elem in H1 as (_ & row1 & ? & ? & ?), H2 as (_ & row2 & ? & ? & ?). by simplify_eq.
  - rewrite E1, newer_irrefl in N2; done.
  - rewrite E2, newer_irrefl in N1; done.
  - pose proof (newer_trans _ _ _ N1 N2) as N. by rewrite newer_irrefl in N.
Qed.

Lemma read_rows_named rows : forall last0,
  Forall (fun r => exists c, snd (fst r) = cid_to_string c) rows ->
  exists l, read_rows rows last0
      = Ok (l, match last rows with
               | Some r => (fun c => MkMark (fst (fst r)) c) <$> cid_parse (snd (fst r))
               | None => last0 end)
    /\ map (fun e => (cid_to_string (fst e), snd e)) l = map (fun r => (snd (fst r), snd r)) rows.
Proof.
  induction rows as [|[[rev k] b] rows IH]; intros last0 Hn; [by exists []|].
  apply Forall_cons in Hn as [[c Hc] Hn]; cbn [fst snd] in Hc; subst k; cbn [read_rows].
  unfold parse_or; rewrite cid_text_roundtrip; cbn [ok_or mbind result_bind].
  destruct (IH (Some (MkMark rev c)) Hn) as (l & -> & Hl). cbn [mbind result_bind].
  exists ((c, b) :: l); split; [|cbn; by f_equal]. do 2 f_equal.
  destruct rows as [|r rows]; cbn [last fst snd]; [by rewrite cid_text_roundtrip|].
  destruct (last (r :: rows)) eqn:E; [done|]. by apply last_None in E.
Qed.

Lemma read_pages_walk d since limit : (0 < limit)%Z -> named_blocks d ->
  forall fuel from, exists l, read_pages fuel d since from limit = Ok l
    /\ map (fun e => (cid_to_string (fst e), snd e)) l
       = map (fun r => (snd (fst r), snd r))
           (walk (page d since (Z.to_nat limit)) fst (Z.to_nat limit) fuel
             ((fun m => (m_rev m, cid_to_string (m_cid m))) <$> from)).
Proof.
  intros Hl Hn; induction fuel as [|fuel IH]; intros from; cbn [read_pages walk]; [by exists []|].
  unfold blocks_since; rewrite blocks_query_page.
  set (rows := page _ _ _ _).
  assert (Forall (fun r => exists c, snd (fst r) = cid_to_string c) rows) as Hf.
  { apply Forall_forall; intros [[rev k] b] Hr; cbn. unfold rows, page in Hr.
    apply elem_of_take in Hr as (i & Hr%list_elem_of_lookup_2 & _). rewrite merge_sort_Permutation in Hr.
    apply list_elem_of_In, filter_In in Hr as [Hr _]. apply list_elem_of_In, rows_since_elem in Hr as (_ & row & Hk & _).
    apply Hn; eauto. }
  destruct (read_rows_named rows None Hf) as (l & -> & El); cbn [mbind result_bind next page_blocks].
  destruct (last rows) as [[[rev k] b]|] eqn:Elast; cbn [fst snd].
  2: { exists l; split; [by destruct (len rows =? limit)%Z|]. apply last_None in Elast; rewrite El, Elast; done. }
  assert ((rev, k, b) ∈ rows) as Hin by (rewrite last_lookup in Elast; by eapply list_elem_of_lookup_2).
  rewrite Forall_forall in Hf; destruct (Hf _ Hin) as [c Hc]; cbn in Hc; subst k.
  rewrite cid_text_roundtrip; cbn [fmap option_fmap option_map].
  assert ((len rows =? limit)%Z = (length rows =? Z.to_nat limit)) as ->.
  { unfold len; destruct (Z.eqb_spec (Z.of_nat (length rows)) limit), (Nat.eqb_spec (length rows) (Z.to_nat limit)); lia. }
  destruct (length rows =? Z.to_nat limit); [|by exists l].
  destruct (IH (Some (MkMark rev c))) as (l2 & -> & El2); cbn [mbind result_bind].
  exists (l ++ l2); split; [done|]. rewrite !map_app, El; f_equal. exact El2.
Qed.

End Reads.

(* ================================================================== *)
(** * The properties *)

Section Properties.
Context `{CidText} `{!CidTextOk}.

(** Reading a repository page by page ends, whatever the page
    size, and reads every block a revision after [since] wrote, once, with its
    own bytes, the newest revision first: no page repeats a block of the one
    before or skips the blocks of a revision that spans two. *)
Lemma pages_read_every_block_once d since limit fuel :
  (0 < limit)%Z -> named_blocks d -> length (rows_since d since) < fuel ->
  exists l, read_pages fuel d since None limit = Ok l
    /\ map (fun e => (cid_to_string (fst e), snd e)) l
       = map (fun r => (snd (fst r), snd r)) (merge_sort newest_first (rows_since d since))
    /\ NoDup (map fst l)
    /\ forall c b, (c, b) ∈ l <-> exists row, repo_block d !! cid_to_string c = Some row
         /\ block_content row = b
         /\ match since with Some since => str_lt (Tid.str since) (block_rev row) | None => True end.
Proof.
  intros Hl Hn Hf; destruct (read_pages_walk d since limit Hl Hn fuel None) as (l & E & El).
  exists l; split; [exact E|]; cbn [fmap option_fmap option_map] in El.
  set (all := merge_sort newest_first (rows_since d since)).
  rewrite (walk_reads_all _ fst (Z.to_nat limit) all) in El; [|lia| | |].
  - split; [exact El|split].
    + apply (NoDup_fmap_1 cid_to_string). change (NoDup (map cid_to_string (map fst l))).
      replace (map cid_to_string (map fst l)) with (map (fun r => snd (fst r)) all).
      * apply (NoDup_fmap_2_strong (fun r : bytes * bytes * bytes => snd (fst r))).
        -- intros [[r1 k1] b1] [[r2 k2] b2] H1 H2 Ek; cbn in Ek; subst k2. unfold all in *.
           rewrite merge_sort_Permutation in H1, H2.
           apply rows_since_elem in H1 as (_ & row1 & ? & ? & ?), H2 as (_ & row2 & ? & ? & ?). by simplify_eq.
        -- unfold all; rewrite merge_sort_Permutation; apply rows_since_nodup.
      * apply (f_equal (map fst)) in El. rewrite !map_map in El; cbn in El. by rewrite map_map.
    + intros c b; transitivity ((cid_to_string c, b) ∈ map (fun e => (cid_to_string (fst e), snd e)) l).
      { split; [intros Hin; by apply (list_elem_of_fmap_2 (fun e => (cid_to_string (fst e), snd e))) in Hin|].
        intros ([c' b'] & [= Ec ->] & Hin)%list_elem_of_fmap.
        pose proof (cid_text_roundtrip c) as Hc; rewrite Ec, cid_text_roundtrip in Hc; by simplify_eq. }
      rewrite El; split.
      * intros ([[rev k] b'] & [= <- <-] & Hin)%list_elem_of_fmap. unfold all in Hin; rewrite merge_sort_Permutation in Hin.
        apply rows_since_elem in Hin as (Hw & row & Hr & <- & <-). exists row; split_and!; [done|done|].
        destruct since; [by apply str_ltb_spec|done].
      * intros (row & Hr & <- & Hw). apply (list_elem_of_fmap_2' _ _ ((block_rev row, cid_to_string c), block_content row)); [|done].
        unfold all; rewrite merge_sort_Permutation. apply rows_since_elem; split; [|by exists row].
        destruct since; [by apply str_ltb_spec|done].
  - unfold page; by rewrite (filter_all (fun _ => true)) by (by apply Forall_true).
  - intros i x Hx; unfold page; f_equal. apply (page_after newest_first _ _ i x); [apply rows_since_nodup|apply rows_distinguished|exact Hx|].
    intros y Hy; rewrite newest_first_spec. split.
    + intros N; split; [by right|]. intros ->; by rewrite newer_irrefl in N.
    + intros [[Ek|N] Hne]; [|done]. destruct Hne.
      assert (x ∈ rows_since d since) as Hxin by (apply list_elem_of_lookup_2 in Hx; unfold all in Hx; by rewrite merge_sort_Permutation in Hx).
      destruct x as [[r1 k1] b1], y as [[r2 k2] b2]; cbn in Ek; injection Ek as <- <-.
      apply rows_since_elem in Hy as (_ & row1 & ? & ? & ?), Hxin as (_ & row2 & ? & ? & ?). by simplify_eq.
  - unfold all; by rewrite merge_sort_Permutation.
Qed.

End Properties.

Import ActorFacts.Sample.

(** Three blocks of two revisions, two to a page. *)
Definition block_at (n : Z) : Cid := MkCid 1 113 18 [n].
Definition three : Db := with_blocks (fun _ => list_to_map
  [(cid_to_string (block_at 1), MkBlockRow (lit "3a") 1 [1%Z]);
   (cid_to_string (block_at 2), MkBlockRow (lit "3b") 1 [2%Z]);
   (cid_to_string (block_at 3), MkBlockRow (lit "3a") 1 [3%Z])]) new_db.

Lemma three_blocks_in_two_pages :
  exists l, read_pages 5 three None None 2 = Ok l
    /\ map (fun e => (cid_to_string (fst e), snd e)) l
       = map (fun r => (snd (fst r), snd r)) (merge_sort newest_first (rows_since three None))
    /\ NoDup (map fst l)
    /\ forall c b, (c, b) ∈ l <-> exists row, repo_block three !! cid_to_string c = Some row
         /\ block_content row = b /\ True.
Proof.
  apply (pages_read_every_block_once three None 2 5); [lia| |apply Nat.ltb_lt; vm_compute; reflexivity].
  intros k [row Hk]; cbn -[cid_to_string] in Hk; rewrite !lookup_insert_Some, lookup_empty in Hk; naive_solver.
Defined.
