(* ===== verification/Links.v ===== *)
(** * Links: what a record points at, and the blobs it names

    [src/src/account/backlink.rs] and [src/src/account/blobref.rs]: the four
    kinds of record an account is held to one of, and the walk over a record
    that finds every blob reference in it. *)

From S2P Require Import Prelude Syntax Crypto Ip Block Json Storage Blobs Actor.

Local Open Scope Z_scope.

(* ------------------------------------------------------------------ *)
(** ** Records that point only once *)

Module Backlink.

Definition FOLLOW : bytes := lit "app.bsky.graph.follow".
Definition BLOCK : bytes := lit "app.bsky.graph.block".
Definition LIKE : bytes := lit "app.bsky.feed.like".
Definition REPOST : bytes := lit "app.bsky.feed.repost".
Definition SUBJECT : bytes := lit "subject".
Definition SUBJECT_URI : bytes := lit "subject.uri".

Definition is_graph (kind : bytes) : bool := bool_decide (kind = FOLLOW) || bool_decide (kind = BLOCK).
Definition is_feed (kind : bytes) : bool := bool_decide (kind = LIKE) || bool_decide (kind = REPOST).

(** [backlink::of] and [held_to_one]. *)
Definition of_ (record : Ipld) : list Backlink :=
  match record with
  | IMap fields =>
      match BTree.get fields (lit "$type") with
      | Some (IString kind) =>
          if is_graph kind then
            match BTree.get fields SUBJECT with
            | Some (IString did) => if is_ok (from_str (T := Did.t) did) then [MkBacklink SUBJECT did] else []
            | _ => []
            end
          else if is_feed kind then
            match BTree.get fields SUBJECT with
            | Some (IMap subject) =>
                match BTree.get subject (lit "uri") with
                | Some (IString uri) => if is_ok (AtUri.parse uri) then [MkBacklink SUBJECT_URI uri] else []
                | _ => []
                end
            | _ => []
            end
          else []
      | _ => []
      end
  | _ => []
  end.
Definition held_to_one (collection : Nsid.t) : bool :=
  is_graph (Nsid.str collection) || is_feed (Nsid.str collection).

End Backlink.

(* ------------------------------------------------------------------ *)
(** ** Blob references *)

Module Blobref.

Definition KEYS : list bytes := map lit ["$type"; "ref"; "mimeType"; "size"]%string.

(** [claims_to_be_one] and [named]. *)
Definition claims_to_be_one (fields : list (bytes * Ipld)) : bool :=
  match BTree.get fields (lit "$type") with
  | Some (IString kind) => bool_decide (kind = lit "blob")
  | _ => false
  end.
Definition named (fields : list (bytes * Ipld)) : option Blob :=
  if negb (len fields =? len KEYS)
     || negb (forallb (fun key => bool_decide (is_Some (BTree.get fields key))) KEYS) then None
  else
    match BTree.get fields (lit "$type"), BTree.get fields (lit "ref"),
          BTree.get fields (lit "mimeType"), BTree.get fields (lit "size") with
    | Some (IString kind), Some (ILink cid), Some (IString mime), Some (IInteger size) =>
        if bool_decide (kind = lit "blob") && contains 47 mime && between 0 size U64_MAX
        then Some (MkBlob cid mime size) else None
    | _, _, _, _ => None
    end.

(** [walk] and [blobref::of]: what was found is let go of where the walk fails. *)
Fixpoint walk (value : Ipld) : result RepoError (list Blob) :=
  match value with
  | IList held => found ← collect (map walk held); Ok (concat found)
  | IMap fields =>
      match named fields with
      | Some blob => Ok [blob]
      | None =>
          if claims_to_be_one fields then Err (NotRecordData "a blob reference that is not one")
          else found ← collect (map (fun e => walk (snd e)) fields); Ok (concat found)
      end
  | _ => Ok []
  end.
Definition of_ (record : Ipld) : result RepoError (list Blob) := walk record.

End Blobref.
