(* ===== verification/Plc.v ===== *)
(** * Plc: the operation that mints an identifier, and registering it

    [src/src/plc.rs].  An operation is signed by a rotation key and the
    identifier is a hash of it.  Registering one is a handful of exchanges with
    a directory that may not answer: an exchange here is a computation over
    whatever the other end and the wire are ([Exchanges]), so [send] and
    [retire] are exactly the exchanges the code makes, in order; [Client] is what
    each comes to over HTTP.  The budgets
    are left out: an exchange out of time is one that was not answered.  What a
    directory said beside its status is for a log and is not carried. *)

From S2P Require Import Prelude Syntax Crypto Block Json.

Local Open Scope Z_scope.

(** [Error]. *)
Inductive PlcError :=
| PEncode (why : RepoError)
| PSignature
| PMalformed (why : string)
| Unreachable
| Uncertain
| Refused (status : Z).

(** Base64url without padding, which is the base64 crate's. *)
Class Base64Url := {
  b64_encode : bytes -> bytes;
  b64_decode : bytes -> option bytes
}.
Class Base64UrlOk `{Base64Url} : Prop := {
  b64_roundtrip : forall b, b64_decode (b64_encode b) = Some b;
  (* the decoder takes no other spelling of the same bytes *)
  b64_canonical : forall t b, b64_decode t = Some b -> t = b64_encode b;
  (* and the alphabet has no dot in it *)
  b64_plain : forall b, 46 ∉ b64_encode b
}.

(* ------------------------------------------------------------------ *)
(** ** Operations *)

Definition OPERATION : bytes := lit "plc_operation".
Definition TOMBSTONE : bytes := lit "plc_tombstone".
Definition ATPROTO : bytes := lit "atproto".
Definition PDS : bytes := lit "atproto_pds".
Definition PDS_TYPE : bytes := lit "AtprotoPersonalDataServer".
Definition LENGTH : nat := 24.

(** [Service], [Operation] and [Tombstone]. *)
Record Service := MkService { service_kind : bytes; endpoint : bytes }.
Record Operation := MkOperation {
  kind : bytes;
  rotation_keys : list bytes;
  verification_methods : list (bytes * bytes);
  also_known_as : list bytes;
  services : list (bytes * Service);
  prev : option bytes;
  sig : option bytes
}.
Record Tombstone := MkTombstone { t_kind : bytes; t_prev : bytes; t_sig : option bytes }.

Section Operations.
Context (p256 k256 : Curve) `{Sha256} `{CidText} `{Base58} `{Base64Url} `{!Codec Operation} `{!Codec Tombstone}.

Definition encode_plc {T} `{Codec T} (value : T) : result PlcError bytes := map_err PEncode (encode value).

(** [Operation::payload], [create] and [did]. *)
Definition payload (self : Operation) : result PlcError bytes :=
  encode_plc (MkOperation (kind self) (rotation_keys self) (verification_methods self) (also_known_as self)
                (services self) (prev self) None).
Definition create (handle : Handle.t) (pds : bytes) (signing_key : PublicKey p256 k256)
    (recovery_keys : list (PublicKey p256 k256)) (rotation : Keypair p256 k256) : result PlcError Operation :=
  let keys := map (display p256 k256) recovery_keys ++ [display p256 k256 (public_key p256 k256 rotation)] in
  let unsigned := MkOperation OPERATION keys [(ATPROTO, display p256 k256 signing_key)]
    [lit "at://" ++ Handle.str handle] [(PDS, MkService PDS_TYPE pds)] None None in
  b ← payload unsigned;
  Ok (MkOperation OPERATION keys (verification_methods unsigned) (also_known_as unsigned) (services unsigned) None
        (Some (b64_encode (sign p256 k256 rotation b)))).
Definition did (self : Operation) : result PlcError Did.t :=
  b ← encode_plc self;
  Ok (Did.mk (lit "did:plc:" ++ take LENGTH (base32 (sha256 b)))).

(** [Operation::verify]. *)
Definition signed_by (b signature : bytes) (key : bytes) : bool :=
  match Crypto.parse p256 k256 key with
  | Ok key => is_ok (verify p256 k256 key b signature)
  | Err _ => false
  end.
Definition verify_operation (self : Operation) : result PlcError unit :=
  if negb (bool_decide (kind self = OPERATION)) then Err (PMalformed "not a plc operation") else
  text ← ok_or (sig self) (PMalformed "operation carries no signature");
  signature ← ok_or (b64_decode text) PSignature;
  b ← payload self;
  if existsb (signed_by b signature) (rotation_keys self) then Ok tt else Err PSignature.

(** [Tombstone::create]. *)
Definition tombstone (previous : Operation) (rotation : Keypair p256 k256) : result PlcError Tombstone :=
  b ← encode_plc previous;
  let prev := cid_to_string (cid_for b) in
  unsigned ← encode_plc (MkTombstone TOMBSTONE prev None);
  Ok (MkTombstone TOMBSTONE prev (Some (b64_encode (sign p256 k256 rotation unsigned)))).

End Operations.

(* ------------------------------------------------------------------ *)
(** ** The directory *)

(** [Held]. *)
Inductive Held := Yes | No | Unknown.

(** An exchange as the client sees one end: [POST] of an operation or of a
    tombstone, as [exchange] reads what came back; and [GET] of the document,
    as [document] reads it. [W] is everything at the other end. *)
Record Exchanges (W : Type) := MkExchanges {
  post : W -> W * result PlcError unit;
  post_tombstone : W -> W * result PlcError unit;
  holds : W -> W * Held
}.
Arguments post {W}.
Arguments post_tombstone {W}.
Arguments holds {W}.

(** How [exchange] reads a status, and how [document] reads one: [answered] is
    whether the document came and names the identifier back. *)
Definition read_status (status : Z) : result PlcError unit :=
  if between 200 status 299 then Ok tt
  else if between 500 status 599 then Err Uncertain
  else Err (Refused status).
Definition read_document (status : Z) (answered : bool) : Held :=
  if status =? 404 then No
  else if negb (between 200 status 299) then Unknown
  else if answered then Yes else Unknown.

Section Client.
Context {W : Type} (x : Exchanges W).

(** [Client::confirm], [send] and [retire]. *)
Definition confirm (w : W) (sent : bool) : W * result PlcError unit :=
  let '(w, held) := holds x w in
  match held with
  | Yes => (w, Ok tt)
  | _ =>
      let '(w, again) := post x w in
      match again with
      | Ok _ => (w, Ok tt)
      | Err again =>
          let '(w, held) := holds x w in
          (w, match held with
              | Yes => Ok tt
              | No => Err again
              | Unknown =>
                  match sent, again with
                  | false, Uncertain => Err Uncertain
                  | false, _ => Err again
                  | true, _ => Err Uncertain
                  end
              end)
      end
  end.
Definition send (w : W) : W * result PlcError unit :=
  let '(w, answered) := post x w in
  match answered with
  | Err Unreachable => confirm w false
  | Err Uncertain => confirm w true
  | answered => (w, answered)
  end.
Definition retire (w : W) : W * bool :=
  let '(w, taken) := post_tombstone x w in
  match taken with
  | Err _ => (w, false)
  | Ok _ => let '(w, held) := holds x w in (w, match held with No => true | _ => false end)
  end.

End Client.
