(* ===== verification/Accounts.v ===== *)
(** * Accounts: who has an account here, and what they have authorized

    [src/src/store/accounts.rs].  The tables are finite maps on their primary
    keys, and SQLite's constraints are checked where it checks them: a row whose
    key or whose unique index is taken is refused, and a transaction that fails
    leaves the tables as they were.  The unique index of a table is looked at
    before its key.  A foreign key, the OAuth tables and the columns nothing
    here writes are left out, and so is opening the file.

    A timestamp is nanoseconds since the epoch.  The jiff crate prints and reads
    them ([Stamps]): a printed one keeps milliseconds, so what is read back is
    what was printed and no more than what was meant.  The clock is an argument
    of whatever reads it. *)

From S2P Require Import Prelude Syntax Block Json Storage Actor.

Local Open Scope Z_scope.

(* ------------------------------------------------------------------ *)
(** ** Time as text *)

Class Stamps := {
  stamp : Z -> bytes;
  parse_time : bytes -> option Z;
  (* the moment a stamp is read back as *)
  kept : Z -> Z
}.
Class StampsOk `{Stamps} : Prop := {
  stamp_kept : forall t, parse_time (stamp t) = Some (kept t);
  kept_stamp : forall t, stamp (kept t) = stamp t;
  kept_before : forall t, kept t <= t;
  stamp_sorts : forall t u, str_le (stamp t) (stamp u) <-> kept t <= kept u
}.

(* ------------------------------------------------------------------ *)
(** ** The tables *)

Record ActorRow := MkActorRow { a_handle : option bytes; a_created : bytes; takedown_ref : option bytes }.
Record AccountRow := MkAccountRow { a_email : bytes; a_password : bytes; invites_disabled : Z }.
Record InviteRow := MkInviteRow {
  available_uses : Z; disabled : Z; for_account : bytes; created_by : bytes; i_created : bytes
}.
Record TokenRow := MkTokenRow {
  tok_did : bytes; tok_expires : bytes; tok_next : option bytes; tok_app : option bytes
}.
Record AppRow := MkAppRow { app_hash : bytes; app_created : bytes; app_privileged : Z }.

(** [invite_code_use] is keyed on a code and who used it, [app_password] on an
    account and a name; the rest on the column the code calls them by. *)
Record Accounts := MkAccounts {
  actor : gmap bytes ActorRow;
  account : gmap bytes AccountRow;
  roots : gmap bytes RootRow;
  invite_code : gmap bytes InviteRow;
  invite_code_use : gmap (bytes * bytes) bytes;
  refresh_token : gmap bytes TokenRow;
  app_password : gmap (bytes * bytes) AppRow
}.
Definition no_accounts : Accounts := MkAccounts ∅ ∅ ∅ ∅ ∅ ∅ ∅.

Definition with_actor f (d : Accounts) : Accounts :=
  MkAccounts (f (actor d)) (account d) (roots d) (invite_code d) (invite_code_use d) (refresh_token d) (app_password d).
Definition with_account f (d : Accounts) : Accounts :=
  MkAccounts (actor d) (f (account d)) (roots d) (invite_code d) (invite_code_use d) (refresh_token d) (app_password d).
Definition with_roots f (d : Accounts) : Accounts :=
  MkAccounts (actor d) (account d) (f (roots d)) (invite_code d) (invite_code_use d) (refresh_token d) (app_password d).
Definition with_codes f (d : Accounts) : Accounts :=
  MkAccounts (actor d) (account d) (roots d) (f (invite_code d)) (invite_code_use d) (refresh_token d) (app_password d).
Definition with_uses f (d : Accounts) : Accounts :=
  MkAccounts (actor d) (account d) (roots d) (invite_code d) (f (invite_code_use d)) (refresh_token d) (app_password d).
Definition with_tokens f (d : Accounts) : Accounts :=
  MkAccounts (actor d) (account d) (roots d) (invite_code d) (invite_code_use d) (f (refresh_token d)) (app_password d).
Definition with_apps f (d : Accounts) : Accounts :=
  MkAccounts (actor d) (account d) (roots d) (invite_code d) (invite_code_use d) (refresh_token d) (f (app_password d)).

(** [Account], [AppPassword], [Session], [Registration], [Hosted] and [Cursor]. *)
Record Account := MkAccount { did : Did.t; handle : option Handle.t; email : bytes; password_scrypt : bytes }.
Record AppPassword := MkAppPassword { name : bytes; privileged : bool }.
Record Session := MkSession {
  id : bytes; session_did : Did.t; expires_at : Z; next_id : option bytes; session_app : option AppPassword
}.
Record Registration := MkRegistration {
  reg_account : Account; reg_root : Root; invite : option bytes; session : option Session
}.
Record Hosted := MkHosted { hosted_did : Did.t; hosted_root : Root; hosted_created : Z }.
Record Cursor := MkCursor { cursor_created : Z; cursor_did : bytes }.

(** SQLite's [lower], which folds ASCII letters alone. *)
Definition lower : bytes -> bytes := map to_ascii_lowercase.

Section Accounts.
Context `{CidText} `{Stamps}.

(* ------------------------------------------------------------------ *)
(** ** Inserting *)

(** An insert under a primary key. *)
Definition insert_new {V} (key : bytes) (row : V) (m : gmap bytes V) : result Error (gmap bytes V) :=
  match m !! key with Some _ => Err Constraint | None => Ok (<[key := row]> m) end.

(** [taken]: a unique index named back as what it protects. *)
Definition handle_taken (d : Accounts) (handle : bytes) : bool :=
  existsb (fun e => match a_handle (snd e) with Some held => bool_decide (lower held = lower handle) | None => false end)
    (map_to_list (actor d)).
Definition email_taken (d : Accounts) (email : bytes) : bool :=
  existsb (fun e => bool_decide (lower (a_email (snd e)) = lower email)) (map_to_list (account d)).
Definition insert_actor (did : bytes) (row : ActorRow) (d : Accounts) : result Error Accounts :=
  if match a_handle row with Some handle => handle_taken d handle | None => false end then Err HandleTaken else
  m ← insert_new did row (actor d); Ok (with_actor (fun _ => m) d).
Definition insert_account (did : bytes) (row : AccountRow) (d : Accounts) : result Error Accounts :=
  if email_taken d (a_email row) then Err EmailTaken else
  m ← insert_new did row (account d); Ok (with_account (fun _ => m) d).

(** [store_session]: a row already under the id is left alone. *)
Definition store_session (session : Session) (d : Accounts) : Accounts :=
  with_tokens (fun m => match m !! id session with
    | Some _ => m
    | None => <[id session := MkTokenRow (Did.str (session_did session)) (stamp (expires_at session)) None
                                (name <$> session_app session)]> m
    end) d.

(** [available], the count of a code's uses with it. *)
Definition uses_of (d : Accounts) (code : bytes) : Z :=
  len (List.filter (fun e => bool_decide (fst (fst e) = code)) (map_to_list (invite_code_use d))).
Definition invite_available (d : Accounts) (code : bytes) : bool :=
  match invite_code d !! code with
  | None => false
  | Some row =>
      (disabled row =? 0)
      && match actor d !! for_account row with
         | Some held => negb (bool_decide (is_Some (takedown_ref held)))
         | None => true
         end
      && (uses_of d code <? available_uses row)
  end.

(** [spend_invite]. *)
Definition spend_invite (now : Z) (code : bytes) (did : bytes) (d : Accounts) : result Error Accounts :=
  match invite_code_use d !! (code, did) with
  | Some _ => Err Constraint
  | None => Ok (with_uses (insert (code, did) (stamp now)) d)
  end.

(** [Accounts::update_root], and how [create] writes the same row. *)
Definition put_root (again : bool) (now : Z) (did : bytes) (root : Root) (d : Accounts) : Accounts :=
  with_roots (fun m => <[did := MkRootRow (cid_to_string (cid root)) (Tid.str (rev root))
    match m !! did with Some row => if again then stamp now else root_indexed row | None => stamp now end]> m) d.
Definition update_root (now : Z) (did : Did.t) (root : Root) (d : Accounts) : Accounts :=
  put_root true now (Did.str did) root d.

(** [Accounts::create]: on an error the tables are as they were. *)
Definition registering (now : Z) (registration : Registration) (d : Accounts) : result Error Accounts :=
  let account := reg_account registration in
  let key := Did.str (did account) in
  d ← match invite registration with
      | Some code => if invite_available d code then spend_invite now code key d else Err InviteUnavailable
      | None => Ok d
      end;
  d ← insert_actor key (MkActorRow (Handle.str <$> handle account) (stamp now) None) d;
  d ← insert_account key (MkAccountRow (email account) (password_scrypt account) 0) d;
  let d := put_root false now key (reg_root registration) d in
  Ok (match session registration with Some session => store_session session d | None => d end).
Definition create (now : Z) (registration : Registration) (d : Accounts) : Accounts * result Error unit :=
  match registering now registration d with Ok d' => (d', Ok tt) | Err e => (d, Err e) end.

(** [Accounts::delete]. *)
Definition delete (did : Did.t) (d : Accounts) : Accounts :=
  let key := Did.str did in
  MkAccounts (base.delete key (actor d)) (base.delete key (account d)) (base.delete key (roots d)) (invite_code d)
    (filter (fun e => e.1.2 <> key) (invite_code_use d))
    (filter (fun e => tok_did e.2 <> key) (refresh_token d))
    (filter (fun e => e.1.1 <> key) (app_password d)).

(* ------------------------------------------------------------------ *)
(** ** Looking an account up *)

(** [Accounts::query]: the first row of the join the test picks. *)
Definition joined (d : Accounts) : list (bytes * ActorRow * AccountRow) :=
  omap (fun e => (fun row => (fst e, snd e, row)) <$> account d !! fst e) (map_to_list (actor d)).
Definition read_account (row : bytes * ActorRow * AccountRow) : result Error Account :=
  let '(key, held, row) := row in
  did ← map_err (fun _ => Malformed "a stored DID that is not one") (from_str key);
  handle ← match a_handle held with
           | None => Ok None
           | Some handle => map_err (fun _ => Malformed "a stored handle that is not one") (Some <$> from_str handle)
           end;
  Ok (MkAccount did handle (a_email row) (a_password row)).
Definition query (d : Accounts) (test : bytes * ActorRow * AccountRow -> bool) : result Error (option Account) :=
  match List.find test (joined d) with
  | None => Ok None
  | Some row => account ← read_account row; Ok (Some account)
  end.

(** [by_did], [by_handle] and [by_email]. *)
Definition by_did (d : Accounts) (did : Did.t) : result Error (option Account) :=
  query d (fun row => bool_decide (fst (fst row) = Did.str did)).
Definition by_handle (d : Accounts) (handle : Handle.t) : result Error (option Account) :=
  query d (fun row => match a_handle (snd (fst row)) with
                      | Some held => bool_decide (lower held = lower (Handle.str handle))
                      | None => false
                      end).
Definition by_email (d : Accounts) (email : bytes) : result Error (option Account) :=
  query d (fun row => bool_decide (lower (a_email (snd row)) = lower email)).

(* ------------------------------------------------------------------ *)
(** ** Sessions *)

(** [Accounts::session], by [SessionRow]: an app password is asked what it may
    do now. *)
Definition session_of (d : Accounts) (id : bytes) : result Error (option Session) :=
  match refresh_token d !! id with
  | None => Ok None
  | Some row =>
      did ← map_err (fun _ => Malformed "a stored DID that is not one") (from_str (tok_did row));
      expires ← ok_or (parse_time (tok_expires row)) (Malformed "a stored timestamp that is not one");
      Ok (Some (MkSession id did expires (tok_next row)
        ((fun name => MkAppPassword name
            (match app_password d !! (tok_did row, name) with Some app => app_privileged app =? 1 | None => false end))
         <$> tok_app row)))
  end.

(** [Accounts::rotate]. *)
Definition rotate (id_ : bytes) (until : Z) (next : Session) (d : Accounts) : Accounts * bool :=
  match refresh_token d !! id_ with
  | None => (d, false)
  | Some row =>
      if match tok_next row with Some named => bool_decide (named = id next) | None => true end
      then (store_session next (with_tokens
              (insert id_ (MkTokenRow (tok_did row) (stamp until) (Some (id next)) (tok_app row))) d), true)
      else (d, false)
  end.

(** [revoke_session], [revoke_sessions] and [expire_sessions]. *)
Definition revoke_session (id : bytes) (d : Accounts) : Accounts * bool :=
  (with_tokens (base.delete id) d, bool_decide (is_Some (refresh_token d !! id))).
Definition without (test : bytes -> TokenRow -> bool) (d : Accounts) : Accounts * nat :=
  let left := filter (fun e => test e.1 e.2 = false) (refresh_token d) in
  (with_tokens (fun _ => left) d, (base.size (refresh_token d) - base.size left)%nat).
Definition revoke_sessions (did : Did.t) : Accounts -> Accounts * nat :=
  without (fun _ row => bool_decide (tok_did row = Did.str did)).
Definition expire_sessions (did : Did.t) (now : Z) : Accounts -> Accounts * nat :=
  without (fun _ row => bool_decide (tok_did row = Did.str did) && str_leb (tok_expires row) (stamp now)).

(* ------------------------------------------------------------------ *)
(** ** App passwords *)

(** [reused] and [create_app_password]. *)
Definition create_app_password (now : Z) (did : Did.t) (password : AppPassword) (hash : bytes) (d : Accounts)
  : Accounts * result Error Z :=
  let key := (Did.str did, name password) in
  match app_password d !! key with
  | Some _ => (d, Err AppPasswordTaken)
  | None =>
      (with_apps (insert key (MkAppRow hash (stamp now) (if privileged password then 1 else 0))) d,
       ok_or (parse_time (stamp now)) (Malformed "a stamp that is not a timestamp"))
  end.

(** [Accounts::app_password]: the first of the account's under that hash. *)
Definition held_under (d : Accounts) (did : Did.t) (hash : bytes) : option AppPassword :=
  (fun e => MkAppPassword (snd (fst e)) (app_privileged (snd e) =? 1)) <$>
    List.find (fun e => bool_decide (fst (fst e) = Did.str did) && bool_decide (app_hash (snd e) = hash))
      (map_to_list (app_password d)).

(** [Accounts::app_passwords]. *)
Definition newest_app (a b : (bytes * bytes) * AppRow) : Prop := str_le (app_created (snd b)) (app_created (snd a)).
#[export] Instance newest_app_dec : RelDecision newest_app.
Proof. intros a b; unfold newest_app; apply _. Defined.
Definition app_passwords (d : Accounts) (did : Did.t) : result Error (list (AppPassword * Z)) :=
  collect (map (fun e =>
      created ← ok_or (parse_time (app_created (snd e))) (Malformed "a stored timestamp that is not one");
      Ok (MkAppPassword (snd (fst e)) (app_privileged (snd e) =? 1), created))
    (merge_sort newest_app
      (List.filter (fun e => bool_decide (fst (fst e) = Did.str did)) (map_to_list (app_password d))))).

(** [revoke_app_password]. *)
Definition revoke_app_password (did : Did.t) (name : bytes) (d : Accounts) : Accounts * bool :=
  (fst (without (fun _ row => bool_decide (tok_did row = Did.str did) && bool_decide (tok_app row = Some name))
     (with_apps (base.delete (Did.str did, name)) d)),
   bool_decide (is_Some (app_password d !! (Did.str did, name)))).

(* ------------------------------------------------------------------ *)
(** ** Invites *)

(** [create_invites]. *)
Fixpoint insert_codes (codes : list bytes) (row : InviteRow) (m : gmap bytes InviteRow)
  : result Error (gmap bytes InviteRow) :=
  match codes with
  | [] => Ok m
  | code :: codes => m ← insert_new code row m; insert_codes codes row m
  end.
Definition create_invites (now : Z) (codes : list bytes) (for_account created_by : bytes) (uses : Z) (d : Accounts)
  : Accounts * result Error unit :=
  match insert_codes codes (MkInviteRow uses 0 for_account created_by (stamp now)) (invite_code d) with
  | Ok m => (with_codes (fun _ => m) d, Ok tt)
  | Err e => (d, Err e)
  end.

(* ------------------------------------------------------------------ *)
(** ** Listing the repositories *)

(** [hosted_query]: oldest account first. *)
Definition hosted_rows (d : Accounts) : list ((bytes * bytes) * RootRow) :=
  omap (fun e => (fun root => ((a_created (snd e), fst e), root)) <$> roots d !! fst e) (map_to_list (actor d)).
Definition earlier (a b : bytes * bytes) : bool :=
  str_ltb (fst a) (fst b) || (bool_decide (fst a = fst b) && str_ltb (snd a) (snd b)).
Definition oldest_first (a b : (bytes * bytes) * RootRow) : Prop := earlier (fst b) (fst a) = false.
#[export] Instance oldest_first_dec : RelDecision oldest_first.
Proof. intros a b; unfold oldest_first; apply _. Defined.
Definition hosted_query (d : Accounts) (limit : Z) (from : option Cursor) : list ((bytes * bytes) * RootRow) :=
  take (Z.to_nat limit) (merge_sort oldest_first
    (List.filter (fun r => match from with
       | Some cursor => earlier (stamp (cursor_created cursor), cursor_did cursor) (fst r)
       | None => true
       end) (hosted_rows d))).

(** [Accounts::hosted]. *)
Definition read_hosted (row : (bytes * bytes) * RootRow) : result Error Hosted :=
  did ← map_err (fun _ => Malformed "a stored DID that is not one") (from_str (snd (fst row)));
  cid ← ok_or (cid_parse (root_cid (snd row))) (Malformed "a repo root that is not a CID");
  rev ← map_err (fun _ => Malformed "a repo revision that is not a TID") (from_str (root_rev (snd row)));
  created ← ok_or (parse_time (fst (fst row))) (Malformed "a stored timestamp that is not one");
  Ok (MkHosted did (MkRoot cid rev) created).
Definition hosted (d : Accounts) (limit : Z) (from : option Cursor) : result Error (list Hosted) :=
  collect (map read_hosted (hosted_query d limit from)).

End Accounts.
