(* ===== verification/AccountsFacts.v ===== *)
(** * AccountsFacts: one account for every name

    What the tables promise, whatever runs on them: an account is a row in both
    tables, no two answer to one handle or one email in any case ([orderly]), and
    so a lookup never fails and never has two answers; and a code only signups
    spent is spent no more than it was issued for ([in_issue]).  What ran is a
    list of operations ([TableOp], [ran]), of which [made] says which were let
    through.  A signup lands whole or not at all, and taking it back leaves the
    tables as they were before it. *)

From S2P Require Import Prelude Syntax Block Json Storage Paging Actor ActorFacts ActorReads Accounts.
From Stdlib Require Import Lia.

(* ------------------------------------------------------------------ *)
(** ** Rows of a table *)

Lemma find_unique {A} (f : A -> bool) (l : list A) (x : A) :
  x ∈ l -> f x = true -> (forall y, y ∈ l -> f y = true -> y = x) -> List.find f l = Some x.
Proof.
  intros Hx Hf Hu; destruct (List.find f l) as [y|] eqn:E.
  - apply find_some in E as [Hy%list_elem_of_In Hfy]. f_equal; by apply Hu.
  - apply list_elem_of_In in Hx. by rewrite (find_none _ _ E x Hx) in Hf.
Qed.

Lemma find_nothing {A} (f : A -> bool) (l : list A) :
  (forall y, y ∈ l -> f y = false) -> List.find f l = None.
Proof.
  intros Hu; destruct (List.find f l) as [y|] eqn:E; [|done].
  apply find_some in E as [Hy%list_elem_of_In Hfy]. by rewrite Hu in Hfy.
Qed.

Section Counting.
Context {K V : Type} `{Countable K} (f : K * V -> bool).

(** Rows of a table that pass a test. *)
Definition tally (m : gmap K V) : nat := length (List.filter f (map_to_list m)).

Lemma tally_insert m k v : m !! k = None -> tally (<[k := v]> m) = (if f (k, v) then 1 else 0) + tally m.
Proof.
  intros Hn; unfold tally.
  rewrite (Permutation_length (filter_Permutation f _ _ (map_to_list_insert m k v Hn))); cbn. by destruct (f (k, v)).
Qed.

Lemma tally_filter (P : K * V -> Prop) `{!forall x, Decision (P x)} m : tally (filter P m) <= tally m.
Proof.
  unfold tally. assert (map_to_list (filter P m) ≡ₚ filter P (map_to_list m)) as E.
  { rewrite map_filter_alt. apply map_to_list_to_map.
    eapply sublist_NoDup; [exact (NoDup_fst_map_to_list m)|]. apply fmap_sublist, sublist_filter. }
  rewrite (Permutation_length (filter_Permutation f _ _ E)). generalize (map_to_list m); intros l.
  induction l as [|x l IH]; cbn; [done|]. unfold filter in *; cbn. case_decide; cbn; destruct (f x); cbn; lia.
Qed.

Lemma tally_zero m : (forall k v, m !! k = Some v -> f (k, v) = false) -> tally m = 0.
Proof.
  intros Hm; unfold tally. rewrite filter_none; [done|].
  apply Forall_forall; intros [k v] Hkv%elem_of_map_to_list. by apply Hm.
Qed.

End Counting.

(** A table a row of which was put in and is taken out again. *)
Lemma filter_insert_back {K V} `{Countable K} (P : K * V -> Prop) `{!forall x, Decision (P x)} (m : gmap K V) k v :
  ~ P (k, v) -> m !! k = None -> (forall k v, m !! k = Some v -> P (k, v)) -> filter P (<[k := v]> m) = m.
Proof.
  intros Hn Hk Hm. rewrite map_filter_insert_False by done. rewrite delete_id by done.
  apply map_filter_id. intros i x Hi; by apply Hm.
Qed.

Section Facts.
Context `{CidText} `{!CidTextOk} `{Stamps} `{!StampsOk}.

(* ------------------------------------------------------------------ *)
(** ** What the tables promise *)

Record orderly (d : Accounts) : Prop := {
  paired : forall k, is_Some (actor d !! k) <-> is_Some (account d !! k);
  dids_named : forall k row, actor d !! k = Some row -> exists did, k = Did.str did /\ well_formed did;
  handles_named : forall k row h, actor d !! k = Some row -> a_handle row = Some h ->
    exists handle, h = Handle.str handle /\ well_formed handle;
  handles_apart : forall k k' row row' h h', actor d !! k = Some row -> actor d !! k' = Some row' ->
    a_handle row = Some h -> a_handle row' = Some h' -> lower h = lower h' -> k = k';
  emails_apart : forall k k' row row', account d !! k = Some row -> account d !! k' = Some row' ->
    lower (a_email row) = lower (a_email row') -> k = k';
  created_read : forall k row, actor d !! k = Some row -> exists t, a_created row = stamp t;
  roots_read : forall k row, roots d !! k = Some row -> exists c rev, root_cid row = cid_to_string c
    /\ root_rev row = Tid.str rev /\ well_formed rev;
  tokens_read : forall k row, refresh_token d !! k = Some row ->
    (exists did, tok_did row = Did.str did /\ well_formed did) /\ exists t, tok_expires row = stamp t
}.

(** A code within what it was issued for: no use of it but of one that was
    issued, and no more of them than it allows. *)
Record in_issue (d : Accounts) (code : bytes) : Prop := {
  use_issued : forall by_ at_, invite_code_use d !! (code, by_) = Some at_ -> is_Some (invite_code d !! code);
  not_overspent : forall row, invite_code d !! code = Some row -> (uses_of d code <= available_uses row)%Z
}.

Lemma handle_taken_spec d h : handle_taken d h = true <->
  exists k row held, actor d !! k = Some row /\ a_handle row = Some held /\ lower held = lower h.
Proof.
  unfold handle_taken; rewrite existsb_exists. split.
  - intros ([k row] & Hk%list_elem_of_In%elem_of_map_to_list & Hb); cbn in *.
    destruct (a_handle row) as [held|] eqn:E; [|done]. apply bool_decide_eq_true in Hb; eauto 10.
  - intros (k & row & held & Hk & Eh & El). exists (k, row).
    split; [by apply list_elem_of_In, elem_of_map_to_list|]. cbn; rewrite Eh. by apply bool_decide_eq_true.
Qed.

Lemma email_taken_spec d e : email_taken d e = true <->
  exists k row, account d !! k = Some row /\ lower (a_email row) = lower e.
Proof.
  unfold email_taken; rewrite existsb_exists. split.
  - intros ([k row] & Hk%list_elem_of_In%elem_of_map_to_list & Hb%bool_decide_eq_true); eauto.
  - intros (k & row & Hk & El). exists (k, row).
    split; [by apply list_elem_of_In, elem_of_map_to_list|]. by apply bool_decide_eq_true.
Qed.

Lemma uses_tally d code :
  uses_of d code = Z.of_nat (tally (fun e => bool_decide (fst (fst e) = code)) (invite_code_use d)).
Proof. done. Qed.

(* ------------------------------------------------------------------ *)
(** ** A registration, row by row *)

Lemma insert_new_Ok {V} k (v : V) m m' : insert_new k v m = Ok m' <-> m !! k = None /\ m' = <[k := v]> m.
Proof. unfold insert_new; destruct (m !! k); naive_solver. Qed.

Lemma insert_new_Err {V} k (v : V) m e : insert_new k v m = Err e -> e = Constraint /\ is_Some (m !! k).
Proof. unfold insert_new; destruct (m !! k); naive_solver. Qed.

(** What a registration is accepted for. *)
Record fits (d : Accounts) (r : Registration) : Prop := {
  fits_invite : forall code, invite r = Some code -> invite_available d code = true
    /\ invite_code_use d !! (code, Did.str (did (reg_account r))) = None;
  fits_handle : forall h, handle (reg_account r) = Some h -> handle_taken d (Handle.str h) = false;
  fits_email : email_taken d (email (reg_account r)) = false;
  fits_actor : actor d !! Did.str (did (reg_account r)) = None;
  fits_account : account d !! Did.str (did (reg_account r)) = None
}.

(** The tables it leaves. *)
Definition registered (now : Z) (r : Registration) (d : Accounts) : Accounts :=
  let a := reg_account r in
  let key := Did.str (did a) in
  let d := match invite r with Some code => with_uses (insert (code, key) (stamp now)) d | None => d end in
  let d := with_actor (insert key (MkActorRow (Handle.str <$> handle a) (stamp now) None)) d in
  let d := with_account (insert key (MkAccountRow (email a) (password_scrypt a) 0)) d in
  let d := put_root false now key (reg_root r) d in
  match session r with Some s => store_session s d | None => d end.

(** A registration goes in whole, exactly where it fits. *)
Lemma registering_Ok now r d d' : registering now r d = Ok d' -> fits d r /\ d' = registered now r d.
Proof.
  unfold registering, registered, insert_actor, insert_account. intros E.
  apply bind_Ok in E as (d1 & E1 & E).
  assert ((forall code, invite r = Some code -> invite_available d code = true
    /\ invite_code_use d !! (code, Did.str (did (reg_account r))) = None)
    /\ d1 = match invite r with
            | Some code => with_uses (insert (code, Did.str (did (reg_account r))) (stamp now)) d | None => d end) as [Hi ->].
  { destruct (invite r) as [code|]; [|by injection E1 as <-].
    destruct (invite_available d code) eqn:Ea; [|done]. unfold spend_invite in E1.
    destruct (invite_code_use d !! _) eqn:Eu; [done|]. injection E1 as <-. split; [|done]. by intros ? [= <-]. }
  set (d1 := match invite r with Some _ => _ | None => d end) in *.
  assert (actor d1 = actor d /\ account d1 = account d) as [Ea Ec] by (subst d1; by destruct (invite r)).
  apply bind_Ok in E as (d2 & E2 & E); apply bind_Ok in E as (d3 & E3 & [= <-]). cbn [a_handle a_email] in *.
  destruct (match Handle.str <$> handle (reg_account r) with Some h => handle_taken d1 h | None => false end) eqn:Eh; [done|].
  apply bind_Ok in E2 as (m & [Hn ->]%insert_new_Ok & [= <-]).
  destruct (email_taken _ _) eqn:Ee in E3; [done|]. apply bind_Ok in E3 as (m & [Hn' ->]%insert_new_Ok & [= <-]).
  split; [|by destruct (session r)].
  split; [exact Hi| | |by rewrite <- Ea|by cbn in Hn'; rewrite Ec in Hn'].
  - intros h Ehh; rewrite Ehh in Eh; cbn in Eh. unfold handle_taken in *; by rewrite Ea in Eh.
  - unfold email_taken in *; cbn -[map_to_list] in Ee; by rewrite Ec in Ee.
Qed.

(** What an error says of the tables. *)
Definition explains (d : Accounts) (r : Registration) (e : Error) : Prop :=
  let key := Did.str (did (reg_account r)) in
  match e with
  | InviteUnavailable => exists code, invite r = Some code /\ invite_available d code = false
  | HandleTaken => exists h, handle (reg_account r) = Some h /\ handle_taken d (Handle.str h) = true
  | EmailTaken => email_taken d (email (reg_account r)) = true
  | Constraint => is_Some (actor d !! key) \/ is_Some (account d !! key)
                  \/ exists code, is_Some (invite_code_use d !! (code, key))
  | _ => False
  end.

Lemma registering_Err now r d e : registering now r d = Err e -> explains d r e.
Proof.
  unfold registering, insert_actor, insert_account. set (key := Did.str (did (reg_account r))).
  assert (forall d1, actor d1 = actor d -> account d1 = account d ->
    (d2 ← (if match Handle.str <$> handle (reg_account r) with Some h => handle_taken d1 h | None => false end
           then Err HandleTaken
           else m ← insert_new key (MkActorRow (Handle.str <$> handle (reg_account r)) (stamp now) None) (actor d1);
                Ok (with_actor (fun _ => m) d1));
     d3 ← (if email_taken d2 (email (reg_account r)) then Err EmailTaken
           else m ← insert_new key (MkAccountRow (email (reg_account r)) (password_scrypt (reg_account r)) 0) (account d2);
                Ok (with_account (fun _ => m) d2));
     Ok (match session r with Some s => store_session s (put_root false now key (reg_root r) d3)
         | None => put_root false now key (reg_root r) d3 end)) = Err e -> explains d r e) as Hrest.
  { intros d1 Ea Ec. destruct (match Handle.str <$> _ with Some h => handle_taken d1 h | None => false end) eqn:Eh.
    { intros [= <-]; cbn. destruct (handle (reg_account r)) as [h|]; [|done]. exists h; split; [done|].
      unfold handle_taken in *; by rewrite Ea in Eh. }
    rewrite Ea; destruct (insert_new key _ (actor d)) as [m|] eqn:Ei; cbn -[map_to_list email_taken insert_new].
    2: { apply insert_new_Err in Ei as [-> ?]. intros [= <-]; by left. }
    destruct (email_taken _ _) eqn:Ee.
    { intros [= <-]; cbn. unfold email_taken in *; cbn -[map_to_list] in Ee; by rewrite Ec in Ee. }
    rewrite Ec; destruct (insert_new key _ (account d)) as [m'|] eqn:Ei'; cbn; [done|].
    apply insert_new_Err in Ei' as [-> ?]. intros [= <-]; right; by left. }
  destruct (invite r) as [code|] eqn:Ei; [|by apply Hrest].
  destruct (invite_available d code) eqn:Ea; [|by intros [= <-]; exists code].
  unfold spend_invite; fold key. destruct (invite_code_use d !! (code, key)) eqn:Eu.
  - intros [= <-]. right; right; exists code; by eexists.
  - by apply Hrest.
Qed.

Lemma registering_fits now r d : fits d r -> registering now r d = Ok (registered now r d).
Proof.
  intros [Hi Hh He Ha Hc]; unfold registering, registered, insert_actor, insert_account, insert_new.
  assert (match Handle.str <$> handle (reg_account r) with Some h => handle_taken d h | None => false end = false) as Hh'
    by (destruct (handle (reg_account r)); [by apply Hh|done]).
  destruct (invite r) as [code|].
  - destruct (Hi code eq_refl) as [-> Hu]; unfold spend_invite; rewrite Hu.
    cbn -[map_to_list handle_taken email_taken]. unfold handle_taken, email_taken in *; cbn -[map_to_list].
    rewrite Hh'; cbn -[map_to_list]. rewrite Ha; cbn -[map_to_list]. rewrite He; cbn -[map_to_list]. by rewrite Hc.
  - unfold handle_taken, email_taken in *; cbn -[map_to_list].
    rewrite Hh'; cbn -[map_to_list]. rewrite Ha; cbn -[map_to_list]. rewrite He; cbn -[map_to_list]. by rewrite Hc.
Qed.

(* ------------------------------------------------------------------ *)
(** ** Every operation keeps the promise *)

Definition named_well (r : Registration) : Prop :=
  well_formed (did (reg_account r)) /\ (forall h, handle (reg_account r) = Some h -> well_formed h)
  /\ well_formed (rev (reg_root r)) /\ (forall s, session r = Some s -> well_formed (session_did s)).

(** The operations [store/accounts.rs] offers on the tables, with whatever they
    are called with and whatever the clocks read. *)
Inductive TableOp :=
| OpCreate (now : Z) (r : Registration)
| OpSpendInvite (now : Z) (code : bytes) (did : Did.t)
| OpDelete (did : Did.t)
| OpUpdateRoot (now : Z) (did : Did.t) (root : Root)
| OpStoreSession (s : Session)
| OpRotate (id : bytes) (until : Z) (next : Session)
| OpRevokeSession (id : bytes)
| OpRevokeSessions (did : Did.t)
| OpExpireSessions (did : Did.t) (now : Z)
| OpCreateAppPassword (now : Z) (did : Did.t) (password : AppPassword) (hash : bytes)
| OpRevokeAppPassword (did : Did.t) (name : bytes)
| OpCreateInvites (now : Z) (codes : list bytes) (for_ by_ : bytes) (uses : Z).

Definition run_op (op : TableOp) (d : Accounts) : Accounts :=
  match op with
  | OpCreate now r => fst (create now r d)
  | OpSpendInvite now code did => match spend_invite now code (Did.str did) d with Ok d' => d' | Err _ => d end
  | OpDelete did => delete did d
  | OpUpdateRoot now did root => update_root now did root d
  | OpStoreSession s => store_session s d
  | OpRotate id until next => fst (rotate id until next d)
  | OpRevokeSession id => fst (revoke_session id d)
  | OpRevokeSessions did => fst (revoke_sessions did d)
  | OpExpireSessions did now => fst (expire_sessions did now d)
  | OpCreateAppPassword now did password hash => fst (create_app_password now did password hash d)
  | OpRevokeAppPassword did name => fst (revoke_app_password did name d)
  | OpCreateInvites now codes for_ by_ uses => fst (create_invites now codes for_ by_ uses d)
  end.

(** What the types of what one is called with say: a DID, a handle and a revision
    are ones that parse, and a count of uses is not negative. *)
Definition op_well (op : TableOp) : Prop :=
  match op with
  | OpCreate _ r => named_well r
  | OpUpdateRoot _ _ root => well_formed (rev root)
  | OpStoreSession s | OpRotate _ _ s => well_formed (session_did s)
  | OpCreateInvites _ _ _ _ uses => (0 <= uses)%Z
  | _ => True
  end.

(** Any number of the operations [may] lets through, one after another; the
    tables they make of a new database; and the tables anything at all makes. *)
Definition ran (may : TableOp -> Prop) : Accounts -> Accounts -> Prop :=
  rtc (fun d d' => exists op, may op /\ op_well op /\ d' = run_op op d).
Definition made (may : TableOp -> Prop) : Accounts -> Prop := ran may no_accounts.
Definition reachable : Accounts -> Prop := made (fun _ => True).

Lemma ran_step may d d1 op : ran may d d1 -> may op -> op_well op -> ran may d (run_op op d1).
Proof. intros Hr Hm Hw; eapply rtc_r; [exact Hr|]. eauto. Qed.
Lemma ran_one (may : TableOp -> Prop) d op : may op -> op_well op -> ran may d (run_op op d).
Proof. intros; by apply (ran_step _ d d). Qed.

(** What every operation keeps, any number of them keep. *)
Lemma ran_keeps may (P : Accounts -> Prop) : (forall op d, may op -> op_well op -> P d -> P (run_op op d)) ->
  forall d d', ran may d d' -> P d -> P d'.
Proof. intros Hk d d' Hr; induction Hr as [d|d d1 d2 (op & Hm & Hw & ->) _ IH]; intros Hd; [done|]. by apply IH, Hk. Qed.

Lemma reach_new may : made may no_accounts.
Proof. apply rtc_refl. Qed.
Lemma reach_create now r d : reachable d -> named_well r -> reachable (fst (create now r d)).
Proof. intros Hd Hw; exact (ran_step _ _ _ (OpCreate now r) Hd I Hw). Qed.
Lemma reach_session s d : reachable d -> well_formed (session_did s) -> reachable (store_session s d).
Proof. intros Hd Hw; exact (ran_step _ _ _ (OpStoreSession s) Hd I Hw). Qed.
Lemma reach_revoke id d : reachable d -> reachable (fst (revoke_session id d)).
Proof. intros Hd; exact (ran_step _ _ _ (OpRevokeSession id) Hd I I). Qed.
Lemma reach_app now did password hash d : reachable d -> reachable (fst (create_app_password now did password hash d)).
Proof. intros Hd; exact (ran_step _ _ _ (OpCreateAppPassword now did password hash) Hd I I). Qed.
Lemma reach_revoke_app did name d : reachable d -> reachable (fst (revoke_app_password did name d)).
Proof. intros Hd; exact (ran_step _ _ _ (OpRevokeAppPassword did name) Hd I I). Qed.
Lemma reach_invites now codes for_ by_ uses d : reachable d -> (0 <= uses)%Z ->
  reachable (fst (create_invites now codes for_ by_ uses d)).
Proof. intros Hd Hu; exact (ran_step _ _ _ (OpCreateInvites now codes for_ by_ uses) Hd I Hu). Qed.

(** Most operations leave who is who alone. *)
Definition same_names (d d' : Accounts) : Prop :=
  actor d' = actor d /\ account d' = account d /\ invite_code d' = invite_code d
  /\ invite_code_use d' = invite_code_use d.

Definition roots_fine (d : Accounts) : Prop := forall k row, roots d !! k = Some row ->
  exists c rev, root_cid row = cid_to_string c /\ root_rev row = Tid.str rev /\ well_formed rev.
Definition tokens_fine (d : Accounts) : Prop := forall k row, refresh_token d !! k = Some row ->
  (exists did, tok_did row = Did.str did /\ well_formed did) /\ exists t, tok_expires row = stamp t.

Lemma orderly_same d d' : orderly d -> same_names d d' -> roots_fine d' -> tokens_fine d' -> orderly d'.
Proof.
  intros [] (Ea & Ec & Ei & Eu) Hr Ht; split; rewrite ?Ea, ?Ec, ?Ei, ?Eu; done.
Qed.

Lemma within_same d d' code : in_issue d code -> same_names d d' -> in_issue d' code.
Proof. intros [] (_ & _ & Ei & Eu); split; unfold uses_of; rewrite ?Ei, ?Eu; done. Qed.

Lemma store_session_tokens s d : tokens_fine d -> well_formed (session_did s) -> tokens_fine (store_session s d).
Proof.
  intros Ht Hw k row; cbn. destruct (refresh_token d !! id s) eqn:E; [apply Ht|].
  intros [[<- <-]|[_ Hk]]%lookup_insert_Some; [|by eapply Ht]. cbn; split; eexists; [by split|done].
Qed.

Lemma fewer_tokens d m : tokens_fine d -> m ⊆ refresh_token d -> tokens_fine (with_tokens (fun _ => m) d).
Proof. intros Ht Hs k row Hk; eapply Ht, lookup_weaken; eauto. Qed.

Lemma put_root_roots again now k root d : roots_fine d -> well_formed (rev root) -> roots_fine (put_root again now k root d).
Proof.
  intros Hr Hw k' row; cbn. intros [[<- <-]|[_ Hk]]%lookup_insert_Some; [|by eapply Hr].
  cbn; eauto.
Qed.

Lemma rotate_tokens id_ until next d : tokens_fine d -> well_formed (session_did next) -> tokens_fine (fst (rotate id_ until next d)).
Proof.
  intros Ht Hw; unfold rotate. destruct (refresh_token d !! id_) as [row|] eqn:E; [|done].
  destruct (match tok_next row with Some _ => _ | None => _ end); [|done]. apply store_session_tokens; [|done].
  intros k row'; cbn. intros [[<- <-]|[_ Hk]]%lookup_insert_Some; [|by eapply Ht]. cbn.
  destruct (Ht _ _ E) as [? _]; eauto.
Qed.

Lemma uses_without d code key : (uses_of (delete key d) code <= uses_of d code)%Z.
Proof. rewrite !uses_tally. pose proof (tally_filter (fun e => bool_decide (fst (fst e) = code)) (fun e => e.1.2 <> Did.str key) (invite_code_use d)). cbn in *. lia. Qed.

Lemma delete_orderly key d : orderly d -> orderly (delete key d).
Proof.
  intros []; split; cbn.
  - intros k; destruct (decide (k = Did.str key)) as [->|Hne]; [by rewrite !lookup_delete_eq|by rewrite !lookup_delete_ne].
  - intros k row [_ Hk]%lookup_delete_Some; eauto.
  - intros k row h [_ Hk]%lookup_delete_Some; eauto.
  - intros k k' row row' h h' [_ Hk]%lookup_delete_Some [_ Hk']%lookup_delete_Some; eauto.
  - intros k k' row row' [_ Hk]%lookup_delete_Some [_ Hk']%lookup_delete_Some; eauto.
  - intros k row [_ Hk]%lookup_delete_Some; eauto.
  - intros k row [_ Hk]%lookup_delete_Some; eauto.
  - intros k row [Hk _]%map_lookup_filter_Some; eauto.
Qed.

Lemma delete_within key d code : in_issue d code -> in_issue (delete key d) code.
Proof.
  intros []; split; cbn [invite_code invite_code_use delete].
  - intros by_ at_ [Hk _]%map_lookup_filter_Some; eauto.
  - intros row Hc; etrans; [apply uses_without|eauto].
Qed.

Lemma insert_codes_Ok codes row : forall m m', insert_codes codes row m = Ok m' ->
  m ⊆ m' /\ forall k r, m' !! k = Some r -> m !! k = Some r \/ (m !! k = None /\ r = row).
Proof.
  induction codes as [|c codes IH]; intros m m' E; cbn in E; [injection E as <-; auto|].
  apply bind_Ok in E as (m1 & [Hn ->]%insert_new_Ok & E). apply IH in E as [Hs Hk]. split.
  - etrans; [|exact Hs]. by apply insert_subseteq.
  - intros k r Hkr; apply Hk in Hkr as [[[<- <-]|[Hne ?]]%lookup_insert_Some|[Hn' ->]]; auto.
    apply lookup_insert_None in Hn' as [? _]; auto.
Qed.

Lemma create_invites_orderly now codes for_ by_ uses d :
  orderly d -> orderly (fst (create_invites now codes for_ by_ uses d)).
Proof. intros []; unfold create_invites. destruct (insert_codes _ _ _); split; done. Qed.

Lemma create_invites_within now codes for_ by_ uses d code :
  in_issue d code -> (0 <= uses)%Z -> in_issue (fst (create_invites now codes for_ by_ uses d)) code.
Proof.
  intros Hw Hu; unfold create_invites. destruct (insert_codes _ _ _) as [m|e] eqn:E; [|done].
  apply insert_codes_Ok in E as [Hs Hk]. destruct Hw as [Hi Ho]; split; cbn.
  - intros b at_ Hc; apply Hi in Hc as [r Hc]; eapply lookup_weaken_is_Some; [by eexists|done].
  - intros row Hc. apply Hk in Hc as [Hc|[Hn ->]]; [by apply Ho|]. cbn.
    rewrite uses_tally; cbn. rewrite tally_zero; [done|]. intros [c b] at_ Hc; apply bool_decide_eq_false; cbn.
    intros ->; apply Hi in Hc as [? ?]; congruence.
Qed.

Lemma invite_left d code : invite_available d code = true ->
  exists row, invite_code d !! code = Some row /\ (uses_of d code < available_uses row)%Z.
Proof.
  unfold invite_available; destruct (invite_code d !! code) as [row|]; [|done].
  intros [_ Hl%Z.ltb_lt]%andb_true_iff; eauto.
Qed.

(** What spending a code leaves, asked for a code or not. *)
Lemma spend_invite_Ok now code key d d' : spend_invite now code key d = Ok d' ->
  invite_code_use d !! (code, key) = None /\ d' = with_uses (insert (code, key) (stamp now)) d.
Proof. unfold spend_invite; destruct (invite_code_use d !! _); [done|]. by intros [= <-]. Qed.

Lemma spend_invite_orderly now code key d d' : spend_invite now code key d = Ok d' -> orderly d -> orderly d'.
Proof. intros [_ ->]%spend_invite_Ok []; by split. Qed.

Lemma uses_spent now code key d code' : invite_code_use d !! (code, key) = None ->
  uses_of (with_uses (insert (code, key) (stamp now)) d) code' = (uses_of d code' + if decide (code = code') then 1 else 0)%Z.
Proof.
  intros Hn; rewrite !uses_tally; cbn. rewrite tally_insert by done; cbn.
  case_bool_decide; destruct (decide _); try done; lia.
Qed.

(** A use of another code, or one of a code that had it left. *)
Lemma spent_within now code key d d' code' : spend_invite now code key d = Ok d' ->
  (code = code' -> invite_available d code = true) -> in_issue d code' -> in_issue d' code'.
Proof.
  intros [Hn ->]%spend_invite_Ok Ha [Hi Ho]; split.
  - intros b at_; cbn. intros [[[= -> <-] _]|[_ Hk]]%lookup_insert_Some; [|eauto].
    by destruct (invite_left _ _ (Ha eq_refl)) as (row & Hr & _).
  - intros row Hr; rewrite uses_spent by done. specialize (Ho row Hr). destruct (decide _) as [Ec|]; [|lia].
    destruct (invite_left _ _ (Ha Ec)) as (row' & Hr' & Hl); subst. cbn in Hr. rewrite Hr' in Hr; injection Hr as ->. lia.
Qed.

(** The tables a registration leaves, one by one. *)
Lemma registered_tables now r d : let a := reg_account r in let key := Did.str (did a) in
  actor (registered now r d) = <[key := MkActorRow (Handle.str <$> handle a) (stamp now) None]> (actor d)
  /\ account (registered now r d) = <[key := MkAccountRow (email a) (password_scrypt a) 0]> (account d)
  /\ invite_code (registered now r d) = invite_code d
  /\ invite_code_use (registered now r d)
     = match invite r with Some code => <[(code, key) := stamp now]> (invite_code_use d) | None => invite_code_use d end
  /\ app_password (registered now r d) = app_password d.
Proof. cbv zeta; unfold registered; destruct (session r), (invite r); by split_and!. Qed.

Lemma registered_orderly now r d : orderly d -> named_well r -> fits d r -> orderly (registered now r d).
Proof.
  intros Ho (Hwd & Hwh & Hwr & Hws) [Hi Hh He Ha Hc].
  destruct (registered_tables now r d) as (Ea & Ec & Ei & Eu & _); cbv zeta in *.
  set (key := Did.str (did (reg_account r))) in *.
  assert (forall h k row held, handle (reg_account r) = Some h -> actor d !! k = Some row -> a_handle row = Some held ->
    lower held = lower (Handle.str h) -> False) as Hapart.
  { intros h k row held Eh Hk Ehh El. pose proof (Hh h Eh) as Hf. apply not_true_iff_false in Hf; apply Hf.
    apply handle_taken_spec; eauto 10. }
  assert (forall k row, account d !! k = Some row -> lower (a_email row) = lower (email (reg_account r)) -> False) as Hemail.
  { intros k row Hk El. apply not_true_iff_false in He; apply He, email_taken_spec; eauto. }
  destruct Ho; split; rewrite ?Ea, ?Ec, ?Ei, ?Eu.
  - intros k; rewrite !lookup_insert_is_Some'. by rewrite paired0.
  - intros k row [[<- <-]|[_ Hk]]%lookup_insert_Some; eauto.
  - intros k row h [[<- <-]|[_ Hk]]%lookup_insert_Some; cbn; [|eauto].
    destruct (handle (reg_account r)); cbn; [|done]. intros [= <-]; eauto.
  - intros k k' row row' h h' [[<- <-]|[_ Hk]]%lookup_insert_Some [[<- <-]|[_ Hk']]%lookup_insert_Some; cbn; [done| | |eauto].
    + destruct (handle (reg_account r)); cbn; [|done]. intros [= <-] E' El; by destruct (Hapart _ _ _ _ eq_refl Hk' E').
    + destruct (handle (reg_account r)); cbn; [|done]. intros E' [= <-] El; by destruct (Hapart _ _ _ _ eq_refl Hk E').
  - intros k k' row row' [[<- <-]|[_ Hk]]%lookup_insert_Some [[<- <-]|[_ Hk']]%lookup_insert_Some; cbn; [done| | |eauto].
    + intros El; by destruct (Hemail _ _ Hk').
    + intros El; by destruct (Hemail _ _ Hk).
  - intros k row [[<- <-]|[_ Hk]]%lookup_insert_Some; cbn; eauto.
  - unfold registered. destruct (session r), (invite r); by apply put_root_roots.
  - unfold registered. destruct (session r) eqn:Es, (invite r); try apply store_session_tokens; auto.
Qed.

Lemma registered_within now r d code : in_issue d code -> fits d r -> in_issue (registered now r d) code.
Proof.
  intros Hw [Hi _ _ _ _]. pose proof (registered_tables now r d) as (_ & _ & Ei & Eu & _).
  set (key := Did.str (did (reg_account r))) in *. set (d1 := match invite r with
    | Some c => with_uses (insert (c, key) (stamp now)) d | None => d end).
  assert (in_issue d1 code) as [Hu Ho].
  { subst d1; destruct (invite r) as [c|]; [|done]. destruct (Hi c eq_refl) as [Ha Hn].
    eapply (spent_within now c key d); [|by intros _|done]. unfold spend_invite; fold key in Hn; by rewrite Hn. }
  assert (invite_code d1 = invite_code d /\ invite_code_use d1 = invite_code_use (registered now r d)) as [E1 E2]
    by (rewrite Eu; subst d1; by destruct (invite r)).
  split; unfold uses_of in *; rewrite ?Ei, <- ?E2, <- ?E1; done.
Qed.

(** What an operation that touches neither accounts nor codes leaves. *)
Lemma rotate_names id until next d : same_names d (fst (rotate id until next d)).
Proof. unfold rotate; by repeat case_match. Qed.
Lemma create_app_names now k p hash d : same_names d (fst (create_app_password now k p hash d)).
Proof. unfold create_app_password; by case_match. Qed.

Lemma op_orderly op d : op_well op -> orderly d -> orderly (run_op op d).
Proof.
  intros Hw Ho. pose proof (roots_read _ Ho) as Hr; pose proof (tokens_read _ Ho) as Ht.
  destruct op as [now r|now code k|k|now k root|s|id until next|id|k|k now|now k p hash|k n|now codes f b uses]; cbn [run_op op_well] in *.
  - unfold create; destruct (registering now r d) as [d'|e] eqn:E; [|done].
    apply registering_Ok in E as [Hf ->]. by apply registered_orderly.
  - destruct (spend_invite _ _ _ _) eqn:E; [|done]. by eapply spend_invite_orderly.
  - by apply delete_orderly.
  - eapply orderly_same; [exact Ho|done|by apply put_root_roots|done].
  - eapply orderly_same; [exact Ho|done|done|by apply store_session_tokens].
  - eapply orderly_same; [exact Ho|apply rotate_names| |by apply rotate_tokens].
    unfold rotate; by repeat case_match.
  - eapply orderly_same; [exact Ho|done|done|]. apply fewer_tokens; [done|apply delete_subseteq].
  - eapply orderly_same; [exact Ho|done|done|]. apply fewer_tokens; [done|apply map_filter_subseteq].
  - eapply orderly_same; [exact Ho|done|done|]. apply fewer_tokens; [done|apply map_filter_subseteq].
  - eapply orderly_same; [exact Ho|apply create_app_names| |]; unfold create_app_password; by case_match.
  - eapply orderly_same; [exact Ho|done|done|].
    intros k' row Hk; cbn in Hk. apply map_lookup_filter_Some in Hk as [Hk _]. by eapply Ht.
  - by apply create_invites_orderly.
Qed.

Lemma made_orderly may d : made may d -> orderly d.
Proof.
  intros Hr; apply (ran_keeps may orderly (fun op d _ => op_orderly op d) _ _ Hr).
  split; cbn; try (intros; by rewrite ?lookup_empty in *).
Qed.

Lemma reachable_orderly d : reachable d -> orderly d.
Proof. apply made_orderly. Qed.

(** A code nothing spends but signups stays within what it was issued for. *)
Lemma op_within op d code : (forall now did, op <> OpSpendInvite now code did) -> op_well op -> in_issue d code ->
  in_issue (run_op op d) code.
Proof.
  intros Hb Hw Ho.
  destruct op as [now r|now code' k|k|now k root|s|id until next|id|k|k now|now k p hash|k n|now codes f b uses]; cbn [run_op op_well] in *.
  all: try (eapply within_same; [exact Ho|done]).
  - unfold create; destruct (registering now r d) as [d'|e] eqn:E; [|done].
    apply registering_Ok in E as [Hf ->]. by apply registered_within.
  - destruct (spend_invite _ _ _ _) eqn:E; [|done]. eapply spent_within; [exact E| |done].
    intros ->; by destruct (Hb now k).
  - by apply delete_within.
  - eapply within_same; [exact Ho|apply rotate_names].
  - eapply within_same; [exact Ho|apply create_app_names].
  - by apply create_invites_within.
Qed.

Lemma made_in_issue may d code : (forall now did, ~ may (OpSpendInvite now code did)) -> made may d -> in_issue d code.
Proof.
  intros Hb Hr; refine (ran_keeps may (fun d => in_issue d code) _ _ _ Hr _).
  - intros op d' Hm; apply op_within. intros now k ->; by apply (Hb now k).
  - split; cbn; intros; by rewrite ?lookup_empty in *.
Qed.

(* ------------------------------------------------------------------ *)
(** ** Looking an account up *)

Lemma joined_spec d k row arow :
  (k, row, arow) ∈ joined d <-> actor d !! k = Some row /\ account d !! k = Some arow.
Proof.
  unfold joined; rewrite list_elem_of_omap. split.
  - intros ([k' row'] & Hk%elem_of_map_to_list & E); cbn in E.
    destruct (account d !! k') eqn:Ec; [|done]. by injection E as <- <- <-.
  - intros [Ha Hc]; exists (k, row); split; [by apply elem_of_map_to_list|]. cbn; by rewrite Hc.
Qed.

(** The account two rows hold between them. *)
Definition holding (d : Accounts) (a : Account) : Prop :=
  exists row arow, actor d !! Did.str (did a) = Some row /\ account d !! Did.str (did a) = Some arow
    /\ well_formed (did a) /\ a_handle row = Handle.str <$> handle a
    /\ a_email arow = email a /\ a_password arow = password_scrypt a.

Lemma did_of_str (x y : Did.t) : Did.str x = Did.str y -> x = y.
Proof. destruct x, y; cbn; congruence. Qed.

Lemma handle_of_str (x y : option Handle.t) : Handle.str <$> x = Handle.str <$> y -> x = y.
Proof. destruct x as [[]|], y as [[]|]; cbn; congruence. Qed.

Lemma holding_same d a a' : holding d a -> holding d a' -> did a = did a' -> a = a'.
Proof.
  intros (row & arow & Ha & Hc & _ & E1 & E2 & E3) (row' & arow' & Ha' & Hc' & _ & E1' & E2' & E3') Ed.
  rewrite Ed, Ha' in Ha; injection Ha as ->. rewrite Ed, Hc' in Hc; injection Hc as ->.
  destruct a, a'; cbn in *; subst. f_equal. apply handle_of_str; congruence.
Qed.

Lemma joined_held d k row arow : orderly d -> (k, row, arow) ∈ joined d ->
  exists a, read_account (k, row, arow) = Ok a /\ holding d a /\ k = Did.str (did a)
    /\ a_handle row = Handle.str <$> handle a /\ a_email arow = email a.
Proof.
  intros Ho [Ha Hc]%joined_spec. destruct (dids_named _ Ho _ _ Ha) as (x & -> & Hx).
  unfold read_account. rewrite (from_str_well_formed x Hx : from_str (Did.str x) = Ok x). cbn [map_err mbind result_bind].
  destruct (a_handle row) as [h|] eqn:Eh.
  - destruct (handles_named _ Ho _ _ _ Ha Eh) as (y & -> & Hy).
    rewrite (from_str_well_formed y Hy : from_str (Handle.str y) = Ok y). cbn.
    eexists; split_and!; [done| |done..]. by exists row, arow.
  - cbn; eexists; split_and!; [done| |done..]. by exists row, arow.
Qed.

Lemma held_joined d a : holding d a -> exists row arow,
  (Did.str (did a), row, arow) ∈ joined d /\ a_handle row = Handle.str <$> handle a /\ a_email arow = email a.
Proof. intros (row & arow & Ha & Hc & _ & Eh & Ee & _); exists row, arow; by rewrite joined_spec. Qed.

(** A lookup never fails, and answers with the one account its test picks. *)
Lemma query_spec d test (P : Account -> Prop) : orderly d ->
  (forall k row arow a, (k, row, arow) ∈ joined d -> holding d a -> k = Did.str (did a) ->
     a_handle row = Handle.str <$> handle a -> a_email arow = email a -> test (k, row, arow) = true <-> P a) ->
  (forall a b, holding d a -> holding d b -> P a -> P b -> a = b) ->
  exists answer, query d test = Ok answer /\ forall a, answer = Some a <-> holding d a /\ P a.
Proof.
  intros Ho Ht Hu; unfold query. destruct (List.find test (joined d)) as [[[k row] arow]|] eqn:E.
  - apply find_some in E as [Hj%list_elem_of_In Hp].
    destruct (joined_held _ _ _ _ Ho Hj) as (a & Ea & Hh & Ek & Eh & Ee). rewrite Ea; cbn.
    apply (Ht _ _ _ a Hj Hh Ek Eh Ee) in Hp. eexists; split; [done|]. intros b; split; [by intros [= <-]|].
    intros [Hb Hpb]; f_equal; by apply Hu.
  - eexists; split; [done|]. intros a; split; [done|]. intros [Hh Hp].
    destruct (held_joined _ _ Hh) as (row & arow & Hj & Eh & Ee).
    apply list_elem_of_In in Hj as Hi. pose proof (find_none _ _ E _ Hi) as Hf.
    by rewrite (proj2 (Ht _ _ _ a Hj Hh eq_refl Eh Ee) Hp) in Hf.
Qed.

(** Whose handle, in any case, this is. *)
Definition answers_to (h : Handle.t) (a : Account) : Prop :=
  exists held, handle a = Some held /\ lower (Handle.str held) = lower (Handle.str h).

Lemma by_did_spec d x : orderly d ->
  exists answer, by_did d x = Ok answer /\ forall a, answer = Some a <-> holding d a /\ did a = x.
Proof.
  intros Ho; apply (query_spec d _ (fun a => did a = x) Ho).
  - intros k row arow a _ _ -> _ _; cbn. rewrite bool_decide_eq_true. split; [apply did_of_str|congruence].
  - intros a b Ha Hb <- E. by apply (holding_same d).
Qed.

Lemma by_handle_spec d h : orderly d ->
  exists answer, by_handle d h = Ok answer /\ forall a, answer = Some a <-> holding d a /\ answers_to h a.
Proof.
  intros Ho; apply (query_spec d _ (answers_to h) Ho).
  - intros k row arow a _ _ _ Eh _; cbn. rewrite Eh; unfold answers_to. destruct (handle a); cbn; [|naive_solver].
    rewrite bool_decide_eq_true. naive_solver.
  - intros a b Ha Hb (x & Ex & Hx) (y & Ey & Hy). apply (holding_same d); [done..|]. apply did_of_str.
    destruct Ha as (row & arow & Ha & _ & _ & E1 & _), Hb as (row' & arow' & Hb & _ & _ & E1' & _).
    rewrite Ex in E1; rewrite Ey in E1'. eapply handles_apart; eauto. congruence.
Qed.

Lemma by_email_spec d e : orderly d ->
  exists answer, by_email d e = Ok answer /\ forall a, answer = Some a <-> holding d a /\ lower (email a) = lower e.
Proof.
  intros Ho; apply (query_spec d _ (fun a => lower (email a) = lower e) Ho).
  - intros k row arow a _ _ _ _ Ee; cbn. by rewrite Ee, bool_decide_eq_true.
  - intros a b Ha Hb Ea Eb. apply (holding_same d); [done..|]. apply did_of_str.
    destruct Ha as (row & arow & _ & Ha & _ & _ & E1 & _), Hb as (row' & arow' & _ & Hb & _ & _ & E1' & _).
    eapply emails_apart; eauto. congruence.
Qed.

(** Taking back what a registration put in. *)
Lemma delete_registered now r d : fits d r -> (forall s, session r = Some s -> session_did s = did (reg_account r)) ->
  delete (did (reg_account r)) d = d -> delete (did (reg_account r)) (registered now r d) = d.
Proof.
  intros Hf Hs Hd. destruct (registered_tables now r d) as (Ea & Ec & Ei & Eu & Ep); cbv zeta in *.
  set (key := Did.str (did (reg_account r))) in *. unfold delete in *; fold key in Hd |- *.
  rewrite Ea, Ec, Ei, Eu, Ep, !delete_insert_eq.
  assert (base.delete key (roots (registered now r d)) = base.delete key (roots d)) as ->.
  { unfold registered. destruct (session r), (invite r); cbn; by rewrite delete_insert_eq. }
  assert (filter (fun e => tok_did e.2 <> key) (refresh_token (registered now r d))
    = filter (fun e => tok_did e.2 <> key) (refresh_token d)) as ->.
  { unfold registered. destruct (session r) as [s|], (invite r); cbn; try done;
      (destruct (refresh_token d !! id s) eqn:Et; [done|]); rewrite map_filter_insert_False, delete_id by
        (done || (cbn; rewrite (Hs s eq_refl); by intros Hx; apply Hx)); done. }
  destruct (invite r); [|exact Hd]. rewrite map_filter_insert_False by (cbn; tauto).
  rewrite map_filter_delete_not by (intros y _; cbn; tauto). exact Hd.
Qed.

End Facts.

(* ================================================================== *)
(** * The properties *)

Section Properties.
Context `{CidText} `{!CidTextOk} `{Stamps} `{!StampsOk}.

(** C19 (invariant). One account for every name. Whatever operations have run on
    the account database, [spend_invite] called by itself among them, looking an
    account up never fails and has one answer: the account whose DID it is, the
    one whose handle it is in any case, the one whose email it is in any case; no
    two accounts answer to one handle or to one email. And an invite code that
    [spend_invite], which asks nothing of it, was never itself called with, but
    signups alone have spent, has been spent no more often than it was issued
    for, and not at all unless it was. *)
Theorem one_account_for_every_name may d : made may d ->
  (forall x, exists answer, by_did d x = Ok answer /\ forall a, answer = Some a <-> holding d a /\ did a = x)
  /\ (forall h, exists answer, by_handle d h = Ok answer /\ forall a, answer = Some a <-> holding d a /\ answers_to h a)
  /\ (forall e, exists answer, by_email d e = Ok answer
        /\ forall a, answer = Some a <-> holding d a /\ lower (email a) = lower e)
  /\ (forall code, (forall now did, ~ may (OpSpendInvite now code did)) ->
        (forall by_ at_, invite_code_use d !! (code, by_) = Some at_ -> is_Some (invite_code d !! code))
        /\ forall row, invite_code d !! code = Some row -> (uses_of d code <= available_uses row)%Z).
Proof.
  intros Hr; pose proof (made_orderly _ _ Hr) as Ho; split_and!.
  - intros x; by apply by_did_spec.
  - intros h; by apply by_handle_spec.
  - intros e; by apply by_email_spec.
  - intros code Hb. by destruct (made_in_issue _ _ _ Hb Hr).
Qed.

(** C23 (error). A signup is whole or not at all, and can be taken back whole.
    It goes through exactly where its code can be spent, and its handle, its
    email and its DID are free; a refusal leaves the tables as they were, and
    says a handle or an email is taken, or a code spent, only where it is. Taking
    it back leaves the tables as they were before it, the use of the code
    included. *)
Theorem signup_is_whole_and_can_be_taken_back now r d :
  let '(d', answer) := create now r d in
  (answer = Ok tt <-> fits d r)
  /\ match answer with
     | Ok _ => (well_formed (did (reg_account r)) -> holding d' (reg_account r))
         /\ (forall a, did a <> did (reg_account r) -> holding d' a <-> holding d a)
         /\ ((forall s, session r = Some s -> session_did s = did (reg_account r)) ->
             delete (did (reg_account r)) d = d -> delete (did (reg_account r)) d' = d)
     | Err e => d' = d /\ explains d r e
     end.
Proof.
  unfold create. destruct (registering now r d) as [d'|e] eqn:E.
  - apply registering_Ok in E as [Hf ->]. split; [done|].
    destruct (registered_tables now r d) as (Ea & Ec & _ & Eu & Ep); cbv zeta in *. split_and!.
    + intros Hw; eexists _, _. rewrite Ea, Ec, !lookup_insert_eq. by split_and!.
    + intros a Hne. unfold holding. rewrite Ea, Ec, !lookup_insert_ne; [done|by intros ?%did_of_str..].
    + by apply delete_registered.
  - split; [|split; [done|by eapply registering_Err]]. split; [done|]. intros Hf.
    by rewrite (registering_fits now r d Hf) in E.
Qed.

End Properties.

(* ------------------------------------------------------------------ *)
(** ** At a concrete database *)

Module Sample.

(** A stamp that is the moment itself. *)
#[export] Instance plain_stamps : Stamps := {|
  stamp t := [t];
  parse_time b := match b with [t] => Some t | _ => None end;
  kept t := t
|}.
#[export] Instance plain_stamps_ok : StampsOk.
Proof.
  split; try done. intros t u; unfold str_le, str_leb; cbn. destruct (Z.compare_spec t u); cbn; (split; [intros; first [done|lia]|intros; first [done|lia]]).
Qed.
#[export] Existing Instances Json.Plain.cid_text Json.Plain.cid_text_ok.

Definition alice : Account :=
  MkAccount (Did.mk (lit "did:plc:4cjoyc3cgpal7gnrpzyjhnv3")) (Some (Handle.mk (lit "alice.example.com")))
    (lit "Alice@example.com") (lit "salt:hash").
Definition root : Root := MkRoot (MkCid 1 113 18 [9]%Z) (Tid.mk (lit "3jzfcijpj2z2a")).
Definition code : bytes := lit "example-code".
Definition invited : Accounts := fst (create_invites 1 [code] (lit "admin") (lit "admin") 1 no_accounts).
Definition signup : Registration :=
  MkRegistration alice root (Some code) (Some (MkSession (lit "session") (did alice) 100 None None)).
Definition signed_up : Accounts := fst (create 5 signup invited).

Lemma signup_well : named_well signup.
Proof. split_and!; try (vm_compute; reflexivity); intros x [= <-]; vm_compute; reflexivity. Qed.
Lemma signed_up_made (may : TableOp -> Prop) : (forall now codes f b uses, may (OpCreateInvites now codes f b uses)) ->
  (forall now r, may (OpCreate now r)) -> made may signed_up.
Proof.
  intros Hi Hc. refine (ran_step may _ invited (OpCreate 5 signup) _ (Hc _ _) signup_well).
  exact (ran_one may _ (OpCreateInvites 1 [code] (lit "admin") (lit "admin") 1) (Hi _ _ _ _ _) ltac:(cbn; lia)).
Qed.
Lemma signed_up_reachable : reachable signed_up.
Proof. by apply signed_up_made. Qed.

(** A second code, issued for one use and spent directly three times: by nobody
    who signed up with it. *)
Definition loose : bytes := lit "loose-code".
Definition spent (now : Z) (by_ : string) (d : Accounts) : Accounts :=
  match spend_invite now loose (lit by_) d with Ok d' => d' | Err _ => d end.
Definition overspent : Accounts :=
  spent 9 "did:plc:c" (spent 8 "did:plc:b" (spent 7 "did:plc:a"
    (fst (create_invites 6 [loose] (lit "admin") (lit "admin") 1 signed_up)))).
Definition loosely (op : TableOp) : Prop := match op with OpSpendInvite _ c _ => c = loose | _ => True end.

Lemma spent_made now by_ d : made loosely d -> made loosely (spent now by_ d).
Proof. intros Hd. by apply (ran_step loosely _ d (OpSpendInvite now loose (Did.mk (lit by_))) Hd). Qed.
Lemma overspent_made : made loosely overspent.
Proof.
  do 3 apply spent_made.
  refine (ran_step loosely _ signed_up (OpCreateInvites 6 [loose] (lit "admin") (lit "admin") 1) _ I ltac:(cbn; lia)).
  by apply signed_up_made.
Qed.

End Sample.
#[local] Existing Instances Sample.plain_stamps Sample.plain_stamps_ok Json.Plain.cid_text Json.Plain.cid_text_ok.

(** The loose code is overspent, the one a signup spent is not, and the lookups
    are as they were. *)
Lemma one_account_for_every_name_witness :
  uses_of Sample.overspent Sample.loose = 3%Z
  /\ by_email Sample.overspent (lit "aLICE@EXAMPLE.com") = Ok (Some Sample.alice)
  /\ (forall x, exists answer, by_did Sample.overspent x = Ok answer
     /\ forall a, answer = Some a <-> holding Sample.overspent a /\ did a = x)
  /\ (uses_of Sample.overspent Sample.code = 1
     /\ forall row, invite_code Sample.overspent !! Sample.code = Some row ->
        uses_of Sample.overspent Sample.code <= available_uses row)%Z.
Proof.
  pose proof (one_account_for_every_name Sample.loosely Sample.overspent Sample.overspent_made) as (Hd & _ & _ & Hc).
  split; [vm_compute; reflexivity|]. split; [vm_compute; reflexivity|]. split; [exact Hd|].
  split; [vm_compute; reflexivity|]. apply (Hc Sample.code). intros now k; vm_compute; discriminate.
Defined.

(** The code is spent, the account answers to its email in another case, a
    second signup on the code is refused, and taking the first back gives the
    use back. *)
Lemma signup_is_whole_and_can_be_taken_back_witness :
  by_email Sample.signed_up (lit "aLICE@EXAMPLE.com") = Ok (Some Sample.alice)
  /\ snd (create 6 Sample.signup Sample.signed_up) = Err InviteUnavailable
  /\ delete (did Sample.alice) Sample.signed_up = Sample.invited.
Proof.
  split; [vm_compute; reflexivity|]. split; [vm_compute; reflexivity|].
  pose proof (signup_is_whole_and_can_be_taken_back 5 Sample.signup Sample.invited) as Hs.
  assert (create 5 Sample.signup Sample.invited = (Sample.signed_up, Ok tt)) as E by (vm_compute; reflexivity).
  rewrite E in Hs. destruct Hs as (_ & _ & _ & Hb). apply Hb; [by intros s [= <-]|vm_compute; reflexivity].
Defined.
