(* ===== verification/Passwords.v ===== *)
(** * Passwords: what is stored of one, and what an address has to look like

    [src/src/account/password.rs] and [src/src/account/email.rs].  scrypt is the
    scrypt crate's ([Scrypt]); the salt of a new password is drawn at random and
    is an argument. *)

From S2P Require Import Prelude Syntax Crypto Text Block.

Local Open Scope Z_scope.

(* ------------------------------------------------------------------ *)
(** ** Passwords *)

Module Password.

(** scrypt of a password under a salt, at [N = 2^log_n], a block size and a
    degree of parallelism, as so many bytes. *)
Class Scrypt := scrypt : bytes -> bytes -> Z -> Z -> Z -> nat -> bytes.

Definition LOG_N : Z := 14.
Definition BLOCK : Z := 8.
Definition PARALLEL : Z := 1.
Definition LENGTH : nat := 64.
Definition SALT : nat := 16.

(** [nobody]'s stored value. *)
Definition NOTHING : bytes := repeat 48 32 ++ lit ":" ++ repeat 48 128.

Section Password.
Context `{Sha256} `{Scrypt}.

(** [with_salt], [hash], [app], [verify] and [nobody]. *)
Definition with_salt (password salt : bytes) : bytes :=
  salt ++ lit ":" ++ hex (scrypt password salt LOG_N BLOCK PARALLEL LENGTH).
Definition hash (drawn : bytes) (password : bytes) : bytes := with_salt password (hex drawn).
Definition app (did : Did.t) (password : bytes) : bytes :=
  with_salt password (hex (take SALT (sha256 (Did.str did)))).
Definition verify (password stored : bytes) : bool :=
  match split_once 58 stored with
  | None => false
  | Some (salt, _) => same (with_salt password salt) stored
  end.
Definition nobody (password : bytes) : bool := verify password NOTHING.

(** A hash verifies the password it was made of, and only a password scrypt
    cannot tell from it. *)
Lemma verify_with_salt password offered salt : 58 ∉ salt ->
  verify offered (with_salt password salt) = true <-> with_salt offered salt = with_salt password salt.
Proof.
  intros Hs. unfold verify.
  assert (split_once 58 (with_salt password salt)
    = Some (salt, hex (scrypt password salt LOG_N BLOCK PARALLEL LENGTH))) as -> by (by apply split_once_Some).
  apply same_is_equality.
Qed.

End Password.
End Password.

(* ------------------------------------------------------------------ *)
(** ** Addresses *)

Module Email.

Definition LOCAL : Z := 64.
Definition DOMAIN : Z := 255.
Definition PUNCTUATION : bytes := lit "!#$%&'*+-/=?^_`{|}~.".

(** A text somewhere in another. *)
Fixpoint occurs (p s : bytes) : bool :=
  starts_with p s || match s with [] => false | _ :: s => occurs p s end.

(** [local_part], [domain_part] and [plausible]. *)
Definition local_part (local : bytes) : bool :=
  negb (len local =? 0) && (len local <=? LOCAL)
  && negb (starts_with (lit ".") local) && negb (ends_with (lit ".") local)
  && negb (occurs (lit "..") local)
  && forallb (fun c => is_ascii_alphanumeric c || contains c PUNCTUATION) local.
Definition label (label : bytes) : bool :=
  negb (len label =? 0) && (len label <=? 63)
  && negb (starts_with (lit "-") label) && negb (ends_with (lit "-") label)
  && forallb (fun b => is_ascii_alphanumeric b || (b =? 45)) label.
Definition domain_part (domain : bytes) : bool :=
  negb ((len domain =? 0) || (DOMAIN <? len domain) || negb (contains 46 domain))
  && forallb label (split_on 46 domain).
Definition plausible (address : bytes) : bool :=
  match split_once 64 address with
  | None => false
  | Some (local, domain) => negb (contains 64 domain) && local_part local && domain_part domain
  end.

Example taken : forallb plausible
  (map lit ["alice@example.com"; "alice.smith+tag@mail.example.co.uk"; "a@b.co"]%string) = true.
Proof. vm_compute. reflexivity. Qed.
Example refused : existsb plausible
  (map lit ["not an address"; "alice@"; "@example.com"; "alice@example"; "alice@@example.com"; "alice@exa mple.com";
    ".alice@example.com"; "alice.@example.com"; "al..ice@example.com"; "alice@-example.com"]%string) = false.
Proof. vm_compute. reflexivity. Qed.

End Email.
