(* ===== verification/Xrpc.v ===== *)
(** * Xrpc: what a failed call answers with

    [src/src/xrpc.rs]: the statuses XRPC names, the error every method fails
    with, and the answer it becomes.  The body is the pair of texts the code
    serializes; axum puts it on the wire. *)

From S2P Require Import Prelude Ip Limit.

Local Open Scope Z_scope.

Module Xrpc.

(** [Status]. *)
Inductive Status :=
| InvalidRequest
| AuthenticationRequired
| Forbidden
| XrpcNotSupported
| NotAcceptable
| PayloadTooLarge
| UnsupportedMediaType
| RateLimitExceeded
| InternalServerError
| MethodNotImplemented
| UpstreamFailure
| NotEnoughResources
| UpstreamTimeout.
#[export] Instance status_eq_dec : EqDecision Status.
Proof. solve_decision. Defined.

(** [Status::code], [Status::name] and [Status::description]. *)
Definition code (s : Status) : Z :=
  match s with
  | InvalidRequest => 400
  | AuthenticationRequired => 401
  | Forbidden => 403
  | XrpcNotSupported => 404
  | NotAcceptable => 406
  | PayloadTooLarge => 413
  | UnsupportedMediaType => 415
  | RateLimitExceeded => 429
  | InternalServerError => 500
  | MethodNotImplemented => 501
  | UpstreamFailure => 502
  | NotEnoughResources => 503
  | UpstreamTimeout => 504
  end.
Definition status_name (s : Status) : bytes :=
  match s with
  | InvalidRequest => lit "InvalidRequest"
  | AuthenticationRequired => lit "AuthenticationRequired"
  | Forbidden => lit "Forbidden"
  | XrpcNotSupported => lit "XRPCNotSupported"
  | NotAcceptable => lit "NotAcceptable"
  | PayloadTooLarge => lit "PayloadTooLarge"
  | UnsupportedMediaType => lit "UnsupportedMediaType"
  | RateLimitExceeded => lit "RateLimitExceeded"
  | InternalServerError => lit "InternalServerError"
  | MethodNotImplemented => lit "MethodNotImplemented"
  | UpstreamFailure => lit "UpstreamFailure"
  | NotEnoughResources => lit "NotEnoughResources"
  | UpstreamTimeout => lit "UpstreamTimeout"
  end.
Definition description (s : Status) : bytes :=
  match s with
  | InvalidRequest => lit "Invalid Request"
  | AuthenticationRequired => lit "Authentication Required"
  | Forbidden => lit "Forbidden"
  | XrpcNotSupported => lit "XRPC Not Supported"
  | NotAcceptable => lit "Not Acceptable"
  | PayloadTooLarge => lit "Payload Too Large"
  | UnsupportedMediaType => lit "Unsupported Media Type"
  | RateLimitExceeded => lit "Rate Limit Exceeded"
  | InternalServerError => lit "Internal Server Error"
  | MethodNotImplemented => lit "Method Not Implemented"
  | UpstreamFailure => lit "Upstream Failure"
  | NotEnoughResources => lit "Not Enough Resources"
  | UpstreamTimeout => lit "Upstream Timeout"
  end.

(** [Error], and how one is put together. *)
Record Error := MkError {
  status : Status; named_ : option bytes; said : option bytes; limit_ : option Reading
}.
Definition new (status : Status) : Error := MkError status None None None.
Definition named (name : bytes) (self : Error) : Error := MkError (status self) (Some name) (said self) (limit_ self).
Definition limited (reading : Reading) (self : Error) : Error :=
  MkError (status self) (named_ self) (said self) (Some reading).
Definition saying (message : bytes) (self : Error) : Error :=
  MkError (status self) (named_ self) (Some message) (limit_ self).
Definition invalid_request (message : bytes) : Error := saying message (new InvalidRequest).
Definition auth_required (message : bytes) : Error := saying message (new AuthenticationRequired).
Definition internal (message : bytes) : Error := saying message (new InternalServerError).

(** [Error::name] and [Error::message]. *)
Definition name (self : Error) : bytes := default (status_name (status self)) (named_ self).
Definition message (self : Error) : bytes :=
  if decide (status self = InternalServerError) then description (status self)
  else default (description (status self)) (said self).

(** [Payload] and [into_response]: the status, the body and the headers. *)
Record Payload := MkPayload { error : bytes; told : bytes }.
Definition into_response (now : Z) (self : Error) (headers : Headers) : Z * Payload * Headers :=
  (code (status self), MkPayload (name self) (message self),
   match limit_ self with Some reading => write now reading headers | None => headers end).

(** A fault on this side tells a caller nothing of what went wrong. *)
Lemma fault_is_never_described now why headers name :
  into_response now (named name (internal why)) headers
  = into_response now (named name (new InternalServerError)) headers.
Proof. done. Qed.

End Xrpc.
