(* ===== verification/Auth.v ===== *)
(** * Auth: session tokens, and the credentials a request carries

    [src/src/xrpc/auth.rs].  A token is a JWT: a header and its claims as JSON
    in base64url, and an HMAC over both.  HMAC-SHA256, base64 and JSON are the
    hmac, base64 and serde_json crates' ([Hmac],
    [Base64Url], [Base64Standard], [JsonCodec]).
    What [verify_slice] does is compare the whole tag.  A moment is nanoseconds
    since the epoch; adding a lifetime to one never leaves the years jiff holds. *)

From S2P Require Import Prelude Syntax Crypto Text Limit Block Json Plc Xrpc.
From Stdlib Require Import Lia.

Local Open Scope Z_scope.

(** A keyed hash. *)
Class Hmac := hmac : bytes -> bytes -> bytes.
(** A type's JSON. *)
Class JsonCodec (T : Type) := {
  json_to_vec : T -> bytes;
  json_from_slice : bytes -> option T
}.
Class JsonCodecOk (T : Type) `{JsonCodec T} (written : T -> Prop) : Prop := {
  json_roundtrip : forall x, written x -> json_from_slice (json_to_vec x) = Some x
}.

(** Base64 with padding, as [Basic] credentials are written. *)
Class Base64Standard := standard_decode : bytes -> option bytes.

(** Whole seconds, as jiff counts them. *)
Definition as_second (t : Z) : Z := Z.quot t 1000000000.
Definition SECOND : Z := 1000000000.
Definition ACCESS_LIFETIME : Z := 120 * 60 * SECOND.
Definition REFRESH_LIFETIME : Z := 90 * 24 * 3600 * SECOND.

(* ------------------------------------------------------------------ *)
(** ** Scopes *)

(** [Scope]. *)
Inductive Scope := ScAccess | ScRefresh | AppPassword | PrivilegedAppPassword | SignupQueued | TakenDown.
#[export] Instance scope_eq_dec : EqDecision Scope.
Proof. solve_decision. Defined.
Definition FULL : list Scope := [ScAccess].
Definition PRIVILEGED : list Scope := [ScAccess; PrivilegedAppPassword].
Definition STANDARD : list Scope := [ScAccess; PrivilegedAppPassword; AppPassword].
Definition scope_str (s : Scope) : bytes :=
  match s with
  | ScAccess => lit "com.atproto.access"
  | ScRefresh => lit "com.atproto.refresh"
  | AppPassword => lit "com.atproto.appPass"
  | PrivilegedAppPassword => lit "com.atproto.appPassPrivileged"
  | SignupQueued => lit "com.atproto.signupQueued"
  | TakenDown => lit "com.atproto.takendown"
  end.
Definition scope_from_str (value : bytes) : option Scope :=
  List.find (fun s => bool_decide (value = scope_str s))
    [ScAccess; ScRefresh; AppPassword; PrivilegedAppPassword; SignupQueued; TakenDown].

(** [Expired], [Access], [Refresh], [Tokens], [Header] and [Claims]. *)
Inductive Expired := Refuse | Allow.
#[export] Instance expired_eq_dec : EqDecision Expired.
Proof. solve_decision. Defined.
Record Access := MkAccess { access_did : Did.t; access_scope : Scope }.
Record Refresh := MkRefresh { refresh_did : Did.t; refresh_id : bytes }.
Record Tokens := MkTokens { token_key : bytes; audience : bytes }.
Record Header := MkHeader { alg : bytes; typ : bytes }.
Record Claims := MkClaims {
  scope : bytes; sub : bytes; aud : bytes; iat : Z; exp : Z;
  jti : option bytes; lxm : option Value; cnf : option Value
}.

(** What a token this server mints carries. *)
Definition any_header (h : Header) : Prop := True.
Definition session_claims (c : Claims) : Prop := lxm c = None /\ cnf c = None.

Section Auth.
Context `{Hmac} `{Base64Url} `{!JsonCodec Header} `{!JsonCodec Claims}.

Definition unverifiable : Xrpc.Error := Xrpc.named (lit "InvalidToken") (Xrpc.invalid_request (lit "Token could not be verified")).
Definition malformed : Xrpc.Error := Xrpc.named (lit "InvalidToken") (Xrpc.invalid_request (lit "Malformed token")).

(** [part], [decode], [did] and [scope]. *)
Definition part {T} `{JsonCodec T} (value : T) : bytes := b64_encode (json_to_vec value).
Definition decode {T} `{JsonCodec T} (part : bytes) : result Xrpc.Error T :=
  b ← ok_or (b64_decode part) unverifiable; ok_or (json_from_slice b) malformed.
Definition did_of (sub : bytes) : result Xrpc.Error Did.t := map_err (fun _ => malformed) (from_str sub).
Definition scope_of (value : bytes) : result Xrpc.Error Scope := ok_or (scope_from_str value) malformed.

(* ------------------------------------------------------------------ *)
(** ** Tokens *)

(** [Tokens::mint], at the moment it reads. *)
Definition HS256 : bytes := lit "HS256".
Definition mint (self : Tokens) (typ : bytes) (did : Did.t) (scope : Scope) (jti : option bytes) (lifetime : Z) (now : Z)
  : bytes :=
  let claims := MkClaims (scope_str scope) (Did.str did) (audience self) (as_second now) (as_second (now + lifetime))
                  jti None None in
  let signed := part (MkHeader HS256 typ) ++ lit "." ++ part claims in
  signed ++ lit "." ++ b64_encode (hmac (token_key self) signed).

(** [access_for], [access] and [refresh]. *)
Definition AT_JWT : bytes := lit "at+jwt".
Definition REFRESH_JWT : bytes := lit "refresh+jwt".
Definition access_for (self : Tokens) (did : Did.t) (scope : Scope) (lifetime now : Z) : bytes :=
  mint self AT_JWT did scope None lifetime now.
Definition access (self : Tokens) (did : Did.t) (scope : Scope) (now : Z) : bytes :=
  access_for self did scope ACCESS_LIFETIME now.
Definition refresh (self : Tokens) (did : Did.t) (id : bytes) (now : Z) : bytes :=
  mint self REFRESH_JWT did ScRefresh (Some id) REFRESH_LIFETIME now.

(** [Tokens::verify]. *)
Definition verify_token (self : Tokens) (token typ_ : bytes) (scopes : list Scope) (expired : Expired) (now : Z)
  : result Xrpc.Error Claims :=
  '(signed, signature) ← ok_or (rsplit_once 46 token) unverifiable;
  '(header, payload) ← ok_or (split_once 46 signed) unverifiable;
  if contains 46 payload then Err unverifiable else
  header ← decode (T := Header) header;
  if negb (bool_decide (alg header = HS256)) || negb (bool_decide (typ header = typ_)) then Err unverifiable else
  signature ← ok_or (b64_decode signature) unverifiable;
  if negb (bool_decide (signature = hmac (token_key self) signed)) then Err unverifiable else
  claims ← decode (T := Claims) payload;
  if bool_decide (expired = Refuse) && (exp claims <=? as_second now)
  then Err (Xrpc.named (lit "ExpiredToken") (Xrpc.invalid_request (lit "Token has expired"))) else
  if negb (bool_decide (aud claims = audience self)) then Err unverifiable else
  if bool_decide (is_Some (lxm claims)) || bool_decide (is_Some (cnf claims)) then Err malformed else
  if match scope_from_str (scope claims) with Some s => negb (bool_decide (s ∈ scopes)) | None => true end
  then Err (Xrpc.named (lit "InvalidToken") (Xrpc.invalid_request (lit "Bad token scope"))) else
  Ok claims.

(** [verify_access] and [verify_refresh]. *)
Definition verify_access (self : Tokens) (token : bytes) (scopes : list Scope) (now : Z) : result Xrpc.Error Access :=
  claims ← verify_token self token AT_JWT scopes Refuse now;
  did ← did_of (sub claims);
  scope ← scope_of (scope claims);
  Ok (MkAccess did scope).
Definition verify_refresh (self : Tokens) (token : bytes) (expired : Expired) (now : Z) : result Xrpc.Error Refresh :=
  claims ← verify_token self token REFRESH_JWT [ScRefresh] expired now;
  id ← ok_or (jti claims) (Xrpc.named (lit "MissingTokenId") (Xrpc.auth_required (lit "Unexpected missing refresh token id")));
  did ← did_of (sub claims);
  Ok (MkRefresh did id).

(* ------------------------------------------------------------------ *)
(** ** The [Authorization] header *)

(** [Credential]. *)
Inductive Credential := Bearer (token : bytes) | Dpop (token : bytes) | Basic (username password : bytes).

Context `{Base64Standard}.

(** [basic], [Authorization::parse] and [Authorization::bearer]. *)
Definition basic (token : bytes) : option Credential :=
  decoded ← standard_decode token;
  if from_utf8 decoded then
    '(username, password) ← split_once 58 decoded; Some (Basic username password)
  else None.
Definition bad_header : Xrpc.Error :=
  Xrpc.named (lit "InvalidToken") (Xrpc.invalid_request (lit "Malformed authorization header")).
Definition parse_authorization (header : option bytes) : result Xrpc.Error (option Credential) :=
  match header with
  | None => Ok None
  | Some header =>
      match split_once 32 header with
      | None => Err bad_header
      | Some (scheme, token) =>
          if contains 32 token then Err bad_header else
          let upper := map to_ascii_uppercase scheme in
          if bool_decide (upper = lit "BEARER") then Ok (Some (Bearer token))
          else if bool_decide (upper = lit "DPOP") then Ok (Some (Dpop token))
          else if bool_decide (upper = lit "BASIC") then Ok (basic token)
          else Err (Xrpc.named (lit "InvalidToken")
                      (Xrpc.invalid_request (lit "Unsupported authorization type: " ++ scheme)))
      end
  end.
Definition from_headers (header : option (option bytes)) : result Xrpc.Error (option Credential) :=
  match header with
  | None => parse_authorization None
  | Some None => Err bad_header
  | Some (Some header) => parse_authorization (Some header)
  end.
Definition bearer (self : option Credential) : option bytes :=
  match self with Some (Bearer token) => Some token | _ => None end.

(** What a method asks for: [access] and [refresh], and the extractors over
    them. *)
Definition auth_missing : Xrpc.Error := Xrpc.named (lit "AuthMissing") (Xrpc.new Xrpc.AuthenticationRequired).
Definition offered (header : option (option bytes)) : result Xrpc.Error bytes :=
  authorization ← from_headers header; ok_or (bearer authorization) auth_missing.
Definition access_with (self : Tokens) (scopes : list Scope) (header : option (option bytes)) (now : Z)
  : result Xrpc.Error Access :=
  token ← offered header; verify_access self token scopes now.
Definition extract_access (self : Tokens) := access_with self STANDARD.
Definition extract_full (self : Tokens) := access_with self FULL.
Definition refresh_with (self : Tokens) (expired : Expired) (header : option (option bytes)) (now : Z)
  : result Xrpc.Error Refresh :=
  token ← offered header; verify_refresh self token expired now.
Definition extract_refresh (self : Tokens) := refresh_with self Refuse.
Definition extract_closing (self : Tokens) := refresh_with self Allow.

(** [Admin]. *)
Definition ADMINISTRATOR : bytes := lit "admin".
Definition extract_admin (admin_password : bytes) (header : option (option bytes)) : result Xrpc.Error unit :=
  authorization ← from_headers header;
  match authorization with
  | Some (Basic username password) =>
      if negb (bool_decide (username = ADMINISTRATOR)) || negb (same password admin_password)
      then Err (Xrpc.new Xrpc.AuthenticationRequired) else Ok tt
  | _ => Err auth_missing
  end.

(** [private]: an answer that depended on who asked is marked as theirs. *)
Definition private (read : bool) (headers : Headers) : Headers :=
  if read
  then header_insert headers (lit "cache-control") (lit "private") ++ [(lit "vary", lit "Authorization")]
  else headers.

End Auth.

(* ================================================================== *)
(** * Facts *)

Lemma scope_round s : scope_from_str (scope_str s) = Some s.
Proof. by destruct s. Qed.

Lemma scope_from_str_Some b s : scope_from_str b = Some s <-> b = scope_str s.
Proof.
  split; [|by intros ->; apply scope_round].
  intros E; unfold scope_from_str in E. by apply find_some in E as [_ Hb%bool_decide_eq_true].
Qed.

Section Facts.
Context `{Hmac} `{!Base64Url} `{!Base64UrlOk}.
Context `{!JsonCodec Header} `{!JsonCodecOk Header any_header} `{!JsonCodec Claims} `{!JsonCodecOk Claims session_claims}.

Lemma part_plain {T} `{JsonCodec T} (x : T) : 46 ∉ part x.
Proof. apply b64_plain. Qed.

Lemma decode_part {T} `{JsonCodec T} (written : T -> Prop) `{!JsonCodecOk T written} (x : T) :
  written x -> decode (part x) = Ok x.
Proof. intros Hx; unfold decode, part. rewrite b64_roundtrip; cbn. by rewrite json_roundtrip. Qed.

(** What [verify_token] makes of a token of three parts. *)
Definition read_claims (self : Tokens) (typ_ : bytes) (scopes : list Scope) (expired : Expired) (now : Z)
    (header : Header) (claims : Claims) : result Xrpc.Error Claims :=
  if negb (bool_decide (alg header = HS256)) || negb (bool_decide (typ header = typ_)) then Err unverifiable else
  if bool_decide (expired = Refuse) && (exp claims <=? as_second now)
  then Err (Xrpc.named (lit "ExpiredToken") (Xrpc.invalid_request (lit "Token has expired"))) else
  if negb (bool_decide (aud claims = audience self)) then Err unverifiable else
  if bool_decide (is_Some (lxm claims)) || bool_decide (is_Some (cnf claims)) then Err malformed else
  if match scope_from_str (scope claims) with Some s => negb (bool_decide (s ∈ scopes)) | None => true end
  then Err (Xrpc.named (lit "InvalidToken") (Xrpc.invalid_request (lit "Bad token scope"))) else
  Ok claims.

Lemma verify_signed self typ_ scopes expired now header claims :
  session_claims claims -> let signed := part header ++ lit "." ++ part claims in
  verify_token self (signed ++ lit "." ++ b64_encode (hmac (token_key self) signed)) typ_ scopes expired now
  = read_claims self typ_ scopes expired now header claims.
Proof.
  intros Hs; cbv zeta; unfold verify_token, read_claims.
  assert (forall a b, 46 ∉ b -> rsplit_once 46 (a ++ lit "." ++ b) = Some (a, b)) as Hr
    by (intros; by apply rsplit_once_Some).
  rewrite Hr by apply b64_plain; cbn [ok_or mbind result_bind].
  assert (split_once 46 (part header ++ lit "." ++ part claims) = Some (part header, part claims)) as ->
    by (apply split_once_Some; split; [done|apply part_plain]).
  cbn [ok_or mbind result_bind].
  rewrite (proj2 (contains_false _ _) (part_plain claims)).
  rewrite (decode_part any_header), (decode_part session_claims) by done; cbn [mbind result_bind]. destruct (_ || _); [done|].
  rewrite b64_roundtrip; cbn [ok_or mbind result_bind]. by rewrite bool_decide_true.
Qed.

(** An accepted token, part by part. *)
Record signed_token (self : Tokens) (token typ_ : bytes) (scopes : list Scope) (expired : Expired) (now : Z) (claims : Claims)
  : Prop := {
  signed_parts : exists header payload, 46 ∉ header /\ 46 ∉ payload
    /\ token = header ++ lit "." ++ payload ++ lit "." ++ b64_encode (hmac (token_key self) (header ++ lit "." ++ payload))
    /\ (exists b, b64_decode header = Some b /\ json_from_slice b = Some (MkHeader HS256 typ_))
    /\ exists b, b64_decode payload = Some b /\ json_from_slice b = Some claims;
  signed_for_us : aud claims = audience self;
  signed_in_time : expired = Refuse -> as_second now < exp claims;
  signed_session : lxm claims = None /\ cnf claims = None;
  signed_scope : exists s, scope claims = scope_str s /\ s ∈ scopes
}.

Lemma decode_Ok {T} `{JsonCodec T} b (x : T) :
  decode b = Ok x -> exists d, b64_decode b = Some d /\ json_from_slice d = Some x.
Proof.
  unfold decode; intros (d & Ed & Ex)%bind_Ok. destruct (b64_decode b); [|done]. injection Ed as ->.
  exists d; split; [done|]. destruct (json_from_slice d); [|done]. by injection Ex as ->.
Qed.

Lemma verify_token_Ok self token typ_ scopes expired now claims :
  verify_token self token typ_ scopes expired now = Ok claims -> signed_token self token typ_ scopes expired now claims.
Proof.
  unfold verify_token; intros ([signed signature] & E1 & E)%bind_Ok.
  destruct (rsplit_once 46 token) as [[? ?]|] eqn:Er; [|done]; injection E1 as -> ->.
  apply rsplit_once_Some in Er as [-> Hsig].
  apply bind_Ok in E as ([header payload] & E1 & E).
  destruct (split_once 46 signed) as [[? ?]|] eqn:Es; [|done]; injection E1 as -> ->.
  apply split_once_Some in Es as [-> Hhead].
  destruct (contains 46 payload) eqn:Ec; [done|]. apply contains_false in Ec.
  apply bind_Ok in E as ([al ty] & Hh%decode_Ok & E). cbn [alg typ] in E.
  destruct (_ || _) eqn:Ea in E; [done|]. apply orb_false_iff in Ea as [Ea%negb_false_iff Et%negb_false_iff].
  apply bool_decide_eq_true in Ea as ->; apply bool_decide_eq_true in Et as ->.
  apply bind_Ok in E as (mac & E1 & E). destruct (b64_decode signature) as [d|] eqn:Ed; [|done]; injection E1 as ->.
  apply b64_canonical in Ed as ->.
  destruct (negb _) eqn:Em in E; [done|]. apply negb_false_iff, bool_decide_eq_true in Em as ->.
  apply bind_Ok in E as (cl & Hp%decode_Ok & E).
  destruct (_ && _) eqn:Ee in E; [done|].
  destruct (negb _) eqn:Eu in E; [done|]. apply negb_false_iff, bool_decide_eq_true in Eu.
  destruct (_ || _) eqn:El in E; [done|]. apply orb_false_iff in El as [El%bool_decide_eq_false Ecn%bool_decide_eq_false].
  destruct (match scope_from_str (scope cl) with Some _ => _ | None => _ end) eqn:Esc; [done|]. injection E as ->.
  split; [|done| | |].
  - exists header, payload. split_and!; [done|done| |done|done]. by rewrite <- !app_assoc.
  - intros ->. cbn in Ee. by apply Z.leb_gt in Ee.
  - destruct (lxm claims), (cnf claims); try done; [destruct El|destruct El|destruct Ecn]; by eexists.
  - destruct (scope_from_str (scope claims)) as [s|] eqn:Es; [|done]. exists s.
    split; [by apply scope_from_str_Some|]. by apply negb_false_iff, bool_decide_eq_true in Esc.
Qed.

Lemma did_of_Ok b d : did_of b = Ok d -> b = Did.str d /\ well_formed d.
Proof.
  unfold did_of; intros E%map_err_Ok. apply from_str_Ok in E as [Hr ->]. by split.
Qed.

End Facts.

(* ================================================================== *)
(** * The properties *)

Section Properties.
Context `{Hmac} `{!Base64Url} `{!Base64UrlOk}.
Context `{!JsonCodec Header} `{!JsonCodecOk Header any_header} `{!JsonCodec Claims} `{!JsonCodecOk Claims session_claims}.

Definition expired_token : Xrpc.Error :=
  Xrpc.named (lit "ExpiredToken") (Xrpc.invalid_request (lit "Token has expired")).
Definition bad_scope : Xrpc.Error := Xrpc.named (lit "InvalidToken") (Xrpc.invalid_request (lit "Bad token scope")).

(** A token reads back as the session that minted it. An access
    token is that account's under that scope until its lifetime is over, and is
    refused as expired from then on, and for its scope where the method does not
    take it; a refresh token is that account's under the id it was given, and is
    read past its lifetime only to end the session. Neither kind can be spent as
    the other, whatever it is for and whenever it is offered. *)
Theorem tokens_read_back_as_minted self did scope id scopes expired lifetime at_ now :
  well_formed did ->
  verify_access self (access_for self did scope lifetime at_) scopes now
    = (if as_second (at_ + lifetime) <=? as_second now then Err expired_token
       else if bool_decide (scope ∈ scopes) then Ok (MkAccess did scope) else Err bad_scope)
  /\ verify_refresh self (refresh self did id at_) expired now
    = (if bool_decide (expired = Refuse) && (as_second (at_ + REFRESH_LIFETIME) <=? as_second now)
       then Err expired_token else Ok (MkRefresh did id))
  /\ verify_refresh self (access_for self did scope lifetime at_) expired now = Err unverifiable
  /\ verify_access self (refresh self did id at_) scopes now = Err unverifiable.
Proof.
  intros Hw. pose proof (from_str_well_formed did Hw : from_str (Did.str did) = Ok did) as Hd.
  unfold verify_access, verify_refresh, access_for, refresh, mint; cbv zeta. rewrite !verify_signed by done.
  unfold read_claims; cbn [alg typ exp aud lxm cnf Auth.scope sub jti]. rewrite !scope_round.
  rewrite !(bool_decide_true (HS256 = HS256)), !(bool_decide_true (audience self = audience self)) by done.
  split_and!; try (vm_compute; reflexivity).
  - rewrite !(bool_decide_true (AT_JWT = AT_JWT)), (bool_decide_true (Refuse = Refuse)) by done; cbn [negb orb andb].
    destruct (as_second (at_ + lifetime) <=? _); [done|]. rewrite !bool_decide_false by (by intros [? ?]); cbn [orb].
    destruct (bool_decide (scope ∈ scopes)); cbn [negb]; [|done].
    cbn. unfold did_of, scope_of; cbn [sub Auth.scope]. rewrite Hd, scope_round. done.
  - rewrite !(bool_decide_true (REFRESH_JWT = REFRESH_JWT)) by done; cbn [negb orb andb].
    destruct (_ && _); [done|]. rewrite !(bool_decide_false (is_Some None)) by (by intros [? ?]); cbn [orb].
    rewrite bool_decide_true by (by left). cbn. unfold did_of; cbn [sub]. by rewrite Hd.
Qed.

(** C18 (safety). Every token that is accepted was signed here. Whatever text is
    offered, an accepted one is a header and claims this server's secret signed,
    in the one spelling base64url has of them, of the kind asked for, for this
    server, not past its expiry (a refresh token offered to end its session
    excepted), with a scope the method takes and with nothing of a service
    token; and the answer is what the claims say. No token is accepted as both
    kinds. *)
Theorem accepted_tokens_were_signed_here self token scopes expired now :
  (forall a, verify_access self token scopes now = Ok a ->
     well_formed (access_did a) /\ access_scope a ∈ scopes
     /\ exists claims, signed_token self token AT_JWT scopes Refuse now claims
          /\ sub claims = Did.str (access_did a) /\ scope claims = scope_str (access_scope a))
  /\ (forall r, verify_refresh self token expired now = Ok r ->
     well_formed (refresh_did r)
     /\ exists claims, signed_token self token REFRESH_JWT [ScRefresh] expired now claims
          /\ sub claims = Did.str (refresh_did r) /\ jti claims = Some (refresh_id r))
  /\ ~ (is_ok (verify_access self token scopes now) = true /\ is_ok (verify_refresh self token expired now) = true).
Proof.
  assert (forall a, verify_access self token scopes now = Ok a -> well_formed (access_did a) /\ access_scope a ∈ scopes
     /\ exists claims, signed_token self token AT_JWT scopes Refuse now claims
          /\ sub claims = Did.str (access_did a) /\ scope claims = scope_str (access_scope a)) as Ha.
  { unfold verify_access; intros a (claims & Hc%verify_token_Ok & E)%bind_Ok.
    apply bind_Ok in E as (d & [Es Hd]%did_of_Ok & E). apply bind_Ok in E as (s & Hs & [= <-]); cbn.
    unfold scope_of in Hs. destruct (scope_from_str _) as [s'|] eqn:E; [|done]. injection Hs as ->.
    apply scope_from_str_Some in E. split_and!; [done| |by exists claims].
    destruct (signed_scope _ _ _ _ _ _ _ Hc) as (s' & Es' & Hin). rewrite Es' in E.
    apply scope_from_str_Some in E as E'. rewrite scope_round in E'. by injection E' as ->. }
  assert (forall r, verify_refresh self token expired now = Ok r -> well_formed (refresh_did r)
     /\ exists claims, signed_token self token REFRESH_JWT [ScRefresh] expired now claims
          /\ sub claims = Did.str (refresh_did r) /\ jti claims = Some (refresh_id r)) as Hr.
  { unfold verify_refresh; intros r (claims & Hc%verify_token_Ok & E)%bind_Ok.
    apply bind_Ok in E as (i & Hi & E). apply bind_Ok in E as (d & [Es Hd]%did_of_Ok & [= <-]); cbn.
    destruct (jti claims) eqn:Ej; [|done]. injection Hi as ->. split; [done|]. by exists claims. }
  split_and!; [exact Ha|exact Hr|]. intros [Ea Er].
  apply is_ok_true in Ea as [a Ea]; apply is_ok_true in Er as [r Er].
  apply Ha in Ea as (_ & _ & c & [(h & p & Hh & Hp & E & (b & Eb & Ej) & _) _ _ _ _] & _).
  apply Hr in Er as (_ & c' & [(h' & p' & Hh' & Hp' & E' & (b' & Eb' & Ej') & _) _ _ _ _] & _).
  rewrite E in E'. assert (split_once 46 token = Some (h, p ++ lit "." ++ b64_encode (hmac (token_key self) (h ++ lit "." ++ p)))
    /\ split_once 46 token = Some (h', p' ++ lit "." ++ b64_encode (hmac (token_key self) (h' ++ lit "." ++ p')))) as [E1 E2].
  { split; apply split_once_Some; split; [exact E|done|by rewrite E|done]. }
  rewrite E1 in E2; injection E2 as <- _. rewrite Eb in Eb'; injection Eb' as <-. rewrite Ej in Ej'. done.
Qed.

End Properties.

(* ------------------------------------------------------------------ *)
(** ** At a concrete server *)

Module Sample.

(** Every byte but the dot. *)
#[export] Instance shifted : Base64Url := {|
  b64_encode b := map (fun z => if 46 <=? z then z + 1 else z) b;
  b64_decode b := if contains 46 b then None else Some (map (fun z => if 46 <=? z then z - 1 else z) b)
|}.

Lemma shifted_plain b : 46 ∉ b64_encode b.
Proof. cbn; intros (z & Hz & _)%list_elem_of_fmap. destruct (Z.leb_spec 46 z); lia. Qed.

#[export] Instance shifted_ok : Base64UrlOk.
Proof.
  split; [| |exact shifted_plain].
  - intros b. pose proof (proj2 (contains_false _ _) (shifted_plain b)) as Hc.
    cbn in Hc |- *; rewrite Hc; f_equal. rewrite map_map. rewrite <- (map_id b) at 2; apply map_ext. intros z.
    destruct (Z.leb_spec 46 z); [destruct (Z.leb_spec 46 (z + 1))|destruct (Z.leb_spec 46 z)]; lia.
  - intros t b; cbn. destruct (contains 46 t) eqn:Ec; [done|]. intros [= <-]. apply contains_false in Ec.
    rewrite map_map. rewrite <- (map_id t) at 1; apply map_ext_in. intros z Hz%list_elem_of_In.
    assert (z <> 46) by (intros ->; done).
    destruct (Z.leb_spec 46 z); [destruct (Z.leb_spec 46 (z - 1))|destruct (Z.leb_spec 46 z)]; lia.
Qed.

#[export] Instance appended : Hmac := fun key message => reverse message ++ key.

Notation fields := (bytes * bytes * bytes * Z * Z * option bytes)%type.
#[export] Instance header_json : JsonCodec Header := {|
  json_to_vec h := [Zpos (countable.encode (alg h, typ h))];
  json_from_slice b := match b with [Zpos p] => (fun e => MkHeader e.1 e.2) <$> countable.decode (A := bytes * bytes) p | _ => None end
|}.
#[export] Instance header_json_ok : JsonCodecOk Header any_header.
Proof. split; intros [a t] _. unfold json_from_slice, json_to_vec, header_json. by rewrite decode_encode. Qed.
#[export] Instance claims_json : JsonCodec Claims := {|
  json_to_vec c := [Zpos (countable.encode (scope c, sub c, aud c, iat c, exp c, jti c))];
  json_from_slice b := match b with
    | [Zpos p] => (fun '(s, u, a, i, e, j) => MkClaims s u a i e j None None) <$> countable.decode (A := fields) p
    | _ => None end
|}.
#[export] Instance claims_json_ok : JsonCodecOk Claims session_claims.
Proof.
  split; intros [s u a i e j l c] [El Ec]. cbn in El, Ec; subst.
  unfold json_from_slice, json_to_vec, claims_json. rewrite decode_encode. done.
Qed.

Definition tokens : Tokens := MkTokens (lit "a secret") (lit "did:web:pds.example.com").
Definition account : Did.t := Did.mk (lit "did:plc:4cjoyc3cgpal7gnrpzyjhnv3").

End Sample.
Import Sample.

Lemma tokens_read_back_as_minted_witness :
  verify_access tokens (access_for tokens Sample.account AppPassword 60 5) FULL 7
    = (if as_second (5 + 60) <=? as_second 7 then Err expired_token
       else if bool_decide (AppPassword ∈ FULL) then Ok (MkAccess Sample.account AppPassword) else Err bad_scope)
  /\ verify_refresh tokens (refresh tokens Sample.account (lit "stored") 5) Allow 7
    = (if bool_decide (Allow = Refuse) && (as_second (5 + REFRESH_LIFETIME) <=? as_second 7)
       then Err expired_token else Ok (MkRefresh Sample.account (lit "stored")))
  /\ verify_refresh tokens (access_for tokens Sample.account AppPassword 60 5) Allow 7 = Err unverifiable
  /\ verify_access tokens (refresh tokens Sample.account (lit "stored") 5) FULL 7 = Err unverifiable.
Proof. apply tokens_read_back_as_minted; vm_compute; reflexivity. Defined.

Lemma accepted_tokens_were_signed_here_witness :
  exists a claims,
    verify_access tokens (access tokens Sample.account ScAccess 5) STANDARD 7 = Ok a
    /\ signed_token tokens (access tokens Sample.account ScAccess 5) AT_JWT STANDARD Refuse 7 claims
    /\ sub claims = Did.str (access_did a) /\ scope claims = scope_str (access_scope a).
Proof.
  destruct (accepted_tokens_were_signed_here tokens (access tokens Sample.account ScAccess 5) STANDARD Refuse 7) as (Ha & _ & _).
  assert (verify_access tokens (access tokens Sample.account ScAccess 5) STANDARD 7 = Ok (MkAccess Sample.account ScAccess)) as E
    by (vm_compute; reflexivity).
  destruct (Ha _ E) as (_ & _ & claims & Hc & Hs & Hp). exists (MkAccess Sample.account ScAccess), claims. by split_and!.
Defined.
