(* ===== verification/Writes.v ===== *)
(** * Writes: one batch of writes, from the request to the commit

    [src/src/account.rs]: its [Error], what a caller may ask of a write
    ([Requested]), the plan a batch comes down to ([plan]) and the loop that
    works a revision out and commits it ([commit_writes]), with [event::Op]
    from [src/src/event.rs].

    [commit_writes] takes the account's tables, its files and the clock and
    gives all three back.  Another process may write to the same files: what it
    does between one attempt being worked out and being committed is [others],
    a function of the attempt.  What the clocks read is [moments], one for each
    attempt.  The fuel is [Repo.apply]'s. *)

From S2P Require Import Prelude Syntax Crypto Block Mst MstDiff Json Repo Storage Blobs Handles Actor Links Plc.

Local Open Scope Z_scope.

(* ------------------------------------------------------------------ *)
(** ** What goes wrong *)

(** [account::Error]. *)
Inductive Error :=
| Credentials
| BadHandle (why : Invalid)
| Email
| PasswordTooLong
| Taken (what : string)
| InviteRequired
| Invite
| TooManyInvites
| Directory (why : PlcError)
| NoRepo (did : Did.t)
| NoBlocks (cids : list Cid)
| Swap (held : Cid)
| SwapRecord (held : option Cid)
| Contended
| BadBlob (why : Storage.Error)
| InRepo (why : RepoError)
| InStorage (why : Storage.Error).

(** [From<store::Error>]. *)
Definition from_store (e : Storage.Error) : Error :=
  match e with
  | InviteUnavailable => Invite
  | HandleTaken => Taken "Handle"
  | EmailTaken => Taken "Email"
  | AppPasswordTaken => Taken "App password name"
  | BlobMissing _ | BlobMismatch _ _ _ => BadBlob e
  | e => InStorage e
  end.

(** [Error::sent], [busy] and [name]. *)
Definition sent (e : Error) : bool :=
  match e with NoBlocks _ => true | InRepo e => Block.sent e | _ => false end.
Definition busy (e : Error) : bool :=
  match e with
  | InRepo e => Block.busy e
  | InStorage e => Storage.busy e
  | Contended => true
  | _ => false
  end.
Definition name (e : Error) : string :=
  if busy e then "NotEnoughResources" else if sent e then "InvalidRequest" else
  match e with
  | BadHandle why => invalid_name why
  | InviteRequired | Invite => "InvalidInviteCode"
  | Credentials => "AuthenticationRequired"
  | Directory _ | InRepo _ | InStorage _ => "InternalServerError"
  | NoRepo _ => "RepoNotFound"
  | BadBlob (BlobMismatch what _ _) => if String.eqb what "Size" then "InvalidSize" else "InvalidMimeType"
  | BadBlob _ => "BlobNotFound"
  | Swap _ | SwapRecord _ => "InvalidSwap"
  | Contended | Email | NoBlocks _ | PasswordTooLong | Taken _ | TooManyInvites => "InvalidRequest"
  end.

Definition in_repo {A} : result RepoError A -> result Error A := map_err InRepo.
Definition in_store {A} : result Storage.Error A -> result Error A := map_err from_store.

(* ------------------------------------------------------------------ *)
(** ** What is asked, and what it comes down to *)

(** [Expect], [Missing], [Conflicts] and [Requested]. *)
Inductive Expect := Anything | Nothing | Exactly (cid : Cid).
Inductive Missing := Refuse | Skip.
Inductive Conflicts := Ignore | Supersede.
Record Requested := MkRequested {
  write : Write; expect : Expect; missing : Missing; conflicts : Conflicts
}.
Definition plain (w : Write) : Requested := MkRequested w Anything Refuse Ignore.

(** [event::Op], [Applied], [Written], [Plan] and [Landed]. *)
Inductive Action := ActCreate | ActUpdate | ActDelete.
Record Op := MkOp { action : Action; op_path : bytes; op_cid : option Cid; op_prev : option Cid }.
Record Applied := MkApplied { applied_uri : bytes; applied_cid : option Cid }.
Record Written := MkWritten { results : list Applied; commit_cid : Cid; written_rev : Tid.t }.
Record Plan := MkPlan {
  writes : list Write; index : list Indexed; ops : list Op; plan_results : list Applied
}.
Record Landed := MkLanded {
  landed_written : Written; landed_root : Root; landed_blocks : BlockMap.t; landed_ops : list Op;
  landed_since : Tid.t; prev_data : Cid; committed : Committed
}.

(** What a clock reads while one attempt runs. *)
Record Moment := MkMoment { micros : option Z; stamp : bytes; touched : Z }.

(** [ATTEMPTS]. *)
Definition ATTEMPTS : nat := 8.

Section Writes.
Context (p256 k256 : Curve) `{Sha256} `{CidText}.
Context `{!Codec NodeData} `{!Codec Ipld} `{!Codec Commit} `{!Codec Unsigned}.
Context (blobs : Blobs) (did : Did.t).

(** [superseded], and its loop over the records already pointing there. *)
Fixpoint take_out (repo : Repo) (st : Store) (collection : Nsid.t) (held : list RecordKey.t) (acc : Plan)
  : result Error (Repo * Plan) :=
  match held with
  | [] => Ok (repo, acc)
  | key :: held =>
      '(repo, prev) ← in_repo (Repo.get repo st collection key);
      take_out repo st collection held
        (MkPlan (writes acc ++ [WDelete collection key]) (index acc ++ [Delete collection key])
           (ops acc ++ [MkOp ActDelete (Repo.path collection key) None prev]) (plan_results acc))
  end.
Fixpoint supersede (d : Db) (repo : Repo) (st : Store) (collection : Nsid.t) (links : list Backlink) (acc : Plan)
  : result Error (Repo * Plan) :=
  match links with
  | [] => Ok (repo, acc)
  | link :: links =>
      held ← in_store (pointing_at d collection link);
      '(repo, acc) ← take_out repo st collection held acc;
      supersede d repo st collection links acc
  end.
Definition superseded (d : Db) (repo : Repo) (st : Store) (w : Write) (acc : Plan) : result Error (Repo * Plan) :=
  match Repo.record w with
  | Some record =>
      if Backlink.held_to_one (fst (target w))
      then supersede d repo st (fst (target w)) (Backlink.of_ record) acc
      else Ok (repo, acc)
  | None => Ok (repo, acc)
  end.

(** The CID a write leaves at its key, and what the log calls it. *)
Definition record_cid (record : Ipld) : result Error Cid := b ← in_repo (encode record); Ok (Block.cid_for b).
Definition outcome (w : Write) (prev : option Cid) : result Error (Action * option Cid) :=
  match w with
  | WCreate _ _ record => cid ← record_cid record; Ok (ActCreate, Some cid)
  | WUpdate _ _ record => cid ← record_cid record; Ok (ActUpdate, Some cid)
  | WPut _ _ record =>
      cid ← record_cid record;
      Ok (match prev with Some _ => ActUpdate | None => ActCreate end, Some cid)
  | WDelete _ _ => Ok (ActDelete, None)
  end.

(** What a caller believed against what is there. *)
Definition as_expected (e : Expect) (prev : option Cid) : bool :=
  match e, prev with
  | Anything, _ | Nothing, None => true
  | Exactly wanted, Some held => bool_decide (wanted = held)
  | _, _ => false
  end.

(** One turn of [plan]. *)
Definition plan_one (d : Db) (repo : Repo) (st : Store) (asked : Requested) (acc : Plan)
  : result Error (Repo * Plan) :=
  let w := write asked in
  let '(collection, rkey) := target w in
  '(repo, prev) ← in_repo (Repo.get repo st collection rkey);
  match prev, missing asked with
  | None, Skip => Ok (repo, acc)
  | _, _ =>
      if negb (as_expected (expect asked) prev) then Err (SwapRecord prev) else
      '(repo, acc) ← match conflicts asked with
                     | Supersede => superseded d repo st w acc
                     | Ignore => Ok (repo, acc)
                     end;
      let links := match Repo.record w with Some record => Backlink.of_ record | None => [] end in
      named ← in_repo (match Repo.record w with Some record => Blobref.of_ record | None => Ok [] end);
      '(act, cid) ← outcome w prev;
      Ok (repo, MkPlan (writes acc ++ [w])
        (index acc ++ [match cid with
                       | Some cid => Put collection rkey cid links named
                       | None => Delete collection rkey
                       end])
        (ops acc ++ [MkOp act (key w) cid prev])
        (plan_results acc ++ [MkApplied (lit "at://" ++ Did.str did ++ lit "/" ++ key w) cid]))
  end.
Fixpoint plan_all (d : Db) (repo : Repo) (st : Store) (requested : list Requested) (acc : Plan)
  : result Error (Repo * Plan) :=
  match requested with
  | [] => Ok (repo, acc)
  | asked :: requested =>
      '(repo, acc) ← plan_one d repo st asked acc; plan_all d repo st requested acc
  end.
Definition plan (d : Db) (repo : Repo) (st : Store) (requested : list Requested) : result Error (Repo * Plan) :=
  plan_all d repo st requested (MkPlan [] [] [] []).

(* ------------------------------------------------------------------ *)
(** ** Committing it *)

(** What an attempt works out before anything is written: nothing to write, or
    the root it starts from, the repository and the plan. *)
Definition work_out (d : Db) (requested : list Requested) (swap : option Cid)
  : result Error (option (Root * Repo * Plan)) :=
  held ← in_store (read_root did d);
  from ← ok_or held (NoRepo did);
  repo ← in_repo (Repo.load (Actor.store d) (cid from));
  '(repo, planned) ← plan d repo (Actor.store d) requested;
  match writes planned with
  | [] => Ok None
  | _ =>
      match swap with
      | Some wanted => if decide (wanted <> cid from) then Err (Swap (cid from)) else Ok (Some (from, repo, planned))
      | None => Ok (Some (from, repo, planned))
      end
  end.

(** [start_repo], past the key and the operation it writes beside the store: a
    first commit, whatever the store answers to it. *)
Definition start_repo (keypair : Keypair p256 k256) (stamp : bytes) (touched : Z) (micros : option Z)
    (d : Db) (files : Fs.t) (clock : Tid.Clock) : Db * Fs.t * Tid.Clock * result Error (Root * BlockMap.t) :=
  match Repo.create p256 k256 did keypair clock micros with
  | (Err e, clock) => (d, files, clock, Err (InRepo e))
  | (Ok (repo, blocks), clock) =>
      let root := MkRoot (Repo.r_cid repo) (Repo.rev repo) in
      match Actor.commit blobs did stamp touched d files None root (MkBlocks blocks []) [] with
      | (d, files, Err e) => (d, files, clock, Err (from_store e))
      | (d, files, Ok _) => (d, files, clock, Ok (root, blocks))
      end
  end.

Context (keypair : Keypair p256 k256) (fuel : nat).
Context (moments : nat -> Moment) (others : nat -> Db * Fs.t -> Db * Fs.t).

(** The loop of [commit_writes], [n] attempts before its end. *)
Fixpoint attempts (n : nat) (d : Db) (files : Fs.t) (clock : Tid.Clock) (requested : list Requested) (swap : option Cid)
  : option (Db * Fs.t * Tid.Clock * result Error (option Landed)) :=
  match n with
  | O => Some (d, files, clock, Err Contended)
  | S n' =>
      match work_out d requested swap with
      | Err e => Some (d, files, clock, Err e)
      | Ok None => Some (d, files, clock, Ok None)
      | Ok (Some (from, repo, planned)) =>
          let m := moments n in
          match Repo.apply p256 k256 fuel repo (Actor.store d) (writes planned) keypair clock (micros m) with
          | None => None
          | Some (_, clock, Err e) => Some (d, files, clock, Err (InRepo e))
          | Some (after, clock, Ok (written, gone)) =>
              let root := MkRoot (Repo.r_cid after) (Repo.rev after) in
              let '(d, files) := others n (d, files) in
              match Actor.commit blobs did (stamp m) (touched m) d files (Some from) root
                      (MkBlocks written gone) (index planned) with
              | (d, files, Err e) => Some (d, files, clock, Err (from_store e))
              | (d, files, Ok None) => attempts n' d files clock requested swap
              | (d, files, Ok (Some cleared)) =>
                  Some (d, files, clock, Ok (Some (MkLanded
                    (MkWritten (plan_results planned) (cid root) (Actor.rev root)) root written (ops planned)
                    (Repo.rev repo) (c_data (r_commit repo)) cleared)))
              end
          end
      end
  end.

(** [commit_writes], past reading the signing key. *)
Definition commit_writes := attempts ATTEMPTS.

End Writes.
