(* ===== verification/Sessions.v ===== *)
(** * Sessions: signing in, and exchanging a refresh token

    [src/src/account.rs], the part over the account database that is not a
    signup: [login], [open_session], [refresh_session] with the loop of
    [rotate], the revocations, app passwords, and minting invites.  What is drawn
    at random and what the clocks read are arguments.  The time a sign-in waits
    is in [Turns]; the semaphore hashing queues on is left out, since it changes
    no answer.

    Another process may write to the same database while an exchange runs:
    what it does between one turn reading the session and writing it is
    [others], a function of the turn. *)

From S2P Require Import Prelude Syntax Crypto Text Block Json Storage Blobs Handles Actor Links Plc Accounts.
From S2P Require Import Passwords Xrpc Auth Writes.

Local Open Scope Z_scope.

(** [GRACE], [STORED_PASSWORD] and [INVITES]. *)
Definition GRACE : Z := 2 * 3600 * SECOND.
Definition STORED_PASSWORD : Z := 512.
Definition INVITES : Z := 1000.

(** [Credentials], [Login] and [AppPassword]. *)
Record Credentials := MkCredentials { cred_access : bytes; cred_refresh : bytes }.
Record Login := MkLogin { login_account : Account; login_app : option Accounts.AppPassword }.
Record NewAppPassword := MkNewAppPassword {
  new_name : bytes; new_password : bytes; new_created : Z; new_privileged : bool
}.

(** [str::chars] counted: a character starts where a byte continues none. *)
Definition char_count (s : bytes) : Z := len (List.filter (fun b => negb (is_continuation b)) s).

Section Sessions.
Context `{CidText} `{Stamps} `{Sha256} `{Password.Scrypt}.
Context `{Hmac} `{Base64Url} `{!JsonCodec Header} `{!JsonCodec Claims}.

(* ------------------------------------------------------------------ *)
(** ** Signing in *)

(** The account an identifier names, as [check] looks one up. *)
Definition named_by (d : Accounts) (identifier : bytes) : result Storage.Error (option Account) :=
  if contains 64 identifier then by_email d identifier
  else match AtIdentifier.parse identifier with
       | Ok (AtIdentifier.IsDid did) => by_did d did
       | Ok (AtIdentifier.IsHandle handle) => by_handle d handle
       | Err _ => Ok None
       end.

(** [Manager::check]. *)
Definition check (d : Accounts) (identifier password : bytes) : result Writes.Error Login :=
  if STORED_PASSWORD <? char_count password then Err Writes.Credentials else
  account ← in_store (named_by d (map to_ascii_lowercase identifier));
  match account with
  | None => Err Writes.Credentials
  | Some account =>
      if Password.verify password (password_scrypt account) then Ok (MkLogin account None) else
      app ← ok_or (held_under d (Accounts.did account) (Password.app (Accounts.did account) password)) Writes.Credentials;
      Ok (MkLogin account (Some app))
  end.

(* ------------------------------------------------------------------ *)
(** ** Sessions *)

(** [Manager::mint]. *)
Definition mint (tokens : Tokens) (did : Did.t) (app_password : option Accounts.AppPassword) (id : bytes) (now : Z)
  : Credentials :=
  let scope := match app_password with
               | None => ScAccess
               | Some password => if privileged password then PrivilegedAppPassword else AppPassword
               end in
  MkCredentials (access tokens did scope now) (refresh tokens did id now).

(** [open_session], under an id drawn at random ([token_id]). *)
Definition open_session (tokens : Tokens) (id : bytes) (now : Z) (did : Did.t) (app_password : option Accounts.AppPassword)
    (d : Accounts) : Accounts * Credentials :=
  (store_session (MkSession id did (now + REFRESH_LIFETIME) None app_password) d, mint tokens did app_password id now).

(** One turn of [rotate]'s loop: an answer, or nothing where another exchange
    named a different successor first. *)
Definition turn (id : bytes) (now : Z) (drawn : bytes) (others : Accounts -> Accounts) (d : Accounts)
  : Accounts * option (result Storage.Error (option Session)) :=
  match session_of d id with
  | Err e => (d, Some (Err e))
  | Ok None => (d, Some (Ok None))
  | Ok (Some session) =>
      let '(d, _) := expire_sessions (session_did session) now d in
      let until := Z.min (expires_at session) (now + GRACE) in
      if until <=? now then (d, Some (Ok None)) else
      let next := MkSession (default drawn (next_id session)) (session_did session) (now + REFRESH_LIFETIME) None
                    (session_app session) in
      let '(d, landed) := Accounts.rotate id until next (others d) in
      (d, if landed then Some (Ok (Some next)) else None)
  end.

(** [rotate], so many turns of it. *)
Fixpoint rotate (fuel : nat) (id : bytes) (moments : nat -> Z) (drawn : nat -> bytes)
    (others : nat -> Accounts -> Accounts) (d : Accounts) : Accounts * option (result Storage.Error (option Session)) :=
  match fuel with
  | O => (d, None)
  | S fuel =>
      match turn id (moments fuel) (drawn fuel) (others fuel) d with
      | (d, None) => rotate fuel id moments drawn others d
      | answered => answered
      end
  end.

(** [refresh_session]: the credentials of the session an exchange came to. *)
Definition refresh_session (tokens : Tokens) (fuel : nat) (id : bytes) (moments : nat -> Z) (drawn : nat -> bytes)
    (others : nat -> Accounts -> Accounts) (minted : Z) (d : Accounts)
  : Accounts * option (result Storage.Error (option Credentials)) :=
  let '(d, answer) := rotate fuel id moments drawn others d in
  (d, match answer with
      | None => None
      | Some (Err e) => Some (Err e)
      | Some (Ok session) =>
          Some (Ok ((fun s => mint tokens (session_did s) (session_app s) (Accounts.id s) minted) <$> session))
      end).

(* ------------------------------------------------------------------ *)
(** ** App passwords and invites *)

(** [app_password]: four groups of four. *)
Definition app_password_text (drawn : bytes) : bytes :=
  let token := base32 drawn in
  join 45 (map (fun group => take 4 (drop (group * 4) token)) (seq 0 4)).

(** [create_app_password] and [revoke_app_password]. *)
Definition create_app_password (drawn : bytes) (now : Z) (did : Did.t) (name : bytes) (privileged : bool) (d : Accounts)
  : Accounts * result Writes.Error NewAppPassword :=
  let password := app_password_text drawn in
  let '(d, created) := Accounts.create_app_password now did (Accounts.MkAppPassword name privileged)
                         (Password.app did password) d in
  (d, match created with
      | Ok created => Ok (MkNewAppPassword name password created privileged)
      | Err e => Err (from_store e)
      end).

(** [invite_code]. *)
Definition invite_code_text (hostname drawn : bytes) : bytes :=
  let token := base32 drawn in
  map (fun b => if b =? 46 then 45 else b) hostname ++ lit "-" ++ take 5 token ++ lit "-" ++ take 5 (drop 5 token).

(** [mint_invites]: the codes of each account, drawn before any is written. *)
Fixpoint write_invites (now : Z) (minted : list (bytes * list bytes)) (uses : Z) (d : Accounts)
  : Accounts * result Storage.Error (list (list bytes)) :=
  match minted with
  | [] => (d, Ok [])
  | (for_account, codes) :: minted =>
      match create_invites now codes for_account (lit "admin") uses d with
      | (d, Err e) => (d, Err e)
      | (d, Ok _) =>
          let '(d, rest) := write_invites now minted uses d in
          (d, rest ← rest; Ok (codes :: rest))
      end
  end.
Definition mint_invites (hostname : bytes) (drawn : nat -> nat -> bytes) (now : Z) (for_accounts : list bytes)
    (count uses : Z) (d : Accounts) : Accounts * result Writes.Error (list (list bytes)) :=
  let named := Z.min (len for_accounts) U32_MAX in
  if INVITES <? Z.min (count * named) U32_MAX then (d, Err TooManyInvites) else
  let minted := imap (fun i for_account =>
      (for_account, map (fun n => invite_code_text hostname (drawn i n)) (seq 0 (Z.to_nat count)))) for_accounts in
  let '(d, written) := write_invites now minted uses d in
  (d, in_store written).

End Sessions.
