(* ===== verification/SessionsFacts.v ===== *)
(** * SessionsFacts: who signs in, and what an exchange comes to

    A sign-in is by the account's password or one of its app passwords, and is
    refused for nothing else.  An exchange of a refresh token ends whatever runs
    beside it, and however often a token is exchanged, and whatever other
    processes do to the tables meanwhile, it has one successor. *)

From S2P Require Import Prelude Syntax Crypto Text Block Json Storage Blobs Handles Actor ActorFacts Links Plc Accounts AccountsFacts.
From S2P Require Import Passwords Xrpc Auth Writes Sessions.
From Stdlib Require Import Lia.

Local Open Scope Z_scope.

Abbreviation stamp := Accounts.stamp.

Section Facts.
Context `{CidText} `{!CidTextOk} `{Stamps} `{!StampsOk} `{Sha256} `{Password.Scrypt}.
Context `{Hmac} `{Base64Url} `{!JsonCodec Header} `{!JsonCodec Claims}.

(* ------------------------------------------------------------------ *)
(** ** The loop of an exchange *)

(** How many turns are left in a token: none once its row is gone, one more
    once its successor is named. *)
Definition turns_left (id : bytes) (d : Accounts) : nat :=
  match refresh_token d !! id with
  | None => 0
  | Some row => match tok_next row with Some _ => 1 | None => 2 end
  end.

(** What another process may do to a token: take its row out, and name its
    successor where it has none. *)
Definition honest_at (id : bytes) (others : Accounts -> Accounts) (d : Accounts) : Prop :=
  match refresh_token d !! id with
  | None => refresh_token (others d) !! id = None
  | Some row => forall x row', tok_next row = Some x -> refresh_token (others d) !! id = Some row' -> tok_next row' = Some x
  end.
Definition honest (id : bytes) (others : Accounts -> Accounts) : Prop := forall d, honest_at id others d.

Lemma expired_lookup x now d id :
  refresh_token (fst (expire_sessions x now d)) !! id
  = match refresh_token d !! id with
    | Some row => if bool_decide (tok_did row = Did.str x) && str_leb (tok_expires row) (stamp now) then None else Some row
    | None => None
    end.
Proof.
  cbn. rewrite map_lookup_filter. destruct (refresh_token d !! id) as [row|]; cbn; [|done].
  destruct (_ && _); cbn; [by rewrite option_guard_False|by rewrite option_guard_True].
Qed.

Lemma turn_falls id now drawn others d d' :
  (forall x now, honest_at id others (fst (expire_sessions x now d))) ->
  turn id now drawn others d = (d', None) -> (turns_left id d' < turns_left id d)%nat.
Proof.
  intros Ho; unfold turn, session_of, turns_left. destruct (refresh_token d !! id) as [row|] eqn:Er; [|done].
  destruct (map_err _ _) as [x|]; cbn [mbind result_bind]; [|done].
  destruct (ok_or _ _) as [t|]; cbn [mbind result_bind session_did expires_at next_id session_app]; [|done].
  pose proof (expired_lookup x now d id) as He; rewrite Er in He.
  specialize (Ho x now). destruct (expire_sessions x now d) as [d0 k]; cbn [fst] in He, Ho.
  destruct (_ <=? now); [done|]. unfold Accounts.rotate, honest_at in *.
  assert (refresh_token d0 !! id = None \/ refresh_token d0 !! id = Some row) as [Hn|Hs]
    by (destruct (_ && _) in He; auto).
  - rewrite Hn in Ho; rewrite Ho. intros [= <-]; rewrite Ho. destruct (tok_next row); lia.
  - rewrite Hs in Ho. destruct (refresh_token (others d0) !! id) as [row'|] eqn:Er'.
    2: { intros [= <-]; rewrite Er'. destruct (tok_next row); lia. }
    destruct (tok_next row) as [y|] eqn:En.
    + rewrite (Ho y row' eq_refl eq_refl). cbn. by rewrite bool_decide_true.
    + cbn. destruct (tok_next row') as [y|] eqn:En'; [|by intros [=]]. destruct (bool_decide (y = drawn)); [by intros [=]|].
      intros [= <-]; rewrite Er', En'. lia.
Qed.

(** Whatever the turns keep, as many of them as the token has left are enough. *)
Lemma rotate_ends_on (I : Accounts -> Prop) id moments drawn others :
  (forall n d, I d -> I (fst (turn id (moments n) (drawn n) (others n) d))) ->
  (forall n d x now, I d -> honest_at id (others n) (fst (expire_sessions x now d))) ->
  forall fuel d, I d -> (turns_left id d < fuel)%nat -> snd (rotate fuel id moments drawn others d) <> None.
Proof.
  intros Hi Ho; induction fuel as [|fuel IH]; intros d HI Hd; [lia|]; cbn [rotate].
  specialize (Hi fuel d HI). destruct (turn _ _ _ _ d) as [d' [a|]] eqn:Et; [done|].
  apply turn_falls in Et; [|auto]. apply IH; [done|lia].
Qed.

Lemma turns_left_bound id d : (turns_left id d <= 2)%nat.
Proof. unfold turns_left. destruct (refresh_token d !! id) as [row|]; [destruct (tok_next row)|]; lia. Qed.

(* ------------------------------------------------------------------ *)
(** ** What goes on beside an exchange *)

(** The id an operation opens a session under. *)
Definition opens (op : TableOp) : option bytes :=
  match op with
  | OpCreate _ r => Accounts.id <$> session r
  | OpStoreSession s | OpRotate _ _ s => Some (Accounts.id s)
  | _ => None
  end.

(** What may go on beside the exchanges of a token, and between them: any
    operation on the tables, other exchanges of the same token among them, that
    opens no session under the token's own id, ids being drawn at random, and
    that gives the token no longer than it has. *)
Definition beside (id : bytes) (limit : Z) (op : TableOp) : Prop :=
  opens op <> Some id
  /\ match op with OpRotate id' until _ => id' = id -> kept until <= limit | _ => True end.
Definition ran_beside (id : bytes) (limit : Z) : Accounts -> Accounts -> Prop := ran (beside id limit).

(** What that comes to for the token's row: nothing, its end, or its successor
    named where it had none. *)
Lemma token_after id op d : opens op <> Some id ->
  refresh_token (run_op op d) !! id = refresh_token d !! id
  \/ refresh_token (run_op op d) !! id = None
  \/ exists until next row, op = OpRotate id until next /\ refresh_token d !! id = Some row
      /\ (forall x, tok_next row = Some x -> x = Accounts.id next)
      /\ refresh_token (run_op op d) !! id = Some (MkTokenRow (tok_did row) (stamp until) (Some (Accounts.id next)) (tok_app row)).
Proof.
  assert (forall s d, Accounts.id s <> id -> refresh_token (store_session s d) !! id = refresh_token d !! id) as Hs.
  { intros s d0 Hne; cbn. destruct (refresh_token d0 !! Accounts.id s); [done|]. by rewrite lookup_insert_ne. }
  assert (forall test d, refresh_token (fst (without test d)) !! id = refresh_token d !! id
    \/ refresh_token (fst (without test d)) !! id = None) as Hf.
  { intros test d0; cbn. rewrite map_lookup_filter. destruct (refresh_token d0 !! id) as [row|]; cbn; [|by left].
    destruct (test id row); [right; by rewrite option_guard_False|left; by rewrite option_guard_True]. }
  intros Hop; destruct op as [now r|now code k|k|now k root|s|id' until next|id'|k|k now|now k p hash|k n|now codes f b uses]; cbn [run_op opens] in *.
  all: try (by left).
  - unfold create; destruct (registering now r d) as [d'|e] eqn:E; [|by left]. apply registering_Ok in E as [_ ->]; left.
    unfold registered. destruct (session r) as [s|]; cbn [fst]; [rewrite Hs by (by intros <-; apply Hop)|]; by destruct (invite r).
  - destruct (spend_invite _ _ _ _) eqn:E; [|by left]. apply spend_invite_Ok in E as [_ ->]; by left.
  - cbn. rewrite map_lookup_filter. destruct (refresh_token d !! id) as [row|]; cbn; [|by left].
    destruct (decide (tok_did row = Did.str k)); [right; left; rewrite option_guard_False|left; rewrite option_guard_True]; naive_solver.
  - left; apply Hs; congruence.
  - unfold Accounts.rotate. destruct (refresh_token d !! id') as [row|] eqn:Er; [|by left].
    destruct (decide (id' = id)) as [->|Hne]; destruct (match tok_next row with Some _ => _ | None => _ end) eqn:En; cbn [fst]; try (by left).
    + right; right. exists until, next, row; split_and!; [done|done| |].
      * intros x Ex; rewrite Ex in En. by apply bool_decide_eq_true in En.
      * rewrite Hs by congruence. cbn. by rewrite lookup_insert_eq.
    + left. rewrite Hs by congruence. cbn. by rewrite lookup_insert_ne.
  - cbn. destruct (decide (id' = id)) as [->|]; [right; left; by rewrite lookup_delete_eq|left; by rewrite lookup_delete_ne].
  - destruct (Hf (fun _ row => bool_decide (tok_did row = Did.str k)) d); auto.
  - destruct (Hf (fun _ row => bool_decide (tok_did row = Did.str k) && str_leb (tok_expires row) (stamp now)) d); auto.
  - left; unfold Accounts.create_app_password; by case_match.
  - destruct (Hf (fun _ row => bool_decide (tok_did row = Did.str k) && bool_decide (tok_app row = Some n))
      (with_apps (base.delete (Did.str k, n)) d)); auto.
  - left; unfold create_invites; by case_match.
Qed.

(** A token whose successor is another and whose time is within a bound; whose it
    is; what its successor is; and that it is gone. *)
Definition in_hand (id : bytes) (limit : Z) (d : Accounts) : Prop :=
  tokens_fine d /\ forall row, refresh_token d !! id = Some row ->
    tok_next row <> Some id /\ exists t, tok_expires row = stamp t /\ kept t <= limit.
Definition belongs (id owner : bytes) (d : Accounts) : Prop :=
  forall row, refresh_token d !! id = Some row -> tok_did row = owner.
Definition names (id next : bytes) (d : Accounts) : Prop :=
  forall row, refresh_token d !! id = Some row -> tok_next row = Some next.
Definition gone (id : bytes) (d : Accounts) : Prop := refresh_token d !! id = None.

Lemma ran_gone id limit d d' : ran_beside id limit d d' -> gone id d -> gone id d'.
Proof.
  apply ran_keeps; intros op d0 [Hop _] _; unfold gone; intros Hn.
  destruct (token_after id op d0 Hop) as [E|[E|(until & next & row & _ & Er & _)]]; congruence.
Qed.
Lemma ran_names id limit x d d' : ran_beside id limit d d' -> names id x d -> names id x d'.
Proof.
  apply (ran_keeps _ (names id x)); intros op d0 [Hop _] _ Hn row.
  destruct (token_after id op d0 Hop) as [->|[->|(until & next & row0 & _ & Er & Hx & ->)]]; [apply Hn|done|].
  intros [= <-]; cbn. by rewrite (Hx x (Hn _ Er)).
Qed.
Lemma ran_belongs id limit owner d d' : ran_beside id limit d d' -> belongs id owner d -> belongs id owner d'.
Proof.
  apply (ran_keeps _ (belongs id owner)); intros op d0 [Hop _] _ Hn row.
  destruct (token_after id op d0 Hop) as [->|[->|(until & next & row0 & _ & Er & Hx & ->)]]; [apply Hn|done|].
  intros [= <-]; cbn. by apply Hn.
Qed.

Lemma op_tokens op d : op_well op -> tokens_fine d -> tokens_fine (run_op op d).
Proof.
  assert (forall test d, tokens_fine d -> tokens_fine (fst (without test d))) as Hf
    by (intros test d0 Hd; apply fewer_tokens; [done|apply map_filter_subseteq]).
  intros Hw Ht; destruct op as [now r|now code k|k|now k root|s|id' until next|id'|k|k now|now k p hash|k n|now codes f b uses]; cbn [run_op op_well] in *.
  all: try exact Ht.
  - unfold create; destruct (registering now r d) as [d'|e] eqn:E; [|done]. apply registering_Ok in E as [_ ->].
    destruct Hw as (_ & _ & _ & Hs). unfold registered. destruct (session r) eqn:Es, (invite r); try apply store_session_tokens; auto.
  - destruct (spend_invite _ _ _ _) eqn:E; [|done]. by apply spend_invite_Ok in E as [_ ->].
  - intros k' row Hk; cbn in Hk. apply map_lookup_filter_Some in Hk as [Hk _]. by eapply Ht.
  - by apply store_session_tokens.
  - by apply rotate_tokens.
  - apply fewer_tokens; [done|apply delete_subseteq].
  - by apply Hf.
  - by apply Hf.
  - unfold Accounts.create_app_password; by case_match.
  - by apply (Hf _ (with_apps _ d)).
  - unfold create_invites; by case_match.
Qed.

Lemma ran_in_hand id limit d d' : ran_beside id limit d d' -> in_hand id limit d -> in_hand id limit d'.
Proof.
  apply (ran_keeps _ (in_hand id limit)); intros op d0 [Hop Hlim] Hw [Ht Hr]; split; [by apply op_tokens|]. intros row.
  destruct (token_after id op d0 Hop) as [->|[->|(until & next & row0 & -> & Er & Hx & ->)]]; [apply Hr|done|].
  intros [= <-]; cbn in *. split; [congruence|]. exists until; auto.
Qed.

Lemma ran_honest id limit others d : ran_beside id limit d (others d) -> honest_at id others d.
Proof.
  intros Hr; unfold honest_at. destruct (refresh_token d !! id) as [row|] eqn:Er; [|by apply (ran_gone _ _ _ _ Hr)].
  intros x row' Ex Er'. eapply ran_names; [exact Hr| |exact Er']. intros row0; rewrite Er; by intros [= <-].
Qed.

(* ------------------------------------------------------------------ *)
(** ** A turn nothing else runs beside *)

Lemma earlier_text_spec t now : str_leb (stamp t) (stamp now) = (kept t <=? kept now).
Proof.
  apply eq_bool_prop_intro. rewrite !Is_true_true, Z.leb_le. exact (stamp_sorts t now).
Qed.

(** What one comes to: nothing once the token is gone or past its expiry,
    and otherwise its successor. *)
Lemma turn_alone id now drawn d row x t :
  refresh_token d !! id = Some row -> tok_did row = Did.str x -> well_formed x -> tok_expires row = stamp t ->
  exists d0, turn id now drawn (fun d => d) d = d0
    /\ if kept t <=? now then exists d', d0 = (d', Some (Ok None))
       else let next := MkSession (default drawn (tok_next row)) x (now + REFRESH_LIFETIME) None
              ((fun name => Accounts.MkAppPassword name
                 (match app_password d !! (tok_did row, name) with Some app => app_privileged app =? 1 | None => false end))
               <$> tok_app row) in
         exists d1, refresh_token d1 !! id = Some row
           /\ d0 = (store_session next (with_tokens
                (insert id (MkTokenRow (tok_did row) (stamp (Z.min (kept t) (now + GRACE))) (Some (Accounts.id next)) (tok_app row))) d1),
              Some (Ok (Some next))).
Proof.
  intros Er Ed Hw Et. eexists; split; [done|]. unfold turn, session_of. rewrite Er.
  rewrite Ed, (from_str_well_formed x Hw : from_str (Did.str x) = Ok x); cbn [map_err mbind result_bind].
  rewrite Et, stamp_kept; cbn [ok_or mbind result_bind session_did expires_at next_id session_app].
  pose proof (expired_lookup x now d id) as He; rewrite Er in He.
  destruct (expire_sessions x now d) as [d0 k]; cbn [fst] in He.
  assert (GRACE = 7200000000000) as Hg by done.
  destruct (Z.leb_spec (kept t) now) as [Hle|Hlt].
  - destruct (Z.leb_spec (Z.min (kept t) (now + GRACE)) now); [by eexists|lia].
  - destruct (Z.leb_spec (Z.min (kept t) (now + GRACE)) now); [lia|].
    rewrite Et, earlier_text_spec in He. pose proof (kept_before now).
    assert (kept t <=? kept now = false) as Hk by (apply Z.leb_gt; lia). rewrite Hk, andb_false_r in He.
    exists d0; split; [done|]. unfold Accounts.rotate. rewrite He; cbn [Accounts.id].
    destruct (tok_next row); cbn [default]; [rewrite bool_decide_true by done|]; by rewrite <- Ed.
Qed.

(** Alone, the first turn answers. *)
Lemma rotate_alone fuel id moments drawn d d' a :
  turn id (moments fuel) (drawn fuel) (fun d => d) d = (d', Some a) ->
  rotate (S fuel) id moments drawn (fun _ d => d) d = (d', Some a).
Proof. intros E; cbn [rotate]. by rewrite E. Qed.

Lemma stored_session s d : is_Some (refresh_token (store_session s d) !! Accounts.id s).
Proof. cbn. destruct (refresh_token d !! Accounts.id s) eqn:E; [by eexists|]. rewrite lookup_insert_eq; by eexists. Qed.

Lemma stored_other s d id : id <> Accounts.id s -> refresh_token (store_session s d) !! id = refresh_token d !! id.
Proof. intros Hne; cbn. destruct (refresh_token d !! Accounts.id s); [done|]. by rewrite lookup_insert_ne. Qed.

(* ------------------------------------------------------------------ *)
(** ** An exchange, whatever goes on beside it *)

(** A token that is gone, or out of time. *)
Definition over (id : bytes) (now : Z) (d : Accounts) : Prop := forall row, refresh_token d !! id = Some row ->
  exists t, tok_expires row = stamp t /\ kept t <= now.

(** What an answer says of the token's row before it and after. *)
Record answers_with (id : bytes) (d d' : Accounts) (n : Session) : Prop := {
  was_held : exists row, refresh_token d !! id = Some row /\ tok_did row = Did.str (session_did n)
    /\ forall x, tok_next row = Some x -> Accounts.id n = x;
  is_named : exists row, refresh_token d' !! id = Some row /\ tok_next row = Some (Accounts.id n);
  is_stored : is_Some (refresh_token d' !! Accounts.id n)
}.

Section Beside.
Context (id : bytes) (limit : Z).

(** What others do, from any table they and the exchanges may have made of [d]. *)
Definition keeps_to (d : Accounts) (others : Accounts -> Accounts) : Prop :=
  forall d', ran_beside id limit d d' -> ran_beside id limit d' (others d').

Lemma keeps_to_later d d' others : keeps_to d others -> ran_beside id limit d d' -> keeps_to d' others.
Proof. intros Hk Hr d2 Hd2. apply Hk. by etrans. Qed.

Lemma expire_beside d x now : ran_beside id limit d (fst (expire_sessions x now d)).
Proof. by apply (ran_one (beside id limit) d (OpExpireSessions x now)). Qed.

(** A turn is operations like any other's, and answers as the row it found says. *)
Lemma turn_beside now drawn others d : in_hand id limit d -> drawn <> id -> keeps_to d others ->
  ran_beside id limit d (fst (turn id now drawn others d))
  /\ forall a, snd (turn id now drawn others d) = Some a ->
       (a = Ok None /\ over id now d)
       \/ exists n, a = Ok (Some n) /\ answers_with id d (fst (turn id now drawn others d)) n.
Proof.
  intros [Ht Hh] Hdrawn Hk. unfold turn, session_of.
  destruct (refresh_token d !! id) as [row|] eqn:Er.
  2: { cbn. split; [apply rtc_refl|]. intros a [= <-]; left; split; [done|]. intros row; by rewrite Er. }
  destruct (Ht _ _ Er) as [(x & Ed & Hw) [t Et]], (Hh _ eq_refl) as [Hself (t' & Et' & Hlim)].
  assert (kept t <= limit) as Hl.
  { assert (str_le (stamp t) (stamp t')) as Hle%stamp_sorts by (rewrite <- Et, Et'; apply stamp_sorts; lia). lia. }
  rewrite Ed, (from_str_well_formed x Hw : from_str (Did.str x) = Ok x); cbn [map_err mbind result_bind].
  rewrite Et, stamp_kept; cbn [ok_or mbind result_bind session_did expires_at next_id session_app].
  pose proof (expire_beside d x now) as He. pose proof (expired_lookup x now d id) as Hx; rewrite Er in Hx.
  destruct (expire_sessions x now d) as [d0 k]; cbn [fst] in He, Hx.
  assert (GRACE = 7200000000000) as Hg by done.
  destruct (Z.leb_spec (Z.min (kept t) (now + GRACE)) now) as [Hle|Hlt].
  { cbn. split; [done|]. intros a [= <-]; left; split; [done|]. intros row'; rewrite Er; intros [= <-].
    exists t; split; [done|lia]. }
  set (next := MkSession _ _ _ _ _). set (until := Z.min (kept t) (now + GRACE)) in *.
  assert (ran_beside id limit d (others d0)) as Hd0 by (etrans; [exact He|by apply Hk]).
  assert (Accounts.id next <> id) as Hne by (cbn; destruct (tok_next row); cbn; congruence).
  assert (refresh_token d0 !! id = Some row) as Er0.
  { rewrite Hx, Et, earlier_text_spec. pose proof (kept_before now).
    assert (kept t <=? kept now = false) as -> by (apply Z.leb_gt; lia). by rewrite andb_false_r. }
  split.
  - assert (ran_beside id limit d (run_op (OpRotate id until next) (others d0))) as Hr.
    { apply ran_step; [exact Hd0| |done]. split; [change (Some (Accounts.id next) <> Some id); congruence|]. intros _. pose proof (kept_before until). lia. }
    cbn [run_op] in Hr. by destruct (Accounts.rotate id until next (others d0)).
  - unfold Accounts.rotate. destruct (refresh_token (others d0) !! id) as [row'|] eqn:Er'; [|done].
    destruct (match tok_next row' with Some _ => _ | None => _ end) eqn:En; [|done].
    intros a [= <-]; right; exists next; split; [done|]. cbn [fst]. split.
    + exists row; split_and!; [done|done|]. intros y Ey; cbn. by rewrite Ey.
    + eexists; rewrite (stored_other next _ id (not_eq_sym Hne)). cbn; rewrite lookup_insert_eq. by split.
    + apply stored_session.
Qed.

Lemma rotate_beside moments drawn others : forall fuel d, in_hand id limit d -> (forall k, drawn k <> id) ->
  (forall k, keeps_to d (others k)) ->
  ran_beside id limit d (fst (rotate fuel id moments drawn others d))
  /\ forall a, snd (rotate fuel id moments drawn others d) = Some a -> exists k dk,
       ran_beside id limit d dk /\ ran_beside id limit dk (fst (rotate fuel id moments drawn others d))
       /\ ((a = Ok None /\ over id (moments k) dk)
           \/ exists n, a = Ok (Some n) /\ answers_with id dk (fst (rotate fuel id moments drawn others d)) n).
Proof.
  induction fuel as [|fuel IH]; intros d Hd Hdrawn Ho; [split; [apply rtc_refl|done]|]. cbn [rotate].
  destruct (turn_beside (moments fuel) (drawn fuel) (others fuel) d Hd (Hdrawn fuel) (Ho fuel)) as [Hr Ha].
  destruct (turn _ _ _ _ d) as [d' [a|]]; cbn [fst snd] in *.
  - split; [done|]. intros b [= <-]. exists fuel, d. split_and!; [apply rtc_refl|done|auto].
  - destruct (IH d') as [Hr' Ha'];
      [by eapply ran_in_hand|done|intros k; by eapply keeps_to_later|].
    split; [by etrans|]. intros a Hs. destruct (Ha' a Hs) as (k & dk & Hdk & Hdk' & Hx).
    exists k, dk. split_and!; [by etrans|done|done].
Qed.

(** Two turns are enough once the successor is named, or the token gone. *)
Lemma rotate_answers moments drawn others fuel d : in_hand id limit d -> (forall k, drawn k <> id) ->
  (forall k, keeps_to d (others k)) -> (turns_left id d < fuel)%nat ->
  exists d' a, rotate fuel id moments drawn others d = (d', Some a).
Proof.
  intros Hd Hdrawn Ho Hf.
  assert (snd (rotate fuel id moments drawn others d) <> None) as Hn.
  { apply (rotate_ends_on (fun d' => ran_beside id limit d d')); [| |apply rtc_refl|done].
    - intros n d' Hr. etrans; [exact Hr|]. apply turn_beside; [by eapply ran_in_hand|done|by eapply keeps_to_later].
    - intros n d' x now Hr. eapply ran_honest, Ho. etrans; [exact Hr|apply expire_beside]. }
  destruct (rotate _ _ _ _ _ d) as [d' [a|]]; [by exists d', a|done].
Qed.

End Beside.

(* ------------------------------------------------------------------ *)
(** ** Signing in *)

(** What an account is signed in to by. *)
Definition goes_by (identifier : bytes) (a : Account) : Prop :=
  if contains 64 identifier then lower (Accounts.email a) = lower identifier
  else match AtIdentifier.parse identifier with
       | Ok (AtIdentifier.IsDid x) => Accounts.did a = x
       | Ok (AtIdentifier.IsHandle h) => answers_to h a
       | Err _ => False
       end.

Lemma named_by_spec d identifier : orderly d ->
  exists answer, named_by d identifier = Ok answer
    /\ forall a, answer = Some a <-> holding d a /\ goes_by identifier a.
Proof.
  intros Ho; unfold named_by, goes_by. destruct (contains 64 identifier); [by apply by_email_spec|].
  destruct (AtIdentifier.parse identifier) as [[x|h]|e]; [by apply by_did_spec|by apply by_handle_spec|].
  exists None; split; [done|]. intros a; split; [done|tauto].
Qed.

(** An app password of an account under a hash. *)
Definition app_held (d : Accounts) (x : Did.t) (hash : bytes) (app : Accounts.AppPassword) : Prop :=
  exists row, app_password d !! (Did.str x, Accounts.name app) = Some row /\ app_hash row = hash
    /\ privileged app = (app_privileged row =? 1).

Lemma held_under_spec d x hash :
  (forall app, held_under d x hash = Some app -> app_held d x hash app)
  /\ (held_under d x hash = None -> forall app, ~ app_held d x hash app).
Proof.
  unfold held_under; destruct (List.find _ _) as [[[y n] row]|] eqn:E; cbn; split; try done.
  - intros app [= <-]. apply find_some in E as [Hin [Hy Hh]%andb_true_iff].
    apply bool_decide_eq_true in Hy, Hh. apply list_elem_of_In, elem_of_map_to_list in Hin. cbn in *; subst.
    by exists row.
  - intros _ app (row & Hr & Hh & _). apply elem_of_map_to_list, list_elem_of_In in Hr.
    pose proof (find_none _ _ E _ Hr) as Hf; cbn in Hf. by rewrite !bool_decide_true in Hf.
Qed.

End Facts.

(* ================================================================== *)
(** * The properties *)

Section Properties.
Context `{CidText} `{!CidTextOk} `{Stamps} `{!StampsOk} `{Sha256} `{Password.Scrypt}.
Context `{Hmac} `{Base64Url} `{!JsonCodec Header} `{!JsonCodec Claims}.

(** An exchange ends. Whatever else takes the token out, expires
    it or exchanges it between one of its turns and the next, three turns are
    enough for an answer; and a turn that gives none has found the token
    nearer its end. *)
Theorem an_exchange_ends id moments drawn others d fuel :
  (forall n, honest id (others n)) -> (3 <= fuel)%nat -> snd (rotate fuel id moments drawn others d) <> None.
Proof.
  intros Ho Hf; apply (rotate_ends_on (fun _ => True)); [done| |done|]; [intros n d' x now _; apply Ho|].
  pose proof (turns_left_bound id d); lia.
Qed.

(** C17 (safety). A token has one successor, whatever goes on beside its exchanges:
    between the turns of one, and between one and the next, any operations on the
    tables may run, other processes' exchanges of the same token among them, which
    are operations like any other ([turn_beside]).  Once an exchange has answered,
    its answer is a session of the token's own account, the one already named
    where one was; from then on, whatever runs, the token is gone or names that
    session, and lives no longer than it did; and every later exchange of it
    ends, and answers with the same session or, the token being gone or out of
    time, with none: a client that asks again never opens a second one. *)
Theorem a_token_has_one_successor fuel id limit moments drawn others d d1 n :
  in_hand id limit d -> (forall k, drawn k <> id) -> (forall k, keeps_to id limit d (others k)) ->
  rotate fuel id moments drawn others d = (d1, Some (Ok (Some n))) ->
  (exists row, refresh_token d !! id = Some row /\ tok_did row = Did.str (session_did n)
     /\ forall x, tok_next row = Some x -> Accounts.id n = x)
  /\ is_Some (refresh_token d1 !! id) /\ is_Some (refresh_token d1 !! Accounts.id n)
  /\ forall d2, ran_beside id limit d1 d2 ->
     (forall row2, refresh_token d2 !! id = Some row2 -> tok_next row2 = Some (Accounts.id n)
        /\ tok_did row2 = Did.str (session_did n) /\ exists t, tok_expires row2 = stamp t /\ kept t <= limit)
     /\ forall fuel' moments' drawn' others', (2 <= fuel')%nat -> (forall k, drawn' k <> id) ->
          (forall k, keeps_to id limit d2 (others' k)) ->
          exists d3 answer, rotate fuel' id moments' drawn' others' d2 = (d3, Some (Ok answer))
            /\ ran_beside id limit d1 d3
            /\ match answer with
               | Some n' => Accounts.id n' = Accounts.id n /\ session_did n' = session_did n
               | None => exists k d', ran_beside id limit d2 d' /\ over id (moments' k) d'
               end.
Proof.
  intros Hd Hdrawn Ho E. destruct (rotate_beside id limit moments drawn others fuel d Hd Hdrawn Ho) as [Hr Ha].
  rewrite E in Hr, Ha; cbn [fst snd] in *.
  destruct (Ha _ eq_refl) as (k & dk & Hdk & _ & [[? _]|(n0 & [= <-] & [(rowk & Erk & Edk & Hxk) (row1 & Er1 & Hn1) Hst])]); [done|].
  assert (names id (Accounts.id n) d1) as Hn by (intros row; rewrite Er1; by intros [= <-]).
  destruct (refresh_token d !! id) as [row|] eqn:Er.
  2: { by rewrite (ran_gone _ _ _ _ Hdk Er) in Erk. }
  assert (belongs id (tok_did row) d) as Hb by (intros row0; rewrite Er; by intros [= <-]).
  assert (tok_did row = Did.str (session_did n)) as Edid by (by rewrite <- Edk, (ran_belongs _ _ _ _ _ Hdk Hb _ Erk)).
  split_and!; [exists row; split_and!; [done|done|]|by eexists|done|].
  { intros x Ex. apply Hxk. eapply (ran_names _ _ _ _ _ Hdk); [|exact Erk]. intros row0; rewrite Er; by intros [= <-]. }
  intros d2 Hd2. assert (ran_beside id limit d d2) as Hr2 by (etrans; [exact Hr|exact Hd2]).
  pose proof (ran_in_hand _ _ _ _ Hr2 Hd) as Hh2.
  pose proof (ran_names _ _ _ _ _ Hd2 Hn) as Hn2. pose proof (ran_belongs _ _ _ _ _ Hr2 Hb) as Hb2.
  split.
  { intros row2 E2. split_and!; [by apply Hn2|by rewrite <- Edid, (Hb2 _ E2)|]. by apply Hh2. }
  intros fuel' moments' drawn' others' Hf Hdrawn' Ho'.
  destruct (rotate_answers id limit moments' drawn' others' fuel' d2 Hh2 Hdrawn' Ho') as (d3 & a & E3).
  { unfold turns_left. destruct (refresh_token d2 !! id) as [row2|] eqn:E2; [rewrite (Hn2 _ E2)|]; lia. }
  destruct (rotate_beside id limit moments' drawn' others' fuel' d2 Hh2 Hdrawn' Ho') as [Hr3 Ha3].
  rewrite E3 in Hr3, Ha3; cbn [fst snd] in *. destruct (Ha3 _ eq_refl) as (k' & dk' & Hdk' & _ & [[-> Hov]|(n' & -> & Hans)]).
  - exists d3, None. split_and!; [done|by transitivity d2|by exists k', dk'].
  - exists d3, (Some n'). split_and!; [done|by transitivity d2| |].
    + destruct (is_named _ _ _ _ Hans) as (row3 & E4 & Hn3). pose proof (ran_names _ _ _ _ _ Hr3 Hn2 _ E4). congruence.
    + destruct (was_held _ _ _ _ Hans) as (rowk' & E4 & Ed4 & _). apply did_of_str.
      by rewrite <- Ed4, <- Edid, (ran_belongs _ _ _ _ _ Hdk' Hb2 _ E4).
Qed.

(** C40 (functional). A sign-in is by a password. It is let in exactly where what
    was typed names an account, by its DID, its handle or its email in any case,
    and the password is no longer than a stored one may be (512 characters) and is
    that account's or hashes to one of its app passwords, which it is then let in
    as; and where it is not let in, it is told nothing but that the credentials
    will not do. *)
Theorem sign_in_is_by_a_password d identifier password :
  reachable d ->
  (forall login, check d identifier password = Ok login ->
     let a := login_account login in
     char_count password <= STORED_PASSWORD /\ holding d a /\ goes_by (map to_ascii_lowercase identifier) a
     /\ match login_app login with
        | None => Password.verify password (password_scrypt a) = true
        | Some app => app_held d (Accounts.did a) (Password.app (Accounts.did a) password) app
        end)
  /\ (forall a, char_count password <= STORED_PASSWORD -> holding d a -> goes_by (map to_ascii_lowercase identifier) a ->
       (Password.verify password (password_scrypt a) = true
        \/ exists app, app_held d (Accounts.did a) (Password.app (Accounts.did a) password) app) ->
       exists login, check d identifier password = Ok login /\ login_account login = a)
  /\ (forall e, check d identifier password = Err e -> e = Writes.Credentials).
Proof.
  intros Ho%reachable_orderly.
  destruct (named_by_spec d (map to_ascii_lowercase identifier) Ho) as (answer & E & Ha). unfold check; rewrite E.
  destruct (Z.ltb_spec STORED_PASSWORD (char_count password)) as [Hl|Hl].
  { split_and!; [done|intros; lia|by intros e [= <-]]. }
  cbn [in_store map_err mbind result_bind]. destruct answer as [a|].
  2: { split_and!; [done| |by intros e [= <-]]. intros a _ Hh Hg _. by assert (None = Some a) as ? by (by apply Ha). }
  destruct (proj1 (Ha a) eq_refl) as [Hh Hg].
  destruct (Password.verify password (password_scrypt a)) eqn:Ev.
  { split_and!; [by intros login [= <-]| |done]. intros b _ Hhb Hgb _. exists (MkLogin a None); split; [done|].
    by assert (Some a = Some b) as [= ->] by (by apply Ha). }
  destruct (held_under_spec d (Accounts.did a) (Password.app (Accounts.did a) password)) as [Hs Hn].
  destruct (held_under _ _ _) as [app|]; cbn [ok_or mbind result_bind].
  - split_and!; [|  |done].
    + intros login [= <-]; cbn. split_and!; [done|done|done|by apply Hs].
    + intros b _ Hhb Hgb _. eexists; split; [done|]. by assert (Some a = Some b) as [= ->] by (by apply Ha).
  - split_and!; [done| |by intros e [= <-]]. intros b _ Hhb Hgb [Hv|[app Happ]];
      assert (Some a = Some b) as [= ->] by (by apply Ha); [by rewrite Ev in Hv|by destruct (Hn eq_refl app)].
Qed.

End Properties.

(* ------------------------------------------------------------------ *)
(** ** At a concrete database *)

Module Sample.

#[export] Existing Instances AccountsFacts.Sample.plain_stamps AccountsFacts.Sample.plain_stamps_ok
  Json.Plain.cid_text Json.Plain.cid_text_ok Auth.Sample.shifted Auth.Sample.appended Auth.Sample.header_json
  Auth.Sample.claims_json.

#[export] Instance plain_hash : Sha256 := fun b => b.
#[export] Instance plain_scrypt : Password.Scrypt := fun password salt _ _ _ _ => map (fun b => b mod 256) password.

Definition held : Accounts := AccountsFacts.Sample.signed_up.
Definition token : bytes := lit "session".
Definition moments (n : nat) : Z := 7.
Definition drawn (n : nat) : bytes := lit "next".
Definition meddling (n : nat) (d : Accounts) : Accounts := fst (revoke_session token d).

(** Another process exchanges the token after this one's first turn has read it,
    and before it writes. *)
Definition rival (now : Z) (d : Accounts) : Accounts := fst (turn token now (lit "rival") (fun d => d) d).
Definition rivals (n : nat) (d : Accounts) : Accounts := match n with 1%nat => rival 6 d | _ => d end.
Definition limit : Z := 100.
Definition exchanged : Accounts * option (result Storage.Error (option Session)) :=
  rotate 2 token moments drawn rivals held.
Definition successor : Session :=
  match snd exchanged with Some (Ok (Some n)) => n | _ => MkSession token (Accounts.did AccountsFacts.Sample.alice) 0 None None end.

Lemma meddling_honest n : honest token (meddling n).
Proof.
  intros d; unfold honest_at, meddling, revoke_session; cbn [fst refresh_token with_tokens]. rewrite lookup_delete_eq.
  by destruct (refresh_token d !! token).
Qed.

Lemma held_fine : tokens_fine held.
Proof. exact (tokens_read _ (reachable_orderly _ AccountsFacts.Sample.signed_up_reachable)). Qed.

Lemma held_in_hand : in_hand token limit held.
Proof.
  split; [exact held_fine|]. intros row.
  assert (refresh_token held !! token = Some (MkTokenRow (Did.str (Accounts.did AccountsFacts.Sample.alice)) (stamp 100) None None)) as ->
    by (vm_compute; reflexivity).
  intros [= <-]; split; [done|]. exists 100; split; [done|]. unfold limit; cbn; lia.
Qed.

Lemma rivals_keep_to k : keeps_to token limit held (rivals k).
Proof.
  intros d Hd; destruct k as [|[|k]]; cbn; try apply rtc_refl.
  apply turn_beside; [by eapply ran_in_hand, held_in_hand|vm_compute; discriminate|]. intros d' _; apply rtc_refl.
Qed.

Lemma nobody_keeps_to d (k : nat) : keeps_to token limit d (fun d => d).
Proof. intros d' _; apply rtc_refl. Qed.

Lemma exchanged_once : rotate 2 token moments drawn rivals held = (fst exchanged, Some (Ok (Some successor))).
Proof. vm_compute. reflexivity. Qed.

End Sample.
Import Sample.

Lemma an_exchange_ends_witness : snd (rotate 3 token moments drawn meddling held) <> None.
Proof. apply an_exchange_ends; [apply meddling_honest|lia]. Defined.

(** The rival's session is what this exchange answers with, and what the next one
    does, though both drew ids of their own. *)
Lemma a_token_has_one_successor_witness :
  Accounts.id successor = lit "rival"
  /\ exists d3 answer, rotate 2 token (fun _ => 8) (fun _ => lit "third") (fun _ d => d) (fst exchanged) = (d3, Some (Ok answer))
     /\ match answer with
        | Some n' => Accounts.id n' = lit "rival"
        | None => exists k d', ran_beside token limit (fst exchanged) d' /\ over token ((fun _ : nat => 8) k) d'
        end.
Proof.
  split; [vm_compute; reflexivity|].
  destruct (a_token_has_one_successor 2 token limit moments drawn rivals held (fst exchanged) successor held_in_hand
    ltac:(intros k; vm_compute; discriminate) rivals_keep_to exchanged_once) as (_ & _ & _ & Hx).
  destruct (Hx (fst exchanged) (rtc_refl _ _)) as [_ Hy].
  destruct (Hy 2%nat (fun _ => 8) (fun _ => lit "third") (fun _ d => d) (le_n 2) ltac:(intros k; vm_compute; discriminate)
    (nobody_keeps_to _)) as (d3 & answer & E & _ & Ha).
  exists d3, answer; split; [exact E|]. destruct answer as [n'|]; [|exact Ha]. rewrite (proj1 Ha). vm_compute; reflexivity.
Defined.

(** An account with a password of its own, let in by it and by nothing else. *)
Module SignIn.
Definition alice : Account :=
  MkAccount (Accounts.did AccountsFacts.Sample.alice) (Accounts.handle AccountsFacts.Sample.alice)
    (Accounts.email AccountsFacts.Sample.alice) (Password.hash (lit "salt") (lit "a password")).
Definition tables : Accounts := fst (Accounts.create 5 (MkRegistration alice AccountsFacts.Sample.root None None) no_accounts).
Lemma signed_in_reachable : reachable tables.
Proof.
  apply reach_create; [apply reach_new|]. split_and!; try (vm_compute; reflexivity); intros x [= <-]; vm_compute; reflexivity.
Qed.
Lemma signed_in_holding : holding tables alice.
Proof. eexists _, _. by split_and!; try (vm_compute; reflexivity). Qed.
End SignIn.

Lemma sign_in_is_by_a_password_witness :
  (exists login, check SignIn.tables (lit "ALICE@example.com") (lit "a password") = Ok login
     /\ login_account login = SignIn.alice)
  /\ exists e, check SignIn.tables (lit "ALICE@example.com") (lit "wrong") = Err e /\ e = Writes.Credentials.
Proof.
  split.
  - destruct (sign_in_is_by_a_password SignIn.tables (lit "ALICE@example.com") (lit "a password") SignIn.signed_in_reachable)
      as (_ & Hin & _).
    apply Hin; [vm_compute; discriminate|exact SignIn.signed_in_holding| |left; vm_compute; reflexivity].
    vm_compute; reflexivity.
  - destruct (sign_in_is_by_a_password SignIn.tables (lit "ALICE@example.com") (lit "wrong") SignIn.signed_in_reachable)
      as (_ & _ & He).
    assert (check SignIn.tables (lit "ALICE@example.com") (lit "wrong") = Err Writes.Credentials) as E by (vm_compute; reflexivity).
    exists Writes.Credentials; split; [exact E|]. by apply He.
Defined.
