(* ===== verification/Log.v ===== *)
(** * Log: the event log, and what it says of a commit

    [src/src/store/sequencer.rs] and [src/src/event.rs].  The log's table is its
    rows in the order of their numbers, with the last number SQLite gave out,
    which an [autoincrement] column never gives out again.  The dag-cbor of a
    body is a codec of its own type; its blocks are a CAR file ([Car.write]).
    [Action] and [Op] are [Writes]'s. *)

From S2P Require Import Prelude Syntax Crypto Block Json Car Storage Blobs Handles Actor Links Plc Writes Accounts.

Local Open Scope Z_scope.

(* ------------------------------------------------------------------ *)
(** ** The log *)

(** [Event], [Event::as_str] and [Event::parse]. *)
Inductive Event := Append | Sync | Identity | AccountEvent.
#[export] Instance event_eq_dec : EqDecision Event.
Proof. solve_decision. Defined.
Definition event_str (e : Event) : bytes :=
  match e with
  | Append => lit "append"
  | Sync => lit "sync"
  | Identity => lit "identity"
  | AccountEvent => lit "account"
  end.
Definition event_parse (value : bytes) : option Event :=
  List.find (fun e => bool_decide (value = event_str e)) [Append; Sync; Identity; AccountEvent].

(** A row of [repo_seq], and [Entry]. *)
Record LogRow := MkLogRow {
  row_seq : Z; row_did : bytes; row_event : bytes; row_body : bytes; invalidated : Z; sequenced : bytes
}.
Record Entry := MkEntry { seq : Z; entry_did : Did.t; event : Event; body : bytes; sequenced_at : bytes }.
Record Sequencer := MkSequencer { log : list LogRow; given : Z }.
Definition empty_log : Sequencer := MkSequencer [] 0.

Section Sequencer.
Context `{Stamps}.

(** An insert: the number after the last one given out, while there is one. *)
Definition insert_event (stamped did : bytes) (e : Event) (body : bytes) (s : Sequencer)
  : result Storage.Error Sequencer :=
  if given s =? Actor.I64_MAX then Err (Sqlite (Some DiskFull)) else
  Ok (MkSequencer (log s ++ [MkLogRow (given s + 1) did (event_str e) body 0 stamped]) (given s + 1)).

(** [Sequencer::append]. *)
Definition append (now : Z) (did : Did.t) (e : Event) (body : bytes) (s : Sequencer)
  : Sequencer * result Storage.Error Z :=
  match insert_event (Accounts.stamp now) (Did.str did) e body s with
  | Ok s => (s, Ok (given s))
  | Err e => (s, Err e)
  end.

(** [Sequencer::extend]: all of them, under one stamp, or none. *)
Fixpoint inserts (stamped did : bytes) (bodies : list (Event * bytes)) (s : Sequencer)
  : result Storage.Error (Sequencer * list Z) :=
  match bodies with
  | [] => Ok (s, [])
  | (e, body) :: bodies =>
      s ← insert_event stamped did e body s;
      '(after, numbers) ← inserts stamped did bodies s;
      Ok (after, given s :: numbers)
  end.
Definition extend (now : Z) (did : Did.t) (bodies : list (Event * bytes)) (s : Sequencer)
  : Sequencer * result Storage.Error (list Z) :=
  match inserts (Accounts.stamp now) (Did.str did) bodies s with
  | Ok (s, numbers) => (s, Ok numbers)
  | Err e => (s, Err e)
  end.

(** [Sequencer::latest]. *)
Definition latest (s : Sequencer) : option Z :=
  match map row_seq (log s) with [] => None | n :: ns => Some (fold_left Z.max ns n) end.

(** [Sequencer::since]. *)
Definition in_order (a b : LogRow) : Prop := row_seq a <= row_seq b.
#[export] Instance in_order_dec : RelDecision in_order.
Proof. intros a b; unfold in_order; apply _. Defined.
Definition since_query (s : Sequencer) (seq limit : Z) : list LogRow :=
  take (Z.to_nat limit) (merge_sort in_order
    (List.filter (fun r => (seq <? row_seq r) && (invalidated r =? 0)) (log s))).
Definition read_entry (r : LogRow) : result Storage.Error Entry :=
  did ← map_err (fun _ => Malformed "a logged DID that is not one") (from_str (row_did r));
  e ← ok_or (event_parse (row_event r)) (Malformed "an event type nothing writes");
  Ok (MkEntry (row_seq r) did e (row_body r) (sequenced r)).
Definition since (s : Sequencer) (seq limit : Z) : result Storage.Error (list Entry) :=
  collect (map read_entry (since_query s seq limit)).

End Sequencer.

(* ------------------------------------------------------------------ *)
(** ** Bodies *)

(** [Body], [Identity], [Account], [Append], [Sync] and [Commit]. *)
Record Body := MkBody { body_event : Event; body_bytes : bytes }.
Record IdentityBody := MkIdentity { id_did : Did.t; id_handle : Handle.t }.
Record AccountBody := MkAccountBody { acc_did : Did.t; active : bool }.
Record AppendBody := MkAppend {
  ap_repo : Did.t; ap_commit : Cid; ap_rev : Tid.t; ap_since : option Tid.t; ap_blocks : bytes; ap_ops : list Op;
  ap_prev_data : option Cid; rebase : bool; too_big : bool; ap_blobs : list Cid
}.
Record SyncBody := MkSync { sy_did : Did.t; sy_rev : Tid.t; sy_blocks : bytes }.
Record CommitEntry := MkCommitEntry {
  of_did : Did.t; of_commit : Cid; of_rev : Tid.t; of_since : option Tid.t; of_prev_data : option Cid; of_ops : list Op
}.

Section Bodies.
Context `{Sha256} `{Varint} `{CidBytes} `{!Codec Car.Header}.
Context `{!Codec IdentityBody} `{!Codec AccountBody} `{!Codec AppendBody} `{!Codec SyncBody}.

(** [records_written]. *)
Definition records_written (written : CommitEntry) (blocks : BlockMap.t) : result RepoError Body :=
  car ← Car.write (of_commit written) blocks;
  b ← encode (MkAppend (of_did written) (of_commit written) (of_rev written) (of_since written) car (of_ops written)
        (of_prev_data written) false false []);
  Ok (MkBody Append b).

(** [account_created]. *)
Definition account_created (did : Did.t) (handle : Handle.t) (commit : Cid) (rev : Tid.t) (blocks : BlockMap.t)
  : result RepoError (list Body) :=
  block ← BlockMap.get blocks commit;
  let root := BlockMap.insert BlockMap.new commit block in
  identity ← encode (MkIdentity did handle);
  account ← encode (MkAccountBody did true);
  car ← Car.write commit blocks;
  append ← encode (MkAppend did commit rev None car [] None false false []);
  one ← Car.write commit root;
  sync ← encode (MkSync did rev one);
  Ok [MkBody Identity identity; MkBody AccountEvent account; MkBody Append append; MkBody Sync sync].

End Bodies.

(* ------------------------------------------------------------------ *)
(** ** Logging a commit and an account *)

Section Logging.
Context `{Stamps} `{Sha256} `{Varint} `{CidBytes} `{!Codec Car.Header}.
Context `{!Codec IdentityBody} `{!Codec AccountBody} `{!Codec AppendBody} `{!Codec SyncBody}.

(** [Manager::log_commit], and [Manager::log]. *)
Definition log_commit (now : Z) (did : Did.t) (landed : Landed) (s : Sequencer) : Sequencer * result Writes.Error unit :=
  match records_written (MkCommitEntry did (Actor.cid (landed_root landed)) (Actor.rev (landed_root landed))
          (Some (landed_since landed)) (Some (prev_data landed)) (landed_ops landed)) (landed_blocks landed) with
  | Err e => (s, Err (InRepo e))
  | Ok entry =>
      match append now did (body_event entry) (body_bytes entry) s with
      | (s, Err e) => (s, Err (from_store e))
      | (s, Ok _) => (s, Ok tt)
      end
  end.
Definition log_account (now : Z) (did : Did.t) (handle : Handle.t) (commit : Cid) (rev : Tid.t) (blocks : BlockMap.t)
    (s : Sequencer) : Sequencer * result Writes.Error unit :=
  match account_created did handle commit rev blocks with
  | Err e => (s, Err (InRepo e))
  | Ok entries =>
      match extend now did (map (fun e => (body_event e, body_bytes e)) entries) s with
      | (s, Err e) => (s, Err (from_store e))
      | (s, Ok _) => (s, Ok tt)
      end
  end.

End Logging.
