(* ===== verification/Signup.v ===== *)
(** * Signup: an account is made, or taken back

    [Manager::create] of [src/src/account.rs] with everything it calls: the
    checks, [settle] with [start_repo] and the registration, the exchange with
    the directory, and the guard [Undo] whose drop takes a half-finished signup
    back out.

    A signup is a string of awaits, and its caller may hang up at any of them
    ([Hangup]): its future is dropped there and the guard runs.  What was handed
    to a blocking thread runs all the same, before the guard or after it, and
    [late] says which.  A signup dropped while it talks to the directory leaves
    the other end where [cut] says.  What is drawn at random and what the
    clocks read are [Drawn]. *)

From S2P Require Import Prelude Syntax Crypto Text Block Mst Json Car Repo Storage Blobs Handles Actor Links Plc Accounts.
From S2P Require Import Passwords Xrpc Auth Writes Sessions Log.

Local Open Scope Z_scope.

(** [PASSWORD]. *)
Definition PASSWORD : Z := 256.

Section Signup.
Context (p256 k256 : Curve) `{Sha256} `{CidText} `{Base58} `{Base64Url} `{Hmac} `{Password.Scrypt} `{Stamps}.
Context `{Varint} `{CidBytes} `{!JsonCodec Auth.Header} `{!JsonCodec Auth.Claims} `{!Codec Car.Header}.
Context `{!Codec Operation} `{!Codec Tombstone} `{!Codec NodeData} `{!Codec Ipld} `{!Codec Commit} `{!Codec Unsigned}.
Context `{!Codec IdentityBody} `{!Codec AccountBody} `{!Codec AppendBody} `{!Codec SyncBody}.

(* ------------------------------------------------------------------ *)
(** ** What a signup works on *)

(** [Signup] and [Created]. *)
Record Signup := MkSignup {
  su_handle : bytes; su_email : bytes; su_password : bytes; su_invite : option bytes;
  su_recovery : option (PublicKey p256 k256)
}.
Record Created := MkCreated { cr_did : Did.t; cr_handle : Handle.t; cr_credentials : Credentials }.

(** What a signup reads of [Manager] and its [Config]. *)
Record Manager := MkManager {
  rules : Rules; invite_required : bool; public_url : bytes; recovery_key : option (PublicKey p256 k256);
  plc_rotation_key : Keypair p256 k256; tokens : Tokens; blob_store : Blobs
}.

(** What is drawn, and what the clocks read, while one signup runs. *)
Record Drawn := MkDrawn {
  signing_key : Keypair p256 k256; salt : bytes; token_id : bytes;
  committed_at : bytes; touched_at : Z; tid_micros : option Z;
  session_from : Z; registered_at : Z; minted_at : Z; logged_at : Z
}.

(** An account's directory: its key, the operation its identifier is the hash
    of, and its database, each a file that may not be there yet. *)
Record ActorDir := MkActorDir { dir_key : option (Keypair p256 k256); dir_op : option bytes; dir_store : option Actor.Db }.
Definition no_files : ActorDir := MkActorDir None None None.

(** Everything under the data directory that a signup writes to: the account
    database, the reserved keys by their public half, the accounts' directories
    by their DID, the blobs, the log, and the clock revisions come from. *)
Record Server := MkServer {
  tables : Accounts; reserved : gmap bytes (Keypair p256 k256); dirs : gmap bytes ActorDir;
  blob_files : Fs.t; tid_clock : Tid.Clock; events : Sequencer
}.
Definition with_tables f (s : Server) := MkServer (f (tables s)) (reserved s) (dirs s) (blob_files s) (tid_clock s) (events s).
Definition with_reserved f (s : Server) := MkServer (tables s) (f (reserved s)) (dirs s) (blob_files s) (tid_clock s) (events s).
Definition with_dirs f (s : Server) := MkServer (tables s) (reserved s) (f (dirs s)) (blob_files s) (tid_clock s) (events s).

(* ------------------------------------------------------------------ *)
(** ** The steps *)

(** [Manager::available]. *)
Definition available (d : Accounts) (handle : Handle.t) (signup : Signup) : result Writes.Error unit :=
  _ ← match su_invite signup with
      | Some code => if invite_available d code then Ok tt else Err Invite
      | None => Ok tt
      end;
  held ← in_store (by_handle d handle);
  match held with
  | Some _ => Err (Taken "Handle")
  | None =>
      held ← in_store (by_email d (su_email signup));
      match held with Some _ => Err (Taken "Email") | None => Ok tt end
  end.

(** [keys::write] and [keys::remove], a key's file being there or not. *)
Definition write_key (key : Keypair p256 k256) (held : option (Keypair p256 k256))
  : result Storage.Error (option (Keypair p256 k256)) :=
  match held with Some _ => Err AlreadyThere | None => Ok (Some key) end.

(** [start_repo]: the key twice, the operation, and the first commit. *)
Definition start (m : Manager) (v : Drawn) (did : Did.t) (encoded : bytes) (s : Server)
  : Server * result Writes.Error (Root * BlockMap.t) :=
  let name := display p256 k256 (public_key p256 k256 (signing_key v)) in
  match write_key (signing_key v) (reserved s !! name) with
  | Err e => (s, Err (from_store e))
  | Ok key =>
      let s := with_reserved (partial_alter (fun _ => key) name) s in
      let dir := default no_files (dirs s !! Did.str did) in
      match write_key (signing_key v) (dir_key dir) with
      | Err e => (s, Err (from_store e))
      | Ok key =>
          let '(d, files, clock, answer) := start_repo p256 k256 (blob_store m) did (signing_key v) (committed_at v)
            (touched_at v) (tid_micros v) (default new_db (dir_store dir)) (blob_files s) (tid_clock s) in
          (MkServer (tables s) (reserved s) (<[Did.str did := MkActorDir key (Some encoded) (Some d)]> (dirs s))
             files clock (events s), answer)
      end
  end.

(** What [settle] registers, and registering it. *)
Definition registration (v : Drawn) (did : Did.t) (handle : Handle.t) (signup : Signup) (root : Root) : Registration :=
  MkRegistration
    (MkAccount did (Some handle) (su_email signup) (Password.hash (salt v) (su_password signup)))
    root (su_invite signup)
    (Some (MkSession (token_id v) did (session_from v + REFRESH_LIFETIME) None None)).
Definition register (v : Drawn) (did : Did.t) (handle : Handle.t) (signup : Signup) (root : Root) (s : Server)
  : Server * result Writes.Error unit :=
  let '(d, answer) := Accounts.create (registered_at v) (registration v did handle signup root) (tables s) in
  (with_tables (fun _ => d) s, in_store answer).

(** [Manager::discard]: the rows, the reserved key and the directory. *)
Definition discard (v : Drawn) (did : Did.t) (s : Server) : Server :=
  with_dirs (base.delete (Did.str did))
    (with_reserved (base.delete (display p256 k256 (public_key p256 k256 (signing_key v))))
      (with_tables (Accounts.delete did) s)).

(** [release]. *)
Definition release (v : Drawn) (s : Server) : Server * unit :=
  (with_reserved (base.delete (display p256 k256 (public_key p256 k256 (signing_key v)))) s, tt).

(** [Manager::log]. *)
Definition log (v : Drawn) (did : Did.t) (handle : Handle.t) (root : Root) (blocks : BlockMap.t) (s : Server)
  : Server * result Writes.Error unit :=
  let '(events, answer) := log_account (logged_at v) did handle (Actor.cid root) (Actor.rev root) blocks (events s) in
  (MkServer (tables s) (reserved s) (dirs s) (blob_files s) (tid_clock s) events, answer).

(* ------------------------------------------------------------------ *)
(** ** Undoing, and hanging up *)

(** [Rollback] and dropping [Undo]. *)
Inductive Rollback := Discard | Keep | Nothing.
Definition undo (v : Drawn) (did : Did.t) (rollback : Rollback) (s : Server) : Server :=
  match rollback with
  | Discard => discard v did s
  | Keep | Nothing => s
  end.

(** The awaits of a signup its guard is armed across. *)
Inductive Await := AtRepo | AtHash | AtRegister | AtSend | AtRetire | AtRelease | AtLog.
#[export] Instance await_eq_dec : EqDecision Await.
Proof. solve_decision. Defined.
Record Hangup := MkHangup { at_await : Await; late : bool }.
Definition hangs (h : option Hangup) (a : Await) : bool :=
  match h with Some h => bool_decide (at_await h = a) | None => false end.

(** [blocking]: the work is done on another thread, and done whether or not
    anybody is left to hear of it. *)
Definition blocking {A} (h : option Hangup) (a : Await) (guard : Server -> Server) (work : Server -> Server * A) (s : Server)
  : Server * option A :=
  match h with
  | Some hung =>
      if decide (at_await hung = a) then
        (if late hung then fst (work (guard s)) else guard (fst (work s)), None)
      else let '(s, answer) := work s in (s, Some answer)
  | None => let '(s, answer) := work s in (s, Some answer)
  end.

(* ------------------------------------------------------------------ *)
(** ** The whole of it *)

Section Directory.
Context {W : Type} (exchanges : Operation -> Tombstone -> Exchanges W) (cut : W -> W).
Context (m : Manager) (v : Drawn) (signup : Signup) (h : option Hangup).

(** The account made, and everything after it: [retire] once the directory
    would not say, the guard disarmed where it said something, the reservation
    given up on every way out, and the log. *)
Definition told (did : Did.t) (handle : Handle.t) (operation : Operation) (root : Root) (blocks : BlockMap.t) (s : Server) (w : W)
  : Server * W * option (result Writes.Error Created) :=
  let tombstone := tombstone p256 k256 operation (plc_rotation_key m) in
  let x := exchanges operation (match tombstone with Ok t => t | Err _ => MkTombstone [] [] None end) in
  if hangs h AtSend then (undo v did Keep s, cut w, None) else
  let '(w, registered) := send x w in
  let retiring := match registered with Err Uncertain => is_ok tombstone | _ => false end in
  if retiring && hangs h AtRetire then (undo v did Keep s, cut w, None) else
  let '(w, settled) := match registered with
                       | Err Uncertain => if is_ok tombstone then retire x w else (w, false)
                       | _ => (w, true)
                       end in
  let rollback := if settled then Discard else Keep in
  match blocking h AtRelease (undo v did rollback) (release v) s with
  | (s, None) => (s, w, None)
  | (s, Some _) =>
      match registered with
      | Err e => (undo v did rollback s, w, Some (Err (Directory e)))
      | Ok _ =>
          let waits := is_ok (account_created did handle (Actor.cid root) (Actor.rev root) blocks) in
          match blocking (if waits then h else None) AtLog (undo v did Nothing) (log v did handle root blocks) s with
          | (s, None) => (s, w, None)
          | (s, Some _) =>
              (s, w, Some (Ok (MkCreated did handle (mint (tokens m) did None (token_id v) (minted_at v)))))
          end
      end
  end.

(** [settle] under the guard. *)
Definition settled (did : Did.t) (handle : Handle.t) (operation : Operation) (s : Server) (w : W)
  : Server * W * option (result Writes.Error Created) :=
  match encode operation with
  | Err e => (undo v did Discard s, w, Some (Err (InRepo e)))
  | Ok encoded =>
      match blocking h AtRepo (undo v did Discard) (start m v did encoded) s with
      | (s, None) => (s, w, None)
      | (s, Some (Err e)) => (undo v did Discard s, w, Some (Err e))
      | (s, Some (Ok (root, blocks))) =>
          if hangs h AtHash then (undo v did Discard s, w, None) else
          match blocking h AtRegister (undo v did Discard) (register v did handle signup root) s with
          | (s, None) => (s, w, None)
          | (s, Some (Err e)) => (undo v did Discard s, w, Some (Err e))
          | (s, Some (Ok _)) => told did handle operation root blocks s w
          end
      end
  end.

(** The checks, which need nothing undone. *)
Definition checked (d : Accounts) : result Writes.Error (Did.t * Handle.t * Operation) :=
  if PASSWORD <? char_count (su_password signup) then Err PasswordTooLong else
  if invite_required m && negb (bool_decide (is_Some (su_invite signup))) then Err InviteRequired else
  if negb (Email.plausible (su_email signup)) then Err Email else
  handle ← map_err BadHandle (Handles.signup (rules m) (su_handle signup));
  _ ← available d handle signup;
  operation ← map_err Directory (Plc.create p256 k256 handle (public_url m) (public_key p256 k256 (signing_key v))
    (omap Datatypes.id [su_recovery signup; recovery_key m]) (plc_rotation_key m));
  did ← map_err Directory (Plc.did operation);
  Ok (did, handle, operation).

(** [Manager::create].  An answer is absent where the caller hung up. *)
Definition create (s : Server) (w : W) : Server * W * option (result Writes.Error Created) :=
  match checked (tables s) with
  | Err e => (s, w, Some (Err e))
  | Ok (did, handle, operation) => settled did handle operation s w
  end.

End Directory.
End Signup.
