(* ===== verification/Serving.v ===== *)
(** * Serving: what a server answers from its accounts' files, and a write to one

    The rest of [Manager] in [src/src/account.rs]: what opens one account's
    database ([opened]), reads it, downloads it ([export]) or proves something of
    it ([proof]); the blobs, served, uploaded and swept; and [write], with
    everything that follows a commit.  The state is [Signup.Server].

    A download is the pieces its reading thread hands over, each page's blocks in
    one piece, the header at the front of the first; the thread stops where a
    piece is not taken.  Which pieces are taken is an argument, and [PATIENCE] is
    how long it waits to find out.  The fuel of [export] is a bound on the pages. *)

From S2P Require Import Prelude Syntax Crypto Text Block Mst Json Car Repo Storage Blobs Handles Actor Links Plc Accounts.
From S2P Require Import Passwords Xrpc Auth Writes Sessions Log Signup.

Local Open Scope Z_scope.

(** [PAGE]. *)
Definition PAGE : Z := 500.

Section Serving.
Context (p256 k256 : Curve) `{Sha256} `{CidText} `{Stamps} `{Varint} `{CidBytes} `{!Codec Car.Header}.
Context `{!Codec NodeData} `{!Codec Ipld} `{!Codec Commit} `{!Codec Unsigned} `{!Codec AppendBody}.
Abbreviation Server := (Server p256 k256).

(* ------------------------------------------------------------------ *)
(** ** Opening an account *)

(** [open], [opened] and [actor], for a call that only reads. *)
Definition database (s : Server) (did : Did.t) : result Writes.Error Actor.Db :=
  ok_or (dir ← dirs _ _ s !! Did.str did; dir_store _ _ dir) (NoRepo did).
Definition opened {A} (s : Server) (did : Did.t) (work : Actor.Db -> result Writes.Error A) : result Writes.Error A :=
  d ← database s did; work d.
Definition actor {A} (s : Server) (did : Did.t) (work : Actor.Db -> result Storage.Error A) : result Writes.Error A :=
  opened s did (fun d => in_store (work d)).

(** The same for one that writes, to the database or to the blobs. *)
Definition put_back (s : Server) (did : Did.t) (d : Actor.Db) (files : Fs.t) : Server :=
  MkServer _ _ (tables _ _ s) (reserved _ _ s)
    (alter (fun dir => MkActorDir _ _ (dir_key _ _ dir) (dir_op _ _ dir) (Some d)) (Did.str did) (dirs _ _ s))
    files (tid_clock _ _ s) (events _ _ s).
Definition opened_mut {A} (s : Server) (did : Did.t) (work : Actor.Db -> Fs.t -> Actor.Db * Fs.t * result Writes.Error A)
  : Server * result Writes.Error A :=
  match database s did with
  | Err e => (s, Err e)
  | Ok d => let '(d, files, answer) := work d (blob_files _ _ s) in (put_back s did d files, answer)
  end.

(* ------------------------------------------------------------------ *)
(** ** Reading *)

(** [Manager::account], [resolve], [lookup] and [repos]. *)
Definition account (s : Server) (did : Did.t) : result Writes.Error (option Account) := in_store (by_did (tables _ _ s) did).
Definition resolve (s : Server) (handle : Handle.t) : result Writes.Error (option Did.t) :=
  account ← in_store (by_handle (tables _ _ s) handle); Ok (option_map Accounts.did account).
Definition lookup (s : Server) (identifier : AtIdentifier.t) : result Writes.Error (option Account) :=
  in_store (match identifier with
            | AtIdentifier.IsDid did => by_did (tables _ _ s) did
            | AtIdentifier.IsHandle handle => by_handle (tables _ _ s) handle
            end).
Definition repos (s : Server) (limit : Z) (from : option Cursor) : result Writes.Error (list Hosted) :=
  in_store (hosted (tables _ _ s) limit from).

(** [Manager::root], [record], [records], [collections], [blobs] and
    [missing_blobs]. *)
Definition root (s : Server) (did : Did.t) : result Writes.Error (option Root) := actor s did (read_root did).
Definition record (s : Server) (did : Did.t) (collection : Nsid.t) (rkey : RecordKey.t) : result Writes.Error (option Record_) :=
  actor s did (fun d => Actor.record did d collection rkey).
Definition records (s : Server) (did : Did.t) (collection : Nsid.t) (limit : Z) (cursor : option bytes) (reverse : bool)
  : result Writes.Error (list Record_) :=
  actor s did (fun d => Actor.records did d collection limit cursor reverse).
Definition collections (s : Server) (did : Did.t) : result Writes.Error (list Nsid.t) := actor s did Actor.collections.
Definition blobs (s : Server) (did : Did.t) (since : option Tid.t) (limit : Z) (cursor : option bytes)
  : result Writes.Error (list Cid) :=
  actor s did (fun d => blobs_page d (Tid.str <$> since) limit cursor).
Definition missing_blobs (s : Server) (did : Did.t) (limit : Z) (cursor : option bytes) : result Writes.Error (list MissingBlob) :=
  actor s did (fun d => Actor.missing_blobs d limit cursor).

(** [Manager::blocks]. *)
Definition blocks (s : Server) (did : Did.t) (cids : list Cid) : result Writes.Error bytes :=
  opened s did (fun d =>
    let '(found, missing) := Actor.blocks d cids in
    match missing with
    | [] => in_repo (Car.write_blocks found)
    | _ => Err (NoBlocks missing)
    end).

(** [Manager::proof]. *)
Definition proof (s : Server) (did : Did.t) (collection : Nsid.t) (rkey : RecordKey.t) : result Writes.Error bytes :=
  opened s did (fun d =>
    held ← in_store (read_root did d);
    root ← ok_or held (NoRepo did);
    repo ← in_repo (Repo.load (Actor.store d) (Actor.cid root));
    '(_, path) ← in_repo (Repo.proof repo (Actor.store d) collection rkey);
    let '(found, missing) := Actor.blocks d (Actor.cid root :: path) in
    match missing with
    | cid :: _ => Err (InRepo (MissingBlock cid))
    | [] => in_repo (Car.write (Actor.cid root) found)
    end).

(** [Manager::export]: the loop over the pages, and the whole of it. What is
    handed over and not taken ends it. *)
Definition push_all_of (piece : bytes) (page : list (Cid * bytes)) : bytes :=
  fold_left (fun piece e => Car.push piece (fst e) (snd e)) page piece.
Fixpoint pieces (fuel : nat) (taken : nat -> bool) (n : nat) (d : Actor.Db) (since : option Tid.t) (from : option Mark)
    (piece : bytes) : list (result Writes.Error bytes) :=
  match fuel with
  | O => []
  | S fuel =>
      match blocks_since d since from PAGE with
      | Err e => if taken n then [Err (from_store e)] else []
      | Ok page =>
          if taken n then
            Ok (push_all_of piece (page_blocks page)) ::
            match Actor.next page with
            | None => []
            | Some mark => pieces fuel taken (S n) d since (Some mark) []
            end
          else []
      end
  end.
Definition export (fuel : nat) (taken : nat -> bool) (s : Server) (did : Did.t) (since : option Tid.t)
  : result Writes.Error (list (result Writes.Error bytes)) :=
  opened s did (fun d =>
    held ← in_store (read_root did d);
    root ← ok_or held (NoRepo did);
    header ← in_repo (Car.header [Actor.cid root]);
    Ok (pieces fuel taken 0 d since None header)).

(* ------------------------------------------------------------------ *)
(** ** Blobs *)

Context (served : Blobs).

(** [Manager::blob]. *)
Definition blob (s : Server) (did : Did.t) (cid : Cid) : result Writes.Error (option (Blob * bytes)) :=
  actor s did (fun d =>
    found ← Actor.blob d cid;
    match found with
    | Some blob =>
        if Blobs.has served (blob_files _ _ s) did cid
        then b ← Blobs.get served (blob_files _ _ s) did cid; Ok (Some (blob, b))
        else Ok None
    | None => Ok None
    end).

(** [Manager::cleared], which only logs what goes wrong. *)
Definition drop_orphan (did : Did.t) (d : Actor.Db) (files : Fs.t) (cid : Cid) : Fs.t :=
  if unheld d cid then Blobs.delete served files did cid else files.
Definition cleared (s : Server) (did : Did.t) (committed : Committed) : Server :=
  match orphaned committed, taken committed with
  | [], [] => s
  | dropped, keys =>
      fst (opened_mut s did (fun d files =>
        let files := fold_left (drop_orphan did d) dropped files in
        (d, fold_left (fun files key => Blobs.delete_upload served files did key) keys files, Ok tt)))
  end.

(** [kept_until], as jiff reaches. *)
Definition MOST_SECONDS : Z := 2 ^ 63 - 1.
Definition kept_until (hours now earliest : Z) : option Z :=
  if hours =? 0 then None else
  if 2 ^ 64 - 1 <? hours * 3600 then None else
  if MOST_SECONDS <? hours * 3600 then None else
  if now - hours * 3600 * SECOND <? earliest then None else Some (now - hours * 3600 * SECOND).

(** [Manager::stranded], [unheld_files] and [sweep_blobs]. *)
Definition stranded (s : Server) (did : Did.t) (cutoff : Z) : Server * result Writes.Error nat :=
  match actor s did (fun d => Ok (upload_keys d)) with
  | Err e => (s, Err e)
  | Ok held =>
      let '(files, swept) := sweep_uploads served (blob_files _ _ s) did held cutoff in
      (MkServer _ _ (tables _ _ s) (reserved _ _ s) (dirs _ _ s) files (tid_clock _ _ s) (events _ _ s), Ok (length swept))
  end.
Definition unheld_files (s : Server) (did : Did.t) (cutoff : Z) : Server * result Writes.Error nat :=
  match actor s did (fun d => Ok (blob_cids d)) with
  | Err e => (s, Err e)
  | Ok held =>
      let '(files, swept) := sweep_stored served (blob_files _ _ s) did held cutoff in
      (MkServer _ _ (tables _ _ s) (reserved _ _ s) (dirs _ _ s) files (tid_clock _ _ s) (events _ _ s), Ok (length swept))
  end.
Definition sweep_blobs (s : Server) (did : Did.t) (cutoff : option Z) : Server * result Writes.Error nat :=
  match cutoff with
  | None => (s, Ok 0%nat)
  | Some cutoff =>
      match stranded s did cutoff with
      | (s, Err e) => (s, Err e)
      | (s, Ok strays) =>
          match opened_mut s did (fun d files =>
                  let '(d, swept) := sweep_unclaimed d (Accounts.stamp cutoff) in (d, files, Ok swept)) with
          | (s, Err e) => (s, Err e)
          | (s, Ok swept) => (cleared s did (MkCommitted [] swept), Ok (length swept + strays)%nat)
          end
      end
  end.

(** [Manager::upload_blob], under a key drawn for it; the sweep after it only
    logs what goes wrong. *)
Definition upload_key (drawn : bytes) : bytes := base32 drawn.
Definition upload_blob (s : Server) (did : Did.t) (mime content drawn scratch : bytes) (now : Z) (cutoff : option Z)
  : Server * result Writes.Error Blob :=
  let blob := MkBlob (Blobs.cid_for content) mime (len content) in
  let key := upload_key drawn in
  match opened_mut s did (fun d files =>
          match Blobs.put served files did key (b_cid blob) content scratch now with
          | Err e => (d, files, Err (from_store e))
          | Ok files => (add_blob (Accounts.stamp now) d blob key, files, Ok tt)
          end) with
  | (s, Err e) => (s, Err e)
  | (s, Ok _) => (fst (sweep_blobs s did cutoff), Ok blob)
  end.

(** [Manager::reconcile], over the accounts the blobs' directory names. *)
Fixpoint reconcile_all (s : Server) (accounts : list Did.t) (cutoff : Z) : Server * nat :=
  match accounts with
  | [] => (s, 0%nat)
  | did :: accounts =>
      let '(s, uploads) := sweep_blobs s did (Some cutoff) in
      let '(s, files) := unheld_files s did cutoff in
      let '(s, rest) := reconcile_all s accounts cutoff in
      let counted r := match r with Ok n => n | Err _ => 0%nat end in
      (s, (counted uploads + counted files + rest)%nat)
  end.
Definition reconcile (s : Server) (accounts : list Did.t) (cutoff : option Z) : Server * nat :=
  match cutoff with None => (s, 0%nat) | Some cutoff => reconcile_all s accounts cutoff end.

(* ------------------------------------------------------------------ *)
(** ** Writing *)

(** [Manager::write]: the commit, and what follows one that landed: the files
    it let go of, the log entry and the root beside it, which only log what
    goes wrong. *)
Definition write (fuel : nat) (moments : nat -> Moment) (others : nat -> Actor.Db * Fs.t -> Actor.Db * Fs.t)
    (logged_at moved_at : Z) (s : Server) (did : Did.t) (requested : list Requested) (swap : option Cid)
  : option (Server * result Writes.Error (option Written)) :=
  let dir := default (no_files _ _) (dirs _ _ s !! Did.str did) in
  match dir_key _ _ dir with
  | None => Some (s, Err (InStorage NotFound))
  | Some key =>
      match commit_writes p256 k256 served did key fuel moments others (default new_db (dir_store _ _ dir))
              (blob_files _ _ s) (tid_clock _ _ s) requested swap with
      | None => None
      | Some (d, files, clock, answer) =>
          let s := MkServer _ _ (tables _ _ s) (reserved _ _ s)
            (<[Did.str did := MkActorDir _ _ (dir_key _ _ dir) (dir_op _ _ dir) (Some d)]> (dirs _ _ s)) files clock (events _ _ s) in
          match answer with
          | Err e => Some (s, Err e)
          | Ok None => Some (s, Ok None)
          | Ok (Some landed) =>
              let s := cleared s did (committed landed) in
              let '(events, _) := log_commit logged_at did landed (events _ _ s) in
              Some (MkServer _ _ (update_root moved_at did (landed_root landed) (tables _ _ s)) (reserved _ _ s) (dirs _ _ s)
                      (blob_files _ _ s) (tid_clock _ _ s) events, Ok (Some (landed_written landed)))
          end
      end
  end.

End Serving.
