(* ===== verification/Answers.v ===== *)
(** * Answers: what a failure says, and what it is answered as

    The [Display] of every error of [src/src/account.rs] and of the errors inside
    them, and [From<account::Error>] in [src/src/server.rs], which makes one the
    error a method answers with.  What [rusqlite], [std::io] and the HTTP client
    word themselves is [Worded]. *)

From S2P Require Import Prelude Syntax Crypto Ip Block Json Storage Blobs Handles Actor Links Plc Accounts Sessions Limit Xrpc Writes Signup.

Local Open Scope Z_scope.

(** The texts other crates word: SQLite's and the system's, and what the HTTP
    client said of the directory. *)
Class Worded := {
  storage_worded : Storage.Error -> bytes;
  directory_worded : PlcError -> bytes
}.

Section Answers.
Context `{CidText} `{Worded}.

(** [Display] of [crypto::Error], [repo::Error], [store::Error], [plc::Error] and
    [handle::Invalid]. *)
Definition crypto_text (e : CryptoError) : bytes :=
  match e with
  | NotDidKey => lit "not a did:key"
  | UnsupportedKey => lit "not a key on an allowed curve"
  | MalformedKey => lit "malformed key"
  | MalformedSignature => lit "signature is not 64 bytes"
  | HighS => lit "signature does not use the low half of the curve"
  | BadSignature => lit "signature does not verify"
  end.
Definition repo_text (e : RepoError) : bytes :=
  match e with
  | MissingBlock cid => lit "no block for " ++ cid_to_string cid
  | EncodeError why => lit "will not encode as dag-cbor: " ++ lit why
  | DecodeError why => lit "not the dag-cbor expected: " ++ lit why
  | InvalidKey key => lit "not a valid tree key: " ++ key
  | KeyExists key => lit "already a record at " ++ key
  | KeyMissing key => lit "no record at " ++ key
  | MalformedNode why => lit "malformed node: " ++ lit why
  | WrongVersion version => lit "commit is version " ++ decimal version ++ lit ", not 3"
  | SignatureError why => lit "commit signature: " ++ crypto_text why
  | MalformedCar why => lit "malformed CAR: " ++ lit why
  | Block.WrongCid cid => cid_to_string cid ++ lit " is not the CID of the bytes under it"
  | StoreError why => lit "store: " ++ lit why
  | StoreBusy => lit "store is busy"
  | NotRecordData why => lit "not record data: " ++ lit why
  | NoRevisionAfter rev => lit "no revision follows " ++ Tid.str rev
  end.
Definition storage_text (e : Storage.Error) : bytes :=
  match e with
  | Sqlite _ => lit "sqlite: " ++ storage_worded e
  | Io _ => storage_worded e
  | Malformed why => lit why
  | TooNew name => lit "schema is at " ++ name ++ lit ", which is newer than this server"
  | InviteUnavailable => lit "invite code is not available"
  | HandleTaken => lit "handle is already taken"
  | EmailTaken => lit "email is already taken"
  | AppPasswordTaken => lit "app password name is already taken"
  | BlobMissing cid => lit "Could not find blob: " ++ cid_to_string cid
  | BlobMismatch what expected got =>
      lit "Referenced " ++ lit what ++ lit " does not match stored blob. Expected: " ++ expected ++ lit ", Got: " ++ got
  | Storage.WrongCid cid => cid_to_string cid ++ lit " is not the CID of the bytes under it"
  | Key why => lit "signing key: " ++ crypto_text why
  end.
Definition directory_text (e : PlcError) : bytes :=
  match e with
  | PEncode why => lit "encoding an operation: " ++ repo_text why
  | PSignature => lit "no rotation key signed this operation"
  | PMalformed why => lit why
  | Unreachable => lit "plc directory: " ++ directory_worded e
  | Uncertain => lit "plc directory would not say: " ++ directory_worded e
  | Refused status => lit "plc directory refused the operation: " ++ decimal status ++ lit " " ++ directory_worded e
  end.
Definition invalid_text (e : Invalid) : bytes :=
  match e with
  | InvalidHandle why => lit why
  | InvalidReserved => lit "Reserved handle"
  | Unsupported => lit "Not a supported handle domain"
  end.

(** [Display for account::Error]. *)
Definition text (e : Writes.Error) : bytes :=
  match e with
  | Credentials => lit "Invalid identifier or password"
  | BadHandle why => invalid_text why
  | Email => lit "This email address is not supported, please use a different email."
  | PasswordTooLong => lit "Password too long. Maximum length is " ++ decimal PASSWORD ++ lit " characters."
  | Taken what => lit what ++ lit " already taken"
  | InviteRequired => lit "No invite code provided"
  | Invite => lit "This invite code is not available"
  | TooManyInvites => lit "Cannot create more than " ++ decimal INVITES ++ lit " invite codes at once"
  | Directory why => directory_text why
  | NoRepo did => lit "Could not find repo for " ++ Did.str did
  | NoBlocks cids => lit "Could not find cids: " ++ join 44 (map cid_to_string cids)
  | Swap held => lit "Commit was at " ++ cid_to_string held
  | SwapRecord held => lit "Record was at " ++ match held with Some held => cid_to_string held | None => lit "null" end
  | Contended => lit "Repository is being written to too quickly"
  | BadBlob why => storage_text why
  | InRepo why => repo_text why
  | InStorage why => storage_text why
  end.

(** [From<account::Error> for xrpc::Error]. *)
Definition from_account (e : Writes.Error) : Xrpc.Error :=
  if Writes.sent e then Xrpc.invalid_request (text e) else
  if Writes.busy e then Xrpc.saying (text e) (Xrpc.new Xrpc.NotEnoughResources) else
  match e with
  | Directory _ | InRepo _ | InStorage _ => Xrpc.internal (text e)
  | Credentials => Xrpc.saying (text e) (Xrpc.named (lit (Writes.name e)) (Xrpc.new Xrpc.AuthenticationRequired))
  | _ => Xrpc.saying (text e) (Xrpc.named (lit (Writes.name e)) (Xrpc.new Xrpc.InvalidRequest))
  end.
Definition answering {A} (r : result Writes.Error A) : result Xrpc.Error A := map_err from_account r.

(* ================================================================== *)
(** * Facts *)

(** A fault of this server's that waiting does not help, as against anything the
    caller did. *)
Definition internal_fault (e : Writes.Error) : bool :=
  match e with
  | Directory _ => true
  | InStorage e => negb (Storage.busy e)
  | InRepo e => negb (Block.sent e) && negb (Block.busy e)
  | _ => false
  end.

(** C31 (error). Every failure is answered as what it is. It goes out under the
    name its lexicon gives it; as a 503 where waiting is what would help, a
    database somebody else has locked or a repository written to too quickly; as a
    500 exactly where the fault is otherwise this server's, and then with nothing
    of what went wrong in the body; as a 401 only for the wrong password; and as the caller's
    own mistake, with what it was, everywhere else. *)
Theorem every_failure_is_answered_as_it_is now headers (e : Writes.Error) :
  let '(status, body, headers') := Xrpc.into_response now (from_account e) headers in
  Xrpc.error body = lit (Writes.name e)
  /\ headers' = headers
  /\ (status = 500 <-> internal_fault e = true)
  /\ (status = 503 <-> Writes.busy e = true)
  /\ (status = 401 <-> e = Credentials)
  /\ (status = 400 \/ status = 401 \/ status = 500 \/ status = 503)
  /\ Xrpc.told body = if internal_fault e then lit "Internal Server Error" else text e.
Proof.
  unfold from_account, Writes.name, Writes.busy, Writes.sent, internal_fault, Xrpc.into_response, Xrpc.name, Xrpc.message.
  destruct e as [| | | | | | | |why|did|cids|held|held| |why|why|why]; cbn -[text lit decide];
    try (split_and!; (done || (split; discriminate) || naive_solver)).
  - destruct why; split_and!; (done || (split; discriminate) || naive_solver).
  - unfold Storage.busy; destruct why as [[[]|]| | | | | | | | | | |]; cbn -[text lit decide];
      split_and!; (done || (split; discriminate) || naive_solver).
Qed.

End Answers.
