(* ===== verification/Requests.v ===== *)
(** * Requests: what a method runs over, and the strings it is held to

    A method of [src/src/server/] takes what a caller sent, already read out of
    its JSON or its query by axum and serde, and leaves the server and the budgets
    somewhere and an answer.  [Step] is such a step: no answer at all is fuel run
    out, which the theorems rule out.  [Parse] is [src/src/server/parse.rs], and
    the fallback and the refused verb are [src/src/xrpc/route.rs]; the values of
    one name in a query are [src/src/xrpc/input.rs]. *)

From S2P Require Import Prelude Syntax Crypto Text Block Json Storage Blobs Handles Actor Links Plc Accounts.
From S2P Require Import Limit Passwords Xrpc Auth Writes Sessions Log Signup Serving Answers.

Local Open Scope Z_scope.

(* ------------------------------------------------------------------ *)
(** ** Strings *)

Module Parse.

(** [did], [cid], [collection], [record_key] and [since]. *)
Definition refused {A} (why : string) (r : result SyntaxError A) : result Xrpc.Error A :=
  map_err (fun _ => Xrpc.invalid_request (lit why)) r.
Definition did (text : bytes) : result Xrpc.Error Did.t := refused "Invalid did" (from_str text).
Definition cid `{CidText} (text : bytes) : result Xrpc.Error Cid := ok_or (cid_parse text) (Xrpc.invalid_request (lit "Invalid cid")).
Definition collection (text : bytes) : result Xrpc.Error Nsid.t := refused "Invalid collection" (from_str text).
Definition record_key (text : bytes) : result Xrpc.Error RecordKey.t := refused "Invalid record key" (from_str text).
Definition since (text : bytes) : result Xrpc.Error Tid.t := refused "Invalid since" (from_str text).

End Parse.

(** [Listed::all]. *)
Definition all (listed : list (bytes * bytes)) (name : bytes) : list bytes :=
  map snd (List.filter (fun e => bool_decide (fst e = name)) listed).

(* ------------------------------------------------------------------ *)
(** ** Paths no route claims *)

(** [str::trim_end_matches] of one character. *)
Fixpoint trim_front (c : Z) (s : bytes) : bytes :=
  match s with b :: rest => if b =? c then trim_front c rest else s | [] => [] end.
Definition trim_end_matches (c : Z) (s : bytes) : bytes := reverse (trim_front c (reverse s)).

(** [mismatch] and [fallback]: a bare 404 outside [/xrpc/], or an error. *)
Definition mismatch (method expected : bytes) : Xrpc.Error :=
  Xrpc.invalid_request (lit "Incorrect HTTP method (" ++ method ++ lit ") expected " ++ expected).
Definition fallback (path : bytes) : option Xrpc.Error :=
  path ← strip_prefix (lit "/xrpc/") path;
  Some (match from_str (trim_end_matches 47 path) : result SyntaxError Nsid.t with
        | Err _ => Xrpc.invalid_request (lit "invalid xrpc path")
        | Ok _ => Xrpc.new Xrpc.MethodNotImplemented
        end).

(* ------------------------------------------------------------------ *)
(** ** Methods *)

Section Methods.
Context (p256 k256 : Curve) `{CidText} `{Worded}.
Abbreviation Server := (Server p256 k256).

(** What a method reaches: the server, and the budgets where they are on. *)
Definition Reach : Type := Server * option Limits.
Definition Step (A : Type) : Type := Reach -> option (Reach * result Xrpc.Error A).

#[export] Instance step_ret : MRet Step := fun A a s => Some (s, Ok a).
#[export] Instance step_bind : MBind Step := fun A B f m s =>
  match m s with
  | None => None
  | Some (s, Err e) => Some (s, Err e)
  | Some (s, Ok a) => f a s
  end.

(** What is worked out without the server, what is read from it, and what is
    done to it. *)
Definition lift {A} (r : result Xrpc.Error A) : Step A := fun s => Some (s, r).
Definition ask {A} (f : Server -> result Writes.Error A) : Step A := fun s => Some (s, answering (f (fst s))).
Definition act {A} (f : Server -> Server * result Writes.Error A) : Step A := fun s =>
  let '(server, answer) := f (fst s) in Some ((server, snd s), answering answer).
Definition over_tables {A} (f : Accounts -> Accounts * result Writes.Error A) : Step A :=
  act (fun s => let '(d, answer) := f (tables _ _ s) in (with_tables _ _ (fun _ => d) s, answer)).

End Methods.
