(* ===== verification/Client.v ===== *)
(** * Client: the directory over HTTP

    The exchanges of [src/src/plc.rs] as requests and what came back of them, the
    ones [Plc.send] and [Plc.retire] are made of, and [resolve], which reads a
    document for a caller.  Whatever carries a request is a function of the world
    ([Context http]); a [Reply] is all an exchange comes to within its budget. *)

From S2P Require Import Prelude Syntax Block Json Plc Xrpc Auth Requests.
From Stdlib Require Import Lia.

Local Open Scope Z_scope.

(** What carrying a request came to: no connection, a connection that broke, a
    budget that ran out, or a status, with the body where all of it could be
    read and was not past what is read back. *)
Inductive Reply := NotConnected | Broken | Late | Answered (status : Z) (body : option bytes).

(** A request, as the client builds one. *)
Inductive Method := GET | POST.
Record Request := MkRequest { method : Method; uri : bytes; content_type : option bytes; sent_body : bytes }.

(** [Document], as much of one as is read to see whose it is. *)
Record Document := MkDocument { document_id : bytes }.

Section Client.
Context `{!JsonCodec Operation} `{!JsonCodec Tombstone} `{!JsonCodec Document} `{!JsonCodec Value}.
Context {W : Type} (http : W -> Request -> W * Reply).

(** [Client::new]: the address, without the slashes it ends in. *)
Definition client_url (url : bytes) : bytes := trim_end_matches 47 url.

Context (url : bytes) (did : Did.t).

(** The requests of [attempt], and of [holds] and [resolve]. *)
Definition place : bytes := url ++ lit "/" ++ Did.str did.
Definition posted {T} `{!JsonCodec T} (operation : T) : Request :=
  MkRequest POST place (Some (lit "application/json")) (json_to_vec operation).
Definition asking : Request := MkRequest GET place None [].

(** [exchange] and [within]; [document] and the budget [holds] gives it; and
    [fetch] and the budget [resolve] gives it. *)
Definition exchanged (reply : Reply) : result PlcError unit :=
  match reply with
  | NotConnected => Err Unreachable
  | Broken | Late => Err Uncertain
  | Answered status _ => read_status status
  end.
Definition names_back (body : option bytes) : bool :=
  match body ≫= json_from_slice (T := Document) with
  | Some document => bool_decide (document_id document = Did.str did)
  | None => false
  end.
Definition held_under (reply : Reply) : Held :=
  match reply with Answered status body => read_document status (names_back body) | _ => Unknown end.
Definition id_of (document : Value) : option bytes :=
  match document with
  | VObject fields => match BTree.get fields (lit "id") with Some (VString id) => Some id | _ => None end
  | _ => None
  end.
Definition fetched (reply : Reply) : result PlcError Value :=
  match reply with
  | NotConnected | Broken | Late => Err Unreachable
  | Answered status body =>
      body ← ok_or body Uncertain;
      if negb (between 200 status 299) then Err (Refused status) else
      document ← ok_or (json_from_slice (T := Value) body) Uncertain;
      if bool_decide (id_of document = Some (Did.str did)) then Ok document else Err Uncertain
  end.

(** [Client::resolve], and the exchanges of a registration. *)
Definition resolve (w : W) : W * result PlcError Value := let '(w, reply) := http w asking in (w, fetched reply).
Definition over_http (operation : Operation) (retired : Tombstone) : Exchanges W := {|
  post := fun w => let '(w, reply) := http w (posted operation) in (w, exchanged reply);
  post_tombstone := fun w => let '(w, reply) := http w (posted retired) in (w, exchanged reply);
  holds := fun w => let '(w, reply) := http w asking in (w, held_under reply)
|}.
End Client.

(** The same, keeping what went over the wire. *)
Definition recorded {W} (http : W -> Request -> W * Reply) (w : W * list (Request * Reply)) (r : Request)
  : (W * list (Request * Reply)) * Reply :=
  let '(w', reply) := http (fst w) r in ((w', snd w ++ [(r, reply)]), reply).

(* ------------------------------------------------------------------ *)
(** ** What an answer rests on *)

Section Facts.
Context `{!JsonCodec Operation} `{!JsonCodec Tombstone} `{!JsonCodec Document} `{!JsonCodec Value}.
Context {W : Type} (http : W -> Request -> W * Reply) (url : bytes) (did : Did.t).
Context (operation : Operation) (retired : Tombstone).
Abbreviation wire := (list (Request * Reply)).
Abbreviation directory := (over_http (recorded http) url did operation retired).

(** A reply that says the operation is in, one that says nothing is under the
    identifier, and an attempt that never left. *)
Definition says_in (e : Request * Reply) : Prop :=
  (fst e = posted url did operation /\ exchanged (snd e) = Ok tt)
  \/ (fst e = asking url did /\ held_under did (snd e) = Yes).
Definition says_nothing (e : Request * Reply) : Prop := fst e = asking url did /\ held_under did (snd e) = No.
Definition never_left (e : Request * Reply) : Prop := fst e = posted url did operation -> snd e = NotConnected.

Lemma read_status_cases status : read_status status = Ok tt \/ read_status status = Err Uncertain \/ read_status status = Err (Refused status).
Proof. unfold read_status. destruct (between 200 status 299); [auto|]. destruct (between 500 status 599); auto. Qed.

Lemma exchanged_unreachable reply : exchanged reply = Err Unreachable <-> reply = NotConnected.
Proof.
  destruct reply as [| | |status body]; cbn; split; try done.
  destruct (read_status_cases status) as [E|[E|E]]; by rewrite E.
Qed.

Lemma exchanged_cases reply : exchanged reply = Ok tt \/ (exchanged reply = Err Unreachable /\ reply = NotConnected)
  \/ exchanged reply = Err Uncertain
  \/ exists status body, reply = Answered status body /\ exchanged reply = Err (Refused status) /\ read_status status = Err (Refused status).
Proof.
  destruct reply as [| | |status body]; cbn; auto. destruct (read_status_cases status) as [E|[E|E]]; rewrite E; auto.
  do 3 right. by exists status, body.
Qed.

(** What is known of an attempt, of a read back, and of both once they are over. *)
Ltac reply_cases r :=
  let E := fresh "E" in let Er := fresh "Er" in let st := fresh "status" in let b := fresh "body" in
  destruct (exchanged_cases r) as [E|[[E ->]|[E|(st & b & -> & E & Er)]]]; rewrite ?E.
Ltac carried w r :=
  cbn [fst snd app]; match goal with |- context [http ?v ?q] => destruct (http v q) as [w r] end; cbn [fst snd app].
Ltac backed := first
  [ left; split; [reflexivity|]; repeat (apply List.Forall_cons; [first [by intros _ | discriminate]|]); apply List.Forall_nil
  | right; left; eexists; split; [reflexivity|split; [reflexivity|assumption]]
  | right; right; eexists; reflexivity ].
Ltac settled :=
  cbv beta iota zeta; split_and!; cbn [length last];
  [lia
  |repeat (apply List.Forall_cons; [reflexivity|]); apply List.Forall_nil
  |first [discriminate | intros _; rewrite ?Exists_cons, ?Exists_nil; unfold says_in; cbn [fst snd]; tauto]
  |intros status' Hs; first [discriminate | injection Hs as <-; eexists; split; [repeat first [apply list_elem_of_here | apply list_elem_of_further]|eassumption]]
  |intros e He Hne; first [discriminate | injection He as <-; try congruence; backed]].

Lemma directory_words w :
  (let '((w', log), answer) := send directory (w, []) in
   (length log <= 4)%nat
   /\ Forall (fun e => uri (fst e) = place url did) log
   /\ (answer = Ok tt -> Exists says_in log)
   /\ (forall status, answer = Err (Refused status) -> exists body, (posted url did operation, Answered status body) ∈ log
        /\ read_status status = Err (Refused status))
   /\ (forall e, answer = Err e -> e <> Uncertain ->
        (e = Unreachable /\ Forall never_left log)
        \/ (exists said, last log = Some said /\ says_nothing said)
        \/ exists status, e = Refused status))
  /\ (let '((w', log), gone) := retire directory (w, []) in
      (length log <= 2)%nat
      /\ (gone = true -> exists taken said, log = [(posted url did retired, taken); said]
            /\ exchanged taken = Ok tt /\ says_nothing said)).
Proof.
  split.
  - unfold send, confirm; cbn [post holds over_http]; unfold recorded; cbn [fst snd app].
    destruct (http w (posted url did operation)) as [w1 r1]. reply_cases r1.
    + settled.
    + carried w2 r2. destruct (held_under did r2) eqn:E2; [settled|..]; carried w3 r3; reply_cases r3; try settled;
        carried w4 r4; destruct (held_under did r4) eqn:E4; settled.
    + carried w2 r2. destruct (held_under did r2) eqn:E2; [settled|..]; carried w3 r3; reply_cases r3; try settled;
        carried w4 r4; destruct (held_under did r4) eqn:E4; settled.
    + settled.
  - unfold retire; cbn [post_tombstone holds over_http]; unfold recorded; cbn [fst snd app].
    carried w1 r1. destruct (exchanged r1) as [[]|] eqn:E; cbv beta iota zeta; [|split; [cbn; lia|done]].
    carried w2 r2. split; [cbn; lia|].
    destruct (held_under did r2) eqn:Eh; try done. intros _. by exists r1, (asking url did, r2).
Qed.

(** The same, of what came over the wire. *)
Definition taken (reply : Reply) : Prop := exists status body, reply = Answered status body /\ 200 <= status <= 299.
Definition named (reply : Reply) : Prop := exists status body document,
  reply = Answered status (Some body) /\ 200 <= status <= 299
  /\ json_from_slice body = Some document /\ document_id document = Did.str did.
Definition absent (reply : Reply) : Prop := exists body, reply = Answered 404 body.

Lemma exchanged_taken reply : exchanged reply = Ok tt -> taken reply.
Proof.
  destruct reply as [| | |status body]; try done. cbn; unfold read_status. destruct (between 200 status 299) eqn:E.
  - intros _. exists status, body. by apply between_spec in E.
  - by destruct (between 500 status 599).
Qed.
Lemma held_named reply : held_under did reply = Yes -> named reply.
Proof.
  destruct reply as [| | |status body]; try done. cbn; unfold read_document, names_back.
  destruct (status =? 404); [done|]. destruct (between 200 status 299) eqn:E; [cbn|done].
  destruct body as [body|]; [cbn|done]. destruct (json_from_slice body) as [document|] eqn:Ed; [|done].
  destruct (bool_decide _) eqn:Eb; [|done]. intros _. exists status, body, document.
  apply between_spec in E. by apply bool_decide_eq_true in Eb.
Qed.
Lemma held_absent reply : held_under did reply = No -> absent reply.
Proof.
  destruct reply as [| | |status body]; try done. cbn; unfold read_document.
  destruct (Z.eqb_spec status 404) as [->|]; [by exists body|]. destruct (negb _); [done|]. by destruct (names_back _ _).
Qed.
Lemma refused_status status : read_status status = Err (Refused status) -> ~ 200 <= status <= 299 /\ ~ 500 <= status <= 599.
Proof.
  unfold read_status. destruct (between 200 status 299) eqn:E; [done|]. destruct (between 500 status 599) eqn:E'; [done|]. intros _.
  split; intros Hb%between_spec; congruence.
Qed.

(** C26 (safety). The directory is believed only in its own words. Registering an
    operation is at most four exchanges and retiring one at most two, all at the
    identifier's own address. It is registered only where the operation was taken or a
    document naming the identifier came back; refused only with a status an
    attempt was answered with; and taken for never sent only where no attempt
    was ever connected, or the last thing said is that nothing is there. An
    identifier counts as retired only where the tombstone was taken and nothing
    is there after it; and a document handed over is one that names the identifier. *)
Theorem the_directory_is_believed_in_its_words w :
  (let '((w', log), answer) := send directory (w, []) in
   (length log <= 4)%nat
   /\ Forall (fun e => uri (fst e) = place url did) log
   /\ (answer = Ok tt -> exists request reply, (request, reply) ∈ log
        /\ (request = posted url did operation /\ taken reply \/ request = asking url did /\ named reply))
   /\ (forall status, answer = Err (Refused status) -> exists body, (posted url did operation, Answered status body) ∈ log
        /\ ~ 200 <= status <= 299 /\ ~ 500 <= status <= 599)
   /\ (forall e, answer = Err e -> e <> Uncertain ->
        (e = Unreachable /\ Forall never_left log)
        \/ (exists reply, last log = Some (asking url did, reply) /\ absent reply)
        \/ exists status, e = Refused status))
  /\ (let '((w', log), gone) := retire directory (w, []) in
      (length log <= 2)%nat
      /\ (gone = true -> exists reply reply', log = [(posted url did retired, reply); (asking url did, reply')]
            /\ taken reply /\ absent reply'))
  /\ (forall w' document, resolve http url did w = (w', Ok document) -> id_of document = Some (Did.str did)
        /\ exists status body, snd (http w (asking url did)) = Answered status (Some body) /\ 200 <= status <= 299
             /\ json_from_slice body = Some document).
Proof.
  pose proof (directory_words w) as [Hs Hr]. destruct (send _ _) as [[ws log] answer], (retire _ _) as [[wr log'] gone].
  cbv beta iota zeta in Hs, Hr |- *. split; [|split].
  - destruct Hs as (Hl & Hu & Ho & Hf & Hc). split_and!; [done|done|..].
    + intros ([request reply] & Hin & [[E Hx]|[E Hx]])%Ho%Exists_exists; cbn [fst snd] in E, Hx; exists request, reply;
        split; try done; [left|right]; (split; [done|]); [by apply exchanged_taken|by apply held_named].
    + intros status (body & Hin & Hx)%Hf. exists body; split; [done|]. by apply refused_status.
    + intros e He Hne. destruct (Hc e He Hne) as [?|[([request reply] & Hl' & E & Hx)|?]]; [by left| |by right; right].
      right; left. cbn [fst snd] in E, Hx. subst request. exists reply; split; [done|by apply held_absent].
  - destruct Hr as [Hl Hg]. split; [done|]. intros (reply & [request reply'] & -> & Ht & E & Hx)%Hg.
    cbn [fst snd] in E, Hx. subst request. exists reply, reply'. split_and!; [done|by apply exchanged_taken|by apply held_absent].
  - intros w' document. unfold resolve. destruct (http w (asking url did)) as [w2 reply]. intros [= <- Hf]; cbn [snd].
    destruct reply as [| | |status body]; try done. cbn [fetched] in Hf.
    apply bind_Ok in Hf as (b & Hb & Hf). destruct body as [body|]; [|done]. injection Hb as <-.
    destruct (between 200 status 299) eqn:E; [cbn [negb] in Hf|done]. apply between_spec in E.
    apply bind_Ok in Hf as (document' & Hd & Hf). destruct (json_from_slice body) as [dd|] eqn:Ed; [|done]. injection Hd as ->.
    destruct (bool_decide _) eqn:Eb; [|done]. apply bool_decide_eq_true in Eb. injection Hf as <-. split; [done|]. by exists status, body.
Qed.
End Facts.
