(* ===== verification/Routes.v ===== *)
(** * Routes: which method a request reaches

    The table of [src/src/server.rs], the verbs of [src/src/xrpc/route.rs] and the
    rejections of [src/src/xrpc/input.rs].  Matching a path against the table is
    axum's and dropping the slashes it ends in is tower-http's: [Routing] is what
    their documentation says of them. *)

From S2P Require Import Prelude Syntax Block Ip Limit Xrpc Config Crypto Requests.
From Stdlib Require Import Lia.

Local Open Scope Z_scope.

(* ------------------------------------------------------------------ *)
(** ** The table *)

(** Every handler. *)
Inductive Endpoint :=
| Root | Robots | Health
| DescribeServer | CreateInviteCode | CreateInviteCodes | ResolveHandle | CreateAccount
| CreateAppPassword | ListAppPasswords | RevokeAppPassword
| CreateRecord | PutRecord | DeleteRecord | ApplyWrites
| UploadBlob | GetBlob | ListBlobs | ListMissingBlobs
| GetRepo | GetBlocks | GetProof | GetLatestCommit | GetRepoStatus | ListRepos
| GetRecord | ListRecords | DescribeRepo
| CreateSession | GetSession | RefreshSession | DeleteSession.
#[export] Instance endpoint_eq_dec : EqDecision Endpoint.
Proof. solve_decision. Defined.

(** How a path is served: [axum::routing::get], [xrpc::query] or
    [xrpc::procedure]. *)
Inductive Verb := Get | Query | Procedure.
#[export] Instance verb_eq_dec : EqDecision Verb.
Proof. solve_decision. Defined.
Record Route := MkRoute { route_path : bytes; verb : Verb; endpoint : Endpoint }.
#[export] Instance route_eq_dec : EqDecision Route.
Proof. solve_decision. Defined.

(** [blobs], [sync] and [routes]. *)
Definition blobs : list Route := [
  MkRoute (lit "/xrpc/com.atproto.repo.uploadBlob") Procedure UploadBlob;
  MkRoute (lit "/xrpc/com.atproto.sync.getBlob") Query GetBlob;
  MkRoute (lit "/xrpc/com.atproto.sync.listBlobs") Query ListBlobs;
  MkRoute (lit "/xrpc/com.atproto.repo.listMissingBlobs") Query ListMissingBlobs
].
Definition sync : list Route := [
  MkRoute (lit "/xrpc/com.atproto.sync.getRepo") Query GetRepo;
  MkRoute (lit "/xrpc/com.atproto.sync.getBlocks") Query GetBlocks;
  MkRoute (lit "/xrpc/com.atproto.sync.getRecord") Query GetProof;
  MkRoute (lit "/xrpc/com.atproto.sync.getLatestCommit") Query GetLatestCommit;
  MkRoute (lit "/xrpc/com.atproto.sync.getRepoStatus") Query GetRepoStatus;
  MkRoute (lit "/xrpc/com.atproto.sync.listRepos") Query ListRepos
].
Definition routes : list Route := [
  MkRoute (lit "/") Get Root;
  MkRoute (lit "/robots.txt") Get Robots;
  MkRoute (lit "/xrpc/_health") Get Health;
  MkRoute (lit "/xrpc/com.atproto.server.describeServer") Query DescribeServer;
  MkRoute (lit "/xrpc/com.atproto.server.createInviteCode") Procedure CreateInviteCode;
  MkRoute (lit "/xrpc/com.atproto.server.createInviteCodes") Procedure CreateInviteCodes;
  MkRoute (lit "/xrpc/com.atproto.identity.resolveHandle") Query ResolveHandle;
  MkRoute (lit "/xrpc/com.atproto.server.createAccount") Procedure CreateAccount;
  MkRoute (lit "/xrpc/com.atproto.server.createAppPassword") Procedure CreateAppPassword;
  MkRoute (lit "/xrpc/com.atproto.server.listAppPasswords") Query ListAppPasswords;
  MkRoute (lit "/xrpc/com.atproto.server.revokeAppPassword") Procedure RevokeAppPassword;
  MkRoute (lit "/xrpc/com.atproto.repo.createRecord") Procedure CreateRecord;
  MkRoute (lit "/xrpc/com.atproto.repo.putRecord") Procedure PutRecord;
  MkRoute (lit "/xrpc/com.atproto.repo.deleteRecord") Procedure DeleteRecord;
  MkRoute (lit "/xrpc/com.atproto.repo.applyWrites") Procedure ApplyWrites
] ++ blobs ++ sync ++ [
  MkRoute (lit "/xrpc/com.atproto.repo.getRecord") Query GetRecord;
  MkRoute (lit "/xrpc/com.atproto.repo.listRecords") Query ListRecords;
  MkRoute (lit "/xrpc/com.atproto.repo.describeRepo") Query DescribeRepo;
  MkRoute (lit "/xrpc/com.atproto.server.createSession") Procedure CreateSession;
  MkRoute (lit "/xrpc/com.atproto.server.getSession") Query GetSession;
  MkRoute (lit "/xrpc/com.atproto.server.refreshSession") Procedure RefreshSession;
  MkRoute (lit "/xrpc/com.atproto.server.deleteSession") Procedure DeleteSession
].

(** The most an upload's body may be, of the setting: [usize::try_from] and
    [unwrap_or]. *)
Definition uploads {p256 k256} (config : Config.Config p256 k256) : Z :=
  if Config.blob_upload_limit _ _ config <=? U64_MAX then Config.blob_upload_limit _ _ config else U64_MAX.

(** [root] and [robots]. *)
Definition root : bytes :=
  lit "This is an AT Protocol Personal Data Server." ++ [10; 10] ++ lit "Most of it is under /xrpc/." ++ [10].
Definition robots : bytes :=
  lit "# Crawling the public API is allowed" ++ [10] ++ lit "User-agent: *" ++ [10] ++ lit "Allow: /" ++ [10].

(* ------------------------------------------------------------------ *)
(** ** A request, routed *)

(** The route of a path, and a path without the slashes it ends in. *)
Class Routing := {
  find_route : list Route -> bytes -> option Route;
  normalize : bytes -> bytes
}.
Class RoutingOk `{Routing} : Prop := {
  find_route_spec : forall table path r, NoDup (map route_path table) ->
    find_route table path = Some r <-> r ∈ table /\ route_path r = path;
  (* "any trailing slashes from request paths will be removed" *)
  normalize_slash : forall path, path <> [] -> normalize (path ++ lit "/") = normalize path;
  normalize_plain : forall path, head path <> Some 47 -> last path <> Some 47 -> normalize (lit "/" ++ path) = lit "/" ++ path
}.

(** What a request comes to before any handler runs. *)
Inductive Outcome :=
| Reaches (endpoint : Endpoint)
| Refused (error : Xrpc.Error)
| NotFound
| MethodNotAllowed.

Section Routed.
Context `{Routing}.

(** [query] and [procedure]: a handler of [GET] answers [HEAD] too. *)
Definition GET : bytes := lit "GET".
Definition POST : bytes := lit "POST".
Definition takes (v : Verb) (method : bytes) : bool :=
  match v with
  | Procedure => bool_decide (method = POST)
  | _ => bool_decide (method = GET) || bool_decide (method = lit "HEAD")
  end.
Definition verb_refused (v : Verb) (method : bytes) : Outcome :=
  match v with
  | Get => MethodNotAllowed
  | Query => Refused (mismatch method GET)
  | Procedure => Refused (mismatch method POST)
  end.

(** [router]. *)
Definition router (method path : bytes) : Outcome :=
  let path := normalize path in
  match find_route routes path with
  | Some r => if takes (verb r) method then Reaches (endpoint r) else verb_refused (verb r) method
  | None => match fallback path with None => NotFound | Some e => Refused e end
  end.
End Routed.

(** [Input] and [Params]: what axum rejected a body or a query with. *)
Record Rejection := MkRejection { missing_type : bool; rejected_status : Z; body_text : bytes }.
Definition input_rejected (r : Rejection) : Xrpc.Error :=
  if missing_type r then Xrpc.saying (lit "Expected application/json") (Xrpc.new Xrpc.UnsupportedMediaType)
  else if rejected_status r =? 413 then Xrpc.saying (body_text r) (Xrpc.new Xrpc.PayloadTooLarge)
  else Xrpc.invalid_request (body_text r).
Definition params_rejected (r : Rejection) : Xrpc.Error := Xrpc.invalid_request (body_text r).

(* ------------------------------------------------------------------ *)
(** ** Every request has one place to go *)

Section Facts.
Context `{Routing} `{!RoutingOk}.

Definition lexicon (r : Route) : bool :=
  match verb r with
  | Get => true
  | _ => match strip_prefix (lit "/xrpc/") (route_path r) with
         | Some nsid => match from_str nsid : result SyntaxError Nsid.t with Ok _ => true | Err _ => false end
         | None => false
         end
  end.

Lemma paths_apart : NoDup (map route_path routes).
Proof. apply (bool_decide_unpack _). vm_compute. exact I. Qed.
Lemma endpoints_apart : NoDup (map endpoint routes).
Proof. apply (bool_decide_unpack _). vm_compute. exact I. Qed.
Lemma lexicons : forallb lexicon routes = true.
Proof. vm_compute. reflexivity. Qed.

Lemma routed path r : find_route routes path = Some r <-> r ∈ routes /\ route_path r = path.
Proof. apply find_route_spec, paths_apart. Qed.
Lemma endpoint_at r r' : r ∈ routes -> r' ∈ routes -> endpoint r = endpoint r' -> r = r'.
Proof.
  intros (i & Hi)%list_elem_of_lookup (j & Hj)%list_elem_of_lookup E.
  assert (forall i r, routes !! i = Some r -> map endpoint routes !! i = Some (endpoint r)) as Hm.
  { intros k x Hk. change (map endpoint routes) with (endpoint <$> routes). by rewrite list_lookup_fmap, Hk. }
  pose proof (Hm _ _ Hi) as H1. pose proof (Hm _ _ Hj) as H2.
  rewrite <- E in H2. assert (i = j) as <- by (eapply NoDup_lookup; [apply endpoints_apart|done|done]). congruence.
Qed.

(** A route's own path is one no slash is dropped from. *)
Definition slashes_kept (r : Route) : bool :=
  match strip_prefix (lit "/") (route_path r) with
  | Some path => bool_decide (head path <> Some 47) && bool_decide (last path <> Some 47)
  | None => false
  end.
Lemma route_normal r : r ∈ routes -> normalize (route_path r) = route_path r.
Proof.
  assert (forallb slashes_kept routes = true) as Hall by (vm_compute; reflexivity).
  rewrite forallb_forall in Hall. intros Hr%list_elem_of_In; specialize (Hall r Hr). unfold slashes_kept in Hall.
  destruct (strip_prefix (lit "/") (route_path r)) as [path|] eqn:Ep; [|done]. apply strip_prefix_Some in Ep as ->.
  apply andb_true_iff in Hall as [Hh%bool_decide_eq_true Hl%bool_decide_eq_true]. by apply normalize_plain.
Qed.

Lemma reached_at r method path : r ∈ routes -> router method path = Reaches (endpoint r) -> normalize path = route_path r.
Proof.
  intros Hr; unfold router. destruct (find_route routes (normalize path)) as [r'|] eqn:Er; [|by destruct (fallback _)].
  apply routed in Er as [Hr' <-]. destruct (takes (verb r') method); [|by destruct (verb r')]. intros [= E].
  by rewrite (endpoint_at r' r).
Qed.

(** C27 (functional). Every request has one place to go. A handler is reached by
    the verb its lexicon declares, at one path and no other, whatever slashes
    that path ends in; the same path under another verb is told so; and a path
    under [/xrpc/] that no route claims is told that its lexicon is not served
    here, or that it names none. What a caller is limited by reads the same
    path, so the methods with budgets of their own are reached at the paths that
    spend them. *)
Theorem every_request_has_a_place method path :
  (forall e, router method path = Reaches e <->
     exists r, r ∈ routes /\ endpoint r = e /\ route_path r = normalize path /\ takes (verb r) method = true)
  /\ (forall r, r ∈ routes -> takes (verb r) method = true -> router method (route_path r) = Reaches (endpoint r))
  /\ (path <> [] -> router method (path ++ lit "/") = router method path)
  /\ (forall r, r ∈ routes -> route_path r = normalize path -> verb r <> Get -> takes (verb r) method = false ->
        router method path = Refused (mismatch method (match verb r with Procedure => POST | _ => GET end)))
  /\ (forall lexicon, (forall r, r ∈ routes -> route_path r <> normalize path) -> normalize path = lit "/xrpc/" ++ lexicon ->
        router method path = Refused
          (if is_ok (from_str (trim_end_matches 47 lexicon) : result SyntaxError Nsid.t)
           then Xrpc.new Xrpc.MethodNotImplemented else Xrpc.invalid_request (lit "invalid xrpc path")))
  /\ (router method path = Reaches CreateSession -> normalize path = CREATE_SESSION)
  /\ (router method path = Reaches CreateAccount -> normalize path = CREATE_ACCOUNT)
  /\ (router method path = Reaches GetRepo -> normalize path = GET_REPO).
Proof.
  split_and!.
  - intros e; unfold router. split.
    + destruct (find_route routes (normalize path)) as [r|] eqn:Er; [|by destruct (fallback _)].
      apply routed in Er as [Hr Hp]. destruct (takes (verb r) method) eqn:Et; [|by destruct (verb r)]. intros [= <-]. by exists r.
    + intros (r & Hr & <- & Hp & Ht). rewrite (proj2 (routed _ r) (conj Hr Hp)). by rewrite Ht.
  - intros r Hr Ht; unfold router. rewrite (route_normal r Hr), (proj2 (routed _ r) (conj Hr eq_refl)). by rewrite Ht.
  - intros Hp; unfold router. by rewrite normalize_slash.
  - intros r Hr Hp Hv Ht; unfold router. rewrite (proj2 (routed _ r) (conj Hr Hp)), Ht. by destruct (verb r).
  - intros lexicon Hnone Hp; unfold router. rewrite Hp in *.
    destruct (find_route routes _) as [r|] eqn:Er; [apply routed in Er as [Hr Er]; by destruct (Hnone r Hr)|].
    unfold fallback; rewrite strip_prefix_app; cbn [mbind option_bind].
    by destruct (from_str (trim_end_matches 47 lexicon) : result SyntaxError Nsid.t).
  - apply (reached_at (MkRoute CREATE_SESSION Procedure CreateSession)). apply (bool_decide_unpack _); vm_compute; exact I.
  - apply (reached_at (MkRoute CREATE_ACCOUNT Procedure CreateAccount)). apply (bool_decide_unpack _); vm_compute; exact I.
  - apply (reached_at (MkRoute GET_REPO Query GetRepo)). apply (bool_decide_unpack _); vm_compute; exact I.
Qed.
End Facts.

(* ------------------------------------------------------------------ *)
(** ** A router *)

Module Sample.

#[export] Instance routing : Routing := {|
  find_route := fun table path => List.find (fun r => bool_decide (route_path r = path)) table;
  normalize := fun path => match path with
    | [] => []
    | _ => let p := trim_end_matches 47 path in if bool_decide (p = []) then [47] else p
    end
|}.

Lemma trim_end_slash path : trim_end_matches 47 (path ++ [47]) = trim_end_matches 47 path.
Proof. unfold trim_end_matches. rewrite reverse_snoc. cbn. done. Qed.
Lemma trim_end_plain path : last path <> Some 47 -> trim_end_matches 47 path = path.
Proof.
  unfold trim_end_matches; intros Hl. rewrite <- (reverse_involutive path) at 2. f_equal.
  destruct (reverse path) as [|b p] eqn:E; [done|]. cbn. destruct (Z.eqb_spec b 47) as [->|]; [|done].
  exfalso; apply Hl. rewrite <- (reverse_involutive path), E, reverse_cons, last_snoc. done.
Qed.

#[export] Instance routing_ok : RoutingOk.
Proof.
  split.
  - intros table path r Hn; cbn [find_route routing]. split.
    + intros [Hin Hb]%find_some. apply bool_decide_eq_true in Hb. by rewrite list_elem_of_In.
    + intros [Hin Hp]. induction table as [|r' table IH]; [by apply not_elem_of_nil in Hin|].
      cbn in Hn |- *. apply NoDup_cons in Hn as [Hr' Hn]. case_bool_decide as E.
      * apply elem_of_cons in Hin as [->|Hin]; [done|]. exfalso; apply Hr'. rewrite E, <- Hp. by apply list_elem_of_fmap_2.
      * apply elem_of_cons in Hin as [->|Hin]; [done|]. by apply IH.
  - intros path Hne; cbn [normalize routing]. destruct path as [|b path]; [done|].
    change ((b :: path) ++ lit "/") with (b :: (path ++ [47])); cbn iota.
    change (b :: (path ++ [47])) with ((b :: path) ++ [47]). by rewrite trim_end_slash.
  - intros path Hh Hl; cbn [normalize routing]. change (lit "/" ++ path) with (47 :: path); cbn iota.
    destruct path as [|b path]; [done|]. rewrite trim_end_plain by done. done.
Qed.
End Sample.

Lemma every_request_has_a_place_witness :
  @router Sample.routing (lit "POST") (lit "/xrpc/com.atproto.server.createSession//") = Reaches CreateSession
  /\ @normalize Sample.routing (lit "/xrpc/com.atproto.server.createSession//") = CREATE_SESSION.
Proof.
  assert (@router Sample.routing (lit "POST") (lit "/xrpc/com.atproto.server.createSession//") = Reaches CreateSession) as E
    by (vm_compute; reflexivity).
  split; [exact E|].
  pose proof (@every_request_has_a_place Sample.routing Sample.routing_ok (lit "POST")
    (lit "/xrpc/com.atproto.server.createSession//")) as (_ & _ & _ & _ & _ & Hx & _). exact (Hx E).
Defined.
