(* ===== verification/RecordMethods.v ===== *)
(** * RecordMethods: writing and reading records

    [src/src/server/repo.rs]: [create_record], [put_record], [delete_record] and
    [apply_writes], which come down to [Manager::write]; [get_record] and
    [list_records], which read; and [describe_repo].  What the clocks read and
    what is drawn are arguments, as they are of [Serving.write]; the document
    [describe_repo] shows is the directory's answer, already read. *)

From S2P Require Import Prelude Syntax Crypto Ip Text Block Json Repo Storage Blobs Handles Actor Links Plc Accounts Car.
From S2P Require Import Limit Passwords Xrpc Auth Writes Sessions Log Signup Serving Answers Requests.

Local Open Scope Z_scope.

(** [PAGE], [LONGEST_PAGE] and [WRITES]. *)
Definition PAGE : Z := 50.
Definition LONGEST_PAGE : Z := 100.
Definition WRITES : nat := 200.

(* ------------------------------------------------------------------ *)
(** ** What is sent and what is answered *)

(** [Swap], as an untagged enum reads a field. *)
Inductive Swap := SwapBlock (text : bytes) | SwapNothing | SwapUnasked.
Definition read_swap (field : option Value) : option Swap :=
  match field with
  | None => Some SwapUnasked
  | Some (VString text) => Some (SwapBlock text)
  | Some VNull => Some SwapNothing
  | Some _ => None
  end.

(** [Creating], [Putting], [Deleting], [Asked] and [Applying]. *)
Record Creating := MkCreating {
  cr_repo : bytes; cr_collection : bytes; cr_rkey : option bytes; cr_record : Value;
  cr_swap_commit : option bytes; cr_validate : option bool
}.
Record Putting := MkPutting {
  pu_repo : bytes; pu_collection : bytes; pu_rkey : bytes; pu_record : Value;
  pu_swap_record : Swap; pu_swap_commit : option bytes
}.
Record Deleting := MkDeleting {
  de_repo : bytes; de_collection : bytes; de_rkey : bytes; de_swap_record : Swap; de_swap_commit : option bytes
}.
Inductive Asked :=
| AskCreate (collection : bytes) (rkey : option bytes) (value : Value)
| AskUpdate (collection rkey : bytes) (value : Value)
| AskDelete (collection rkey : bytes).
Record Applying := MkApplying { ap_repo : bytes; ap_writes : list Asked; ap_swap_commit : option bytes }.

(** [At], [Landed], [Removed], [Outcome], [Applied], [Held], [Page] and
    [Description]; [Removed] is its one field. *)
Record At := MkAt { at_cid : bytes; at_rev : bytes }.
Record LandedAt := MkLandedAt { la_uri : bytes; la_cid : bytes; la_commit : At }.
Inductive Outcome := OutCreate (uri cid : bytes) | OutUpdate (uri cid : bytes) | OutDelete.
Record AppliedAll := MkAppliedAll { aa_commit : option At; aa_results : list Outcome }.
Record Held := MkHeld { h_uri : bytes; h_cid : bytes; h_value : Value }.
Record RecordPage := MkRecordPage { rp_cursor : option bytes; rp_records : list Held }.
Record Description := MkDescription {
  ds_handle : bytes; ds_did : bytes; ds_document : Value; ds_collections : list bytes; ds_correct : bool
}.

Section RecordMethods.
Context (p256 k256 : Curve) `{Sha256} `{CidText} `{Stamps} `{Worded} `{Json.Base64} `{Varint} `{CidBytes} `{!Codec Car.Header}.
Context `{!Codec Mst.NodeData} `{!Codec Ipld} `{!Codec Commit} `{!Codec Unsigned} `{!Codec AppendBody}.
Abbreviation Step := (Step p256 k256).
Abbreviation Server := (Server p256 k256).

(* ------------------------------------------------------------------ *)
(** ** The checks *)

(** [found], [repository], [owned] and [spend]. *)
Definition found (repo : bytes) : Step Account :=
  identifier ← lift _ _ (map_err (fun _ => Xrpc.invalid_request (lit "Invalid repo")) (AtIdentifier.parse repo));
  account ← ask _ _ (fun s => lookup _ _ s identifier);
  lift _ _ (ok_or account (Xrpc.named (lit "RepoNotFound") (Xrpc.invalid_request (lit "Could not find repo: " ++ repo)))).
Definition repository (repo : bytes) : Step Did.t := account ← found repo; mret (Accounts.did account).
Definition owned (access : Access) (repo : bytes) : Step Did.t :=
  did ← repository repo;
  if decide (did <> access_did access)
  then lift _ _ (Err (Xrpc.saying (lit "Not the repository this session reaches") (Xrpc.new Xrpc.Forbidden)))
  else mret did.
Definition spend (now : nat -> Z) (did : Did.t) (points : Z) : Step unit := fun '(server, limits) =>
  match limits with
  | None => Some ((server, None), Ok tt)
  | Some limits =>
      let '(limits, reading) := writing now limits did points in
      Some ((server, Some limits),
        match reading with
        | None => Ok tt
        | Some reading => Err (Xrpc.limited reading (Xrpc.new Xrpc.RateLimitExceeded))
        end)
  end.

(** [record]: a record is given its [$type] where it leaves it out. *)
Definition TYPE : bytes := lit "$type".
Definition typed (collection : Nsid.t) (value : Value) : result Xrpc.Error Value :=
  let named := match value with
               | VObject fields => match BTree.get fields TYPE with Some (VString named) => Some named | _ => None end
               | _ => None
               end in
  match named with
  | Some named =>
      if decide (named = Nsid.str collection) then Ok value
      else Err (Xrpc.invalid_request (lit "Invalid $type: expected " ++ Nsid.str collection ++ lit ", got " ++ named))
  | None =>
      match value with
      | VObject fields => Ok (VObject (BTree.insert fields TYPE (VString (Nsid.str collection))))
      | _ => Err (Xrpc.invalid_request (lit "Invalid record: not an object"))
      end
  end.
Definition record (collection : Nsid.t) (value : Value) : result Xrpc.Error Ipld :=
  value ← typed collection value;
  map_err (fun invalid => Xrpc.invalid_request (lit "Invalid record: " ++ repo_text invalid)) (from_json value).

(** [swap] and [expected]. *)
Definition invalid_swap (why : string) : Xrpc.Error := Xrpc.named (lit "InvalidSwap") (Xrpc.invalid_request (lit why)).
Definition swap (cid : option bytes) : result Xrpc.Error (option Cid) :=
  transpose ((fun cid => ok_or (cid_parse cid) (invalid_swap "Invalid swapCommit")) <$> cid).
Definition expected (swap : Swap) : result Xrpc.Error Expect :=
  match swap with
  | SwapUnasked => Ok Anything
  | SwapNothing => Ok Writes.Nothing
  | SwapBlock cid => Exactly <$> ok_or (cid_parse cid) (invalid_swap "Invalid swapRecord")
  end.

(** [From<Tid> for RecordKey], and [Manager::record_key], under what the clock
    reads. *)
Definition record_key_of (tid : Tid.t) : RecordKey.t := RecordKey.mk (Tid.str tid).
Definition mint_key (micros : option Z) : Step RecordKey.t := fun '(s, limits) =>
  let '(clock, tid) := Tid.mint (tid_clock _ _ s) micros in
  Some ((MkServer _ _ (tables _ _ s) (reserved _ _ s) (dirs _ _ s) (blob_files _ _ s) clock (events _ _ s), limits),
        Ok (record_key_of tid)).
Definition key_or_mint (micros : option Z) (rkey : option bytes) : Step RecordKey.t :=
  match rkey with
  | Some rkey => lift _ _ (Parse.record_key rkey)
  | None => mint_key micros
  end.

(* ------------------------------------------------------------------ *)
(** ** Writing *)

Section Writing.
Context (served : Blobs) (fuel : nat) (moments : nat -> Moment) (others : nat -> Actor.Db * Fs.t -> Actor.Db * Fs.t).
Context (logged_at moved_at : Z) (now : nat -> Z) (minted : nat -> option Z).

(** [Manager::write], for a method. *)
Definition write_all (did : Did.t) (requested : list Requested) (swap : option Cid) : Step (option Written) :=
  fun '(s, limits) =>
    match Serving.write _ _ served fuel moments others logged_at moved_at s did requested swap with
    | None => None
    | Some (s, answer) => Some ((s, limits), answering answer)
    end.

(** [landed]: [Cid::default] is where a write that left a record left none. *)
Context (default_cid : Cid).
Definition at_of (written : Written) : At := MkAt (cid_to_string (commit_cid written)) (Tid.str (written_rev written)).
Definition landed (written : option Written) : result Xrpc.Error LandedAt :=
  written ← ok_or written (Xrpc.new Xrpc.InternalServerError);
  one ← ok_or (head (results written)) (Xrpc.new Xrpc.InternalServerError);
  Ok (MkLandedAt (applied_uri one) (cid_to_string (default default_cid (applied_cid one))) (at_of written)).

(** [create_record]. *)
Definition create_record (access : Access) (input : Creating) : Step LandedAt :=
  did ← owned access (cr_repo input);
  _ ← spend now did CREATE;
  named ← lift _ _ (Parse.collection (cr_collection input));
  rkey ← key_or_mint (minted 0) (cr_rkey input);
  record ← lift _ _ (record named (cr_record input));
  let conflicts := if bool_decide (cr_validate input = Some false) then Ignore else Supersede in
  swap ← lift _ _ (swap (cr_swap_commit input));
  written ← write_all did [MkRequested (WCreate named rkey record) Anything Writes.Refuse conflicts] swap;
  lift _ _ (landed written).

(** [put_record]. *)
Definition put_record (access : Access) (input : Putting) : Step LandedAt :=
  did ← owned access (pu_repo input);
  _ ← spend now did PUT;
  named ← lift _ _ (Parse.collection (pu_collection input));
  rkey ← lift _ _ (Parse.record_key (pu_rkey input));
  record ← lift _ _ (record named (pu_record input));
  expect ← lift _ _ (expected (pu_swap_record input));
  swap ← lift _ _ (swap (pu_swap_commit input));
  written ← write_all did [MkRequested (WPut named rkey record) expect Writes.Refuse Ignore] swap;
  lift _ _ (landed written).

(** [delete_record]: an explicit null asks for nothing here. *)
Definition delete_record (access : Access) (input : Deleting) : Step (option At) :=
  did ← owned access (de_repo input);
  _ ← spend now did DELETE;
  collection ← lift _ _ (Parse.collection (de_collection input));
  rkey ← lift _ _ (Parse.record_key (de_rkey input));
  expect ← match de_swap_record input with
           | SwapNothing => mret Anything
           | asked => lift _ _ (expected asked)
           end;
  swap ← lift _ _ (swap (de_swap_commit input));
  written ← write_all did [MkRequested (WDelete collection rkey) expect Skip Ignore] swap;
  mret (at_of <$> written).

(** [apply_writes]: each write read, its points, and what became of it. *)
Definition points_of (asked : Asked) : Z :=
  match asked with AskCreate _ _ _ => CREATE | AskUpdate _ _ _ => PUT | AskDelete _ _ => DELETE end.
Definition asked_write (micros : option Z) (asked : Asked) : Step Write :=
  match asked with
  | AskCreate collection rkey value =>
      named ← lift _ _ (Parse.collection collection);
      rkey ← key_or_mint micros rkey;
      record ← lift _ _ (record named value);
      mret (WCreate named rkey record)
  | AskUpdate collection rkey value =>
      named ← lift _ _ (Parse.collection collection);
      rkey ← lift _ _ (Parse.record_key rkey);
      record ← lift _ _ (record named value);
      mret (WUpdate named rkey record)
  | AskDelete collection rkey =>
      collection ← lift _ _ (Parse.collection collection);
      rkey ← lift _ _ (Parse.record_key rkey);
      mret (WDelete collection rkey)
  end.
Fixpoint asked_writes (n : nat) (asked : list Asked) : Step (list Requested) :=
  match asked with
  | [] => mret []
  | one :: asked =>
      w ← asked_write (minted n) one;
      rest ← asked_writes (S n) asked;
      mret (plain w :: rest)
  end.
Definition outcome_of (result : Applied) (w : Write) : Outcome :=
  match applied_cid result with
  | None => OutDelete
  | Some cid =>
      match w with
      | WUpdate _ _ _ => OutUpdate (applied_uri result) (cid_to_string cid)
      | _ => OutCreate (applied_uri result) (cid_to_string cid)
      end
  end.
Definition apply_writes (access : Access) (input : Applying) : Step AppliedAll :=
  did ← owned access (ap_repo input);
  if (WRITES <? length (ap_writes input))%nat then
    lift _ _ (Err (Xrpc.invalid_request (lit "Too many writes. Max: " ++ decimal (Z.of_nat WRITES)))) else
  _ ← spend now did (fold_right Z.add 0 (map points_of (ap_writes input)));
  requested ← asked_writes 0 (ap_writes input);
  swap ← lift _ _ (swap (ap_swap_commit input));
  written ← write_all did requested swap;
  mret (match written with
        | None => MkAppliedAll None []
        | Some written =>
            MkAppliedAll (Some (at_of written))
              (map (fun e => outcome_of (fst e) (Writes.write (snd e))) (combine (results written) requested))
        end).

End Writing.

(* ------------------------------------------------------------------ *)
(** ** Reading *)

(** [shown] and [key_of]. *)
Definition shown (held : Record_) : result Writes.Error Held :=
  held_value ← in_repo (Block.decode (T := Ipld) (r_value held));
  value ← in_repo (to_json held_value);
  Ok (MkHeld (r_uri held) (cid_to_string (Actor.r_cid held)) value).
Definition key_of (uri : bytes) : bytes := match rsplit_once 47 uri with Some (_, key) => key | None => uri end.

(** [get_record]. *)
Definition get_record (repo collection rkey : bytes) (cid : option bytes) : Step Held :=
  did ← repository repo;
  collection ← lift _ _ (Parse.collection collection);
  rkey ← lift _ _ (Parse.record_key rkey);
  held ← ask _ _ (fun s => Serving.record _ _ s did collection rkey);
  let named := match held with
               | Some held =>
                   if match cid with Some cid => bool_decide (cid = cid_to_string (Actor.r_cid held)) | None => true end
                   then Some held else None
               | None => None
               end in
  held ← lift _ _ (ok_or named (Xrpc.named (lit "RecordNotFound") (Xrpc.invalid_request (lit "Could not locate record"))));
  lift _ _ (answering (shown held)).

(** [list_records]: a short page has no next. *)
Definition clamped (limit : option Z) (page longest : Z) : Z := Z.max 1 (Z.min (default page limit) longest).
Definition list_records (repo collection : bytes) (limit : option Z) (cursor : option bytes) (reverse : bool) : Step RecordPage :=
  did ← repository repo;
  collection ← lift _ _ (Parse.collection collection);
  let limit := clamped limit PAGE LONGEST_PAGE in
  held ← ask _ _ (fun s => Serving.records _ _ s did collection limit cursor reverse);
  let cursor := if len held =? limit then (fun r => key_of (r_uri r)) <$> last held else None in
  records ← lift _ _ (answering (collect (map shown held)));
  mret (MkRecordPage cursor records).

(** [also_known_as] and [describe_repo], of the document the directory holds. *)
Definition also_known_as (document : Value) : option bytes :=
  match document with
  | VObject fields =>
      match BTree.get fields (lit "alsoKnownAs") with
      | Some (VArray names) =>
          head (omap (fun name => match name with VString name => strip_prefix (lit "at://") name | _ => None end) names)
      | _ => None
      end
  | _ => None
  end.
Definition describe_repo (document : Did.t -> result PlcError Value) (repo : bytes) : Step Description :=
  account ← found repo;
  document ← lift _ _ (answering (map_err Directory (document (Accounts.did account))));
  let handle := match Accounts.handle account with Some handle => Handle.str handle | None => Handles.INVALID end in
  collections ← ask _ _ (fun s => Serving.collections _ _ s (Accounts.did account));
  mret (MkDescription handle (Did.str (Accounts.did account)) document (map Nsid.str collections)
          (bool_decide (also_known_as document = Some handle))).

End RecordMethods.
