(* ===== verification/SyncMethods.v ===== *)
(** * SyncMethods: what other servers read, and blobs

    [src/src/server/sync.rs], [src/src/server/blob.rs] and
    [src/src/server/identity.rs].  A cursor of [list_repos] is a moment in
    milliseconds and a DID; the range of milliseconds a [jiff::Timestamp] holds
    is written out. *)

From S2P Require Import Prelude Syntax Crypto Ip Text Numbers Block Json Repo Storage Blobs Handles Actor Links Plc Accounts Car.
From S2P Require Import Limit Passwords Xrpc Auth Writes Sessions Log Signup Serving Answers Requests RecordMethods.

Local Open Scope Z_scope.

(** [PAGE] and [LONGEST_PAGE], of both modules; [CAR] and [UNSAID]. *)
Definition PAGE : Z := 500.
Definition LONGEST_PAGE : Z := 1000.
Definition CAR : bytes := lit "application/vnd.ipld.car".
Definition UNSAID : bytes := lit "application/octet-stream".

(** [Latest], [Status], [Held] and [Page] of [sync.rs]. *)
Record Latest := MkLatest { lt_cid : bytes; lt_rev : bytes }.
Record RepoStatus := MkRepoStatus { rs_did : bytes; rs_active : bool; rs_rev : bytes }.
Record HeldRepo := MkHeldRepo { hr_did : bytes; hr_head : bytes; hr_rev : bytes; hr_active : bool }.
Record RepoPage := MkRepoPage { rep_cursor : option bytes; rep_repos : list HeldRepo }.

(** [Page], [RecordBlob], [MissingPage] and [Reference] of [blob.rs]. *)
Record BlobPage := MkBlobPage { bp_cursor : option bytes; bp_cids : list bytes }.
Record RecordBlob := MkRecordBlob { rb_cid : bytes; rb_uri : bytes }.
Record MissingPage := MkMissingPage { mp_cursor : option bytes; mp_blobs : list RecordBlob }.
Record Reference := MkReference { rf_type : bytes; rf_link : bytes; rf_mime : bytes; rf_size : Z }.

Section SyncMethods.
Context (p256 k256 : Curve) `{Sha256} `{CidText} `{Stamps} `{Worded} `{Varint} `{CidBytes} `{!Codec Car.Header}.
Context `{!Codec Mst.NodeData} `{!Codec Commit} `{!Codec Unsigned} `{!Codec AppendBody}.
Abbreviation Step := (Step p256 k256).

(* ------------------------------------------------------------------ *)
(** ** Following a repository *)

(** [get_repo]: [since] is read before the DID. The pieces are [export]'s. *)
Definition get_repo (fuel : nat) (taken : nat -> bool) (did : bytes) (since : option bytes)
  : Step (list (result Writes.Error bytes)) :=
  since ← lift _ _ (transpose (Parse.since <$> since));
  did ← lift _ _ (Parse.did did);
  ask _ _ (fun s => export _ _ fuel taken s did since).

(** [get_record] and [get_blocks]. *)
Definition get_proof (did collection rkey : bytes) : Step bytes :=
  collection ← lift _ _ (Parse.collection collection);
  rkey ← lift _ _ (Parse.record_key rkey);
  did ← lift _ _ (Parse.did did);
  ask _ _ (fun s => proof _ _ s did collection rkey).
Definition get_blocks (did : bytes) (listed : list (bytes * bytes)) : Step bytes :=
  match all listed (lit "cids") with
  | [] => lift _ _ (Err (Xrpc.invalid_request (lit "Params must have the property " ++ [34] ++ lit "cids" ++ [34])))
  | wanted =>
      cids ← lift _ _ (collect (map Parse.cid wanted));
      did ← lift _ _ (Parse.did did);
      ask _ _ (fun s => Serving.blocks _ _ s did cids)
  end.

(** [root], [get_latest_commit] and [get_repo_status]. *)
Definition root_of (did : Did.t) : Step Root :=
  root ← ask _ _ (fun s => Serving.root _ _ s did);
  lift _ _ (ok_or root (Xrpc.named (lit "RepoNotFound")
    (Xrpc.invalid_request (lit "Could not find root for " ++ Did.str did)))).
Definition get_latest_commit (did : bytes) : Step Latest :=
  did ← lift _ _ (Parse.did did);
  root ← root_of did;
  mret (MkLatest (cid_to_string (Actor.cid root)) (Tid.str (Actor.rev root))).
Definition get_repo_status (did : bytes) : Step RepoStatus :=
  did ← lift _ _ (Parse.did did);
  root ← root_of did;
  mret (MkRepoStatus (Did.str did) true (Tid.str (Actor.rev root))).

(** [str::split_once] on two colons. *)
Fixpoint split_pair (s : bytes) : option (bytes * bytes) :=
  match s with
  | [] => None
  | b :: rest =>
      match strip_prefix (lit "::") s with
      | Some after => Some ([], after)
      | None => '(before, after) ← split_pair rest; Some (b :: before, after)
      end
  end.

(** [starting], [after] and [shown]: a moment is nanoseconds, a cursor
    milliseconds, cut towards zero as jiff cuts them. *)
Definition MILLI : Z := 1000000.
Definition EARLIEST : Z := -377705023201000.
Definition LATEST : Z := 253402207200999.
Definition I64_MIN : Z := - 2 ^ 63.
Definition starting (cursor : bytes) : result Xrpc.Error Cursor :=
  let malformed := Xrpc.invalid_request (lit "Malformed cursor") in
  '(at_, did) ← ok_or (split_pair cursor) malformed;
  match int_from_str I64_MIN Actor.I64_MAX at_ with
  | Ok millis => if between EARLIEST millis LATEST then Ok (MkCursor (millis * MILLI) did) else Err malformed
  | Err _ => Err malformed
  end.
Definition cursor_after (hosted : Hosted) : bytes :=
  decimal (Z.quot (hosted_created hosted) MILLI) ++ lit "::" ++ Did.str (hosted_did hosted).
Definition shown_repo (hosted : Hosted) : HeldRepo :=
  MkHeldRepo (Did.str (hosted_did hosted)) (cid_to_string (Actor.cid (hosted_root hosted)))
    (Tid.str (Actor.rev (hosted_root hosted))) true.

(** [list_repos]. *)
Definition list_repos (limit : option Z) (cursor : option bytes) : Step RepoPage :=
  let limit := clamped limit PAGE LONGEST_PAGE in
  from ← lift _ _ (transpose (starting <$> cursor));
  held ← ask _ _ (fun s => repos _ _ s limit from);
  mret (MkRepoPage (if len held =? limit then cursor_after <$> last held else None) (map shown_repo held)).

(* ------------------------------------------------------------------ *)
(** ** Blobs *)

(** [shown], and what an upload is taken as, of the header where it is text. *)
Definition shown_blob (blob : Blob) : Reference :=
  MkReference (lit "blob") (cid_to_string (b_cid blob)) (mime blob) (size blob).
Definition taken_as (headers : Headers) : bytes :=
  match mime ← header headers (lit "content-type"); Limit.to_str mime with
  | Some mime =>
      let mime := Text.trim (default mime (hd_error (split_on 59 mime))) in
      if bool_decide (mime = []) then UNSAID else mime
  | None => UNSAID
  end.

(** [upload]: a body past the route's limit is told what axum says of it. *)
Definition upload (served : Blobs) (drawn scratch : bytes) (now : Z) (cutoff : option Z)
    (access : Access) (headers : Headers) (body : bytes + bytes) : Step Reference :=
  body ← lift _ _ (match body with
                   | inl body => Ok body
                   | inr said => Err (Xrpc.saying said (Xrpc.new Xrpc.PayloadTooLarge))
                   end);
  blob ← act _ _ (fun s => upload_blob _ _ served s (access_did access) (taken_as headers) body drawn scratch now cutoff);
  mret (shown_blob blob).

(** [get]: the blob's own type, and the headers that keep a browser from
    running it. *)
Definition blob_headers (mime : bytes) : Headers :=
  [(lit "content-type", mime);
   (lit "cache-control", lit "public, max-age=31536000, immutable");
   (lit "x-content-type-options", lit "nosniff");
   (lit "content-disposition", lit "attachment");
   (lit "content-security-policy", lit "default-src 'none'; sandbox")].
Definition get_blob (served : Blobs) (did cid : bytes) : Step (Headers * bytes) :=
  did ← lift _ _ (Parse.did did);
  cid ← lift _ _ (Parse.cid cid);
  held ← ask _ _ (fun s => Serving.blob _ _ served s did cid);
  '(blob, b) ← lift _ _ (ok_or held (Xrpc.named (lit "BlobNotFound") (Xrpc.invalid_request (lit "Blob not found"))));
  mret (blob_headers (mime blob), b).

(** [list] and [list_missing]. *)
Definition list_blobs (did : bytes) (since : option bytes) (limit : option Z) (cursor : option bytes) : Step BlobPage :=
  did ← lift _ _ (Parse.did did);
  since ← lift _ _ (transpose (Parse.since <$> since));
  let limit := clamped limit PAGE LONGEST_PAGE in
  cids ← ask _ _ (fun s => Serving.blobs _ _ s did since limit cursor);
  let cids := map cid_to_string cids in
  mret (MkBlobPage (if len cids =? limit then last cids else None) cids).
Definition list_missing (access : Access) (limit : option Z) (cursor : option bytes) : Step MissingPage :=
  let limit := clamped limit PAGE LONGEST_PAGE in
  missing ← ask _ _ (fun s => Serving.missing_blobs _ _ s (access_did access) limit cursor);
  let blobs := map (fun m => MkRecordBlob (cid_to_string (mb_cid m)) (mb_uri m)) missing in
  mret (MkMissingPage (if len blobs =? limit then rb_cid <$> last blobs else None) blobs).

(* ------------------------------------------------------------------ *)
(** ** Names *)

(** [resolve_handle]. *)
Definition resolve_handle (rules : Rules) (handle : bytes) : Step bytes :=
  handle ← lift _ _ (map_err (fun e => Xrpc.named (lit (invalid_name e)) (Xrpc.invalid_request (invalid_text e)))
    (normalize rules handle));
  did ← ask _ _ (fun s => resolve _ _ s handle);
  lift _ _ (ok_or (Did.str <$> did)
    (let unresolved := Xrpc.invalid_request (lit "Unable to resolve handle") in
     if is_local rules handle then Xrpc.named (lit "HandleNotFound") unresolved else unresolved)).

End SyncMethods.
