(* ===== verification/AccountMethods.v ===== *)
(** * AccountMethods: sessions, app passwords, invites and signing up

    [src/src/server/session.rs], [app_password.rs], [admin.rs] and [signup.rs],
    and what [src/src/server.rs] says of the server itself.  The credentials a
    request carries are what the extractors of [Auth] made of them; what is drawn
    and what the clocks read are arguments. *)

From S2P Require Import Prelude Syntax Crypto Ip Text Config Block Json Mst Repo Storage Blobs Handles Actor Links Plc Accounts Car.
From S2P Require Import Limit Passwords Xrpc Auth Writes Sessions Log Signup Serving Answers Requests.

Local Open Scope Z_scope.

(** [UNRESOLVED]; [Account] and [Session] of [session.rs]. *)
Definition UNRESOLVED : bytes := lit "handle.invalid".
Record ShownAccount := MkShownAccount {
  sh_did : bytes; sh_handle : bytes; sh_email : option bytes; sh_confirmed : bool; sh_active : bool
}.
Record ShownSession := MkShownSession { ss_access : bytes; ss_refresh : bytes; ss_account : ShownAccount }.
Definition shown_account (account : Account) : ShownAccount :=
  MkShownAccount (Did.str (Accounts.did account))
    (match Accounts.handle account with Some handle => Handle.str handle | None => UNRESOLVED end)
    (Some (Accounts.email account)) false true.
Definition shown_session (credentials : Credentials) (account : Account) : ShownSession :=
  MkShownSession (cred_access credentials) (cred_refresh credentials) (shown_account account).

(** [Written] and [Held] of [app_password.rs], and [Held] of [admin.rs]. *)
Record WrittenPassword := MkWrittenPassword { wp_name : bytes; wp_password : bytes; wp_created : bytes; wp_privileged : bool }.
Record HeldPassword := MkHeldPassword { hp_name : bytes; hp_created : bytes; hp_privileged : bool }.
Record HeldCodes := MkHeldCodes { hc_account : bytes; hc_codes : list bytes }.

(** [Create] and [Created] of [signup.rs]: whether a DID or an operation was
    brought is all that is looked at of either. *)
Record Creating := MkCreating {
  c_handle : bytes; c_email : bytes; c_password : bytes; c_invite : option bytes; c_recovery : option bytes;
  c_did : option bytes; c_plc_op : option Value
}.
Record ShownCreated := MkShownCreated { sc_did : bytes; sc_handle : bytes; sc_access : bytes; sc_refresh : bytes }.

(** [DescribeServer]. *)
Record DescribeServer := MkDescribeServer {
  dv_did : bytes; dv_domains : list bytes; dv_invites : bool; dv_blob_limit : Z;
  dv_privacy : option bytes; dv_terms : option bytes; dv_email : option bytes
}.

Section AccountMethods.
Context (p256 k256 : Curve) `{Sha256} `{CidText} `{Base58} `{Base64Url} `{Hmac} `{Password.Scrypt} `{Stamps} `{Worded}.
Context `{Varint} `{CidBytes} `{!JsonCodec Auth.Header} `{!JsonCodec Auth.Claims} `{!Codec Car.Header}.
Context `{!Codec Operation} `{!Codec Tombstone} `{!Codec NodeData} `{!Codec Ipld} `{!Codec Commit} `{!Codec Unsigned}.
Context `{!Codec IdentityBody} `{!Codec AccountBody} `{!Codec AppendBody} `{!Codec SyncBody}.
Abbreviation Step := (Step p256 k256).
Abbreviation Server := (Server p256 k256).

(* ------------------------------------------------------------------ *)
(** ** Sessions *)

(** [missing], and the account a token names. *)
Definition missing : Xrpc.Error := Xrpc.invalid_request (lit "Could not find user info for account").
Definition account_of (did : Did.t) : Step Account :=
  account ← ask _ _ (fun s => Serving.account _ _ s did); lift _ _ (ok_or account missing).

(** [create], [get], [refresh] and [delete]. *)
Definition create_session (tokens : Tokens) (drawn : bytes) (now : Z) (identifier password : bytes) : Step ShownSession :=
  login ← ask _ _ (fun s => check (tables _ _ s) identifier password);
  credentials ← over_tables _ _ (fun d =>
    let '(d, credentials) := open_session tokens drawn now (Accounts.did (login_account login)) (login_app login) d in
    (d, Ok credentials));
  mret (shown_session credentials (login_account login)).
Definition get_session (access : Access) : Step ShownAccount :=
  account ← account_of (access_did access); mret (shown_account account).
Definition refresh_step (tokens : Tokens) (fuel : nat) (moments : nat -> Z) (drawn : nat -> bytes)
    (others : nat -> Accounts -> Accounts) (minted : Z) (id : bytes) : Step (option Credentials) := fun '(s, limits) =>
  match refresh_session tokens fuel id moments drawn others minted (tables _ _ s) with
  | (_, None) => None
  | (d, Some answer) => Some ((with_tables _ _ (fun _ => d) s, limits), answering (in_store answer))
  end.
Definition refresh_method (tokens : Tokens) (fuel : nat) (moments : nat -> Z) (drawn : nat -> bytes)
    (others : nat -> Accounts -> Accounts) (minted : Z) (refresh : Refresh) : Step ShownSession :=
  account ← account_of (refresh_did refresh);
  credentials ← refresh_step tokens fuel moments drawn others minted (refresh_id refresh);
  credentials ← lift _ _ (ok_or credentials (Xrpc.named (lit "ExpiredToken") (Xrpc.invalid_request (lit "Token has been revoked"))));
  mret (shown_session credentials account).
Definition delete_session (refresh : Refresh) : Step unit :=
  _ ← over_tables _ _ (fun d => let '(d, ended) := revoke_session (refresh_id refresh) d in (d, Ok ended)); mret tt.

(* ------------------------------------------------------------------ *)
(** ** App passwords *)

(** [create], [list] and [revoke]. *)
Definition create_password (drawn : bytes) (now : Z) (access : Access) (name : bytes) (privileged : bool) : Step WrittenPassword :=
  written ← over_tables _ _ (Sessions.create_app_password drawn now (access_did access) name privileged);
  mret (MkWrittenPassword (new_name written) (new_password written) (Accounts.stamp (new_created written)) (new_privileged written)).
Definition list_passwords (access : Access) : Step (list HeldPassword) :=
  passwords ← ask _ _ (fun s => in_store (app_passwords (tables _ _ s) (access_did access)));
  mret (map (fun e => MkHeldPassword (Accounts.name (fst e)) (Accounts.stamp (snd e)) (privileged (fst e))) passwords).
Definition revoke_password (access : Access) (name : bytes) : Step unit :=
  _ ← over_tables _ _ (fun d => let '(d, gone) := Accounts.revoke_app_password (access_did access) name d in (d, Ok gone)); mret tt.

(* ------------------------------------------------------------------ *)
(** ** Invites *)

(** [ADMINISTRATOR], [create_invite_code] and [create_invite_codes]; [one] is
    what a count left out asks for. *)
Definition ADMINISTRATOR : bytes := lit "admin".
Definition one : Z := 1.
Definition create_invite_code (hostname : bytes) (drawn : nat -> nat -> bytes) (now : Z) (uses : Z) (for_account : option bytes)
  : Step bytes :=
  minted ← over_tables _ _ (mint_invites hostname drawn now [default ADMINISTRATOR for_account] 1 uses);
  lift _ _ (ok_or (codes ← last minted; last codes)
    (Xrpc.internal (lit "asked for one invite code and was given none"))).
Definition create_invite_codes (hostname : bytes) (drawn : nat -> nat -> bytes) (now : Z) (count : option Z) (uses : Z)
    (for_accounts : option (list bytes)) : Step (list HeldCodes) :=
  let for_accounts := default [ADMINISTRATOR] for_accounts in
  minted ← over_tables _ _ (mint_invites hostname drawn now for_accounts (default one count) uses);
  mret (map (fun e => MkHeldCodes (fst e) (snd e)) (combine for_accounts minted)).

(* ------------------------------------------------------------------ *)
(** ** Signing up *)

(** [create]: what is refused before anything is asked of the account layer. *)
Definition unsupported (field : string) : Xrpc.Error :=
  Xrpc.invalid_request (lit "Unsupported input: " ++ [34] ++ lit field ++ [34]).
Definition read_signup (input : Creating) : result Xrpc.Error (Signup p256 k256) :=
  match c_did input, c_plc_op input with
  | Some _, _ => Err (unsupported "did")
  | None, Some _ => Err (unsupported "plcOp")
  | None, None =>
      recovery ← map_err (fun _ => Xrpc.named (lit "IncompatibleDidDoc") (Xrpc.invalid_request (lit "Invalid recovery key")))
        (transpose (Crypto.parse p256 k256 <$> c_recovery input));
      Ok (MkSignup _ _ (c_handle input) (c_email input) (c_password input) (c_invite input) recovery)
  end.
Definition shown_created (created : Created) : ShownCreated :=
  MkShownCreated (Did.str (cr_did created)) (Handle.str (cr_handle created))
    (cred_access (cr_credentials created)) (cred_refresh (cr_credentials created)).
Definition create_account {W} (exchanges : Operation -> Tombstone -> Exchanges W) (cut : W -> W) (m : Manager p256 k256)
    (v : Drawn p256 k256) (h : option Hangup) (input : Creating) (s : Server) (w : W)
  : Server * W * option (result Xrpc.Error ShownCreated) :=
  match read_signup input with
  | Err e => (s, w, Some (Err e))
  | Ok signup =>
      let '(s, w, answer) := Signup.create _ _ exchanges cut m v signup h s w in
      (s, w, (fun answer => shown_created <$> answering answer) <$> answer)
  end.

(* ------------------------------------------------------------------ *)
(** ** The server itself *)

(** [describe_server]. *)
Definition describe_server (config : Config.Config p256 k256) : DescribeServer :=
  MkDescribeServer (Config.service_did _ _ config) (Config.handle_domains _ _ config) (Config.invite_required _ _ config)
    (Config.blob_upload_limit _ _ config) (Config.privacy_policy_url _ _ config) (Config.terms_of_service_url _ _ config)
    (Config.contact_email _ _ config).

(** [Manager::new] and [Context::open], as far as a signup and the tokens read
    the settings. *)
Definition manager_of (config : Config.Config p256 k256) : Manager p256 k256 :=
  MkManager _ _ (Handles.new (Config.handle_domains _ _ config) (Config.reserved_handles _ _ config))
    (Config.invite_required _ _ config) (Config.public_url _ _ config) (Config.recovery_key _ _ config)
    (Config.plc_rotation_key _ _ config)
    (MkTokens (Config.reveal (Config.jwt_secret _ _ config)) (Config.service_did _ _ config))
    (MkBlobs (Storage.Directory.blobs (Storage.Directory.new [Config.data_directory _ _ config]))).

End AccountMethods.
