(* ===== verification/LogFacts.v ===== *)
(** * LogFacts: a consumer that reads the log can follow a repository

    The log only grows at its end, in the order of its numbers; a consumer that
    reads it page by page from any number on is told everything after it, once
    and in order.  And what it is told of a commit is enough: a copy of the last
    revision that takes the entry's blocks is a copy of the next. *)

From S2P Require Import Prelude Syntax Crypto Block Mst Concrete MstShape MstRead MstStore MstFacts MstWalk Json Car Repo RepoFacts.
From S2P Require Import Storage Blobs Handles Paging Actor Links Plc Writes Accounts Log AccountsFacts.
From Stdlib Require Import Lia.

Local Open Scope Z_scope.

Section Facts.
Context `{Stamps}.

(* ------------------------------------------------------------------ *)
(** ** The log as a sequence *)

(** The logs that come to be: whatever was written, one entry or several at a
    time. *)
Inductive logged : Sequencer -> Prop :=
| logged_none : logged empty_log
| logged_one now did e b s : well_formed did -> logged s -> logged (fst (append now did e b s))
| logged_many now did bodies s : well_formed did -> logged s -> logged (fst (extend now did bodies s)).

Definition numbered (s : Sequencer) : Prop :=
  StronglySorted Z.lt (map row_seq (log s)) /\ Forall (fun r => 0 < row_seq r <= given s) (log s).
Definition readable (r : LogRow) : Prop :=
  invalidated r = 0 /\ (exists x, row_did r = Did.str x /\ well_formed x) /\ exists e, row_event r = event_str e.

Lemma insert_event_spec stamped x e b s s' : 0 <= given s -> well_formed x -> insert_event stamped (Did.str x) e b s = Ok s' ->
  given s < given s' /\ exists r, log s' = log s ++ [r] /\ row_seq r = given s' /\ readable r
    /\ row_did r = Did.str x /\ row_event r = event_str e /\ row_body r = b.
Proof.
  intros Hg Hw; unfold insert_event. destruct (_ =? _); [done|]. intros [= <-]; cbn; split; [lia|].
  eexists; split_and!; [done|done|split_and!; eauto|done|done|done].
Qed.

Lemma numbered_snoc s s' r : numbered s -> given s < given s' -> log s' = log s ++ [r] -> row_seq r = given s' ->
  0 <= given s -> numbered s'.
Proof.
  intros [Hs Hf] Hg E Er Hp; unfold numbered; rewrite E, map_app; cbn [map]. split.
  - apply StronglySorted_app; split_and!; [|done|by repeat constructor].
    intros y z (r' & -> & Hr)%list_elem_of_fmap ->%list_elem_of_singleton.
    rewrite Forall_forall in Hf; specialize (Hf _ Hr); lia.
  - apply Forall_app; split; [eapply Forall_impl; [exact Hf|cbn; lia]|]. constructor; [lia|constructor].
Qed.

(** What several inserts leave: the same rows and new ones after them. *)
Lemma inserts_spec stamped x bodies : well_formed x -> forall s s' ns, 0 <= given s -> numbered s ->
  Forall readable (log s) -> inserts stamped (Did.str x) bodies s = Ok (s', ns) ->
  0 <= given s' /\ numbered s' /\ Forall readable (log s')
  /\ exists rows, log s' = log s ++ rows /\ map row_seq rows = ns
      /\ map (fun r => (row_event r, row_body r)) rows = map (fun e => (event_str (fst e), snd e)) bodies.
Proof.
  intros Hw; induction bodies as [|[e b] bodies IH]; intros s s' ns Hg Hn Hr E; cbn [inserts] in E.
  { injection E as <- <-. split_and!; [done..|]. exists []; by rewrite app_nil_r. }
  apply bind_Ok in E as (s1 & E1 & E). apply bind_Ok in E as ([s2 ns2] & E2 & E). injection E as <- <-.
  apply insert_event_spec in E1 as (Hlt & r & El & Es & Hread & _ & Ee & Eb); [|done|done].
  assert (numbered s1) as Hn1 by (by eapply numbered_snoc).
  assert (Forall readable (log s1)) as Hr1 by (rewrite El; apply Forall_app; split; [done|by constructor]).
  destruct (IH s1 s2 ns2 ltac:(lia) Hn1 Hr1 E2) as (Hg2 & Hn2 & Hr2 & rows & El2 & Ens & Ebs).
  split_and!; [done..|]. exists (r :: rows). rewrite El2, El, <- app_assoc; cbn. by rewrite Es, Ens, Ee, Eb, Ebs.
Qed.

Lemma logged_orderly s : logged s -> 0 <= given s /\ numbered s /\ Forall readable (log s).
Proof.
  induction 1 as [|now x e b s Hw _ (Hg & Hn & Hr)|now x bodies s Hw _ (Hg & Hn & Hr)].
  - split_and!; [done| |constructor]. split; constructor.
  - unfold append. destruct (insert_event _ _ _ _ _) as [s'|er] eqn:E; cbn [fst]; [|by split_and!].
    apply insert_event_spec in E as (Hlt & r & El & Es & Hread & _); [|done|done].
    split_and!; [lia|by eapply numbered_snoc|]. rewrite El; apply Forall_app; split; [done|by constructor].
  - unfold extend. destruct (inserts _ _ _ _) as [[s' ns]|er] eqn:E; cbn [fst]; [|by split_and!].
    by destruct (inserts_spec _ x bodies Hw s s' ns Hg Hn Hr E) as (? & ? & ? & _).
Qed.

(* ------------------------------------------------------------------ *)
(** ** Reading it page by page *)

(** Each page from the last number of the one before, until one is empty. *)
Fixpoint read_log (fuel : nat) (s : Sequencer) (from limit : Z) : result Storage.Error (list Entry) :=
  match fuel with
  | O => Ok []
  | S fuel =>
      page ← since s from limit;
      match last page with
      | None => Ok []
      | Some e => rest ← read_log fuel s (seq e) limit; Ok (page ++ rest)
      end
  end.

(** What a row tells a consumer. *)
Definition tells (r : LogRow) (e : Entry) : Prop :=
  seq e = row_seq r /\ Did.str (entry_did e) = row_did r /\ event_str (event e) = row_event r /\ body e = row_body r.

Definition rows_after (s : Sequencer) (n : Z) : list LogRow := List.filter (fun r => n <? row_seq r) (log s).

(** Rows in the order of their numbers. *)
Definition earlier_row (a b : LogRow) : Prop := row_seq a < row_seq b.

Lemma numbered_rows s : numbered s -> StronglySorted earlier_row (log s).
Proof.
  intros [Hs _]; revert Hs; induction (log s) as [|r l IH]; cbn; [constructor|].
  intros [Hl Hf]%StronglySorted_cons; apply StronglySorted_cons; split; [|by apply IH].
  by apply (List.Forall_map row_seq) in Hl.
Qed.

(** No number is given twice. *)
Lemma numbered_once (l : list LogRow) x y :
  StronglySorted earlier_row l -> x ∈ l -> y ∈ l -> row_seq x = row_seq y -> x = y.
Proof.
  unfold earlier_row; induction 1 as [|z l Hs IH Hf]; [by intros ?%not_elem_of_nil|].
  rewrite Forall_forall in Hf. rewrite !elem_of_cons.
  intros [->|Hx] [->|Hy] Heq; [done|specialize (Hf _ Hy); lia|specialize (Hf _ Hx); lia|by apply IH].
Qed.

Lemma sorted_same (l : list LogRow) : StronglySorted earlier_row l -> merge_sort in_order l = l.
Proof.
  intros Hs. apply (StronglySorted_unique_strong in_order).
  - intros x y Hx Hy Hxy Hyx. rewrite merge_sort_Permutation in Hx.
    apply (numbered_once l); [done..|]. unfold in_order in *; lia.
  - apply StronglySorted_merge_sort; intros ?; unfold in_order; [lia|intros; lia].
  - clear -Hs; induction Hs as [|x l Hl IH Hf]; constructor; [done|].
    eapply Forall_impl; [exact Hf|]. intros y; unfold earlier_row, in_order; lia.
  - by rewrite merge_sort_Permutation.
Qed.

Lemma since_rows s n limit : numbered s -> Forall readable (log s) ->
  since_query s n limit = take (Z.to_nat limit) (rows_after s n).
Proof.
  intros Hs Hr; unfold since_query; f_equal.
  assert (List.filter (fun r => (n <? row_seq r) && (invalidated r =? 0)) (log s) = rows_after s n) as ->.
  { unfold rows_after; apply List.filter_ext_in. intros r Hin%list_elem_of_In. rewrite Forall_forall in Hr.
    destruct (Hr _ Hin) as [-> _]. by rewrite andb_true_r. }
  by apply sorted_same, filter_StronglySorted, numbered_rows.
Qed.

(** Reading a page is reading its rows. *)
Lemma read_rows_told rows : Forall readable rows ->
  exists entries, collect (map read_entry rows) = Ok entries /\ Forall2 tells rows entries.
Proof.
  induction 1 as [|r rows (_ & (x & Ex & Hx) & ev & Ee) _ IH]; [by exists []|].
  destruct IH as (entries & E & Hf). cbn [map collect]. unfold read_entry at 1.
  rewrite Ex, (from_str_well_formed x Hx : from_str (Did.str x) = Ok x); cbn [map_err mbind result_bind].
  assert (event_parse (row_event r) = Some ev) as -> by (rewrite Ee; by destruct ev).
  cbn [ok_or mbind result_bind]. rewrite E; cbn [mbind result_bind].
  eexists; split; [done|]. constructor; [|done]. split_and!; cbn; congruence.
Qed.

(** After the last row of a page come the rows the page left. *)
Lemma rows_resume s n (k : nat) r : numbered s -> last (take k (rows_after s n)) = Some r ->
  rows_after s (row_seq r) = drop k (rows_after s n).
Proof.
  intros Hn Hl. assert (StronglySorted earlier_row (rows_after s n)) as Hs
    by (by apply filter_StronglySorted, numbered_rows).
  apply last_Some in Hl as [l1 El]. pose proof (take_drop k (rows_after s n)) as Et. rewrite El in Et.
  rewrite <- Et in Hs. apply StronglySorted_app in Hs as (H12 & H1 & H2).
  apply StronglySorted_app in H1 as (H1r & _ & _).
  assert (n < row_seq r) as Hnr.
  { assert (r ∈ rows_after s n) as Hin by (rewrite <- Et; set_solver).
    apply list_elem_of_In, filter_In in Hin as [_ Hlt]. lia. }
  assert (rows_after s (row_seq r) = List.filter (fun x => row_seq r <? row_seq x) (rows_after s n)) as ->.
  { unfold rows_after; clear -Hnr. induction (log s) as [|x l IH]; cbn; [done|].
    destruct (Z.ltb_spec n (row_seq x)); cbn; [|destruct (Z.ltb_spec (row_seq r) (row_seq x)); [lia|done]].
    destruct (row_seq r <? row_seq x); by rewrite IH. }
  rewrite <- Et at 1. rewrite List.filter_app, filter_none, filter_all; [done| |].
  - apply Forall_forall; intros y Hy. apply Z.ltb_lt, (H12 r y); [set_solver|done].
  - apply Forall_forall; intros y [Hy| ->%list_elem_of_singleton]%elem_of_app; apply Z.ltb_ge; [|lia].
    pose proof (H1r y r Hy ltac:(by left)) as Hr; unfold earlier_row in Hr; lia.
Qed.

Lemma read_log_rows s limit : numbered s -> Forall readable (log s) -> 0 < limit -> forall fuel n,
  (length (rows_after s n) < fuel)%nat ->
  exists entries, read_log fuel s n limit = Ok entries /\ Forall2 tells (rows_after s n) entries.
Proof.
  intros Hn Hr Hl; induction fuel as [|fuel IH]; intros n Hf; [lia|]; cbn [read_log].
  unfold since; rewrite since_rows by done.
  assert (Forall readable (rows_after s n)) as Hra.
  { apply Forall_forall; intros x Hx%list_elem_of_In; apply filter_In in Hx as [Hx%list_elem_of_In _].
    rewrite Forall_forall in Hr; by apply Hr. }
  destruct (read_rows_told (take (Z.to_nat limit) (rows_after s n))) as (page & -> & Hp); [by apply Forall_take|].
  cbn [mbind result_bind]. destruct (last page) as [e|] eqn:El.
  - assert (exists r, last (take (Z.to_nat limit) (rows_after s n)) = Some r /\ tells r e) as (r & Hlr & Ht).
    { apply last_Some in El as [p ->]. apply Forall2_app_inv_r in Hp as (l1 & l2 & _ & H2 & ->).
      apply Forall2_cons_inv_r in H2 as (r & l3 & Ht & Hn3 & ->). apply Forall2_nil_inv_r in Hn3 as ->.
      exists r; split; [by rewrite last_snoc|done]. }
    destruct Ht as (-> & _). pose proof (rows_resume s n _ r Hn Hlr) as Er.
    destruct (IH (row_seq r)) as (rest & -> & Hrest).
    { rewrite Er, length_drop. destruct (rows_after s n); [by rewrite take_nil in Hlr|cbn in *; lia]. }
    cbn [mbind result_bind]. eexists; split; [done|]. rewrite <- (take_drop (Z.to_nat limit) (rows_after s n)).
    apply Forall2_app; [done|]. by rewrite <- Er.
  - apply last_None in El as ->. apply Forall2_nil_inv_r in Hp. exists []; split; [done|].
    destruct (rows_after s n); [constructor|]. destruct (Z.to_nat limit) eqn:E; [lia|done].
Qed.

Lemma tells_seqs rows entries : Forall2 tells rows entries -> map row_seq rows = map seq entries.
Proof. induction 1 as [|r e rows entries (He & _) _ IH]; cbn; congruence. Qed.

Lemma rows_sorted rows : StronglySorted earlier_row rows -> StronglySorted Z.lt (map row_seq rows).
Proof.
  induction 1 as [|r rows Hs IH Hf]; cbn; [constructor|]. constructor; [done|]. by apply List.Forall_map.
Qed.

Lemma extend_adds now x bodies s s' ns : logged s -> well_formed x -> extend now x bodies s = (s', Ok ns) ->
  exists rows, log s' = log s ++ rows /\ map row_seq rows = ns
    /\ map (fun r => (row_event r, row_body r)) rows = map (fun e => (event_str (fst e), snd e)) bodies.
Proof.
  intros (Hg & Hn & Hr)%logged_orderly Hw; unfold extend.
  destruct (inserts _ _ _ _) as [[s1 n1]|er] eqn:E; [|done]. intros [= -> ->].
  by destruct (inserts_spec _ x bodies Hw s s' ns Hg Hn Hr E) as (_ & _ & _ & ?).
Qed.

(** C24 (liveness). A consumer gets everything, once, in order. From any number
    on, reading page by page ends with one empty page, never meets a row it
    cannot read, and tells every row after that number exactly once, with its
    own account, event and body, in the order of the numbers. What is logged
    meanwhile comes after everything there was: several entries are added at
    the end together, as given and under new numbers, or none is. *)
Theorem a_consumer_reads_the_log_once fuel s n limit :
  logged s -> 0 < limit -> (length (log s) < fuel)%nat ->
  (exists entries, read_log fuel s n limit = Ok entries
    /\ Forall2 tells (rows_after s n) entries
    /\ StronglySorted Z.lt (map seq entries) /\ Forall (fun k => n < k) (map seq entries))
  /\ forall now x bodies, well_formed x ->
       match extend now x bodies s with
       | (s', Err _) => s' = s
       | (s', Ok ns) =>
           logged s' /\ Forall (fun k => Forall (fun r => row_seq r < k) (log s)) ns
           /\ exists rows, log s' = log s ++ rows /\ map row_seq rows = ns
                /\ map (fun r => (row_event r, row_body r)) rows = map (fun e => (event_str (fst e), snd e)) bodies
       end.
Proof.
  intros Hs Hl Hf; pose proof (logged_orderly s Hs) as (Hg & Hn & Hr); split.
  - destruct (read_log_rows s limit Hn Hr Hl fuel n) as (entries & E & Ht).
    { unfold rows_after. pose proof (filter_length_le (fun r => n <? row_seq r) (log s)); lia. }
    exists entries; split_and!; [done|done| |].
    + rewrite <- (tells_seqs _ _ Ht). apply rows_sorted.
      by apply filter_StronglySorted, numbered_rows.
    + rewrite <- (tells_seqs _ _ Ht). apply List.Forall_map, Forall_forall; intros r Hin%list_elem_of_In.
      apply filter_In in Hin as [_ Hlt]; lia.
  - intros now x bodies Hw. destruct (extend now x bodies s) as [s' [ns|e]] eqn:E.
    + pose proof (logged_many now x bodies s Hw Hs) as Hs'. rewrite E in Hs'; cbn in Hs'.
      destruct (extend_adds now x bodies s s' ns Hs Hw E) as (rows & El & En & Eb).
      split_and!; [done| |by exists rows]. pose proof (logged_orderly s' Hs') as (_ & Hn' & _).
      apply numbered_rows in Hn'; rewrite El in Hn'; apply StronglySorted_app in Hn' as (Hlt & _ & _).
      rewrite <- En. apply List.Forall_map, Forall_forall; intros r Hin. apply Forall_forall; intros r0 Hin0.
      by apply Hlt.
    + unfold extend in E. destruct (inserts _ _ _ _) as [[s1 n1]|er]; [done|congruence].
Qed.

End Facts.

(* ------------------------------------------------------------------ *)
(** ** What a log entry carries *)

Section Followed.
Context (p256 k256 : Curve) `{!CurveOk p256, !CurveOk k256}.
Context `{Stamps} `{Sha256} `{!Sha256Ok} `{!Codec NodeData} `{!CodecOk NodeData} `{!Codec Ipld}.
Context `{!Codec Commit, !CodecOk Commit, !Codec Unsigned, !CodecOk Unsigned}.
Context `{!Varint} `{!VarintOk} `{!CidBytes} `{!CidBytesOk} `{!Codec Header} `{!CodecOk Header}.
Context `{!Codec AppendBody} `{!CodecOk AppendBody}.

Lemma addressed_sound blocks : addressed blocks -> sound blocks.
Proof.
  intros Ha c b Hc; rewrite (Ha c b Hc). unfold hashes_to, Block.cid_for; cbn. by rewrite !bool_decide_true.
Qed.

(** What is logged of a commit, whatever landed it. *)
Definition logs_it (landed : Landed) (did : Did.t) (s s' : Sequencer) : Prop :=
  exists row entry, s' = MkSequencer (log s ++ [row]) (given s + 1)
    /\ row_seq row = given s + 1 /\ row_did row = Did.str did /\ event_parse (row_event row) = Some Append
    /\ decode (row_body row) = Ok entry
    /\ ap_repo entry = did /\ ap_commit entry = Actor.cid (landed_root landed) /\ ap_rev entry = Actor.rev (landed_root landed)
    /\ ap_since entry = Some (landed_since landed) /\ ap_prev_data entry = Some (prev_data landed)
    /\ ap_ops entry = landed_ops landed
    /\ Car.read (ap_blocks entry) = Some (Ok (ap_commit entry, landed_blocks landed)).

Lemma log_commit_logs now did landed s :
  addressed (landed_blocks landed) -> is_Some (landed_blocks landed !! Actor.cid (landed_root landed)) ->
  (forall c b, landed_blocks landed !! c = Some b -> writable c b) ->
  len (dag_cbor (MkHeader 1 [Actor.cid (landed_root landed)])) <= U64_MAX -> given s < Actor.I64_MAX ->
  exists s', log_commit now did landed s = (s', Ok tt) /\ logs_it landed did s s'.
Proof.
  intros Had Hin Hwr Hh Hg.
  destruct (read_rooted [Actor.cid (landed_root landed)] (landed_blocks landed) (addressed_sound _ Had) Hwr Hh) as (car & Ec & Er).
  unfold log_commit, records_written. cbn [of_commit of_did of_rev of_since of_prev_data of_ops].
  unfold Car.write; rewrite Ec; cbn [mbind result_bind]. rewrite encode_ok; cbn [mbind result_bind body_event body_bytes].
  unfold append, insert_event. destruct (Z.eqb_spec (given s) Actor.I64_MAX) as [?|_]; [lia|].
  eexists; split; [reflexivity|]. eexists _, _; split; [reflexivity|].
  cbn [row_seq row_did row_event row_body]. rewrite decode_ok. split_and!; try reflexivity; cbn.
  unfold Car.read; rewrite Er. cbn. by rewrite bool_decide_true.
Qed.

Context (fuel : nat) (st st0 : Store) (R : Repo) (ws : list Write) (l l' : list Leaf) (g g' : MstFacts.records).
Context (Hok : StoreOk st) (Htree : tree st (r_data R) l) (Hlists : lists l g).
Context (Hspec : spec_batch g ws = Ok g') (Hsome : never_refills g ws = true).
Context (Hlists' : lists l' g') (Hsorted : sorted l') (Hco : Coexist st st0 l l').
Context (Hfuel : (length (reached (top l) l) + length (reached (top l') l') < fuel)%nat).
Context (kp : Keypair p256 k256) (clock : Tid.Clock) (micros : option Z).

(** C20 (roundtrip). The log is enough to follow a repository by. The revision a
    batch lands, one that does not go on writing once it has taken the last record
    out ([RepoFacts.never_refills]), is logged as one entry at the end of the log, under the next
    number; its body decodes to the commit's CID and revision, the revision and
    tree it came after and the changes in the batch; and its blocks read as a
    CAR file to exactly the blocks handed over, so that a copy of the last
    revision that takes them loads that commit with that commit's records. *)
Theorem a_log_entry_carries_the_revision R' clock' (landed : Landed) gone now did s :
  Repo.apply p256 k256 fuel R st ws kp clock micros = Some (R', clock', Ok (landed_blocks landed, gone)) ->
  landed_root landed = MkRoot (Repo.r_cid R') (Repo.rev R') ->
  Repo.r_cid R' ∉ reached (top l') l' ->
  (forall c b, landed_blocks landed !! c = Some b -> writable c b) ->
  len (dag_cbor (MkHeader 1 [Repo.r_cid R'])) <= U64_MAX ->
  given s < Actor.I64_MAX ->
  (exists s', log_commit now did landed s = (s', Ok tt) /\ logs_it landed did s s')
  /\ forall copy, extends st copy -> within (landed_blocks landed) copy ->
       exists R2, load copy (Repo.r_cid R') = Ok R2 /\ r_commit R2 = r_commit R' /\ tree copy (r_data R2) l'.
Proof.
  intros Ha Hroot Hfresh Hwr Hh Hg.
  destruct (revision_loads p256 k256 fuel st st0 R ws l l' g g' Hok Htree Hlists Hspec Hsome Hlists' Hsorted Hco Hfuel
    kp clock micros R' clock' (landed_blocks landed) gone Ha Hfresh) as (Had & Hin & Hload).
  split; [apply log_commit_logs; by rewrite ?Hroot|].
  intros copy Hext Hw. destruct (Hload copy Hext Hw) as (_ & R2 & E2 & _ & ? & ?). by exists R2.
Qed.

End Followed.

(* ------------------------------------------------------------------ *)
(** ** At a concrete log *)

#[export] Instance Action_eq_dec : EqDecision Action.
Proof. solve_decision. Defined.
#[export] Instance Action_countable : Countable Action.
Proof.
  apply (inj_countable' (fun a => match a with ActCreate => 0 | ActUpdate => 1 | ActDelete => 2 end)
    (fun n => if n =? 0 then ActCreate else if n =? 1 then ActUpdate else ActDelete)); by intros [].
Defined.
#[export] Instance Op_eq_dec : EqDecision Op.
Proof. solve_decision. Defined.
#[export] Instance Op_countable : Countable Op.
Proof.
  apply (inj_countable' (fun o => (action o, op_path o, op_cid o, op_prev o)) (fun '(a, p, c, v) => MkOp a p c v)); by intros [].
Defined.
#[export] Instance AppendBody_eq_dec : EqDecision AppendBody.
Proof. solve_decision. Defined.
#[export] Instance AppendBody_countable : Countable AppendBody.
Proof.
  apply (inj_countable'
    (fun b => (Did.str (ap_repo b), ap_commit b, Tid.str (ap_rev b), Tid.str <$> ap_since b, ap_blocks b, ap_ops b,
      (ap_prev_data b, rebase b, too_big b, ap_blobs b)))
    (fun '(r, c, v, n, b, o, (d, e, t, l)) => MkAppend (Did.mk r) c (Tid.mk v) (Tid.mk <$> n) b o d e t l)).
  by intros [[] ? [] [[]|] ? ? ? ? ? ?].
Defined.

Module Sample.

#[export] Existing Instances AccountsFacts.Sample.plain_stamps Car.Sample.varint Car.Sample.varint_ok
  Car.Sample.cid_bytes Car.Sample.cid_bytes_ok Car.Sample.Header_countable.

Definition did : Did.t := RepoFacts.Sample.did.

(** A log of three entries, two of them added together. *)
Definition three : Sequencer :=
  fst (extend 8 did [(Sync, lit "b"); (Identity, lit "c")] (fst (append 7 did Append (lit "a") empty_log))).
Lemma three_logged : logged three.
Proof. repeat constructor; vm_compute; reflexivity. Qed.

#[export] Existing Instances Concrete.Mix.mixed Concrete.Mix.mixed_ok Concrete.Coded.codec Concrete.Coded.codec_ok
  Crypto.Toy.curve_ok.
Import RepoFacts.Sample.

(** A batch whose blocks all fit a CAR file. *)
Definition fits (o : option (Repo * Tid.Clock * result RepoError (BlockMap.t * list Cid))) : bool :=
  match o with
  | Some (R', _, Ok (blocks, _)) =>
      bool_decide (Repo.r_cid R' ∉ reached (top [RepoFacts.Sample.leaf]) [RepoFacts.Sample.leaf])
      && forallb (fun e => len (cid_to_bytes (fst e)) + len (snd e) <=? U64_MAX) (BlockMap.iter blocks)
  | _ => false
  end.

Lemma landing : exists R' clock' blocks gone,
  Repo.apply Toy.curve Toy.curve fuel repo store ws Toy.keypair clock since = Some (R', clock', Ok (blocks, gone))
  /\ Repo.r_cid R' ∉ reached (top [leaf]) [leaf]
  /\ forall c b, blocks !! c = Some b -> writable c b.
Proof.
  assert (fits (Repo.apply Toy.curve Toy.curve fuel repo store ws Toy.keypair clock since) = true) as Hf
    by (vm_compute; reflexivity).
  destruct (Repo.apply _ _ _ _ _ _ _ _ _) as [[[R' clock'] [[blocks gone]|]]|]; [|done..].
  apply andb_true_iff in Hf as [Hn%bool_decide_eq_true Hb]. exists R', clock', blocks, gone; split_and!; [done..|].
  intros c b Hc. rewrite forallb_forall in Hb. unfold writable.
  apply iter_elem, list_elem_of_In, Hb in Hc. by apply Z.leb_le in Hc.
Qed.

(** What is logged of it. *)
Definition landed_as (R' : Repo) (blocks : BlockMap.t) : Landed :=
  MkLanded (MkWritten [] (Repo.r_cid R') (Repo.rev R')) (MkRoot (Repo.r_cid R') (Repo.rev R')) blocks []
    (c_rev (r_commit repo)) (c_data (r_commit repo)) (MkCommitted [] []).

End Sample.

#[local] Existing Instances Concrete.Mix.mixed Concrete.Mix.mixed_ok Concrete.Coded.codec Concrete.Coded.codec_ok
  Crypto.Toy.curve_ok RepoFacts.Sample.unsigned_codec RepoFacts.Sample.unsigned_codec_ok RepoFacts.Sample.commit_codec
  RepoFacts.Sample.commit_codec_ok AccountsFacts.Sample.plain_stamps Car.Sample.varint Car.Sample.varint_ok
  Car.Sample.cid_bytes Car.Sample.cid_bytes_ok Car.Sample.Header_countable.

Lemma a_consumer_reads_the_log_once_witness :
  (exists entries, read_log 4 Sample.three 1 1 = Ok entries
    /\ Forall2 tells (rows_after Sample.three 1) entries
    /\ StronglySorted Z.lt (map seq entries) /\ Forall (fun k => 1 < k) (map seq entries))
  /\ forall now x bodies, well_formed x ->
       match extend now x bodies Sample.three with
       | (s', Err _) => s' = Sample.three
       | (s', Ok ns) =>
           logged s' /\ Forall (fun k => Forall (fun r => row_seq r < k) (log Sample.three)) ns
           /\ exists rows, log s' = log Sample.three ++ rows /\ map row_seq rows = ns
                /\ map (fun r => (row_event r, row_body r)) rows = map (fun e => (event_str (fst e), snd e)) bodies
       end.
Proof.
  apply (a_consumer_reads_the_log_once 4 Sample.three 1 1 Sample.three_logged); [lia|vm_compute; lia].
Defined.

Lemma a_log_entry_carries_the_revision_witness : exists (R' : Repo) (blocks : BlockMap.t),
  (exists s', log_commit 9 Sample.did (Sample.landed_as R' blocks) Sample.three = (s', Ok tt)
     /\ logs_it (Sample.landed_as R' blocks) Sample.did Sample.three s')
  /\ forall copy, extends RepoFacts.Sample.store copy -> within blocks copy ->
       exists R2, load copy (Repo.r_cid R') = Ok R2 /\ r_commit R2 = r_commit R'
         /\ tree copy (r_data R2) [RepoFacts.Sample.leaf].
Proof.
  destruct Sample.landing as (R' & clock' & blocks & gone & E & Hn & Hw); exists R', blocks.
  apply (a_log_entry_carries_the_revision Toy.curve Toy.curve RepoFacts.Sample.fuel RepoFacts.Sample.store
    RepoFacts.Sample.both RepoFacts.Sample.repo RepoFacts.Sample.ws [] [RepoFacts.Sample.leaf] ∅ RepoFacts.Sample.g' _
    (proj1 RepoFacts.Sample.empty_repo) (proj2 RepoFacts.Sample.empty_repo) (proj1 RepoFacts.Sample.accepted)
    (proj2 RepoFacts.Sample.accepted) (proj1 RepoFacts.Sample.one_leaf) (proj2 RepoFacts.Sample.one_leaf)
    RepoFacts.Sample.coexist RepoFacts.Sample.enough Toy.keypair RepoFacts.Sample.clock RepoFacts.Sample.since
    R' clock' (Sample.landed_as R' blocks) gone 9 Sample.did Sample.three E eq_refl Hn Hw); vm_compute; [discriminate|reflexivity].
Defined.
