(* ===== verification/WritesFacts.v ===== *)
(** * WritesFacts: the index, the store and the repository stay in step

    Three things hold an account's records: the tree its commit signs, the
    blocks in its database and the index every query reads.  [in_step] says they
    say the same, and that the database holds this revision and nothing else.
    [Writes.commit_writes] composes the plan, [Repo.apply] and [Actor.commit];
    it keeps them so. *)

From S2P Require Import Prelude Syntax Crypto Block Mst MstShape MstRead MstStore MstWrite MstFacts MstDiff MstWalk Json.
From S2P Require Import Repo RepoFacts Storage Blobs Handles Actor ActorFacts Links Plc Writes Concrete.
From Stdlib Require Import Lia.

(** A node that is not a record is in a revision's blocks once. *)
Lemma once_node (A B : list Cid) v : NoDup A -> v ∉ B -> once v (A ++ B).
Proof.
  intros Hnd Hn R1 E Hr. assert (v ∈ A) as Ha.
  { assert (v ∈ A ++ B) as Hab by (rewrite E; left). apply elem_of_app in Hab as [?|?]; done. }
  apply list_elem_of_split in Ha as (A1 & A2 & ->).
  assert (v ∉ A1 ++ A2) as Hn2.
  { rewrite (Permutation_app_comm A1) in Hnd; cbn in Hnd; rewrite (Permutation_app_comm A2) in Hnd.
    by apply NoDup_cons in Hnd as [? _]. }
  assert ((A1 ++ A2) ++ B ≡ₚ R1) as E2.
  { apply (Permutation_cons_inv (a := v)); rewrite <- E. solve_Permutation. }
  rewrite <- E2 in Hr. set_solver.
Qed.

Lemma lists_at l g x : sorted l -> lists l g -> x ∈ l -> g !! Mst.key x = Some (value x).
Proof.
  intros Hs Hl Hx; rewrite Hl. apply list_elem_of_split in Hx as (l1 & l2 & ->). destruct x as [k v].
  apply find_leaf_at. apply StronglySorted_app in Hs as (Hs & _ & _).
  apply Forall_forall; intros y Hy; apply (Hs y (MkLeaf k v)); [done|left].
Qed.

(** A store with none of a tree's nodes has nothing under them to lack. *)
Lemma closed_under_nothing `{Sha256} `{!Codec NodeData} `{!CodecOk NodeData} st n : forall l,
  Forall (fun v => store_contains st v <> Ok true) (tree_cids n l) -> closed_under st n l.
Proof.
  induction n as [|n IH]; intros l Hl; cbn [closed_under tree_cids] in Hl |- *; apply Forall_cons in Hl as [Hh Hl]; (split; [done|]); [done|].
  apply Forall_forall; intros s Hs. destruct s as [|x s]; [by left|right]. apply IH.
  apply Forall_forall; intros v Hv. rewrite Forall_forall in Hl; apply Hl, list_elem_of_In, in_concat.
  eexists; split; [|by apply list_elem_of_In].
  apply list_elem_of_In in Hs. exact (in_map (fun s => match s with [] => [] | _ => tree_cids n s end) _ _ Hs).
Qed.

Section Facts.
Context (p256 k256 : Curve) `{!CurveOk p256, !CurveOk k256}.
Context `{Sha256} `{!Sha256Ok} `{CidText} `{!CidTextOk}.
Context `{!Codec NodeData} `{!CodecOk NodeData} `{!Codec Ipld}.
Context `{!Codec Commit, !CodecOk Commit, !Codec Unsigned, !CodecOk Unsigned}.
Context (blobs : Blobs) (did : Did.t).

(* ------------------------------------------------------------------ *)
(** ** The index and the records *)

(** An address is this account's prefix and the record's path. *)
Definition base : bytes := lit "at://" ++ Did.str did ++ lit "/".

Lemma uri_path c k : uri did c k = base ++ Repo.path c k.
Proof. unfold uri, prefix, base, Repo.path. by rewrite <- !app_assoc. Qed.

(** The index has a row for every record, at its address and with its CID, and
    no other row. *)
Definition indexes_records (m : gmap bytes RecordRow) (g : MstFacts.records) : Prop :=
  forall u, rec_cid <$> m !! u = (k ← strip_prefix base u; cid_to_string <$> g !! k).

Lemma indexed_put m g c k row v :
  indexes_records m g -> rec_cid row = cid_to_string v ->
  indexes_records (<[uri did c k := row]> m) (<[Repo.path c k := v]> g).
Proof.
  intros Hm Hr u; rewrite uri_path; destruct (decide (base ++ Repo.path c k = u)) as [<-|Hne].
  - rewrite strip_prefix_app; cbn [mbind option_bind]. by rewrite !lookup_insert_eq; cbn; rewrite Hr.
  - rewrite lookup_insert_ne, Hm by done. destruct (strip_prefix base u) as [k'|] eqn:E; cbn [mbind option_bind]; [|done].
    apply strip_prefix_Some in E as ->. rewrite lookup_insert_ne; [done|congruence].
Qed.

Lemma indexed_delete m g c k :
  indexes_records m g -> indexes_records (base.delete (uri did c k) m) (base.delete (Repo.path c k) g).
Proof.
  intros Hm u; rewrite uri_path; destruct (decide (base ++ Repo.path c k = u)) as [<-|Hne].
  - rewrite strip_prefix_app; cbn [mbind option_bind]. by rewrite !lookup_delete_eq.
  - rewrite lookup_delete_ne, Hm by done. destruct (strip_prefix base u) as [k'|] eqn:E; cbn [mbind option_bind]; [|done].
    apply strip_prefix_Some in E as ->. rewrite lookup_delete_ne; [done|congruence].
Qed.

(** What the index is told of a write is what the write does. *)
Definition carries (w : Write) (i : Indexed) : Prop :=
  match i with
  | Put c k v _ _ => target w = (c, k) /\ exists r b, Repo.record w = Some r /\ encode r = Ok b /\ v = Block.cid_for b
  | Delete c k => w = WDelete c k
  end.

(** A write that leaves a record leaves it at its key. *)
Lemma spec_write_puts g w g' r b : Repo.record w = Some r -> encode r = Ok b -> spec_write g w = Ok g' ->
  g' = <[key w := Block.cid_for b]> g.
Proof.
  intros Er Eb Hs; unfold spec_write in Hs. destruct w; cbn in Er; simplify_eq; cbn [op_of] in Hs; rewrite Eb in Hs; cbn [mbind result_bind] in Hs.
  - eapply spec_step_put; [by left|exact Hs].
  - eapply spec_step_put; [by right|exact Hs].
  - unfold key; cbn [target]. destruct (g !! Repo.path collection rkey); (eapply spec_step_put; [|exact Hs]); auto.
Qed.

Lemma carries_step root stamp m g w i g' :
  carries w i -> spec_write g w = Ok g' -> indexes_records m g ->
  indexes_records (index_row did stamp root m i) g'.
Proof.
  intros Hc Hs Hm; destruct i as [c k v links named|c k]; cbn [carries] in Hc.
  - destruct Hc as (Et & r & b & Er & Eb & ->).
    rewrite (spec_write_puts g w g' r b Er Eb Hs). unfold key; rewrite Et.
    cbn [index_row]; destruct (m !! uri did c k); by apply indexed_put.
  - subst w; unfold spec_write in Hs; cbn [op_of mbind result_bind spec_step] in Hs. cbn [index_row].
    repeat (case_match; try done). injection Hs as <-. by apply indexed_delete.
Qed.

Lemma carries_all root stamp ws is_ : Forall2 carries ws is_ -> forall m g g',
  spec_writes g ws = Ok g' -> indexes_records m g -> indexes_records (index_rows did stamp root is_ m) g'.
Proof.
  induction 1 as [|w i ws is_ Hc _ IH]; intros m g g' Hs Hm; cbn [spec_writes] in Hs; [by injection Hs as <-|].
  apply bind_Ok in Hs as (g1 & Hw & Hs). eapply (IH _ _ _ Hs). by eapply carries_step.
Qed.

(* ------------------------------------------------------------------ *)
(** ** The plan *)

Section Planned.
Context (d : Db) (st : Store) (l : list Leaf) (R0 : Repo).

(** Planning reads: the repository stays the one it was, its tree filled in,
    and every write has its line for the index. *)
Definition planning (e : Repo * Plan) : Prop :=
  (exists m, fst e = filled R0 m /\ tree st m l) /\ Forall2 carries (writes (snd e)) (Writes.index (snd e)).

Lemma planned_get R acc c k R1 found :
  planning (R, acc) -> in_repo (Repo.get R st c k) = Ok (R1, found) ->
  planning (R1, acc) /\ found = find_leaf (Repo.path c k) l.
Proof.
  intros [(m & E & Ht) Hc]; cbn [fst] in E; subst R; unfold Repo.get; cbn [r_data filled].
  destruct (holds_get st (top l) m l (Repo.path c k) Ht) as (m' & -> & Ht'); cbn. intros [= <- <-].
  split; [|done]. split; [|done]. by exists m'.
Qed.

Lemma take_out_planned c held : forall R acc e,
  planning (R, acc) -> Writes.take_out R st c held acc = Ok e -> planning e.
Proof.
  induction held as [|k held IH]; intros R acc e Hp E; cbn [Writes.take_out] in E; [by injection E as <-|].
  apply bind_Ok in E as ([R1 prev] & Eg & E). destruct (planned_get _ _ _ _ _ _ Hp Eg) as [[Hm Hc] _].
  eapply IH; [|exact E]. split; [exact Hm|]. by apply Forall2_app; [|repeat constructor].
Qed.

Lemma supersede_planned c links : forall R acc e,
  planning (R, acc) -> supersede d R st c links acc = Ok e -> planning e.
Proof.
  induction links as [|k links IH]; intros R acc e Hp E; cbn [supersede] in E; [by injection E as <-|].
  apply bind_Ok in E as (held & _ & E). apply bind_Ok in E as ([R1 acc1] & Et & E).
  eapply IH; [|exact E]. by eapply take_out_planned.
Qed.

Lemma plan_one_planned asked R acc e :
  planning (R, acc) -> plan_one did d R st asked acc = Ok e -> planning e.
Proof.
  intros Hp E; unfold plan_one in E; destruct (target (write asked)) as [c k] eqn:Et.
  apply bind_Ok in E as ([R1 prev] & Eg & E). destruct (planned_get _ _ _ _ _ _ Hp Eg) as [Hp1 _].
  assert (forall named act v, outcome (write asked) prev = Ok (act, v) -> forall R acc, planning (R, acc) ->
    planning (R, MkPlan (writes acc ++ [write asked])
      (Writes.index acc ++ [match v with Some v => Put c k v
        match Repo.record (write asked) with Some r => Backlink.of_ r | None => [] end named | None => Delete c k end])
      (ops acc ++ [MkOp act (key (write asked)) v prev])
      (plan_results acc ++ [MkApplied (lit "at://" ++ Did.str did ++ lit "/" ++ key (write asked)) v]))) as Hadd.
  { intros named act v Eo R2 acc2 [Hm Hc]; split; [exact Hm|]. apply Forall2_app; [exact Hc|]. constructor; [|constructor].
    destruct (write asked) as [? ? r|? ? r|? ? r|? ?]; cbn in Et, Eo; injection Et as -> ->.
    1-3: apply bind_Ok in Eo as (v' & Ev & [= <- <-]); apply bind_Ok in Ev as (b & Eb%map_err_Ok & [= <-]);
      cbn; split; [done|]; by exists r, b.
    injection Eo as <- <-; done. }
  destruct prev as [prev|], (missing asked); try (by injection E as <-);
    (destruct (negb _); [done|]); apply bind_Ok in E as ([R2 acc2] & Es & E);
    apply bind_Ok in E as (named & _ & E); apply bind_Ok in E as ([act v] & Eo & [= <-]);
    apply Hadd; (try done);
    (destruct (conflicts asked); [by injection Es as <- <-|]);
    unfold superseded in Es; repeat case_match; simplify_eq; by (done || (eapply supersede_planned; eauto)).
Qed.

Lemma plan_all_planned requested : forall R acc e,
  planning (R, acc) -> plan_all did d R st requested acc = Ok e -> planning e.
Proof.
  induction requested as [|asked requested IH]; intros R acc e Hp E; cbn [plan_all] in E; [by injection E as <-|].
  apply bind_Ok in E as ([R1 acc1] & Ep & E). eapply IH; [|exact E]. by eapply plan_one_planned.
Qed.

Lemma plan_planned requested e :
  (exists m, R0 = filled R0 m /\ tree st m l) -> plan did d R0 st requested = Ok e -> planning e.
Proof. intros Hm; apply plan_all_planned. split; [exact Hm|constructor]. Qed.

End Planned.

(* ------------------------------------------------------------------ *)
(** ** In step *)

(** A commit's own CID. *)
Definition head (c : Commit) : Cid := Block.cid_for (dag_cbor c).

(** A database in step with a commit [c] over the leaves [l] of the records [g]:
    its root is that commit, its index those records, and its blocks are the
    commit, the tree's nodes and the records, each under its own CID, and no
    block besides. *)
Record in_step (d : Db) (c : Commit) (l : list Leaf) (g : MstFacts.records) : Prop := {
  step_consistent : consistent d;
  step_root : exists at_, repo_root d !! Did.str did = Some (MkRootRow (cid_to_string (head c)) (Tid.str (c_rev c)) at_);
  step_rev : well_formed (c_rev c);
  step_commit : store_get (Actor.store d) (head c) = Ok (dag_cbor c);
  step_data : c_data c = cid_of (top l) l;
  step_good : good (top l) l;
  step_distinct : NoDup (tree_cids (top l) l);
  step_stored : MstShape.stored (Actor.store d) (top l) l;
  step_lists : lists l g;
  step_index : indexes_records (record_table d) g;
  step_addressed : forall v b, store_get (Actor.store d) v = Ok b -> v = Block.cid_for b;
  step_exact : forall k, is_Some (repo_block d !! k) <->
    exists v, k = cid_to_string v /\ v ∈ head c :: reached (top l) l
}.

Lemma store_holds d v b : store_get (Actor.store d) v = Ok b -> is_Some (repo_block d !! cid_to_string v).
Proof. cbn; destruct (repo_block d !! cid_to_string v); [by eexists|done]. Qed.

Lemma actor_store_ok d : StoreOk (Actor.store d).
Proof.
  split; cbn; [eauto|]. intros v; destruct (repo_block d !! cid_to_string v) as [row|]; cbn.
  - split; [eauto|done].
  - split; [done|by intros [? ?]].
Qed.

Lemma dag_cbor_inj (x y : Commit) : dag_cbor x = dag_cbor y -> x = y.
Proof. intros E; pose proof (from_slice_ok x) as Hx. rewrite E, from_slice_ok in Hx. by injection Hx. Qed.

(** What a write works from. *)
Lemma work_out_starts d c l g requested swap from R p :
  in_step d c l g -> work_out did d requested swap = Ok (Some (from, R, p)) ->
  from = MkRoot (head c) (c_rev c) /\ Repo.r_cid R = head c /\ r_commit R = c /\ tree (Actor.store d) (r_data R) l
  /\ Forall2 carries (writes p) (Writes.index p).
Proof.
  intros [] E; unfold work_out in E. destruct step_root0 as [at_ Hr].
  assert (in_store (read_root did d) = Ok (Some (MkRoot (head c) (c_rev c)))) as E1.
  { unfold read_root; rewrite Hr; unfold parse_or; cbn [root_cid root_rev]; rewrite cid_text_roundtrip.
    cbn [ok_or mbind result_bind]. assert (from_str (Tid.str (c_rev c)) = Ok (c_rev c)) as ->; [|done].
    exact (from_str_well_formed (c_rev c) step_rev0). }
  rewrite E1 in E; cbn [mbind result_bind ok_or cid] in E.
  assert (in_repo (Repo.load (Actor.store d) (head c)) = Ok (MkRepo (head c) c (Mst.load (c_data c)))) as E2.
  { unfold Repo.load, read; rewrite step_commit0; cbn [mbind result_bind]. by rewrite decode_ok. }
  rewrite E2 in E; cbn [mbind result_bind] in E.
  destruct (plan did d _ _ _) as [[R1 p1]|] eqn:Ep; cbn [mbind result_bind] in E; [|done].
  assert (planning (Actor.store d) l (MkRepo (head c) c (Mst.load (c_data c))) (R1, p1)) as [(m & Em & Ht) Hc].
  { eapply plan_planned; [|exact Ep]. exists (Mst.load (c_data c)); split; [done|].
    rewrite step_data0; by apply tree_load. }
  cbn [fst snd] in *; subst R1.
  destruct (writes p1) eqn:Ew; [done|]. rewrite <- Ew in *.
  destruct swap as [wanted|]; [case_decide; [done|]|]; injection E as <- <- <-; by split_and!.
Qed.

(* ------------------------------------------------------------------ *)
(** ** A new account's store *)

Section Started.
Context (kp : Keypair p256 k256) (stamp : bytes) (touched : Z) (micros : option Z) (clock : Tid.Clock).

Lemma new_db_consistent : consistent new_db.
Proof. split; cbn; try (by intros; set_solver). by intros u p [? ?]. Qed.

Lemma first_commit_lands files root written : exists d cleared,
  Actor.commit blobs did stamp touched new_db files None root (MkBlocks written []) [] = (d, files, Ok (Some cleared)).
Proof.
  unfold Actor.commit, landing, Actor.index; unfold mbind, W_bind; rewrite store_blocks.
  unfold mret, W_ret; cbn [each Actor.written dropped]; unfold mret, W_ret.
  assert (elements (kept []) = []) as -> by apply elements_empty. cbn [each]; unfold mret, W_ret.
  unfold move_root; cbn [db repo_root with_blocks new_db]. rewrite lookup_empty. by do 2 eexists.
Qed.

Lemma started_in_step files c bs d files' cleared : c_data c = cid_of 0 [] -> well_formed (c_rev c) -> head c <> cid_of 0 [] ->
  (forall v b, bs !! v = Some b -> (v, b) ∈ tree_blocks 0 []) -> (forall st, within bs st -> MstShape.stored st 0 []) ->
  Actor.commit blobs did stamp touched new_db files None (MkRoot (head c) (c_rev c))
    (MkBlocks (BlockMap.insert bs (head c) (dag_cbor c)) []) [] = (d, files', Ok (Some cleared)) ->
  in_step d c [] ∅.
Proof.
  intros Ed Hwf Hne Hb Hst E.
  set (root := MkRoot (head c) (c_rev c)) in *. set (given := MkBlocks _ []) in *.
  assert (blocks_given did stamp new_db root given []) as Hg by (by intros u r).
  pose proof (commit_outcome blobs did stamp touched new_db files None root given [] new_db_consistent Hg) as Ho.
  rewrite E in Ho. destruct Ho as (t & Hl & -> & _).
  assert (forall v, store_get (Actor.store (db t)) v = BlockMap.get (BlockMap.insert bs (head c) (dag_cbor c)) v) as Hget.
  { intros v; by rewrite (landed_store did stamp _ _ _ _ _ _ v Hl). }
  assert (forall v b, BlockMap.insert bs (head c) (dag_cbor c) !! v = Some b ->
    v = head c /\ b = dag_cbor c \/ (v, b) ∈ tree_blocks 0 []) as Hin.
  { unfold BlockMap.insert; intros v b [[<- <-]|[_ Hv]]%lookup_insert_Some; auto. }
  assert (MstShape.stored (Actor.store (db t)) 0 []) as Hs.
  { apply Hst; intros v b Hv. rewrite Hget. apply blockmap_get_Ok. unfold BlockMap.insert; rewrite lookup_insert_ne; [done|].
    intros <-. apply Hb in Hv; cbn in Hv; apply list_elem_of_singleton in Hv; congruence. }
  assert (store_get (Actor.store (db t)) (head c) = Ok (dag_cbor c)) as Hc by (rewrite Hget; apply blockmap_get_insert).
  split.
  - apply (landed_consistent did stamp _ _ _ _ _ _ Hl).
  - exists stamp. by rewrite (ActorFacts.landed_root did stamp _ _ _ _ _ _ Hl), lookup_insert_eq.
  - done.
  - done.
  - done.
  - by split; constructor.
  - repeat constructor; set_solver.
  - done.
  - by intros k; rewrite lookup_empty.
  - rewrite (landed_records did stamp _ _ _ _ _ _ Hl). change (indexes_records ∅ ∅); intros u.
    rewrite lookup_empty. destruct (strip_prefix base u); cbn [mbind option_bind]; by rewrite ?lookup_empty.
  - intros v b Hv; rewrite Hget in Hv; apply blockmap_get_Ok, Hin in Hv as [[-> ->]|Hv]; [done|].
    cbn in Hv; apply list_elem_of_singleton in Hv; injection Hv as -> ->. done.
  - intros k; split.
    + rewrite (ActorFacts.landed_blocks did stamp _ _ _ _ _ _ Hl); cbn [Actor.written dropped].
      destruct (let_go_of _ _ _); [by intros [? ?]|]. rewrite stored_rows_spec; cbn.
      intros [[v b] Hf]%fmap_is_Some. apply find_some in Hf as [Hf Hk%bool_decide_eq_true].
      apply list_elem_of_In, iter_elem, Hin in Hf. exists v; split; [done|].
      destruct Hf as [[-> _]|Hf]; [by left|right]. rewrite reached_cids; apply elem_of_app; left. by eapply tree_block_cid.
    + intros (v & -> & Hv). apply elem_of_cons in Hv as [->|Hv]; [by eapply store_holds|].
      rewrite reached_cids, app_nil_r in Hv. rewrite <- tree_blocks_cids in Hv; apply list_elem_of_fmap in Hv as ([v' b] & -> & Hv).
      by eapply store_holds, stored_gets.
Qed.

(** A new account starts in step: [start_repo] on an empty store lands, whatever
    the clocks read, and leaves a signed commit of this account over no records,
    at the revision the clock handed out, with its store holding those blocks and
    no other; provided only that the commit and the empty tree do not hash
    alike. *)
Lemma start_repo_starts files :
  (0 <= Tid.last clock)%Z ->
  exists d c blocks,
    start_repo p256 k256 blobs did kp stamp touched micros new_db files clock
      = (d, files, fst (Tid.mint clock micros), Ok (MkRoot (head c) (c_rev c), blocks))
    /\ c_did c = did /\ c_rev c = snd (Tid.mint clock micros)
    /\ commit_verify p256 k256 c (public_key p256 k256 kp) = Ok tt
    /\ (head c <> cid_of 0 [] -> in_step d c [] ∅).
Proof.
  intros Hlast. destruct (create_makes p256 k256 did kp clock micros) as (c & m & bs & E & Ec & Hv & _ & Hb & Hst).
  destruct (first_commit_lands files (MkRoot (head c) (c_rev c)) (BlockMap.insert bs (head c) (dag_cbor c)))
    as (d & cleared & El).
  exists d, c, (BlockMap.insert bs (head c) (dag_cbor c)).
  unfold start_repo; rewrite E; cbv zeta. change (Repo.rev _) with (c_rev c); change (Repo.r_cid _) with (head c).
  unfold head in El |- *; rewrite El.
  split_and!; [done|by rewrite Ec|by rewrite Ec|done|]. intros Hne.
  eapply started_in_step; [by rewrite Ec| |exact Hne|exact Hb|exact Hst|exact El].
  rewrite Ec; cbn [c_rev]. pose proof (TidFacts.mint_step clock micros Hlast) as Hm.
  destruct (Tid.mint clock micros); apply Hm.
Qed.

End Started.

(* ------------------------------------------------------------------ *)
(** ** A revision that lands *)

(** No node of the next tree is also a record or the last commit. *)
Definition apart (c : Commit) (l l' : list Leaf) : Prop :=
  forall v, v ∈ tree_cids (top l') l' -> v ∉ map value l /\ v ∉ map value l' /\ v <> head c.

(** Nothing handed over collides with what is stored, and the new commit with
    neither revision. *)
Definition fresh (d : Db) (c c' : Commit) (l l' : list Leaf) (written : BlockMap.t) : Prop :=
  (forall v b b', store_get (Actor.store d) v = Ok b -> written !! v = Some b' -> b = b')
  /\ head c' ∉ head c :: reached (top l) l ++ reached (top l') l'.

Section Revision.
Context (st0 : Store) (d : Db) (c : Commit) (l l' : list Leaf) (g g' : MstFacts.records).
Context (R : Repo) (ws : list Write) (is_ : list Indexed) (fuel : nat) (kp : Keypair p256 k256).
Context (clock : Tid.Clock) (since : option Z) (stamp : bytes).
Context (Hin : in_step d c l g).
Context (Hcid : Repo.r_cid R = head c) (Hcommit : r_commit R = c) (Htree : tree (Actor.store d) (r_data R) l).
Context (Hcarry : Forall2 carries ws is_).
Context (Hspec : spec_batch g ws = Ok g') (Hsome : never_refills g ws = true).
Context (Hlists : lists l' g') (Hsorted : sorted l') (Hco : Coexist (Actor.store d) st0 l l').
Context (Hfuel : length (reached (top l) l) + length (reached (top l') l') < fuel).
Context (Hclock : (0 <= Tid.last clock)%Z).

Context (Hapart : apart c l l').

Context (R' : Repo) (clock' : Tid.Clock) (written : BlockMap.t) (gone : list Cid).
Context (Happly : Repo.apply p256 k256 fuel R (Actor.store d) ws kp clock since = Some (R', clock', Ok (written, gone))).
Abbreviation root := (MkRoot (Repo.r_cid R') (Repo.rev R')).

Lemma index_after : indexes_records (index_rows did stamp root is_ (record_table d)) g'.
Proof.
  eapply carries_all; [exact Hcarry| |apply Hin]. unfold spec_batch in Hspec.
  by destruct (check_names ws) as [[]|].
Qed.

Lemma revision_applied : exists blocks0 gone0,
  Prepared (Actor.store d) g g' l l' (r_data R') blocks0 gone0
  /\ well_formed (Repo.rev R') /\ str_lt (Tid.str (c_rev c)) (Tid.str (Repo.rev R'))
  /\ r_commit R' = MkCommit (c_did c) VERSION (cid_of (top l') l') (Repo.rev R') None (c_sig (r_commit R'))
  /\ commit_verify p256 k256 (r_commit R') (public_key p256 k256 kp) = Ok tt
  /\ Repo.r_cid R' = head (r_commit R')
  /\ written = BlockMap.insert blocks0 (head (r_commit R')) (dag_cbor (r_commit R'))
  /\ gone = if decide (head (r_commit R') = head c) then gone0 else gone0 ++ [head c].
Proof.
  pose proof (actor_store_ok d) as Hok.
  destruct (apply_inv p256 k256 fuel (Actor.store d) st0 R ws l l' g g' Hok Htree (step_lists _ _ _ _ Hin) Hspec Hsome
    Hlists Hsorted Hco Hfuel kp clock since R' clock' written gone Happly)
    as (data & blocks0 & gone0 & Hp & rev & Em & Ec & Hv & Ecid & Ed & Ew & Eg).
  rewrite Hcommit in Em, Ec. pose proof (mint_after_follows clock (c_rev c) since Hclock (step_rev _ _ _ _ Hin)) as Hm.
  rewrite Em in Hm; destruct Hm as (Hwf & Hlt & _).
  assert (Repo.rev R' = rev) as -> by (unfold Repo.rev; by rewrite Ec).
  exists blocks0, gone0. subst data; rewrite Ecid, Hcid in Eg. rewrite Ecid in Ew. by split_and!.
Qed.

Lemma row_named m u r : indexes_records m g' -> m !! u = Some r ->
  exists k v, g' !! k = Some v /\ rec_cid r = cid_to_string v /\ v ∈ map value l'.
Proof.
  intros Hm Hr; specialize (Hm u); rewrite Hr in Hm.
  destruct (strip_prefix base u) as [k|]; [|done]. cbn [mbind option_bind] in Hm.
  destruct (g' !! k) as [v|] eqn:Ek; [|done]. exists k, v; split_and!; [done|by injection Hm|].
  apply (list_elem_of_fmap_2 value l' (MkLeaf k v)). by eapply lists_elem.
Qed.

Lemma revision_given : blocks_given did stamp d root (MkBlocks written gone) is_.
Proof.
  intros u r Hr; destruct (row_named _ u r index_after Hr) as (k & v & Hk & Ev & _).
  destruct revision_applied as (blocks0 & gone0 & Hp & _ & _ & _ & _ & _ & -> & _).
  destruct (prep_records _ _ _ _ _ _ _ _ Hp k v Hk) as [Hg|Hb].
  - right; rewrite Ev. pose proof (step_index _ _ _ _ Hin (base ++ k)) as Hi.
    rewrite strip_prefix_app in Hi; cbn [mbind option_bind] in Hi; rewrite Hg in Hi.
    destruct (record_table d !! (base ++ k)) as [row|] eqn:Er; [|done]. injection Hi as <-.
    by eapply records_stored; [apply Hin|].
  - left; exists v; split; [done|]. cbn; unfold BlockMap.insert. rewrite lookup_insert_is_Some'; by right.
Qed.

Lemma node_kept v : v ∈ tree_cids (top l') l' -> v ∉ gone.
Proof.
  intros Hv; destruct (Hapart v Hv) as (Hn & Hn' & Hh).
  destruct revision_applied as (blocks0 & gone0 & Hp & _ & _ & _ & _ & _ & _ & ->).
  assert (v ∉ gone0) as Hg0; [|case_decide; [done|]; rewrite elem_of_app, list_elem_of_singleton; tauto].
  intros Hg; eapply (prep_spared _ _ _ _ _ _ _ _ Hp); [| |exact Hg|]; rewrite reached_cids.
  - apply once_node; [apply Hin|done].
  - apply once_node; [apply Hco|done].
  - apply elem_of_app; by left.
Qed.

Lemma fresh_head : fresh d c (r_commit R') l l' written -> head (r_commit R') <> head c
  /\ head (r_commit R') ∉ reached (top l) l /\ head (r_commit R') ∉ reached (top l') l'.
Proof. intros [_ [Hc Hn]%not_elem_of_cons]. by apply not_elem_of_app in Hn as [? ?]. Qed.

Section Landing.
Context (t : Tx) (Hland : ActorFacts.Landed did stamp d (Some (MkRoot (head c) (c_rev c))) root (MkBlocks written gone) is_ t).
Context (Hfresh : fresh d c (r_commit R') l l' written).

Lemma kept_get v : v ∉ gone \/ indexed_under (db t) (cid_to_string v) = true ->
  store_get (Actor.store (db t)) v
  = match store_get (Actor.store d) v with Ok b => Ok b | Err _ => BlockMap.get written v end.
Proof.
  intros Hv; rewrite (landed_store did stamp _ _ _ _ _ _ v Hland). unfold stored_after; cbn [dropped].
  destruct Hv as [Hv| ->]; [rewrite bool_decide_false by done|rewrite andb_false_r]; done.
Qed.

Lemma landed_commit_block : store_get (Actor.store (db t)) (head (r_commit R')) = Ok (dag_cbor (r_commit R')).
Proof.
  destruct revision_applied as (blocks0 & gone0 & Hp & _ & _ & _ & _ & _ & Ew & Eg).
  destruct (fresh_head Hfresh) as (Hf & Hfl & Hfl').
  rewrite kept_get.
  - destruct (store_get (Actor.store d) (head (r_commit R'))) as [b|e] eqn:E.
    + apply store_holds, (step_exact _ _ _ _ Hin) in E as (v & Ev & Hv). apply cid_text_inj in Ev as <-. by apply elem_of_cons in Hv as [?|?].
    + rewrite Ew; apply blockmap_get_insert.
  - left; rewrite Eg; rewrite decide_False by done. rewrite elem_of_app, list_elem_of_singleton.
    intros [Hg|?]; [|done]. by apply (prep_gone _ _ _ _ _ _ _ _ Hp) in Hg.
Qed.

Lemma landed_tree : MstShape.stored (Actor.store (db t)) (top l') l'.
Proof.
  destruct revision_applied as (blocks0 & gone0 & Hp & _ & _ & _ & _ & _ & Ew & _). pose proof (proj1 Hfresh) as Hcol.
  destruct (fresh_head Hfresh) as (Hf & Hfl & Hfl').
  set (both := MkStore (fun v => match store_get (Actor.store d) v with Ok b => Ok b | Err _ => BlockMap.get written v end)
    (fun _ => Ok true)).
  assert (MstShape.stored both (top l') l') as Hs.
  { apply (prep_stored _ _ _ _ _ _ _ _ Hp); [by intros v b E; unfold both; cbn [store_get]; rewrite E|].
    intros v b Hb; unfold both; cbn [store_get]. assert (written !! v = Some b) as Hw.
    { rewrite Ew; unfold BlockMap.insert; rewrite lookup_insert_ne; [done|]. intros <-.
      apply Hfl'. eapply prep_reached; [exact Hp|by exists b]. }
    destruct (store_get (Actor.store d) v) as [b'|] eqn:E; [by rewrite (Hcol v b' b E Hw)|by apply blockmap_get_Ok]. }
  apply stored_blocks; intros v b Hv. rewrite kept_get; [exact (stored_gets both _ _ _ _ Hs Hv)|].
  left; apply node_kept. by apply tree_block_cid in Hv.
Qed.

Lemma landed_exact k :
  is_Some (repo_block (db t) !! k)
  <-> exists v, k = cid_to_string v /\ v ∈ head (r_commit R') :: reached (top l') l'.
Proof.
  destruct revision_applied as (blocks0 & gone0 & Hp & _ & _ & _ & _ & _ & Ew & Eg).
  destruct (fresh_head Hfresh) as (Hf & Hfl & Hfl').
  split.
  - rewrite (ActorFacts.landed_blocks did stamp _ _ _ _ _ _ Hland); cbn [Actor.written dropped].
    destruct (let_go_of (db t) gone k) eqn:Elet; [by intros [? ?]|]. unfold let_go_of in Elet.
    rewrite stored_rows_spec; intros Hk.
    assert (exists v, k = cid_to_string v /\ (v ∈ head c :: reached (top l) l \/ is_Some (written !! v)))
      as (v & -> & Hv).
    { destruct (repo_block d !! k) eqn:E.
      - assert (is_Some (repo_block d !! k)) as (v & ? & ?)%(step_exact _ _ _ _ Hin) by (rewrite E; by eexists). eauto.
      - apply fmap_is_Some in Hk as [[v b] Hfind]. apply find_some in Hfind as [Hfd Hb%bool_decide_eq_true].
        apply list_elem_of_In, iter_elem in Hfd. exists v; split; [done|right; by exists b]. }
    exists v; split; [done|].
    destruct (decide (v ∈ reached (top l') l')) as [|Hnr]; [by right|].
    destruct Hv as [Hv|Hv].
    + assert (v ∈ gone) as Hg.
      { rewrite Eg, decide_False, elem_of_app, list_elem_of_singleton by done.
        apply elem_of_cons in Hv as [->|Hv]; [by right|left]. by eapply prep_let_go. }
      rewrite bool_decide_true in Elet by (by apply list_elem_of_fmap_2). apply negb_false_iff, indexed_under_spec in Elet
        as (u & r & Hr & Er). rewrite (landed_records did stamp _ _ _ _ _ _ Hland) in Hr.
      destruct (row_named _ u r index_after Hr) as (k & v' & _ & Ev & Hv'). rewrite Er in Ev; apply cid_text_inj in Ev as <-.
      destruct Hnr; rewrite reached_cids, elem_of_app; by right.
    + rewrite Ew in Hv; unfold BlockMap.insert in Hv; apply lookup_insert_is_Some' in Hv as [->|Hv]; [left|].
      right; by eapply prep_reached.
  - intros (v & -> & Hv). apply elem_of_cons in Hv as [->|Hv]; [apply (store_holds _ _ _ landed_commit_block)|].
    rewrite reached_cids in Hv; apply elem_of_app in Hv as [Hv|Hv].
    + rewrite <- tree_blocks_cids in Hv; apply list_elem_of_fmap in Hv as ([v' b] & -> & Hv).
      eapply store_holds, stored_gets; [apply landed_tree|exact Hv].
    + apply list_elem_of_fmap in Hv as (x & -> & Hx).
      assert (g' !! Mst.key x = Some (value x)) as Hg by (by apply (lists_at l')).
      pose proof (landed_records did stamp _ _ _ _ _ _ Hland) as Er. pose proof (index_after (base ++ Mst.key x)) as Hi.
      rewrite <- Er, strip_prefix_app in Hi; cbn [mbind option_bind] in Hi; rewrite Hg in Hi.
      destruct (record_table (db t) !! _) as [row|] eqn:Erow; [|done]. injection Hi as <-.
      by eapply records_stored; [apply (landed_consistent did stamp _ _ _ _ _ _ Hland)|].
Qed.

Lemma revision_in_step : in_step (db t) (r_commit R') l' g'.
Proof.
  destruct revision_applied as (blocks0 & gone0 & Hp & Hwf & _ & Ec & _ & Ecid & Ew & Eg).
  assert (c_rev (r_commit R') = Repo.rev R') as Erev by (by rewrite Ec).
  split.
  - apply (landed_consistent did stamp _ _ _ _ _ _ Hland).
  - exists stamp. rewrite (ActorFacts.landed_root did stamp _ _ _ _ _ _ Hland), lookup_insert_eq. cbn. by rewrite Ecid, Erev.
  - by rewrite Erev.
  - apply landed_commit_block.
  - by rewrite Ec.
  - apply (prep_good _ _ _ _ _ _ _ _ Hp).
  - apply Hco.
  - apply landed_tree.
  - exact Hlists.
  - rewrite (landed_records did stamp _ _ _ _ _ _ Hland). apply index_after.
  - intros v b E. rewrite (landed_store did stamp _ _ _ _ _ _ v Hland) in E; unfold stored_after in E.
    destruct (_ && _); [done|]. destruct (store_get (Actor.store d) v) as [b'|] eqn:Ed.
    + injection E as <-. by eapply step_addressed.
    + cbn in E; apply blockmap_get_Ok in E; cbn in E; rewrite Ew in E; unfold BlockMap.insert in E.
      apply lookup_insert_Some in E as [[<- <-]|[_ E]]; [done|]. by eapply prep_addressed.
  - apply landed_exact.
Qed.

End Landing.
End Revision.

(* ------------------------------------------------------------------ *)
(** ** A write, from the request to the commit *)

Section Write.
Context (kp : Keypair p256 k256) (fuel : nat).

(** What a write that lands answers with, and what it leaves. *)
Definition lands (d : Db) (c : Commit) (l l' : list Leaf) (g' : MstFacts.records) (p : Plan) (d' : Db)
    (landed : Writes.Landed) : Prop :=
  exists c', landed_root landed = MkRoot (head c') (c_rev c')
    /\ c_did c' = c_did c /\ c_data c' = cid_of (top l') l'
    /\ commit_verify p256 k256 c' (public_key p256 k256 kp) = Ok tt
    /\ str_lt (Tid.str (c_rev c)) (Tid.str (c_rev c'))
    /\ landed_since landed = c_rev c /\ prev_data landed = c_data c
    /\ landed_ops landed = ops p /\ landed_written landed = MkWritten (plan_results p) (head c') (c_rev c')
    /\ addressed (landed_blocks landed) /\ landed_blocks landed !! head c' = Some (dag_cbor c')
    /\ (fresh d c c' l l' (landed_blocks landed) -> in_step d' c' l' g').

(** What a batch has to be, and a store has to be like, for the batch to go in:
    it does not go on writing into a tree it emptied, no two blocks of the two
    revisions collide, and the walk over both trees has fuel. *)
Definition fits_in (d : Db) (c : Commit) (l l' : list Leaf) (g g' : MstFacts.records) (ws : list Write) : Prop :=
  never_refills g ws = true /\ lists l' g' /\ sorted l' /\ apart c l l'
  /\ (length (reached (top l) l) + length (reached (top l') l') < fuel)%nat
  /\ exists st0, Coexist (Actor.store d) st0 l l'.

Lemma same_store d d' : repo_block d' = repo_block d -> Actor.store d' = Actor.store d.
Proof. unfold Actor.store; by intros ->. Qed.

Section Attempt.
Context (d : Db) (clock : Tid.Clock) (requested : list Requested) (swap : option Cid).
Context (c : Commit) (l l' : list Leaf) (g g' : MstFacts.records) (from : Root) (R : Repo) (p : Plan).
Context (Hin : in_step d c l g) (Hclock : (0 <= Tid.last clock)%Z).
Context (Hwork : work_out did d requested swap = Ok (Some (from, R, p))).
Context (Hspec : spec_batch g (writes p) = Ok g') (Hfits : fits_in d c l l' g g' (writes p)).

(** An accepted batch is worked out into a revision, unless the clock has none
    left. *)
Lemma works_out since :
  match Tid.mint_after clock (c_rev c) since with
  | (clock', None) => Repo.apply p256 k256 fuel R (Actor.store d) (writes p) kp clock since
                      = Some (R, clock', Err (NoRevisionAfter (c_rev c)))
  | (clock', Some _) => (0 <= Tid.last clock')%Z /\ exists R' out,
      Repo.apply p256 k256 fuel R (Actor.store d) (writes p) kp clock since = Some (R', clock', Ok out)
  end.
Proof.
  destruct (work_out_starts d c l g requested swap from R p Hin Hwork) as (_ & _ & Hcommit & Htree & _).
  destruct Hfits as (Hsome & Hlists & Hsorted & _ & Hfuel & st0 & Hco).
  destruct (prepare_writes fuel (Actor.store d) st0 R (writes p) l l' g g' (actor_store_ok d) Htree (step_lists _ _ _ _ Hin)
    Hspec Hsome Hlists Hsorted Hco Hfuel) as (data & blocks0 & gone0 & E & _).
  pose proof (apply_prepared p256 k256 fuel (Actor.store d) R (writes p) kp clock since l' data blocks0 gone0 E) as Ha.
  rewrite Hcommit in Ha. pose proof (mint_after_follows clock (c_rev c) since Hclock (step_rev _ _ _ _ Hin)) as Hm.
  destruct (Tid.mint_after clock (c_rev c) since) as [clock' [rev|]]; [|exact Ha].
  destruct Ha as (R' & written & gone & Ea & _). split; [lia|]. by exists R', (written, gone).
Qed.

(** Committed to a store still at that commit, with the same blocks, whatever else
    was done to it since, the revision lands and the store is in step with it; or
    something fails, and the store is left as it was. *)
Lemma revision_commits m d2 files R' clock' written gone :
  in_step d2 c l g -> repo_block d2 = repo_block d ->
  Repo.apply p256 k256 fuel R (Actor.store d) (writes p) kp clock (micros m) = Some (R', clock', Ok (written, gone)) ->
  let root := MkRoot (Repo.r_cid R') (Repo.rev R') in
  match Actor.commit blobs did (stamp m) (touched m) d2 files (Some from) root (MkBlocks written gone) (Writes.index p) with
  | (d', files', Ok (Some cleared)) =>
      lands d c l l' g' p d' (MkLanded (MkWritten (plan_results p) (cid root) (Actor.rev root)) root written (ops p)
        (Repo.rev R) (c_data (r_commit R)) cleared)
  | (_, _, Ok None) => False
  | (d', files', Err _) => d' = d2 /\ same_files files files'
  end.
Proof.
  intros Hin2 Hsame Ea root.
  destruct (work_out_starts d c l g requested swap from R p Hin Hwork) as (-> & Hcid & Hcommit & Htree & Hcarry).
  destruct Hfits as (Hsome & Hlists & Hsorted & Hapart & Hfuel & st0 & Hco).
  rewrite <- (same_store _ _ Hsame) in Htree, Hco, Ea.
  pose proof (revision_given st0 d2 c l l' g g' R (writes p) (Writes.index p) fuel kp clock (micros m) (stamp m)
    Hin2 Hcid Hcommit Htree Hcarry Hspec Hsome Hlists Hsorted Hco Hfuel Hclock R' clock' written gone Ea) as Hg.
  pose proof (commit_outcome blobs did (stamp m) (touched m) d2 files (Some (MkRoot (head c) (c_rev c)))
    _ _ _ (step_consistent _ _ _ _ Hin2) Hg) as Ho.
  fold root in Ho. destruct (Actor.commit _ _ _ _ _ _ _ _ _ _) as [[d' files'] [[cleared|]|e]].
  - destruct Ho as (t & Hl & -> & _).
    destruct (revision_applied st0 d2 c l l' g g' R (writes p) fuel kp clock (micros m) Hin2 Hcid Hcommit Htree Hspec Hsome Hlists
      Hsorted Hco Hfuel Hclock R' clock' written gone Ea) as (? & ? & Hprep & _ & Hlt & Ec & Hv & Eh & Ew & _).
    assert (c_rev (r_commit R') = Repo.rev R') as Erev by (by rewrite Ec).
    exists (r_commit R'); cbn; rewrite Erev, <- Eh; split_and!; try done; try (by rewrite Ec);
      try (unfold Repo.rev; by rewrite Hcommit).
    { rewrite Ew; apply addressed_insert. apply (prep_addressed _ _ _ _ _ _ _ _ Hprep). }
    { rewrite Ew, Eh. apply lookup_insert_eq. }
    unfold fresh; rewrite <- (same_store _ _ Hsame). intros Hf. by eapply revision_in_step.
  - destruct Ho as (-> & _ & Hne); destruct (Hne eq_refl). unfold root_at, root_named.
    destruct (step_root _ _ _ _ Hin2) as [at_ ->]. done.
  - by destruct Ho as (-> & Hs & _).
Qed.

End Attempt.

Context (moments : nat -> Moment) (others : nat -> Db * Fs.t -> Db * Fs.t).
Context (d : Db) (files : Fs.t) (clock : Tid.Clock) (requested : list Requested) (swap : option Cid).
Abbreviation run := (commit_writes p256 k256 blobs did kp fuel moments others d files clock requested swap).

Section Accepted.
Context (st0 : Store) (c : Commit) (l l' : list Leaf) (g g' : MstFacts.records) (from : Root) (R : Repo) (p : Plan).
Context (Hin : in_step d c l g) (Hclock : (0 <= Tid.last clock)%Z).
Context (Hwork : work_out did d requested swap = Ok (Some (from, R, p))).
Context (Hspec : spec_batch g (writes p) = Ok g') (Hsome : never_refills g (writes p) = true).
Context (Hlists : lists l' g') (Hsorted : sorted l') (Hco : Coexist (Actor.store d) st0 l l').
Context (Hapart : apart c l l') (Hfuel : length (reached (top l) l) + length (reached (top l') l') < fuel).
Context (Halone : forall n s, others n s = s).

(** A write nothing runs beside keeps an account in step. From a store that says
    what its commit, its tree and its records say, whatever batch a caller asks
    for, as long as the specification accepts what it was planned as: a write
    that lands answers with a signed commit over exactly the records the batch
    leaves, at a revision above the last, and with the changes the plan listed;
    and the store is in step with it again, its index those records at their
    addresses, its blocks that revision's and no other. A write that does not
    land leaves tables and files as they were. Nothing else happens: it neither
    runs out of attempts nor answers that there was nothing to write. *)
Lemma commit_writes_in_step :
  match run with
  | Some (d', _, _, Ok (Some landed)) => lands d c l l' g' p d' landed
  | Some (d', files', _, Err _) => d' = d /\ same_files files files'
  | _ => False
  end.
Proof.
  assert (fits_in d c l l' g g' (writes p)) as Hfits by (unfold fits_in; eauto 10).
  unfold commit_writes, ATTEMPTS; cbn [attempts]. rewrite Hwork.
  pose proof (works_out d clock requested swap c l l' g g' from R p Hin Hclock Hwork Hspec Hfits (micros (moments 8))) as Ha.
  set (m := moments 8) in *; clearbody m.
  destruct (Tid.mint_after clock (c_rev c) (micros m)) as [clock' [rev|]]; [|rewrite Ha; by split].
  destruct Ha as (_ & R' & [written gone] & Ea). rewrite Ea, Halone.
  pose proof (revision_commits d clock requested swap c l l' g g' from R p Hin Hclock Hwork Hspec Hfits m d files
    R' clock' written gone Hin eq_refl Ea) as Ho; cbv zeta in Ho.
  destruct (Actor.commit _ _ _ _ _ _ _ _ _ _) as [[d' files'] [[cleared|]|e]]; done.
Qed.

End Accepted.
End Write.
End Facts.

(* ------------------------------------------------------------------ *)
(** ** At a concrete account *)

Module Sample.

#[export] Existing Instances Json.Plain.cid_text Json.Plain.cid_text_ok Concrete.Mix.mixed Concrete.Mix.mixed_ok
  Concrete.Coded.codec Concrete.Coded.codec_ok Crypto.Toy.curve_ok.
Import RepoFacts.Sample.

Definition did : Did.t := RepoFacts.Sample.did.
Definition blobs : Blobs := MkBlobs [lit "blocks"].
Definition stamp : bytes := lit "2024-01-01T00:00:00.000Z".
Definition first : Commit := RepoFacts.Sample.commit.

(** An account just started, and the write of its first record. *)
Definition started : Db :=
  fst (fst (Actor.commit blobs did stamp 5 new_db Fs.empty None (MkRoot (head first) (c_rev first))
    (MkBlocks (BlockMap.insert (list_to_map (tree_blocks 0 [])) (head first) (dag_cbor first)) []) [])).
Definition requested : list Requested := [plain (WCreate post rkey record)].
Definition moments (n : nat) : Moment := MkMoment since stamp 5.
Definition alone (n : nat) (s : Db * Fs.t) : Db * Fs.t := s.

Definition found {E A} (r : result E (option A)) : option A := match r with Ok a => a | Err _ => None end.
Definition worked : option (Root * Repo * Plan) := found (work_out did started requested None).
Definition planned : Root * Repo * Plan :=
  from_option id (MkRoot (head first) (c_rev first), repo, MkPlan [] [] [] []) worked.

Lemma in_step_first : in_step did started first [] ∅.
Proof.
  destruct (first_commit_lands blobs did stamp 5 Fs.empty (MkRoot (head first) (c_rev first))
    (BlockMap.insert (list_to_map (tree_blocks 0 [])) (head first) (dag_cbor first))) as (d & cl & E).
  unfold started; rewrite E.
  eapply (started_in_step Toy.curve Toy.curve blobs did stamp 5 Fs.empty first (list_to_map (tree_blocks 0 [])) d Fs.empty cl);
    [done|vm_compute; reflexivity|apply (bool_decide_unpack _); vm_compute; exact I| | |exact E].
  - intros v b. apply elem_of_list_to_map_2.
  - intros st Hw; apply stored_blocks; intros v b Hv. apply Hw. apply elem_of_list_to_map_1; [|done].
    rewrite tree_blocks_cids. apply NoDup_singleton.
Qed.

Lemma started_closed : closed_under (Actor.store started) (top [leaf]) [leaf].
Proof.
  apply closed_under_nothing, Forall_forall. intros v Hv%list_elem_of_In.
  assert (forallb (fun v => negb (bool_decide (store_contains (Actor.store started) v = Ok true)))
    (tree_cids (top [leaf]) [leaf]) = true) as Hb by (vm_compute; reflexivity).
  rewrite forallb_forall in Hb. by apply Hb, negb_true_iff, bool_decide_eq_false in Hv.
Qed.

Lemma started_coexist : Coexist (Actor.store started) both [] [leaf].
Proof.
  destruct RepoFacts.Sample.coexist as [Hs Hs' Hd Hd' _].
  exact (Build_Coexist _ _ _ _ Hs Hs' Hd Hd' started_closed).
Qed.

Lemma work_planned : work_out did started requested None
  = Ok (Some (fst (fst planned), snd (fst planned), snd planned)).
Proof. vm_compute; reflexivity. Qed.

Lemma planned_accepted : spec_batch ∅ (writes (snd planned)) = Ok g' /\ never_refills ∅ (writes (snd planned)) = true.
Proof. split; vm_compute; reflexivity. Qed.

(** That a write to that account that landed collides with nothing. *)
Definition landed_of {A B C} (r : option (A * B * C * result Writes.Error (option Writes.Landed))) : option Writes.Landed :=
  match r with Some (_, _, _, Ok (Some landed)) => Some landed | _ => None end.
Definition fresh_check (landed : Writes.Landed) : bool :=
  match landed_blocks landed !! Actor.cid (landed_root landed) with
  | Some b =>
      match Block.decode b with
      | Ok c =>
          bool_decide (b = dag_cbor c)
          && forallb (fun e => match store_get (Actor.store started) (fst e) with Ok b => bool_decide (b = snd e) | Err _ => true end)
               (map_to_list (landed_blocks landed))
          && bool_decide (head c ∉ head first :: reached (top []) [] ++ reached (top [leaf]) [leaf])
      | Err _ => false
      end
  | None => false
  end.
Lemma fresh_checked landed : fresh_check landed = true -> exists c,
  landed_blocks landed !! Actor.cid (landed_root landed) = Some (dag_cbor c)
  /\ fresh started first c [] [leaf] (landed_blocks landed).
Proof.
  unfold fresh_check; intros Hp.
  destruct (landed_blocks landed !! _) as [b|]; [|done]. destruct (Block.decode b) as [c|] eqn:Ec; [|done].
  apply andb_true_iff in Hp as [[Hb%bool_decide_eq_true Hall]%andb_true_iff Hh%bool_decide_eq_true].
  exists c; split; [by rewrite Hb|]. split; [|exact Hh].
  intros v b1 b2 H1 H2. rewrite forallb_forall in Hall. specialize (Hall (v, b2)); cbn [fst snd] in Hall.
  rewrite H1 in Hall. apply (bool_decide_eq_true_1 _), Hall, list_elem_of_In, elem_of_map_to_list, H2.
Qed.

Lemma planned_apart : apart first [] [leaf].
Proof.
  assert (forallb (fun v => negb (bool_decide (v ∈ map value [leaf])) && negb (bool_decide (v = head first)))
    (tree_cids (top [leaf]) [leaf]) = true) as Hb by (vm_compute; reflexivity).
  rewrite forallb_forall in Hb. intros v Hv%list_elem_of_In%Hb.
  apply andb_true_iff in Hv as [H1%negb_true_iff%bool_decide_eq_false H2%negb_true_iff%bool_decide_eq_false].
  split_and!; [by apply not_elem_of_nil|done|done].
Qed.

End Sample.
Import RepoFacts.Sample Sample.
