(* ===== verification/WritesRaces.v ===== *)
(** * WritesRaces: a write while others write to the same account

    [Writes.attempts] works a revision out, and commits it to whatever the store
    is by then.  What may have happened in between is [others]: nothing that
    writes a revision, and the commit lands ([WritesFacts.revision_commits]); or
    another write's revision, and the root it was built on is gone, so it is
    worked out again from what that one left, eight times at most.  A write that
    answers does so from a store in step, on the last of the attempts that were
    [overtaken] or before the first. *)

From S2P Require Import Prelude Syntax Crypto Block Mst Concrete MstShape MstRead MstStore MstFacts Json Repo RepoFacts.
From S2P Require Import MstDiff MstWalk Storage Blobs Handles Actor ActorFacts Links Plc Writes WritesFacts.
From Stdlib Require Import Lia.

Section Races.
Context (p256 k256 : Curve) `{!CurveOk p256, !CurveOk k256}.
Context `{Sha256} `{!Sha256Ok} `{CidText} `{!CidTextOk}.
Context `{!Codec NodeData} `{!CodecOk NodeData} `{!Codec Ipld}.
Context `{!Codec Commit, !CodecOk Commit, !Codec Unsigned, !CodecOk Unsigned}.
Context (blobs : Blobs) (did : Did.t) (kp : Keypair p256 k256) (fuel : nat) (moments : nat -> Moment).
Context (others : nat -> Db * Fs.t -> Db * Fs.t) (requested : list Requested) (swap : option Cid).
Abbreviation State := (Db * Fs.t)%type.
Abbreviation in_step := (WritesFacts.in_step did).

(** A store is in step with one commit, one list of leaves and one map. *)
Lemma in_step_unique d c l g c' l' g' : in_step d c l g -> in_step d c' l' g' -> c = c' /\ l = l' /\ g = g'.
Proof.
  intros Hin Hin'.
  assert (head c = head c') as Eh.
  { destruct (step_root _ _ _ _ _ Hin) as [a Ea], (step_root _ _ _ _ _ Hin') as [b Eb]. rewrite Ea in Eb.
    injection Eb as E _ _. by apply cid_text_inj. }
  assert (c = c') as <-.
  { pose proof (step_commit _ _ _ _ _ Hin) as E; rewrite Eh, (step_commit _ _ _ _ _ Hin') in E.
    apply dag_cbor_inj; congruence. }
  assert (l = l') as <-.
  { apply (same_root_same_leaves (Actor.store d) (top l) l (top l') l');
      [apply Hin|apply Hin'|apply top_bound|apply top_bound|apply Hin|apply Hin'|apply Hin|apply Hin'|].
    by rewrite <- (step_data _ _ _ _ _ Hin), (step_data _ _ _ _ _ Hin'). }
  split_and!; [done|done|]. apply map_eq; intros k.
  by rewrite (step_lists _ _ _ _ _ Hin k), (step_lists _ _ _ _ _ Hin' k).
Qed.

(* ------------------------------------------------------------------ *)
(** ** What goes on beside a write *)

(** What others leave, where they found a store in step: one in step with the
    same commit and with the same blocks, whatever became of its uploads; or one
    in step with another commit. *)
Definition meanwhile (x y : State) : Prop := forall c l g, in_step (fst x) c l g ->
  (in_step (fst y) c l g /\ repo_block (fst y) = repo_block (fst x))
  \/ exists c2 l2 g2, in_step (fst y) c2 l2 g2 /\ head c2 <> head c.

(** With so many attempts left, each before it was overtaken: by the time it was
    committed the root had moved, so what is left is what others left, and the
    files are as they left them. *)
Inductive overtaken (n0 : nat) (x0 : State) : nat -> State -> Prop :=
| on_time : overtaken n0 x0 n0 x0
| too_late n x y : overtaken n0 x0 (S n) x ->
    root_at did (fst (others (S n) x)) <> root_at did (fst x) ->
    fst y = fst (others (S n) x) -> same_files (snd (others (S n) x)) (snd y) ->
    overtaken n0 x0 n y.

(** Why a write is refused before it is committed: nothing can be planned, the
    batch is one the specification refuses, or the clock has no revision left. *)
Definition refused (d : Db) (e : Writes.Error) : Prop :=
  work_out did d requested swap = Err e
  \/ exists c l g from R p, in_step d c l g /\ work_out did d requested swap = Ok (Some (from, R, p))
     /\ ((exists e', spec_batch g (writes p) = Err e' /\ e = InRepo e') \/ e = InRepo (NoRevisionAfter (c_rev c))).

(** A write that landed at [x], and the one that was planned there. *)
Definition landed_at (x : State) (d' : Db) (landed : Writes.Landed) (c : Commit) (l l' : list Leaf)
    (g g' : MstFacts.records) (p : Plan) : Prop :=
  in_step (fst x) c l g /\ (exists from R, work_out did (fst x) requested swap = Ok (Some (from, R, p)))
  /\ spec_batch g (writes p) = Ok g' /\ lists l' g' /\ WritesFacts.lands p256 k256 did kp (fst x) c l l' g' p d' landed.

(** What a write that has [n0] attempts comes to. *)
Definition comes_to (n0 : nat) (x0 : State) (d' : Db) (files' : Fs.t) (answer : result Writes.Error (option Writes.Landed))
  : Prop :=
  exists n x, overtaken n0 x0 n x /\
    match answer with
    | Ok (Some landed) => n <> 0 /\ exists c l l' g g' p, landed_at x d' landed c l l' g g' p
    | Ok None => n <> 0 /\ work_out did (fst x) requested swap = Ok None /\ (d', files') = x
    | Err e =>
        (n = 0 /\ e = Contended /\ (d', files') = x)
        \/ (n <> 0 /\ refused (fst x) e /\ (d', files') = x)
        \/ (n <> 0 /\ (exists e', e = from_store e') /\ d' = fst (others n x) /\ same_files (snd (others n x)) files')
    end.

Section Attempts.
Context (n0 : nat) (x0 : State).
Context (Hmeanwhile : forall n x, overtaken n0 x0 (S n) x -> meanwhile x (others (S n) x)).
Context (Hfits : forall n x c l g from R p g', overtaken n0 x0 (S n) x -> in_step (fst x) c l g ->
  work_out did (fst x) requested swap = Ok (Some (from, R, p)) -> spec_batch g (writes p) = Ok g' ->
  exists l', fits_in fuel (fst x) c l l' g g' (writes p)).

Abbreviation attempts' n x clock :=
  (attempts p256 k256 blobs did kp fuel moments others n (fst x) (snd x) clock requested swap).

Lemma in_step_root_at d c l g : in_step d c l g -> root_at did d = Some (cid_to_string (head c)).
Proof. intros Hin; unfold root_at. by destruct (step_root _ _ _ _ _ Hin) as [at_ ->]. Qed.

(** A batch the specification refuses is refused where it is worked out. *)
Lemma refused_attempt d c l g from R p e clock since :
  in_step d c l g -> work_out did d requested swap = Ok (Some (from, R, p)) -> spec_batch g (writes p) = Err e ->
  Repo.apply p256 k256 fuel R (Actor.store d) (writes p) kp clock since = Some (R, clock, Err e).
Proof.
  intros Hin Hwork Hs. destruct (work_out_starts did d c l g requested swap from R p Hin Hwork) as (_ & _ & _ & Htree & _).
  apply (refused_batch_changes_nothing p256 k256 fuel (Actor.store d) R (writes p) kp clock since l g e Htree); [apply Hin|done].
Qed.

(** A commit to a store another write has moved leaves what that write left. *)
Lemma overtaken_commit m d2 files c2 l2 g2 c root bs records :
  in_step d2 c2 l2 g2 -> head c2 <> head c ->
  match Actor.commit blobs did (stamp m) (touched m) d2 files (Some (MkRoot (head c) (c_rev c))) root bs records with
  | (_, _, Ok (Some _)) => False
  | (d', files', _) => d' = d2 /\ same_files files files'
  end.
Proof.
  intros Hin Hne.
  pose proof (commit_too_late blobs did (stamp m) (touched m) d2 files (Some (MkRoot (head c) (c_rev c))) root bs records
    (step_consistent _ _ _ _ _ Hin)) as Hc.
  specialize (Hc ltac:(rewrite (in_step_root_at _ _ _ _ Hin); unfold root_named; cbn; intros [= E%cid_text_inj]; done)).
  destruct (Actor.commit _ _ _ _ _ _ _ _ _ _) as [[d' f'] [[cl|]|e]]; [destruct Hc as (_ & _ & Hc); by destruct (Hc cl)
    |by destruct Hc as (? & ? & _)..].
Qed.

Lemma attempts_come_to n : forall x clock c l g, overtaken n0 x0 n x -> in_step (fst x) c l g -> (0 <= Tid.last clock)%Z ->
  match attempts' n x clock with
  | Some (d', files', _, answer) => comes_to n0 x0 d' files' answer
  | None => False
  end.
Proof.
  induction n as [|n IH]; intros x clock c l g Ho Hin Hclock; cbn [attempts].
  { exists 0, x; split; [done|]. left; split_and!; [done|done|by destruct x]. }
  destruct (work_out did (fst x) requested swap) as [[[[from R] p]|]|e] eqn:Hwork.
  2: { exists (S n), x; split_and!; [done|done|done|by destruct x]. }
  2: { exists (S n), x; split; [done|]. right; left; split_and!; [done|by left|by destruct x]. }
  set (m := moments (S n)); clearbody m.
  destruct (spec_batch g (writes p)) as [g'|e] eqn:Hspec.
  2: { rewrite (refused_attempt _ _ _ _ _ _ _ _ clock (micros m) Hin Hwork Hspec). exists (S n), x; split; [done|].
       right; left; split_and!; [done| |by destruct x]. right; exists c, l, g, from, R, p. split_and!; [done|done|left; by exists e]. }
  destruct (Hfits n x c l g from R p g' Ho Hin Hwork Hspec) as [l' Hf].
  pose proof (works_out p256 k256 did kp fuel (fst x) clock requested swap c l l' g g' from R p Hin Hclock Hwork Hspec Hf (micros m)) as Ha.
  destruct (Tid.mint_after clock (c_rev c) (micros m)) as [clock' [rev|]].
  2: { rewrite Ha. exists (S n), x; split; [done|]. right; left; split_and!; [done| |by destruct x].
       right; exists c, l, g, from, R, p. split_and!; [done|done|by right]. }
  destruct Ha as (Hclock' & R' & [written gone] & Ea). rewrite Ea.
  pose proof (Hmeanwhile n x Ho c l g Hin) as Hm. rewrite <- (surjective_pairing x).
  destruct (others (S n) x) as [d2 files2] eqn:Eo; cbn [fst snd] in Hm.
  destruct Hm as [[Hin2 Hsame]|(c2 & l2 & g2 & Hin2 & Hne)].
  - pose proof (revision_commits p256 k256 blobs did kp fuel (fst x) clock requested swap c l l' g g' from R p Hin Hclock Hwork
      Hspec Hf m d2 files2 R' clock' written gone Hin2 Hsame Ea) as Hc; cbv zeta in Hc.
    destruct (Actor.commit _ _ _ _ _ _ _ _ _ _) as [[d' files'] [[cleared|]|e]]; [|done|].
    + exists (S n), x; split_and!; [done|done|]. exists c, l, l', g, g', p. destruct Hf as (_ & Hl' & _).
      split_and!; [done|by exists from, R|done|done|exact Hc].
    + exists (S n), x; split; [done|]. right; right. rewrite Eo; destruct Hc as [-> Hs]. split_and!; [done|by eexists|done|done].
  - destruct (work_out_starts did (fst x) c l g requested swap from R p Hin Hwork) as (-> & _).
    pose proof (overtaken_commit m d2 files2 c2 l2 g2 c (MkRoot (Repo.r_cid R') (Repo.rev R')) (MkBlocks written gone)
      (Writes.index p) Hin2 Hne) as Hc.
    destruct (Actor.commit _ _ _ _ _ _ _ _ _ _) as [[d' files'] [[cleared|]|e]]; [done| |].
    + destruct Hc as [-> Hs]. apply (IH (d2, files') clock' c2 l2 g2); [|done|done].
      apply (too_late _ _ n x); [done| |by rewrite Eo|by rewrite Eo].
      rewrite Eo, (in_step_root_at _ _ _ _ Hin); cbn [fst]. rewrite (in_step_root_at _ _ _ _ Hin2). intros [= E%cid_text_inj]; done.
    + exists (S n), x; split; [done|]. right; right. rewrite Eo; destruct Hc as [-> Hs]. split_and!; [done|by eexists|done|done].
Qed.

End Attempts.

(** Alone, a write is not overtaken. *)
Lemma never_overtaken n0 x0 n x : (forall n y, others n y = y) -> overtaken n0 x0 n x -> n = n0 /\ x = x0.
Proof. intros Ha; induction 1 as [|n x y _ _ Hne _ _]; [done|]. by rewrite Ha in Hne. Qed.

End Races.
