(* ===== verification/SignupFacts.v ===== *)
(** * SignupFacts: a signup is whole or taken back, and what hanging up leaves

    [Honest] says what is relied on of a directory and of the wire to it;
    [clean], that nothing was here under the new identifier or its key.  A
    signup nobody hangs up on leaves an account in step with the directory, or
    nothing at all, or, where the directory would not say, an account kept to be
    safe.  Hanging up is covered await by await, including two at which it
    goes wrong. *)

From S2P Require Import Prelude Syntax Crypto Text Block Mst Concrete MstShape MstRead MstFacts Json Car Repo RepoFacts.
From S2P Require Import Storage Blobs Handles Actor Links Plc Accounts AccountsFacts Passwords Xrpc Auth Writes Sessions.
From S2P Require Import Log Signup WritesFacts SessionsFacts.
From Stdlib Require Import Lia.

Local Open Scope Z_scope.

(* ------------------------------------------------------------------ *)
(** ** The directory *)

(** What an exchange proves: an operation taken is [filed], one refused or
    never connected was not sent, and one that got no answer may be [flying],
    to be filed later; a read tells what is filed as it is answered; and nothing
    follows a tombstone that was taken. *)
Record Honest {W} (x : Exchanges W) (filed flying : W -> Prop) : Prop := {
  post_files : forall w w', post x w = (w', Ok tt) -> filed w';
  post_refused : forall w w' e, post x w = (w', Err e) -> e <> Uncertain ->
    (filed w' -> filed w \/ flying w) /\ (flying w' -> flying w);
  holds_yes : forall w w', holds x w = (w', Yes) -> filed w';
  holds_no : forall w w', holds x w = (w', No) -> ~ filed w';
  holds_reads : forall w w' held, holds x w = (w', held) -> (filed w' -> filed w \/ flying w) /\ (flying w' -> flying w);
  tombstone_taken : forall w w', post_tombstone x w = (w', Ok tt) -> ~ flying w'
}.

Section Sent.
Context {W : Type} (x : Exchanges W) (filed flying : W -> Prop) (Hx : Honest x filed flying).

(** Nothing filed, and nothing on its way. *)
Definition quiet (w : W) : Prop := ~ filed w /\ ~ flying w.

Lemma read_quiet w w' held : holds x w = (w', held) -> quiet w -> quiet w'.
Proof. intros E [? ?]; destruct (holds_reads _ _ _ Hx _ _ _ E); split; tauto. Qed.

Lemma refused_quiet w w' e : post x w = (w', Err e) -> e <> Uncertain -> quiet w -> quiet w'.
Proof. intros E Hne [? ?]; destruct (post_refused _ _ _ Hx _ _ _ E Hne); split; tauto. Qed.

(** What an answer settles, where the first attempt did or did not go out. *)
Definition settles (w w' : W) (registered : result PlcError unit) : Prop :=
  match registered with
  | Ok _ => filed w'
  | Err e => e <> Uncertain -> ~ filed w' /\ (quiet w -> quiet w')
  end.

Lemma confirm_settles w sent : (sent = false -> quiet w) ->
  let '(w', registered) := confirm x w sent in settles w w' registered.
Proof.
  intros Hq; unfold confirm. destruct (holds x w) as [w1 h1] eqn:E1.
  assert (h1 = Yes \/ h1 <> Yes) as [->|Hy] by (destruct h1; auto); [exact (holds_yes _ _ _ Hx _ _ E1)|].
  destruct (post x w1) as [w2 answer] eqn:E2.
  assert (match answer with
    | Ok _ => filed w2
    | Err again => let '(w3, h3) := holds x w2 in
        settles w w3 (match h3 with
          | Yes => Ok tt | No => Err again
          | Unknown => match sent, again with false, Uncertain => Err Uncertain | false, _ => Err again | true, _ => Err Uncertain end
          end)
    end) as Hs.
  { destruct answer as [[]|again]; [exact (post_files _ _ _ Hx _ _ E2)|]. destruct (holds x w2) as [w3 h3] eqn:E3.
    assert (again <> Uncertain -> quiet w -> quiet w3) as Hk.
    { intros Hne Hw. eapply read_quiet, refused_quiet, read_quiet; eauto. }
    destruct h3; [exact (holds_yes _ _ _ Hx _ _ E3)| |].
    - intros Hne; split; [exact (holds_no _ _ _ Hx _ _ E3)|auto].
    - destruct sent; [by intros []|]. assert (again <> Uncertain -> ~ filed w3) as Hf by (intros Hne; apply Hk; auto).
      destruct again; cbn; try (by intros []); intros Hne; (split; [by apply Hf|auto]). }
  destruct h1; [done| |]; (destruct answer as [[]|again]; [done|by destruct (holds x w2)]).
Qed.

(** Registering an identifier the directory has never heard of: [Ok] is only
    said where it is filed, anything but [Uncertain] only where it is not; and
    then it never will be, unless the first attempt was lost on the way. *)
Lemma send_settles w : quiet w ->
  let '(w', registered) := send x w in
  match registered with
  | Ok _ => filed w'
  | Err e => e <> Uncertain -> ~ filed w' /\ (snd (post x w) <> Err Uncertain -> quiet w')
  end.
Proof.
  intros Hq; unfold send. destruct (post x w) as [w1 [[]|e]] eqn:E1; [exact (post_files _ _ _ Hx _ _ E1)|].
  assert (e <> Uncertain -> quiet w1) as H1 by (intros Hne; by eapply refused_quiet).
  destruct e; try (intros Hne; specialize (H1 Hne); split; [apply H1|done]); cbn [snd].
  - pose proof (confirm_settles w1 false (fun _ => H1 ltac:(discriminate))) as Hc. destruct (confirm x w1 false) as [w2 [[]|e]]; [done|].
    intros Hne; destruct (Hc Hne) as [? Hk]; split; [done|]. intros _; by apply Hk, H1.
  - pose proof (confirm_settles w1 true ltac:(discriminate)) as Hc. destruct (confirm x w1 true) as [w2 [[]|e]]; [done|].
    intros Hne; destruct (Hc Hne) as [? Hk]; split; [done|]. by intros [].
Qed.

(** An identifier retired is one the directory does not hold and never will. *)
Lemma retire_settles w w' : retire x w = (w', true) -> quiet w'.
Proof.
  unfold retire; destruct (post_tombstone x w) as [w1 [[]|]] eqn:E1; [|done].
  destruct (holds x w1) as [w2 []] eqn:E2; try done. intros [= <-].
  pose proof (holds_reads _ _ _ Hx _ _ _ E2) as [_ F2]. pose proof (tombstone_taken _ _ _ Hx _ _ E1).
  split; [by eapply holds_no|tauto].
Qed.
End Sent.

(* ------------------------------------------------------------------ *)
(** ** The pieces of a signup *)

Section Facts.
Context (p256 k256 : Curve) `{!CurveOk p256, !CurveOk k256}.
Context `{Sha256} `{!Sha256Ok} `{CidText} `{!CidTextOk} `{Base58} `{Base64Url} `{Hmac} `{Password.Scrypt}.
Context `{Stamps} `{!StampsOk} `{Varint} `{CidBytes} `{!JsonCodec Auth.Header} `{!JsonCodec Auth.Claims} `{!Codec Car.Header}.
Context `{!Codec Operation} `{!Codec Tombstone} `{!Codec NodeData} `{!CodecOk NodeData} `{!Codec Ipld}.
Context `{!Codec Commit, !CodecOk Commit, !Codec Unsigned, !CodecOk Unsigned}.
Context `{!Codec IdentityBody} `{!Codec AccountBody} `{!Codec AppendBody} `{!Codec SyncBody}.

(** A hash spelled in base32 parses. *)
Lemma alphabet_char_elem d : 0 <= d < 32 -> alphabet_char d ∈ ALPHABET.
Proof. intros Hd; apply list_elem_of_In, nth_In. change (length ALPHABET) with 32%nat; lia. Qed.

Lemma minted_did_parses operation x : Plc.did operation = Ok x -> well_formed x.
Proof.
  unfold Plc.did, encode_plc; intros E. apply bind_Ok in E as (b & _ & E).
  assert (x = Did.mk (lit "did:plc:" ++ take LENGTH (base32 (sha256 b)))) as -> by congruence; clear E.
  destruct (base32_digits (sha256 b) (sha256_bytes b)) as (digits & -> & Hd & Hl & _).
  rewrite firstn_map. assert (Forall (fun c => c ∈ ALPHABET) (map alphabet_char (take LENGTH digits))) as Hin.
  { apply List.Forall_map. eapply Forall_impl; [by apply Forall_take|]. apply alphabet_char_elem. }
  assert (length (map alphabet_char (take LENGTH digits)) = 24%nat) as Hn.
  { rewrite length_map, length_take. pose proof (sha256_length b) as Hs. unfold len in Hl; rewrite Hs in Hl.
    change (5 * Z.of_nat (length digits) = 260) in Hl. change LENGTH with 24%nat; lia. }
  revert Hin Hn; generalize (map alphabet_char (take LENGTH digits)) as id; intros id Hin Hn.
  change (well_formed ?x) with (Did.validate (Did.str x) = Ok tt); cbn [Did.str]; unfold Did.validate.
  assert (len (lit "did:plc:" ++ id) = 32) as El by (unfold len; rewrite length_app, Hn; done).
  rewrite El; cbn [Z.gtb Z.compare Did.MAX_LEN].
  assert (lit "did:plc:" ++ id = lit "did:" ++ (lit "plc" ++ 58 :: id)) as -> by done.
  rewrite strip_prefix_app. assert (split_once 58 (lit "plc" ++ 58 :: id) = Some (lit "plc", id)) as ->.
  { apply split_once_Some; split; [done|]. apply (bool_decide_unpack _); vm_compute; exact I. }
  assert (forallb Did.is_allowed ALPHABET = true) as Ha by reflexivity. rewrite forallb_forall in Ha.
  assert (forall c, c ∈ id -> Did.is_allowed c = true /\ c <> 58 /\ c <> 37) as Hc.
  { rewrite Forall_forall in Hin. intros c Hc%Hin. split; [by apply Ha, list_elem_of_In|].
    split; intros ->; revert Hc; apply (bool_decide_unpack _); vm_compute; exact I. }
  assert (forallb Did.is_allowed id = true) as -> by (apply forallb_forall; intros c Hc'%list_elem_of_In; by apply Hc).
  assert (forall y, y = 58 \/ y = 37 -> last_is (Z.eqb y) id = false) as Hlast.
  { intros y Hy; unfold last_is. destruct (last id) as [c|] eqn:E; [|done].
    apply last_Some_elem_of, Hc in E as (_ & ? & ?). apply Z.eqb_neq; lia. }
  change (len (lit "plc") =? 0) with false. change (forallb is_ascii_lowercase (lit "plc")) with true. cbn [orb negb].
  rewrite !Hlast by auto. unfold len; by rewrite Hn.
Qed.
Section Steps.
Context (m : Manager p256 k256) (v : Drawn p256 k256) (signup : Signup.Signup p256 k256) (did : Did.t) (handle : Handle.t).
Abbreviation key := (signing_key p256 k256 v).
Abbreviation name := (display p256 k256 (public_key p256 k256 key)).
Abbreviation Server := (Server p256 k256).

(** Nothing here goes by the identifier or its key. *)
Record clean (s : Server) : Prop := {
  clean_dir : dirs p256 k256 s !! Did.str did = None;
  clean_key : reserved p256 k256 s !! name = None;
  clean_rows : Accounts.delete did (tables p256 k256 s) = tables p256 k256 s
}.

(** A server but for its clock; and with the account's files made, its key
    reserved beside them or not. *)
Definition clocked (clock : Tid.Clock) (s : Server) : Server :=
  MkServer _ _ (tables _ _ s) (reserved _ _ s) (dirs _ _ s) (blob_files _ _ s) clock (events _ _ s).
Definition filed_under (encoded : bytes) (d : Actor.Db) (dirs : gmap bytes (ActorDir p256 k256)) :=
  <[Did.str did := MkActorDir _ _ (Some key) (Some encoded) (Some d)]> dirs.
Definition built (t : Accounts) (encoded : bytes) (d : Actor.Db) (clock : Tid.Clock) (s : Server) : Server :=
  MkServer _ _ t (<[name := key]> (reserved _ _ s)) (filed_under encoded d (dirs _ _ s)) (blob_files _ _ s) clock (events _ _ s).
Definition standing (t : Accounts) (encoded : bytes) (d : Actor.Db) (clock : Tid.Clock) (s : Server) : Server :=
  MkServer _ _ t (reserved _ _ s) (filed_under encoded d (dirs _ _ s)) (blob_files _ _ s) clock (events _ _ s).

(** The first commit and the database it is in. *)
Definition made (d : Actor.Db) (c : Commit) (s : Server) : Prop :=
  c_did c = did /\ c_rev c = snd (Tid.mint (tid_clock _ _ s) (tid_micros _ _ v))
  /\ commit_verify p256 k256 c (public_key p256 k256 key) = Ok tt
  /\ (head c <> MstShape.cid_of 0 [] -> in_step did d c [] ∅).

Lemma start_builds encoded s : clean s -> (0 <= Tid.last (tid_clock _ _ s))%Z ->
  exists d c blocks,
    start p256 k256 m v did encoded s
      = (built (tables _ _ s) encoded d (fst (Tid.mint (tid_clock _ _ s) (tid_micros _ _ v))) s,
         Ok (MkRoot (head c) (c_rev c), blocks))
    /\ made d c s.
Proof.
  intros [Hd Hk _] Hc; unfold start; rewrite Hk; cbn [write_key reserved with_reserved dirs blob_files tid_clock tables events].
  rewrite Hd; cbn [default Datatypes.id dir_key dir_store no_files write_key].
  destruct (start_repo_starts p256 k256 (blob_store _ _ m) did key (committed_at _ _ v) (touched_at _ _ v)
    (tid_micros _ _ v) (tid_clock _ _ s) (blob_files _ _ s) Hc) as (d & c & blocks & E & Hm).
  exists d, c, blocks; rewrite E; split; [|done]. done.
Qed.

Lemma discard_built t encoded d clock s : clean s -> Accounts.delete did t = tables _ _ s ->
  discard p256 k256 v did (built t encoded d clock s) = clocked clock s.
Proof.
  intros [Hd Hk _] Ht; unfold discard, with_dirs, with_reserved, with_tables, built, clocked, filed_under; cbn.
  rewrite Ht. f_equal; rewrite delete_insert_eq; by apply delete_id.
Qed.

Lemma discard_standing t encoded d clock s : clean s -> Accounts.delete did t = tables _ _ s ->
  discard p256 k256 v did (standing t encoded d clock s) = clocked clock s.
Proof.
  intros [Hd Hk _] Ht; unfold discard, with_dirs, with_reserved, with_tables, standing, clocked, filed_under; cbn.
  rewrite Ht, delete_insert_eq. f_equal; by apply delete_id.
Qed.

Lemma discard_clean s : clean s -> discard p256 k256 v did s = s.
Proof.
  intros [Hd Hk Ht]; unfold discard, with_dirs, with_reserved, with_tables; cbn. rewrite Ht.
  destruct s; cbn in *; f_equal; by apply delete_id.
Qed.

Lemma release_built t encoded d clock s : clean s ->
  release p256 k256 v (built t encoded d clock s) = (standing t encoded d clock s, tt).
Proof.
  intros [_ Hk _]; unfold release, with_reserved, built, standing; cbn. do 2 f_equal.
  rewrite delete_insert_eq; by apply delete_id.
Qed.

(** What is registered, and the tables with it. *)
Abbreviation asked := (fun root => registration p256 k256 v did handle signup root).
Abbreviation tables_with := (fun root s => registered (registered_at _ _ v) (asked root) (tables _ _ s)).

Lemma register_built root encoded d clock s : clean s -> well_formed did ->
  match register p256 k256 v did handle signup root (built (tables _ _ s) encoded d clock s) with
  | (s', Ok _) => s' = built (tables_with root s) encoded d clock s
      /\ Accounts.delete did (tables_with root s) = tables _ _ s
      /\ holding (tables_with root s) (reg_account (asked root))
  | (s', Err _) => s' = built (tables _ _ s) encoded d clock s
  end.
Proof.
  intros Hc Hw; unfold register, Accounts.create; cbn [tables built].
  destruct (registering _ _ _) as [t|e] eqn:E; cbn [in_store map_err]; [|done].
  apply registering_Ok in E as [Hf ->]. split_and!; [done| |].
  - apply (delete_registered (registered_at _ _ v) (asked root)); [done| |apply Hc]. by intros x [= <-].
  - destruct (registered_tables (registered_at _ _ v) (asked root) (tables _ _ s)) as (Ea & Ec & _); cbv zeta in *.
    eexists _, _. rewrite Ea, Ec, !lookup_insert_eq. by split_and!.
Qed.

End Steps.
(* ------------------------------------------------------------------ *)
(** ** The whole of it *)

Section Whole.
Context {W : Type} (exchanges : Operation -> Tombstone -> Exchanges W) (cut : W -> W) (filed flying : W -> Prop).
Context (Hx : forall op t, Honest (exchanges op t) filed flying).
Context (m : Manager p256 k256) (v : Drawn p256 k256) (signup : Signup.Signup p256 k256).
Context (s : Server p256 k256) (w : W).
Context (Hquiet : quiet filed flying w) (Hclock : (0 <= Tid.last (tid_clock _ _ s))%Z).
Abbreviation passes := (checked p256 k256 m v signup (tables _ _ s)).
Context (Hclean : forall did handle op, passes = Ok (did, handle, op) -> clean v did s).

(** Nothing moved but the clock. *)
Definition untouched (s' : Server p256 k256) : Prop := exists clock, s' = clocked clock s.

(** The account is there: its rows, its files with a first commit its store is
    in step with, and no key left reserved. *)
Definition stands_at (c : Commit) (did : Did.t) (handle : Handle.t) (s' : Server p256 k256) : Prop :=
  let asked := registration p256 k256 v did handle signup (MkRoot (head c) (c_rev c)) in
  exists encoded d, made v did d c s
    /\ tables _ _ s' = registered (registered_at _ _ v) asked (tables _ _ s)
    /\ holding (tables _ _ s') (reg_account asked)
    /\ dirs _ _ s' = filed_under v did encoded d (dirs _ _ s)
    /\ reserved _ _ s' = reserved _ _ s /\ blob_files _ _ s' = blob_files _ _ s.
Definition stands (did : Did.t) (handle : Handle.t) (s' : Server p256 k256) : Prop := exists c, stands_at c did handle s'.

Lemma passes_did did handle op : passes = Ok (did, handle, op) -> well_formed did /\ exists b, encode op = Ok b.
Proof.
  unfold checked. destruct (_ <? _); [done|]. destruct (_ && _); [done|]. destruct (negb _); [done|]. intros E.
  apply bind_Ok in E as (h & _ & E). apply bind_Ok in E as (u & _ & E). apply bind_Ok in E as (o & _ & E).
  apply bind_Ok in E as (x & Ed & E). apply map_err_Ok in Ed. assert (x = did /\ o = op) as [-> ->] by (split; congruence).
  split; [by eapply minted_did_parses|]. unfold Plc.did in Ed. apply bind_Ok in Ed as (b & Eb & _).
  apply map_err_Ok in Eb. by exists b.
Qed.

(** A signup told to the directory: it stands where the directory took it, is
    taken back where the directory said it did not, and is kept where nothing
    was said and nothing was retired. *)
Definition answered (op : Operation) (root : Root) (c : Commit) (blocks : BlockMap.t) (did : Did.t) (handle : Handle.t)
    (s' : Server p256 k256) (w' : W) (answer : option (result Writes.Error Created)) : Prop :=
  match answer with
  | Some (Ok created) =>
      created = MkCreated did handle (mint (tokens _ _ m) did None (token_id _ _ v) (minted_at _ _ v))
      /\ filed w' /\ stands_at c did handle s'
      /\ events _ _ s' = fst (log_account (logged_at _ _ v) did handle (Actor.cid root) (Actor.rev root) blocks (events _ _ s))
  | Some (Err e) =>
      (untouched s' /\ ~ filed w'
       /\ ((forall op t, snd (post (exchanges op t) w) <> Err Uncertain) \/ e = Directory Uncertain -> quiet filed flying w'))
      \/ e = Directory Uncertain /\ stands_at c did handle s'
  | None => False
  end.

Lemma told_answers op encoded d c clock blocks did handle :
  let root := MkRoot (head c) (c_rev c) in
  let asked := registration p256 k256 v did handle signup root in
  let t := registered (registered_at _ _ v) asked (tables _ _ s) in
  clean v did s -> made v did d c s -> Accounts.delete did t = tables _ _ s -> holding t (reg_account asked) ->
  let '(s', w', answer) := told p256 k256 exchanges cut m v None did handle op root blocks (built v did t encoded d clock s) w in
  answered op root c blocks did handle s' w' answer.
Proof.
  intros root asked t Hc Hm Hd Hh. unfold told; cbn [hangs].
  set (x := exchanges op _). pose proof (Hx op (match tombstone p256 k256 op (plc_rotation_key _ _ m) with
    | Ok t => t | Err _ => MkTombstone [] [] None end)) as Hx1; fold x in Hx1.
  pose proof (send_settles x filed flying Hx1 w Hquiet) as Hs.
  destruct (send x w) as [w1 registered]; rewrite andb_false_r.
  assert (forall s', tables _ _ s' = t -> dirs _ _ s' = filed_under v did encoded d (dirs _ _ s) ->
    reserved _ _ s' = reserved _ _ s -> blob_files _ _ s' = blob_files _ _ s -> stands_at c did handle s') as Hst.
  { intros s' E1 E2 E3 E4. exists encoded, d. rewrite E1. by split_and!. }
  assert (untouched (discard p256 k256 v did (standing v did t encoded d clock s))) as Hu.
  { exists clock; by apply discard_standing. }
  unfold blocking; destruct registered as [[]|e].
  - rewrite release_built by done. unfold Signup.log; cbn [events standing].
    destruct (is_ok (account_created _ _ _ _ _)); cbn [tables reserved dirs blob_files tid_clock events standing];
      destruct (log_account _ _ _ _ _ _ _) as [ev r] eqn:El; cbn;
      (split_and!; [done|done|by apply Hst|exact (eq_sym (f_equal fst El))]).
  - assert (e = Uncertain \/ e <> Uncertain) as [->|Hne] by (destruct e; auto; by right).
    + destruct (is_ok (tombstone p256 k256 op (plc_rotation_key _ _ m))).
      * destruct (retire x w1) as [w2 taken] eqn:Er. rewrite release_built by done.
        destruct taken; cbn [undo answered].
        -- pose proof (retire_settles x filed flying Hx1 w1 w2 Er) as Hq. left; split_and!; [done|apply Hq|done].
        -- right; split; [done|by apply Hst].
      * rewrite release_built by done; cbn [undo answered]. right; split; [done|by apply Hst].
    + destruct (Hs Hne) as [Hf Hq]. assert (answered op root c blocks did handle (clocked clock s) w1 (Some (Err (Directory e)))).
      { left; split_and!; [by eexists|done|]. intros [Hp|[=]]; [|done]. by apply Hq, Hp. }
      destruct e; try done; rewrite release_built by done; cbn [undo]; by rewrite discard_standing.
Qed.

(** C9 (safety). A signup is whole or taken back, and the directory is never
    left naming an account that is not here. Where the directory is honest and
    had not heard of the identifier, and nobody hangs up: a signup that is
    answered is filed there, and here are its rows, its files, a first signed
    commit its store is in step with, its log entries and a session, and no key
    left reserved. One that is refused, by a check, by a race for a name or by
    the directory, leaves nothing but a clock that moved, and the directory does
    not hold it, nor ever will unless its first attempt was lost on the way. And
    where the directory would not say, either it was retired, which leaves
    nothing anywhere, or the account is kept. *)
Theorem a_signup_is_whole_or_taken_back :
  let '(s', w', answer) := Signup.create p256 k256 exchanges cut m v signup None s w in
  match answer with
  | Some (Ok created) =>
      let did := cr_did created in let handle := cr_handle created in
      exists op c blocks, passes = Ok (did, handle, op) /\ filed w' /\ stands_at c did handle s'
        /\ cr_credentials created = mint (tokens _ _ m) did None (token_id _ _ v) (minted_at _ _ v)
        /\ events _ _ s' = fst (log_account (logged_at _ _ v) did handle (head c) (c_rev c) blocks (events _ _ s))
  | Some (Err e) =>
      (untouched s' /\ ~ filed w'
       /\ ((forall op t, snd (post (exchanges op t) w) <> Err Uncertain) \/ e = Directory Uncertain -> quiet filed flying w'))
      \/ e = Directory Uncertain /\ exists did handle op, passes = Ok (did, handle, op) /\ stands did handle s'
  | None => False
  end.
Proof.
  unfold Signup.create. destruct passes as [[[did handle] op]|e] eqn:Ep.
  2: { left; split_and!; [exists (tid_clock _ _ s); by destruct s|apply Hquiet|done]. }
  destruct (passes_did _ _ _ Ep) as (Hw & enc & Ee). pose proof (Hclean _ _ _ eq_refl) as Hc.
  unfold settled; rewrite Ee; cbn [blocking hangs].
  destruct (start_builds m v did enc s Hc Hclock) as (d & c & blocks & -> & Hm).
  set (clock := fst (Tid.mint _ _)).
  pose proof (register_built v signup did handle (MkRoot (head c) (c_rev c)) enc d clock s Hc Hw) as Hr.
  destruct (register _ _ _ _ _ _ _ _) as [s1 [[]|e]].
  - destruct Hr as (-> & Hd & Hh).
    pose proof (told_answers op enc d c clock blocks did handle Hc Hm Hd Hh) as Ht. cbv zeta in Ht.
    destruct (told _ _ _ _ _ _ _ _ _ _ _ _ _ _) as [[s' w'] [[created|e]|]]; [| |done].
    + destruct Ht as (-> & Hf & Hs & Hl); cbn [cr_did cr_handle cr_credentials]. by exists op, c, blocks.
    + destruct Ht as [Ht|[-> Ht]]; [by left|]. right; split; [done|]. exists did, handle, op; split; [done|]. by exists c.
  - rewrite Hr; cbn [undo]. left; split_and!; [exists clock; apply discard_built; [done|apply Hc]|apply Hquiet|done].
Qed.

(** What the directory is spoken to with. *)
Abbreviation wire op := (exchanges op (match tombstone p256 k256 op (plc_rotation_key _ _ m) with
  | Ok t => t | Err _ => MkTombstone [] [] None end)).

(** Where a caller hung up after the account was made. *)
Definition hung_up_after (hung : Hangup) (op : Operation) (c : Commit) (did : Did.t) (handle : Handle.t)
    (s' : Server p256 k256) (w' : W) : Prop :=
  match at_await hung with
  | AtSend => stands_at c did handle (fst (release _ _ v s')) /\ w' = cut w
  | AtRetire => stands_at c did handle (fst (release _ _ v s')) /\ w' = cut (fst (send (wire op) w))
  | AtRelease =>
      untouched s' /\ (snd (send (wire op) w) = Ok tt -> filed w')
      \/ snd (send (wire op) w) = Err Uncertain /\ stands_at c did handle s'
  | _ => stands_at c did handle s' /\ filed w'
  end.

Lemma told_hung_up hung op encoded d c clock blocks did handle :
  let root := MkRoot (head c) (c_rev c) in
  let asked := registration p256 k256 v did handle signup root in
  let t := registered (registered_at _ _ v) asked (tables _ _ s) in
  clean v did s -> made v did d c s -> Accounts.delete did t = tables _ _ s -> holding t (reg_account asked) ->
  let '(s', w', answer) :=
    told p256 k256 exchanges cut m v (Some hung) did handle op root blocks (built v did t encoded d clock s) w in
  answer = None -> hung_up_after hung op c did handle s' w'.
Proof.
  intros root asked t Hc Hm Hd Hh. unfold told, hung_up_after. pose proof (Hx op (match tombstone p256 k256 op (plc_rotation_key _ _ m) with
    | Ok t => t | Err _ => MkTombstone [] [] None end)) as Hx1.
  pose proof (send_settles (wire op) filed flying Hx1 w Hquiet) as Hs.
  assert (forall s', tables _ _ s' = t -> dirs _ _ s' = filed_under v did encoded d (dirs _ _ s) ->
    reserved _ _ s' = reserved _ _ s -> blob_files _ _ s' = blob_files _ _ s -> stands_at c did handle s') as Hst.
  { intros s' E1 E2 E3 E4. exists encoded, d. rewrite E1. by split_and!. }
  assert (stands_at c did handle (fst (release _ _ v (built v did t encoded d clock s)))) as Hrel.
  { rewrite release_built by done. by apply Hst. }
  assert (forall late0, let '(s', o) := blocking p256 k256 (Some (MkHangup AtRelease late0)) AtRelease
    (undo p256 k256 v did Discard) (release p256 k256 v) (built v did t encoded d clock s) in o = None /\ untouched s') as Hdis.
  { intros late0; unfold blocking; cbn [at_await late]. rewrite decide_True by done. cbn [undo].
    rewrite discard_built, release_built by done; cbn [fst]. rewrite discard_standing by done.
    destruct late0; (split; [done|exists clock]); [|done].
    unfold release, with_reserved, clocked; cbn. f_equal. apply delete_id, (clean_key v did s Hc). }
  destruct hung as [a late0]. set (h := Some (MkHangup a late0)).
  assert (forall b, hangs h b = bool_decide (a = b)) as Eh by done. rewrite !Eh.
  assert (forall A b g (f : Server p256 k256 -> Server p256 k256 * A) s, a <> b ->
    blocking p256 k256 h b g f s = let '(s, x) := f s in (s, Some x)) as Eb.
  { intros A b g f s0 Hne; unfold blocking, h; cbn [at_await]. by rewrite decide_False. }
  assert (forall guard (f : Server p256 k256 -> Server p256 k256 * unit) s0,
    blocking p256 k256 (Some (MkHangup AtRelease late0)) AtRelease guard f s0
    = (if late0 then fst (f (guard s0)) else guard (fst (f s0)), None)) as Er.
  { intros guard f s0; unfold blocking; cbn [at_await late]. by rewrite decide_True. }
  destruct (decide (a = AtSend)) as [->|Hns]; [rewrite bool_decide_true by done; by intros _|].
  rewrite (bool_decide_false (a = AtSend)) by done. destruct (send (wire op) w) as [w1 registered] eqn:Esend; cbn [fst snd].
  destruct (_ && bool_decide (a = AtRetire)) eqn:Eret.
  { apply andb_true_iff in Eret as [_ ->%bool_decide_eq_true]. by intros _. }
  set (pair := match registered with Err Uncertain => _ | _ => _ end).
  assert (snd pair = true \/ snd pair = false /\ registered = Err Uncertain) as Hp.
  { unfold pair; destruct registered as [|[]]; auto. destruct (is_ok _); [destruct (retire (wire op) w1) as [w2 []]|]; auto. }
  assert (registered = Ok tt -> fst pair = w1) as Hw1 by (unfold pair; by intros ->). clearbody pair.
  destruct pair as [w2 done_]; cbn [fst snd] in *.
  destruct (decide (a = AtRelease)) as [->|Hnr].
  { destruct done_.
    - pose proof (Hdis late0) as Hd0. fold h in Hd0. destruct (blocking p256 k256 h AtRelease _ _ _) as [s1 o]; destruct Hd0 as [-> Hu].
      intros _; left; split; [done|]. intros ->; by rewrite Hw1.
    - destruct Hp as [?|[_ ->]]; [done|]. unfold h; rewrite Er; cbn [undo]. rewrite release_built by done; cbn [fst].
      intros _; right; split; [done|]. destruct late0; by apply Hst. }
  rewrite Eb by done. rewrite release_built by done. destruct registered as [[]|e]; [|done].
  destruct (is_ok (account_created _ _ _ _ _)).
  2: { cbn. unfold Signup.log. by destruct (log_account _ _ _ _ _ _ _). }
  destruct (decide (a = AtLog)) as [->|Hnl].
  { unfold h, blocking; cbn [at_await late undo]. rewrite decide_True by done.
    intros _; rewrite Hw1 by done; split; [|done]. apply Hst; destruct late0; unfold Signup.log; cbn; by destruct (log_account _ _ _ _ _ _ _). }
  rewrite Eb by done. unfold Signup.log; by destruct (log_account _ _ _ _ _ _ _).
Qed.

(** C10 (error). What hanging up leaves, await by await. Before the directory is
    told, nothing, where the blocking work was done with when the guard ran; and
    once the account is logged, the account. Hung up on while the directory is
    told, or while the identifier is retired, the account is kept with its key
    still reserved. Two ways it goes wrong. Hung up on while its reservation is
    given up, an account the directory has taken is deleted, since the guard is
    armed again as soon as the directory says anything. And hung up on before the
    registration has run, the guard deletes first and the registration then goes
    in: an account with no files and no identifier, holding its handle and its
    email; or, before the files were written, files that are nobody's. *)
Theorem hanging_up_on_a_signup hung did handle op :
  passes = Ok (did, handle, op) ->
  let asked c := registration p256 k256 v did handle signup (MkRoot (head c) (c_rev c)) in
  let '(s', w', answer) := Signup.create p256 k256 exchanges cut m v signup (Some hung) s w in
  answer = None ->
  match at_await hung, late hung with
  | AtHash, _ | AtRepo, false | AtRegister, false => untouched s' /\ w' = w
  | AtRepo, true =>
      w' = w /\ tables _ _ s' = tables _ _ s /\ is_Some (dirs _ _ s' !! Did.str did)
  | AtRegister, true =>
      w' = w /\ dirs _ _ s' = dirs _ _ s
      /\ exists c, tables _ _ s' = fst (Accounts.create (registered_at _ _ v) (asked c) (tables _ _ s))
           /\ (fits (tables _ _ s) (asked c) -> holding (tables _ _ s') (reg_account (asked c)))
  | AtSend, _ | AtRetire, _ => exists c, stands_at c did handle (fst (release _ _ v s'))
  | AtRelease, _ =>
      untouched s' /\ (snd (send (wire op) w) = Ok tt -> filed w')
      \/ snd (send (wire op) w) = Err Uncertain /\ stands did handle s'
  | AtLog, _ => stands did handle s' /\ filed w'
  end.
Proof.
  intros Ep asked. unfold Signup.create; rewrite Ep. destruct (passes_did _ _ _ Ep) as (Hw & enc & Ee).
  pose proof (Hclean _ _ _ Ep) as Hc. unfold settled; rewrite Ee; cbn [undo].
  destruct (start_builds m v did enc s Hc Hclock) as (d & c & blocks & Estart & Hm).
  set (clock := fst (Tid.mint _ _)) in Estart.
  destruct hung as [a late0]; cbn [at_await late]. unfold blocking at 1; cbn [at_await late].
  destruct (decide (a = AtRepo)) as [->|Hn1].
  { intros _; cbn [undo]; destruct late0.
    - rewrite discard_clean, Estart by done; cbn. split_and!; [done|done|]. unfold filed_under; rewrite lookup_insert_eq; by eexists.
    - rewrite Estart; cbn [fst]. split; [|done]. exists clock; apply discard_built; [done|apply Hc]. }
  rewrite Estart. unfold hangs at 1; cbn [at_await]. destruct (decide (a = AtHash)) as [->|Hn2].
  { rewrite bool_decide_true by done. intros _; split; [|done]. exists clock; apply discard_built; [done|apply Hc]. }
  rewrite (bool_decide_false (a = AtHash)) by done.
  pose proof (register_built v signup did handle (MkRoot (head c) (c_rev c)) enc d clock s Hc Hw) as Hr.
  unfold blocking at 1; cbn [at_await late]. destruct (decide (a = AtRegister)) as [->|Hn3].
  { intros _; cbn [undo]; destruct late0.
    - rewrite discard_built by (done || apply Hc). unfold register; cbn [tables clocked]. fold (asked c).
      destruct (Accounts.create _ (asked c) _) as [t r] eqn:Et; cbn. split_and!; [done|done|]. exists c; rewrite Et; split; [done|].
      intros Hf. unfold Accounts.create in Et; rewrite (registering_fits _ _ _ Hf) in Et. injection Et as <- <-.
      unfold register in Hr; cbn [tables built] in Hr. unfold Accounts.create in Hr. fold (asked c) in Hr.
      rewrite (registering_fits _ _ _ Hf) in Hr; cbn in Hr. apply Hr.
    - split; [|done]. destruct (register _ _ _ _ _ _ _ _) as [s1 [[]|e]]; cbn [fst].
      + destruct Hr as (-> & Hd & _). exists clock; by apply discard_built.
      + subst s1. exists clock; apply discard_built; [done|apply Hc]. }
  destruct (register _ _ _ _ _ _ _ _) as [s1 [[]|e]]; [|done].
  destruct Hr as (-> & Hd & Hh). pose proof (told_hung_up (MkHangup a late0) op enc d c clock blocks did handle Hc Hm Hd Hh) as Ht.
  cbv zeta in Ht. destruct (told _ _ _ _ _ _ _ _ _ _ _ _ _ _) as [[s' w'] answer].
  intros Ha; specialize (Ht Ha). unfold hung_up_after in Ht; cbn [at_await] in Ht.
  destruct a; try done; [exists c; apply Ht..| |destruct Ht; split; [by exists c|done]].
  destruct Ht as [Ht|[Hs Ht]]; [by left|right; split; [done|by exists c]].
Qed.

End Whole.
End Facts.

(* ------------------------------------------------------------------ *)
(** ** At a concrete server *)

#[export] Instance Service_eq_dec : EqDecision Service.
Proof. solve_decision. Defined.
#[export] Instance Service_countable : Countable Service.
Proof. apply (inj_countable' (fun x => (service_kind x, endpoint x)) (fun '(k, e) => MkService k e)); by intros []. Defined.
#[export] Instance Operation_eq_dec : EqDecision Operation.
Proof. solve_decision. Defined.
#[export] Instance Operation_countable : Countable Operation.
Proof.
  apply (inj_countable' (fun o => (kind o, rotation_keys o, verification_methods o, also_known_as o, services o, prev o, sig o))
    (fun '(k, r, v, a, s, p, g) => MkOperation k r v a s p g)); by intros [].
Defined.
#[export] Instance Tombstone_eq_dec : EqDecision Tombstone.
Proof. solve_decision. Defined.
#[export] Instance Tombstone_countable : Countable Tombstone.
Proof. apply (inj_countable' (fun t => (t_kind t, t_prev t, t_sig t)) (fun '(k, p, g) => MkTombstone k p g)); by intros []. Defined.

Module Sample.

#[export] Existing Instances Concrete.Mix.mixed Concrete.Mix.mixed_ok Concrete.Coded.codec Concrete.Coded.codec_ok
  Crypto.Toy.curve_ok Crypto.Toy.base58 Json.Plain.cid_text Json.Plain.cid_text_ok Auth.Sample.shifted Auth.Sample.appended
  Auth.Sample.header_json Auth.Sample.claims_json SessionsFacts.Sample.plain_scrypt AccountsFacts.Sample.plain_stamps
  AccountsFacts.Sample.plain_stamps_ok Car.Sample.varint Car.Sample.cid_bytes Car.Sample.Header_countable
  RepoFacts.Sample.unsigned_codec RepoFacts.Sample.unsigned_codec_ok RepoFacts.Sample.commit_codec
  RepoFacts.Sample.commit_codec_ok.

(** Bodies of the log, which nothing here reads back. *)
#[export] Instance identity_body : Codec IdentityBody := {| to_vec x := Ok (Did.str (id_did x)); from_slice _ := Err "unread"%string |}.
#[export] Instance account_body : Codec AccountBody := {| to_vec x := Ok (Did.str (acc_did x)); from_slice _ := Err "unread"%string |}.
#[export] Instance append_body : Codec AppendBody := {| to_vec x := Ok (ap_blocks x); from_slice _ := Err "unread"%string |}.
#[export] Instance sync_body : Codec SyncBody := {| to_vec x := Ok (sy_blocks x); from_slice _ := Err "unread"%string |}.

(** A directory: what is filed, whether it was retired, and whether it loses the
    next answer it gives. *)
Record World := MkWorld { taken : bool; gone : bool; loses : bool }.
Definition directory : Exchanges World := {|
  post w := if gone w then (w, Err (Refused 400))
            else (MkWorld true false false, if loses w then Err Uncertain else Ok tt);
  post_tombstone w := if taken w then (MkWorld true true (loses w), Ok tt) else (w, Err (Refused 404));
  holds w := (w, if taken w && negb (gone w) then Yes else No)
|}.
Definition there (w : World) : Prop := taken w && negb (gone w) = true.
Definition coming (w : World) : Prop := False.
Lemma directory_honest : Honest directory there coming.
Proof.
  split; unfold there, coming; cbn.
  - intros [t [] []] w'; cbn; intros E; by simplify_eq.
  - intros [t [] []] w' e; cbn; intros E Hne; simplify_eq; tauto.
  - intros w w'; destruct (_ && _) eqn:E; [by intros [= <-]|done].
  - intros w w'; destruct (_ && _) eqn:E; [done|intros [= <-]; by rewrite E].
  - intros w w' held [= <- _]; tauto.
  - by intros w w' _ [].
Qed.

Definition manager : Manager Toy.curve Toy.curve :=
  MkManager _ _ (Handles.new [lit ".example.com"] []) true (lit "https://pds.example.com") None Toy.keypair
    Auth.Sample.tokens (MkBlobs [lit "blocks"]).
Definition drawn : Drawn Toy.curve Toy.curve :=
  MkDrawn _ _ Toy.keypair (lit "salted") (lit "session") (lit "2024") 5 (Some 1700000000000000) 5 5 5 5.
Definition alice : Signup.Signup Toy.curve Toy.curve :=
  MkSignup _ _ (lit "alice.example.com") (lit "alice@example.com") (lit "a password") (Some AccountsFacts.Sample.code) None.
Definition empty_server : Server Toy.curve Toy.curve :=
  MkServer _ _ AccountsFacts.Sample.invited ∅ ∅ Fs.empty (Tid.MkClock 7 0) empty_log.

Lemma empty_clean did : clean Toy.curve Toy.curve drawn did empty_server.
Proof.
  split; [done|done|]. unfold Accounts.delete, empty_server; cbn -[AccountsFacts.Sample.invited].
  unfold AccountsFacts.Sample.invited, create_invites. destruct (insert_codes _ _ _) as [codes|e]; cbn;
    by rewrite !delete_empty, !map_filter_empty.
Qed.

(** A directory that answers, and one that loses its first answer. *)
Definition fresh_world (loses : bool) : World := MkWorld false false loses.

Lemma fresh_quiet {loses} : quiet there coming (fresh_world loses).
Proof. split; [done|by intros []]. Qed.

End Sample.
Import Sample.

Example signs_up : match snd (Signup.create Toy.curve Toy.curve (fun _ _ => directory) Datatypes.id manager drawn alice None
    empty_server (fresh_world true)) with Some (Ok _) => true | _ => false end = true.
Proof. vm_compute. reflexivity. Qed.

Lemma a_signup_is_whole_or_taken_back_witness :
  let w := fresh_world true in
  let '(s', w', answer) := Signup.create Toy.curve Toy.curve (fun _ _ => directory) Datatypes.id manager drawn alice None empty_server w in
  match answer with
  | Some (Ok created) =>
      let did := cr_did created in let handle := cr_handle created in
      exists op c blocks, checked Toy.curve Toy.curve manager drawn alice (tables _ _ empty_server) = Ok (did, handle, op)
        /\ there w' /\ stands_at Toy.curve Toy.curve drawn alice empty_server c did handle s'
        /\ cr_credentials created = mint (tokens _ _ manager) did None (token_id _ _ drawn) (minted_at _ _ drawn)
        /\ events _ _ s' = fst (log_account (logged_at _ _ drawn) did handle (head c) (c_rev c) blocks (events _ _ empty_server))
  | Some (Err e) =>
      (untouched Toy.curve Toy.curve empty_server s' /\ ~ there w'
       /\ ((forall (op : Operation) (t : Tombstone), snd (post directory w) <> Err Uncertain) \/ e = Directory Uncertain -> quiet there coming w'))
      \/ e = Directory Uncertain /\ exists did handle op,
           checked Toy.curve Toy.curve manager drawn alice (tables _ _ empty_server) = Ok (did, handle, op)
           /\ stands Toy.curve Toy.curve drawn alice empty_server did handle s'
  | None => False
  end.
Proof.
  pose proof (a_signup_is_whole_or_taken_back Toy.curve Toy.curve (fun _ _ => directory) Datatypes.id there coming
    (fun _ _ => directory_honest) manager drawn alice empty_server (fresh_world true) fresh_quiet (Z.le_refl 0)
    (fun did handle op _ => empty_clean did)) as Hx.
  exact Hx.
Defined.

(** Hung up on as its reservation is given up, after the directory took it. *)
Lemma hanging_up_on_a_signup_witness :
  exists did handle op, checked Toy.curve Toy.curve manager drawn alice (tables _ _ empty_server) = Ok (did, handle, op)
  /\ let '(s', w', answer) := Signup.create Toy.curve Toy.curve (fun _ _ => directory) Datatypes.id manager drawn alice
        (Some (MkHangup AtRelease false)) empty_server (fresh_world false) in
     answer = None
     /\ (untouched Toy.curve Toy.curve empty_server s' /\ (snd (send directory (fresh_world false)) = Ok tt -> there w')
        \/ snd (send directory (fresh_world false)) = Err Uncertain
           /\ stands Toy.curve Toy.curve drawn alice empty_server did handle s').
Proof.
  destruct (checked Toy.curve Toy.curve manager drawn alice (tables _ _ empty_server)) as [[[did handle] op]|e] eqn:E.
  2: { assert (is_ok (checked Toy.curve Toy.curve manager drawn alice (tables _ _ empty_server)) = true) as Hk
         by (vm_compute; reflexivity). by rewrite E in Hk. }
  exists did, handle, op; split; [done|].
  pose proof (hanging_up_on_a_signup Toy.curve Toy.curve (fun _ _ => directory) Datatypes.id there coming
    (fun _ _ => directory_honest) manager drawn alice empty_server (fresh_world false) fresh_quiet (Z.le_refl 0)
    (fun did handle op _ => empty_clean did) (MkHangup AtRelease false) did handle op E) as Hx.
  assert (match snd (Signup.create Toy.curve Toy.curve (fun _ _ => directory) Datatypes.id manager drawn alice
    (Some (MkHangup AtRelease false)) empty_server (fresh_world false)) with None => true | _ => false end = true) as Hk
    by (vm_compute; reflexivity).
  destruct (Signup.create _ _ _ _ _ _ _ _ _ _) as [[s' w'] [a|]]; [discriminate Hk|].
  split; [reflexivity|]. exact (Hx eq_refl).
Defined.
