(* ===== verification/ServingFacts.v ===== *)
(** * ServingFacts: what a download and a proof are good for

    A download is the repository: its pieces are one CAR file, and whoever holds
    what came before it can load from it what this server has.  A write leaves the
    whole server in step: its account's files, the log and the roots beside the
    accounts, whatever others write to the account between its attempts
    ([WritesRaces]). *)

From S2P Require Import Prelude Syntax Crypto Text Block Mst Concrete MstShape MstRead MstStore MstFacts Json Car Repo RepoFacts.
From S2P Require Import MstDiff MstWalk Storage Blobs Handles Paging Actor ActorFacts ActorReads Links Plc Accounts AccountsFacts.
From S2P Require Import Passwords Xrpc Auth Writes Sessions Log LogFacts Signup Serving WritesFacts WritesRaces.
From Stdlib Require Import Lia.

Local Open Scope Z_scope.

Section Facts.
Context (p256 k256 : Curve) `{!CurveOk p256, !CurveOk k256}.
Context `{Sha256} `{!Sha256Ok} `{CidText} `{!CidTextOk} `{Stamps}.
Context `{!Varint} `{!VarintOk} `{!CidBytes} `{!CidBytesOk} `{!Codec Car.Header} `{!CodecOk Car.Header}.
Context `{!Codec NodeData} `{!CodecOk NodeData} `{!Codec Ipld}.
Context `{!Codec Commit, !CodecOk Commit, !Codec Unsigned, !CodecOk Unsigned}.
Context `{!Codec AppendBody} `{!CodecOk AppendBody}.
Abbreviation Server := (Server p256 k256).

(* ------------------------------------------------------------------ *)
(** ** Downloads *)

Lemma push_page piece page : push_all_of piece page = piece ++ concat (map chunk_of page).
Proof.
  unfold push_all_of. rewrite <- push_all. revert piece; induction page as [|[c b] page IH]; intros piece; cbn; [done|apply IH].
Qed.

(** Every piece taken, the pieces are what was read page by page. *)
Lemma pieces_pages d since : forall fuel n from piece l,
  read_pages (S fuel) d since from PAGE = Ok l ->
  exists ps, pieces (S fuel) (fun _ => true) n d since from piece = map Ok ps
    /\ concat ps = piece ++ concat (map chunk_of l).
Proof.
  induction fuel as [|fuel IH]; intros n from piece l E; cbn [read_pages pieces] in *;
    apply bind_Ok in E as (page & -> & E).
  - destruct (Actor.next page).
    + injection E as <-. exists [push_all_of piece (page_blocks page)]; split; [done|].
      by rewrite app_nil_r; cbn; rewrite app_nil_r, push_page.
    + injection E as <-. exists [push_all_of piece (page_blocks page)]; split; [done|].
      by cbn; rewrite app_nil_r, push_page.
  - destruct (Actor.next page) as [mark|].
    + apply bind_Ok in E as (rest & Er & E). injection E as <-.
      destruct (IH (S n) (Some mark) [] rest Er) as (ps & Ep & Ec).
      exists (push_all_of piece (page_blocks page) :: ps). split; [exact (f_equal (cons _) Ep)|].
      cbn [concat]. rewrite Ec, push_page, map_app, concat_app. by rewrite <- app_assoc.
    + injection E as <-. exists [push_all_of piece (page_blocks page)]; split; [done|].
      by cbn [concat]; rewrite app_nil_r, push_page.
Qed.

(** What is taken is the front of it. *)
Lemma pieces_taken taken d since : forall fuel n from piece,
  exists rest, pieces fuel (fun _ => true) n d since from piece = pieces fuel taken n d since from piece ++ rest.
Proof.
  induction fuel as [|fuel IH]; intros n from piece; cbn [pieces]; [by exists []|].
  destruct (blocks_since _ _ _ _) as [page|e].
  - destruct (taken n); [|by eexists]. destruct (Actor.next page) as [mark|]; [|by exists []].
    destruct (IH (S n) (Some mark) []) as [rest ->]. by exists rest.
  - destruct (taken n); [by exists []|by eexists].
Qed.

Lemma copied_root did d c l g : in_step did d c l g ->
  read_root did d = Ok (Some (MkRoot (head c) (c_rev c))).
Proof.
  intros Hin. destruct (step_root _ _ _ _ _ Hin) as [at_ E]. unfold read_root; rewrite E; cbn [root_cid root_rev].
  unfold parse_or; rewrite cid_text_roundtrip; cbn [mbind result_bind].
  by rewrite (from_str_well_formed (c_rev c) (step_rev _ _ _ _ _ Hin) : from_str (Tid.str (c_rev c)) = Ok (c_rev c)).
Qed.

(** A store that has the commit and the tree's nodes is a copy. *)
Lemma copy_loads did d c l g copy : in_step did d c l g ->
  (forall v b, store_get (Actor.store d) v = Ok b -> store_get copy v = Ok b) ->
  exists R, load copy (head c) = Ok R /\ r_commit R = c /\ tree copy (r_data R) l.
Proof.
  intros Hin Hcopy. exists (MkRepo (head c) c (Mst.load (c_data c))). split_and!; [|done|].
  - unfold Repo.load, Block.read. rewrite (Hcopy _ _ (step_commit _ _ _ _ _ Hin)); cbn [mbind result_bind]. by rewrite decode_ok.
  - cbn [r_data]. rewrite (step_data _ _ _ _ _ Hin). apply tree_load; [apply Hin| |apply Hin].
    apply (stored_extends (Actor.store d)); [exact Hcopy|apply Hin].
Qed.

(** C3 (roundtrip). A download is the repository. From a store in step with its
    commit, the pieces of a download put together are one CAR file whose root is
    that commit and whose blocks are exactly those a revision after [since]
    wrote; somebody who takes fewer pieces has the front of that file; and
    whoever keeps those blocks, and kept what came before them, loads from the
    root the same commit and the same records. *)
Theorem a_download_is_the_repository fuel taken (s : Server) did d c l g since :
  database p256 k256 s did = Ok d -> in_step did d c l g ->
  (forall v b, store_get (Actor.store d) v = Ok b -> writable v b) -> len (dag_cbor (Car.MkHeader 1 [head c])) <= U64_MAX ->
  (length (rows_since d since) < fuel)%nat ->
  exists ps blocks,
    export p256 k256 fuel (fun _ => true) s did since = Ok (map Ok ps)
    /\ read_roots (concat ps) = Some (Ok ([head c], blocks))
    /\ (forall v b, blocks !! v = Some b <-> exists row, repo_block d !! cid_to_string v = Some row
         /\ block_content row = b
         /\ match since with Some since => str_lt (Tid.str since) (block_rev row) | None => True end)
    /\ (exists front rest, export p256 k256 fuel taken s did since = Ok front /\ map Ok ps = front ++ rest)
    /\ forall copy, within blocks copy ->
         (forall v b, store_get (Actor.store d) v = Ok b -> blocks !! v = Some b \/ store_get copy v = Ok b) ->
         exists R, load copy (head c) = Ok R /\ r_commit R = c /\ tree copy (r_data R) l.
Proof.
  intros Hd Hin Hwr Hh Hf.
  assert (named_blocks d) as Hn by (by intros k [v [-> _]]%(step_exact _ _ _ _ _ Hin); exists v).
  destruct (pages_read_every_block_once d since PAGE fuel ltac:(done) Hn Hf) as (es & Er & _ & Hnd & Hes).
  assert (forall v b, (v, b) ∈ es -> store_get (Actor.store d) v = Ok b) as Hget.
  { intros v b (row & Hrow & <- & _)%Hes; cbn; by rewrite Hrow. }
  destruct (read_pushed [head c] es) as (top & Et & Erd); [|done|done|].
  { apply Forall_forall; intros [v b] Hvb%Hget; split; [|by apply Hwr].
    rewrite (step_addressed _ _ _ _ _ Hin _ _ Hvb). unfold hashes_to, Block.cid_for; cbn. by rewrite bool_decide_true. }
  destruct fuel as [|fuel]; [lia|]. destruct (pieces_pages d since fuel 0 None top es Er) as (ps & Ep & Ec).
  assert (forall taken, export p256 k256 (S fuel) taken s did since = Ok (pieces (S fuel) taken 0 d since None top)) as Ex.
  { intros tk; unfold export, opened; rewrite Hd; cbn [mbind result_bind].
    rewrite (copied_root _ _ _ _ _ Hin); cbn [in_store map_err mbind result_bind ok_or Actor.cid]. by rewrite Et. }
  exists ps, (list_to_map es); rewrite Ex, Ep, Ec. split_and!; [done|done| | |].
  - intros v b; rewrite <- Hes. symmetry; by apply elem_of_list_to_map.
  - destruct (pieces_taken taken d since (S fuel) 0 None top) as [rest E]. rewrite Ex, <- Ep.
    by exists (pieces (S fuel) taken 0 d since None top), rest.
  - intros copy Hw Hold; apply (copy_loads did d c l g); [done|]. intros v b Hv; destruct (Hold v b Hv) as [Hb|]; [by apply Hw|done].
Qed.

(* ------------------------------------------------------------------ *)
(** ** Writes *)

(** What follows a commit on the disk is only in the blobs' files. *)
Lemma cleared_keeps served (s : Server) did committed :
  let s' := Serving.cleared p256 k256 served s did committed in
  tables _ _ s' = tables _ _ s /\ dirs _ _ s' = dirs _ _ s /\ reserved _ _ s' = reserved _ _ s /\ events _ _ s' = events _ _ s.
Proof.
  cbv zeta; unfold Serving.cleared, opened_mut, database.
  destruct (orphaned committed) as [|v vs], (taken committed) as [|k ks]; try done;
    (destruct (dirs _ _ s !! Did.str did) as [dir|] eqn:Ed; [|done]);
    cbn [mbind option_bind]; (destruct (dir_store _ _ dir) as [d|] eqn:Es; [|done]);
    cbn [ok_or fst]; unfold put_back; cbn; (split_and!; [done| |done|done]); apply alter_id;
    intros x Hx; assert (x = dir) as -> by congruence; destruct dir; cbn in *; congruence.
Qed.

Section Write.
Context (served : Blobs) (kp : Keypair p256 k256) (fuel : nat) (moments : nat -> Moment).
Context (others : nat -> Actor.Db * Fs.t -> Actor.Db * Fs.t).
Context (logged_at moved_at : Z) (s : Server) (did : Did.t) (op : option bytes) (d : Actor.Db).
Context (Hdir : dirs _ _ s !! Did.str did = Some (MkActorDir _ _ (Some kp) op (Some d))).
Context (requested : list Requested) (swap : option Cid).
Context (c : Commit) (l : list Leaf) (g : MstFacts.records).
Context (Hin : in_step did d c l g) (Hclock : (0 <= Tid.last (tid_clock _ _ s))%Z).
(** Where the write's attempts find the account: as the server had it, and then
    as the others that overtook them left it. *)
Abbreviation found := (overtaken did others ATTEMPTS (d, blob_files _ _ s)).
Abbreviation worked x := (work_out did (fst x) requested swap).
Context (Hmeanwhile : forall n x, found (S n) x -> meanwhile did x (others (S n) x)).
Context (Hfits : forall n x c l g from R p g', found (S n) x -> in_step did (fst x) c l g ->
  worked x = Ok (Some (from, R, p)) -> spec_batch g (writes p) = Ok g' ->
  exists l', fits_in fuel (fst x) c l l' g g' (writes p)).

(** C2 (refinement). A write keeps the whole server in step, whatever others
    write to the account meanwhile. It starts from an account whose store says
    what its commit, its tree and its records say. Between working a revision
    out and committing it, others may do anything that writes no revision, or
    land revisions of their own ([meanwhile]); a write they overtake is worked
    out again from what they left.

    A write that lands does so on a store in step, after so many attempts were
    overtaken, with a batch the specification accepts of the records it had
    there: it answers with a signed commit over exactly the records the batch
    leaves, at a revision above the last; the account's store is in step with it;
    the log has one entry more, which carries the revision whole; the root beside
    the account is that commit; and nobody else's directory is touched. A write
    that does not land changes nothing: the store is as others left it, the
    tables, the log and every other directory are as they were, and no file is
    made or lost. It is refused for what could not be planned, what the
    specification refuses, a clock with no revision left or a store that failed;
    and as contended only where every one of the eight attempts was overtaken.
    It always answers.

    What is asked is that any batch it comes to plan and the specification accepts
    can go in ([fits_in]): that no two blocks of the two revisions collide, that
    the walk over the trees has fuel, and that the batch does not go on writing
    once it has taken the last record out, where the root would be another
    ([MstFacts.stale_layer]). *)
Theorem a_write_keeps_the_server_in_step :
  match Serving.write p256 k256 served fuel moments others logged_at moved_at s did requested swap with
  | None => False
  | Some (s', answer) => reserved _ _ s' = reserved _ _ s /\ exists n x, found n x /\
      match answer with
      | Ok (Some written) => n <> O /\ exists c l l' g g' from R p c' d' landed,
          in_step did (fst x) c l g /\ worked x = Ok (Some (from, R, p)) /\ spec_batch g (writes p) = Ok g' /\ lists l' g'
          /\ written = MkWritten (plan_results p) (head c') (c_rev c')
          /\ c_did c' = c_did c /\ c_data c' = cid_of (top l') l'
          /\ commit_verify p256 k256 c' (public_key p256 k256 kp) = Ok tt /\ str_lt (Tid.str (c_rev c)) (Tid.str (c_rev c'))
          /\ dirs _ _ s' = <[Did.str did := MkActorDir _ _ (Some kp) op (Some d')]> (dirs _ _ s)
          /\ (fresh (fst x) c c' l l' (landed_blocks landed) -> in_step did d' c' l' g')
          /\ tables _ _ s' = update_root moved_at did (MkRoot (head c') (c_rev c')) (tables _ _ s)
          /\ landed_root landed = MkRoot (head c') (c_rev c') /\ landed_since landed = c_rev c
          /\ prev_data landed = c_data c /\ landed_ops landed = ops p
          /\ ((forall v b, landed_blocks landed !! v = Some b -> writable v b) ->
               len (dag_cbor (Car.MkHeader 1 [head c'])) <= U64_MAX -> given (events _ _ s) < Actor.I64_MAX ->
               logs_it landed did (events _ _ s) (events _ _ s'))
      | _ => tables _ _ s' = tables _ _ s /\ events _ _ s' = events _ _ s /\ exists d',
          dirs _ _ s' = <[Did.str did := MkActorDir _ _ (Some kp) op (Some d')]> (dirs _ _ s)
          /\ match answer with
             | Err e => (n = O /\ e = Contended /\ (d', blob_files _ _ s') = x)
                 \/ (n <> O /\ refused did requested swap (fst x) e /\ (d', blob_files _ _ s') = x)
                 \/ (n <> O /\ (exists e', e = from_store e') /\ d' = fst (others n x)
                     /\ same_files (snd (others n x)) (blob_files _ _ s'))
             | Ok _ => n <> O /\ worked x = Ok None /\ (d', blob_files _ _ s') = x
             end
      end
  end.
Proof.
  pose proof (attempts_come_to p256 k256 served did kp fuel moments others requested swap ATTEMPTS (d, blob_files _ _ s)
    Hmeanwhile Hfits ATTEMPTS _ (tid_clock _ _ s) c l g (on_time _ _ _ _) Hin Hclock) as Hw; cbn [fst snd] in Hw.
  unfold Serving.write; rewrite Hdir; cbn [default Datatypes.id dir_key dir_op dir_store]. unfold commit_writes.
  destruct (attempts _ _ _ _ _ _ _ _ _ _ _ _ _ _) as [[[[d' files'] clock'] [[landed|]|e]]|]; [| | |done].
  2, 3: destruct Hw as (n & x & Ho & Hx); split; [done|]; exists n, x; split; [exact Ho|]; cbn;
    split; [done|]; split; [done|]; exists d'; split; [done|exact Hx].
  destruct Hw as (n & x & Ho & Hn & c0 & l0 & l' & g0 & g' & p & Hin0 & (from & R & Hwork) & Hspec & Hlists
    & c' & Er & Edid & Edata & Ev & Elt & Es & Ep & Eo & Ew & Had & Hhead & Hf).
  set (s1 := MkServer _ _ _ _ _ _ _ _). pose proof (cleared_keeps served s1 did (committed landed)) as (Et & Ed & Ere & Ee).
  destruct (log_commit _ _ _ _) as [ev lr] eqn:El. split; [exact Ere|]. exists n, x; split; [exact Ho|]; split; [exact Hn|].
  exists c0, l0, l', g0, g', from, R, p, c', d', landed; cbn [tables dirs events].
  rewrite Et, Ed, Er, Ew; cbn [s1 tables dirs]. split_and!; try done.
  intros Hwr Hh Hg. destruct (log_commit_logs logged_at did landed (events _ _ s) Had) as (s' & E & Hl);
    [by rewrite Er|done|by rewrite Er|done|]. rewrite Ee in El; cbn [s1 events] in El. rewrite E in El. by injection El as <- _.
Qed.

End Write.

End Facts.

(* ------------------------------------------------------------------ *)
(** ** At a concrete server *)

Module Sample.

#[export] Existing Instances Json.Plain.cid_text Json.Plain.cid_text_ok Concrete.Mix.mixed Concrete.Mix.mixed_ok
  Concrete.Coded.codec Concrete.Coded.codec_ok Crypto.Toy.curve_ok Car.Sample.varint Car.Sample.varint_ok
  Car.Sample.cid_bytes Car.Sample.cid_bytes_ok Car.Sample.Header_countable AccountsFacts.Sample.plain_stamps
  RepoFacts.Sample.unsigned_codec RepoFacts.Sample.unsigned_codec_ok RepoFacts.Sample.commit_codec
  RepoFacts.Sample.commit_codec_ok RepoFacts.Sample.ipld_codec.
Import WritesFacts.Sample.

(** A server with the one account [WritesFacts] starts from. *)
Definition server : Server Toy.curve Toy.curve :=
  MkServer _ _ no_accounts ∅
    {[Did.str did := MkActorDir _ _ (Some Toy.keypair) None (Some started)]} Fs.empty RepoFacts.Sample.clock empty_log.

Lemma server_dir : dirs _ _ server !! Did.str did = Some (MkActorDir _ _ (Some Toy.keypair) None (Some started)).
Proof. apply lookup_singleton_eq. Qed.

Lemma server_database : database _ _ server did = Ok started.
Proof. unfold database. by rewrite server_dir. Qed.

Lemma started_fits v b : store_get (Actor.store started) v = Ok b -> writable v b.
Proof.
  cbn [store_get Actor.store]. destruct (repo_block started !! cid_to_string v) as [row|] eqn:E; [|done]. intros [= <-].
  assert (map_forallb : forallb (fun e => len (block_content (snd e)) <=? 1000) (map_to_list (repo_block started)) = true)
    by (vm_compute; reflexivity).
  rewrite forallb_forall in map_forallb. apply elem_of_map_to_list, list_elem_of_In, map_forallb in E.
  apply Z.leb_le in E; cbn [snd] in E. unfold writable. change (len (cid_to_bytes v)) with 1. unfold U64_MAX; lia.
Qed.

End Sample.
Import RepoFacts.Sample WritesFacts.Sample Sample.

Lemma a_download_is_the_repository_witness :
  exists ps blocks,
    export Toy.curve Toy.curve 5 (fun _ => true) server did None = Ok (map Ok ps)
    /\ read_roots (concat ps) = Some (Ok ([head first], blocks))
    /\ (forall v b, blocks !! v = Some b <-> exists row, repo_block started !! cid_to_string v = Some row
         /\ block_content row = b /\ True)
    /\ (exists front rest, export Toy.curve Toy.curve 5 (fun n => Nat.eqb n 0) server did None = Ok front /\ map Ok ps = front ++ rest)
    /\ forall copy, within blocks copy ->
         (forall v b, store_get (Actor.store started) v = Ok b -> blocks !! v = Some b \/ store_get copy v = Ok b) ->
         exists R, load copy (head first) = Ok R /\ r_commit R = first /\ tree copy (r_data R) [].
Proof.
  apply (a_download_is_the_repository Toy.curve Toy.curve 5 (fun n => Nat.eqb n 0) server did started first [] ∅ None
    server_database in_step_first started_fits); [vm_compute; discriminate|apply Nat.ltb_lt; vm_compute; reflexivity].
Defined.

(* ------------------------------------------------------------------ *)
(** ** Two writers of one record *)

Module Race.
(** Another process makes the same record after this one's first attempt has
    been worked out, and before it is committed. *)
Definition rival_run :=
  commit_writes Toy.curve Toy.curve blobs did Toy.keypair fuel moments alone started Fs.empty RepoFacts.Sample.clock requested None.
Definition rival_db : Actor.Db := match rival_run with Some (d, _, _, _) => d | None => started end.
Definition race (n : nat) (x : Actor.Db * Fs.t) : Actor.Db * Fs.t := if Nat.eqb n ATTEMPTS then (rival_db, snd x) else x.
Definition raced := Serving.write Toy.curve Toy.curve blobs fuel moments race 9 9 server did requested None.
Definition won := Serving.write Toy.curve Toy.curve blobs fuel moments alone 9 9 server did requested None.

Lemma rival_lands : from_option fresh_check false (landed_of rival_run) = true.
Proof. vm_compute. reflexivity. Qed.

Lemma first_fits : fits_in fuel started first [] [leaf] ∅ g' (writes (snd planned)).
Proof.
  exact (conj (proj2 planned_accepted) (conj (proj1 one_leaf) (conj (proj2 one_leaf) (conj planned_apart
    (conj (proj1 (Nat.ltb_lt _ _) (proj2 (Nat.ltb_lt _ _) enough)) (ex_intro _ both started_coexist)))))).
Qed.

Lemma in_step_rival : exists c, in_step did rival_db c [leaf] g' /\ head c <> head first.
Proof.
  pose proof (commit_writes_in_step Toy.curve Toy.curve blobs did Toy.keypair fuel moments alone started Fs.empty
    RepoFacts.Sample.clock requested None both first [] [leaf] ∅ g' (fst (fst planned)) (snd (fst planned)) (snd planned)
    in_step_first (Z.le_refl 0) work_planned (proj1 planned_accepted) (proj2 planned_accepted) (proj1 one_leaf) (proj2 one_leaf)
    started_coexist planned_apart (proj1 (Nat.ltb_lt _ _) (proj2 (Nat.ltb_lt _ _) enough)) (fun n s => eq_refl)) as Hl.
  pose proof rival_lands as Hp. unfold rival_db, rival_run in *.
  destruct (commit_writes _ _ _ _ _ _ _ _ _ _ _ _ _) as [[[[d' files'] clock'] [[landed|]|e]]|]; try done.
  destruct Hl as (c & Er & _ & _ & _ & _ & _ & _ & _ & _ & _ & Hhead & Hin).
  destruct (fresh_checked landed Hp) as (c2 & Hc2 & Hf). rewrite Er in Hc2; cbn [Actor.cid] in Hc2. rewrite Hhead in Hc2.
  assert (c = c2) as <- by (apply dag_cbor_inj; congruence). exists c; split; [by apply Hin|].
  destruct Hf as [_ Hn]. by apply not_elem_of_cons in Hn as [? _].
Qed.

(** What the rival made is not made again. *)
Lemma made_already :
  match work_out did rival_db requested None with
  | Ok (Some (_, _, p)) => negb (is_ok (spec_batch g' (writes p)))
  | _ => true
  end = true.
Proof. vm_compute. reflexivity. Qed.

Abbreviation found others := (overtaken did others ATTEMPTS (started, Fs.empty)).

Lemma race_first x : race ATTEMPTS x = (rival_db, snd x).
Proof. unfold race. rewrite Nat.eqb_refl. reflexivity. Qed.
Lemma race_next n x : n <> ATTEMPTS -> race n x = x.
Proof. intros Hn; unfold race. rewrite (proj2 (Nat.eqb_neq _ _) Hn). reflexivity. Qed.

Lemma found_racing n x : found race n x -> (n = ATTEMPTS /\ x = (started, Fs.empty)) \/ (n <> ATTEMPTS /\ fst x = rival_db).
Proof.
  induction 1 as [|n x y _ IH Hne Ey _]; [left; split; reflexivity|right].
  destruct IH as [[En Ex]|[En _]]; [|exfalso; rewrite (race_next _ _ En) in Hne; exact (Hne eq_refl)].
  split; [lia|]. rewrite Ey, En, race_first. reflexivity.
Qed.

Lemma race_meanwhile n x : found race (S n) x -> meanwhile did x (race (S n) x).
Proof.
  intros [[En Ex]|[En _]]%found_racing c l g Hin; [right|rewrite (race_next _ _ En); left; split; [exact Hin|reflexivity]].
  rewrite Ex in Hin. destruct (in_step_unique did _ _ _ _ _ _ _ Hin in_step_first) as (-> & -> & ->).
  destruct in_step_rival as (c2 & Hin2 & Hne). exists c2, [leaf], g'. rewrite En, race_first. split; [exact Hin2|exact Hne].
Qed.

Definition plan_of (r : result Writes.Error (option (Root * Repo * Plan))) : Plan :=
  match r with Ok (Some (_, _, p)) => p | _ => MkPlan [] [] [] [] end.

Lemma first_only c l g from R p g2 : in_step did started c l g ->
  work_out did started requested None = Ok (Some (from, R, p)) -> spec_batch g (writes p) = Ok g2 ->
  exists l', fits_in fuel started c l l' g g2 (writes p).
Proof.
  intros Hin Hwork Hspec. destruct (in_step_unique did _ _ _ _ _ _ _ Hin in_step_first) as (Ec & El & Eg).
  pose proof (f_equal plan_of (eq_trans (eq_sym work_planned) Hwork)) as Ep. cbv beta iota delta [plan_of] in Ep.
  rewrite <- Ep, Eg, (proj1 planned_accepted) in Hspec. assert (g' = g2) as <- by congruence.
  exists [leaf]. rewrite <- Ep, Ec, El, Eg. exact first_fits.
Qed.

Lemma race_fits n x c l g from R p g2 : found race (S n) x -> in_step did (fst x) c l g ->
  work_out did (fst x) requested None = Ok (Some (from, R, p)) -> spec_batch g (writes p) = Ok g2 ->
  exists l', fits_in fuel (fst x) c l l' g g2 (writes p).
Proof.
  intros [[_ ->]|[_ Ex]]%found_racing; [apply first_only|]. rewrite Ex. intros Hin Hwork Hspec. exfalso.
  destruct in_step_rival as (c2 & Hin2 & _). destruct (in_step_unique did _ _ _ _ _ _ _ Hin Hin2) as (_ & _ & Eg).
  pose proof made_already as Hm. rewrite Hwork, <- Eg, Hspec in Hm. discriminate Hm.
Qed.

Lemma alone_meanwhile n x : found alone (S n) x -> meanwhile did x (alone (S n) x).
Proof. intros _ c l g Hin; left; split; [exact Hin|reflexivity]. Qed.

Lemma alone_fits n x c l g from R p g2 : found alone (S n) x -> in_step did (fst x) c l g ->
  work_out did (fst x) requested None = Ok (Some (from, R, p)) -> spec_batch g (writes p) = Ok g2 ->
  exists l', fits_in fuel (fst x) c l l' g g2 (writes p).
Proof. intros [_ ->]%never_overtaken; [apply first_only|reflexivity]. Qed.

Lemma raced_is_refused : match raced with Some (_, Err (InRepo (KeyExists k))) => bool_decide (k = Repo.path post rkey) | _ => false end = true.
Proof. vm_compute. reflexivity. Qed.
Lemma won_lands : match won with Some (_, Ok (Some _)) => true | _ => false end = true.
Proof. vm_compute. reflexivity. Qed.
End Race.
Import Race.

(** The write lands where nobody else writes; and where somebody else made the
    record first, its first attempt is overtaken, and it is told so. *)
Lemma a_write_keeps_the_server_in_step_witness :
  (exists s' written c' d', won = Some (s', Ok (Some written)) /\ commit_cid written = head c'
     /\ dirs _ _ s' = <[Did.str did := MkActorDir _ _ (Some Toy.keypair) None (Some d')]> (dirs _ _ server)
     /\ tables _ _ s' = update_root 9 did (MkRoot (head c') (c_rev c')) (tables _ _ server))
  /\ exists s', raced = Some (s', Err (InRepo (KeyExists (Repo.path post rkey))))
     /\ tables _ _ s' = tables _ _ server /\ events _ _ s' = events _ _ server
     /\ exists n x, overtaken did race ATTEMPTS (started, Fs.empty) n x /\ n <> O
          /\ refused did requested None (fst x) (InRepo (KeyExists (Repo.path post rkey))).
Proof.
  split.
  - pose proof (a_write_keeps_the_server_in_step Toy.curve Toy.curve blobs Toy.keypair fuel moments alone 9 9 server did None started
      server_dir requested None first [] ∅ in_step_first (Z.le_refl 0) alone_meanwhile alone_fits) as Hx.
    pose proof won_lands as Hw. unfold won in *.
    destruct (Serving.write _ _ _ _ _ _ _ _ _ _ _ _) as [[s' [[written|]|e]]|]; [|discriminate Hw..].
    destruct Hx as (_ & n & x & _ & _ & c & l & l' & g1 & g2 & from & R & p & c' & d' & landed & _ & _ & _ & _ & Ew & _ & _ & _ & _ & Ed & _ & Et & _).
    exists s', written, c', d'. split; [reflexivity|]. split; [rewrite Ew; reflexivity|]. split; [exact Ed|exact Et].
  - pose proof (a_write_keeps_the_server_in_step Toy.curve Toy.curve blobs Toy.keypair fuel moments race 9 9 server did None started
      server_dir requested None first [] ∅ in_step_first (Z.le_refl 0) race_meanwhile race_fits) as Hx.
    pose proof raced_is_refused as Hr. unfold raced in *.
    destruct (Serving.write _ _ _ _ _ _ _ _ _ _ _ _) as [[s' [[written|]|e]]|]; [discriminate Hr|discriminate Hr| |discriminate Hr].
    destruct e as [| | | | | | | | | | | | | | |[]|]; try discriminate Hr. apply bool_decide_eq_true in Hr as ->.
    destruct Hx as (_ & n & x & Ho & Et & Ee & d' & _ & [(_ & Hx & _)|[(Hn & Hx & _)|(_ & [e' Hx] & _)]]);
      [discriminate Hx| |destruct e'; discriminate Hx].
    exists s'. split; [reflexivity|]. split; [exact Et|]. split; [exact Ee|]. exists n, x. split; [exact Ho|]. split; [exact Hn|exact Hx].
Defined.
