(* ===== verification/RecordFacts.v ===== *)
(** * RecordFacts: what a client reads is what the repository signs

    [put_record] and [get_record] of [RecordMethods] over a server in step
    ([WritesFacts]): a record that was written is the record that is read, as JSON
    that says what was sent. *)

From S2P Require Import Prelude Syntax Crypto Ip Text Block Mst Concrete MstShape MstRead MstStore MstFacts Json Car Repo RepoFacts.
From S2P Require Import MstDiff MstWalk Storage Blobs Handles Paging Actor ActorFacts Links Plc Accounts AccountsFacts.
From S2P Require Import Limit Passwords Xrpc Auth Writes Sessions Log Signup Serving Answers Requests RecordMethods.
From S2P Require Import LogFacts WritesFacts ServingFacts.
From Stdlib Require Import Lia.

Local Open Scope Z_scope.

(** A record that came out of JSON reads back out of the dag-cbor it is stored
    as. *)
Class RecordCodec `{CidText} `{Json.Base64} `{!Codec Ipld} : Prop :=
  record_reads_back : forall v b, record_data v -> encode v = Ok b -> Block.decode b = Ok v.

(** Two texts under one hash, which is what would be needed to answer with
    another record. *)
Definition collision `{Sha256} : Prop := exists a b : bytes, a <> b /\ sha256 a = sha256 b.

Section Facts.
Context (p256 k256 : Curve) `{!CurveOk p256, !CurveOk k256}.
Context `{Sha256} `{!Sha256Ok} `{CidText} `{!CidTextOk} `{Stamps} `{Worded} `{Json.Base64} `{!Base64Ok}.
Context `{!Varint} `{!CidBytes} `{!Codec Car.Header}.
Context `{!Codec NodeData} `{!CodecOk NodeData} `{!Codec Ipld} `{!RecordCodec}.
Context `{!Codec Commit, !CodecOk Commit, !Codec Unsigned, !CodecOk Unsigned} `{!Codec AppendBody}.
Abbreviation Server := (Server p256 k256).
Abbreviation Step := (Step p256 k256).

Lemma step_bind_Ok {A B} (m : Step A) (f : A -> Step B) s s' b :
  (m ≫= f) s = Some (s', Ok b) <-> exists s1 a, m s = Some (s1, Ok a) /\ f a s1 = Some (s', Ok b).
Proof.
  unfold mbind, step_bind; destruct (m s) as [[s1 [a|e]]|]; split; try done; try by intros (? & ? & ? & ?).
  - intros Hf; by exists s1, a.
  - by intros (? & ? & [= <- <-] & ?).
Qed.
Lemma lift_Ok {A} (r : result Xrpc.Error A) s s' a : lift p256 k256 r s = Some (s', Ok a) <-> s' = s /\ r = Ok a.
Proof. unfold lift; naive_solver. Qed.
Lemma answering_Ok {A} (r : result Writes.Error A) a : answering r = Ok a <-> r = Ok a.
Proof. apply map_err_Ok. Qed.
Lemma ask_Ok {A} (f : Server -> result Writes.Error A) s s' a :
  ask p256 k256 f s = Some (s', Ok a) <-> s' = s /\ f (fst s) = Ok a.
Proof.
  unfold ask; rewrite <- (answering_Ok (f (fst s))); generalize (answering (f (fst s))); intros r.
  split; [by intros [= <- ->]|by intros [-> ->]].
Qed.
Lemma ret_Ok {A} (a b : A) s s' : (mret a : Step A) s = Some (s', Ok b) <-> s' = s /\ b = a.
Proof. unfold mret, step_ret. split; [by intros [= <- ->]|by intros [-> ->]]. Qed.

(* ------------------------------------------------------------------ *)
(** ** Whose repository it is *)

Lemma repository_Ok repo s s' did : repository p256 k256 repo s = Some (s', Ok did) <->
  s' = s /\ exists i account, AtIdentifier.parse repo = Ok i /\ lookup p256 k256 (fst s) i = Ok (Some account)
    /\ Accounts.did account = did.
Proof.
  unfold repository, found; split.
  - intros (s1 & a & (s2 & i & [-> Hi]%lift_Ok & Hf)%step_bind_Ok & [-> ->]%ret_Ok)%step_bind_Ok.
    apply step_bind_Ok in Hf as (s3 & o & [-> Ho]%ask_Ok & [-> Ha]%lift_Ok).
    split; [done|]. apply map_err_Ok in Hi. exists i, a; split_and!; [done| |done]. destruct o; [|done]. cbn in Ha. congruence.
  - intros (-> & i & account & Hi & Ha & <-). apply step_bind_Ok; exists s, account; split; [|done].
    apply step_bind_Ok; exists s, i; split; [by apply lift_Ok; rewrite map_err_Ok|].
    apply step_bind_Ok; exists s, (Some account); split; [by apply ask_Ok|by apply lift_Ok].
Qed.

Lemma owned_Ok access repo s s' did : owned p256 k256 access repo s = Some (s', Ok did) <->
  repository p256 k256 repo s = Some (s', Ok did) /\ did = access_did access.
Proof.
  unfold owned; split.
  - intros (s1 & d & Hr & Ho)%step_bind_Ok. case_decide as Hd; [by apply lift_Ok in Ho as [_ ?]|].
    apply ret_Ok in Ho as [-> ->]. split; [done|]. by destruct (decide (d = access_did access)).
  - intros [Hr ->]. apply step_bind_Ok; exists s', (access_did access); split; [done|]. by rewrite decide_False by (intros Hn; by apply Hn).
Qed.

Lemma spend_Ok now did points s limits s' : spend p256 k256 now did points (s, limits) = Some (s', Ok tt) -> fst s' = s.
Proof.
  unfold spend. destruct limits as [limits|]; [|by intros [= <-]].
  destruct (writing now limits did points) as [? [?|]]; by intros [= <-].
Qed.

(** The account tables a lookup reads are not the roots a write moves. *)
Lemma lookup_after s s' i : Accounts.actor (tables _ _ s') = Accounts.actor (tables _ _ s) ->
  Accounts.account (tables _ _ s') = Accounts.account (tables _ _ s) ->
  lookup p256 k256 s' i = lookup p256 k256 s i.
Proof. intros Ea Ec; unfold lookup, by_did, by_handle, query, joined. by rewrite Ea, Ec. Qed.

(* ------------------------------------------------------------------ *)
(** ** One record, asked for and planned *)

Section Planned.
Context (did : Did.t) (d : Actor.Db) (st : Store).

Lemma take_out_results c held : forall R acc e,
  take_out R st c held acc = Ok e -> plan_results (snd e) = plan_results acc.
Proof.
  induction held as [|k held IH]; intros R acc e E; cbn [take_out] in E; [by injection E as <-|].
  apply bind_Ok in E as ([R1 prev] & _ & E). by rewrite (IH _ _ _ E).
Qed.

Lemma supersede_results c links : forall R acc e,
  supersede d R st c links acc = Ok e -> plan_results (snd e) = plan_results acc.
Proof.
  induction links as [|k links IH]; intros R acc e E; cbn [supersede] in E; [by injection E as <-|].
  apply bind_Ok in E as (held & _ & E). apply bind_Ok in E as ([R1 acc1] & Et & E).
  rewrite (IH _ _ _ E). by apply take_out_results in Et.
Qed.

(** Whatever is taken out for it, the write comes last, and it alone is
    answered for. *)
Lemma plan_single R asked r R' p : missing asked = Writes.Refuse -> Repo.record (Writes.write asked) = Some r ->
  plan did d R st [asked] = Ok (R', p) ->
  exists before b, writes p = before ++ [Writes.write asked] /\ encode r = Ok b
    /\ plan_results p = [MkApplied (lit "at://" ++ Did.str did ++ lit "/" ++ key (Writes.write asked)) (Some (Block.cid_for b))].
Proof.
  intros Hm Hr E; unfold plan in E; cbn [plan_all] in E. apply bind_Ok in E as ([R1 acc] & E & [= <- <-]).
  unfold plan_one in E. destruct (target (Writes.write asked)) as [c k] eqn:Et.
  apply bind_Ok in E as ([R2 prev] & _ & E). rewrite Hm in E.
  assert (exists acc1 b act, plan_results acc1 = [] /\ encode r = Ok b
    /\ writes acc = writes acc1 ++ [Writes.write asked]
    /\ plan_results acc = plan_results acc1 ++ [MkApplied (lit "at://" ++ Did.str did ++ lit "/" ++ key (Writes.write asked)) (Some (Block.cid_for b))]
    /\ outcome (Writes.write asked) prev = Ok act) as (acc1 & b & act & E0 & Eb & Ew & Ea & _).
  2: { exists (writes acc1), b. by rewrite Ew, Ea, E0. }
  destruct prev as [prev|]; (destruct (negb _); [done|]);
    apply bind_Ok in E as ([R3 acc1] & Es & E); apply bind_Ok in E as (named & _ & E);
    apply bind_Ok in E as ([act v] & Eo & [= _ <-]);
    (assert (plan_results acc1 = []) as E0;
      [destruct (conflicts asked); [by injection Es as _ <-|];
       unfold superseded in Es; rewrite Hr in Es; destruct (Backlink.held_to_one _);
         [by apply supersede_results in Es|by injection Es as _ <-]|]);
    (assert (exists b, encode r = Ok b /\ v = Some (Block.cid_for b)) as (b & Eb & ->);
      [destruct (Writes.write asked); cbn in Hr, Eo; simplify_eq;
       apply bind_Ok in Eo as (v' & Ev & [= _ <-]); apply bind_Ok in Ev as (b & Eb%map_err_Ok & [= <-]); by exists b|]);
    by exists acc1, b, (act, Some (Block.cid_for b)).
Qed.

(** So it is what its key holds at the end. *)
Lemma spec_single g before w g' r b : Repo.record w = Some r -> encode r = Ok b ->
  spec_batch g (before ++ [w]) = Ok g' -> g' !! key w = Some (Block.cid_for b).
Proof.
  intros Hr Eb Hs; unfold spec_batch in Hs; apply bind_Ok in Hs as (_ & _ & Hs).
  revert g Hs; induction before as [|w' before IH]; intros g Hs; cbn [app spec_writes] in Hs;
    apply bind_Ok in Hs as (g1 & Hw & Hs); [|by eapply IH].
  injection Hs as <-. rewrite (spec_write_puts g w g1 r b Hr Eb Hw). apply lookup_insert_eq.
Qed.

End Planned.

(* ------------------------------------------------------------------ *)
(** ** Reading one back *)

(** The index answers what the signed tree holds. *)
Lemma record_read (s : Server) did d c l g collection rkey :
  database p256 k256 s did = Ok d -> in_step did d c l g ->
  match g !! Repo.path collection rkey with
  | None => Serving.record p256 k256 s did collection rkey = Ok None
  | Some v => exists b, Serving.record p256 k256 s did collection rkey = Ok (Some (Actor.MkRecord (uri did collection rkey) v b))
      /\ v = Block.cid_for b
  end.
Proof.
  intros Hd Hin. unfold Serving.record, Serving.actor, opened; rewrite Hd; cbn [mbind result_bind]. unfold Actor.record.
  pose proof (step_index _ _ _ _ _ Hin (uri did collection rkey)) as Hi.
  rewrite (uri_path did), strip_prefix_app in Hi; cbn [mbind option_bind] in Hi; rewrite <- (uri_path did) in Hi.
  destruct (record_table d !! uri did collection rkey) as [row|] eqn:Er; cbn [mbind option_bind fmap option_fmap option_map] in Hi |- *.
  - destruct (g !! Repo.path collection rkey) as [v|]; [|done]. injection Hi as Ev.
    destruct (records_stored _ (step_consistent _ _ _ _ _ Hin) _ _ Er) as [b Hb]. rewrite Hb; cbn.
    unfold parse_or. rewrite Ev, cid_text_roundtrip; cbn. exists (block_content b); split; [done|].
    apply (step_addressed _ _ _ _ _ Hin). cbn. by rewrite <- Ev, Hb.
  - by destruct (g !! Repo.path collection rkey).
Qed.

(** Bytes under one CID are the same bytes, or a collision. *)
Lemma same_block b b' : Block.cid_for b = Block.cid_for b' -> collision \/ b = b'.
Proof. intros [= E]; destruct (decide (b = b')); [by right|left; by exists b, b']. Qed.

(** A record that is data is shown as JSON that says the same. *)
Lemma shown_data uri v r b : record_data r -> encode r = Ok b ->
  exists j, shown (Actor.MkRecord uri v b) = Ok (MkHeld uri (cid_to_string v) j) /\ from_json j = Ok r.
Proof.
  intros Hr Hb. destruct (to_json_from_json r Hr) as (j & Ej & Ef & _). exists j; split; [|done].
  unfold shown; cbn [r_value r_uri Actor.r_cid]. rewrite (record_reads_back r b Hr Hb); cbn [in_repo map_err mbind result_bind].
  by rewrite Ej.
Qed.

(** Giving a record its type keeps it in order. *)
Lemma typed_in_order named j j' : Json.in_order j -> typed named j = Ok j' -> Json.in_order j'.
Proof.
  intros Ho; unfold typed. destruct (match j with VObject _ => _ | _ => _ end); [case_decide; [by intros [= <-]|done]|].
  destruct j as [| | | | |fields]; try done. intros [= <-]; cbn [Json.in_order] in *. destruct Ho as [Hs Hf].
  split; [by apply BTree.insert_sorted|].
  apply (foldr_Forall (fun e => Json.in_order (snd e))) in Hf. apply (foldr_Forall (fun e => Json.in_order (snd e))), Forall_forall.
  intros e [->|He]%BTree.insert_elem; [done|]. rewrite Forall_forall in Hf; by apply Hf.
Qed.

Lemma record_is_data named j r : Json.in_order j -> RecordMethods.record named j = Ok r -> record_data r.
Proof.
  intros Ho Hr; unfold RecordMethods.record in Hr. apply bind_Ok in Hr as (j' & Ht & Hf%map_err_Ok).
  eapply from_json_record_data; [|exact Hf]. by eapply typed_in_order.
Qed.

(* ------------------------------------------------------------------ *)
(** ** From a write to a read *)

Section Written.
Context (served : Blobs) (kp : Keypair p256 k256) (fuel : nat) (moments : nat -> Moment).
Context (others : nat -> Actor.Db * Fs.t -> Actor.Db * Fs.t) (Halone : forall n x, others n x = x).
Context (logged_at moved_at : Z) (now : nat -> Z) (minted : nat -> option Z) (default_cid : Cid).
Context (s : Server) (did : Did.t) (op : option bytes) (d : Actor.Db).
Context (Hdir : dirs _ _ s !! Did.str did = Some (MkActorDir _ _ (Some kp) op (Some d))).
Context (asked : Requested) (swap : option Cid).
Context (st0 : Store) (c : Commit) (l l' : list Leaf) (g g' : MstFacts.records) (from : Root) (R : Repo) (p : Plan).
Context (Hin : in_step did d c l g) (Hclock : (0 <= Tid.last (tid_clock _ _ s))%Z).
Context (Hwork : work_out did d [asked] swap = Ok (Some (from, R, p))).
Context (Hspec : spec_batch g (writes p) = Ok g') (Hsome : never_refills g (writes p) = true).
Context (Hlists : lists l' g') (Hsorted : sorted l') (Hco : Coexist (Actor.store d) st0 l l').
Context (Hapart : apart c l l') (Hfuel : (length (reached (top l) l) + length (reached (top l') l') < fuel)%nat).

(** What the write hands over collides with nothing that is stored. *)
Definition fresh_write : Prop :=
  match commit_writes p256 k256 served did kp fuel moments others d (blob_files _ _ s) (tid_clock _ _ s) [asked] swap with
  | Some (_, _, _, Ok (Some landed)) => exists c',
      landed_blocks landed !! Actor.cid (landed_root landed) = Some (dag_cbor c') /\ fresh d c c' l l' (landed_blocks landed)
  | _ => True
  end.

Lemma written_reads_back r limits s2 written :
  missing asked = Writes.Refuse -> Repo.record (Writes.write asked) = Some r -> fresh_write ->
  write_all p256 k256 served fuel moments others logged_at moved_at did [asked] swap (s, limits) = Some (s2, Ok written) ->
  exists b at_, written = Some (MkWritten [MkApplied (uri did (fst (target (Writes.write asked))) (snd (target (Writes.write asked))))
      (Some (Block.cid_for b))] (commit_cid at_) (written_rev at_))
    /\ encode r = Ok b
    /\ (forall i, lookup p256 k256 (fst s2) i = lookup p256 k256 s i)
    /\ exists b', Serving.record p256 k256 (fst s2) did (fst (target (Writes.write asked))) (snd (target (Writes.write asked)))
         = Ok (Some (Actor.MkRecord (uri did (fst (target (Writes.write asked))) (snd (target (Writes.write asked)))) (Block.cid_for b') b'))
       /\ Block.cid_for b = Block.cid_for b'.
Proof.
  intros Hm Hr Hfr Hw.
  pose proof (commit_writes_in_step p256 k256 served did kp fuel moments others d (blob_files _ _ s) (tid_clock _ _ s)
    [asked] swap st0 c l l' g g' from R p Hin Hclock Hwork Hspec Hsome Hlists Hsorted Hco Hapart Hfuel Halone) as Hl.
  unfold fresh_write in Hfr. unfold write_all, Serving.write in Hw. rewrite Hdir in Hw; cbn [default Datatypes.id dir_key dir_op dir_store] in Hw.
  destruct (commit_writes _ _ _ _ _ _ _ _ _ _ _ _ _) as [[[[d' files'] clock'] [[landed|]|e]]|]; try done.
  destruct Hl as (c' & Er & _ & _ & _ & _ & _ & _ & _ & Ew & _ & Hhead & Hf).
  destruct Hfr as (c2 & Hc2 & Hfr). rewrite Er in Hc2; cbn [Actor.cid] in Hc2. rewrite Hhead in Hc2.
  assert (c' = c2) as <- by (apply dag_cbor_inj; congruence). specialize (Hf Hfr).
  set (s1 := MkServer _ _ _ _ _ _ _ _) in Hw. pose proof (cleared_keeps p256 k256 served s1 did (committed landed)) as (Et & Ed & _ & _).
  destruct (log_commit _ _ _ _) as [ev lr]. injection Hw as <- <-.
  assert (exists e, plan did d (MkRepo (head c) c (Mst.load (c_data c))) (Actor.store d) [asked] = Ok (e, p)) as (e & Hplan).
  { unfold work_out in Hwork.
    apply bind_Ok in Hwork as (o & Ho & Hwork). apply bind_Ok in Hwork as (from' & Hfrom & Hwork).
    apply bind_Ok in Hwork as (R0 & HR & Hwork). apply bind_Ok in Hwork as ([R1 p1] & Hp & Hwork).
    rewrite (copied_root _ _ _ _ _ Hin) in Ho. injection Ho as <-. injection Hfrom as <-.
    unfold Repo.load, Block.read in HR; cbn [Actor.cid] in HR. rewrite (step_commit _ _ _ _ _ Hin) in HR; cbn [mbind result_bind] in HR.
    rewrite decode_ok in HR. injection HR as <-. exists R1. rewrite Hp. do 2 f_equal.
    destruct (writes p1); [done|]. destruct swap; [case_decide; [done|]|]; by injection Hwork as _ _ ->. }
  destruct (plan_single did d _ _ asked r _ _ Hm Hr Hplan) as (before & b & Ewr & Eb & Eres).
  destruct (target (Writes.write asked)) as [collection rkey] eqn:Etg; cbn [fst snd].
  assert (g' !! Repo.path collection rkey = Some (Block.cid_for b)) as Hg.
  { rewrite Ewr in Hspec. pose proof (spec_single g before _ g' r b Hr Eb Hspec) as Hg. unfold key in Hg; by rewrite Etg in Hg. }
  exists b, (MkWritten [] (head c') (c_rev c')); cbn [commit_cid written_rev]. split_and!; [|done| |].
  - rewrite Ew, Eres. unfold key; rewrite Etg. do 3 f_equal. rewrite (uri_path did). unfold base. by rewrite <- !app_assoc.
  - intros i; cbn [fst]; apply lookup_after; cbn; by rewrite Et.
  - assert (database p256 k256 (MkServer _ _ (update_root moved_at did (landed_root landed) (tables _ _ (Serving.cleared p256 k256 served s1 did (committed landed))))
      (reserved _ _ (Serving.cleared p256 k256 served s1 did (committed landed)))
      (dirs _ _ (Serving.cleared p256 k256 served s1 did (committed landed)))
      (blob_files _ _ (Serving.cleared p256 k256 served s1 did (committed landed)))
      (tid_clock _ _ (Serving.cleared p256 k256 served s1 did (committed landed))) ev) did = Ok d') as Hdb.
    { unfold database; cbn [dirs]. rewrite Ed; cbn [s1 dirs]. by rewrite lookup_insert_eq. }
    pose proof (record_read _ did d' c' l' g' collection rkey Hdb Hf) as Hrd. rewrite Hg in Hrd.
    destruct Hrd as (b' & Hrd & Ecid). exists b'; cbn [fst]. split; [|done]. by rewrite Hrd, Ecid.
Qed.

(** The record a write answered for is the one a read of its key answers with. *)
Lemma answered_is_read r limits s2 written at_ repo collection rkey :
  missing asked = Writes.Refuse -> Repo.record (Writes.write asked) = Some r -> record_data r -> fresh_write ->
  repository p256 k256 repo (s, limits) = Some ((s, limits), Ok did) ->
  Parse.collection collection = Ok (fst (target (Writes.write asked))) ->
  Parse.record_key rkey = Ok (snd (target (Writes.write asked))) ->
  write_all p256 k256 served fuel moments others logged_at moved_at did [asked] swap (s, limits) = Some (s2, Ok written) ->
  landed default_cid written = Ok at_ ->
  collision \/ exists held,
    get_record p256 k256 repo collection rkey (Some (la_cid at_)) s2 = Some (s2, Ok held)
    /\ h_uri held = la_uri at_ /\ h_cid held = la_cid at_ /\ from_json (h_value held) = Ok r.
Proof.
  intros Hm Hr Hdata Hfr Hrepo Hc Hk Hw Ha.
  destruct (written_reads_back r limits s2 written Hm Hr Hfr Hw) as (b & answer & -> & Eb & Hlook & b' & Hread & Ecid).
  cbn in Ha; injection Ha as <-. destruct (same_block b b' Ecid) as [?|<-]; [by left|right].
  destruct (shown_data (uri did (fst (target (Writes.write asked))) (snd (target (Writes.write asked))))
    (Block.cid_for b) r b Hdata Eb) as (j & Es & Ej).
  exists (MkHeld (uri did (fst (target (Writes.write asked))) (snd (target (Writes.write asked)))) (cid_to_string (Block.cid_for b)) j).
  split; [|split_and!; [done|done|exact Ej]].
  apply repository_Ok in Hrepo as (_ & i & account & Hi & Hl & Hd).
  unfold get_record. apply step_bind_Ok; exists s2, did; split.
  { apply repository_Ok; split; [done|]. exists i, account; split_and!; [done| |done]. by rewrite Hlook. }
  apply step_bind_Ok; exists s2, (fst (target (Writes.write asked))); split; [by apply lift_Ok|].
  apply step_bind_Ok; exists s2, (snd (target (Writes.write asked))); split; [by apply lift_Ok|].
  apply step_bind_Ok; eexists s2, _; split; [by apply ask_Ok|]; cbn [Actor.r_cid].
  rewrite bool_decide_true by done. apply step_bind_Ok; eexists s2, _; split; [by apply lift_Ok|].
  apply lift_Ok; split; [done|]. by rewrite Es.
Qed.

(** C4 (roundtrip). A record that is put is the record that is read. On an account
    in step, wherever [putRecord] answers, whatever was at the key: asking
    [getRecord] for that key, at the CID it answered with, answers with that
    record, under the address and the CID it was given, and as JSON that says what
    was sent, its [$type] filled in; or two texts have been found that hash
    alike. *)
Theorem a_record_put_is_the_record_read limits s2 access input expect named rkey r at_ :
  asked = MkRequested (WPut named rkey r) expect Writes.Refuse Ignore ->
  access_did access = did -> Json.in_order (pu_record input) ->
  Parse.collection (pu_collection input) = Ok named -> Parse.record_key (pu_rkey input) = Ok rkey ->
  RecordMethods.record named (pu_record input) = Ok r -> expected (pu_swap_record input) = Ok expect ->
  RecordMethods.swap (pu_swap_commit input) = Ok swap -> fresh_write ->
  put_record p256 k256 served fuel moments others logged_at moved_at now default_cid access input (s, limits) = Some (s2, Ok at_) ->
  collision \/ exists held,
    get_record p256 k256 (pu_repo input) (pu_collection input) (pu_rkey input) (Some (la_cid at_)) s2 = Some (s2, Ok held)
    /\ h_uri held = la_uri at_ /\ h_cid held = la_cid at_ /\ from_json (h_value held) = Ok r.
Proof.
  intros Easked Hdid Ho Hc Hk Hr He Hsw Hfr Hput. unfold put_record in Hput.
  apply step_bind_Ok in Hput as ([s1 l1] & did' & [Hrepo ->]%owned_Ok & Hput). rewrite Hdid in *.
  pose proof Hrepo as [E _]%repository_Ok. injection E as -> ->.
  apply step_bind_Ok in Hput as ([s1 l1] & [] & Hsp & Hput). apply spend_Ok in Hsp; cbn [fst] in Hsp; subst s1.
  apply step_bind_Ok in Hput as (? & named' & [-> Hc']%lift_Ok & Hput).
  apply step_bind_Ok in Hput as (? & rkey' & [-> Hk']%lift_Ok & Hput).
  apply step_bind_Ok in Hput as (? & r' & [-> Hr']%lift_Ok & Hput).
  apply step_bind_Ok in Hput as (? & e' & [-> He']%lift_Ok & Hput).
  apply step_bind_Ok in Hput as (? & sw' & [-> Hsw']%lift_Ok & Hput).
  apply step_bind_Ok in Hput as (? & written & Hw & [<- Ha]%lift_Ok).
  rewrite Hc in Hc'; injection Hc' as <-. rewrite Hr in Hr'; injection Hr' as <-. rewrite Hk in Hk'; injection Hk' as <-.
  rewrite He in He'; injection He' as <-. rewrite Hsw in Hsw'; injection Hsw' as <-. rewrite <- Easked in Hw.
  assert (missing asked = Writes.Refuse /\ Repo.record (Writes.write asked) = Some r
    /\ target (Writes.write asked) = (named, rkey)) as (Em & Erec & Et) by (by rewrite Easked).
  assert (repository p256 k256 (pu_repo input) (s, l1) = Some ((s, l1), Ok did)) as Hrepo'.
  { apply repository_Ok in Hrepo as (_ & i & account & H1' & H2' & H3'). apply repository_Ok. split; [done|]. by exists i, account. }
  apply (answered_is_read r l1 s2 written at_ _ _ _ Em Erec (record_is_data _ _ _ Ho Hr) Hfr Hrepo'); [by rewrite Et..|done|done].
Qed.

End Written.

End Facts.

(* ------------------------------------------------------------------ *)
(** ** At a concrete server *)

Module Sample.

#[export] Existing Instances Json.Plain.cid_text Json.Plain.cid_text_ok Json.Plain.base64 Json.Plain.base64_ok
  Concrete.Mix.mixed Concrete.Mix.mixed_ok
  Concrete.Coded.codec Concrete.Coded.codec_ok Crypto.Toy.curve_ok Car.Sample.varint Car.Sample.varint_ok
  Car.Sample.cid_bytes Car.Sample.cid_bytes_ok Car.Sample.Header_countable AccountsFacts.Sample.plain_stamps
  RepoFacts.Sample.unsigned_codec RepoFacts.Sample.unsigned_codec_ok RepoFacts.Sample.commit_codec
  RepoFacts.Sample.commit_codec_ok RepoFacts.Sample.ipld_codec.
Import RepoFacts.Sample WritesFacts.Sample ServingFacts.Sample.

#[export] Instance worded : Worded := {| storage_worded := fun _ => []; directory_worded := fun _ => [] |}.
#[export] Instance record_codec : RecordCodec.
Proof.
  intros v b _; unfold encode, Block.decode; cbn -[take_put put app].
  destruct v as [| | | | | | |[|[k []] []]|]; try done.
  intros Hb; assert (b = put k ++ put held) as -> by (by injection Hb as <-).
  rewrite take_put_app, <- (app_nil_r (put held)), take_put_app. done.
Qed.

(** The account [WritesFacts] starts from, among the accounts, and the first put
    to it. *)
Definition account : Account := MkAccount did (Some (Handle.mk (lit "alice.example.com"))) (lit "a@example.com") (lit "salt:hash").
Definition named : Server Toy.curve Toy.curve :=
  with_tables _ _ (fun _ => fst (Accounts.create 5 (MkRegistration account (MkRoot (head first) (c_rev first)) None None) no_accounts)) server.
Definition access : Access := MkAccess did ScAccess.
Definition input : Putting :=
  MkPutting (Did.str did) (Nsid.str post) (RecordKey.str rkey) (VObject []) SwapUnasked None.
Definition asked : Requested := MkRequested (WPut post rkey record) Anything Writes.Refuse Ignore.
Definition no_cid : Cid := MkCid 0 0 0 [].

Definition put_worked : Root * Repo * Plan :=
  from_option Datatypes.id (MkRoot (head first) (c_rev first), repo, MkPlan [] [] [] [])
    (WritesFacts.Sample.found (work_out did started [asked] None)).
Lemma put_work : work_out did started [asked] None
  = Ok (Some (fst (fst put_worked), snd (fst put_worked), snd put_worked)).
Proof. vm_compute; reflexivity. Qed.
Lemma put_accepted : spec_batch ∅ (writes (snd put_worked)) = Ok g' /\ never_refills ∅ (writes (snd put_worked)) = true.
Proof. split; vm_compute; reflexivity. Qed.

End Sample.
Import RepoFacts.Sample WritesFacts.Sample ServingFacts.Sample Sample.

Lemma named_dir : dirs _ _ named !! Did.str did = Some (MkActorDir _ _ (Some Toy.keypair) None (Some started)).
Proof. apply lookup_singleton_eq. Qed.

(** The put lands, and collides with nothing. *)
Definition landed_put :=
  landed_of (commit_writes Toy.curve Toy.curve blobs did Toy.keypair fuel moments alone started (blob_files _ _ named)
    (tid_clock _ _ named) [asked] None).
Definition put_is_fresh := from_option fresh_check false landed_put.
Example put_lands : put_is_fresh = true.
Proof. vm_compute. reflexivity. Qed.

Lemma put_fresh : fresh_write Toy.curve Toy.curve blobs Toy.keypair fuel moments alone named did started asked None first [] [leaf].
Proof.
  pose proof put_lands as Hp. unfold put_is_fresh, landed_put in Hp. unfold fresh_write.
  destruct (commit_writes _ _ _ _ _ _ _ _ _ _ _ _ _) as [[[[d' files'] clock'] [[landed|]|e]]|]; try done.
  by apply fresh_checked.
Qed.

Definition put_it : option (Reach Toy.curve Toy.curve * result Xrpc.Error LandedAt) :=
  put_record Toy.curve Toy.curve blobs fuel moments alone 9 9 (fun _ => 0) no_cid access input (named, None).
Definition answered {A B} (d : A) (r : option (B * result Xrpc.Error A)) : A :=
  match r with Some (_, Ok a) => a | _ => d end.
Definition left_at {A B} (d : B) (r : option (B * result Xrpc.Error A)) : B :=
  match r with Some (s, _) => s | _ => d end.
Definition put_answer := answered (MkLandedAt [] [] (MkAt [] [])) put_it.
Definition put_state := left_at (named, None) put_it.
Example put_is_answered : is_Some (put_it ≫= fun e => match snd e with Ok _ => Some tt | Err _ => None end).
Proof. vm_compute. by eexists. Qed.

Lemma put_is_answered_with :
  put_record Toy.curve Toy.curve blobs fuel moments alone 9 9 (fun _ => 0) no_cid access input (named, None)
  = Some (put_state, Ok put_answer).
Proof.
  pose proof put_is_answered as Hp. unfold put_state, put_answer. unfold put_it in Hp |- *. revert Hp.
  generalize (put_record Toy.curve Toy.curve blobs fuel moments alone 9 9 (fun _ => 0) no_cid access input (named, None)).
  intros [[st [a|e]]|] Hp; [done|by destruct Hp|by destruct Hp].
Qed.
Lemma input_in_order : Json.in_order (pu_record input).
Proof. split; constructor. Qed.
Lemma input_named : Parse.collection (pu_collection input) = Ok post.
Proof. vm_compute. reflexivity. Qed.
Lemma input_keyed : Parse.record_key (pu_rkey input) = Ok rkey.
Proof. vm_compute. reflexivity. Qed.
Lemma input_record : RecordMethods.record post (pu_record input) = Ok record.
Proof. vm_compute. reflexivity. Qed.

Lemma a_record_put_is_the_record_read_witness :
  collision \/ exists held,
    get_record Toy.curve Toy.curve (pu_repo input) (pu_collection input) (pu_rkey input) (Some (la_cid put_answer)) put_state
      = Some (put_state, Ok held)
    /\ h_uri held = la_uri put_answer /\ h_cid held = la_cid put_answer /\ from_json (h_value held) = Ok record.
Proof.
  pose proof (a_record_put_is_the_record_read Toy.curve Toy.curve blobs Toy.keypair fuel moments alone (fun n s => eq_refl)
    9 9 (fun _ => 0) no_cid named did None started named_dir asked None both first [] [leaf] ∅ g'
    (fst (fst put_worked)) (snd (fst put_worked)) (snd put_worked) in_step_first (Z.le_refl 0) put_work (proj1 put_accepted)
    (proj2 put_accepted) (proj1 one_leaf) (proj2 one_leaf) started_coexist planned_apart
    (proj1 (Nat.ltb_lt _ _) (proj2 (Nat.ltb_lt _ _) enough)) None put_state access input Anything post rkey record put_answer
    eq_refl eq_refl input_in_order input_named input_keyed input_record eq_refl eq_refl put_fresh put_is_answered_with) as Hx.
  exact Hx.
Defined.
