(* ===== verification/ListingFacts.v ===== *)
(** * ListingFacts: following a listing's cursors

    A client reads a long list by asking again with the cursor of the answer
    before, until there is none.  [follow] is that client, and
    [follow_reads_all] its one argument: wherever a page is what is left of some
    list, following reads the whole of it, once, in order, and ends.  Then
    [listRecords], in either direction, over a server in step. *)

From S2P Require Import Prelude Syntax Crypto Ip Text Block Mst Concrete MstShape MstRead MstWrite MstStore MstFacts Json Car Repo RepoFacts.
From S2P Require Import MstDiff MstWalk Storage Blobs Handles Paging Actor ActorFacts ActorReads Links Plc Accounts AccountsFacts.
From S2P Require Import Limit Passwords Xrpc Auth Writes Sessions Log Signup Serving Answers Requests RecordMethods.
From S2P Require Import LogFacts WritesFacts ServingFacts RecordFacts.
From Stdlib Require Import Lia.

Local Open Scope Z_scope.

(* ------------------------------------------------------------------ *)
(** ** Following cursors *)

Section Follow.
Context {p256 k256 : Curve}.
Abbreviation Step := (Step p256 k256).

(** What a client collects, page after page. *)
Fixpoint follow {Page Out} (next : Page -> option bytes) (items : Page -> list Out)
    (ask : option bytes -> Step Page) (fuel : nat) (from : option bytes) : Step (list Out) :=
  match fuel with
  | O => fun _ => None
  | S fuel =>
      page ← ask from;
      match next page with
      | None => mret (items page)
      | Some cursor => rest ← follow next items ask fuel (Some cursor); mret (items page ++ rest)
      end
  end.

Context {Page Out Row : Type} (next : Page -> option bytes) (items : Page -> list Out) (ask : option bytes -> Step Page).
Context (rows : option bytes -> list Row) (mark : Row -> bytes) (limit : nat) (all : list Row) (s : Reach p256 k256).
Context (shows : Row -> Out -> Prop).
Context (Hlimit : (0 < limit)%nat).
(** The cursors a client comes by: none, and those of rows. *)
Definition given (from : option bytes) : Prop := from = None \/ exists x, x ∈ all /\ from = Some (mark x).
Context (Hask : forall from, given from -> rows from ⊆ all -> exists page, ask from s = Some (s, Ok page)
  /\ Forall2 shows (rows from) (items page)
  /\ next page = if decide (length (rows from) = limit) then mark <$> last (rows from) else None).
Context (Hfirst : rows None = take limit all).
Context (Hnext : forall i x, all !! i = Some x -> rows (Some (mark x)) = take limit (drop (S i) all)).

Lemma follow_rest fuel : forall from n, given from ->
  rows from = take limit (drop n all) -> (length all - n < fuel)%nat ->
  exists outs, follow next items ask fuel from s = Some (s, Ok outs) /\ Forall2 shows (drop n all) outs.
Proof.
  induction fuel as [|fuel IH]; intros from n Hg Hr Hf; [lia|]; cbn [follow].
  destruct (Hask from Hg) as (page & Ha & Hs & Hn).
  { rewrite Hr; intros x Hx. rewrite <- (take_drop n all), <- (take_drop limit (drop n all)), !elem_of_app. auto. }
  assert (length (rows from) = limit `min` (length all - n))%nat as Hlen by (by rewrite Hr, length_take, length_drop).
  case_decide as E.
  - destruct (last (rows from)) as [r|] eqn:El; [|apply last_None in El; rewrite El in E; cbn in E; lia].
    cbn in Hn. rewrite last_lookup, E, Hr in El. apply lookup_take_Some in El as [El _]; rewrite lookup_drop in El.
    destruct (IH (Some (mark r)) (n + limit)%nat) as (rest & Hrest & Hall).
    { right; exists r; split; [by eapply list_elem_of_lookup_2|done]. }
    { rewrite (Hnext _ _ El); f_equal; f_equal; lia. }
    { lia. }
    exists (items page ++ rest); split.
    + apply step_bind_Ok; exists s, page; split; [done|]. rewrite Hn.
      apply step_bind_Ok; exists s, rest; split; [done|]. by apply ret_Ok.
    + rewrite <- (take_drop limit (drop n all)), <- Hr, drop_drop. by apply Forall2_app.
  - exists (items page); split.
    + apply step_bind_Ok; exists s, page; split; [done|]. rewrite Hn. by apply ret_Ok.
    + rewrite Hr, take_ge in Hs; [done|]. rewrite length_drop; lia.
Qed.

(** Every row is shown, once and in order; as many turns as there are rows, and
    one more, are enough. *)
Lemma follow_reads_all fuel : (length all < fuel)%nat ->
  exists outs, follow next items ask fuel None s = Some (s, Ok outs) /\ Forall2 shows all outs.
Proof. intros Hf; apply (follow_rest fuel None 0); [by left|by rewrite drop_0|lia]. Qed.

End Follow.

(* ------------------------------------------------------------------ *)
(** ** Rows by address *)

#[export] Instance by_uri_trans : Transitive by_uri.
Proof.
  intros a b c; unfold by_uri, str_le; rewrite !str_leb_cases. intros [H1|E1] [H2|E2]; [left; by etrans| | |].
  - left; by rewrite <- E2.
  - left; by rewrite E1.
  - right; congruence.
Qed.
#[export] Instance by_uri_total : Total by_uri.
Proof.
  intros a b; unfold by_uri, str_le; rewrite !str_leb_cases.
  destruct (str_lt_total (fst (fst a)) (fst (fst b))) as [?|[?|?]]; auto.
Qed.

(** A listing, the way it is read. *)
Definition listed (backwards : bool) (a b : bytes * bytes * bytes) : Prop := if backwards then by_uri b a else by_uri a b.
#[export] Instance listed_dec back : RelDecision (listed back).
Proof. intros a b; unfold listed; destruct back; apply _. Defined.
#[export] Instance listed_trans back : Transitive (listed back).
Proof. intros a b c; destruct back; cbn; [|apply by_uri_trans]. intros H1 H2; by eapply by_uri_trans. Qed.
#[export] Instance listed_total back : Total (listed back).
Proof. intros a b; destruct back; cbn; apply by_uri_total. Qed.

Lemma StronglySorted_rev {A} (R : relation A) (l : list A) : StronglySorted R l -> StronglySorted (flip R) (List.rev l).
Proof.
  induction 1 as [|x l Hl IH Hx]; cbn; [constructor|]. apply StronglySorted_app; split_and!; [|done|repeat constructor].
  intros a b Ha Hb. apply list_elem_of_singleton in Hb as ->. rewrite Forall_forall in Hx. apply Hx.
  by apply list_elem_of_In, in_rev, list_elem_of_In.
Qed.

Lemma rev_Permutation {A} (l : list A) : List.rev l ≡ₚ l.
Proof. symmetry; apply Permutation_rev. Qed.

Lemma rev_sorted (l : list (bytes * bytes * bytes)) : distinguishes by_uri l ->
  List.rev (merge_sort by_uri l) = merge_sort (listed true) l.
Proof.
  intros Hd; apply (StronglySorted_unique_strong (listed true)).
  - intros x y Hx Hy. rewrite rev_Permutation, merge_sort_Permutation in Hx. rewrite merge_sort_Permutation in Hy.
    cbn; intros H1 H2; by apply Hd.
  - apply (StronglySorted_rev by_uri), StronglySorted_merge_sort; apply _.
  - apply StronglySorted_merge_sort; apply _.
  - by rewrite rev_Permutation, !merge_sort_Permutation.
Qed.

Lemma str_lt_prefix p k : k <> [] -> str_lt p (p ++ k).
Proof. intros Hk. rewrite <- (app_nil_r p) at 1. rewrite str_lt_app_prefix. by destruct k. Qed.

Lemma str_le_prefix p k : str_leb p (p ++ k) = true.
Proof. apply str_leb_cases. destruct k as [|b k]; [right; by rewrite app_nil_r|left; by apply str_lt_prefix]. Qed.

(** Between a prefix and the same with a delete after it there is nothing but
    what begins with the prefix. *)
Lemma str_between p u b : str_leb p u = true -> str_lt u (p ++ [b]) -> exists k, u = p ++ k.
Proof.
  rewrite str_leb_cases. intros [Hlt| ->] Hu; [|exists []; by rewrite app_nil_r].
  revert u Hlt Hu; induction p as [|x p IH]; intros u Hlt Hu; [by exists u|].
  destruct u as [|y u]; [done|]. unfold str_lt in *; cbn in Hlt, Hu. rewrite (Z.compare_antisym x y) in Hu.
  destruct (x ?= y) eqn:E; cbn in Hu; [|done|done]. apply Z.compare_eq in E as ->.
  destruct (IH u Hlt Hu) as [k ->]. by exists k.
Qed.

Section Rows.
Context `{CidText} `{!CidTextOk}.

Lemma joined_elem d u ct b : (u, ct, b) ∈ Actor.joined d <->
  exists row blk, record_table d !! u = Some row /\ rec_cid row = ct /\ repo_block d !! ct = Some blk /\ block_content blk = b.
Proof.
  unfold Actor.joined; rewrite list_elem_of_omap; split.
  - intros ([u' row] & Hin & E); cbn in E. apply elem_of_map_to_list in Hin.
    destruct (repo_block d !! rec_cid row) as [blk|] eqn:Eb; [|done]. injection E as -> <- <-. by exists row, blk.
  - intros (row & blk & Hr & <- & Hb & <-). exists (u, row); split; [by apply elem_of_map_to_list|]. cbn; by rewrite Hb.
Qed.

Lemma NoDup_omap_key {A B K} (f : A -> option B) (ka : A -> K) (kb : B -> K) (l : list A) :
  (forall a b, f a = Some b -> kb b = ka a) -> NoDup (map ka l) -> NoDup (omap f l).
Proof.
  intros Hk; induction l as [|a l IH]; cbn; [constructor|]. intros [Hn Hl]%NoDup_cons.
  destruct (f a) as [b|] eqn:E; [|by apply IH]. constructor; [|by apply IH].
  intros (a' & Ha' & E')%list_elem_of_omap. apply Hn. rewrite <- (Hk _ _ E), (Hk _ _ E').
  by apply list_elem_of_fmap_2.
Qed.

Lemma joined_nodup d : NoDup (Actor.joined d).
Proof.
  unfold Actor.joined. apply (NoDup_omap_key _ fst (fun r => fst (fst r))).
  - intros [u row] [[u' ct] b] E; cbn in E |- *. by destruct (repo_block d !! rec_cid row); [injection E as -> _ _|].
  - apply NoDup_fst_map_to_list.
Qed.

Lemma joined_address d x y : x ∈ Actor.joined d -> y ∈ Actor.joined d -> fst (fst x) = fst (fst y) -> x = y.
Proof.
  destruct x as [[u ct] b], y as [[u' ct'] b']; rewrite !joined_elem. cbn.
  intros (r1 & b1 & ? & ? & ? & ?) (r2 & b2 & ? & ? & ? & ?) ->. by simplify_eq.
Qed.

(** The rows a listing of the collection is of. *)
Definition inside (pre : bytes) (r : bytes * bytes * bytes) : bool :=
  str_leb pre (fst (fst r)) && str_ltb (fst (fst r)) (pre ++ [127]).
Definition rows_of (d : Actor.Db) (pre : bytes) : list (bytes * bytes * bytes) := List.filter (inside pre) (Actor.joined d).
Definition listing (d : Actor.Db) (pre : bytes) (reverse : bool) : list (bytes * bytes * bytes) :=
  merge_sort (listed (negb reverse)) (rows_of d pre).

Lemma rows_of_elem d pre x : x ∈ rows_of d pre <-> x ∈ Actor.joined d /\ inside pre x = true.
Proof. unfold rows_of; rewrite list_elem_of_In, filter_In. by rewrite list_elem_of_In. Qed.

Lemma listing_elem d pre reverse x : x ∈ listing d pre reverse <-> x ∈ Actor.joined d /\ inside pre x = true.
Proof. unfold listing; by rewrite merge_sort_Permutation, rows_of_elem. Qed.

Lemma listed_antisym back x y : listed back x y -> listed back y x -> fst (fst x) = fst (fst y).
Proof.
  destruct back; unfold listed, by_uri, str_le; rewrite !str_leb_cases; intros [H1|?] [H2|?]; try congruence;
    exfalso; eapply str_lt_irrefl; by etrans.
Qed.

Lemma filtered_distinguished d back f : distinguishes (listed back) (List.filter f (Actor.joined d)).
Proof.
  intros x y Hx Hy H1 H2. apply list_elem_of_In, filter_In in Hx as [Hx _], Hy as [Hy _].
  apply (joined_address d); [by apply list_elem_of_In..|]. by eapply listed_antisym.
Qed.

(** A query in either direction is rows in the order of that direction. *)
Lemma ordered d f (reverse : bool) :
  (if reverse then merge_sort by_uri (List.filter f (Actor.joined d)) else List.rev (merge_sort by_uri (List.filter f (Actor.joined d))))
  = merge_sort (listed (negb reverse)) (List.filter f (Actor.joined d)).
Proof. destruct reverse; [done|]. apply rev_sorted, (filtered_distinguished d false f). Qed.

(** The first page, and the page after a row. *)
Lemma first_page d pre limit reverse :
  records_query d pre limit None reverse = take (Z.to_nat limit) (listing d pre reverse).
Proof. unfold records_query. by rewrite ordered. Qed.

Lemma page_from d pre limit reverse i u ct b k :
  listing d pre reverse !! i = Some (u, ct, b) -> u = pre ++ k ->
  records_query d pre limit (Some k) reverse = take (Z.to_nat limit) (drop (S i) (listing d pre reverse)).
Proof.
  intros Hi ->.
  pose proof (proj1 (listing_elem _ _ _ _) (list_elem_of_lookup_2 _ _ _ Hi)) as [Hj Hin].
  apply andb_true_iff in Hin as [Hlow Hhigh]; cbn [fst] in *. apply str_ltb_spec in Hhigh.
  set (past := fun y : bytes * bytes * bytes =>
    if reverse then str_ltb (pre ++ k) (fst (fst y)) else str_ltb (fst (fst y)) (pre ++ k)).
  transitivity (take (Z.to_nat limit) (merge_sort (listed (negb reverse)) (List.filter past (rows_of d pre)))).
  - unfold records_query, rows_of. rewrite filter_filter.
    destruct reverse; cbn [negb]; [|rewrite rev_sorted by apply (filtered_distinguished d false)]; do 2 f_equal;
      apply List.filter_ext; intros [[v ?] ?]; unfold inside, past; cbn [fst]; apply eq_iff_eq_true;
      rewrite !andb_true_iff, !str_ltb_spec; (split; [|tauto]).
    + intros [Hv Ht]; split_and!; [|done|done]. apply str_leb_cases; left.
      apply str_leb_cases in Hlow as [Hl|E]; [by etrans|by rewrite E].
    + intros [Hv Ht]; split_and!; [done| |done]. by etrans.
  - f_equal. unfold listing. eapply (page_after (listed (negb reverse)) past); [| |exact Hi|].
    + apply NoDup_filter_list, joined_nodup.
    + apply filtered_distinguished.
    + intros [[v cv] bv] Hv; unfold past, listed, by_uri, str_le; cbn [fst].
      apply rows_of_elem in Hv as [Hv _].
      assert (v = pre ++ k -> (v, cv, bv) = (pre ++ k, ct, b)) as Hsame by (intros E; by apply (joined_address d)).
      destruct reverse; cbn [negb]; rewrite str_ltb_spec, str_leb_cases; (split;
        [intros Hlt; split; [by left|intros [= -> _ _]; by eapply str_lt_irrefl]
        |intros [[?|E] Hne]; [done|exfalso; apply Hne, Hsame; congruence]]).
Qed.

(** A listing is strictly in order, so nothing is in it twice. *)
Lemma listing_sorted d pre reverse :
  StronglySorted (fun a b => if reverse : bool then str_lt a b else str_lt b a) (map (fun r => fst (fst r)) (listing d pre reverse)).
Proof.
  assert (StronglySorted (listed (negb reverse)) (listing d pre reverse)) as Hs by (apply StronglySorted_merge_sort; apply _).
  assert (NoDup (listing d pre reverse)) as Hn by (unfold listing; rewrite merge_sort_Permutation; apply NoDup_filter_list, joined_nodup).
  assert (forall x, x ∈ listing d pre reverse -> x ∈ Actor.joined d) as Hin by (intros x; by rewrite listing_elem; intros [? _]).
  induction Hs as [|x l Hl IH Hx]; cbn; [constructor|]. apply NoDup_cons in Hn as [Hx' Hn].
  constructor; [apply IH; [done|intros y Hy; apply Hin; by right]|].
  apply Forall_forall; intros v (y & -> & Hy)%list_elem_of_fmap.
  assert (fst (fst x) <> fst (fst y)) as Hne.
  { intros E. apply Hx'. rewrite (joined_address d x y) by (done || apply Hin; (by left) || by right). done. }
  rewrite Forall_forall in Hx; specialize (Hx y Hy). destruct reverse; cbn in Hx; unfold by_uri, str_le in Hx; rewrite str_leb_cases in Hx; destruct Hx; congruence.
Qed.

End Rows.

(* ------------------------------------------------------------------ *)
(** ** The records of a collection *)

Lemma split_on_length_app c a b : length (split_on c (a ++ c :: b)) = (length (split_on c a) + length (split_on c b))%nat.
Proof.
  induction a as [|x a IH]; cbn; [by rewrite Z.eqb_refl|]. destruct (x =? c); [cbn; by rewrite IH|].
  pose proof (split_on_nonempty c a); pose proof (split_on_nonempty c (a ++ c :: b)).
  destruct (split_on c a), (split_on c (a ++ c :: b)); try done; cbn in *; lia.
Qed.

Lemma split_on_one c s : length (split_on c s) = 1%nat -> c ∉ s.
Proof.
  intros Hl Hin. pose proof (join_split_on c s) as Hj; pose proof (split_on_free c s) as Hf.
  destruct (split_on c s) as [|p [|]]; try done. apply Forall_cons in Hf as [Hp _]. by rewrite <- Hj in Hin.
Qed.

(** What a tree takes as a key, taken apart. *)
Lemma valid_path c k : valid_key (Repo.path c k) = true ->
  47 ∉ RecordKey.str k /\ Forall (fun b => b < 127) (RecordKey.str k).
Proof.
  unfold valid_key, Repo.path; change (lit "/") with [47]; cbn [app]. intros Hv.
  assert (length (split_on 47 (RecordKey.str k)) = 1%nat) as Hk.
  { pose proof (split_on_length_app 47 (Nsid.str c) (RecordKey.str k)) as Hl.
    pose proof (split_on_nonempty 47 (Nsid.str c)) as H1. pose proof (split_on_nonempty 47 (RecordKey.str k)) as H2.
    destruct (split_on 47 (Nsid.str c ++ _)) as [|? [|? [|]]]; try done; cbn in Hl.
    destruct (split_on 47 (Nsid.str c)), (split_on 47 (RecordKey.str k)); try done; cbn in *; lia. }
  split; [by apply split_on_one|].
  destruct (split_on 47 (Nsid.str c ++ _)) as [|? [|? [|]]]; try done. bool_prop.
  match goal with Hf : forallb _ (_ ++ _) = true |- _ => rewrite forallb_app in Hf; apply andb_true_iff in Hf as [_ Hf];
    cbn [forallb] in Hf; apply andb_true_iff in Hf as [_ Hf]; apply forallb_True in Hf end.
  eapply Forall_impl; [eassumption|]; cbv beta; intros b Hb.
  apply orb_true_iff in Hb as [Hb|Hb]; [apply Z.eqb_eq in Hb; lia|].
  unfold is_key_byte in Hb; apply orb_true_iff in Hb as [Hb|Hb].
  - apply alphanumeric_range in Hb; lia.
  - apply (one_of_range _ 0 126) in Hb; [lia|done].
Qed.

Lemma key_of_uri did c k : 47 ∉ RecordKey.str k -> key_of (uri did c k) = RecordKey.str k.
Proof.
  intros Hk; unfold key_of, uri, prefix; change (lit "/") with [47].
  replace ((lit "at://" ++ Did.str did ++ [47] ++ Nsid.str c ++ [47]) ++ RecordKey.str k)
    with ((lit "at://" ++ Did.str did ++ [47] ++ Nsid.str c) ++ 47 :: RecordKey.str k) by (by rewrite <- !app_assoc).
  by rewrite (proj2 (rsplit_once_Some 47 _ _ _) (conj eq_refl Hk)).
Qed.

(** A key below a delete is inside its collection's range. *)
Lemma inside_key pre k : Forall (fun b => b < 127) k -> str_leb pre (pre ++ k) = true /\ str_lt (pre ++ k) (pre ++ [127]).
Proof.
  intros Hk; split; [apply str_le_prefix|]. apply str_lt_app_prefix. destruct Hk as [|b k Hb _]; [done|].
  unfold str_lt; cbn. by rewrite (proj2 (Z.compare_lt_iff b 127) Hb).
Qed.

Section Listed.
Context (p256 k256 : Curve).
Context `{Sha256} `{!Sha256Ok} `{CidText} `{!CidTextOk} `{Stamps} `{Worded} `{Json.Base64} `{!Base64Ok}.
Context `{!Varint} `{!CidBytes} `{!Codec Car.Header}.
Context `{!Codec NodeData} `{!CodecOk NodeData} `{!Codec Ipld} `{!RecordCodec}.
Context `{!Codec Commit, !CodecOk Commit, !Codec Unsigned, !CodecOk Unsigned} `{!Codec AppendBody}.
Context (s : Server p256 k256) (limits : option Limits) (did : Did.t) (d : Actor.Db).
Context (c : Commit) (l : list Leaf) (g : MstFacts.records) (collection : Nsid.t).
Context (Hd : database p256 k256 s did = Ok d) (Hin : in_step did d c l g).

Lemma record_key_valid k v : g !! k = Some v -> valid_key k = true.
Proof.
  rewrite (step_lists _ _ _ _ _ Hin k). intros Hf%find_leaf_elem.
  destruct (step_good _ _ _ _ _ Hin) as [_ Hg]. rewrite Forall_forall in Hg. by destruct (Hg _ Hf) as [? _].
Qed.

Lemma record_held rkey v : g !! Repo.path collection rkey = Some v ->
  exists row blk, record_table d !! uri did collection rkey = Some row /\ rec_cid row = cid_to_string v
    /\ repo_block d !! cid_to_string v = Some blk.
Proof.
  intros Hg. pose proof (step_index _ _ _ _ _ Hin (uri did collection rkey)) as Hi.
  rewrite (uri_path did), strip_prefix_app in Hi; cbn [mbind option_bind] in Hi; rewrite <- (uri_path did), Hg in Hi.
  destruct (record_table d !! uri did collection rkey) as [row|] eqn:Er; [|done]. injection Hi as Ev.
  destruct (records_stored _ (step_consistent _ _ _ _ _ Hin) _ _ Er) as [blk Hb]. exists row, blk. by rewrite <- Ev.
Qed.

(** The rows of a listing are the records of the collection. *)
Lemma row_of_record u ct b : (u, ct, b) ∈ Actor.joined d /\ inside (prefix did collection) (u, ct, b) = true <->
  exists rkey v, u = uri did collection rkey /\ ct = cid_to_string v /\ g !! Repo.path collection rkey = Some v
    /\ store_get (Actor.store d) v = Ok b.
Proof.
  rewrite joined_elem; unfold inside; cbn [fst]. rewrite andb_true_iff, str_ltb_spec. split.
  - intros [(row & blk & Hr & <- & Hb & <-) [Hlow Hhigh]].
    destruct (str_between _ _ _ Hlow Hhigh) as [k ->]. exists (RecordKey.mk k).
    pose proof (step_index _ _ _ _ _ Hin (uri did collection (RecordKey.mk k))) as Hi.
    rewrite (uri_path did), strip_prefix_app in Hi; cbn [mbind option_bind] in Hi.
    rewrite <- (uri_path did) in Hi. change (uri did collection (RecordKey.mk k)) with (prefix did collection ++ k) in Hi.
    rewrite Hr in Hi; cbn in Hi. destruct (g !! Repo.path collection (RecordKey.mk k)) as [v|]; [|done].
    injection Hi as Ev. exists v; split_and!; [done..|]. cbn. by rewrite <- Ev, Hb.
  - intros (rkey & v & -> & -> & Hg & Hs). split.
    + destruct (record_held rkey v Hg) as (row & blk & Hr & Ev & Hb). exists row, blk; split_and!; [done..|].
      cbn in Hs. rewrite Hb in Hs. by injection Hs.
    + apply inside_key, (valid_path collection rkey), (record_key_valid _ _ Hg).
Qed.

(** Every record of the repository came out of JSON. *)
Context (Hdata : forall k v b, g !! k = Some v -> store_get (Actor.store d) v = Ok b ->
  exists r, record_data r /\ encode r = Ok b).

(** How a row is shown. *)
Definition shown_as (row : bytes * bytes * bytes) (held : Held) : Prop :=
  let '(u, ct, b) := row in h_uri held = u /\ h_cid held = ct
    /\ exists r, from_json (h_value held) = Ok r /\ encode r = Ok b.

Lemma rows_shown rows : rows ⊆ listing d (prefix did collection) true ++ listing d (prefix did collection) false ->
  exists held, collect (map read_record rows) = Ok held
    /\ map r_uri held = map (fun r => fst (fst r)) rows
    /\ exists outs, collect (map shown held) = Ok outs /\ Forall2 shown_as rows outs.
Proof.
  induction rows as [|[[u ct] b] rows IH]; intros Hsub; [exists []; split_and!; [done..|by exists []]|].
  destruct IH as (held & Eh & Hu & outs & Eo & Ho); [intros x Hx; apply Hsub; by right|].
  assert ((u, ct, b) ∈ Actor.joined d /\ inside (prefix did collection) (u, ct, b) = true) as Hrow.
  { specialize (Hsub (u, ct, b) (list_elem_of_here _ _)). apply elem_of_app in Hsub as [Hx|Hx]; by apply listing_elem in Hx. }
  apply row_of_record in Hrow as (rkey & v & -> & -> & Hg & Hs).
  destruct (Hdata _ _ _ Hg Hs) as (r & Hr & Eb). destruct (shown_data (uri did collection rkey) v r b Hr Eb) as (j & Ej & Er).
  exists (Actor.MkRecord (uri did collection rkey) v b :: held); split_and!.
  - cbn. unfold parse_or; rewrite cid_text_roundtrip; cbn. by rewrite Eh.
  - cbn; by f_equal.
  - exists (MkHeld (uri did collection rkey) (cid_to_string v) j :: outs); split; [cbn [map collect]; by rewrite Ej, Eo|].
    constructor; [|done]. split_and!; [done..|by exists r].
Qed.

Context (repo named : bytes) (limit : option Z) (reverse : bool).
Context (Hrepo : repository p256 k256 repo (s, limits) = Some ((s, limits), Ok did)).
Context (Hnamed : Parse.collection named = Ok collection).

Lemma listing_page from :
  let rows := records_query d (prefix did collection) (clamped limit PAGE LONGEST_PAGE) from reverse in
  rows ⊆ listing d (prefix did collection) reverse ->
  exists page, list_records p256 k256 repo named limit from reverse (s, limits) = Some ((s, limits), Ok page)
    /\ Forall2 shown_as rows (rp_records page)
    /\ rp_cursor page = if decide (length rows = Z.to_nat (clamped limit PAGE LONGEST_PAGE))
                        then (fun r => key_of (fst (fst r))) <$> last rows else None.
Proof.
  intros rows Hsub. destruct (rows_shown rows) as (held & Eh & Hu & outs & Eo & Ho).
  { intros x Hx%Hsub; apply elem_of_app; destruct reverse; auto. }
  eexists (MkRecordPage _ outs); split_and!; [|exact Ho|reflexivity].
  unfold list_records. apply step_bind_Ok; exists (s, limits), did; split; [done|].
  apply step_bind_Ok; exists (s, limits), collection; split; [by apply lift_Ok|].
  apply step_bind_Ok; exists (s, limits), held; split.
  { apply ask_Ok; split; [done|]. unfold Serving.records, Serving.actor, opened; cbn [fst]; rewrite Hd; cbn [mbind result_bind]. unfold Actor.records.
    fold rows. by rewrite Eh. }
  apply step_bind_Ok; exists (s, limits), outs; split; [apply lift_Ok; by rewrite answering_Ok|].
  apply ret_Ok; split; [done|]. f_equal.
  assert (length held = length rows) as Hlen by (by rewrite <- (length_map r_uri), Hu, length_map).
  assert (0 <= clamped limit PAGE LONGEST_PAGE) as Hpos by (unfold clamped; lia).
  destruct (Z.eqb_spec (len held) (clamped limit PAGE LONGEST_PAGE)) as [E|E]; unfold len in E; rewrite Hlen in E.
  - rewrite decide_True by lia. change (fmap (M := option)) with (@option_map Record_ bytes) || idtac.
    assert (last (map r_uri held) = last (map (fun r => fst (fst r)) rows)) as Hl by (by rewrite Hu).
    change (map r_uri held) with (r_uri <$> held) in Hl. change (map ?f rows) with (f <$> rows) in Hl.
    rewrite !fmap_last in Hl. destruct (last held), (last rows); cbn in *; congruence.
  - rewrite decide_False by lia. done.
Qed.

(** C7 (liveness). A listing is the collection. Following the cursors of
    [listRecords] over an account in step, whatever the size of a page and in
    either direction, ends, and answers with exactly the records the signed tree
    holds in the collection: each once, in order of their keys, under its address
    and its CID, and as JSON of what that CID names. *)
Theorem a_listing_is_the_collection fuel : (length (listing d (prefix did collection) reverse) < fuel)%nat ->
  exists helds,
    follow rp_cursor rp_records (fun from => list_records p256 k256 repo named limit from reverse) fuel None (s, limits)
      = Some ((s, limits), Ok helds)
    /\ StronglySorted (fun a b => if reverse then str_lt a b else str_lt b a) (map h_uri helds)
    /\ (forall u ct, (exists value, MkHeld u ct value ∈ helds) <->
          exists rkey v, u = uri did collection rkey /\ ct = cid_to_string v /\ g !! Repo.path collection rkey = Some v)
    /\ Forall (fun held => exists r b, from_json (h_value held) = Ok r /\ encode r = Ok b
                 /\ h_cid held = cid_to_string (Block.cid_for b)) helds.
Proof.
  intros Hfuel. pose (pre := prefix did collection).
  destruct (follow_reads_all rp_cursor rp_records (fun from => list_records p256 k256 repo named limit from reverse)
    (fun from => records_query d pre (clamped limit PAGE LONGEST_PAGE) from reverse) (fun r => key_of (fst (fst r)))
    (Z.to_nat (clamped limit PAGE LONGEST_PAGE)) (listing d pre reverse) (s, limits) shown_as) with (fuel := fuel)
    as (helds & Hf & Hs); [unfold clamped; lia|intros from _; apply listing_page|apply first_page| |done|].
  { intros i [[u ct] b] Hi. pose proof (proj1 (listing_elem _ _ _ _) (list_elem_of_lookup_2 _ _ _ Hi)) as Hrow.
    apply row_of_record in Hrow as (rkey & v & -> & _ & Hg & _). cbn [fst].
    rewrite key_of_uri by (apply (valid_path collection), (record_key_valid _ _ Hg)). by eapply page_from. }
  exists helds; split; [done|]. split_and!.
  - replace (map h_uri helds) with (map (fun r => fst (fst r)) (listing d pre reverse)); [apply listing_sorted|].
    clear Hf Hfuel. induction Hs as [|[[u ct] b] held rows outs (Hu & _) Hs IH]; [done|]. cbn; by rewrite Hu, IH.
  - intros u ct; split.
    + intros [value Hv]. apply list_elem_of_lookup in Hv as [i Hi].
      destruct (Forall2_lookup_r _ _ _ _ _ Hs Hi) as ([[u' ct'] b] & Hr & Hu & Hc & _); cbn in Hu, Hc; subst.
      apply list_elem_of_lookup_2, listing_elem, row_of_record in Hr as (rkey & v & ? & ? & ? & _). by exists rkey, v.
    + intros (rkey & v & -> & -> & Hg).
      assert (exists b, store_get (Actor.store d) v = Ok b) as [b Hb].
      { destruct (record_held rkey v Hg) as (_ & blk & _ & _ & Hb). exists (block_content blk). cbn. by rewrite Hb. }
      assert ((uri did collection rkey, cid_to_string v, b) ∈ listing d pre reverse) as Hr.
      { apply listing_elem, row_of_record. by exists rkey, v. }
      apply list_elem_of_lookup in Hr as [i Hi]. destruct (Forall2_lookup_l _ _ _ _ _ Hs Hi) as ([u ct value] & Ho & Hu & Hc & _).
      cbn in Hu, Hc; subst. exists value. by eapply list_elem_of_lookup_2.
  - apply Forall_forall; intros held (i & Hi)%list_elem_of_lookup.
    destruct (Forall2_lookup_r _ _ _ _ _ Hs Hi) as ([[u ct] b] & Hr & _ & Hc & r & Hj & Eb).
    apply list_elem_of_lookup_2, listing_elem, row_of_record in Hr as (rkey & v & _ & -> & _ & Hst).
    exists r, b; split_and!; [done..|]. rewrite Hc. f_equal. by apply (step_addressed _ _ _ _ _ Hin).
Qed.

End Listed.

(* ------------------------------------------------------------------ *)
(** ** At a concrete server *)

Module Sample.
Import RepoFacts.Sample WritesFacts.Sample ServingFacts.Sample RecordFacts.Sample.

(** The account of [RecordFacts] once its first record is in. *)
Definition put_run :=
  commit_writes Toy.curve Toy.curve blobs did Toy.keypair fuel moments alone started (blob_files _ _ named)
    (tid_clock _ _ named) [asked] None.
Definition left_db {A B C} (r : option (Actor.Db * A * B * C)) : option Actor.Db := '(d, _, _, _) ← r; Some d.
Definition grown := from_option Datatypes.id started (left_db put_run).
Definition served : Server Toy.curve Toy.curve :=
  MkServer _ _ (tables _ _ named) (reserved _ _ named)
    {[Did.str did := MkActorDir _ _ (Some Toy.keypair) None (Some grown)]} (blob_files _ _ named) (tid_clock _ _ named)
    (events _ _ named).
Definition same_bytes {E E'} (r : result E bytes) (r' : result E' bytes) : bool :=
  match r, r' with Ok b, Ok b' => bool_decide (b = b') | _, _ => false end.
Definition kept := same_bytes (store_get (Actor.store grown) (value leaf)) (encode record).
End Sample.
Import RepoFacts.Sample WritesFacts.Sample ServingFacts.Sample RecordFacts.Sample Sample.

Lemma in_step_grown : exists c, in_step did grown c [leaf] g'.
Proof.
  pose proof (commit_writes_in_step Toy.curve Toy.curve blobs did Toy.keypair fuel moments alone started (blob_files _ _ named)
    (tid_clock _ _ named) [asked] None both first [] [leaf] ∅ g' (fst (fst put_worked)) (snd (fst put_worked)) (snd put_worked)
    in_step_first (Z.le_refl 0) put_work (proj1 put_accepted) (proj2 put_accepted) (proj1 one_leaf) (proj2 one_leaf)
    started_coexist planned_apart (proj1 (Nat.ltb_lt _ _) (proj2 (Nat.ltb_lt _ _) enough)) (fun n s => eq_refl)) as Hl.
  pose proof put_fresh as Hf; unfold fresh_write in Hf. pose proof put_lands as Hp; unfold put_is_fresh, landed_put in Hp.
  unfold grown, put_run, left_db.
  destruct (commit_writes _ _ _ _ _ _ _ _ _ _ _ _ _) as [[[[d' files'] clock'] [[landed|]|e]]|]; try done.
  destruct Hl as (c & Er & _ & _ & _ & _ & _ & _ & _ & _ & _ & Hhead & Hin). destruct Hf as (c2 & Hc2 & Hf).
  rewrite Er in Hc2; cbn [Actor.cid] in Hc2. rewrite Hhead in Hc2.
  assert (c = c2) as <- by (apply dag_cbor_inj; congruence). exists c; by apply Hin.
Qed.

Example record_is_kept : kept = true.
Proof. vm_compute. reflexivity. Qed.

Lemma grown_is_data k v b : g' !! k = Some v -> store_get (Actor.store grown) v = Ok b ->
  exists r, record_data r /\ encode r = Ok b.
Proof.
  unfold g'; intros [_ <-]%lookup_singleton_Some Hb. exists record; split; [exact (record_is_data post (pu_record input) record input_in_order input_record)|].
  pose proof record_is_kept as Hk; unfold kept in Hk. rewrite Hb in Hk. unfold same_bytes in Hk. destruct (encode record) as [b'|]; [|discriminate Hk].
  apply bool_decide_eq_true in Hk as ->. reflexivity.
Qed.

Lemma served_database : database Toy.curve Toy.curve served did = Ok grown.
Proof. unfold database; cbn [served dirs]. by rewrite lookup_singleton_eq. Qed.

Lemma served_repository : repository Toy.curve Toy.curve (Did.str did) (served, None) = Some ((served, None), Ok did).
Proof.
  apply repository_Ok; split; [done|]. eexists (AtIdentifier.IsDid did), account.
  split_and!; [vm_compute; reflexivity|vm_compute; reflexivity|reflexivity].
Qed.

Lemma a_listing_is_the_collection_witness :
  exists helds,
    follow rp_cursor rp_records
      (fun from => list_records Toy.curve Toy.curve (Did.str did) (Nsid.str post) (Some 1) from true) 2 None (served, None)
      = Some ((served, None), Ok helds)
    /\ exists json, MkHeld (uri did post rkey) (cid_to_string (value leaf)) json ∈ helds.
Proof.
  destruct in_step_grown as [c Hin].
  assert (length (listing grown (prefix did post) true) < 2)%nat as Hl by (apply Nat.ltb_lt; vm_compute; reflexivity).
  pose proof (a_listing_is_the_collection Toy.curve Toy.curve served None did grown c [leaf] g' post served_database Hin grown_is_data
    (Did.str did) (Nsid.str post) (Some 1) true served_repository eq_refl 2 Hl) as (helds & Hf & _ & He & _).
  exists helds; split; [exact Hf|]. apply He. exists rkey, (value leaf). split_and!; [done..|vm_compute; reflexivity].
Defined.
