(* ===== verification/CrawlFacts.v ===== *)
(** * CrawlFacts: every repository of the server, found

    [listRepos] of [SyncMethods], followed from cursor to cursor ([ListingFacts]):
    a crawler is handed every repository the server holds.  The cursor is a moment
    and an identifier as text, so what is shown here rests on both reading
    back. *)

From S2P Require Import Prelude Syntax Crypto Ip Text Numbers Block Json Storage Blobs Handles Paging Actor ActorReads Links Plc Accounts AccountsFacts.
From S2P Require Import Limit Passwords Xrpc Auth Writes Sessions Log Signup Serving Answers Requests RecordMethods SyncMethods.
From S2P Require Import RecordFacts ListingFacts.
From Stdlib Require Import Lia.

Local Open Scope Z_scope.

(** A stamp is in whole milliseconds, which is what [{:.3}] keeps. *)
Class StampMillis `{Stamps} : Prop := stamp_millis : forall t, exists m, Accounts.kept t = m * MILLI.

(* ------------------------------------------------------------------ *)
(** ** Oldest first *)

Lemma earlier_newer a b : earlier a b = newer b a.
Proof.
  apply eq_iff_eq_true. rewrite newer_spec. unfold earlier. rewrite orb_true_iff, andb_true_iff, !str_ltb_spec, bool_decide_eq_true.
  split; (intros [?|[? ?]]; [by left|right; by split]).
Qed.

Lemma oldest_first_spec (a b : (bytes * bytes) * RootRow) : oldest_first a b <-> fst a = fst b \/ earlier (fst a) (fst b) = true.
Proof.
  unfold oldest_first; rewrite !earlier_newer. destruct (newer_total (fst a) (fst b)) as [Hab|[E|Hba]].
  - rewrite Hab; split; [done|]. intros [E|Hba]; [rewrite E, newer_irrefl in Hab; done|].
    pose proof (newer_trans _ _ _ Hab Hba) as Hn. by rewrite newer_irrefl in Hn.
  - rewrite E, newer_irrefl; split; [by left|done].
  - rewrite Hba; split; [by right|intros _]. apply not_true_iff_false; intros Hab.
    pose proof (newer_trans _ _ _ Hab Hba) as Hn. by rewrite newer_irrefl in Hn.
Qed.

#[export] Instance oldest_first_trans : Transitive oldest_first.
Proof.
  intros a b c; rewrite !oldest_first_spec, !earlier_newer. intros [E1|H1] [E2|H2]; [left; congruence|right; congruence..|].
  right; by eapply newer_trans.
Qed.
#[export] Instance oldest_first_total : Total oldest_first.
Proof.
  intros a b; rewrite !oldest_first_spec, !earlier_newer. destruct (newer_total (fst a) (fst b)) as [?|[?|?]]; auto.
Qed.

(* ------------------------------------------------------------------ *)
(** ** The cursor *)

Lemma split_pair_at a b : 58 ∉ a -> split_pair (a ++ lit "::" ++ b) = Some (a, b).
Proof.
  intros Ha; induction a as [|x a IH]; [done|]. cbn [app split_pair].
  destruct (strip_prefix (lit "::") (x :: (a ++ lit "::" ++ b))) as [r|] eqn:E.
  - apply strip_prefix_Some in E. injection E as -> _. exfalso; apply Ha; left.
  - rewrite IH by (intros Hin; apply Ha; by right). done.
Qed.

Section Facts.
Context (p256 k256 : Curve).
Context `{CidText} `{!CidTextOk} `{Stamps} `{!StampsOk} `{!StampMillis} `{Worded}.
Context (s : Server p256 k256) (limits : option Limits).
Abbreviation d := (tables _ _ s).
Context (Hd : orderly d).

(** Accounts were made at moments a [Timestamp] holds. *)
Context (Hrange : forall k row t, Accounts.actor d !! k = Some row -> a_created row = Accounts.stamp t -> EARLIEST * MILLI <= Accounts.kept t <= LATEST * MILLI).

Lemma hosted_elem created did root : ((created, did), root) ∈ hosted_rows d <->
  exists row, Accounts.actor d !! did = Some row /\ a_created row = created /\ roots d !! did = Some root.
Proof.
  unfold hosted_rows; rewrite list_elem_of_omap; split.
  - intros ([k row] & Hin%elem_of_map_to_list & E); cbn in E. destruct (roots d !! k) as [r|] eqn:Er; [|done].
    injection E as <- <- <-. by exists row.
  - intros (row & Hr & <- & Hroot). exists (did, row); split; [by apply elem_of_map_to_list|]. cbn; by rewrite Hroot.
Qed.

Lemma hosted_nodup : NoDup (hosted_rows d).
Proof.
  unfold hosted_rows. apply (NoDup_omap_key _ fst (fun r => snd (fst r))).
  - intros [k row] r E; cbn in E. destruct (roots d !! k); [|done]. by injection E as <-.
  - apply NoDup_fst_map_to_list.
Qed.

Lemma hosted_did_apart x y : x ∈ hosted_rows d -> y ∈ hosted_rows d -> snd (fst x) = snd (fst y) -> x = y.
Proof.
  destruct x as [[c1 k1] r1], y as [[c2 k2] r2]; rewrite !hosted_elem; cbn.
  intros (row1 & ? & ? & ?) (row2 & ? & ? & ?) ->. by simplify_eq.
Qed.

Lemma hosted_distinguished : distinguishes oldest_first (hosted_rows d).
Proof.
  intros x y Hx Hy. rewrite !oldest_first_spec, !earlier_newer.
  intros [E|N1] [E'|N2]; try (apply hosted_did_apart; congruence).
  pose proof (newer_trans _ _ _ N1 N2) as Hn. by rewrite newer_irrefl in Hn.
Qed.

(** A row reads, and the cursor after it picks out the rows after it. *)
Lemma hosted_read x : x ∈ hosted_rows d -> exists h t, read_hosted x = Ok h /\ fst (fst x) = Accounts.stamp t
  /\ h = MkHosted (hosted_did h) (hosted_root h) (Accounts.kept t) /\ Did.str (hosted_did h) = snd (fst x)
  /\ cid_to_string (Actor.cid (hosted_root h)) = root_cid (snd x) /\ Tid.str (rev (hosted_root h)) = root_rev (snd x)
  /\ starting (cursor_after h) = Ok (MkCursor (Accounts.kept t) (snd (fst x))).
Proof.
  destruct x as [[created k] root]; rewrite hosted_elem. intros (row & Hrow & Hc & Hroot).
  destruct (created_read _ Hd _ _ Hrow) as [t Et]. destruct (dids_named _ Hd _ _ Hrow) as (did & -> & Hwf).
  destruct (roots_read _ Hd _ _ Hroot) as (c & rv & Ec & Er & Hrv).
  exists (MkHosted did (MkRoot c rv) (Accounts.kept t)), t; cbn [hosted_did hosted_root fst snd Actor.cid rev].
  split_and!; try done; try congruence.
  - assert (from_str (Did.str did) = Ok did) as Edid by exact (from_str_well_formed did Hwf).
    assert (from_str (Tid.str rv) = Ok rv) as Erv by exact (from_str_well_formed rv Hrv).
    unfold read_hosted; cbn [fst snd]. rewrite Edid; cbn [map_err mbind result_bind].
    rewrite Ec, cid_text_roundtrip; cbn [ok_or mbind result_bind]. rewrite Er, Erv; cbn [map_err mbind result_bind].
    rewrite <- Hc, Et, stamp_kept. done.
  - unfold cursor_after, starting; cbn [hosted_created hosted_did].
    destruct (stamp_millis t) as [m Em]. pose proof (Hrange _ _ _ Hrow Et) as Hr. rewrite Em in Hr |- *.
    rewrite Z.quot_mul by done. rewrite split_pair_at by (by apply decimal_plain). cbn [ok_or mbind result_bind].
    unfold MILLI, EARLIEST, LATEST in Hr.
    rewrite int_signed by (unfold I64_MIN, Actor.I64_MAX; lia). unfold between.
    rewrite (proj2 (Z.leb_le EARLIEST m)), (proj2 (Z.leb_le m LATEST)) by (unfold EARLIEST, LATEST; lia). done.
Qed.

(* ------------------------------------------------------------------ *)
(** ** A crawl *)

Definition mark_of (x : (bytes * bytes) * RootRow) : bytes :=
  match read_hosted x with Ok h => cursor_after h | Err _ => [] end.
Definition rows_at (limit : Z) (from : option bytes) : list ((bytes * bytes) * RootRow) :=
  match transpose (starting <$> from) with Ok from => hosted_query d limit from | Err _ => [] end.
Definition shown_hosted (x : (bytes * bytes) * RootRow) (held : HeldRepo) : Prop :=
  held = MkHeldRepo (snd (fst x)) (root_cid (snd x)) (root_rev (snd x)) true.
Definition crawl : list ((bytes * bytes) * RootRow) := merge_sort oldest_first (hosted_rows d).

Lemma crawl_first limit : rows_at limit None = take (Z.to_nat limit) crawl.
Proof. unfold rows_at, crawl; cbn. unfold hosted_query. by rewrite filter_all by (apply Forall_forall; done). Qed.

Lemma crawl_next limit i x : crawl !! i = Some x -> rows_at limit (Some (mark_of x)) = take (Z.to_nat limit) (drop (S i) crawl).
Proof.
  intros Hi. assert (x ∈ hosted_rows d) as Hx.
  { apply list_elem_of_lookup_2 in Hi. unfold crawl in Hi. by rewrite merge_sort_Permutation in Hi. }
  destruct (hosted_read x Hx) as (h & t & Eh & Et & _ & _ & _ & _ & Ec).
  unfold rows_at, mark_of; rewrite Eh; cbn [fmap option_fmap option_map]. rewrite Ec; cbn. unfold hosted_query. f_equal.
  cbn [cursor_created cursor_did]. rewrite kept_stamp, <- Et.
  eapply (page_after oldest_first _ (hosted_rows d)); [apply hosted_nodup|apply hosted_distinguished|exact Hi|].
  intros y Hy. rewrite oldest_first_spec. destruct (fst x) as [c k] eqn:Ex; cbn [fst snd]. split.
  - intros He; split; [by right|intros ->]. rewrite Ex, earlier_newer, newer_irrefl in He. done.
  - intros [[E|He] Hne]; [|done]. exfalso; apply Hne, hosted_did_apart; [done..|]. by rewrite <- E, Ex.
Qed.

Lemma crawl_page limit from : given mark_of crawl from ->
  rows_at (clamped limit PAGE LONGEST_PAGE) from ⊆ crawl ->
  exists page, list_repos p256 k256 limit from (s, limits) = Some ((s, limits), Ok page)
    /\ Forall2 shown_hosted (rows_at (clamped limit PAGE LONGEST_PAGE) from) (rep_repos page)
    /\ rep_cursor page = if decide (length (rows_at (clamped limit PAGE LONGEST_PAGE) from) = Z.to_nat (clamped limit PAGE LONGEST_PAGE))
                         then mark_of <$> last (rows_at (clamped limit PAGE LONGEST_PAGE) from) else None.
Proof.
  intros Hg Hsub. unfold rows_at in *.
  destruct (transpose (starting <$> from)) as [cur|e] eqn:Ef.
  2: { exfalso; destruct Hg as [->|(x & Hx & ->)]; [done|]. unfold crawl in Hx. rewrite merge_sort_Permutation in Hx.
       destruct (hosted_read x Hx) as (h & t & Eh & _ & _ & _ & _ & _ & Ec). unfold mark_of in Ef. rewrite Eh in Ef.
       cbn [fmap option_fmap option_map] in Ef. by rewrite Ec in Ef. }
  set (rows := hosted_query d (clamped limit PAGE LONGEST_PAGE) cur) in *.
  assert (exists held, collect (map read_hosted rows) = Ok held /\ Forall2 (fun x h => read_hosted x = Ok h) rows held) as (held & Eh & Hall).
  { apply collect_convert, Forall_forall. intros x Hx%Hsub. unfold crawl in Hx. rewrite merge_sort_Permutation in Hx.
    destruct (hosted_read x Hx) as (h & t & Eh & _). by exists h. }
  assert (length held = length rows) as Hlen by (symmetry; by eapply Forall2_length).
  assert (0 <= clamped limit PAGE LONGEST_PAGE) as Hpos by (unfold clamped; lia).
  eexists (MkRepoPage _ (map shown_repo held)); split_and!; [|cbn [rep_repos]|reflexivity].
  - unfold list_repos. apply step_bind_Ok; exists (s, limits), cur; split; [by apply lift_Ok|].
    apply step_bind_Ok; exists (s, limits), held; split.
    { apply ask_Ok; split; [done|]. unfold repos, hosted; cbn [fst]. fold rows. by rewrite Eh. }
    apply ret_Ok; split; [done|]. f_equal.
    destruct (Z.eqb_spec (len held) (clamped limit PAGE LONGEST_PAGE)) as [E|E]; unfold len in E; rewrite Hlen in E;
      [rewrite decide_True by lia|by rewrite decide_False by lia].
    clear -Hall. induction Hall as [|x h rows held Hx Hall IH]; [done|]. destruct Hall as [|y h' rows held Hy Hall].
    + cbn. unfold mark_of. by rewrite Hx.
    + exact IH.
  - clear Hlen Eh. clearbody rows. induction Hall as [|x h rows' held' Hx Hall IH]; [constructor|].
    constructor; [|apply IH; intros y Hy; apply Hsub; by right].
    assert (x ∈ hosted_rows d) as Hin.
    { specialize (Hsub x (list_elem_of_here _ _)). unfold crawl in Hsub. by rewrite merge_sort_Permutation in Hsub. }
    destruct (hosted_read x Hin) as (h' & t & Eh & _ & _ & E1 & E2 & E3 & _). rewrite Hx in Eh; injection Eh as <-.
    unfold shown_hosted, shown_repo. by rewrite E1, E2, E3.
Qed.

(** C8 (liveness). A crawl finds every repository. Following the cursors of
    [listRepos], whatever the size of a page, ends, and hands over every account
    that has a root, each once, oldest first and by identifier where two are of
    one moment, with the root it is at. *)
Theorem a_crawl_finds_every_repository limit fuel : (length crawl < fuel)%nat ->
  exists helds,
    follow rep_cursor rep_repos (fun from => list_repos p256 k256 limit from) fuel None (s, limits) = Some ((s, limits), Ok helds)
    /\ Forall2 shown_hosted crawl helds
    /\ NoDup (map hr_did helds)
    /\ (forall did, did ∈ map hr_did helds <-> is_Some (Accounts.actor d !! did) /\ is_Some (roots d !! did)).
Proof.
  intros Hfuel.
  destruct (follow_reads_all rep_cursor rep_repos (fun from => list_repos p256 k256 limit from)
    (rows_at (clamped limit PAGE LONGEST_PAGE)) mark_of (Z.to_nat (clamped limit PAGE LONGEST_PAGE)) crawl (s, limits) shown_hosted)
    with (fuel := fuel) as (helds & Hf & Hs);
    [unfold clamped; lia|apply crawl_page|apply crawl_first|intros i x; apply crawl_next|done|].
  exists helds; split_and!; [done|done|..].
  all: assert (map hr_did helds = map (fun r => snd (fst r)) crawl) as E
    by (clear -Hs; induction Hs as [|x h rows helds Hx Hs IH]; [done|cbn; by rewrite IH, Hx]).
  all: rewrite E; assert (map (fun r => snd (fst r)) crawl ≡ₚ map (fun r => snd (fst r)) (hosted_rows d)) as Hp
    by (apply Permutation_map; unfold crawl; apply merge_sort_Permutation).
  - rewrite Hp. apply NoDup_fmap_2_strong; [|apply hosted_nodup]. intros x y; apply hosted_did_apart.
  - intros did. rewrite Hp. split.
    + intros ([[c k] r] & -> & Hx)%list_elem_of_fmap. apply hosted_elem in Hx as (row & Hr & _ & Hroot). cbn. by split; eexists.
    + intros [[row Hr] [root Hroot]]. apply list_elem_of_fmap. exists ((a_created row, did), root); split; [done|].
      apply hosted_elem. by exists row.
Qed.
End Facts.

(* ------------------------------------------------------------------ *)
(** ** At a concrete server *)

Module Sample.

(** A stamp that is a count of milliseconds. *)
#[export] Instance milli_stamps : Stamps := {|
  Accounts.stamp t := [t / MILLI];
  parse_time b := match b with [m] => Some (m * MILLI) | _ => None end;
  Accounts.kept t := t / MILLI * MILLI
|}.
#[export] Instance milli_stamps_ok : StampsOk.
Proof.
  split; unfold Accounts.stamp, Accounts.kept, parse_time, milli_stamps; [done|..].
  - intros t. by rewrite Z.div_mul.
  - intros t. pose proof (Z.mul_div_le t MILLI ltac:(done)). lia.
  - intros t u. unfold str_le, str_leb; cbn.
    rewrite <- (Z.mul_le_mono_pos_r (t / MILLI) (u / MILLI) MILLI) by done.
    destruct (Z.compare_spec (t / MILLI) (u / MILLI)); cbn; (split; [intros; first [done|lia]|intros; first [done|lia]]).
Qed.
#[export] Instance milli_stamps_millis : StampMillis.
Proof. intros t. by exists (t / MILLI). Qed.
#[export] Existing Instances Json.Plain.cid_text Json.Plain.cid_text_ok RecordFacts.Sample.worded Crypto.Toy.curve_ok.

Definition made (name : string) : Account :=
  MkAccount (Did.mk (lit "did:plc:" ++ lit name)) None (lit name ++ lit "@example.com") (lit "salt:hash").
Definition root : Root := MkRoot (MkCid 1 113 18 [9]) (Tid.mk (lit "3jzfcijpj2z2a")).
Definition signup (name : string) : Registration := MkRegistration (made name) root None None.
(** Three accounts, two of them made at one moment. *)
Definition tables : Accounts :=
  fst (Accounts.create (3 * MILLI) (signup "carol") (fst (Accounts.create (7 * MILLI) (signup "bob")
    (fst (Accounts.create (7 * MILLI) (signup "alice") no_accounts))))).
Definition server : Server Toy.curve Toy.curve :=
  MkServer _ _ tables ∅ ∅ Fs.empty (Tid.MkClock 17 0) empty_log.

Lemma tables_orderly : orderly tables.
Proof.
  apply reachable_orderly. repeat apply reach_create; try apply reach_new;
    (split_and!; try (vm_compute; reflexivity); intros x [=]).
Qed.
Lemma tables_range k row t : Accounts.actor tables !! k = Some row -> a_created row = Accounts.stamp t ->
  EARLIEST * MILLI <= Accounts.kept t <= LATEST * MILLI.
Proof.
  assert (map_forallb : forallb (fun e => bool_decide (a_created (snd e) = [3]) || bool_decide (a_created (snd e) = [7]))
    (map_to_list (Accounts.actor tables)) = true) by (vm_compute; reflexivity).
  rewrite forallb_forall in map_forallb. intros Hk%elem_of_map_to_list%list_elem_of_In Et. specialize (map_forallb _ Hk); cbn in map_forallb.
  unfold Accounts.kept, milli_stamps. rewrite Et in map_forallb. unfold Accounts.stamp, milli_stamps in map_forallb.
  apply orb_true_iff in map_forallb as [E%bool_decide_eq_true|E%bool_decide_eq_true]; injection E as ->; vm_compute; split; discriminate.
Qed.
End Sample.
Import Sample.

Lemma a_crawl_finds_every_repository_witness : exists helds,
  follow rep_cursor rep_repos (fun from => list_repos Toy.curve Toy.curve (Some 1) from) 4 None (server, None) = Some ((server, None), Ok helds)
  /\ NoDup (map hr_did helds) /\ lit "did:plc:bob" ∈ map hr_did helds.
Proof.
  assert (length (crawl Toy.curve Toy.curve server) < 4)%nat as Hl by (apply Nat.ltb_lt; vm_compute; reflexivity).
  pose proof (a_crawl_finds_every_repository Toy.curve Toy.curve server None tables_orderly tables_range (Some 1) 4 Hl)
    as (helds & Hf & _ & Hn & Hin).
  exists helds; split; [exact Hf|]. split; [exact Hn|]. apply Hin. split; apply (bool_decide_unpack _); vm_compute; exact I.
Defined.
