(* ===== verification/RequestFacts.v ===== *)
(** * RequestFacts: what reaches a repository, and whose

    The four methods of [RecordMethods] that write, taken together: each checks
    whose repository it is, reads what it was sent, and hands the account layer
    one write or none ([does]).  So what is handed over is well typed, and it goes
    to the caller's own repository and no other. *)

From S2P Require Import Prelude Syntax Crypto Ip Text Block Mst Concrete MstShape MstRead MstStore MstFacts Json Car Repo RepoFacts.
From S2P Require Import MstDiff MstWalk Storage Blobs Handles Paging Actor ActorFacts Links Plc Accounts AccountsFacts.
From S2P Require Import Limit Passwords Xrpc Auth Writes Sessions Log Signup Serving Answers Requests RecordMethods.
From S2P Require Import LogFacts WritesFacts ServingFacts RecordFacts.
From Stdlib Require Import Lia.

Local Open Scope Z_scope.

(** The methods that write, as one kind of call. *)
Inductive Call :=
| CallCreate (input : Creating) | CallPut (input : Putting) | CallDelete (input : Deleting) | CallApply (input : Applying).
Definition call_repo (call : Call) : bytes :=
  match call with
  | CallCreate input => cr_repo input | CallPut input => pu_repo input
  | CallDelete input => de_repo input | CallApply input => ap_repo input
  end.

(** JSON as it is read: no key of an object twice, and in order. *)
Definition asked_in_order (asked : Asked) : Prop :=
  match asked with AskCreate _ _ value | AskUpdate _ _ value => Json.in_order value | AskDelete _ _ => True end.
Definition call_in_order (call : Call) : Prop :=
  match call with
  | CallCreate input => Json.in_order (cr_record input) | CallPut input => Json.in_order (pu_record input)
  | CallDelete _ => True | CallApply input => Forall asked_in_order (ap_writes input)
  end.

Section Facts.
Context (p256 k256 : Curve) `{!CurveOk p256, !CurveOk k256}.
Context `{Sha256} `{!Sha256Ok} `{CidText} `{!CidTextOk} `{Stamps} `{Worded} `{Json.Base64} `{!Base64Ok}.
Context `{!Varint} `{!CidBytes} `{!Codec Car.Header}.
Context `{!Codec NodeData} `{!CodecOk NodeData} `{!Codec Ipld}.
Context `{!Codec Commit, !CodecOk Commit, !Codec Unsigned, !CodecOk Unsigned} `{!Codec AppendBody}.
Context (served : Blobs) (fuel : nat) (moments : nat -> Moment) (others : nat -> Actor.Db * Fs.t -> Actor.Db * Fs.t).
Context (logged_at moved_at : Z) (now : nat -> Z) (minted : nat -> option Z) (default_cid : Cid).
Abbreviation Server := (Server p256 k256).
Abbreviation Step := (Step p256 k256).
Abbreviation Reach := (Reach p256 k256).

(** What a call leaves, whatever it answers. *)
Definition run_call (access : Access) (call : Call) (s : Reach) : option Reach :=
  match call with
  | CallCreate input => fst <$> create_record p256 k256 served fuel moments others logged_at moved_at now minted default_cid access input s
  | CallPut input => fst <$> put_record p256 k256 served fuel moments others logged_at moved_at now default_cid access input s
  | CallDelete input => fst <$> delete_record p256 k256 served fuel moments others logged_at moved_at now access input s
  | CallApply input => fst <$> apply_writes p256 k256 served fuel moments others logged_at moved_at now minted access input s
  end.

(* ------------------------------------------------------------------ *)
(** ** Steps that write nothing, and steps that write once *)

(** Nothing but the clock has moved. *)
Definition kept (s s' : Server) : Prop :=
  tables _ _ s' = tables _ _ s /\ reserved _ _ s' = reserved _ _ s /\ dirs _ _ s' = dirs _ _ s
  /\ blob_files _ _ s' = blob_files _ _ s /\ events _ _ s' = events _ _ s.

#[local] Instance kept_preorder : PreOrder kept.
Proof.
  split; [by intros s|]. intros s1 s2 s3 (? & ? & ? & ? & ?) (? & ? & ? & ? & ?). split_and!; by etrans.
Qed.

(** A write that names what it should, and what it should be of. *)
Definition well_typed (q : Requested) : Prop :=
  let '(collection, rkey) := target (Writes.write q) in
  well_formed collection /\ well_formed rkey
  /\ match Repo.record (Writes.write q) with
     | Some r => record_data r /\ exists fields, r = IMap fields /\ BTree.get fields TYPE = Some (IString (Nsid.str collection))
     | None => True
     end.

Definition quiet {A} (m : Step A) : Prop := forall s s' r, m s = Some (s', r) -> kept (fst s) (fst s').
Definition wrote (did : Did.t) (s s' : Reach) : Prop :=
  exists s1 requested swap answer, kept (fst s) (fst s1) /\ Forall well_typed requested
    /\ write_all p256 k256 served fuel moments others logged_at moved_at did requested swap s1 = Some (s', answer).
Definition does {A} (did : Did.t) (m : Step A) : Prop :=
  forall s s' r, m s = Some (s', r) -> kept (fst s) (fst s') \/ wrote did s s'.

Lemma bind_left {A B} (m : Step A) (f : A -> Step B) s s' r : (m ≫= f) s = Some (s', r) ->
  (exists e, m s = Some (s', Err e) /\ r = Err e) \/ exists s1 a, m s = Some (s1, Ok a) /\ f a s1 = Some (s', r).
Proof.
  unfold mbind, step_bind; destruct (m s) as [[s1 [a|e]]|]; [|intros [= <- <-]|done].
  - intros Hf; right. by exists s1, a.
  - left. by exists e.
Qed.

Lemma quiet_lift {A} (r : result Xrpc.Error A) : quiet (lift p256 k256 r).
Proof. intros s s' r' [= <- <-]; done. Qed.
Lemma quiet_ask {A} (f : Server -> result Writes.Error A) : quiet (ask p256 k256 f).
Proof. intros s s' r; unfold ask. generalize (answering (f (fst s))). intros a [= <- <-]; done. Qed.
Lemma quiet_ret {A} (a : A) : quiet (mret a : Step A).
Proof. intros s s' r [= <- <-]; done. Qed.
Lemma quiet_bind {A B} (m : Step A) (f : A -> Step B) : quiet m -> (forall a, quiet (f a)) -> quiet (m ≫= f).
Proof.
  intros Hm Hf s s' r [(e & Hs & _)|(s1 & a & Hs & Hf')]%bind_left; [by eapply Hm|].
  etrans; [by eapply Hm|by eapply Hf].
Qed.
Lemma quiet_spend did points : quiet (spend p256 k256 now did points).
Proof.
  intros [s [limits|]] s' r; cbn [spend]; [|by intros [= <- <-]].
  destruct (writing now limits did points) as [? [?|]]; by intros [= <- <-].
Qed.
Lemma quiet_mint micros : quiet (mint_key p256 k256 micros).
Proof. intros [s limits] s' r; unfold mint_key. destruct (Tid.mint _ _) as [clock tid]. by intros [= <- <-]. Qed.
Lemma quiet_key micros rkey : quiet (key_or_mint p256 k256 micros rkey).
Proof. destruct rkey; [apply quiet_lift|apply quiet_mint]. Qed.
Lemma quiet_found repo : quiet (found p256 k256 repo).
Proof. apply quiet_bind; [apply quiet_lift|intros i]. apply quiet_bind; [apply quiet_ask|intros a; apply quiet_lift]. Qed.
Lemma quiet_repository repo : quiet (repository p256 k256 repo).
Proof. apply quiet_bind; [apply quiet_found|intros a; apply quiet_ret]. Qed.
Lemma quiet_owned access repo : quiet (owned p256 k256 access repo).
Proof. apply quiet_bind; [apply quiet_repository|intros did]. case_decide; [apply quiet_lift|apply quiet_ret]. Qed.

(** A method is quiet steps, and then one write, and then nothing. *)
Lemma does_bind {A B} did (m : Step A) (f : A -> Step B) : quiet m ->
  (forall s s1 a, m s = Some (s1, Ok a) -> does did (f a)) -> does did (m ≫= f).
Proof.
  intros Hm Hf s s' r [(e & Hs & _)|(s1 & a & Hs & Hf')]%bind_left; [left; by eapply Hm|].
  pose proof (Hm _ _ _ Hs) as Hk. destruct (Hf _ _ _ Hs _ _ _ Hf') as [Hk'|(s2 & q & sw & an & Hk' & Hq & Hw)].
  - left; by etrans.
  - right. exists s2, q, sw, an; split_and!; [by etrans|done|done].
Qed.
Lemma does_lift {A B} did (r : result Xrpc.Error A) (f : A -> Step B) :
  (forall a, r = Ok a -> does did (f a)) -> does did (lift p256 k256 r ≫= f).
Proof. intros Hf; apply does_bind; [apply quiet_lift|]. intros s s1 a [-> Ha]%lift_Ok. by apply Hf. Qed.
Lemma does_err {A} did (e : Xrpc.Error) : does did (lift p256 k256 (Err e) : Step A).
Proof. intros s s' r [= <- <-]; by left. Qed.
Lemma does_write {B} did requested swap (f : option Written -> Step B) : Forall well_typed requested ->
  (forall a s s' r, f a s = Some (s', r) -> s' = s) ->
  does did (write_all p256 k256 served fuel moments others logged_at moved_at did requested swap ≫= f).
Proof.
  intros Hq Hf s s' r [(e & Hs & _)|(s1 & a & Hs & Hf')]%bind_left; right.
  - by exists s, requested, swap, (Err e).
  - apply Hf in Hf' as ->. by exists s, requested, swap, (Ok a).
Qed.

(* ------------------------------------------------------------------ *)
(** ** What is read of a request *)

Lemma read_well_formed {T} `{StringNewtype T} why text (t : T) : Parse.refused why (from_str text) = Ok t -> well_formed t.
Proof. intros Ht%map_err_Ok. by eapply from_str_as_str. Qed.

Lemma tid_is_a_key (t : Tid.t) : well_formed t -> well_formed (record_key_of t).
Proof.
  change (Tid.validate (Tid.str t) = Ok tt -> RecordKey.validate (Tid.str t) = Ok tt). unfold Tid.validate, RecordKey.validate.
  destruct (len (Tid.str t) =? Tid.LEN) eqn:El; [|done]; cbn [negb]. destruct (forallb Tid.is_digit (Tid.str t)) eqn:Ed; [|done]; cbn [negb].
  intros _. apply Z.eqb_eq in El. rewrite El.
  change (Tid.LEN =? 0) with false. change (Tid.LEN >? RecordKey.MAX_LEN) with false. cbn iota.
  rewrite bool_decide_false by (intros [E|E]; rewrite E in El; vm_compute in El; discriminate).
  replace (forallb RecordKey.is_allowed (Tid.str t)) with true; [done|symmetry].
  eapply forallb_impl; [|exact Ed]. intros b Hb. unfold RecordKey.is_allowed, is_ascii_alphanumeric, is_ascii_alphabetic.
  unfold Tid.is_digit in Hb. unfold is_ascii_digit, is_ascii_lowercase, is_ascii_uppercase.
  rewrite !orb_true_iff, !between_spec in *. lia.
Qed.

Lemma key_read micros rkey s s' k : key_or_mint p256 k256 micros rkey s = Some (s', Ok k) -> well_formed k.
Proof.
  destruct rkey as [text|]; cbn [key_or_mint].
  - intros [_ Hk]%lift_Ok. by eapply read_well_formed.
  - destruct s as [s limits]; unfold mint_key, Tid.mint. intros [= _ <-]. apply tid_is_a_key, TidFacts.from_parts_valid.
Qed.

(** A record says its collection, whether it was sent saying so or not. *)
Lemma typed_named collection value value' : Json.in_order value -> typed collection value = Ok value' ->
  exists fields, value' = VObject fields /\ BTree.sorted fields /\ BTree.get fields TYPE = Some (VString (Nsid.str collection)).
Proof.
  intros Ho Ht. pose proof (typed_in_order _ _ _ Ho Ht) as Ho'. unfold typed in Ht.
  destruct value as [| | | | |fields]; try done.
  destruct (BTree.get fields TYPE) as [[]|] eqn:Eg;
    try (injection Ht as <-; eexists; split_and!; [done|by destruct Ho'|apply BTree.get_insert_eq]).
  case_decide as Ed; [|done]. injection Ht as <-. exists fields; split_and!; [done|by destruct Ho'|by rewrite Eg, Ed].
Qed.

Lemma record_named collection value r : Json.in_order value -> RecordMethods.record collection value = Ok r ->
  record_data r /\ exists fields, r = IMap fields /\ BTree.get fields TYPE = Some (IString (Nsid.str collection)).
Proof.
  intros Ho Hr; split; [by eapply record_is_data|].
  unfold RecordMethods.record in Hr. apply bind_Ok in Hr as (value' & Ht & Hr%map_err_Ok).
  destruct (typed_named _ _ _ Ho Ht) as (fields & -> & Hs & Hg). cbn [from_json] in Hr.
  destruct (Json.reserved fields) as [[k held]|] eqn:Er.
  { exfalso. unfold Json.reserved in Er. destruct (len fields =? 1) eqn:El; [|done]; cbn [negb] in Er. apply Z.eqb_eq in El.
    destruct fields as [|[k1 v1] [|? ?]]; [done| |rewrite !len_cons in El; match goal with H : context [len ?l] |- _ => pose proof (len_nonneg l) end; lia].
    cbn [BTree.get] in Hg, Er. case_decide as E1; [subst k1|done].
    rewrite !decide_False in Er by (vm_compute; discriminate). done. }
  apply bind_Ok in Hr as (es & Hc & [= <-]). apply collect_entries_inv in Hc as [Hk Hall].
  assert (BTree.sorted es) as Hes by (by eapply BTree.sorted_keys).
  rewrite BTree.from_iter_sorted by done. exists es; split; [done|].
  apply BTree.get_elem in Hg; [|done]. apply list_elem_of_lookup in Hg as [i Hi].
  destruct (Forall2_lookup_l _ _ _ _ _ Hall Hi) as ([k v] & He & Ek & Ev); cbn [fst snd] in Ek, Ev. subst k. injection Ev as <-.
  apply BTree.get_elem; [done|]. by eapply list_elem_of_lookup_2.
Qed.

Lemma collection_read text (c : Nsid.t) : Parse.collection text = Ok c -> well_formed c.
Proof. apply read_well_formed. Qed.
Lemma record_key_read text (k : RecordKey.t) : Parse.record_key text = Ok k -> well_formed k.
Proof. apply read_well_formed. Qed.
#[local] Hint Resolve collection_read record_key_read key_read : core.

Lemma asked_write_typed micros asked s s' w : asked_in_order asked ->
  asked_write p256 k256 micros asked s = Some (s', Ok w) -> well_typed (plain w).
Proof.
  intros Ho Hw; destruct asked as [collection rkey value|collection rkey value|collection rkey]; cbn [asked_write] in Hw.
  - apply step_bind_Ok in Hw as (? & c & [-> Hc]%lift_Ok & Hw). apply step_bind_Ok in Hw as (? & k & Hk & Hw).
    apply step_bind_Ok in Hw as (? & r & [-> Hr]%lift_Ok & [-> ->]%ret_Ok).
    split_and!; [by eauto..|]. by eapply record_named.
  - apply step_bind_Ok in Hw as (? & c & [-> Hc]%lift_Ok & Hw). apply step_bind_Ok in Hw as (? & k & [-> Hk]%lift_Ok & Hw).
    apply step_bind_Ok in Hw as (? & r & [-> Hr]%lift_Ok & [-> ->]%ret_Ok).
    split_and!; [by eauto..|]. by eapply record_named.
  - apply step_bind_Ok in Hw as (? & c & [-> Hc]%lift_Ok & Hw). apply step_bind_Ok in Hw as (? & k & [-> Hk]%lift_Ok & [-> ->]%ret_Ok).
    split_and!; by eauto.
Qed.

Lemma quiet_asked micros asked : quiet (asked_write p256 k256 micros asked).
Proof.
  destruct asked; cbn [asked_write]; (apply quiet_bind; [apply quiet_lift|intros c]);
    (apply quiet_bind; [first [apply quiet_key|apply quiet_lift]|intros k]); [| |apply quiet_ret];
    (apply quiet_bind; [apply quiet_lift|intros r; apply quiet_ret]).
Qed.

Lemma asked_writes_typed asked : forall n s s' requested, Forall asked_in_order asked ->
  asked_writes p256 k256 minted n asked s = Some (s', Ok requested) -> Forall well_typed requested.
Proof.
  induction asked as [|one asked IH]; intros n s s' requested Ho Hw; cbn [asked_writes] in Hw.
  - apply ret_Ok in Hw as [_ ->]. constructor.
  - apply Forall_cons in Ho as [Ho Ho']. apply step_bind_Ok in Hw as (s1 & w & Hone & Hw).
    apply step_bind_Ok in Hw as (s2 & rest & Hrest & [-> ->]%ret_Ok).
    constructor; [by eapply asked_write_typed|by eapply IH].
Qed.

Lemma quiet_asks asked : forall n, quiet (asked_writes p256 k256 minted n asked).
Proof.
  induction asked as [|one asked IH]; intros n; cbn [asked_writes]; [apply quiet_ret|].
  apply quiet_bind; [apply quiet_asked|intros w]. apply quiet_bind; [apply IH|intros rest; apply quiet_ret].
Qed.

(* ------------------------------------------------------------------ *)
(** ** The four methods *)

Lemma does_owned {A} access repo (f : Did.t -> Step A) :
  does (access_did access) (f (access_did access)) -> does (access_did access) (owned p256 k256 access repo ≫= f).
Proof. intros Hf; apply does_bind; [apply quiet_owned|]. by intros s s1 a [_ ->]%owned_Ok. Qed.

Lemma lift_stays {A} (r : option Written -> result Xrpc.Error A) a s s' x : lift p256 k256 (r a) s = Some (s', x) -> s' = s.
Proof. by intros [= <- _]. Qed.

Lemma create_does access input : Json.in_order (cr_record input) ->
  does (access_did access) (create_record p256 k256 served fuel moments others logged_at moved_at now minted default_cid access input).
Proof.
  intros Ho; apply does_owned, does_bind; [apply quiet_spend|intros _ _ _ _]. apply does_lift; intros c Hc.
  apply does_bind; [apply quiet_key|intros s1 s2 k Hk]. apply does_lift; intros r Hr. apply does_lift; intros sw _.
  apply does_write; [|intros a s s' x; apply lift_stays]. apply List.Forall_cons; [|done].
  split_and!; [by eauto..|]. by eapply record_named.
Qed.

Lemma put_does access input : Json.in_order (pu_record input) ->
  does (access_did access) (put_record p256 k256 served fuel moments others logged_at moved_at now default_cid access input).
Proof.
  intros Ho; apply does_owned, does_bind; [apply quiet_spend|intros _ _ _ _]. apply does_lift; intros c Hc.
  apply does_lift; intros k Hk. apply does_lift; intros r Hr. apply does_lift; intros e _. apply does_lift; intros sw _.
  apply does_write; [|intros a s s' x; apply lift_stays]. apply List.Forall_cons; [|done].
  split_and!; [by eauto..|]. by eapply record_named.
Qed.

Lemma delete_does access input :
  does (access_did access) (delete_record p256 k256 served fuel moments others logged_at moved_at now access input).
Proof.
  apply does_owned, does_bind; [apply quiet_spend|intros _ _ _ _]. apply does_lift; intros c Hc. apply does_lift; intros k Hk.
  apply does_bind; [destruct (de_swap_record input); first [apply quiet_ret|apply quiet_lift]|intros _ _ e _].
  apply does_lift; intros sw _. apply does_write; [|by intros a s s' x [= <- _]]. apply List.Forall_cons; [|done].
  split_and!; by eauto.
Qed.

Lemma apply_does access input : Forall asked_in_order (ap_writes input) ->
  does (access_did access) (apply_writes p256 k256 served fuel moments others logged_at moved_at now minted access input).
Proof.
  intros Ho; apply does_owned. destruct (WRITES <? length (ap_writes input))%nat; [apply does_err|].
  apply does_bind; [apply quiet_spend|intros _ _ _ _].
  apply does_bind; [apply quiet_asks|intros s1 s2 requested Hq]. apply does_lift; intros sw _.
  apply does_write; [by eapply asked_writes_typed|by intros a s s' x [= <- _]].
Qed.

Lemma call_does access call s s' : call_in_order call -> run_call access call s = Some s' ->
  kept (fst s) (fst s') \/ wrote (access_did access) s s'.
Proof.
  intros Ho. destruct call as [input|input|input|input]; cbn [run_call call_in_order] in *;
    intros ([left r] & Hm & ->)%fmap_Some; cbn [fst];
    first [eapply create_does; eassumption|eapply put_does; eassumption|eapply delete_does; eassumption|eapply apply_does; eassumption].
Qed.

(** Asked of a repository that is not the caller's, a method says no before it
    does anything. *)
Definition answers {A} (m : Step A) : Prop := forall s, exists r, m s = Some (s, r).
Lemma answers_bind {A B} (m : Step A) (f : A -> Step B) : answers m -> (forall a, answers (f a)) -> answers (m ≫= f).
Proof.
  intros Hm Hf s; unfold mbind, step_bind. destruct (Hm s) as [[a|e] E]; rewrite E; [apply Hf|by exists (Err e)].
Qed.
Lemma answers_lift {A} (r : result Xrpc.Error A) : answers (lift p256 k256 r).
Proof. intros s; by exists r. Qed.
Lemma answers_ask {A} (f : Server -> result Writes.Error A) : answers (ask p256 k256 f).
Proof. intros s; eexists; reflexivity. Qed.
Lemma repository_answers repo : answers (repository p256 k256 repo).
Proof.
  apply answers_bind; [|intros a s; eexists; reflexivity].
  apply answers_bind; [apply answers_lift|intros i]. apply answers_bind; [apply answers_ask|intros a; apply answers_lift].
Qed.

Lemma not_owned access repo s : repository p256 k256 repo s <> Some (s, Ok (access_did access)) ->
  exists e, owned p256 k256 access repo s = Some (s, Err e).
Proof.
  intros Hne. unfold owned, mbind at 1, step_bind at 1. destruct (repository_answers repo s) as [[did|e] E]; rewrite E; [|by exists e].
  rewrite decide_True by congruence. by eexists.
Qed.

(** A write touches one account's files and one account's root. *)
Lemma write_elsewhere did requested swap s s' answer k :
  write_all p256 k256 served fuel moments others logged_at moved_at did requested swap s = Some (s', answer) -> k <> Did.str did ->
  dirs _ _ (fst s') !! k = dirs _ _ (fst s) !! k /\ roots (tables _ _ (fst s')) !! k = roots (tables _ _ (fst s)) !! k.
Proof.
  intros Hw Hk; destruct s as [s limits]; unfold write_all, Serving.write in Hw.
  destruct (dir_key _ _ _) as [key|]; [|by injection Hw as <- <-].
  destruct (commit_writes _ _ _ _ _ _ _ _ _ _ _ _ _) as [[[[d files] clock] [[landed|]|e]]|]; [| | |done].
  - set (s1 := MkServer _ _ _ _ _ _ _ _) in Hw. pose proof (cleared_keeps p256 k256 served s1 did (committed landed)) as (Et & Ed & _ & _).
    destruct (log_commit _ _ _ _) as [ev lr]. injection Hw as <- <-. cbn [fst dirs tables]. rewrite Ed, Et. cbn [s1 dirs tables].
    split; [by rewrite lookup_insert_ne|]. unfold update_root, put_root. cbn. by rewrite lookup_insert_ne.
  - injection Hw as <- <-; cbn [fst dirs tables]. by rewrite lookup_insert_ne.
  - injection Hw as <- <-; cbn [fst dirs tables]. by rewrite lookup_insert_ne.
Qed.

(** C5 (safety). Nobody writes to anybody else's repository. Whatever one of the
    four methods is sent and whatever comes of it, no other account's database
    is touched and no other account's root moved; and asked of any repository
    but the caller's own, nothing at all happens. *)
Theorem nobody_writes_to_anothers_repository access call s s' : call_in_order call -> run_call access call s = Some s' ->
  (forall k, k <> Did.str (access_did access) ->
     dirs _ _ (fst s') !! k = dirs _ _ (fst s) !! k /\ roots (tables _ _ (fst s')) !! k = roots (tables _ _ (fst s)) !! k)
  /\ (repository p256 k256 (call_repo call) s <> Some (s, Ok (access_did access)) -> s' = s).
Proof.
  intros Ho Hrun; split.
  - intros k Hk. destruct (call_does access call s s' Ho Hrun) as [(Et & _ & Ed & _)|(s1 & q & sw & an & (Et & _ & Ed & _) & _ & Hw)].
    + by rewrite Et, Ed.
    + rewrite <- Et, <- Ed. by eapply write_elsewhere.
  - intros Hne. destruct call as [input|input|input|input]; cbn [run_call call_repo] in *;
      apply fmap_Some in Hrun as ([left r] & Hm & ->); cbn [fst];
      destruct (not_owned access _ s Hne) as [e E];
      unfold create_record, put_record, delete_record, apply_writes, mbind, step_bind in Hm; rewrite E in Hm; by injection Hm.
Qed.

(** C6 (type). What reaches a repository is well typed. Whatever one of the four
    methods is sent, it hands the account layer one write or none; everything in
    one is at a valid collection and key, and every record is record data, an
    object that says the collection it is in. *)
Theorem writes_are_well_typed access call s s' : call_in_order call -> run_call access call s = Some s' ->
  kept (fst s) (fst s')
  \/ exists s1 requested swap answer, kept (fst s) (fst s1) /\ Forall well_typed requested
       /\ write_all p256 k256 served fuel moments others logged_at moved_at (access_did access) requested swap s1 = Some (s', answer).
Proof. apply call_does. Qed.

End Facts.

(* ------------------------------------------------------------------ *)
(** ** At a concrete server *)

Import RepoFacts.Sample WritesFacts.Sample ServingFacts.Sample RecordFacts.Sample.

Lemma put_runs : run_call Toy.curve Toy.curve blobs fuel moments alone 9 9 (fun _ => 0) (fun _ => None) no_cid access (CallPut input) (named, None)
  = Some put_state.
Proof. cbn [run_call]. rewrite put_is_answered_with. reflexivity. Qed.

Lemma nobody_writes_to_anothers_repository_witness :
  dirs _ _ (fst put_state) !! lit "did:plc:bob" = dirs _ _ named !! lit "did:plc:bob"
  /\ roots (tables _ _ (fst put_state)) !! lit "did:plc:bob" = roots (tables _ _ named) !! lit "did:plc:bob".
Proof.
  pose proof (nobody_writes_to_anothers_repository Toy.curve Toy.curve blobs fuel moments alone 9 9 (fun _ => 0) (fun _ => None) no_cid
    access (CallPut input) (named, None) put_state input_in_order put_runs) as [Hx _].
  apply Hx. apply (bool_decide_unpack _). vm_compute. exact I.
Defined.

Lemma writes_are_well_typed_witness :
  kept Toy.curve Toy.curve named (fst put_state)
  \/ exists s1 requested swap answer, kept Toy.curve Toy.curve named (fst s1) /\ Forall well_typed requested
       /\ write_all Toy.curve Toy.curve blobs fuel moments alone 9 9 did requested swap s1 = Some (put_state, answer).
Proof.
  pose proof (writes_are_well_typed Toy.curve Toy.curve blobs fuel moments alone 9 9 (fun _ => 0) (fun _ => None) no_cid
    access (CallPut input) (named, None) put_state input_in_order put_runs) as Hx.
  exact Hx.
Defined.
