(* ===== verification/AccountFacts.v ===== *)
(** * AccountFacts: from signing up to signing in, and app passwords

    The account methods of [AccountMethods] put together.  Whoever signed up can
    sign in, under any name the account goes by, with tokens this server reads
    back as that account's; and an app password opens sessions of its own until
    it is revoked, and none after. *)

From S2P Require Import Prelude Syntax Crypto Ip Text Config Block Json Mst Concrete Repo RepoFacts Storage Blobs Handles Actor Links Plc.
From S2P Require Import Accounts AccountsFacts Car Limit Passwords Xrpc Auth Writes Sessions SessionsFacts Log Signup SignupFacts.
From S2P Require Import Serving Answers Requests AccountMethods.
From Stdlib Require Import Lia.

Local Open Scope Z_scope.

(* ------------------------------------------------------------------ *)
(** ** Names, folded *)

Lemma lowercase_twice b : to_ascii_lowercase (to_ascii_lowercase b) = to_ascii_lowercase b.
Proof.
  unfold to_ascii_lowercase, is_ascii_uppercase, between.
  destruct (Z.leb_spec 65 b), (Z.leb_spec b 90); cbn; try done;
    destruct (Z.leb_spec 65 (b + 32)), (Z.leb_spec (b + 32) 90); cbn; try done; try lia;
    destruct (Z.leb_spec 65 b), (Z.leb_spec b 90); cbn; try done; lia.
Qed.
Lemma lower_lower s : lower (lower s) = lower s.
Proof. unfold lower; rewrite map_map; apply map_ext; intros b; apply lowercase_twice. Qed.

Lemma plain_at s : forallb Syntax.plain s = true -> contains 64 s = false.
Proof. intros Hp; apply contains_false; by eapply (forallb_not_elem 64 Syntax.plain). Qed.

(** A handle a signup takes is folded already. *)
Lemma signup_handle rules input h : Handles.signup rules input = Ok h -> well_formed h /\ lower (Handle.str h) = Handle.str h.
Proof.
  unfold Handles.signup, Handles.normalize. intros (h' & Hn & E)%bind_Ok.
  apply bind_Ok in Hn as (h1 & Hn & E1). apply map_err_Ok in Hn. destruct (existsb _ _); [done|]. injection E1 as ->.
  apply bind_Ok in E as (domain & _ & E). cbv zeta in E.
  repeat match type of E with (if ?b then _ else _) = _ => destruct b; [done|] end. injection E as ->.
  unfold Handle.normalize in Hn. apply from_str_as_str in Hn as [E Hw]. split; [done|].
  change (Handle.str h) with (as_str h). rewrite E. apply lower_lower.
Qed.

(** An identifier minted here is folded too. *)
Lemma minted_did_folded `{Sha256} `{!Sha256Ok} `{!Codec Operation} op x : Plc.did op = Ok x ->
  lower (Did.str x) = Did.str x /\ contains 64 (Did.str x) = false /\ starts_with (lit "did:") (Did.str x) = true.
Proof.
  unfold Plc.did; intros (b & _ & E)%bind_Ok.
  assert (Did.str x = lit "did:plc:" ++ take LENGTH (base32 (sha256 b))) as -> by (by injection E as <-). clear E.
  destruct (base32_digits (sha256 b) (sha256_bytes b)) as (digits & -> & Hd & _).
  rewrite firstn_map. assert (Forall (fun c => c ∈ ALPHABET) (map alphabet_char (take LENGTH digits))) as Hin.
  { apply List.Forall_map. eapply Forall_impl; [by apply Forall_take|]. apply alphabet_char_elem. }
  assert (forallb (fun c => (to_ascii_lowercase c =? c) && negb (c =? 64)) ALPHABET = true) as Ha by reflexivity.
  revert Hin; generalize (map alphabet_char (take LENGTH digits)) as id; intros id Hin.
  assert (forall c, c ∈ id -> to_ascii_lowercase c = c /\ c <> 64) as Hc.
  { rewrite Forall_forall in Hin. rewrite forallb_forall in Ha. intros c Hc%Hin%list_elem_of_In%Ha.
    apply andb_true_iff in Hc as [->%Z.eqb_eq Hn%negb_true_iff%Z.eqb_neq]. done. }
  split_and!.
  - unfold lower; rewrite map_app. f_equal. rewrite <- (map_id id) at 2. apply map_ext_in. intros c Hi%list_elem_of_In; by apply Hc.
  - apply contains_false. intros [Hl|Hl]%elem_of_app; [revert Hl; apply (bool_decide_unpack _); vm_compute; exact I|by apply Hc in Hl as [_ ?]].
  - done.
Qed.

(** A password verifies what was made of it. *)
Lemma own_password `{Sha256} `{Password.Scrypt} drawn password : Forall is_byte drawn ->
  Password.verify password (Password.hash drawn password) = true.
Proof.
  intros Hb. apply Password.verify_with_salt; [|done].
  destruct (hex_is_hex drawn Hb) as [Hx _].
  by eapply (forallb_not_elem 58 is_ascii_hexdigit).
Qed.

(* ------------------------------------------------------------------ *)
(** ** What a signup that is answered left in the tables *)

Section Facts.
Context (p256 k256 : Curve) `{Sha256} `{!Sha256Ok} `{CidText} `{!CidTextOk} `{Base58} `{Base64Url} `{!Base64UrlOk} `{Hmac}.
Context `{Password.Scrypt} `{Stamps} `{!StampsOk} `{Worded} `{Varint} `{CidBytes}.
Context `{!JsonCodec Auth.Header} `{!JsonCodecOk Auth.Header any_header} `{!JsonCodec Auth.Claims} `{!JsonCodecOk Auth.Claims session_claims}.
Context `{!Codec Car.Header} `{!Codec Operation} `{!Codec Tombstone} `{!Codec NodeData} `{!Codec Ipld} `{!Codec Commit} `{!Codec Unsigned}.
Context `{!Codec IdentityBody} `{!Codec AccountBody} `{!Codec AppendBody} `{!Codec SyncBody}.
Abbreviation Server := (Server p256 k256).
Abbreviation Step := (Step p256 k256).

Section Signing.
Context {W : Type} (exchanges : Operation -> Tombstone -> Exchanges W) (cut : W -> W).
Context (m : Manager p256 k256) (v : Drawn p256 k256) (signup : Signup.Signup p256 k256) (h : option Hangup).

Lemma start_tables did encoded s s' root blocks : start p256 k256 m v did encoded s = (s', Ok (root, blocks)) ->
  tables _ _ s' = tables _ _ s /\ well_formed (Actor.rev root).
Proof.
  unfold start. destruct (write_key _ _ _ _) as [key|]; [|done]. destruct (write_key _ _ _ _) as [key'|]; [|done].
  unfold start_repo, Repo.create. cbn [tables with_reserved blob_files tid_clock].
  destruct (unstored_blocks _ _) as [[data [r bs]]|e]; [|done].
  destruct (Tid.mint _ _) as [clock rev] eqn:Em.
  assert (well_formed rev) as Hw by (unfold Tid.mint in Em; injection Em as _ <-; apply TidFacts.from_parts_valid).
  destruct (commit_sign _ _ _ _ _ _) as [commit|] eqn:Ec; cbn [mbind result_bind]; [|done].
  destruct (BlockMap.add _ _) as [[bs' cid]|]; cbn [mbind result_bind]; [|done].
  destruct (Actor.commit _ _ _ _ _ _ _ _ _) as [[d f] [?|]]; [|done]. intros [= <- <- _]. split; [done|].
  unfold commit_sign in Ec. destruct (encode _) as [b|]; [|done]. by injection Ec as <-.
Qed.

Lemma blocking_answers {A} h' a guard (work : Server -> Server * A) s1 s2 x :
  blocking p256 k256 h' a guard work s1 = (s2, Some x) -> work s1 = (s2, x).
Proof.
  unfold blocking. destruct h' as [hung|]; [destruct (decide _); [done|]|]; destruct (work s1) as [s3 y]; by intros [= <- <-].
Qed.

Lemma told_tables did handle op root blocks s w s' w' created :
  told p256 k256 exchanges cut m v h did handle op root blocks s w = (s', w', Some (Ok created)) ->
  tables _ _ s' = tables _ _ s /\ created = MkCreated did handle (Sessions.mint (tokens _ _ m) did None (token_id _ _ v) (minted_at _ _ v)).
Proof.
  unfold told. destruct (hangs h AtSend); [done|]. destruct (send _ _) as [w1 registered].
  destruct (_ && _); [done|]. destruct (match registered with Ok _ => _ | Err _ => _ end) as [w2 st].
  destruct (blocking _ _ h AtRelease _ _ _) as [s1 [x|]] eqn:E1; [|done].
  apply blocking_answers in E1. injection E1 as <- _. destruct registered as [u|e]; [|done].
  destruct (blocking _ _ _ AtLog _ _ _) as [s2 [y|]] eqn:E2; [|done].
  apply blocking_answers in E2. unfold Signup.log in E2. destruct (log_account _ _ _ _ _ _ _) as [ev r].
  injection E2 as <- _. by intros [= <- _ <-].
Qed.

(** A signup that was answered passed its checks and left its registration in
    the tables. *)
Lemma create_tables s w s' w' created :
  Signup.create p256 k256 exchanges cut m v signup h s w = (s', w', Some (Ok created)) ->
  exists op root, let r := registration p256 k256 v (cr_did created) (cr_handle created) signup root in
    checked p256 k256 m v signup (tables _ _ s) = Ok (cr_did created, cr_handle created, op)
    /\ well_formed (Actor.rev root) /\ fits (tables _ _ s) r
    /\ tables _ _ s' = registered (registered_at _ _ v) r (tables _ _ s)
    /\ cr_credentials created = Sessions.mint (tokens _ _ m) (cr_did created) None (token_id _ _ v) (minted_at _ _ v).
Proof.
  unfold Signup.create. destruct (checked _ _ _ _ _ _) as [[[did handle] op]|e]; [|done].
  unfold settled. destruct (encode op) as [encoded|e]; [|done].
  destruct (blocking _ _ _ _ _ (start _ _ _ _ _ _) _) as [s1 [[[root blocks]|e]|]] eqn:Es; [|done|done].
  apply blocking_answers, start_tables in Es as [Et Hw]. destruct (hangs h AtHash); [done|].
  destruct (blocking _ _ _ _ _ (register _ _ _ _ _ _ _) _) as [s2 [[u|e]|]] eqn:Er; [|done|done].
  apply blocking_answers in Er. intros [Et' ->]%told_tables; cbn [cr_did cr_handle cr_credentials]. exists op, root; cbv zeta.
  unfold register, Accounts.create in Er. rewrite Et in Er.
  destruct (registering _ _ _) as [t|] eqn:E; [|done]. apply registering_Ok in E as [Hf ->].
  injection Er as <- _. by split_and!.
Qed.

Lemma checked_gives d did handle op : checked p256 k256 m v signup d = Ok (did, handle, op) ->
  char_count (su_password _ _ signup) <= PASSWORD /\ Email.plausible (su_email _ _ signup) = true
  /\ Handles.signup (rules _ _ m) (su_handle _ _ signup) = Ok handle /\ Plc.did op = Ok did.
Proof.
  unfold checked. destruct (Z.ltb_spec PASSWORD (char_count (su_password _ _ signup))) as [|Hl]; [done|].
  destruct (_ && _); [done|]. destruct (Email.plausible _) eqn:Ep; [cbn [negb]|done].
  intros (h1 & E1%map_err_Ok & E)%bind_Ok. apply bind_Ok in E as (u & _ & E). apply bind_Ok in E as (o & _ & E).
  apply bind_Ok in E as (x & Ed%map_err_Ok & [= -> -> ->]). by split_and!.
Qed.
End Signing.

(* ------------------------------------------------------------------ *)
(** ** Signing in *)

(** A pair of tokens that are an account's, under a scope, for as long as they
    are good. *)
Definition reads_as (tokens : Tokens) (x : Did.t) (scope : Scope) (id : bytes) (minted : Z) (access_token refresh_token : bytes) : Prop :=
  (forall now, as_second now < as_second (minted + ACCESS_LIFETIME) ->
     verify_access tokens access_token [scope] now = Ok (MkAccess x scope))
  /\ (forall now, as_second now < as_second (minted + REFRESH_LIFETIME) ->
     verify_refresh tokens refresh_token Auth.Refuse now = Ok (MkRefresh x id)).

Definition scope_of_app (app : option Accounts.AppPassword) : Scope :=
  match app with None => ScAccess | Some app => if Accounts.privileged app then PrivilegedAppPassword else AppPassword end.

Lemma minted_reads tokens x app id minted : well_formed x ->
  let c := Sessions.mint tokens x app id minted in
  reads_as tokens x (scope_of_app app) id minted (cred_access c) (cred_refresh c).
Proof.
  intros Hw; unfold Sessions.mint; cbn [cred_access cred_refresh].
  change (match app with None => _ | Some _ => _ end) with (scope_of_app app). split; intros now Hn; unfold access.
  - destruct (tokens_read_back_as_minted tokens x (scope_of_app app) id [scope_of_app app] Auth.Refuse ACCESS_LIFETIME minted now Hw) as (-> & _).
    rewrite (proj2 (Z.leb_gt _ _) Hn), bool_decide_true by (by left). done.
  - destruct (tokens_read_back_as_minted tokens x (scope_of_app app) id [scope_of_app app] Auth.Refuse ACCESS_LIFETIME minted now Hw) as (_ & -> & _).
    by rewrite (proj2 (Z.leb_gt _ _) Hn), andb_false_r.
Qed.

Lemma named_account d a identifier : orderly d -> holding d a -> goes_by (lower identifier) a ->
  named_by d (map to_ascii_lowercase identifier) = Ok (Some a).
Proof.
  intros Ho Hh Hg. destruct (named_by_spec d (lower identifier) Ho) as (answer & E & Ha).
  unfold lower in E; rewrite E. f_equal. by apply Ha.
Qed.

Lemma check_own d a identifier password : orderly d -> holding d a -> goes_by (lower identifier) a ->
  char_count password <= STORED_PASSWORD -> Password.verify password (password_scrypt a) = true ->
  check d identifier password = Ok (MkLogin a None).
Proof.
  intros Ho Hh Hg Hc Hv; unfold check. rewrite (proj2 (Z.ltb_ge _ _) Hc), (named_account d a) by done. cbn. by rewrite Hv.
Qed.

(** The names an account goes by, in any case. *)
Lemma goes_by_names a handle identifier : well_formed (Accounts.did a) -> Accounts.handle a = Some handle -> well_formed handle ->
  lower (Handle.str handle) = Handle.str handle ->
  contains 64 (Did.str (Accounts.did a)) = false -> starts_with (lit "did:") (Did.str (Accounts.did a)) = true ->
  Email.plausible (Accounts.email a) = true ->
  lower identifier ∈ [Handle.str handle; Did.str (Accounts.did a); lower (Accounts.email a)] ->
  goes_by (lower identifier) a.
Proof.
  intros Hd Ea Hh Hf Hat Hs He Hin. unfold goes_by, AtIdentifier.parse.
  apply elem_of_cons in Hin as [->|[->|[->|[]%elem_of_nil]%elem_of_cons]%elem_of_cons].
  - rewrite plain_at by (by apply handle_plain). rewrite handle_not_did by done.
    rewrite (from_str_well_formed handle Hh : from_str (Handle.str handle) = Ok handle); cbn. by exists handle.
  - rewrite Hat, Hs. by rewrite (from_str_well_formed _ Hd : from_str (Did.str (Accounts.did a)) = Ok (Accounts.did a)).
  - assert (contains 64 (lower (Accounts.email a)) = true) as ->; [|by rewrite lower_lower].
    unfold Email.plausible in He. destruct (split_once 64 _) as [[local domain]|] eqn:E; [|done].
    apply split_once_Some in E as [-> _]. unfold lower; rewrite map_app; cbn [map].
    unfold contains; rewrite existsb_app; cbn. by rewrite orb_true_r.
Qed.

Lemma account_of_holding (s : Server) limits a : orderly (tables _ _ s) -> holding (tables _ _ s) a ->
  account_of p256 k256 (Accounts.did a) (s, limits) = Some ((s, limits), Ok a).
Proof.
  intros Ho Hh. destruct (by_did_spec _ (Accounts.did a) Ho) as (answer & E & Ha).
  assert (answer = Some a) as -> by (by apply Ha).
  unfold account_of, mbind, step_bind, ask, Serving.account; cbn [fst]. rewrite E. done.
Qed.

(** Signing in to an account by its own password. *)
Lemma signs_in tokens drawn now a identifier password (s : Server) limits :
  orderly (tables _ _ s) -> holding (tables _ _ s) a -> goes_by (lower identifier) a ->
  char_count password <= STORED_PASSWORD -> Password.verify password (password_scrypt a) = true ->
  create_session p256 k256 tokens drawn now identifier password (s, limits)
  = Some ((with_tables _ _ (store_session (MkSession drawn (Accounts.did a) (now + REFRESH_LIFETIME) None None)) s, limits),
      Ok (shown_session (Sessions.mint tokens (Accounts.did a) None drawn now) a)).
Proof.
  intros Ho Hh Hg Hc Hv. unfold create_session, mbind, step_bind, ask; cbn [fst].
  by rewrite (check_own _ a) by done.
Qed.

(** C11 (roundtrip). Whoever signed up can sign in. Where a signup is answered,
    whatever its caller and the directory did on the way: the account is held
    under the identifier and the handle it was answered with and the email it
    gave; the tokens it was answered with read back as that account's, at full
    scope, for as long as they are good; it is shown to whoever offers them; and
    by its handle, its identifier or its email, in any case, and the password it
    signed up with, it is let in, shown as itself, with tokens that read back as
    its own. *)
Theorem whoever_signed_up_can_sign_in {W} (exchanges : Operation -> Tombstone -> Exchanges W) (cut : W -> W)
    (m : Manager p256 k256) (v : Drawn p256 k256) h input s w s' w' shown limits :
  reachable (tables _ _ s) -> Forall is_byte (salt _ _ v) ->
  create_account p256 k256 exchanges cut m v h input s w = (s', w', Some (Ok shown)) ->
  exists a handle, holding (tables _ _ s') a /\ Accounts.handle a = Some handle
    /\ Did.str (Accounts.did a) = sc_did shown /\ Handle.str handle = sc_handle shown /\ Accounts.email a = c_email input
    /\ reads_as (tokens _ _ m) (Accounts.did a) ScAccess (token_id _ _ v) (minted_at _ _ v) (sc_access shown) (sc_refresh shown)
    /\ (forall scope, get_session p256 k256 (MkAccess (Accounts.did a) scope) (s', limits) = Some ((s', limits), Ok (shown_account a)))
    /\ forall identifier drawn now,
         lower identifier ∈ [sc_handle shown; sc_did shown; lower (c_email input)] ->
         exists s2 session,
           create_session p256 k256 (tokens _ _ m) drawn now identifier (c_password input) (s', limits) = Some ((s2, limits), Ok session)
           /\ ss_account session = shown_account a /\ holding (tables _ _ s2) a
           /\ reads_as (tokens _ _ m) (Accounts.did a) ScAccess drawn now (ss_access session) (ss_refresh session).
Proof.
  intros Ho%reachable_orderly Hsalt. unfold create_account. destruct (read_signup _ _ input) as [signup|e] eqn:Er; [|done].
  assert (su_email _ _ signup = c_email input /\ su_password _ _ signup = c_password input) as [Ee Ep].
  { unfold read_signup in Er. destruct (c_did input); [done|]. destruct (c_plc_op input); [done|].
    apply bind_Ok in Er as (k & _ & [= <-]). done. }
  destruct (Signup.create _ _ _ _ _ _ _ _ _ _) as [[s1 w1] [[created|e]|]] eqn:Ec; [|done|done].
  intros [= <- <- <-]. apply create_tables in Ec as (op & root & Hk & Hw & Hf & Et & Em); cbv zeta in Hf, Et.
  apply checked_gives in Hk as (Hlen & Hmail & Hhandle & Hdid).
  destruct (minted_did_folded op _ Hdid) as (Hdf & Hda & Hds). destruct (signup_handle _ _ _ Hhandle) as [Hwh Hhf].
  set (r := registration _ _ _ _ _ _ _) in *. set (a := reg_account r).
  assert (well_formed (Accounts.did a)) as Hwd by (by eapply minted_did_parses).
  destruct (registered_tables (registered_at _ _ v) r (tables _ _ s)) as (Ea & Eb & _); cbv zeta in *.
  assert (holding (tables _ _ s1) a) as Hh.
  { eexists _, _. rewrite Et, Ea, Eb, !lookup_insert_eq. by split_and!. }
  assert (orderly (tables _ _ s1)) as Ho1.
  { rewrite Et. apply registered_orderly; [done| |done]. split_and!; [done| |done|].
    - by intros x [= <-].
    - by intros x [= <-]. }
  exists a, (cr_handle created). cbn [shown_created sc_did sc_handle sc_access sc_refresh].
  split_and!; [done|done|done|done|done| | |].
  - rewrite Em. by apply (minted_reads _ _ None).
  - intros scope. unfold get_session, mbind, step_bind; cbn [access_did]. by rewrite account_of_holding.
  - intros identifier drawn now Hin. eexists _, _. split.
    { apply signs_in; [done|done| | |].
      - eapply goes_by_names; try done. by rewrite <- Ee in Hin.
      - rewrite <- Ep. unfold STORED_PASSWORD, PASSWORD in *; lia.
      - rewrite <- Ep. by apply own_password. }
    split_and!; [done|done|]. by apply (minted_reads _ _ None).
Qed.

(* ------------------------------------------------------------------ *)
(** ** App passwords *)

(** When each was written reads back. *)
Definition apps_fine (d : Accounts) : Prop := forall k row, app_password d !! k = Some row -> exists t, app_created row = Accounts.stamp t.

Lemma op_apps op d : apps_fine d -> apps_fine (run_op op d).
Proof.
  intros Ha; destruct op as [now r|now code k|k|now k root|s|id until next|id|k|k now|now k p hash|k n|now codes f b uses];
    cbn [run_op]; try exact Ha.
  - unfold Accounts.create; destruct (registering now r d) as [d'|e] eqn:E; [|done]. apply registering_Ok in E as [_ ->].
    destruct (registered_tables now r d) as (_ & _ & _ & _ & Ep). unfold apps_fine; cbn [fst]. by rewrite Ep.
  - destruct (spend_invite _ _ _ _) eqn:E; [|done]. by apply spend_invite_Ok in E as [_ ->].
  - intros k' row Hk; cbn in Hk. apply map_lookup_filter_Some in Hk as [Hk _]. by eapply Ha.
  - unfold Accounts.rotate; by repeat case_match.
  - unfold Accounts.create_app_password. case_match; [done|]. intros k' row Hk; cbn in Hk.
    apply lookup_insert_Some in Hk as [[_ <-]|[_ Hk]]; [by eexists|by eapply Ha].
  - intros k' row Hk; cbn in Hk. apply lookup_delete_Some in Hk as [_ Hk]. by eapply Ha.
  - unfold create_invites; by case_match.
Qed.

Lemma reachable_apps d : reachable d -> apps_fine d.
Proof.
  intros Hr; apply (ran_keeps _ apps_fine (fun op d _ _ => op_apps op d) _ _ Hr).
  intros k row Hk; cbn in Hk. by rewrite lookup_empty in Hk.
Qed.

(** What a listing shows. *)
Definition shows (d : Accounts) (x : Did.t) (l : list HeldPassword) : Prop := forall held, held ∈ l <->
  exists row, app_password d !! (Did.str x, hp_name held) = Some row
    /\ hp_created held = app_created row /\ hp_privileged held = (app_privileged row =? 1).

Lemma collect_map {A B E} (f : A -> result E B) (g : A -> B) l : (forall a, a ∈ l -> f a = Ok (g a)) -> collect (map f l) = Ok (map g l).
Proof.
  induction l as [|a l IH]; intros Hf; [done|]. cbn. rewrite Hf by left. rewrite IH; [done|]. intros b Hb; apply Hf; by right.
Qed.

Lemma listing_shows access (s : Server) limits : apps_fine (tables _ _ s) ->
  exists l, list_passwords p256 k256 access (s, limits) = Some ((s, limits), Ok l) /\ shows (tables _ _ s) (access_did access) l.
Proof.
  intros Hf; unfold list_passwords, mbind, step_bind, ask, app_passwords; cbn [fst].
  set (rows := merge_sort _ _).
  assert (forall e, e ∈ rows <-> fst (fst e) = Did.str (access_did access) /\ app_password (tables _ _ s) !! fst e = Some (snd e)) as Hr.
  { intros [[k n] row]; unfold rows. rewrite merge_sort_Permutation, list_elem_of_In, filter_In, <- list_elem_of_In, elem_of_map_to_list.
    cbn. rewrite bool_decide_eq_true. tauto. }
  rewrite (collect_map _ (fun e => (Accounts.MkAppPassword (snd (fst e)) (app_privileged (snd e) =? 1), default 0 (parse_time (app_created (snd e)))))).
  2: { intros [k row] Hin%Hr. destruct (Hf _ _ (proj2 Hin)) as [t Et]. cbn in Et |- *. by rewrite Et, stamp_kept. }
  cbn [in_store map_err answering]. eexists; split; [done|].
  intros held. rewrite map_map; cbn [fst snd Accounts.name Accounts.privileged]. split.
  - intros ([[k n] row] & -> & [Ek Hk]%Hr)%list_elem_of_fmap; cbn in Ek, Hk |- *; subst k. exists row; split_and!; [done| |done].
    destruct (Hf _ _ Hk) as [t Et]. rewrite Et, stamp_kept; cbn. by rewrite kept_stamp.
  - intros (row & Hk & Ec & Ep). apply list_elem_of_fmap. exists ((Did.str (access_did access), hp_name held), row).
    split; [|by apply Hr]. destruct (Hf _ _ Hk) as [t Et]. cbn. rewrite Et, stamp_kept; cbn. rewrite kept_stamp, <- Et, <- Ec, <- Ep. by destruct held.
Qed.

Lemma app_text_short drawn : char_count (app_password_text drawn) <= STORED_PASSWORD.
Proof.
  assert (forall s, char_count s <= len s) as Hc.
  { intros s; unfold char_count, len. apply inj_le. induction s as [|b s IH]; cbn; [lia|]. destruct (negb _); cbn; lia. }
  etrans; [apply Hc|]. unfold app_password_text. change (List.seq 0 4) with [0; 1; 2; 3]%nat.
  cbn [map join]. unfold len, STORED_PASSWORD. rewrite !length_app; cbn [length]. rewrite !length_app; cbn [length].
  rewrite !length_app; cbn [length]. rewrite !length_take. lia.
Qed.

Lemma held_under_only d x hash n row : app_password d !! (Did.str x, n) = Some row -> app_hash row = hash ->
  (forall n' row', app_password d !! (Did.str x, n') = Some row' -> n' <> n -> app_hash row' <> hash) ->
  held_under d x hash = Some (Accounts.MkAppPassword n (app_privileged row =? 1)).
Proof.
  intros Hr Hh Hone. destruct (held_under_spec d x hash) as [Hs Hn]. destruct (held_under d x hash) as [[n' p]|] eqn:E.
  - destruct (Hs _ eq_refl) as (row' & Hr' & Hh' & Hp); cbn in Hr', Hp.
    destruct (decide (n' = n)) as [->|Hne]; [|by destruct (Hone _ _ Hr' Hne)]. rewrite Hr in Hr'; injection Hr' as <-. by rewrite Hp.
  - destruct (Hn eq_refl (Accounts.MkAppPassword n (app_privileged row =? 1))). by exists row.
Qed.

Lemma held_under_none d x hash : (forall n row, app_password d !! (Did.str x, n) = Some row -> app_hash row <> hash) -> held_under d x hash = None.
Proof.
  intros Hno. destruct (held_under_spec d x hash) as [Hs _]. destruct (held_under d x hash) as [app|]; [|done].
  destruct (Hs _ eq_refl) as (row & Hr & Hh & _). by destruct (Hno _ _ Hr).
Qed.

(** A password that is not the account's own lets in as what it is held as, or
    not at all. *)
Lemma check_other d a identifier password : orderly d -> holding d a -> goes_by (lower identifier) a ->
  char_count password <= STORED_PASSWORD -> Password.verify password (password_scrypt a) = false ->
  check d identifier password = match held_under d (Accounts.did a) (Password.app (Accounts.did a) password) with
    | Some app => Ok (MkLogin a (Some app)) | None => Err Writes.Credentials end.
Proof.
  intros Ho Hh Hg Hc Hv; unfold check. rewrite (proj2 (Z.ltb_ge _ _) Hc), (named_account d a) by done. cbn. rewrite Hv.
  by destruct (held_under _ _ _).
Qed.

(** What writing one leaves. *)
Definition app_row (drawn : bytes) (now : Z) (x : Did.t) (privileged : bool) : AppRow :=
  MkAppRow (Password.app x (app_password_text drawn)) (Accounts.stamp now) (if privileged then 1 else 0).
Lemma create_password_cases drawn now access name privileged (s : Server) limits :
  let key := (Did.str (access_did access), name) in
  create_password p256 k256 drawn now access name privileged (s, limits) =
  match app_password (tables _ _ s) !! key with
  | Some _ => Some ((s, limits), Err (from_account (from_store AppPasswordTaken)))
  | None => Some ((with_tables _ _ (with_apps (base.insert key (app_row drawn now (access_did access) privileged))) s, limits),
                  Ok (MkWrittenPassword name (app_password_text drawn) (Accounts.stamp now) privileged))
  end.
Proof.
  cbv zeta; unfold create_password, mbind, step_bind, over_tables, act, Sessions.create_app_password, Accounts.create_app_password.
  cbn [fst snd Accounts.name Accounts.privileged].
  destruct (app_password _ !! _) as [row|]; cbn [fst snd]; [by destruct s|].
  rewrite stamp_kept; cbn. by rewrite kept_stamp.
Qed.

(** C12 (safety). An app password lives until it is revoked. One that was written
    is listed, and its name is taken; whoever offers it, under any name of the
    account, is let in as that account, in the scope it was written with, with
    tokens that read back so; and once it is revoked it is listed no more, every
    session it opened is gone and no other, and offering it again does nothing. *)
Theorem an_app_password_lives_until_it_is_revoked (s s1 : Server) limits access a name privileged drawn now written :
  reachable (tables _ _ s) -> holding (tables _ _ s) a -> access_did access = Accounts.did a ->
  create_password p256 k256 drawn now access name privileged (s, limits) = Some ((s1, limits), Ok written) ->
  Password.verify (wp_password written) (password_scrypt a) = false ->
  (forall n row, app_password (tables _ _ s) !! (Did.str (Accounts.did a), n) = Some row ->
     app_hash row <> Password.app (Accounts.did a) (wp_password written)) ->
  (exists l, list_passwords p256 k256 access (s1, limits) = Some ((s1, limits), Ok l)
     /\ MkHeldPassword name (wp_created written) privileged ∈ l)
  /\ (forall drawn' now' privileged', exists e,
        create_password p256 k256 drawn' now' access name privileged' (s1, limits) = Some ((s1, limits), Err e))
  /\ forall tokens identifier id at_, goes_by (lower identifier) a ->
       exists s2 session s3,
         create_session p256 k256 tokens id at_ identifier (wp_password written) (s1, limits) = Some ((s2, limits), Ok session)
         /\ ss_account session = shown_account a
         /\ reads_as tokens (Accounts.did a) (if privileged then PrivilegedAppPassword else AppPassword) id at_
              (ss_access session) (ss_refresh session)
         /\ revoke_password p256 k256 access name (s2, limits) = Some ((s3, limits), Ok tt)
         /\ (exists l, list_passwords p256 k256 access (s3, limits) = Some ((s3, limits), Ok l) /\ forall held, held ∈ l -> hp_name held <> name)
         /\ (refresh_token (tables _ _ s1) !! id = None ->
               is_Some (refresh_token (tables _ _ s2) !! id) /\ refresh_token (tables _ _ s3) !! id = None)
         /\ (forall k row, refresh_token (tables _ _ s3) !! k = Some row <-> refresh_token (tables _ _ s2) !! k = Some row
               /\ ~ (tok_did row = Did.str (Accounts.did a) /\ tok_app row = Some name))
         /\ forall id' at_', exists e,
              create_session p256 k256 tokens id' at_' identifier (wp_password written) (s3, limits) = Some ((s3, limits), Err e).
Proof.
  intros Hr Hh Ea Hc Hv Hone. rewrite create_password_cases, Ea in Hc. set (x := Accounts.did a) in *. cbv zeta in Hc.
  destruct (app_password (tables _ _ s) !! _) as [|] eqn:Hnone; [done|]. injection Hc as <- <-.
  cbn [wp_name wp_password wp_created wp_privileged] in *.
  set (row := app_row drawn now x privileged) in *. set (s1 := with_tables _ _ _ s).
  pose (d1 := with_apps (base.insert (Did.str x, name) row) (tables _ _ s)). assert (tables _ _ s1 = d1) as E1 by done.
  assert (reachable d1) as Hr1.
  { pose proof (reach_app now x (Accounts.MkAppPassword name privileged) (app_hash row) _ Hr) as Hx.
    unfold Accounts.create_app_password in Hx; cbn [Accounts.name] in Hx. by rewrite Hnone in Hx. }
  assert (app_password d1 !! (Did.str x, name) = Some row) as Hrow by apply lookup_insert_eq.
  assert (well_formed x) as Hw by (by destruct Hh as (? & ? & _ & _ & Hw & _)).
  assert (privileged = (app_privileged row =? 1)) as Hp by (by destruct privileged).
  assert (forall n' row', app_password d1 !! (Did.str x, n') = Some row' -> n' <> name ->
    app_hash row' <> Password.app x (app_password_text drawn)) as Hothers.
  { intros n' row' Hl Hne. apply (Hone n'). cbn in Hl. by rewrite lookup_insert_ne in Hl by congruence. }
  split_and!.
  - destruct (listing_shows access s1 limits) as (l & El & Hl); [by apply reachable_apps|].
    exists l; split; [done|]. apply Hl. rewrite Ea. by exists row.
  - intros drawn' now' privileged'. eexists. rewrite create_password_cases, Ea. cbv zeta.
    by rewrite E1, Hrow.
  - intros tokens identifier id at_ Hg.
    set (session := MkSession id x (at_ + REFRESH_LIFETIME) None (Some (Accounts.MkAppPassword name (app_privileged row =? 1)))).
    set (s2 := with_tables _ _ (store_session session) s1).
    set (s3 := with_tables _ _ (fun d => fst (Accounts.revoke_app_password x name d)) s2).
    exists s2, (shown_session (Sessions.mint tokens x (session_app session) id at_) a), s3.
    assert (reachable (tables _ _ s2)) as Hr2 by (by apply (reach_session session d1)).
    assert (reachable (tables _ _ s3)) as Hr3 by (by apply (reach_revoke_app x name (tables _ _ s2))).
    assert (forall k tok, refresh_token (tables _ _ s3) !! k = Some tok <-> refresh_token (tables _ _ s2) !! k = Some tok
      /\ ~ (tok_did tok = Did.str x /\ tok_app tok = Some name)) as Hgone.
    { intros k tok. change (refresh_token (tables _ _ s3)) with (refresh_token (fst (Accounts.revoke_app_password x name (tables _ _ s2)))).
      unfold Accounts.revoke_app_password, without; cbn [fst refresh_token with_tokens with_apps].
      rewrite map_lookup_filter_Some; cbn [fst snd]. rewrite andb_false_iff, !bool_decide_eq_false. split; [tauto|].
      intros [Hk Hn]; split; [done|]. destruct (decide (tok_did tok = Did.str x)); [right|by left]. tauto. }
    split_and!.
    + unfold create_session, mbind, step_bind, ask; cbn [fst]. rewrite E1, (check_other d1 a) by (done || by apply reachable_orderly || apply app_text_short).
      by rewrite (held_under_only d1 x _ name row).
    + done.
    + rewrite Hp at 1. by apply (minted_reads tokens x (session_app session)).
    + unfold revoke_password, mbind, step_bind, over_tables, act. cbn [fst snd]. by rewrite Ea.
    + destruct (listing_shows access s3 limits) as (l & El & Hl); [by apply reachable_apps|]. exists l; split; [done|].
      intros held (row' & Hx & _)%Hl Hn. rewrite Ea, Hn in Hx. cbn in Hx. by rewrite lookup_delete_eq in Hx.
    + intros Hid. split; [apply stored_session|]. destruct (refresh_token (tables _ _ s3) !! id) as [tok|] eqn:Et; [|done].
      apply Hgone in Et as [Et Hn]. destruct Hn. cbn in Et. change (refresh_token (tables _ _ s)) with (refresh_token (tables _ _ s1)) in Et.
      rewrite Hid, lookup_insert_eq in Et. by injection Et as <-.
    + exact Hgone.
    + intros id' at_'. eexists. unfold create_session, mbind, step_bind, ask; cbn [fst].
      rewrite (check_other (tables _ _ s3) a) by (done || by apply reachable_orderly || apply app_text_short).
      rewrite held_under_none; [done|]. intros n row' Hl. cbn in Hl. apply lookup_delete_Some in Hl as [Hne Hl].
      apply (Hothers n row' Hl). by intros ->.
Qed.

(* ------------------------------------------------------------------ *)
(** ** A session, opened, exchanged and closed *)

(** Whoever [check] lets in, and as what. *)
Lemma check_lets_in d identifier password login : orderly d -> check d identifier password = Ok login ->
  holding d (login_account login)
  /\ match login_app login with
     | None => True
     | Some app => exists hash, app_held d (Accounts.did (login_account login)) hash app
     end.
Proof.
  intros Ho; unfold check. destruct (_ <? _); [done|]. intros (answer & E & Hc)%bind_Ok. apply map_err_Ok in E.
  destruct (named_by_spec d (lower identifier) Ho) as (answer' & E' & Ha). unfold lower in E'; rewrite E' in E; injection E as ->.
  destruct answer as [a|]; [|done]. destruct (proj1 (Ha a) eq_refl) as [Hh _].
  destruct (Password.verify _ _); [by injection Hc as <-|]. apply bind_Ok in Hc as (app & Hap & [= <-]); cbn. split; [done|].
  destruct (held_under d _ _) as [app'|] eqn:Eu; [|done]. cbn in Hap; injection Hap as ->.
  eexists. by apply (proj1 (held_under_spec _ _ _)).
Qed.

Definition revoked : Xrpc.Error := Xrpc.named (lit "ExpiredToken") (Xrpc.invalid_request (lit "Token has been revoked")).

(** C13 (functional). A session runs until it is closed. One that was opened is of
    an account held here, with tokens that read back as that account's in the
    scope it signed in with; its refresh token, offered while it is good, is
    exchanged for a session of the same account and scope, stored under the new
    name; and once it is closed, offering it says it was revoked, whatever else
    happens to be stored. *)
Theorem a_session_runs_until_it_is_closed (s s1 : Server) limits tokens id at_ identifier password session :
  reachable (tables _ _ s) -> refresh_token (tables _ _ s) !! id = None ->
  create_session p256 k256 tokens id at_ identifier password (s, limits) = Some ((s1, limits), Ok session) ->
  exists a scope, holding (tables _ _ s1) a /\ ss_account session = shown_account a
    /\ reads_as tokens (Accounts.did a) scope id at_ (ss_access session) (ss_refresh session)
    /\ get_session p256 k256 (MkAccess (Accounts.did a) scope) (s1, limits) = Some ((s1, limits), Ok (shown_account a))
    /\ (forall fuel moments drawn minted, drawn fuel <> id -> moments fuel < kept (at_ + REFRESH_LIFETIME) ->
          exists s2 next,
            refresh_method p256 k256 tokens (S fuel) moments drawn (fun _ d => d) minted (MkRefresh (Accounts.did a) id) (s1, limits)
              = Some ((s2, limits), Ok next)
            /\ ss_account next = shown_account a
            /\ reads_as tokens (Accounts.did a) scope (drawn fuel) minted (ss_access next) (ss_refresh next)
            /\ is_Some (refresh_token (tables _ _ s2) !! drawn fuel))
    /\ exists s3, delete_session p256 k256 (MkRefresh (Accounts.did a) id) (s1, limits) = Some ((s3, limits), Ok tt)
         /\ forall fuel moments drawn minted,
              refresh_method p256 k256 tokens (S fuel) moments drawn (fun _ d => d) minted (MkRefresh (Accounts.did a) id) (s3, limits)
              = Some ((s3, limits), Err revoked).
Proof.
  intros Hr Hid. unfold create_session at 1, mbind, step_bind, ask; cbn [fst].
  destruct (check (tables _ _ s) identifier password) as [[a app]|e] eqn:Ec; [cbn [answering map_err]|done].
  destruct (check_lets_in _ _ _ _ (reachable_orderly _ Hr) Ec) as [Hh Happ]; cbn [login_account login_app] in *.
  unfold over_tables, act; cbn [fst snd open_session]. intros [= <- <-].
  set (opened := MkSession id (Accounts.did a) (at_ + REFRESH_LIFETIME) None app). set (s1 := with_tables _ _ _ s).
  assert (well_formed (Accounts.did a)) as Hw by (by destruct Hh as (? & ? & _ & _ & Hw & _)).
  assert (reachable (tables _ _ s1)) as Hr1 by (by apply (reach_session opened)).
  assert (holding (tables _ _ s1) a) as Hh1 by done.
  assert (refresh_token (tables _ _ s1) !! id
    = Some (MkTokenRow (Did.str (Accounts.did a)) (Accounts.stamp (at_ + REFRESH_LIFETIME)) None (Accounts.name <$> app))) as Hrow.
  { cbn. by rewrite Hid, lookup_insert_eq. }
  exists a, (scope_of_app app). split_and!; [done|done|by apply minted_reads| | |].
  - unfold get_session, mbind, step_bind; cbn [access_did]. rewrite account_of_holding; [done|by apply reachable_orderly|done].
  - intros fuel moments drawn minted Hne Hgood.
    unfold refresh_method, mbind, step_bind; cbn [refresh_did refresh_id].
    rewrite account_of_holding by (done || by apply reachable_orderly). unfold refresh_step, refresh_session.
    destruct (turn_alone id (moments fuel) (drawn fuel) (tables _ _ s1) _ (Accounts.did a) (at_ + REFRESH_LIFETIME) Hrow eq_refl Hw eq_refl)
      as (d0 & Et & Hd).
    rewrite (proj2 (Z.leb_gt _ _) Hgood) in Hd. destruct Hd as (d1 & _ & ->). cbn [default tok_next tok_did tok_app] in Et.
    rewrite (rotate_alone _ _ _ _ _ _ _ Et).
    eexists _, _; split; [cbn; reflexivity|]. split_and!.
    + done.
    + pose (now_app := (fun n => Accounts.MkAppPassword n (match app_password (tables _ _ s1) !! (Did.str (Accounts.did a), n) with
        | Some row => app_privileged row =? 1 | None => false end)) <$> (Accounts.name <$> app)).
      change (let c := Sessions.mint tokens (Accounts.did a) now_app (drawn fuel) minted in
        reads_as tokens (Accounts.did a) (scope_of_app app) (drawn fuel) minted (cred_access c) (cred_refresh c)).
      assert (now_app = app) as ->; [unfold now_app|by apply minted_reads]. destruct app as [[n p]|]; [|done]. destruct Happ as (hash & row & Hl & _ & Hp); cbn in Hl, Hp |- *.
      change (app_password (tables _ _ s1)) with (app_password (tables _ _ s)). by rewrite Hl, Hp.
    + apply stored_session.
  - eexists; split; [unfold delete_session, mbind, step_bind, over_tables, act; cbn; reflexivity|].
    intros fuel moments drawn minted. unfold refresh_method, mbind, step_bind; cbn [refresh_did refresh_id].
    set (s3 := with_tables _ _ _ s1).
    assert (reachable (tables _ _ s3)) as Hr3 by (by apply (reach_revoke id (tables _ _ s1))).
    rewrite account_of_holding by (done || by apply reachable_orderly). unfold refresh_step, refresh_session.
    assert (refresh_token (tables _ _ s3) !! id = None) as Hno by apply lookup_delete_eq.
    cbn [Sessions.rotate]. unfold Sessions.turn, session_of. rewrite Hno. done.
Qed.
End Facts.

(* ------------------------------------------------------------------ *)
(** ** At a concrete server *)

Module Sample.
Import SignupFacts.Sample.
#[export] Existing Instances Auth.Sample.shifted_ok Auth.Sample.header_json_ok Auth.Sample.claims_json_ok.
#[export] Instance worded : Worded := {| storage_worded := fun _ => []; directory_worded := fun _ => [] |}.

Definition input : Creating :=
  MkCreating (lit "Alice.example.com") (lit "alice@example.com") (lit "a password") (Some AccountsFacts.Sample.code) None None None.
Definition run := create_account Toy.curve Toy.curve (fun _ _ => directory) Datatypes.id manager drawn None input empty_server (fresh_world false).
Lemma run_answers : exists s' w' shown, run = (s', w', Some (Ok shown)).
Proof.
  assert (match snd run with Some (Ok _) => true | _ => false end = true) as Hk by (vm_compute; reflexivity).
  destruct run as [[s' w'] [[shown|e]|]]; [by exists s', w', shown|done..].
Qed.
Lemma salted : Forall is_byte (salt _ _ drawn).
Proof. repeat (apply List.Forall_cons; [unfold is_byte; cbn; lia|]). apply List.Forall_nil. Qed.
Lemma invited_reachable : reachable (tables _ _ empty_server).
Proof. apply reach_invites; [apply reach_new|lia]. Qed.

(** A server with one account. *)
Definition alice : Account :=
  MkAccount (Did.mk (lit "did:plc:4cjoyc3cgpal7gnrpzyjhnv3")) (Some (Handle.mk (lit "alice.example.com")))
    (lit "alice@example.com") (Password.hash (lit "salt") (lit "a password")).
Definition accounts : Accounts :=
  fst (Accounts.create 5 (MkRegistration alice AccountsFacts.Sample.root None None) no_accounts).
Lemma accounts_reachable : reachable accounts.
Proof.
  apply reach_create; [apply reach_new|]. split_and!; try (vm_compute; reflexivity); intros x [= <-]; vm_compute; reflexivity.
Qed.
Definition server : Server Toy.curve Toy.curve := MkServer _ _ accounts ∅ ∅ Fs.empty (Tid.MkClock 7 0) empty_log.
Lemma alice_holding : holding (tables _ _ server) alice.
Proof. eexists _, _. by split_and!; try (vm_compute; reflexivity). Qed.
Definition access : Access := MkAccess (Accounts.did alice) ScAccess.
Definition phone : bytes := lit "phone".
Lemma no_apps key : app_password (tables _ _ server) !! key = None.
Proof. change (app_password (tables _ _ server)) with (∅ : gmap (bytes * bytes) AppRow). apply lookup_empty. Qed.
Lemma phone_written : exists s1 written,
  create_password Toy.curve Toy.curve (lit "0123456789") 7 access phone true (server, None) = Some ((s1, None), Ok written)
  /\ wp_password written = app_password_text (lit "0123456789").
Proof.
  pose proof (create_password_cases Toy.curve Toy.curve (lit "0123456789") 7 access phone true server None) as E; cbv zeta in E.
  rewrite no_apps in E. eexists _, _. split; [exact E|done].
Qed.
End Sample.
Import SignupFacts.Sample Sample.

Lemma whoever_signed_up_can_sign_in_witness : exists s' w' shown a s2 session,
  run = (s', w', Some (Ok shown)) /\ holding (tables _ _ s') a
  /\ create_session Toy.curve Toy.curve (tokens _ _ manager) (lit "second") 9 (lit "ALICE@Example.com") (lit "a password") (s', None)
     = Some ((s2, None), Ok session)
  /\ ss_account session = shown_account a.
Proof.
  destruct run_answers as (s' & w' & shown & E).
  pose proof (whoever_signed_up_can_sign_in Toy.curve Toy.curve (fun _ _ => directory) Datatypes.id manager drawn None input
    empty_server (fresh_world false) s' w' shown None) as Hx.
  specialize (Hx invited_reachable).
  specialize (Hx salted).
  specialize (Hx E).
  destruct Hx as (a & handle & Hh & _ & _ & _ & _ & _ & _ & Hs).
  assert (lower (lit "ALICE@Example.com") ∈ [sc_handle shown; sc_did shown; lower (c_email input)]) as Hin
    by (do 2 (apply elem_of_cons; right); apply elem_of_cons; left; vm_compute; reflexivity).
  destruct (Hs (lit "ALICE@Example.com") (lit "second") 9 Hin) as (s2 & session & Hc & Ha & _).
  exists s', w', shown, a, s2, session. by split_and!.
Defined.

Lemma an_app_password_lives_until_it_is_revoked_witness : exists s1 written s2 session s3,
  create_password Toy.curve Toy.curve (lit "0123456789") 7 access phone true (server, None) = Some ((s1, None), Ok written)
  /\ create_session Toy.curve Toy.curve Auth.Sample.tokens (lit "opened") 9 (lit "Alice@example.com") (wp_password written) (s1, None)
     = Some ((s2, None), Ok session)
  /\ revoke_password Toy.curve Toy.curve access phone (s2, None) = Some ((s3, None), Ok tt)
  /\ exists e, create_session Toy.curve Toy.curve Auth.Sample.tokens (lit "again") 10 (lit "Alice@example.com") (wp_password written) (s3, None)
     = Some ((s3, None), Err e).
Proof.
  destruct phone_written as (s1 & written & E & Ep).
  assert (Password.verify (wp_password written) (password_scrypt alice) = false) as Hv by (rewrite Ep; vm_compute; reflexivity).
  assert (forall n row, app_password (tables _ _ server) !! (Did.str (Accounts.did alice), n) = Some row ->
    app_hash row <> Password.app (Accounts.did alice) (wp_password written)) as Hno by (intros n row Hl; by rewrite no_apps in Hl).
  destruct (an_app_password_lives_until_it_is_revoked Toy.curve Toy.curve server s1 None access alice phone true (lit "0123456789") 7 written
    accounts_reachable alice_holding eq_refl E Hv Hno) as (_ & _ & Hx).
  assert (goes_by (lower (lit "Alice@example.com")) alice) as Hg by (vm_compute; reflexivity).
  destruct (Hx Auth.Sample.tokens (lit "Alice@example.com") (lit "opened") 9 Hg) as (s2 & session & s3 & Hc & _ & _ & Hr & _ & _ & _ & Hn).
  exists s1, written, s2, session, s3. split_and!; [done|done|done|apply Hn].
Defined.

Lemma a_session_runs_until_it_is_closed_witness : exists s1 session a s3,
  create_session Toy.curve Toy.curve Auth.Sample.tokens (lit "opened") 9 (lit "did:plc:4cjoyc3cgpal7gnrpzyjhnv3") (lit "a password") (server, None)
    = Some ((s1, None), Ok session)
  /\ delete_session Toy.curve Toy.curve (MkRefresh (Accounts.did a) (lit "opened")) (s1, None) = Some ((s3, None), Ok tt)
  /\ refresh_method Toy.curve Toy.curve Auth.Sample.tokens 1 (fun _ => 10) (fun _ => lit "next") (fun _ d => d) 10
       (MkRefresh (Accounts.did a) (lit "opened")) (s3, None) = Some ((s3, None), Err revoked).
Proof.
  assert (goes_by (lower (lit "did:plc:4cjoyc3cgpal7gnrpzyjhnv3")) alice) as Hg by (vm_compute; reflexivity).
  pose proof (signs_in Toy.curve Toy.curve Auth.Sample.tokens (lit "opened") 9 alice (lit "did:plc:4cjoyc3cgpal7gnrpzyjhnv3") (lit "a password")
    server None (reachable_orderly _ accounts_reachable) alice_holding Hg ltac:(vm_compute; discriminate) ltac:(vm_compute; reflexivity)) as E.
  destruct (a_session_runs_until_it_is_closed Toy.curve Toy.curve server _ None Auth.Sample.tokens (lit "opened") 9 _ _ _
    accounts_reachable ltac:(vm_compute; reflexivity) E) as (a & scope & _ & _ & _ & _ & _ & s3 & Hd & Hr).
  eexists _, _, a, s3. split_and!; [exact E|exact Hd|apply Hr].
Defined.
